(* ===== verification/_CoqProject ===== *)
-Q . S2P
Prelude.v
Bloom.v
Rabin.v
Cdc.v
Hex.v
FsObj.v
FsJson.v
Paths.v
Sql.v
CfPath.v
CfFileop.v
FsMgr.v
Walk.v
Diff.v
Merge.v
CommitMgr.v
CommitJson.v
Gc.v
GcProof.v
RepoOp.v
RepoOpProof.v
LibView.v
Repo.v
CfV2Acl.v
CfAcl.v
Publish.v
PublishProof.v
CfLock.v
Handlers.v
HandlersProof.v
ChangeSet.v
ChangeSetProof.v
RepoPerm.v
PutFile.v
CopyMove.v
CopyMoveProof.v
PutFileProof.v
MergeSched.v
VirtualRepo.v
VirtualRepoProof.v
VirtualRepoCreate.v
Revert.v
RevertProof.v
Multipart.v
MultipartProof.v
Resume.v
SyncAuth.v
Quota.v
SyncTree.v
SyncUpdate.v
SyncUpdateProof.v
SyncFs.v
SyncTask.v
Fsck.v
FsckProof.v
Download.v
