(* ===== verification/Prelude.v ===== *)
(** * CloudFile server: a verification development

    The server keeps libraries.  A library is a history of commits; a commit has the
    id of a root directory; directories and files are immutable objects stored under
    the hash of their contents, files as lists of blocks that a content-defined
    chunking cuts.  Clients change a library by posting, deleting and renaming
    entries; the server rewrites the directories above the change, makes a commit and
    publishes it by a compare-and-swap of the library's branch row, merging with or
    starting over from a head that has moved.  A collector removes what no kept commit
    refers to.  CloudFile adds to this an external authority on access rules (the Hub),
    reservations of paths under checkout, and a lifecycle in which providers are asked
    before and told after every write.

    ** Files and what they model (sources under [src/])

    Foundations
    - [Prelude]: machine integers with their wrap-around, byte lists, tactics ([bools],
      [case_bool], [cf_simp]) and the hint database [cf].
    - [Bloom]: [lib/bloom-filter.c].  [Rabin], [Cdc]: [common/cdc/].
    - [Hex]: object ids of [lib/utils.c].  [Paths]: C strings and slash-separated paths.
      [Sql]: the [=] and [LIKE] of the SQL statements.

    Objects and trees
    - [FsObj], [FsJson]: files and directories of [common/fs-mgr.c] with their binary and
      JSON forms.  [FsMgr]: reading, saving, path lookup, traversal, block lists, sizes.
      The object store is a finite map from ids to objects; a write may fail.
    - [Walk], [Diff]: [common/diff-simple.c].  [Merge]: [common/merge-new.c].
    - [CommitMgr], [CommitJson]: [common/commit-mgr.c].
    - [RepoOp], [RepoOpProof]: the tree operations of [server/repo-op.c].  The recursive
      functions of the code differ in what they do to the target directory;
      [rewrite_path] is the recursion they share.
    - [ChangeSet], [ChangeSetProof]: [server/change-set.c] and batch deletion.

    Libraries, publication, handlers
    - [Repo]: the rows of a library ([server/repo-mgr.c], [common/branch-mgr.c]).
    - [Publish], [PublishProof]: the compare-and-swap with its two phases
      ([common/branch-mgr.c], [common/cf-v2-edit-fence.c]) and [gen_new_commit].  A call is
      a program counter ([gnc_pc]) and [gnc_step] takes one step of it over the shared
      [World]; an [Oracle] says what a step meets (the clock, failing writes and queries,
      the Hub).  [step] interleaves any number of calls with anything else.
    - [Handlers], [HandlersProof]: the request handlers of [server/repo-op.c], from their
      checks through [retry] to what they report; [op_run] interleaves one handler with
      the rest of the system.  [PutFile], [PutFileProof]: the replacement of files and
      directories and the creation of directories with their parents.  [CopyMove],
      [CopyMoveProof]: copies and moves that share objects.  [LibView]: lemmas on the view
      of a library these use.
    - [MergeSched]: the scheduler of merges ([server/virtual-repo.c]).  [VirtualRepo],
      [VirtualRepoProof], [VirtualRepoCreate]: virtual libraries ([server/virtual-repo.c]),
      their merge task as one process beside the others, and the change of the name of a
      library ([server/repo-mgr.c]).
    - [Revert], [RevertProof]: restoring files, directories and whole libraries
      ([server/repo-op.c]).
    - [Gc], [GcProof]: the collector ([server/gc/gc-core.c]).  [Fsck], [FsckProof]: the
      check and repair of libraries ([server/gc/fsck.c]); reads may fail as an oracle says.

    Transfer
    - [Multipart], [MultipartProof]: the state machine that takes the body of an upload apart
      ([server/upload-file.c]).  [Resume]: uploads that go on where they stopped, with the
      table of temporary files ([server/upload-file.c], [server/repo-mgr.c]).
    - [Download]: the callbacks that send a file or a range of it
      ([server/access-file.c]).
    - [SyncAuth]: tokens, permissions and the caches of the sync server
      ([server/http-server.c]); a request is two steps, between which others run.  [Quota]:
      [server/quota-mgr.c].
    - [SyncTree]: the comparison of trees for missing blocks and for the objects to send.
      [SyncUpdate], [SyncUpdateProof]: uploaded commits and the update of the head with its
      checks, merges and retries, as steps between those of other processes.  [SyncFs]:
      packs of objects, block uploads and block maps.  [SyncTask]: the lists of objects
      that a pool of threads computes, with the memory of the results as state (all
      [server/http-server.c]).

    Access
    - [CfPath]: [common/cf-path.c].  [CfFileop]: the write lifecycle
      ([common/cf-fileop.c]).  [CfLock]: the write barrier ([common/cf-lock.c]).
    - [CfV2Acl]: [common/cf-v2-acl.c].  [CfAcl]: [common/cf-ext.c], [common/cf-acl.c],
      [common/cf-v2-share.c], [common/cf-permission-many.c].  The Hub is a function from
      requests to answers, right or wrong.
    - [RepoPerm]: [server/repo-perm.c] and [common/cf-dir-page.c], with the tables of
      shares.

    ** What the theorems show

    - Nothing is lost: a collection keeps every object a kept commit refers to (also with
      a Bloom filter as its index); a three-way merge keeps the changes both sides made to
      files; over every interleaving of publications the history of the head only grows,
      and a call that reports success has its tree in it, as long as new commits get fresh
      ids.
    - Operations do what they say: posting, replacing, deleting and renaming refine
      insertions and removals in the map from paths to entries ([view]); batch deletion
      refines the removal of paths that do not lead through files; every sequence of operations, with any writes failing,
      keeps the library well formed; an upload that reports a commit has put on top of
      the head that was there a tree that differs by the uploaded file only; a handler
      moves the head exactly once or not at all, and the providers are told which; a
      conditional replacement moves it from the commit the caller named; a move without
      replacement takes the entries with what is below them to the first free names and
      changes nothing else; exactly the missing directories of
      a path are created; a restored entry shows what it showed in the old commit and nothing
      else changes; rewinding puts the old tree on top of the current head.
    - Virtual libraries follow their directory: a new one has its tree, the merge task
      brings both sides to one tree while nothing else moves their heads, merges of one library never overlap, and a requested
      merge is started.
    - The fences hold: what is published leaves the files at reserved paths as they were,
      meets the rules and the collector's mark it was checked against and, in a library with
      rules, was authorized by the Hub change by change; the write barrier and the fence agree; links,
      whole-tree exports and listings show nothing the rules hide.
    - Reads are complete: a diff reports exactly the changes; lookups and block lists are
      exact; reading a directory in pages gives the whole filtered listing; the permission
      on a sub-library is that of the nearest share.
    - Clients are in step with the server: an update that is answered with OK was
      permitted, passed its tests in the state of their step, and moved the head once, to
      the uploaded commit or its merge; the blocks of a tree
      that passes are in the store; the list of objects a client is sent is complete and
      holds nothing else; packs give the objects as they are stored; a token or permission
      that is taken away ends after a bounded time, over every interleaving with the
      caches; a library is within its quota exactly when the sums say so, while
      they fit 64 bits; the tasks of the
      object lists use no freed memory while their conditions hold.
    - Bytes arrive: a form is received as it was sent for every cut of its body that
      separates no CR from its LF; the chunking loop writes the blocks of the reference
      chunking, for sizes at which its [int] and [uint32_t] counters do not wrap; a resumed
      upload completes only with exactly the file; a file and a range are sent exactly,
      whatever the reads get.
    - Repair mends: a repaired tree is sound and differs from the old one exactly where that
      was damaged, when no directory is missing and no access fails; a check that passes
      from a verified root has seen every object and block.
    - Data round-trips: ids, directories and commits.
    - Programs end: a call of [gen_new_commit] takes at most 44 steps, traversals of a
      history visit every commit once, pages come to an end.

    Lemmas named in the manifest's findings prove where the code does not do what it
    means to.

    ** Parameters and fuel

    Hash functions, libuuid's and GLib's UTF-8 test, the Hub, block indexing and
    passwords are parameters; theorems that need it assume that the directory hash and
    SHA-256 have no collisions ([collision_free]), and jansson's laws are the class
    [SearpcLaws].  Each such theorem has a witness with a concrete function.  Where a C
    loop is not structural the model takes fuel: walks over trees need fuel above the
    height of the tree ([ranked], [comparable], and the theorems give a sufficient
    amount), walks over a history the size of the commit store, loops over strings the
    length of the string, the chunk loop of listings the number of entries; results then
    do not depend on it.  A model that runs out of fuel returns [None], which no theorem
    counts as success.

    ** Not modelled

    - I/O and glue: the RPC front end, the event loop and routing of the HTTP servers, the
      headers of replies, archives ([server/pack-dir.c]), object and block backends (the
      stores are finite maps), the database layer (tables are finite maps and lists; every
      query may fail), encryption, JSON text of requests and replies (and
      with it the failure of jansson to pack names that are not UTF-8), logging, timers, configuration,
      statistics and events, command line tools, the controller and the FUSE mount.
    - SQL-only managers: users, groups, the management of shares, trash.
    - Copies of objects from store to store, the scheduler of sizes, the export of files by
      the repair tool, checkout and verification of files in [common/fs-mgr.c], and the
      transfer locks of [common/cf-v2-acl.c]: threads and I/O around operations that are
      modelled. *)

From stdpp Require Export base tactics list list_numbers numbers option strings gmap sorting.
From Stdlib Require Export ZArith Lia.

Declare Scope cf_scope.
Delimit Scope cf_scope with cf.
#[global] Open Scope Z_scope.
#[global] Open Scope cf_scope.

(** ** Machine integers: C's fixed-width unsigned and signed types as [Z]
    with the wrap-around written out. *)
Definition u8 (z : Z) : Z := z mod 2 ^ 8.
Definition u32 (z : Z) : Z := z mod 2 ^ 32.
Definition u64 (z : Z) : Z := z mod 2 ^ 64.

Definition s32 (z : Z) : Z := (z + 2 ^ 31) mod 2 ^ 32 - 2 ^ 31.

Definition s64 (z : Z) : Z := (z + 2 ^ 63) mod 2 ^ 64 - 2 ^ 63.

Lemma u8_id z : 0 <= z < 256 -> u8 z = z.
Proof. intros. unfold u8. apply Z.mod_small. lia. Qed.

Lemma u32_id z : 0 <= z < 2 ^ 32 -> u32 z = z.
Proof. intros. unfold u32. by apply Z.mod_small. Qed.

Lemma u64_id z : 0 <= z < 2 ^ 64 -> u64 z = z.
Proof. intros. unfold u64. by apply Z.mod_small. Qed.

Lemma s32_id z : - 2 ^ 31 <= z < 2 ^ 31 -> s32 z = z.
Proof. intros. unfold s32. rewrite Z.mod_small; lia. Qed.

Lemma s64_id z : - 2 ^ 63 <= z < 2 ^ 63 -> s64 z = z.
Proof. intros. unfold s64. rewrite Z.mod_small; lia. Qed.

Create HintDb cf discriminated.
#[export] Hint Resolve u8_id u32_id u64_id s32_id s64_id : cf.

(** [case_bools] destructs boolean tests of the program into the facts they
    decide; [cf_simp] is the everyday simplifier of the development. *)
Ltac case_bool :=
  match goal with
  | H : context [ if ?b then _ else _ ] |- _ =>
      lazymatch type of b with bool => destruct b eqn:? end
  | |- context [ if ?b then _ else _ ] =>
      lazymatch type of b with bool => destruct b eqn:? end
  end.
Ltac cf_simp := repeat (simplify_option_eq || case_bool); try done.

(** [bools] turns boolean tests among the hypotheses into propositions, [blia]
    then calls [lia]. *)
Ltac bools :=
  repeat match goal with
  | H : (_ <? _)%nat = true |- _ => apply Nat.ltb_lt in H
  | H : (_ <? _)%nat = false |- _ => apply Nat.ltb_ge in H
  | H : (_ <=? _)%nat = true |- _ => apply Nat.leb_le in H
  | H : (_ <=? _)%nat = false |- _ => apply Nat.leb_gt in H
  | H : (_ =? _)%nat = true |- _ => apply Nat.eqb_eq in H
  | H : (_ =? _)%nat = false |- _ => apply Nat.eqb_neq in H
  | H : _ && _ = true |- _ => apply andb_true_iff in H as [? ?]
  | H : _ || _ = false |- _ => apply orb_false_iff in H as [? ?]
  | H : negb _ = true |- _ => apply negb_true_iff in H
  | H : negb _ = false |- _ => apply negb_false_iff in H
  end.
Ltac blia := bools; lia.

(** ** Bits of a byte *)
Lemma Z_div2_mod2_inj i j : i / 2 = j / 2 -> i mod 2 = j mod 2 -> i = j.
Proof.
  intros. rewrite (Z.div_mod i 2), (Z.div_mod j 2) by lia. congruence.
Qed.

Lemma Z_div8_mod8_inj i j : i / 8 = j / 8 -> i mod 8 = j mod 8 -> i = j.
Proof.
  intros. rewrite (Z.div_mod i 8), (Z.div_mod j 8) by lia. congruence.
Qed.

Lemma testbit_setbit b i j :
  0 <= i -> 0 <= j ->
  Z.testbit (Z.lor b (Z.shiftl 1 i)) j = Z.testbit b j || (i =? j).
Proof.
  intros. rewrite Z.lor_spec, Z.shiftl_1_l. f_equal.
  rewrite Z.pow2_bits_eqb by done. done.
Qed.

Lemma testbit_clearbit b i j :
  0 <= i -> 0 <= j ->
  Z.testbit (Z.land b (Z.lnot (Z.shiftl 1 i))) j = Z.testbit b j && negb (i =? j).
Proof.
  intros. rewrite Z.land_spec, Z.lnot_spec, Z.shiftl_1_l by done.
  rewrite Z.pow2_bits_eqb by done. done.
Qed.

Lemma byte_lor a b : 0 <= a < 256 -> 0 <= b < 256 -> 0 <= Z.lor a b < 256.
Proof.
  intros. split; [apply Z.lor_nonneg; lia|].
  destruct (decide (Z.lor a b = 0)) as [->|]; [lia|].
  assert (Z.log2 (Z.lor a b) < 8); [|change 256 with (2 ^ 8); apply Z.log2_lt_pow2; [|done]].
  - rewrite Z.log2_lor by lia.
    assert (forall z, 0 <= z < 256 -> Z.log2 z < 8).
    { intros z ?. destruct (decide (z = 0)) as [->|]; [done|].
      apply Z.log2_lt_pow2; lia. }
    apply Z.max_lub_lt; auto.
  - assert (0 <= Z.lor a b) by (apply Z.lor_nonneg; lia). lia.
Qed.

Lemma byte_land_l a b : 0 <= a < 256 -> 0 <= Z.land a b < 256.
Proof.
  intros. replace (Z.land a b) with (Z.land a b mod 2 ^ 8).
  { apply Z.mod_pos_bound. lia. }
  rewrite <- Z.land_ones, <- Z.land_assoc, (Z.land_comm b), Z.land_assoc by lia.
  rewrite Z.land_ones, Z.mod_small by lia. done.
Qed.

#[export] Hint Resolve byte_lor byte_land_l : cf.

(** ** Bit-level reasoning on [Z] *)
Lemma lt_pow2_bits z i :
  0 <= i -> (0 <= z < 2 ^ i <-> 0 <= z /\ forall j, i <= j -> Z.testbit z j = false).
Proof.
  intros Hi. split.
  - intros Hz. split; [lia|]. intros j Hj. rewrite <- (Z.mod_small z (2 ^ i)) by lia.
    by rewrite Z.mod_pow2_bits_high by lia.
  - intros [Hz Hb]. replace z with (z mod 2 ^ i).
    { apply Z.mod_pos_bound, Z.pow_pos_nonneg; lia. }
    apply Z.bits_inj'. intros j Hj. destruct (decide (j < i)).
    + by rewrite Z.mod_pow2_bits_low.
    + rewrite Z.mod_pow2_bits_high by lia. by rewrite Hb by lia.
Qed.

Lemma lxor_lt_pow2 a b i : 0 <= i -> 0 <= a < 2 ^ i -> 0 <= b < 2 ^ i -> 0 <= Z.lxor a b < 2 ^ i.
Proof.
  intros Hi Ha Hb. apply lt_pow2_bits; [done|].
  apply lt_pow2_bits in Ha as [? Ha], Hb as [? Hb]; [|done..]. split.
  - apply Z.lxor_nonneg; lia.
  - intros j Hj. by rewrite Z.lxor_spec, Ha, Hb.
Qed.

Lemma lxor_cancel_top a b i :
  0 <= i -> 0 <= a < 2 ^ (i + 1) -> 0 <= b < 2 ^ (i + 1) ->
  Z.testbit a i = true -> Z.testbit b i = true -> 0 <= Z.lxor a b < 2 ^ i.
Proof.
  intros Hi Ha Hb Ta Tb. apply lt_pow2_bits; [done|].
  apply lt_pow2_bits in Ha as [? Ha], Hb as [? Hb]; [|lia..]. split.
  - apply Z.lxor_nonneg; lia.
  - intros j Hj. rewrite Z.lxor_spec. destruct (decide (j = i)) as [->|].
    + by rewrite Ta, Tb.
    + by rewrite Ha, Hb by lia.
Qed.

Lemma lt_pow2_drop a i :
  0 <= i -> 0 <= a < 2 ^ (i + 1) -> Z.testbit a i = false -> 0 <= a < 2 ^ i.
Proof.
  intros Hi Ha Ta. apply lt_pow2_bits; [done|].
  apply lt_pow2_bits in Ha as [? Ha]; [|lia..]. split; [done|].
  intros j Hj. destruct (decide (j = i)) as [->|]; [done|by apply Ha; lia].
Qed.

Lemma split_pow2 z w : 0 <= w -> Z.lxor (Z.shiftl (Z.shiftr z w) w) (z mod 2 ^ w) = z.
Proof.
  intros Hw. apply Z.bits_inj'. intros j Hj.
  rewrite Z.lxor_spec, Z.shiftl_spec by done. destruct (decide (j < w)).
  - rewrite Z.testbit_neg_r, Z.mod_pow2_bits_low by lia. done.
  - rewrite Z.shiftr_spec, Z.mod_pow2_bits_high by lia.
    rewrite xorb_false_r. f_equal. lia.
Qed.

Lemma land_bit_eqb z i : 0 <= i -> negb (Z.land z (Z.shiftl 1 i) =? 0) = Z.testbit z i.
Proof.
  intros Hi. rewrite Z.shiftl_1_l. destruct (Z.testbit z i) eqn:E.
  - apply negb_true_iff, Z.eqb_neq. intros H0.
    assert (Z.testbit (Z.land z (2 ^ i)) i = true) as H.
    { by rewrite Z.land_spec, E, Z.pow2_bits_true. }
    by rewrite H0, Z.bits_0 in H.
  - apply negb_false_iff, Z.eqb_eq, Z.bits_inj'. intros j Hj.
    rewrite Z.land_spec, Z.bits_0, Z.pow2_bits_eqb by done.
    destruct (Z.eqb_spec i j) as [->|]; [by rewrite E|by rewrite andb_false_r].
Qed.

(** ** Counting loops: [for (i = hi; i >= lo; i--)] and [for (i = lo; i < hi; i++)] *)
Definition down (hi lo : Z) : list Z := reverse (seqZ lo (hi - lo + 1)).
Definition up (lo hi : Z) : list Z := seqZ lo (hi - lo).

Lemma down_nil hi lo : hi < lo -> down hi lo = [].
Proof. intros. unfold down. rewrite seqZ_nil by lia. done. Qed.

Lemma down_cons hi lo : lo <= hi -> down hi lo = hi :: down (hi - 1) lo.
Proof.
  intros. unfold down.
  replace (hi - lo + 1) with (Z.of_nat (S (Z.to_nat (hi - lo)))) by lia.
  rewrite seqZ_S, reverse_snoc. f_equal; [lia|].
  f_equal. f_equal. lia.
Qed.

(** Induction over a descending loop with an invariant indexed by the counter. *)
Lemma down_loop {S} (f : S -> Z -> S) (P : Z -> S -> Prop) lo :
  (forall i s, lo <= i -> P (i + 1) s -> P i (f s i)) ->
  forall n hi s, hi - lo + 1 = Z.of_nat n -> P (hi + 1) s -> P lo (foldl f s (down hi lo)).
Proof.
  intros Hstep n. induction n as [|n IH]; intros hi s Hn Hs.
  - rewrite down_nil by lia. simpl. by replace lo with (hi + 1) by lia.
  - rewrite down_cons by lia. simpl. apply IH; [lia|].
    replace (hi - 1 + 1) with hi by lia. apply Hstep; [lia|done].
Qed.

(** ** Filtering lists *)
Lemma filter_ext_in {A} (P Q : A -> Prop) `{!forall x, Decision (P x), !forall x, Decision (Q x)} (l : list A) :
  (forall x, x ∈ l -> (P x <-> Q x)) -> filter P l = filter Q l.
Proof.
  induction l as [|x l IH]; intros Hin; [done|]. rewrite !filter_cons.
  rewrite IH by (intros; apply Hin; by right).
  pose proof (Hin x ltac:(by left)) as Hx.
  destruct (decide (P x)), (decide (Q x)); tauto || done.
Qed.

Lemma filter_all {A} (P : A -> Prop) `{!forall x, Decision (P x)} (l : list A) :
  (forall x, x ∈ l -> P x) -> filter P l = l.
Proof.
  induction l as [|x l IH]; intros Hin; [done|]. rewrite filter_cons, decide_True by (apply Hin; by left).
  f_equal. apply IH. intros; apply Hin; by right.
Qed.

Lemma filter_fmap {A B} (f : A -> B) (P : B -> Prop) `{!forall x, Decision (P x)} (l : list A) :
  filter P (f <$> l) = f <$> filter (fun x => P (f x)) l.
Proof.
  induction l as [|x l IH]; [done|]. rewrite fmap_cons, !filter_cons, IH.
  by destruct (decide (P (f x))).
Qed.

(** Taking a duplicate-free part out of a duplicate-free list. *)
Lemma filter_out_perm {A} `{EqDecision A} (u l : list A) :
  NoDup l -> NoDup u -> (forall x, x ∈ u -> x ∈ l) -> l ≡ₚ filter (fun x => x ∉ u) l ++ u.
Proof.
  intros Hl Hu Hs. apply NoDup_Permutation; [done| |].
  - apply NoDup_app. split_and!; [by apply NoDup_filter| |done].
    intros x [? _]%list_elem_of_filter. done.
  - intros x. rewrite elem_of_app, list_elem_of_filter. destruct (decide (x ∈ u)); naive_solver.
Qed.
