(* ===== verification/Bloom.v ===== *)
(** * Bloom filter ([lib/bloom-filter.c])

    The plain and the counting Bloom filter used by the garbage collector to
    remember the live blocks and fs objects.  The bit and counter arrays are
    byte lists; every array access is an [option], so [Some] results are also
    a proof that no access leaves its array.  SHA-256 comes from OpenSSL and is
    the parameter [sha_int] (the digest seen as an array of [size_t]). *)

From S2P Require Import Prelude.

Record Bloom := mkBloom {
  asize : Z;
  a : list Z;
  csize : Z;
  counters : list Z;
  k : Z;
  counting : bool
}.

Definition set_a (b : Bloom) (x : list Z) : Bloom :=
  mkBloom (asize b) x (csize b) (counters b) (k b) (counting b).
Definition set_counters (b : Bloom) (x : list Z) : Bloom :=
  mkBloom (asize b) (a b) (csize b) x (k b) (counting b).

(** The three bit macros, on an [unsigned char] array. *)
Definition SETBIT (arr : list Z) (n : Z) : option (list Z) :=
  b ← arr !! Z.to_nat (n / 8);
  Some (<[Z.to_nat (n / 8) := u8 (Z.lor b (Z.shiftl 1 (n mod 8)))]> arr).

Definition CLEARBIT (arr : list Z) (n : Z) : option (list Z) :=
  b ← arr !! Z.to_nat (n / 8);
  Some (<[Z.to_nat (n / 8) := u8 (Z.land b (Z.lnot (Z.shiftl 1 (n mod 8))))]> arr).

Definition GETBIT (arr : list Z) (n : Z) : option bool :=
  b ← arr !! Z.to_nat (n / 8);
  Some (negb (Z.land b (Z.shiftl 1 (n mod 8)) =? 0)).

(** [counting] is stored in a one-bit field, so only its lowest bit survives,
    while the allocation of the counters tests the whole integer. *)
Definition bloom_create (size k counting : Z) : option Bloom :=
  if (k <=? 0) || (4 <? k) then None
  else
    let a := replicate (Z.to_nat (u64 (size + 7) / 8)) 0 in
    let csize := if counting =? 0 then 0 else u64 (size * 4) in
    let counters :=
      if counting =? 0 then [] else replicate (Z.to_nat (u64 (csize + 7) / 8)) 0 in
    Some (mkBloom size a csize counters k (Z.odd counting)).

Definition incr_bit (bf : Bloom) (bit_idx : Z) : option Bloom :=
  arr ← SETBIT (a bf) bit_idx;
  let bf := set_a bf arr in
  if negb (counting bf) then Some bf
  else
    let char_idx := bit_idx / 2 in
    let offset := bit_idx mod 2 in
    value ← counters bf !! Z.to_nat char_idx;
    let low := Z.land value 0xF in
    let high := Z.shiftr (Z.land value 0xF0) 4 in
    let low' := if (offset =? 0) && (low <? 0xF) then low + 1 else low in
    let high' := if negb (offset =? 0) && (high <? 0xF) then high + 1 else high in
    let value' := u8 (Z.lor (Z.shiftl high' 4) low') in
    Some (set_counters bf (<[Z.to_nat char_idx := value']> (counters bf))).

Definition decr_bit (bf : Bloom) (bit_idx : Z) : option Bloom :=
  if negb (counting bf) then
    arr ← CLEARBIT (a bf) bit_idx;
    Some (set_a bf arr)
  else
    let char_idx := bit_idx / 2 in
    let offset := bit_idx mod 2 in
    value ← counters bf !! Z.to_nat char_idx;
    let low := Z.land value 0xF in
    let high := Z.shiftr (Z.land value 0xF0) 4 in
    let low' := if (offset =? 0) && ((0 <? low) && (low <? 0xF)) then low - 1 else low in
    let high' :=
      if negb (offset =? 0) && ((0 <? high) && (high <? 0xF)) then high - 1 else high in
    let cleared := if offset =? 0 then low' =? 0 else high' =? 0 in
    arr ← (if cleared then CLEARBIT (a bf) bit_idx else Some (a bf));
    let value' := u8 (Z.lor (Z.shiftl high' 4) low') in
    Some (set_counters (set_a bf arr)
            (<[Z.to_nat char_idx := value']> (counters bf))).

Section hashing.
Context (sha_int : string -> nat -> Z).

(** [sha_int[i] % bloom->asize] for [i = 0 .. k-1]; [None] is the division by
    zero of an empty filter. *)
Definition indices (bf : Bloom) (s : string) : option (list Z) :=
  if asize bf =? 0 then None
  else Some ((fun i => sha_int s i mod asize bf) <$> seq 0 (Z.to_nat (k bf))).

(** The callees take an [unsigned int], so the index is truncated to 32 bits. *)
Fixpoint each_bit (f : Bloom -> Z -> option Bloom) (bf : Bloom) (idxs : list Z)
  : option Bloom :=
  match idxs with
  | [] => Some bf
  | i :: idxs => bf' ← f bf (u32 i); each_bit f bf' idxs
  end.

Definition bloom_add (bf : Bloom) (s : string) : option (Z * Bloom) :=
  idxs ← indices bf s;
  bf' ← each_bit incr_bit bf idxs;
  Some (0, bf').

Definition bloom_remove (bf : Bloom) (s : string) : option (Z * Bloom) :=
  if negb (counting bf) then Some (-1, bf)
  else
    idxs ← indices bf s;
    bf' ← each_bit decr_bit bf idxs;
    Some (0, bf').

(** [bloom_test] indexes with the full [size_t]. *)
Fixpoint test_bits (arr : list Z) (idxs : list Z) : option Z :=
  match idxs with
  | [] => Some 1
  | i :: idxs => b ← GETBIT arr i; if b : bool then test_bits arr idxs else Some 0
  end.

Definition bloom_test (bf : Bloom) (s : string) : option Z :=
  idxs ← indices bf s; test_bits (a bf) idxs.
End hashing.

(** ** Reading bits and counters *)

Definition bit (arr : list Z) (n : Z) : bool :=
  Z.testbit (default 0 (arr !! Z.to_nat (n / 8))) (n mod 8).

Definition nibble (v : Z) (odd : Z) : Z :=
  if odd =? 0 then Z.land v 0xF else Z.shiftr (Z.land v 0xF0) 4.

Definition ctr (bf : Bloom) (n : Z) : Z :=
  nibble (default 0 (counters bf !! Z.to_nat (n / 2))) (n mod 2).

Definition is_byte (z : Z) : Prop := 0 <= z < 256.

(** The representation invariant of a filter made by [bloom_create] with a
    size the 32-bit index can address. *)
Record bloom_wf (bf : Bloom) : Prop := {
  wf_size : 0 < asize bf <= 2 ^ 32;
  wf_a : length (a bf) = Z.to_nat ((asize bf + 7) / 8);
  wf_a_bytes : Forall is_byte (a bf);
  wf_counters : counting bf = true ->
    length (counters bf) = Z.to_nat ((asize bf * 4 + 7) / 8);
  wf_counters_bytes : Forall is_byte (counters bf);
  wf_k : 0 < k bf <= 4
}.

Lemma Z_byte_index_lt n size :
  0 <= n < size -> (Z.to_nat (n / 8) < Z.to_nat ((size + 7) / 8))%nat.
Proof.
  intros. apply Z2Nat.inj_lt; [apply Z.div_pos; lia| apply Z.div_pos; lia|].
  apply Z.div_lt_upper_bound; [lia|].
  pose proof (Z.div_mod (size + 7) 8). pose proof (Z.mod_pos_bound (size + 7) 8). lia.
Qed.

Lemma Z_nibble_index_lt n size :
  0 <= n < size -> (Z.to_nat (n / 2) < Z.to_nat ((size * 4 + 7) / 8))%nat.
Proof.
  intros. apply Z2Nat.inj_lt; [apply Z.div_pos; lia| apply Z.div_pos; lia|].
  apply Z.div_lt_upper_bound; [lia|].
  pose proof (Z.div_mod (size * 4 + 7) 8). pose proof (Z.mod_pos_bound (size * 4 + 7) 8). lia.
Qed.

Lemma bit_update arr n m f :
  0 <= n -> 0 <= m -> (Z.to_nat (n / 8) < length arr)%nat ->
  bit (<[Z.to_nat (n / 8) := f (default 0 (arr !! Z.to_nat (n / 8)))]> arr) m =
  if n / 8 =? m / 8
  then Z.testbit (f (default 0 (arr !! Z.to_nat (n / 8)))) (m mod 8) else bit arr m.
Proof.
  intros Hn Hm Hlt. unfold bit. destruct (Z.eqb_spec (n / 8) (m / 8)) as [E|Hne].
  - rewrite <- E, list_lookup_insert_eq by done. done.
  - rewrite list_lookup_insert_ne; [done|].
    intros E. apply Hne. apply Z2Nat.inj in E; [done|apply Z.div_pos; lia..].
Qed.

Lemma small_shift_byte n : 0 <= n -> is_byte (Z.shiftl 1 (n mod 8)).
Proof.
  intros. pose proof (Z.mod_pos_bound n 8). unfold is_byte. rewrite Z.shiftl_1_l.
  split; [apply Z.pow_nonneg; lia|]. change 256 with (2 ^ 8).
  apply Z.pow_lt_mono_r; lia.
Qed.

Lemma byte_at arr i : Forall is_byte arr -> is_byte (default 0 (arr !! i)).
Proof.
  intros F. destruct (arr !! i) eqn:E; simpl; [|unfold is_byte; lia].
  by eapply Forall_lookup_1 in F.
Qed.

Lemma lookup_default (arr : list Z) i :
  (i < length arr)%nat -> arr !! i = Some (default 0 (arr !! i)).
Proof. intros [x ->]%lookup_lt_is_Some_2. done. Qed.

Lemma eqb_mod8 n m : (n / 8 =? m / 8) && (n mod 8 =? m mod 8) = (n =? m).
Proof.
  apply eq_true_iff_eq. rewrite andb_true_iff, !Z.eqb_eq.
  split; [intros []; by apply Z_div8_mod8_inj | by intros ->].
Qed.

Lemma SETBIT_ok arr n :
  Forall is_byte arr -> 0 <= n -> (Z.to_nat (n / 8) < length arr)%nat ->
  exists arr', SETBIT arr n = Some arr' /\ length arr' = length arr /\
    Forall is_byte arr' /\
    forall m, 0 <= m -> bit arr' m = bit arr m || (n =? m).
Proof.
  intros HF Hn Hlt. unfold SETBIT. rewrite (lookup_default _ _ Hlt). simpl.
  eexists. split; [reflexivity|]. split; [apply length_insert|].
  pose proof (byte_at arr (Z.to_nat (n / 8)) HF) as Hb.
  assert (is_byte (Z.lor (default 0 (arr !! Z.to_nat (n / 8))) (Z.shiftl 1 (n mod 8))))
    as Hlor by (apply byte_lor; [done|by apply small_shift_byte]).
  rewrite u8_id by done. split; [by apply Forall_insert|].
  intros m Hm.
  rewrite (bit_update arr n m (fun v => Z.lor v (Z.shiftl 1 (n mod 8)))) by done.
  rewrite <- (eqb_mod8 n m). destruct (Z.eqb_spec (n / 8) (m / 8)) as [E|]; simpl.
  - rewrite testbit_setbit by (apply Z.mod_pos_bound; lia). unfold bit. by rewrite E.
  - by rewrite orb_false_r.
Qed.

Lemma CLEARBIT_ok arr n :
  Forall is_byte arr -> 0 <= n -> (Z.to_nat (n / 8) < length arr)%nat ->
  exists arr', CLEARBIT arr n = Some arr' /\ length arr' = length arr /\
    Forall is_byte arr' /\
    forall m, 0 <= m -> bit arr' m = bit arr m && negb (n =? m).
Proof.
  intros HF Hn Hlt. unfold CLEARBIT. rewrite (lookup_default _ _ Hlt). simpl.
  eexists. split; [reflexivity|]. split; [apply length_insert|].
  pose proof (byte_at arr (Z.to_nat (n / 8)) HF) as Hb.
  assert (is_byte (Z.land (default 0 (arr !! Z.to_nat (n / 8)))
    (Z.lnot (Z.shiftl 1 (n mod 8))))) as Hlor by (by apply byte_land_l).
  rewrite u8_id by done. split; [by apply Forall_insert|].
  intros m Hm.
  rewrite (bit_update arr n m (fun v => Z.land v (Z.lnot (Z.shiftl 1 (n mod 8))))) by done.
  rewrite <- (eqb_mod8 n m). destruct (Z.eqb_spec (n / 8) (m / 8)) as [E|]; simpl.
  - rewrite testbit_clearbit by (apply Z.mod_pos_bound; lia). unfold bit. by rewrite E.
  - by rewrite andb_true_r.
Qed.

Lemma GETBIT_ok arr n :
  0 <= n -> (Z.to_nat (n / 8) < length arr)%nat -> GETBIT arr n = Some (bit arr n).
Proof.
  intros Hn Hlt. unfold GETBIT, bit. rewrite (lookup_default _ _ Hlt). simpl.
  by rewrite land_bit_eqb by (apply Z.mod_pos_bound; lia).
Qed.

Lemma nibble_pack h l :
  0 <= h < 16 -> 0 <= l < 16 ->
  let v := u8 (Z.lor (Z.shiftl h 4) l) in
  is_byte v /\ nibble v 0 = l /\ nibble v 1 = h.
Proof.
  intros Hh Hl.
  assert (h = 0 \/ h = 1 \/ h = 2 \/ h = 3 \/ h = 4 \/ h = 5 \/ h = 6 \/ h = 7 \/
          h = 8 \/ h = 9 \/ h = 10 \/ h = 11 \/ h = 12 \/ h = 13 \/ h = 14 \/ h = 15)
    as Ch by lia.
  assert (l = 0 \/ l = 1 \/ l = 2 \/ l = 3 \/ l = 4 \/ l = 5 \/ l = 6 \/ l = 7 \/
          l = 8 \/ l = 9 \/ l = 10 \/ l = 11 \/ l = 12 \/ l = 13 \/ l = 14 \/ l = 15)
    as Cl by lia.
  clear Hh Hl.
  repeat destruct Ch as [->|Ch]; subst; repeat destruct Cl as [->|Cl]; subst;
    vm_compute; intuition congruence.
Qed.

Lemma nibble_range v o : is_byte v -> 0 <= nibble v o < 16.
Proof.
  intros Hv. unfold is_byte, nibble in *. case_bool.
  - change 0xF with (Z.ones 4). rewrite Z.land_ones by lia.
    by apply Z.mod_pos_bound.
  - assert (0 <= Z.land v 240 < 256) by auto with cf.
    rewrite Z.shiftr_div_pow2 by lia. change (2 ^ 4) with 16.
    split; [apply Z.div_pos; lia | apply Z.div_lt_upper_bound; lia].
Qed.

(** Updating one counter byte only moves the nibble it is meant to move. *)
Lemma nibble_update bf n m v' :
  0 <= n -> 0 <= m -> (Z.to_nat (n / 2) < length (counters bf))%nat ->
  ctr (set_counters bf (<[Z.to_nat (n / 2) := v']> (counters bf))) m =
  if n / 2 =? m / 2 then nibble v' (m mod 2) else ctr bf m.
Proof.
  intros Hn Hm Hlt. unfold ctr; simpl.
  destruct (Z.eqb_spec (n / 2) (m / 2)) as [E|Hne].
  - rewrite <- E, list_lookup_insert_eq by done. done.
  - rewrite list_lookup_insert_ne; [done|].
    intros E. apply Hne. apply Z2Nat.inj in E; [done|apply Z.div_pos; lia..].
Qed.

(** Both counter updates read a byte, change one nibble to [f] of it and write
    the byte back. *)
Lemma counter_write bf n (f : Z -> Z) v :
  0 <= n -> counters bf !! Z.to_nat (n / 2) = Some v -> is_byte v ->
  (forall z, 0 <= z < 16 -> 0 <= f z < 16) ->
  let low := Z.land v 0xF in
  let high := Z.shiftr (Z.land v 0xF0) 4 in
  let low' := if n mod 2 =? 0 then f low else low in
  let high' := if n mod 2 =? 0 then high else f high in
  let v' := u8 (Z.lor (Z.shiftl high' 4) low') in
  is_byte v' /\
  forall m, 0 <= m ->
    ctr (set_counters bf (<[Z.to_nat (n / 2) := v']> (counters bf))) m =
    if n =? m then f (ctr bf m) else ctr bf m.
Proof.
  intros Hn Hv Hb Hf low high low' high' v'.
  pose proof (nibble_range v 0 Hb) as Rl. pose proof (nibble_range v 1 Hb) as Rh.
  change (0 <= low < 16) in Rl. change (0 <= high < 16) in Rh.
  assert (0 <= low' < 16 /\ 0 <= high' < 16) as [Rl' Rh'].
  { unfold low', high'. case_bool; auto. }
  destruct (nibble_pack high' low' Rh' Rl') as (Bv' & Nl & Nh). split; [exact Bv'|].
  intros m Hm. rewrite nibble_update by eauto using lookup_lt_Some.
  pose proof (Z.mod_pos_bound n 2). pose proof (Z.mod_pos_bound m 2).
  destruct (Z.eqb_spec (n / 2) (m / 2)) as [E|E].
  - assert (ctr bf m = if m mod 2 =? 0 then low else high) as Hctr.
    { unfold ctr. rewrite <- E, Hv. done. }
    destruct (Z.eqb_spec n m) as [Enm|Hne].
    + rewrite Hctr. destruct (Z.eqb_spec (m mod 2) 0) as [E0|E0].
      * rewrite E0. unfold v'. rewrite Nl. unfold low'. by rewrite Enm, E0.
      * assert (m mod 2 = 1) as E1 by lia. rewrite E1. unfold v'. rewrite Nh.
        unfold high'. by rewrite Enm, E1.
    + assert (n mod 2 <> m mod 2) by (intros ?; by apply Hne, Z_div2_mod2_inj).
      rewrite Hctr. destruct (Z.eqb_spec (m mod 2) 0) as [E0|E0].
      * rewrite E0. unfold v'. rewrite Nl. unfold low'.
        destruct (Z.eqb_spec (n mod 2) 0); [lia|done].
      * assert (m mod 2 = 1) as E1 by lia. rewrite E1. unfold v'. rewrite Nh.
        unfold high'. destruct (Z.eqb_spec (n mod 2) 0); [done|lia].
  - destruct (Z.eqb_spec n m) as [->|]; done.
Qed.

Definition same_shape (b1 b2 : Bloom) : Prop :=
  asize b2 = asize b1 /\ k b2 = k b1 /\ counting b2 = counting b1.

Definition incr_ctr (z : Z) : Z := if z <? 0xF then z + 1 else z.
Definition decr_ctr (z : Z) : Z := if (0 <? z) && (z <? 0xF) then z - 1 else z.

Lemma incr_ctr_range z : 0 <= z < 16 -> 0 <= incr_ctr z < 16.
Proof. unfold incr_ctr. case_bool; lia. Qed.
Lemma decr_ctr_range z : 0 <= z < 16 -> 0 <= decr_ctr z < 16.
Proof. unfold decr_ctr. case_bool; lia. Qed.
#[export] Hint Resolve incr_ctr_range decr_ctr_range : cf.

Lemma incr_bit_ok bf n :
  bloom_wf bf -> 0 <= n < asize bf ->
  exists bf', incr_bit bf n = Some bf' /\ bloom_wf bf' /\ same_shape bf bf' /\
    (forall m, 0 <= m -> bit (a bf') m = bit (a bf) m || (n =? m)) /\
    (counting bf = true -> forall m, 0 <= m ->
       ctr bf' m = if n =? m then incr_ctr (ctr bf m) else ctr bf m).
Proof.
  intros W Hn. destruct W as [Ws Wa Wab Wc Wcb Wk].
  destruct (SETBIT_ok (a bf) n) as (arr & E & L & F & B);
    [done|lia|rewrite Wa; by apply Z_byte_index_lt|].
  unfold incr_bit. rewrite E; simpl. destruct (counting bf) eqn:Hc; simpl.
  - assert (Z.to_nat (n / 2) < length (counters bf))%nat as Hlt.
    { rewrite Wc by done. by apply Z_nibble_index_lt. }
    rewrite (lookup_default _ _ Hlt); simpl.
    set (v := default 0 _).
    destruct (counter_write (set_a bf arr) n incr_ctr v) as [Bv' Hctr];
      [lia|by apply lookup_default|by apply byte_at|auto with cf|].
    set (low := Z.land v 15) in *. set (high := Z.shiftr (Z.land v 240) 4) in *.
    replace (if (n mod 2 =? 0) && (low <? 15) then low + 1 else low)
      with (if n mod 2 =? 0 then incr_ctr low else low)
      by (unfold incr_ctr; destruct (n mod 2 =? 0); done).
    replace (if negb (n mod 2 =? 0) && (high <? 15) then high + 1 else high)
      with (if n mod 2 =? 0 then high else incr_ctr high)
      by (unfold incr_ctr; destruct (n mod 2 =? 0); done).
    eexists; split; [reflexivity|]. split; [split; simpl; try done|].
    + by rewrite L.
    + intros _. by rewrite length_insert, Wc.
    + by apply Forall_insert.
    + split; [done|]. split; [exact B|].
      intros _ m Hm. exact (Hctr m Hm).
  - eexists; split; [reflexivity|]. split; [split; simpl; try done|].
    + by rewrite L.
    + congruence.
    + split; [done|]. split; [exact B|done].
Qed.

Lemma decr_bit_ok bf n :
  bloom_wf bf -> counting bf = true -> 0 <= n < asize bf ->
  exists bf', decr_bit bf n = Some bf' /\ bloom_wf bf' /\ same_shape bf bf' /\
    (forall m, 0 <= m -> bit (a bf') m =
       bit (a bf) m && negb ((n =? m) && (decr_ctr (ctr bf n) =? 0))) /\
    (forall m, 0 <= m -> ctr bf' m = if n =? m then decr_ctr (ctr bf m) else ctr bf m).
Proof.
  intros W Hc Hn. destruct W as [Ws Wa Wab Wc Wcb Wk].
  unfold decr_bit. rewrite Hc; simpl.
  assert (Z.to_nat (n / 2) < length (counters bf))%nat as Hlt.
  { rewrite Wc by done. by apply Z_nibble_index_lt. }
  rewrite (lookup_default _ _ Hlt); simpl. set (v := default 0 _).
  set (low := Z.land v 15) in *. set (high := Z.shiftr (Z.land v 240) 4) in *.
  replace (if (n mod 2 =? 0) && ((0 <? low) && (low <? 15)) then low - 1 else low)
    with (if n mod 2 =? 0 then decr_ctr low else low)
    by (unfold decr_ctr; destruct (n mod 2 =? 0); done).
  replace (if negb (n mod 2 =? 0) && ((0 <? high) && (high <? 15)) then high - 1 else high)
    with (if n mod 2 =? 0 then high else decr_ctr high)
    by (unfold decr_ctr; destruct (n mod 2 =? 0); done).
  set (low' := if n mod 2 =? 0 then decr_ctr low else low).
  set (high' := if n mod 2 =? 0 then high else decr_ctr high).
  assert ((if n mod 2 =? 0 then low' =? 0 else high' =? 0) = (decr_ctr (ctr bf n) =? 0))
    as Hcl.
  { unfold ctr, nibble, low', high'. fold v low high.
    by destruct (n mod 2 =? 0). }
  rewrite Hcl.
  assert (exists arr, (if decr_ctr (ctr bf n) =? 0 then CLEARBIT (a bf) n else Some (a bf))
    = Some arr /\ length arr = length (a bf) /\ Forall is_byte arr /\
    forall m, 0 <= m -> bit arr m =
      bit (a bf) m && negb ((n =? m) && (decr_ctr (ctr bf n) =? 0))) as (arr & E & L & F & B).
  { destruct (decr_ctr (ctr bf n) =? 0).
    - destruct (CLEARBIT_ok (a bf) n) as (arr & E & L & F & B);
        [done|lia|rewrite Wa; by apply Z_byte_index_lt|].
      exists arr. split_and!; try done. intros m Hm. by rewrite andb_true_r, B.
    - eexists. split_and!; try done. intros. by rewrite andb_false_r, andb_true_r. }
  rewrite E; simpl.
  destruct (counter_write (set_a bf arr) n decr_ctr v) as [Bv' Hctr];
    [lia|by apply lookup_default|by apply byte_at|auto with cf|].
  eexists; split; [reflexivity|]. split; [split; simpl; try done|].
  - by rewrite L.
  - intros _. by rewrite length_insert, Wc.
  - by apply Forall_insert.
  - split; [done|]. split; [exact B|exact Hctr].
Qed.

(** ** No false negatives *)

Definition count (i : Z) (H : list Z) : Z := Z.of_nat (count_occ Z.eq_dec H i).

Lemma count_cons i j H : count i (j :: H) = count i H + (if j =? i then 1 else 0).
Proof.
  unfold count; simpl. destruct (Z.eq_dec j i) as [->|Hne].
  - rewrite Z.eqb_refl. lia.
  - apply Z.eqb_neq in Hne. rewrite Hne. lia.
Qed.

Lemma count_nonneg i H : 0 <= count i H.
Proof. unfold count. lia. Qed.

Lemma count_pos i H : i ∈ H -> 1 <= count i H.
Proof.
  intros Hin. unfold count. rewrite list_elem_of_In, (count_occ_In Z.eq_dec) in Hin. lia.
Qed.

Lemma count_perm i H1 H2 : H1 ≡ₚ H2 -> count i H1 = count i H2.
Proof. intros P. unfold count. by rewrite (proj1 (Permutation_count_occ Z.eq_dec _ _) P). Qed.

Lemma ctr_range bf i : bloom_wf bf -> 0 <= ctr bf i < 16.
Proof. intros W. apply nibble_range, byte_at, W. Qed.

(** [hits] lists the bit indices of the recorded strings, with repetitions. *)
Record bloom_inv (bf : Bloom) (hits : list Z) : Prop := {
  inv_wf : bloom_wf bf;
  inv_plain : counting bf = false -> forall i, i ∈ hits -> 0 <= i -> bit (a bf) i = true;
  inv_set : counting bf = true -> forall i, 0 <= i -> 0 < ctr bf i -> bit (a bf) i = true;
  inv_count : counting bf = true -> forall i, 0 <= i ->
    ctr bf i = 15 \/ count i hits <= ctr bf i
}.

Definition in_range (bf : Bloom) (i : Z) : Prop := 0 <= i < asize bf.

Lemma bloom_inv_perm bf h1 h2 : h1 ≡ₚ h2 -> bloom_inv bf h1 -> bloom_inv bf h2.
Proof.
  intros P [W Hp Hs Hc]. split; [done| |done|].
  - intros E i Hi. apply Hp; [done|by rewrite P].
  - intros E i Hi. rewrite <- (count_perm i _ _ P). by apply Hc.
Qed.

Lemma bloom_inv_bit bf hits i : bloom_inv bf hits -> i ∈ hits -> 0 <= i -> bit (a bf) i = true.
Proof.
  intros [W Hp Hs Hc] Hin Hi. destruct (counting bf) eqn:E; [|by apply Hp].
  apply Hs; [done|done|]. pose proof (count_pos i hits Hin).
  destruct (Hc eq_refl i Hi); lia.
Qed.

Lemma u32_in_range bf i : bloom_wf bf -> in_range bf i -> u32 i = i.
Proof. intros W [? ?]. destruct (wf_size _ W). apply u32_id. lia. Qed.

Lemma incr_bit_inv bf hits i :
  bloom_inv bf hits -> in_range bf i ->
  exists bf', incr_bit bf i = Some bf' /\ same_shape bf bf' /\ bloom_inv bf' (i :: hits).
Proof.
  intros [W Hp Hs Hc] Hi.
  destruct (incr_bit_ok bf i W Hi) as (bf' & E & W' & Sh & B & C).
  exists bf'. split_and!; try done. destruct Sh as (S1 & S2 & S3).
  split; [done|..]; rewrite S3; intros Hcnt j.
  - intros [->|Hj]%elem_of_cons ?; rewrite B by done.
    + by rewrite Z.eqb_refl, orb_true_r.
    + by rewrite Hp.
  - intros Hj Hpos. rewrite B, C in * by done. destruct (i =? j); [apply orb_true_r|].
    by rewrite Hs.
  - intros Hj. rewrite C, count_cons by done. unfold incr_ctr.
    pose proof (ctr_range bf j W). pose proof (Hc Hcnt j Hj).
    destruct (i =? j); repeat case_bool; lia.
Qed.

Lemma decr_bit_inv bf hits i :
  bloom_inv bf (i :: hits) -> counting bf = true -> in_range bf i ->
  exists bf', decr_bit bf i = Some bf' /\ same_shape bf bf' /\ bloom_inv bf' hits.
Proof.
  intros [W Hp Hs Hc] Hcnt Hi.
  destruct (decr_bit_ok bf i W Hcnt Hi) as (bf' & E & W' & Sh & B & C).
  exists bf'. split_and!; try done. destruct Sh as (S1 & S2 & S3).
  split; [done|..]; rewrite S3; intros Hcnt' j; [congruence|..].
  - intros Hj Hpos. rewrite B, C in * by done. unfold decr_ctr in *.
    destruct (Z.eqb_spec i j) as [->|]; simpl.
    + destruct (Z.eqb_spec (if (0 <? ctr bf j) && (ctr bf j <? 15) then ctr bf j - 1
        else ctr bf j) 0); simpl; [lia|]. rewrite andb_true_r. apply Hs; [done..|].
      case_bool; lia.
    + rewrite andb_true_r. by apply Hs.
  - intros Hj. rewrite C by done. pose proof (count_nonneg j hits). pose proof (ctr_range bf j W).
    pose proof (Hc Hcnt j Hj) as Hcj. rewrite count_cons in Hcj. unfold decr_ctr.
    destruct (i =? j); repeat case_bool; lia.
Qed.

Lemma same_shape_trans b1 b2 b3 : same_shape b1 b2 -> same_shape b2 b3 -> same_shape b1 b3.
Proof. unfold same_shape. intuition congruence. Qed.

Lemma each_incr_inv idxs : forall bf hits,
  bloom_inv bf hits -> Forall (in_range bf) idxs ->
  exists bf', each_bit incr_bit bf idxs = Some bf' /\ same_shape bf bf' /\
    bloom_inv bf' (idxs ++ hits).
Proof.
  induction idxs as [|i idxs IH]; intros bf hits I F; simpl.
  - by exists bf.
  - apply Forall_cons in F as [Hi F]. rewrite (u32_in_range bf i (inv_wf _ _ I) Hi).
    destruct (incr_bit_inv bf hits i I Hi) as (bf1 & -> & Sh & I1). simpl.
    destruct (IH bf1 (i :: hits) I1) as (bf2 & -> & Sh2 & I2).
    { unfold in_range. by rewrite (proj1 Sh). }
    exists bf2. split_and!; [done|by eapply same_shape_trans|].
    eapply bloom_inv_perm; [|done]. by rewrite Permutation_middle.
Qed.

Lemma each_decr_inv idxs : forall bf hits,
  bloom_inv bf (idxs ++ hits) -> counting bf = true -> Forall (in_range bf) idxs ->
  exists bf', each_bit decr_bit bf idxs = Some bf' /\ same_shape bf bf' /\
    bloom_inv bf' hits.
Proof.
  induction idxs as [|i idxs IH]; intros bf hits I Hc F; simpl.
  - by exists bf.
  - apply Forall_cons in F as [Hi F]. rewrite (u32_in_range bf i (inv_wf _ _ I) Hi).
    destruct (decr_bit_inv bf (idxs ++ hits) i I Hc Hi) as (bf1 & -> & Sh & I1). simpl.
    destruct (IH bf1 hits I1) as (bf2 & -> & Sh2 & I2).
    { by rewrite (proj2 (proj2 Sh)). }
    { unfold in_range. by rewrite (proj1 Sh). }
    exists bf2. split_and!; [done|by eapply same_shape_trans|done].
Qed.

Lemma test_bits_all arr size idxs :
  length arr = Z.to_nat ((size + 7) / 8) -> Forall (fun i => 0 <= i < size) idxs ->
  Forall (fun i => bit arr i = true) idxs -> test_bits arr idxs = Some 1.
Proof.
  intros L. induction idxs as [|i idxs IH]; intros Fr Fb; simpl; [done|].
  apply Forall_cons in Fr as [Hi Fr]. apply Forall_cons in Fb as [Hb Fb].
  rewrite GETBIT_ok; [|lia|rewrite L; by apply Z_byte_index_lt].
  simpl. rewrite Hb. auto.
Qed.

Section traces.
Context (sha_int : string -> nat -> Z).

Definition hits_of (size kk : Z) (s : string) : list Z :=
  (fun i => sha_int s i mod size) <$> seq 0 (Z.to_nat kk).

Lemma indices_ok bf s :
  bloom_wf bf ->
  indices sha_int bf s = Some (hits_of (asize bf) (k bf) s) /\
  Forall (in_range bf) (hits_of (asize bf) (k bf) s).
Proof.
  intros W. destruct (wf_size _ W). unfold indices. split.
  - destruct (Z.eqb_spec (asize bf) 0); [lia|done].
  - unfold hits_of. apply Forall_fmap, Forall_true. intros i. simpl.
    apply Z.mod_pos_bound. lia.
Qed.

(** The filters a client can build: create one, add strings, and remove
    strings that are currently recorded ([live], a multiset). *)
Inductive reach : Bloom -> list string -> Prop :=
| reach_create size kk c bf :
    0 < size <= 2 ^ 32 -> bloom_create size kk c = Some bf -> reach bf []
| reach_add bf live s r bf' :
    reach bf live -> bloom_add sha_int bf s = Some (r, bf') -> reach bf' (s :: live)
| reach_remove bf live s live' r bf' :
    reach bf live -> live ≡ₚ s :: live' ->
    bloom_remove sha_int bf s = Some (r, bf') -> reach bf' live'.

Definition live_hits (bf : Bloom) (live : list string) : list Z :=
  live ≫= hits_of (asize bf) (k bf).

Lemma create_inv size kk c bf :
  0 < size <= 2 ^ 32 -> bloom_create size kk c = Some bf -> bloom_inv bf [].
Proof.
  intros Hs Hc. unfold bloom_create in Hc.
  destruct ((kk <=? 0) || (4 <? kk)) eqn:Hk; [done|]. injection Hc as <-.
  apply orb_false_iff in Hk as [Hk1%Z.leb_gt Hk2%Z.ltb_ge].
  assert (Hz : forall n, Forall is_byte (replicate n 0))
    by (intros n; apply Forall_replicate; unfold is_byte; lia).
  split; simpl.
  - split; simpl; try done; try lia.
    + by rewrite length_replicate, u64_id by lia.
    + intros Hodd. destruct (Z.eqb_spec c 0) as [->|]; [done|].
      by rewrite length_replicate, !u64_id by (rewrite ?u64_id; lia).
    + destruct (c =? 0); [constructor|done].
  - intros _ i Hi. by apply not_elem_of_nil in Hi.
  - intros _ i Hi Hpos. exfalso. revert Hpos. unfold ctr; simpl.
    assert (default 0 ((if c =? 0 then []
      else replicate (Z.to_nat (u64 ((if c =? 0 then 0 else u64 (size * 4)) + 7) / 8)) 0)
      !! Z.to_nat (i / 2)) = 0) as ->.
    { destruct (_ !! _) eqn:E; [|done]. destruct (c =? 0); [done|].
      apply lookup_replicate in E as [-> _]. done. }
    unfold nibble. case_bool; done.
  - intros _ i Hi. right. unfold count; simpl. unfold ctr.
    apply nibble_range, byte_at. simpl. destruct (c =? 0); [constructor|done].
Qed.

Lemma add_inv bf live s :
  bloom_inv bf (live_hits bf live) ->
  exists bf', bloom_add sha_int bf s = Some (0, bf') /\ same_shape bf bf' /\
    bloom_inv bf' (live_hits bf' (s :: live)).
Proof.
  intros I. destruct (indices_ok bf s (inv_wf _ _ I)) as [Ei Fi].
  destruct (each_incr_inv _ _ _ I Fi) as (bf' & E & Sh & I').
  exists bf'. unfold bloom_add. rewrite Ei; simpl. rewrite E; simpl.
  split_and!; [done..|]. destruct Sh as (S1 & S2 & _).
  unfold live_hits in *. rewrite S1, S2. exact I'.
Qed.

Lemma remove_inv bf live s live' :
  bloom_inv bf (live_hits bf live) -> live ≡ₚ s :: live' ->
  exists r bf', bloom_remove sha_int bf s = Some (r, bf') /\ same_shape bf bf' /\
    bloom_inv bf' (live_hits bf' live').
Proof.
  intros I P. unfold bloom_remove.
  assert (live_hits bf live ≡ₚ hits_of (asize bf) (k bf) s ++ live_hits bf live') as Ph.
  { unfold live_hits. by rewrite P. }
  destruct (counting bf) eqn:Hc; simpl.
  - destruct (indices_ok bf s (inv_wf _ _ I)) as [Ei Fi]. rewrite Ei; simpl.
    apply (bloom_inv_perm _ _ _ Ph) in I.
    destruct (each_decr_inv _ _ _ I Hc Fi) as (bf' & E & Sh & I'). rewrite E; simpl.
    exists 0, bf'. split_and!; [done..|]. destruct Sh as (S1 & S2 & _).
    unfold live_hits in *. by rewrite S1, S2.
  - exists (-1), bf. split_and!; [done..|].
    destruct I as [W Hp Hs Hcn]. split; [done| |congruence|congruence].
    intros _ i Hi. apply Hp; [done|]. rewrite Ph. apply elem_of_app. by right.
Qed.

Lemma reach_inv bf live : reach bf live -> bloom_inv bf (live_hits bf live).
Proof.
  induction 1 as [size kk c bf Hs Hc|bf live s r bf' R IH Ha|bf live s live' r bf' R IH P Hr].
  - eapply create_inv; eassumption.
  - destruct (add_inv bf live s IH) as (bf1 & E & _ & I1).
    rewrite Ha in E. by injection E as -> ->.
  - destruct (remove_inv bf live s live' IH P) as (r1 & bf1 & E & _ & I1).
    rewrite Hr in E. by injection E as -> ->.
Qed.

Lemma inv_test bf live s :
  bloom_inv bf (live_hits bf live) -> s ∈ live -> bloom_test sha_int bf s = Some 1.
Proof.
  intros I Hs. pose proof (inv_wf _ _ I) as W.
  destruct (indices_ok bf s W) as [Ei Fi]. unfold bloom_test. rewrite Ei; simpl.
  apply (test_bits_all _ (asize bf)); [apply W|done|].
  apply Forall_forall. intros i Hi. apply (bloom_inv_bit _ _ _ I).
  - unfold live_hits. apply list_elem_of_bind. eauto.
  - rewrite Forall_forall in Fi. by apply Fi.
Qed.
End traces.

(** C40: A filter of at most 2^32 bits built by creating it, adding strings and
    removing only strings it currently records answers 1 for every string it
    records: the live-block index has no false negatives, in the plain and in
    the counting variant (saturated counters included). *)
Theorem bloom_no_false_negative sha_int bf live s :
  reach sha_int bf live -> s ∈ live -> bloom_test sha_int bf s = Some 1.
Proof. intros R. by apply inv_test, reach_inv. Qed.

(** On every reachable filter of at most 2^32 bits the three operations stay
    inside the bit and counter arrays and never divide by zero: add and test
    always return, and so does removing a recorded string. *)
Theorem bloom_ops_in_bounds sha_int bf live s :
  reach sha_int bf live ->
  (exists bf', bloom_add sha_int bf s = Some (0, bf')) /\
  (exists r, bloom_test sha_int bf s = Some r) /\
  (forall live', live ≡ₚ s :: live' ->
     exists r bf', bloom_remove sha_int bf s = Some (r, bf')).
Proof.
  intros R%reach_inv. pose proof (inv_wf _ _ R) as W. split_and!.
  - destruct (add_inv _ _ _ s R) as (bf' & E & _). eauto.
  - destruct (indices_ok sha_int bf s W) as [Ei Fi]. unfold bloom_test. rewrite Ei; simpl.
    clear Ei. induction Fi as [|i idxs Hi Fi IH]; simpl; [eauto|].
    rewrite GETBIT_ok by (unfold in_range in Hi; rewrite ?(wf_a _ W); auto using Z_byte_index_lt with lia).
    simpl. destruct (bit _ _); eauto.
  - intros live' P. destruct (remove_inv _ _ _ _ _ R P) as (r & bf' & E & _). eauto.
Qed.

(** Above 2^32 bits the guarantee is lost: [incr_bit] takes a 32-bit index
    and [bloom_test] a 64-bit one, so a string whose hash lands at or beyond bit
    2^32 is not found right after it was added. *)
Theorem bloom_large_false_negative sha_int size bf s bf' :
  2 ^ 32 < size < 2 ^ 60 -> bloom_create size 1 0 = Some bf ->
  2 ^ 32 <= sha_int s 0%nat mod size ->
  bloom_add sha_int bf s = Some (0, bf') -> bloom_test sha_int bf' s = Some 0.
Proof.
  intros Hs Hc Hi Ha. injection Hc as <-.
  unfold bloom_add, indices in Ha; simpl in Ha.
  destruct (Z.eqb_spec size 0); [lia|]. simpl in Ha.
  pose proof (Z.mod_pos_bound (sha_int s 0%nat) size ltac:(lia)) as Hm.
  set (i := sha_int s 0%nat mod size) in *.
  set (arr := replicate (Z.to_nat (u64 (size + 7) / 8)) 0) in *.
  assert (Forall is_byte arr) as HF
    by (apply Forall_replicate; unfold is_byte; lia).
  assert (length arr = Z.to_nat ((size + 7) / 8)) as HL
    by (unfold arr; rewrite length_replicate, u64_id by lia; done).
  pose proof (Z.mod_pos_bound i (2 ^ 32) ltac:(lia)) as Hu. fold (u32 i) in Hu.
  destruct (SETBIT_ok arr (u32 i)) as (arr' & E & L' & _ & B);
    [done|lia|rewrite HL; apply Z_byte_index_lt; lia|].
  unfold incr_bit in Ha. simpl in Ha. rewrite E in Ha. simpl in Ha.
  injection Ha as <-. unfold bloom_test, indices; simpl.
  destruct (Z.eqb_spec size 0); [lia|]. simpl. fold i.
  rewrite GETBIT_ok; [|lia|rewrite L', HL; apply Z_byte_index_lt; lia]. simpl.
  rewrite B by lia. destruct (Z.eqb_spec (u32 i) i); [lia|]. rewrite orb_false_r.
  assert (bit arr i = false) as ->; [|done]. unfold bit, arr.
  destruct (_ !! _) eqn:El; simpl; [apply lookup_replicate in El as [-> _]|];
    apply Z.testbit_0_l.
Qed.

Definition toy_sha (s : string) (i : nat) : Z := Z.of_nat (String.length s) * 7 + Z.of_nat i * 5.

Lemma bloom_no_false_negative_witness :
  exists bf, reach toy_sha bf ["abc"] /\ bloom_test toy_sha bf "abc" = Some 1.
Proof.
  destruct (bloom_create 64 3 1) as [bf0|] eqn:E0; [|discriminate].
  destruct (bloom_add toy_sha bf0 "z") as [[r1 bf1]|] eqn:E1;
    [|vm_compute in E0; injection E0 as <-; discriminate].
  destruct (bloom_add toy_sha bf1 "abc") as [[r2 bf2]|] eqn:E2;
    [|vm_compute in E0; injection E0 as <-; vm_compute in E1; injection E1 as <- <-;
      discriminate].
  destruct (bloom_remove toy_sha bf2 "z") as [[r3 bf3]|] eqn:E3;
    [|vm_compute in E0; injection E0 as <-; vm_compute in E1; injection E1 as <- <-;
      vm_compute in E2; injection E2 as <- <-; discriminate].
  assert (reach toy_sha bf3 ["abc"]) as R.
  { eapply reach_remove; [eapply reach_add; [eapply reach_add;
      [eapply reach_create; [|exact E0]; lia|exact E1]|exact E2]| |exact E3].
    apply Permutation_swap. }
  exists bf3. split; [exact R|].
  apply (bloom_no_false_negative toy_sha bf3 ["abc"] "abc" R). constructor.
Defined.

Lemma bloom_ops_in_bounds_witness :
  exists bf, bloom_create 8 4 0 = Some bf /\ exists r, bloom_test toy_sha bf "q" = Some r.
Proof.
  destruct (bloom_create 8 4 0) as [bf|] eqn:E; [|discriminate].
  exists bf. split; [reflexivity|].
  eapply (bloom_ops_in_bounds toy_sha bf [] "q"), reach_create; [|exact E]. lia.
Defined.

Lemma plain_add_returns sha size s :
  0 < size < 2 ^ 60 ->
  exists bf bf', bloom_create size 1 0 = Some bf /\ bloom_add sha bf s = Some (0, bf').
Proof.
  intros Hs. set (arr := replicate (Z.to_nat (u64 (size + 7) / 8)) 0).
  pose proof (Z.mod_pos_bound (sha s 0%nat) size ltac:(lia)) as Hm.
  set (i := sha s 0%nat mod size) in *.
  pose proof (Z.mod_pos_bound i (2 ^ 32) ltac:(lia)) as Hu. fold (u32 i) in Hu.
  assert (u32 i <= i) by (unfold u32; apply Z.mod_le; lia).
  destruct (SETBIT_ok arr (u32 i)) as (arr' & E & _).
  { apply Forall_replicate. unfold is_byte. lia. }
  { lia. }
  { unfold arr. rewrite length_replicate, u64_id by lia. apply Z_byte_index_lt. lia. }
  exists (mkBloom size arr 0 [] 1 false), (mkBloom size arr' 0 [] 1 false).
  split; [reflexivity|]. unfold bloom_add, indices; simpl.
  destruct (Z.eqb_spec size 0); [lia|]. simpl. fold i.
  unfold incr_bit; simpl. rewrite E. reflexivity.
Qed.

Lemma bloom_large_false_negative_witness :
  exists bf', bloom_test (fun _ _ => 2 ^ 32) bf' "x" = Some 0.
Proof.
  destruct (plain_add_returns (fun _ _ => 2 ^ 32) (2 ^ 33) "x") as (bf & bf' & Hc & Ha); [lia|].
  exists bf'. refine (bloom_large_false_negative _ (2 ^ 33) bf "x" bf' _ Hc _ Ha);
    vm_compute; [split; reflexivity | discriminate].
Defined.
