(* ===== verification/Rabin.v ===== *)
(** * Rabin fingerprints ([common/cdc/rabin-checksum.c])

    The polynomial arithmetic over GF(2) that builds the tables [T] and [U],
    and the rolling checksum that content-defined chunking cuts on.  The
    64-bit and 32-bit truncations of the C types are written out. *)

From S2P Require Import Prelude.

Definition MSB64 : Z := 0x8000000000000000.
Definition poly : Z := 0xbfe6b8a5bf378d83.

(** The globals [T], [U] and [shift]. *)
Record rabin_tables := mkTables { T : list Z; U : list Z; shift : Z }.

Definition bytemsb : list Z :=
  [0; 1; 2; 2] ++ replicate 4 3 ++ replicate 8 4 ++ replicate 16 5 ++
  replicate 32 6 ++ replicate 64 7 ++ replicate 128 8.

Definition fls32 (v : Z) : Z :=
  if negb (Z.land v 0xffff0000 =? 0) then
    if negb (Z.land v 0xff000000 =? 0)
    then 24 + bytemsb !!! Z.to_nat (Z.shiftr v 24)
    else 16 + bytemsb !!! Z.to_nat (Z.shiftr v 16)
  else if negb (Z.land v 0x0000ff00 =? 0)
  then 8 + bytemsb !!! Z.to_nat (Z.shiftr v 8)
  else bytemsb !!! Z.to_nat v.

Definition fls64 (v : Z) : Z :=
  let h := u32 (Z.shiftr v 32) in
  if negb (h =? 0) then 32 + fls32 h else fls32 (u32 v).

Definition polymod_high (d : Z) (st : Z * Z) (i : Z) : Z * Z :=
  let '(nh, nl) := st in
  if negb (Z.land nh (Z.shiftl 1 i) =? 0)
  then (Z.lxor nh (Z.shiftr d (63 - i)), Z.lxor nl (u64 (Z.shiftl d (i + 1))))
  else (nh, nl).

Definition polymod_low (d : Z) (nl : Z) (i : Z) : Z :=
  if negb (Z.land nl (Z.shiftl 1 i) =? 0) then Z.lxor nl (Z.shiftr d (63 - i)) else nl.

Definition polymod (nh nl d : Z) : Z :=
  let k := fls64 d - 1 in
  let d := u64 (Z.shiftl d (63 - k)) in
  let '(nh, nl) :=
    if negb (nh =? 0) then
      let nh := if negb (Z.land nh MSB64 =? 0) then Z.lxor nh d else nh in
      foldl (polymod_high d) (nh, nl) (down 62 0)
    else (nh, nl) in
  foldl (polymod_low d) nl (down 63 k).

Definition polymult_step (x y : Z) (st : Z * Z) (i : Z) : Z * Z :=
  let '(ph, pl) := st in
  if negb (Z.land x (Z.shiftl 1 i) =? 0)
  then (Z.lxor ph (Z.shiftr y (64 - i)), Z.lxor pl (u64 (Z.shiftl y i)))
  else (ph, pl).

Definition polymult (x y : Z) : Z * Z :=
  let pl := if negb (Z.land x 1 =? 0) then y else 0 in
  foldl (polymult_step x y) (0, pl) (up 1 64).

Definition polymmult (x y d : Z) : Z :=
  let '(h, l) := polymult x y in polymod h l d.

Definition append8 (t : rabin_tables) (p m : Z) : Z :=
  Z.lxor (Z.lor (u64 (Z.shiftl p 8)) m) (T t !!! Z.to_nat (Z.shiftr p (shift t))).

Definition calcT (poly : Z) (t : rabin_tables) : rabin_tables :=
  let xshift := fls64 poly - 1 in
  let T1 := polymod 0 (Z.shiftl 1 xshift) poly in
  mkTables
    ((fun j => Z.lor (polymmult j T1 poly) (u64 (Z.shiftl j xshift))) <$> up 0 256)
    (U t) (xshift - 8).

Definition calcU (size : Z) (t : rabin_tables) : rabin_tables :=
  let sizeshift := foldl (fun s (_ : Z) => append8 t s 0) 1 (up 1 size) in
  mkTables (T t) ((fun i => polymmult i sizeshift poly) <$> up 0 256) (shift t).

Definition rabin_init (len : Z) : rabin_tables :=
  calcU len (calcT poly (mkTables [] [] 0)).

(** [csum] is an [unsigned int]; the 64-bit result of [append8] is cut to it. *)
Definition rabin_rolling_checksum (t : rabin_tables) (csum c1 c2 : Z) : Z :=
  u32 (append8 t (Z.lxor csum (U t !!! Z.to_nat (u8 c1))) (u8 c2)).

Definition rabin_checksum (t : rabin_tables) (buf : list Z) : Z :=
  foldl (fun sum c => rabin_rolling_checksum t sum 0 c) 0 buf.

(** ** Find last set *)

Lemma bytemsb_spec (i : nat) :
  (i < 256)%nat -> bytemsb !!! i = if Z.of_nat i =? 0 then 0 else Z.log2 (Z.of_nat i) + 1.
Proof.
  intros Hi.
  assert (forallb (fun i => bytemsb !!! i =?
    if Z.of_nat i =? 0 then 0 else Z.log2 (Z.of_nat i) + 1) (seq 0 256) = true) as F
    by (vm_compute; reflexivity).
  rewrite forallb_forall in F. apply Z.eqb_eq, F, in_seq. lia.
Qed.

(** The number of significant bits of [v]. *)
Definition bitlen (v : Z) : Z := if v =? 0 then 0 else Z.log2 v + 1.

Lemma bytemsb_bitlen v : 0 <= v < 256 -> bytemsb !!! Z.to_nat v = bitlen v.
Proof. intros. rewrite bytemsb_spec by lia. rewrite Z2Nat.id by lia. done. Qed.

Lemma bitlen_shiftr v s : 0 <= s -> 2 ^ s <= v -> bitlen v = s + bitlen (Z.shiftr v s).
Proof.
  intros Hs Hv. assert (0 < 2 ^ s) by (apply Z.pow_pos_nonneg; lia).
  unfold bitlen. rewrite Z.shiftr_div_pow2 by done.
  assert (0 < v / 2 ^ s) by (apply Z.div_str_pos; lia).
  destruct (Z.eqb_spec v 0), (Z.eqb_spec (v / 2 ^ s) 0); try lia.
  rewrite <- Z.shiftr_div_pow2 by done. rewrite Z.log2_shiftr by lia.
  assert (s <= Z.log2 v) by (apply Z.log2_le_pow2; lia). lia.
Qed.

Lemma land_mask_zero v lo hi :
  0 <= lo <= hi -> 0 <= v < 2 ^ hi ->
  (Z.land v (2 ^ hi - 2 ^ lo) =? 0) = (v <? 2 ^ lo).
Proof.
  intros Hl Hv.
  assert (2 ^ hi - 2 ^ lo = Z.shiftl (Z.ones (hi - lo)) lo) as ->.
  { rewrite Z.ones_equiv, Z.shiftl_mul_pow2, <- Z.sub_1_r, Z.mul_sub_distr_r, <- Z.pow_add_r by lia.
    f_equal; [f_equal; lia|lia]. }
  destruct (Z.ltb_spec v (2 ^ lo)) as [Hlt|Hge].
  - apply Z.eqb_eq, Z.bits_inj'. intros j Hj. rewrite Z.land_spec, Z.bits_0.
    destruct (decide (j < lo)).
    + rewrite Z.shiftl_spec_low by lia. apply andb_false_r.
    + assert (0 <= v < 2 ^ lo) as Hb%lt_pow2_bits by lia; [|lia].
      rewrite (proj2 Hb) by lia. done.
  - apply Z.eqb_neq. intros H0.
    assert (0 <= v < 2 ^ lo); [|lia]. apply lt_pow2_bits; [lia|]. split; [lia|].
    intros j Hj. destruct (decide (j < hi)).
    + assert (Z.testbit (Z.land v (Z.shiftl (Z.ones (hi - lo)) lo)) j = false) as Hb
        by (by rewrite H0, Z.bits_0).
      rewrite Z.land_spec, Z.shiftl_spec_high, Z.ones_spec_low, andb_true_r in Hb by lia. done.
    + apply (lt_pow2_bits v hi); lia.
Qed.

Lemma shiftr_range v s w : 0 <= s -> 0 <= w -> 0 <= v < 2 ^ (s + w) -> 0 <= Z.shiftr v s < 2 ^ w.
Proof.
  intros Hs Hw Hv. rewrite Z.shiftr_div_pow2 by done. rewrite Z.pow_add_r in Hv by done.
  assert (0 < 2 ^ s) by (apply Z.pow_pos_nonneg; lia).
  split; [apply Z.div_pos; lia|apply Z.div_lt_upper_bound; lia].
Qed.

Lemma fls32_correct v : 0 <= v < 2 ^ 32 -> fls32 v = bitlen v.
Proof.
  intros Hv. unfold fls32.
  change 0xffff0000 with (2 ^ 32 - 2 ^ 16). change 0xff000000 with (2 ^ 32 - 2 ^ 24).
  change 0x0000ff00 with (2 ^ 16 - 2 ^ 8).
  rewrite (land_mask_zero v 16 32), (land_mask_zero v 24 32) by lia.
  destruct (Z.ltb_spec v (2 ^ 16)); simpl negb; cbv iota.
  - rewrite (land_mask_zero v 8 16) by lia. destruct (Z.ltb_spec v (2 ^ 8)); simpl negb; cbv iota.
    + by rewrite bytemsb_bitlen by lia.
    + rewrite bytemsb_bitlen by (apply (shiftr_range _ 8 8); lia).
      by rewrite <- bitlen_shiftr by lia.
  - destruct (Z.ltb_spec v (2 ^ 24)); simpl negb; cbv iota.
    + rewrite bytemsb_bitlen by (apply (shiftr_range _ 16 8); lia).
      by rewrite <- bitlen_shiftr by lia.
    + rewrite bytemsb_bitlen by (apply (shiftr_range _ 24 8); lia).
      by rewrite <- bitlen_shiftr by lia.
Qed.

Lemma fls64_correct v : 0 <= v < 2 ^ 64 -> fls64 v = bitlen v.
Proof.
  intros Hv. unfold fls64.
  pose proof (shiftr_range v 32 32 ltac:(lia) ltac:(lia) Hv) as Hh.
  rewrite (u32_id (Z.shiftr v 32)) by done.
  destruct (Z.eqb_spec (Z.shiftr v 32) 0) as [E|E]; simpl.
  - assert (v < 2 ^ 32).
    { rewrite Z.shiftr_div_pow2 in E by lia. apply Z.div_small_iff in E; lia. }
    rewrite u32_id by lia. apply fls32_correct. lia.
  - rewrite fls32_correct by done. symmetry. apply bitlen_shiftr; [lia|].
    rewrite Z.shiftr_div_pow2 in E by lia.
    destruct (Z.le_gt_cases (2 ^ 32) v); [done|]. rewrite Z.div_small in E by lia. done.
Qed.

(** ** Carry-less arithmetic: polynomials over GF(2) as bit vectors *)

Definition clterm (x y i : Z) : Z := if Z.testbit x i then Z.shiftl y i else 0.
Definition clsum (x y : Z) (l : list Z) : Z := foldr (fun i acc => Z.lxor (clterm x y i) acc) 0 l.

(** The product of two polynomials of at most 128 and any number of bits. *)
Definition clmul (x y : Z) : Z := clsum x y (up 0 128).

Lemma clsum_lxor x x' y l : clsum (Z.lxor x x') y l = Z.lxor (clsum x y l) (clsum x' y l).
Proof.
  induction l as [|i l IH]; simpl; [done|]. rewrite IH. unfold clterm.
  rewrite Z.lxor_spec. destruct (Z.testbit x i), (Z.testbit x' i); simpl;
    rewrite ?Z.lxor_0_l; apply Z.bits_inj'; intros j _; rewrite ?Z.lxor_spec;
    repeat match goal with |- context [Z.testbit ?a j] => destruct (Z.testbit a j) end; done.
Qed.

Lemma clsum_pow2 s y l :
  0 <= s -> NoDup l -> Forall (fun i => 0 <= i) l ->
  clsum (2 ^ s) y l = if decide (s ∈ l) then Z.shiftl y s else 0.
Proof.
  intros Hs. induction l as [|i l IH]; intros Hnd HF; simpl; [done|].
  apply NoDup_cons in Hnd as [Hni Hnd]. apply Forall_cons in HF as [Hi HF].
  rewrite IH by done. unfold clterm. rewrite Z.pow2_bits_eqb by done.
  destruct (Z.eqb_spec s i) as [->|Hne].
  - rewrite decide_False by done. rewrite decide_True by left. by rewrite Z.lxor_0_r.
  - rewrite Z.lxor_0_l. destruct (decide (s ∈ l)); case_decide as D; try done.
    + exfalso. apply D. by right.
    + apply elem_of_cons in D as [|]; done.
Qed.

Lemma elem_of_up i lo hi : i ∈ up lo hi <-> lo <= i < hi.
Proof. unfold up. rewrite elem_of_seqZ. lia. Qed.

Lemma clmul_pow2 s y : 0 <= s < 128 -> clmul (2 ^ s) y = Z.shiftl y s.
Proof.
  intros Hs. unfold clmul. rewrite clsum_pow2; [|lia|apply NoDup_seqZ|].
  - rewrite decide_True; [done|]. apply elem_of_up. lia.
  - apply Forall_forall. intros i Hi%elem_of_up. lia.
Qed.

Lemma clmul_0 y : clmul 0 y = 0.
Proof.
  unfold clmul. generalize (up 0 128). intros l. induction l as [|i l IH]; [done|].
  simpl. rewrite IH. unfold clterm. by rewrite Z.bits_0.
Qed.

(** [n] and [m] differ by a multiple of [d]. *)
Definition pcong (d n m : Z) : Prop := exists q, n = Z.lxor (clmul q d) m.

Lemma pcong_refl d n : pcong d n n.
Proof. exists 0. by rewrite clmul_0, Z.lxor_0_l. Qed.

Lemma pcong_shift d n m s : 0 <= s < 128 -> pcong d n m -> pcong d n (Z.lxor m (Z.shiftl d s)).
Proof.
  intros Hs [q ->]. exists (Z.lxor q (2 ^ s)). unfold clmul in *.
  rewrite clsum_lxor. fold (clmul q d) (clmul (2 ^ s) d). rewrite clmul_pow2 by done.
  rewrite (Z.lxor_comm m), Z.lxor_assoc, <- (Z.lxor_assoc (Z.shiftl d s)).
  by rewrite Z.lxor_nilpotent, Z.lxor_0_l.
Qed.

Definition join64 (h l : Z) : Z := Z.lxor (Z.shiftl h 64) l.

Lemma join64_lxor h l e :
  0 <= e -> Z.lxor (join64 h l) e =
  join64 (Z.lxor h (Z.shiftr e 64)) (Z.lxor l (u64 e)).
Proof.
  intros He. unfold join64. rewrite <- (split_pow2 e 64) at 1 by lia.
  rewrite Z.shiftl_lxor. unfold u64. rewrite !Z.lxor_assoc. f_equal.
  rewrite <- !Z.lxor_assoc. f_equal. apply Z.lxor_comm.
Qed.

Lemma shiftr_shiftl_join y i w : 0 <= i <= w -> Z.shiftr (Z.shiftl y i) w = Z.shiftr y (w - i).
Proof. intros. rewrite Z.shiftr_shiftl_r by lia. done. Qed.

Lemma polymult_step_correct x y st i :
  0 <= y -> 0 <= i <= 64 ->
  let st' := polymult_step x y st i in
  join64 (fst st') (snd st') = Z.lxor (join64 (fst st) (snd st)) (clterm x y i).
Proof.
  intros Hy Hi. destruct st as [ph pl]. unfold polymult_step, clterm.
  rewrite land_bit_eqb by lia. destruct (Z.testbit x i); simpl; [|by rewrite Z.lxor_0_r].
  rewrite join64_lxor by (apply Z.shiftl_nonneg; done).
  by rewrite shiftr_shiftl_join by lia.
Qed.

Lemma clsum_app x y l1 l2 : clsum x y (l1 ++ l2) = Z.lxor (clsum x y l1) (clsum x y l2).
Proof.
  induction l1 as [|i l1 IH]; simpl; [by rewrite Z.lxor_0_l|]. by rewrite IH, Z.lxor_assoc.
Qed.

Lemma clsum_single x y i : clsum x y [i] = clterm x y i.
Proof. apply Z.lxor_0_r. Qed.

Lemma clsum_high x y l : 0 <= x -> Forall (fun i => Z.log2 x < i) l -> clsum x y l = 0.
Proof.
  intros Hx. induction 1 as [|i l Hi F IH]; simpl; [done|]. rewrite IH. unfold clterm.
  by rewrite Z.bits_above_log2.
Qed.

Lemma polymult_loop x y l : 0 <= y -> Forall (fun i => 0 <= i <= 64) l -> forall st,
  let st' := foldl (polymult_step x y) st l in
  join64 (fst st') (snd st') = Z.lxor (join64 (fst st) (snd st)) (clsum x y l).
Proof.
  intros Hy. induction 1 as [|i l Hi F IH]; intros st; simpl.
  - by rewrite Z.lxor_0_r.
  - simpl in IH. rewrite IH, (polymult_step_correct x y st i) by done.
    by rewrite Z.lxor_assoc.
Qed.

Lemma polymult_correct x y :
  0 <= x < 2 ^ 64 -> 0 <= y ->
  join64 (fst (polymult x y)) (snd (polymult x y)) = clmul x y.
Proof.
  intros Hx Hy. unfold polymult. rewrite polymult_loop.
  - assert (join64 0 (if negb (Z.land x 1 =? 0) then y else 0) = clterm x y 0) as E.
    { change 1 with (Z.shiftl 1 0). rewrite land_bit_eqb by lia. unfold join64, clterm.
      rewrite Z.shiftl_0_l, Z.lxor_0_l. by rewrite Z.shiftl_0_r. }
    simpl fst; simpl snd. rewrite E.
    unfold clmul. change (up 0 128) with ([0] ++ up 1 64 ++ up 64 128).
    rewrite !clsum_app, clsum_single.
    rewrite (clsum_high x y (up 64 128)), Z.lxor_0_r; [done|lia|].
    + apply Forall_forall. intros i Hi%elem_of_up.
      destruct (decide (x = 0)) as [->|]; [simpl; lia|].
      apply Z.log2_lt_pow2; [lia|]. apply Z.lt_le_trans with (2 ^ 64); [lia|].
      apply Z.pow_le_mono_r; lia.
  - done.
  - apply Forall_forall. intros i Hi%elem_of_up. lia.
Qed.

(** The divisor aligned to bit 63, as [d <<= 63 - k] leaves it. *)
Lemma aligned_divisor d :
  0 < d < 2 ^ 64 -> let k := Z.log2 d in let D := Z.shiftl d (63 - k) in
  0 <= k <= 63 /\ 0 <= D < 2 ^ 64 /\ Z.testbit D 63 = true.
Proof.
  intros Hd k D. assert (0 <= k <= 63) as Hk.
  { split; [apply Z.log2_nonneg|]. assert (k < 64); [|lia]. apply Z.log2_lt_pow2; lia. }
  split; [done|].
  assert (Z.testbit D 63 = true) as HT.
  { unfold D. rewrite Z.shiftl_spec by lia. replace (63 - (63 - k)) with k by lia.
    apply Z.bit_log2. lia. }
  split; [|done]. unfold D. rewrite Z.shiftl_mul_pow2 by lia. split.
  - apply Z.mul_nonneg_nonneg; [lia|apply Z.pow_nonneg; lia].
  - replace (2 ^ 64) with (2 ^ (k + 1) * 2 ^ (63 - k)) by (rewrite <- Z.pow_add_r by lia; f_equal; lia).
    apply Z.mul_lt_mono_pos_r; [apply Z.pow_pos_nonneg; lia|].
    rewrite Z.add_1_r. apply Z.log2_spec. lia.
Qed.

Section division.
Context (d : Z) (Hd : 0 < d < 2 ^ 64).
Let k := Z.log2 d.
Let D := Z.shiftl d (63 - k).
Context (n : Z).

Definition high_inv (i : Z) (st : Z * Z) : Prop :=
  i <= 63 /\ 0 <= fst st < 2 ^ i /\ 0 <= snd st < 2 ^ 64 /\ pcong d n (join64 (fst st) (snd st)).

Definition low_inv (i : Z) (nl : Z) : Prop :=
  i <= 64 /\ 0 <= nl < 2 ^ i /\ pcong d n nl.

Lemma shiftr_D_top i : 0 <= i <= 63 ->
  0 <= Z.shiftr D (63 - i) < 2 ^ (i + 1) /\ Z.testbit (Z.shiftr D (63 - i)) i = true.
Proof.
  intros Hi. destruct (aligned_divisor d Hd) as (Hk & HD & HT). split.
  - apply shiftr_range; [lia..|]. replace (63 - i + (i + 1)) with 64 by lia. done.
  - rewrite Z.shiftr_spec by lia. replace (i + (63 - i)) with 63 by lia. done.
Qed.

Lemma polymod_high_inv i st : 0 <= i -> high_inv (i + 1) st -> high_inv i (polymod_high D st i).
Proof.
  intros Hi (Hi63 & Hh & Hl & HC). destruct st as [nh nl]; simpl in *.
  destruct (aligned_divisor d Hd) as (Hk & HD & HT). fold k in Hk, HD, HT; fold D in HD, HT.
  unfold polymod_high. rewrite land_bit_eqb by done.
  destruct (Z.testbit nh i) eqn:E; unfold high_inv; simpl.
  - destruct (shiftr_D_top i) as [HR Htop]; [lia|]. split; [lia|]. split; [|split].
    + by apply lxor_cancel_top.
    + apply lxor_lt_pow2; [lia|done|]. apply Z.mod_pos_bound. lia.
    + replace (63 - i) with (64 - (i + 1)) by lia.
      rewrite <- shiftr_shiftl_join by lia.
      rewrite <- join64_lxor by (apply Z.shiftl_nonneg; lia).
      unfold D. rewrite Z.shiftl_shiftl by lia. apply pcong_shift; [lia|done].
  - split; [lia|]. split; [by apply lt_pow2_drop|done].
Qed.

Lemma polymod_low_inv i nl : k <= i -> low_inv (i + 1) nl -> low_inv i (polymod_low D nl i).
Proof.
  intros Hi (Hi63 & Hh & HC).
  destruct (aligned_divisor d Hd) as (Hk & HD & HT). fold k in Hk, HD, HT; fold D in HD, HT.
  unfold polymod_low. rewrite land_bit_eqb by lia.
  destruct (Z.testbit nl i) eqn:E; unfold low_inv.
  - destruct (shiftr_D_top i) as [HR Htop]; [lia|]. split; [lia|]. split.
    + apply lxor_cancel_top; (done || lia).
    + unfold D. rewrite Z.shiftr_shiftl_l by lia. apply pcong_shift; [lia|done].
  - split; [lia|]. split; [|done]. apply lt_pow2_drop; (done || lia).
Qed.

Lemma polymod_high_loop nh nl :
  0 < nh < 2 ^ 64 -> 0 <= nl < 2 ^ 64 -> n = join64 nh nl ->
  high_inv 0 (foldl (polymod_high D)
    ((if negb (Z.land nh MSB64 =? 0) then Z.lxor nh D else nh), nl) (down 62 0)).
Proof.
  intros Hnh Hnl Hn. destruct (aligned_divisor d Hd) as (Hk & HD & HT). fold k in Hk, HD, HT; fold D in HD, HT.
  eapply (down_loop _ high_inv 0 polymod_high_inv 63); [lia|].
  change MSB64 with (Z.shiftl 1 63). rewrite land_bit_eqb by lia. unfold high_inv.
  destruct (Z.testbit nh 63) eqn:E; simpl fst; simpl snd.
  - assert (0 <= Z.lxor nh D < 2 ^ 63) by (apply lxor_cancel_top; (done || lia)).
    split; [lia|]. split; [done|]. split; [done|].
    replace (join64 (Z.lxor nh D) nl) with (Z.lxor (join64 nh nl) (Z.shiftl d (63 - k + 64))).
    + apply pcong_shift; [lia|]. subst n. apply pcong_refl.
    + rewrite <- Z.shiftl_shiftl by lia. fold D. unfold join64. rewrite Z.shiftl_lxor.
      rewrite !Z.lxor_assoc. f_equal. apply Z.lxor_comm.
  - split; [lia|]. split; [apply (lt_pow2_drop nh 63); (done || lia)|]. split; [done|].
    subst n. apply pcong_refl.
Qed.

Lemma polymod_low_loop nl :
  0 <= nl < 2 ^ 64 -> pcong d n nl -> low_inv k (foldl (polymod_low D) nl (down 63 k)).
Proof.
  intros Hnl HC. destruct (aligned_divisor d Hd) as (Hk & _). fold k in Hk.
  eapply (down_loop _ low_inv k polymod_low_inv (Z.to_nat (64 - k))); [lia|].
  split; [lia|]. split; [|done]. by replace (63 + 1) with 64 by lia.
Qed.
End division.

Lemma polymod_divides nh nl d :
  0 <= nh < 2 ^ 64 -> 0 <= nl < 2 ^ 64 -> 0 < d < 2 ^ 64 ->
  pcong d (join64 nh nl) (polymod nh nl d) /\ 0 <= polymod nh nl d < 2 ^ Z.log2 d.
Proof.
  intros Hnh Hnl Hd. unfold polymod. rewrite fls64_correct by lia.
  unfold bitlen. destruct (Z.eqb_spec d 0); [lia|].
  replace (Z.log2 d + 1 - 1) with (Z.log2 d) by lia.
  destruct (aligned_divisor d Hd) as (Hk & HD & HT).
  rewrite u64_id by done.
  destruct (Z.eqb_spec nh 0) as [->|Hne]; simpl negb; cbv iota.
  - destruct (polymod_low_loop d Hd (join64 0 nl) nl Hnl) as (_ & Hr & HC).
    { unfold join64. rewrite Z.shiftl_0_l, Z.lxor_0_l. apply pcong_refl. }
    done.
  - pose proof (polymod_high_loop d Hd (join64 nh nl) nh nl ltac:(lia) Hnl eq_refl) as HI.
    cbv zeta. destruct (foldl _ _ (down 62 0)) as [h l].
    destruct HI as (_ & Hh & Hl & HC). simpl in *.
    assert (h = 0) as -> by lia. unfold join64 in HC at 2.
    rewrite Z.shiftl_0_l, Z.lxor_0_l in HC.
    destruct (polymod_low_loop d Hd (join64 nh nl) l Hl HC) as (_ & Hr & HC'). done.
Qed.

(** ** The checksum used by chunking: window of 48 bytes *)

Definition BLOCK_WIN_SZ : Z := 48.
Definition rabin48 : rabin_tables := rabin_init BLOCK_WIN_SZ.

#[global] Opaque rabin48.

Definition all_lt (b : Z) (l : list Z) : bool := forallb (fun z => (0 <=? z) && (z <? b)) l.

Lemma all_lt_lookup b l i : 1 < b -> all_lt b l = true -> 0 <= l !!! i < b.
Proof.
  intros Hb H. rewrite list_lookup_total_alt. destruct (l !! i) as [x|] eqn:E; simpl.
  - apply list_elem_of_lookup_2, list_elem_of_In in E.
    unfold all_lt in H. rewrite forallb_forall in H. specialize (H _ E). lia.
  - change (0 <= 1 < b). lia.
Qed.

Lemma rabin48_shape :
  shift rabin48 = 55 /\ length (T rabin48) = 256%nat /\ length (U rabin48) = 256%nat /\
  U rabin48 !!! 0%nat = 0 /\ T rabin48 !!! 0%nat = 0 /\
  all_lt (2 ^ 63) (U rabin48) = true /\ all_lt (2 ^ 64) (T rabin48) = true.
Proof. vm_compute. repeat split. Qed.

Lemma rabin48_U c : 0 <= U rabin48 !!! c < 2 ^ 63.
Proof.
  destruct rabin48_shape as (_ & _ & _ & _ & _ & HU & _).
  by apply all_lt_lookup.
Qed.

(** What a byte leaving the window contributes to the 32-bit state. *)
Definition out_mask (c : Z) : Z :=
  let u := U rabin48 !!! Z.to_nat c in
  u32 (Z.lxor (Z.shiftl u 8) (T rabin48 !!! Z.to_nat (Z.shiftr u 55))).

(** The rolling step on the 32-bit state, with the 64-bit detour gone. *)
Definition roll (csum c1 c2 : Z) : Z :=
  Z.lxor (Z.lxor (u32 (Z.shiftl csum 8)) c2) (out_mask c1).

Lemma u32_lxor a b : u32 (Z.lxor a b) = Z.lxor (u32 a) (u32 b).
Proof.
  unfold u32. rewrite <- !Z.land_ones by lia. apply Z.bits_inj'. intros j _.
  rewrite !Z.land_spec, !Z.lxor_spec, !Z.land_spec.
  by destruct (Z.testbit a j), (Z.testbit b j), (Z.testbit (Z.ones 32) j).
Qed.

Lemma u32_u64 a : u32 (u64 a) = u32 a.
Proof.
  unfold u32, u64. rewrite <- !Z.land_ones by lia. apply Z.bits_inj'. intros j Hj.
  rewrite !Z.land_spec. destruct (Z.ltb_spec j 32).
  - rewrite !Z.ones_spec_low by lia. by rewrite !andb_true_r.
  - rewrite (Z.ones_spec_high 32) by lia. by rewrite !andb_false_r.
Qed.

Lemma lor_low8 p m : 0 <= m < 256 -> Z.lor (u64 (Z.shiftl p 8)) m = Z.lxor (u64 (Z.shiftl p 8)) m.
Proof.
  intros Hm. symmetry. apply Z.lxor_lor. apply Z.bits_inj'. intros j Hj.
  rewrite Z.land_spec, Z.bits_0. unfold u64. destruct (Z.ltb_spec j 8).
  - rewrite Z.mod_pow2_bits_low, Z.shiftl_spec_low by lia. done.
  - change 256 with (2 ^ 8) in Hm. apply lt_pow2_bits in Hm as [_ Hm]; [|lia].
    rewrite (Hm j) by lia. apply andb_false_r.
Qed.

(** The table index is in bounds for every 32-bit state and every byte. *)
Lemma rolling_index csum c :
  0 <= csum < 2 ^ 32 ->
  Z.shiftr (Z.lxor csum (U rabin48 !!! Z.to_nat (u8 c))) 55 =
    Z.shiftr (U rabin48 !!! Z.to_nat (u8 c)) 55 /\
  0 <= Z.shiftr (U rabin48 !!! Z.to_nat (u8 c)) 55 < 256.
Proof.
  intros Hc. pose proof (rabin48_U (Z.to_nat (u8 c))) as HU. split.
  - rewrite Z.shiftr_lxor.
    assert (Z.shiftr csum 55 = 0) as ->; [|by rewrite Z.lxor_0_l].
    rewrite Z.shiftr_div_pow2, Z.div_small by lia. done.
  - change 256 with (2 ^ 8). apply (shiftr_range _ 55 8); lia.
Qed.

Lemma rolling_roll csum c1 c2 :
  0 <= csum < 2 ^ 32 -> 0 <= c1 < 256 -> 0 <= c2 < 256 ->
  rabin_rolling_checksum rabin48 csum c1 c2 = roll csum c1 c2.
Proof.
  intros Hs H1 H2. unfold rabin_rolling_checksum, append8, roll, out_mask.
  destruct rabin48_shape as (-> & _). rewrite (proj1 (rolling_index csum c1 Hs)).
  rewrite !(u8_id c1), !(u8_id c2) by lia. rewrite lor_low8 by done.
  rewrite !u32_lxor, u32_u64, Z.shiftl_lxor, u32_lxor, (u32_id c2) by lia.
  rewrite !Z.lxor_assoc. f_equal. rewrite <- !Z.lxor_assoc. f_equal. apply Z.lxor_comm.
Qed.

Lemma roll_range csum c1 c2 : 0 <= c2 < 256 -> 0 <= roll csum c1 c2 < 2 ^ 32.
Proof.
  intros H2. unfold roll. apply lxor_lt_pow2; [lia| |apply Z.mod_pos_bound; lia].
  apply lxor_lt_pow2; [lia|apply Z.mod_pos_bound; lia|]. lia.
Qed.

Lemma out_mask_0 : out_mask 0 = 0.
Proof.
  unfold out_mask. change (Z.to_nat 0) with 0%nat.
  destruct rabin48_shape as (_ & _ & _ & -> & HT & _).
  change (Z.to_nat (Z.shiftr 0 55)) with 0%nat. by rewrite HT.
Qed.

(** ** Locality *)

Definition bytes_ok (l : list Z) : Prop := Forall (fun b => 0 <= b < 256) l.
Definition roll_all (csum : Z) (l : list (Z * Z)) : Z :=
  foldl (fun s p => rabin_rolling_checksum rabin48 s (fst p) (snd p)) csum l.
Definition pair_ok (p : Z * Z) : Prop := 0 <= fst p < 256 /\ 0 <= snd p < 256.

Lemma u32_shift8_lxor a b : u32 (Z.shiftl (Z.lxor a b) 8) = Z.lxor (u32 (Z.shiftl a 8)) (u32 (Z.shiftl b 8)).
Proof. by rewrite Z.shiftl_lxor, u32_lxor. Qed.

(** The part of the state that comes from the previous state moves up one byte
    per step, so it is gone after four. *)
Lemma roll_diff s s' c1 c2 :
  Z.lxor (roll s c1 c2) (roll s' c1 c2) = u32 (Z.shiftl (Z.lxor s s') 8).
Proof.
  unfold roll. rewrite u32_shift8_lxor. apply Z.bits_inj'. intros j _.
  rewrite !Z.lxor_spec.
  repeat match goal with |- context [Z.testbit ?a j] => destruct (Z.testbit a j) end; done.
Qed.

Lemma u32_shiftl_u32 z n : 0 <= n -> u32 (Z.shiftl (u32 z) n) = u32 (Z.shiftl z n).
Proof.
  intros Hn. unfold u32. apply Z.bits_inj'. intros j Hj. destruct (Z.ltb_spec j 32).
  - rewrite !Z.mod_pow2_bits_low, !Z.shiftl_spec by lia.
    destruct (Z.ltb_spec j n); [by rewrite !Z.testbit_neg_r by lia|].
    by rewrite Z.mod_pow2_bits_low by lia.
  - by rewrite !Z.mod_pow2_bits_high by lia.
Qed.

Lemma lxor_eq_0 a b : Z.lxor a b = 0 -> a = b.
Proof. apply Z.lxor_eq. Qed.

Lemma roll_all_roll l s :
  0 <= s < 2 ^ 32 -> Forall pair_ok l ->
  roll_all s l = foldl (fun s p => roll s (fst p) (snd p)) s l /\ 0 <= roll_all s l < 2 ^ 32.
Proof.
  revert s. induction l as [|[c1 c2] l IH]; intros s Hs F; [done|].
  apply Forall_cons in F as [[? ?] F]. unfold roll_all; simpl.
  rewrite rolling_roll by done. apply IH; [by apply roll_range|done].
Qed.

Lemma roll_all_range l s : 0 <= s < 2 ^ 32 -> Forall pair_ok l -> 0 <= roll_all s l < 2 ^ 32.
Proof. intros. by apply roll_all_roll. Qed.

Lemma roll4_forgets s s' p1 p2 p3 p4 :
  0 <= s < 2 ^ 32 -> 0 <= s' < 2 ^ 32 -> Forall pair_ok [p1; p2; p3; p4] ->
  roll_all s [p1; p2; p3; p4] = roll_all s' [p1; p2; p3; p4].
Proof.
  intros Hs Hs' F.
  rewrite (proj1 (roll_all_roll _ s Hs F)), (proj1 (roll_all_roll _ s' Hs' F)). simpl.
  apply lxor_eq_0. rewrite !roll_diff.
  repeat (rewrite u32_shiftl_u32 by lia; rewrite Z.shiftl_shiftl by lia).
  unfold u32. rewrite Z.shiftl_mul_pow2 by lia. apply Z_mod_mult.
Qed.

Lemma roll_all_app s l1 l2 : roll_all s (l1 ++ l2) = roll_all (roll_all s l1) l2.
Proof. apply foldl_app. Qed.

Lemma checksum_roll_all buf s :
  foldl (fun sum c => rabin_rolling_checksum rabin48 sum 0 c) s buf =
  roll_all s ((fun c => (0, c)) <$> buf).
Proof. revert s. induction buf as [|c buf IH]; intros s; simpl; [done|]. apply IH. Qed.

(** The fingerprint is local: after any two histories, four rolling steps
    over the same bytes (entering and leaving) give the same fingerprint, so the
    cut condition depends on a bounded neighbourhood and chunking resynchronises
    after an edit. *)
Theorem rabin_resync s s' l l' last4 :
  0 <= s < 2 ^ 32 -> 0 <= s' < 2 ^ 32 ->
  Forall pair_ok l -> Forall pair_ok l' -> Forall pair_ok last4 -> length last4 = 4%nat ->
  roll_all s (l ++ last4) = roll_all s' (l' ++ last4).
Proof.
  intros Hs Hs' Hl Hl' H4 L. rewrite !roll_all_app.
  destruct last4 as [|p1 [|p2 [|p3 [|p4 [|]]]]]; try discriminate.
  apply roll4_forgets; [by apply roll_all_range..|done].
Qed.

Lemma fresh_pairs_ok bs : bytes_ok bs -> Forall pair_ok ((fun c => (0, c)) <$> bs).
Proof.
  intros H. apply Forall_fmap. eapply Forall_impl; [exact H|]. intros x Hx. by split.
Qed.

(** The fresh checksum of a window is the big-endian number formed by its
    last four bytes: the 32-bit cut of the 64-bit state drops everything older. *)
Theorem rabin_checksum_last4 pre b3 b2 b1 b0 :
  bytes_ok (pre ++ [b3; b2; b1; b0]) ->
  rabin_checksum rabin48 (pre ++ [b3; b2; b1; b0]) =
    b3 * 2 ^ 24 + b2 * 2 ^ 16 + b1 * 2 ^ 8 + b0.
Proof.
  intros [Hpre H4]%Forall_app. unfold rabin_checksum. rewrite foldl_app.
  rewrite !checksum_roll_all. pose proof (fresh_pairs_ok _ H4) as P4.
  rewrite !Forall_cons in H4. destruct H4 as (? & ? & ? & ? & _).
  transitivity (roll_all 0 ((fun c => (0, c)) <$> [b3; b2; b1; b0])).
  - apply roll4_forgets; [|lia|exact P4].
    apply roll_all_range; [lia|]. by apply fresh_pairs_ok.
  - rewrite (proj1 (roll_all_roll _ 0 ltac:(lia) P4)).
    simpl. unfold roll. rewrite out_mask_0, !Z.lxor_0_r, !Z.shiftl_0_l. change (u32 0) with 0.
    rewrite Z.lxor_0_l.
    assert (Hcat : forall x c w, 0 <= w <= 24 -> 0 <= x < 2 ^ w -> 0 <= c < 256 ->
      Z.lxor (u32 (Z.shiftl x 8)) c = x * 2 ^ 8 + c /\ 0 <= x * 2 ^ 8 + c < 2 ^ (w + 8)).
    { intros x c w Hw Hx Hc. assert (2 ^ w <= 2 ^ 24) by (apply Z.pow_le_mono_r; lia).
      rewrite Z.pow_add_r by lia. rewrite Z.shiftl_mul_pow2 by lia. split; [|lia].
      rewrite u32_id by lia. rewrite <- Z.shiftl_mul_pow2 by lia.
      replace (x * 2 ^ 8) with (Z.shiftl x 8) by (by rewrite Z.shiftl_mul_pow2 by lia).
      symmetry. rewrite <- Z.add_nocarry_lxor; [done|].
      apply Z.bits_inj'. intros j Hj. rewrite Z.land_spec, Z.bits_0.
      destruct (Z.ltb_spec j 8); [by rewrite Z.shiftl_spec_low by lia|].
      change 256 with (2 ^ 8) in Hc. apply lt_pow2_bits in Hc as [_ Hc]; [|lia].
      rewrite (Hc j) by lia. apply andb_false_r. }
    destruct (Hcat b3 b2 8) as [-> R1]; [lia..|].
    destruct (Hcat (b3 * 2 ^ 8 + b2) b1 16) as [-> R2]; [lia..|].
    destruct (Hcat ((b3 * 2 ^ 8 + b2) * 2 ^ 8 + b1) b0 24) as [-> R3]; [lia..|]. lia.
Qed.

(** Rolling the checksum of a 48-byte window by one byte is not the checksum
    of the moved window (contrary to the comment in the source): the two differ
    by the mask of the byte that left. *)
Theorem rabin_roll_not_window :
  let w := 1 :: replicate 47 0 in
  rabin_rolling_checksum rabin48 (rabin_checksum rabin48 w) 1 0 <>
  rabin_checksum rabin48 (tail w ++ [0]).
Proof. vm_compute. discriminate. Qed.

(** [polymod] is polynomial division over GF(2): its result is congruent to
    the 128-bit dividend modulo [d] and of smaller degree than [d]. *)
Theorem polymod_correct nh nl d :
  0 <= nh < 2 ^ 64 -> 0 <= nl < 2 ^ 64 -> 0 < d < 2 ^ 64 ->
  (exists q, join64 nh nl = Z.lxor (clmul q d) (polymod nh nl d)) /\
  0 <= polymod nh nl d < 2 ^ Z.log2 d.
Proof. apply polymod_divides. Qed.

Lemma rabin_resync_witness :
  roll_all 5 ([(1, 2)] ++ [(9, 8); (7, 6); (5, 4); (3, 2)]) =
  roll_all 77 ([] ++ [(9, 8); (7, 6); (5, 4); (3, 2)]).
Proof.
  apply rabin_resync; [lia|lia|repeat constructor; simpl; lia|constructor
    |repeat constructor; simpl; lia|reflexivity].
Defined.

Lemma rabin_checksum_last4_witness :
  rabin_checksum rabin48 ([9; 9] ++ [1; 2; 3; 4]) = 1 * 2 ^ 24 + 2 * 2 ^ 16 + 3 * 2 ^ 8 + 4.
Proof.
  apply (rabin_checksum_last4 [9; 9] 1 2 3 4).
  unfold bytes_ok. repeat constructor; lia.
Defined.

Lemma polymod_correct_witness : 0 <= polymod 0 6 3 < 2 ^ Z.log2 3.
Proof. apply (polymod_correct 0 6 3); lia. Defined.
