(* ===== verification/Cdc.v ===== *)
(** * Content-defined chunking ([common/cdc/cdc.c])

    The buffered loop of [file_chunk_cdc] as an executable step function over
    an explicit state, a reference definition [chunks] that looks at the whole
    file at once, and the refinement between the two.  The file is a byte list;
    [read_fails] says at which position a read of the file reports an error and
    [write_block] is the caller's callback (both are outside this file).

    The block sizes are [uint32_t], the number of blocks is counted in a
    [uint32_t] against an [int] limit, and the array of block ids is allocated
    with an [int] product; all of these keep their widths here, and a store past
    the end of that array is the outcome [Undefined]. *)

From S2P Require Import Prelude Rabin.

Definition BLOCK_SZ : nat := Z.to_nat (1024 * 1024).
Definition BLOCK_MIN_SZ : nat := Z.to_nat (1024 * 256).
Definition BLOCK_MAX_SZ : nat := Z.to_nat (1024 * 1024 * 4).
Definition READ_SIZE : nat := Z.to_nat (1024 * 4).
Definition BREAK_VALUE : Z := 0x0013.
Definition CHECKSUM_LENGTH : Z := 20.
Definition INT_MAX : Z := 2 ^ 31 - 1.

#[global] Opaque BLOCK_SZ BLOCK_MIN_SZ BLOCK_MAX_SZ READ_SIZE.

(** The fields of [CDCFileDescriptor] and the locals of the loop.  [block_buf]
    is the valid part of the buffer, so [tail] is its length; [rest] is what the
    file descriptor has not delivered yet; [written] logs the calls of
    [write_block].  [tail] and [cur] are [int]s: see [file_chunk_cdc] for the
    sizes at which they are natural numbers. *)
Record cdc_state (sum : Type) := mkCdc {
  block_buf : list Z;
  cur : nat;
  fingerprint : Z;
  offset : Z;
  rest : list Z;
  file_size : nat;
  block_nr : Z;
  blk_sha1s : list sum;
  file_ctx : list sum;
  indexed : nat;
  written : list (Z * list Z)
}.
Arguments mkCdc {_}.
Arguments block_buf {_}. Arguments cur {_}. Arguments fingerprint {_}. Arguments offset {_}.
Arguments rest {_}. Arguments file_size {_}. Arguments block_nr {_}.
Arguments blk_sha1s {_}. Arguments file_ctx {_}. Arguments indexed {_}. Arguments written {_}.

(** [Err] is the return value -1, [Undefined] a store outside of an allocation. *)
Inductive outcome (S : Type) := Err | Undefined | Done (s : S) | Continue (s : S).
Arguments Err {_}. Arguments Undefined {_}. Arguments Done {_}. Arguments Continue {_}.

(** What [init_cdc_file_descriptor] leaves in the descriptor: the block sizes
    with their defaults, the limit on the number of blocks, and the bytes
    allocated for the block ids. *)
Record cdc_params := mkParams { p_min : nat; p_max : nat; p_sz : Z }.
Record cdc_descr := mkDescr { d_params : cdc_params; d_max_block_nr : Z; d_sums_size : Z }.

(** [min], [max] and [sz] are the [uint32_t] fields the caller filled in, and
    [file_size] is a [uint64_t].  The minimum is copied to an [int], which is
    widened to 64 bits for the quotient; the quotient is cut to an [int]; the
    size of the array is a product of [int]s. *)
Definition init_cdc_file_descriptor (file_size min max sz : Z) : cdc_descr :=
  let min := if u32 min <=? 0 then Z.of_nat BLOCK_MIN_SZ else u32 min in
  let max := if u32 max <=? 0 then Z.of_nat BLOCK_MAX_SZ else u32 max in
  let sz := if u32 sz <=? 0 then Z.of_nat BLOCK_SZ else u32 sz in
  let block_min_sz := s32 min in
  let nr := s32 (u64 (file_size + block_min_sz - 1) / u64 block_min_sz) in
  mkDescr (mkParams (Z.to_nat min) (Z.to_nat max) sz) nr (s32 (nr * CHECKSUM_LENGTH)).

Section cdc.
Context {sum : Type}.
Context (read_fails : nat -> bool).
Context (write_block : Z -> list Z -> option sum).
Context (p : cdc_params) (max_block_nr sums_size : Z) (expected_size : nat).

Definition block_mask : Z := u32 (p_sz p - 1).

Definition is_break (fp : Z) : bool := Z.land fp block_mask =? Z.land BREAK_VALUE block_mask.

Definition window (b : list Z) (c : nat) : list Z := take 48 (drop (c + 1 - 48) b).

(** One evaluation of the fingerprint at position [c] of the buffer. *)
Definition next_fp (b : list Z) (c : nat) (fp : Z) : Z :=
  if (c =? p_min p - 1)%nat then rabin_checksum rabin48 (window b c)
  else rabin_rolling_checksum rabin48 fp (b !!! (c - 48)%nat) (b !!! c).

(** The inner [while (cur < tail)]: the position of the cut, or the fingerprint
    reached at the end of the loaded data. *)
Fixpoint scan (fuel : nat) (b : list Z) (c : nat) (fp : Z) : (nat * Z) + Z :=
  match fuel with
  | O => inr fp
  | S fuel =>
      let fp' := next_fp b c fp in
      if is_break fp' || (p_max p <=? c + 1)%nat then inl (c, fp')
      else scan fuel b (c + 1) fp'
  end.

(** The block id goes to [blk_sha1s + block_nr * CHECKSUM_LENGTH], a [uint32_t]
    product; [offset] is an [int] that wraps. *)
Definition WRITE_CDC_BLOCK (st : cdc_state sum) (block_sz : nat) : outcome (cdc_state sum) :=
  let blk := take block_sz (block_buf st) in
  match write_block (offset st) blk with
  | None => Err
  | Some checksum =>
      if sums_size <? u32 (block_nr st * CHECKSUM_LENGTH) + CHECKSUM_LENGTH then Undefined
      else Continue (mkCdc (drop block_sz (block_buf st)) 0 (fingerprint st)
             (s32 (offset st + Z.of_nat block_sz)) (rest st) (file_size st)
             (u32 (block_nr st + 1)) (blk_sha1s st ++ [checksum]) (file_ctx st ++ [checksum])
             (indexed st + block_sz)%nat (written st ++ [(offset st, blk)]))
  end.

(** The limit is an [int] compared with the [uint32_t] counter. *)
Definition emit (st : cdc_state sum) (n : nat) (k : cdc_state sum -> outcome (cdc_state sum))
  : outcome (cdc_state sum) :=
  if block_nr st =? u32 max_block_nr then Err
  else match WRITE_CDC_BLOCK st n with Continue st' => k st' | r => r end.

Definition rsize (tail : nat) : nat :=
  if (tail <? p_min p)%nat then (p_min p - tail + READ_SIZE)%nat
  else if (p_max p - tail <? READ_SIZE)%nat then (p_max p - tail)%nat else READ_SIZE.

(** [readn] into the buffer. *)
Definition refill (st : cdc_state sum) : option (cdc_state sum) :=
  if read_fails (file_size st) then None
  else
    let chunk := take (rsize (length (block_buf st))) (rest st) in
    Some (mkCdc (block_buf st ++ chunk) (cur st) (fingerprint st) (offset st)
            (drop (rsize (length (block_buf st))) (rest st)) (file_size st + length chunk)
            (block_nr st) (blk_sha1s st) (file_ctx st) (indexed st) (written st)).

Definition set_cur (st : cdc_state sum) (c : nat) (fp : Z) : cdc_state sum :=
  mkCdc (block_buf st) c fp (offset st) (rest st) (file_size st) (block_nr st)
    (blk_sha1s st) (file_ctx st) (indexed st) (written st).

(** One round of the outer [while (1)]. *)
Definition cdc_step (st : cdc_state sum) : outcome (cdc_state sum) :=
  match refill st with
  | None => Err
  | Some st =>
    if (expected_size <? file_size st)%nat then Err
    else
      let tail := length (block_buf st) in
      if (tail <? p_min p)%nat || (tail <=? cur st)%nat then
        if (0 <? tail)%nat then emit st tail Done else Done st
      else
        let c := if (cur st <? p_min p - 1)%nat then (p_min p - 1)%nat else cur st in
        match scan (tail - c) (block_buf st) c (fingerprint st) with
        | inl (c, fp) => emit (set_cur st c fp) (c + 1) Continue
        | inr fp => Continue (set_cur st tail fp)
        end
  end.

Fixpoint cdc_loop (fuel : nat) (st : cdc_state sum) : outcome (cdc_state sum) :=
  match fuel with
  | O => Continue st
  | S fuel => match cdc_step st with Continue st' => cdc_loop fuel st' | r => r end
  end.

Definition cdc_start (file : list Z) : cdc_state sum :=
  mkCdc [] 0 0 0 file 0 0 [] [] 0 [].

(** ** Reference definition: cut the remaining data at the first break *)

Definition first_cut (data : list Z) : option nat :=
  match scan (length data - (p_min p - 1)) data (p_min p - 1) 0 with
  | inl (c, _) => Some c
  | inr _ => None
  end.

Fixpoint chunks_fuel (fuel : nat) (data : list Z) : list (list Z) :=
  match fuel with
  | O => []
  | S fuel =>
      if (length data <? p_min p)%nat then match data with [] => [] | _ => [data] end
      else match first_cut data with
           | Some c => take (c + 1) data :: chunks_fuel fuel (drop (c + 1) data)
           | None => [data]
           end
  end.

Definition chunks (data : list Z) : list (list Z) := chunks_fuel (S (length data)) data.
End cdc.

(** [file_chunk_cdc]: the descriptor is initialised from [fstat]'s size, then the
    loop runs; [Done] is the return value 0 with the final descriptor.  [tail],
    [cur] and [rsize] are [int]s bounded by the block sizes ([cdc_buffer_safe]),
    so for sizes up to [INT_MAX] they are the natural numbers of the model;
    larger sizes are given no result. *)
Definition file_chunk_cdc {sum} (read_fails : nat -> bool)
  (write_block : Z -> list Z -> option sum) (fuel : nat) (min max sz : Z)
  (st_size : nat) (file : list Z) : outcome (cdc_state sum) :=
  let d := init_cdc_file_descriptor (Z.of_nat st_size) min max sz in
  if (INT_MAX <? Z.of_nat (p_min (d_params d))) || (INT_MAX <? Z.of_nat (p_max (d_params d)))
  then Undefined
  else cdc_loop read_fails write_block (d_params d) (d_max_block_nr d) (d_sums_size d) st_size
         fuel (cdc_start file).

(** ** The inner scan *)
Section scan_facts.
Context (p : cdc_params).
Implicit Types (b x : list Z).

Lemma scan_inl_range fuel : forall b c fp c' fp',
  scan p fuel b c fp = inl (c', fp') ->
  (c <= c' < c + fuel)%nat /\ (c < p_max p -> c' < p_max p)%nat.
Proof.
  induction fuel as [|fuel IH]; intros b c fp c' fp'; simpl; [done|].
  destruct (is_break p _ || _) eqn:E.
  - intros [= <- _]. lia.
  - intros H. apply IH in H. apply orb_false_iff in E as [_ E%Nat.leb_gt]. lia.
Qed.

Lemma scan_inr_max fuel : forall b c fp fp',
  scan p (S fuel) b c fp = inr fp' -> (c + S fuel < p_max p)%nat.
Proof.
  induction fuel as [|fuel IH]; intros b c fp fp' H; simpl in H;
    destruct (is_break p _ || _) eqn:E; try done;
    apply orb_false_iff in E as [_ E%Nat.leb_gt]; [lia|].
  apply (IH b (c + 1)%nat (next_fp p b c fp) fp') in H. lia.
Qed.

Lemma scan_split f1 f2 : forall b c fp,
  scan p (f1 + f2) b c fp =
  match scan p f1 b c fp with inl r => inl r | inr fp' => scan p f2 b (c + f1) fp' end.
Proof.
  induction f1 as [|f1 IH]; intros b c fp; simpl; [by rewrite Nat.add_0_r|].
  destruct (is_break p _ || _); [done|]. rewrite IH.
  destruct (scan p f1 b (c + 1) _); [done|]. f_equal. lia.
Qed.

Lemma next_fp_app b x c fp :
  (47 <= c < length b)%nat -> next_fp p (b ++ x) c fp = next_fp p b c fp.
Proof.
  intros Hc. unfold next_fp, window. case_bool.
  - rewrite drop_app_le, take_app_le by (rewrite ?length_drop; lia). done.
  - by rewrite !lookup_total_app_l by lia.
Qed.

Lemma scan_app fuel : forall b x c fp,
  (47 <= c)%nat -> (c + fuel <= length b)%nat -> scan p fuel (b ++ x) c fp = scan p fuel b c fp.
Proof.
  induction fuel as [|fuel IH]; intros b x c fp Hc Hl; simpl; [done|].
  rewrite next_fp_app by lia. case_bool; [done|]. apply IH; lia.
Qed.

Lemma scan_fp_irrel fuel b fp fp' :
  scan p (S fuel) b (p_min p - 1) fp = scan p (S fuel) b (p_min p - 1) fp'.
Proof. simpl. unfold next_fp. by rewrite Nat.eqb_refl. Qed.

Lemma first_cut_app b x :
  (48 <= p_min p <= length b)%nat ->
  first_cut p (b ++ x) =
  match scan p (length b - (p_min p - 1)) b (p_min p - 1) 0 with
  | inl (c, _) => Some c
  | inr fp => match scan p (length x) (b ++ x) (length b) fp with
              | inl (c, _) => Some c | inr _ => None end
  end.
Proof.
  intros Hm. unfold first_cut. rewrite length_app.
  replace (length b + length x - (p_min p - 1))%nat
    with ((length b - (p_min p - 1)) + length x)%nat by lia.
  rewrite scan_split, scan_app by lia.
  destruct (scan p (length b - (p_min p - 1)) b (p_min p - 1) 0) as [[c ?]|fp]; [done|].
  replace (p_min p - 1 + (length b - (p_min p - 1)))%nat with (length b) by lia. done.
Qed.

Lemma first_cut_range data c :
  (0 < p_min p)%nat -> (p_min p <= length data)%nat -> first_cut p data = Some c ->
  (p_min p <= c + 1 <= length data)%nat /\ (p_min p <= p_max p -> c + 1 <= p_max p)%nat.
Proof.
  intros Hm Hl. unfold first_cut.
  destruct (scan _ _ _ _ _) as [[c' fp]|] eqn:E; [|done]. intros [= ->].
  apply scan_inl_range in E. lia.
Qed.

(** ** The reference chunking *)

Lemma chunks_fuel_irrel f1 f2 data :
  (0 < p_min p)%nat -> (length data < f1)%nat -> (length data < f2)%nat ->
  chunks_fuel p f1 data = chunks_fuel p f2 data.
Proof.
  intros Hm. revert f2 data. induction f1 as [|f1 IH]; intros [|f2] data H1 H2; try lia.
  cbn [chunks_fuel]. case_bool; [done|]. destruct (first_cut p data) as [c|] eqn:E; [|done].
  f_equal. apply first_cut_range in E; [|blia..].
  apply IH; rewrite length_drop; lia.
Qed.

Lemma chunks_unfold data :
  (0 < p_min p)%nat ->
  chunks p data =
  if (length data <? p_min p)%nat then match data with [] => [] | _ => [data] end
  else match first_cut p data with
       | Some c => take (c + 1) data :: chunks p (drop (c + 1) data)
       | None => [data]
       end.
Proof.
  intros Hm. unfold chunks at 1. cbn [chunks_fuel]. case_bool; [done|].
  destruct (first_cut p data) as [c|] eqn:E; [|done]. f_equal.
  apply first_cut_range in E; [|blia..].
  apply chunks_fuel_irrel; rewrite ?length_drop; lia.
Qed.

(** Induction over the blocks of a file. *)
Lemma chunks_ind (P : list Z -> list (list Z) -> Prop) :
  (0 < p_min p)%nat -> P [] [] ->
  (forall data, data <> [] -> (length data < p_min p)%nat \/ first_cut p data = None ->
     P data [data]) ->
  (forall data c, first_cut p data = Some c -> (p_min p <= length data)%nat ->
     P (drop (c + 1) data) (chunks p (drop (c + 1) data)) ->
     P data (take (c + 1) data :: chunks p (drop (c + 1) data))) ->
  forall data, P data (chunks p data).
Proof.
  intros Hm H0 H1 H2 data.
  induction data as [data IH] using (induction_ltof1 _ (@length Z)); unfold ltof in IH.
  rewrite chunks_unfold by done. destruct (Nat.ltb_spec (length data) (p_min p)).
  - destruct data; [done|]. apply H1; auto.
  - destruct (first_cut p data) as [c|] eqn:E.
    + apply H2; [done..|]. apply first_cut_range in E; [|lia|lia].
      apply IH. rewrite length_drop. lia.
    + apply H1; [|by right]. intros ->. simpl in *. lia.
Qed.

Lemma chunks_concat data : (0 < p_min p)%nat -> concat (chunks p data) = data.
Proof.
  intros Hm. apply (chunks_ind (fun data l => concat l = data)); try done.
  - intros d _ _. simpl. apply app_nil_r.
  - intros d c _ _ IH. simpl. rewrite IH. apply take_drop.
Qed.

Lemma chunks_bounds data :
  (0 < p_min p <= p_max p)%nat ->
  Forall (fun blk => blk <> [] /\ (length blk <= p_max p)%nat) (chunks p data) /\
  forall l last, chunks p data = l ++ [last] -> Forall (fun blk => (p_min p <= length blk)%nat) l.
Proof.
  intros Hm. apply (chunks_ind (fun data cs =>
    Forall (fun blk => blk <> [] /\ (length blk <= p_max p)%nat) cs /\
    forall l last, cs = l ++ [last] -> Forall (fun blk => (p_min p <= length blk)%nat) l)).
  - lia.
  - split; [constructor|]. intros l last H. by destruct l.
  - intros d Hd Hc. split.
    + repeat constructor; [done|]. destruct (Nat.ltb_spec (length d) (p_min p)); [lia|].
      destruct Hc as [|Hc]; [lia|]. unfold first_cut in Hc.
      destruct (scan _ _ _ _ _) as [[]|] eqn:E; [done|].
      replace (length d - (p_min p - 1))%nat with (S (length d - p_min p)) in E by lia.
      apply scan_inr_max in E. lia.
    + intros l last H. destruct l as [|? [|]]; [constructor|done..].
  - intros d c Hc Hl [IH1 IH2]. apply first_cut_range in Hc; [|lia..]. split.
    + constructor; [|done]. rewrite length_take. split; [|lia].
      intros H%(f_equal length). rewrite length_take in H. simpl in H. lia.
    + intros [|b l] last H; [constructor|]. injection H as <- H.
      constructor; [rewrite length_take; lia|]. by eapply IH2.
Qed.
End scan_facts.

Lemma rsize_fits p tail :
  (p_min p + READ_SIZE <= p_max p)%nat ->
  (tail <= p_max p)%nat -> (tail + rsize p tail <= p_max p)%nat.
Proof. intros. unfold rsize. repeat case_bool; blia. Qed.

Lemma rsize_pos p tail :
  (0 < READ_SIZE)%nat -> (tail < p_max p)%nat -> (0 < rsize p tail)%nat.
Proof. intros. unfold rsize. repeat case_bool; blia. Qed.

(** ** The buffered loop refines the reference chunking *)
Section refinement.
Context {sum : Type} (write_block : Z -> list Z -> option sum).
Context (p : cdc_params) (file : list Z).
Context (Hmin : (48 <= p_min p)%nat) (Hmax : (p_min p + READ_SIZE <= p_max p)%nat).
Context (Hread_size : (0 < READ_SIZE)%nat).
Context (Hwrite : forall o b, is_Some (write_block o b)).

Let no_fail (_ : nat) : bool := false.
Context (max_block_nr sums_size : Z).
Context (Hcount : Z.of_nat (length file) <= max_block_nr * Z.of_nat (p_min p)).
Context (Hsums : max_block_nr * CHECKSUM_LENGTH = sums_size) (Hint : sums_size <= INT_MAX).

#[local] Abbreviation step :=
  (cdc_step no_fail write_block p max_block_nr sums_size (length file)).

Definition remaining (st : cdc_state sum) : list Z := block_buf st ++ rest st.

(** Either nothing of the buffer is scanned, or all of it is and no cut was found. *)
Definition scan_inv (st : cdc_state sum) : Prop :=
  cur st = 0%nat \/
  (cur st = length (block_buf st) /\ (p_min p <= length (block_buf st))%nat /\
   scan p (length (block_buf st) - (p_min p - 1)) (block_buf st) (p_min p - 1) 0
     = inr (fingerprint st)).

Record cdc_inv (st : cdc_state sum) : Prop := {
  ci_blocks : (snd <$> written st) ++ chunks p (remaining st) = chunks p file;
  ci_size : (file_size st + length (rest st) = length file)%nat;
  ci_room : (length (written st) * p_min p + length (remaining st) <= length file)%nat;
  ci_nr : block_nr st = Z.of_nat (length (written st)) /\
          length (blk_sha1s st) = length (written st) /\ file_ctx st = blk_sha1s st;
  ci_buf : (length (block_buf st) <= p_max p)%nat;
  ci_indexed : (indexed st + length (remaining st) = length file)%nat
}.

Definition measure (st : cdc_state sum) : nat :=
  (2 * length (remaining st) + 2 * length (rest st) + (if (cur st =? 0)%nat then 1 else 0))%nat.

(** What a refill establishes, besides the invariant. *)
Lemma refill_ok st :
  cdc_inv st -> scan_inv st ->
  exists st', refill no_fail p st = Some st' /\ cdc_inv st' /\
    (length (rest st') <= length (rest st))%nat /\ remaining st' = remaining st /\
    cur st' = cur st /\
    ((length (block_buf st') < p_min p)%nat -> rest st' = []) /\
    ((length (block_buf st') <= cur st')%nat -> rest st' = []) /\
    (length (rest st') < length (rest st) \/ rest st' = rest st)%nat /\
    ((p_min p <= length (block_buf st') /\ cur st' < length (block_buf st'))%nat ->
     let c := if (cur st' <? p_min p - 1)%nat then (p_min p - 1)%nat else cur st' in
     scan p (length (block_buf st') - c) (block_buf st') c (fingerprint st') =
     scan p (length (block_buf st') - (p_min p - 1)) (block_buf st') (p_min p - 1) 0).
Proof.
  intros [HB HS HR HN HL HI] Hsc. unfold refill, no_fail.
  set (n := rsize p (length (block_buf st))).
  pose proof (rsize_fits p _ Hmax HL) as Hfit. fold n in Hfit.
  assert (Hrem : (block_buf st ++ take n (rest st)) ++ drop n (rest st) = remaining st).
  { unfold remaining. by rewrite <- app_assoc, take_drop. }
  eexists. split; [reflexivity|]. simpl. unfold remaining; simpl.
  split; [split; unfold remaining in *; simpl; rewrite ?Hrem; try done|].
  { rewrite length_drop, length_take. lia. }
  { rewrite length_app, length_take. lia. }
  split; [rewrite length_drop; lia|]. split; [done|]. split; [done|].
  split_and!.
  - rewrite length_app, length_take. intros Hlt.
    apply nil_length_inv. rewrite length_drop. unfold n, rsize in *.
    destruct (Nat.ltb_spec (length (block_buf st)) (p_min p)); lia.
  - rewrite length_app, length_take. intros Hle.
    apply nil_length_inv. rewrite length_drop. destruct Hsc as [E|(E & Hl & Hs)].
    + assert (length (block_buf st) = 0%nat) by lia.
      assert (0 < n)%nat by (apply rsize_pos; [done|lia]). lia.
    + replace (length (block_buf st) - (p_min p - 1))%nat
        with (S (length (block_buf st) - p_min p)) in Hs by lia.
      apply scan_inr_max in Hs.
      assert (0 < n)%nat by (apply rsize_pos; [done|lia]). lia.
  - destruct (decide (n = 0%nat)) as [->|]; [by right|].
    destruct (rest st) as [|z r] eqn:Er; [right; by rewrite drop_nil|].
    left. rewrite length_drop. simpl. lia.
  - intros [Hl Hc]. set (buf' := block_buf st ++ take n (rest st)) in *.
    destruct Hsc as [E|(E & Hl' & Hs)].
    + rewrite E. destruct (Nat.ltb_spec 0 (p_min p - 1)); [|lia].
      replace (length buf' - (p_min p - 1))%nat with (S (length buf' - p_min p)) by lia.
      apply scan_fp_irrel.
    + rewrite E in *. destruct (Nat.ltb_spec (length (block_buf st)) (p_min p - 1)); [lia|].
      replace (length buf' - (p_min p - 1))%nat with
        ((length (block_buf st) - (p_min p - 1)) + (length buf' - length (block_buf st)))%nat
        by lia.
      rewrite scan_split. unfold buf' at 3. rewrite scan_app by lia. rewrite Hs.
      f_equal. lia.
Qed.

(** While data is left, the counter is below the limit and the array has room. *)
Lemma block_room st :
  cdc_inv st -> (0 < length (remaining st))%nat ->
  0 <= block_nr st < max_block_nr /\ max_block_nr < 2 ^ 31 /\
  u32 (block_nr st * CHECKSUM_LENGTH) + CHECKSUM_LENGTH <= sums_size.
Proof.
  intros [_ _ HR [HN _] _ _] Hpos. unfold INT_MAX, CHECKSUM_LENGTH in *.
  assert (0 <= block_nr st < max_block_nr) by nia. rewrite u32_id by lia. lia.
Qed.

Lemma write_inv st n :
  cdc_inv st -> (0 < n <= length (block_buf st))%nat ->
  chunks p (remaining st) = take n (block_buf st) :: chunks p (drop n (block_buf st) ++ rest st) ->
  exists st', (forall k, emit write_block max_block_nr sums_size st n k = k st') /\
    (block_buf st', rest st', cur st') = (drop n (block_buf st), rest st, 0%nat) /\
    (snd <$> written st') ++ chunks p (remaining st') = chunks p file /\
    file_size st' = file_size st /\ length (written st') = S (length (written st)) /\
    block_nr st' = Z.of_nat (length (written st')) /\
    length (blk_sha1s st') = length (written st') /\
    file_ctx st' = blk_sha1s st' /\ (indexed st' + length (remaining st') = length file)%nat.
Proof.
  intros I Hn Hch.
  destruct (block_room st I) as (Hnr & Hmx & Hroom);
    [unfold remaining; rewrite length_app; lia|].
  destruct I as [HB HS HR (HN & HN2 & HN3) HL HI]. unfold emit, WRITE_CDC_BLOCK.
  rewrite (proj2 (Z.eqb_neq _ _)) by (rewrite u32_id; lia).
  destruct (Hwrite (offset st) (take n (block_buf st))) as [s ->].
  rewrite (proj2 (Z.ltb_ge _ _)) by done.
  eexists. split; [intros k; reflexivity|]. unfold remaining in *; simpl.
  rewrite !length_app. simpl. split_and!; try done.
  - rewrite fmap_app. simpl. rewrite <- app_assoc. simpl. by rewrite <- Hch.
  - lia.
  - rewrite u32_id by lia. lia.
  - lia.
  - by rewrite HN3.
  - rewrite !length_app, length_drop in *. lia.
Qed.

(** What the descriptor holds when the loop ends. *)
Definition cdc_final (st' : cdc_state sum) : Prop :=
  snd <$> written st' = chunks p file /\ file_size st' = length file /\
  block_nr st' = Z.of_nat (length (chunks p file)) /\
  length (blk_sha1s st') = length (chunks p file) /\
  file_ctx st' = blk_sha1s st' /\ indexed st' = length file.

Lemma chunks_nil : chunks p [] = [].
Proof.
  rewrite chunks_unfold by lia.
  destruct (Nat.ltb_spec (length (@nil Z)) (p_min p)); [done|simpl in *; lia].
Qed.

(** The end of the file: what is left is the last block. *)
Lemma flush_ok st :
  cdc_inv st -> rest st = [] ->
  (block_buf st <> [] -> chunks p (block_buf st) = [block_buf st]) ->
  exists st', (if (0 <? length (block_buf st))%nat
    then emit write_block max_block_nr sums_size st (length (block_buf st)) Done else Done st)
    = Done st' /\
    cdc_final st'.
Proof.
  intros I Er Hch.
  assert (Hr1 : remaining st = block_buf st) by (unfold remaining; by rewrite Er, app_nil_r).
  pose proof (ci_size _ I) as HS. rewrite Er in HS. simpl in HS.
  destruct (block_buf st) as [|z bf] eqn:Ebuf; [|rewrite <- Ebuf in *].
  - exists st. split; [done|]. destruct I as [HB _ _ HN _ HI].
    rewrite Hr1 in HB, HI. rewrite chunks_nil, app_nil_r in HB. simpl in HI.
    unfold cdc_final. rewrite <- HB, length_fmap. split_and!; try tauto; lia.
  - assert (Hpos : (0 < length (block_buf st))%nat) by (rewrite Ebuf; simpl; lia).
    rewrite (proj2 (Nat.ltb_lt _ _) Hpos).
    destruct (write_inv st (length (block_buf st)) I)
      as (st2 & -> & [= Hb2 Hrs2 Hc2] & HB2 & HF2 & HN2 & HN3 & HN4 & HN5 & HI2).
    + lia.
    + rewrite Hr1, Er, app_nil_r, take_ge, drop_ge, chunks_nil by done.
      apply Hch. by rewrite Ebuf.
    + exists st2. split; [done|]. unfold remaining in HB2, HI2.
      rewrite Hb2, Hrs2, Er, app_nil_r, drop_ge in HB2, HI2 by done.
      rewrite chunks_nil, app_nil_r in HB2. simpl in HI2.
      unfold cdc_final. rewrite <- HB2, length_fmap. split_and!; try done; lia.
Qed.

(** A cut was found inside the buffer. *)
Lemma cut_ok st c fp :
  cdc_inv st -> (p_min p <= length (block_buf st))%nat ->
  scan p (length (block_buf st) - (p_min p - 1)) (block_buf st) (p_min p - 1) 0 = inl (c, fp) ->
  exists st', emit write_block max_block_nr sums_size (set_cur st c fp) (c + 1) Continue
    = Continue st' /\
    cdc_inv st' /\ cur st' = 0%nat /\ rest st' = rest st /\
    (length (remaining st') < length (remaining st))%nat.
Proof.
  intros I Hl Es. pose proof (scan_inl_range _ _ _ _ _ _ _ Es) as [Hcr _].
  set (st1 := set_cur st c fp).
  assert (I1 : cdc_inv st1) by (destruct I; by split).
  assert (Hr : remaining st1 = block_buf st ++ rest st) by done.
  assert (Hcut : first_cut p (remaining st1) = Some c)
    by (rewrite Hr, first_cut_app by lia; by rewrite Es).
  destruct (write_inv st1 (c + 1) I1)
    as (st2 & -> & [= Hb2 Hrs2 Hc2] & HB2 & HF2 & HN2 & HN3 & HN4 & HN5 & HI2).
  - unfold st1; simpl. lia.
  - rewrite chunks_unfold, Hcut by lia.
    destruct (Nat.ltb_spec (length (remaining st1)) (p_min p)) as [Hx|_];
      [rewrite Hr, length_app in Hx; lia|].
    rewrite Hr. unfold st1; simpl. by rewrite take_app_le, drop_app_le by lia.
  - exists st2. destruct I1 as [HB1 HS1 HR1 HN1 HL1 HI1].
    assert (Hrem2 : (length (remaining st2) + (c + 1) = length (remaining st1))%nat).
    { unfold remaining. rewrite Hb2, Hrs2, !length_app, length_drop. unfold st1; simpl. lia. }
    split; [done|]. split; [split; try done|].
    + by rewrite HF2, Hrs2.
    + rewrite HN2. simpl in *. nia.
    + rewrite Hb2, length_drop. unfold st1 in *; simpl in *. lia.
    + split_and!; try done. rewrite Hr in Hrem2. unfold remaining. unfold remaining in Hrem2. lia.
Qed.

Lemma full_buffer_no_cut st st1 :
  scan_inv st -> remaining st1 = remaining st -> cur st1 = cur st -> rest st1 = [] ->
  (p_min p <= length (block_buf st1) <= cur st1)%nat -> first_cut p (block_buf st1) = None.
Proof.
  intros Hsc Hrem Hcur Er [Hl Hs]. destruct Hsc as [E0|(E0 & _ & Hs0)]; [lia|].
  unfold remaining in Hrem. rewrite Er, app_nil_r in Hrem.
  assert (rest st = []) as Er0.
  { apply nil_length_inv. rewrite Hrem, length_app in Hs. lia. }
  rewrite Er0, app_nil_r in Hrem. rewrite Hrem. unfold first_cut. by rewrite Hs0.
Qed.

Lemma cdc_step_ok st :
  cdc_inv st -> scan_inv st ->
  match step st with
  | Err | Undefined => False
  | Done st' => cdc_final st'
  | Continue st' => cdc_inv st' /\ scan_inv st' /\ (measure st' < measure st)%nat
  end.
Proof.
  intros I Hsc.
  destruct (refill_ok st I Hsc)
    as (st1 & E & I1 & Hrest & Hrem & Hcur & Hshort & Hfull & Hprog & Hscan).
  unfold cdc_step. rewrite E. clear E.
  destruct (Nat.ltb_spec (length file) (file_size st1)) as [Hbad|_];
    [pose proof (ci_size _ I1); lia|].
  destruct ((length (block_buf st1) <? p_min p)%nat || (length (block_buf st1) <=? cur st1)%nat)
    eqn:Eend.
  - assert (rest st1 = []) as Er by (apply orb_true_iff in Eend as [H|H]; bools; auto).
    destruct (flush_ok st1 I1 Er) as (st' & -> & HF); [|done].
    intros Hne. rewrite chunks_unfold by lia.
    destruct (Nat.ltb_spec (length (block_buf st1)) (p_min p)); [by destruct (block_buf st1)|].
    rewrite (full_buffer_no_cut st st1); try done.
    apply orb_true_iff in Eend as [H1|H1]; blia.
  - bools. specialize (Hscan ltac:(lia)). cbv zeta in Hscan. rewrite Hscan.
    destruct (scan p (length (block_buf st1) - (p_min p - 1)) _ _ _) as [[c fp]|fp] eqn:Es.
    + destruct (cut_ok st1 c fp I1 ltac:(lia) Es) as (st2 & -> & I2 & Hc2 & Hr2 & Hlt).
      split; [done|]. split; [by left|]. unfold measure. rewrite Hr2, Hc2. simpl.
      rewrite Hrem in Hlt. case_bool; lia.
    + split; [destruct I1; by split|]. split; [by right|].
      unfold measure. change (remaining (set_cur st1 (length (block_buf st1)) fp)) with (remaining st1).
      rewrite Hrem. simpl. destruct (Nat.eqb_spec (length (block_buf st1)) 0); [lia|].
      destruct Hprog as [|Heq]; [case_bool; lia|]. rewrite Heq.
      destruct Hsc as [E0|(E0 & Hl0 & _)]; [rewrite E0; simpl; lia|].
      exfalso. pose proof (f_equal length Hrem) as HL. unfold remaining in HL.
      rewrite Heq, !length_app in HL. lia.
Qed.

Lemma cdc_loop_ok n : forall st fuel,
  cdc_inv st -> scan_inv st -> (measure st < n)%nat -> (n <= fuel)%nat ->
  exists st', cdc_loop no_fail write_block p max_block_nr sums_size (length file) fuel st = Done st' /\
    cdc_final st'.
Proof.
  induction n as [|n IH]; intros st fuel I Hsc Hm Hf; [lia|].
  destruct fuel as [|fuel]; [lia|]. simpl.
  pose proof (cdc_step_ok st I Hsc) as H. destruct (step st) as [| |st'|st']; [done|done|eauto|].
  destruct H as (I' & Hsc' & Hlt). apply IH; auto; lia.
Qed.

Lemma cdc_start_inv : cdc_inv (cdc_start file) /\ scan_inv (cdc_start file).
Proof.
  split; [|by left]. split; simpl; try done; lia.
Qed.
End refinement.

(** The states the loop can reach, whatever the file and the callbacks do. *)
Inductive cdc_reach {sum} (read_fails : nat -> bool) (write_block : Z -> list Z -> option sum)
    (p : cdc_params) (max_nr sums : Z) (expected : nat) (file : list Z) : cdc_state sum -> Prop :=
| cdc_reach_start : cdc_reach read_fails write_block p max_nr sums expected file (cdc_start file)
| cdc_reach_step st st' :
    cdc_reach read_fails write_block p max_nr sums expected file st ->
    cdc_step read_fails write_block p max_nr sums expected st = Continue st' ->
    cdc_reach read_fails write_block p max_nr sums expected file st'.

Lemma refill_buffer {sum} read_fails p (st st' : cdc_state sum) :
  (p_min p + READ_SIZE <= p_max p)%nat -> (length (block_buf st) <= p_max p)%nat ->
  refill read_fails p st = Some st' -> (length (block_buf st') <= p_max p)%nat.
Proof.
  intros Hm Hl. unfold refill. case_bool; [done|]. intros [= <-]. simpl.
  rewrite length_app, length_take. pose proof (rsize_fits p (length (block_buf st)) Hm Hl). lia.
Qed.

Lemma step_buffer {sum} read_fails write_block p max_nr sums expected (st st' : cdc_state sum) :
  (p_min p + READ_SIZE <= p_max p)%nat -> (length (block_buf st) <= p_max p)%nat ->
  cdc_step read_fails write_block p max_nr sums expected st = Continue st' ->
  (length (block_buf st') <= p_max p)%nat.
Proof.
  intros Hm Hl. unfold cdc_step. destruct (refill read_fails p st) as [st1|] eqn:E; [|done].
  pose proof (refill_buffer _ _ _ _ Hm Hl E) as Hl1. case_bool; [done|].
  case_bool.
  - unfold emit. by repeat (case_match; try done).
  - destruct (scan p _ _ _ _) as [[c fp]|fp]; [|by intros [= <-]].
    unfold emit, WRITE_CDC_BLOCK. simpl. case_bool; [done|].
    destruct (write_block _ _); simpl; [|done]. case_bool; [done|]. intros [= <-]. simpl.
    rewrite length_drop. lia.
Qed.

(** A file of at most [INT_MAX / CHECKSUM_LENGTH] minimal blocks: the count is
    the rounded-up quotient, and neither it nor the size of the array is cut. *)
Lemma init_cdc_exact size min max sz :
  let d := init_cdc_file_descriptor size min max sz in
  let m := Z.of_nat (p_min (d_params d)) in
  0 <= size -> 0 < m <= INT_MAX -> size <= INT_MAX / CHECKSUM_LENGTH * m ->
  size <= d_max_block_nr d * m /\
  d_max_block_nr d * CHECKSUM_LENGTH = d_sums_size d /\ d_sums_size d <= INT_MAX.
Proof.
  unfold init_cdc_file_descriptor. simpl.
  set (min1 := if u32 min <=? 0 then Z.of_nat BLOCK_MIN_SZ else u32 min).
  change (INT_MAX / CHECKSUM_LENGTH) with 107374182. unfold INT_MAX, CHECKSUM_LENGTH.
  intros Hs Hm Hsize. rewrite Z2Nat.id in * by lia.
  rewrite (s32_id min1), !u64_id by lia.
  pose proof (Z.div_mod (size + min1 - 1) min1 ltac:(lia)).
  pose proof (Z.mod_pos_bound (size + min1 - 1) min1 ltac:(lia)).
  set (q := (size + min1 - 1) / min1) in *.
  assert (0 <= q <= 107374182) by nia.
  rewrite (s32_id q), s32_id by lia. nia.
Qed.


(** Beyond that the count is cut: for 2^32 minimal blocks the limit is 0, and
    for one block more than [INT_MAX / CHECKSUM_LENGTH] the product of the
    allocation leaves [int]. *)
Example block_count_cut :
  d_max_block_nr (init_cdc_file_descriptor (2 ^ 32 * 1024) 1024 8192 1024) = 0 /\
  d_sums_size (init_cdc_file_descriptor (107374183 * 1024) 1024 8192 1024) = 12 - 2 ^ 31.
Proof. split; vm_compute; reflexivity. Qed.

(** The blocks of a file concatenate to the file; every block is non-empty
    and at most the maximum size, and every block but the last has at least the
    minimum size. *)
Theorem cdc_chunks_partition p data :
  (0 < p_min p <= p_max p)%nat ->
  concat (chunks p data) = data /\
  Forall (fun blk => blk <> [] /\ (length blk <= p_max p)%nat) (chunks p data) /\
  forall l last, chunks p data = l ++ [last] -> Forall (fun blk => (p_min p <= length blk)%nat) l.
Proof.
  intros Hm. split; [apply chunks_concat; lia|]. by apply chunks_bounds.
Qed.

(** The fixed buffer of [block_max_sz] bytes never overflows: whatever the
    file contains, grows to or fails with, after every read of every round the
    loaded data fits the buffer. *)
Theorem cdc_buffer_safe {sum} read_fails (write_block : Z -> list Z -> option sum)
    p max_nr sums expected file st st' :
  (p_min p + READ_SIZE <= p_max p)%nat ->
  cdc_reach read_fails write_block p max_nr sums expected file st ->
  refill read_fails p st = Some st' -> (length (block_buf st') <= p_max p)%nat.
Proof.
  intros Hm R. apply refill_buffer; [done|].
  induction R as [|st1 st2 R IH Hs]; [simpl; lia|]. by eapply step_buffer.
Qed.

Definition toy_write (_ : Z) (b : list Z) : option nat := Some (length b).

Lemma toy_descriptor :
  init_cdc_file_descriptor 3 48 5000 1024 = mkDescr (mkParams 48 (Z.to_nat 5000) 1024) 1 20.
Proof. vm_compute. reflexivity. Qed.

Lemma toy_max_fits : (48 + READ_SIZE <= Z.to_nat 5000)%nat.
Proof. apply Nat2Z.inj_le. vm_compute. discriminate. Qed.


Lemma cdc_chunks_partition_witness :
  concat (chunks (mkParams 2 5 4) [1; 2; 3; 4; 5; 6; 7]) = [1; 2; 3; 4; 5; 6; 7].
Proof. apply (cdc_chunks_partition (mkParams 2 5 4) [1; 2; 3; 4; 5; 6; 7]). simpl. lia. Defined.

Lemma cdc_buffer_safe_witness :
  exists st', refill (sum := nat) (fun _ => false) (mkParams 48 (48 + READ_SIZE) 1024)
    (cdc_start [7; 8]) = Some st' /\
    (length (block_buf st') <= 48 + READ_SIZE)%nat.
Proof.
  eexists. split; [reflexivity|].
  apply (cdc_buffer_safe (fun _ => false) toy_write (mkParams 48 (48 + READ_SIZE) 1024) 1 20 2 [7; 8]
           (cdc_start [7; 8])); [simpl; lia|constructor|reflexivity].
Defined.
