(* ===== verification/Hex.v ===== *)
(** * Hexadecimal object ids ([lib/utils.c])

    Raw SHA-1 bytes and their 40-digit lower-case form, the validity test of
    object ids, and the big-endian integers of the version 0 object formats. *)

From S2P Require Import Prelude.

Definition EMPTY_SHA1 : string := "0000000000000000000000000000000000000000".

(** ** C strings as byte lists *)
Fixpoint bytes_of_string (s : string) : list Z :=
  match s with
  | EmptyString => []
  | String c s => Z.of_N (Ascii.N_of_ascii c) :: bytes_of_string s
  end.

Fixpoint string_of_bytes (l : list Z) : string :=
  match l with
  | [] => EmptyString
  | b :: l => String (Ascii.ascii_of_N (Z.to_N b)) (string_of_bytes l)
  end.

(** The character at an index of a NUL-terminated string. *)
Definition char_at (n : nat) (s : string) : Ascii.ascii :=
  match String.get n s with Some c => c | None => Ascii.zero end.

Definition hex_digit (n : Z) : Ascii.ascii := char_at (Z.to_nat n) "0123456789abcdef".

(** [rawdata_to_hex] *)
Fixpoint rawdata_to_hex (rawdata : list Z) : string :=
  match rawdata with
  | [] => EmptyString
  | b :: rawdata =>
      String (hex_digit (Z.shiftr b 4)) (String (hex_digit (Z.land b 0xf)) (rawdata_to_hex rawdata))
  end.

(** [hexval]: an [unsigned], all ones when the character is not a digit. *)
Definition hexval (c : Ascii.ascii) : Z :=
  let n := Z.of_N (Ascii.N_of_ascii c) in
  if (48 <=? n) && (n <=? 57) then n - 48
  else if (97 <=? n) && (n <=? 102) then n - 97 + 10
  else if (65 <=? n) && (n <=? 70) then n - 65 + 10
  else 2 ^ 32 - 1.

(** [hex_to_rawdata]: the return value and the bytes written so far. *)
Fixpoint hex_to_rawdata (hex_str : string) (n_bytes : nat) : Z * list Z :=
  match n_bytes with
  | O => (0, [])
  | S n =>
      let c0 := char_at 0 hex_str in
      let c1 := char_at 1 hex_str in
      let val := Z.lor (u32 (Z.shiftl (hexval c0) 4)) (hexval c1) in
      if negb (Z.land val (2 ^ 32 - 2 ^ 8) =? 0) then (-1, [])
      else
        let hex_str := match hex_str with String _ (String _ s) => s | _ => EmptyString end in
        let '(ret, l) := hex_to_rawdata hex_str n in (ret, val :: l)
  end.

Definition hex_lower (c : Ascii.ascii) : bool :=
  let n := Z.of_N (Ascii.N_of_ascii c) in
  ((48 <=? n) && (n <=? 57)) || ((97 <=? n) && (n <=? 102)).

Fixpoint all_chars (f : Ascii.ascii -> bool) (s : string) : bool :=
  match s with EmptyString => true | String c s => f c && all_chars f s end.

Definition is_object_id_valid (obj_id : option string) : bool :=
  match obj_id with
  | None => false
  | Some obj_id =>
      if negb (String.length obj_id =? 40)%nat then false else all_chars hex_lower obj_id
  end.

(** ** Big-endian integers: [htonl]/[get32bit] and [hton64]/[ntoh64] *)
Fixpoint be_bytes (n : nat) (v : Z) : list Z :=
  match n with O => [] | S n => Z.shiftr v (8 * Z.of_nat n) mod 256 :: be_bytes n v end.

Definition be_val (l : list Z) : Z := foldl (fun acc b => acc * 256 + b) 0 l.

(** [get32bit]: the value and the remaining input. *)
Definition get32bit (data : list Z) : Z * list Z := (be_val (take 4 data), drop 4 data).

(** ** Facts *)

Lemma length_bytes_of_string s : length (bytes_of_string s) = String.length s.
Proof. induction s; simpl; congruence. Qed.

Lemma string_of_bytes_of_string s : string_of_bytes (bytes_of_string s) = s.
Proof.
  induction s as [|c s IH]; simpl; [done|]. rewrite IH.
  by rewrite N2Z.id, Ascii.ascii_N_embedding.
Qed.

Lemma bytes_of_string_range s : Forall (fun b => 0 <= b < 256) (bytes_of_string s).
Proof.
  induction s as [|c s IH]; simpl; constructor; [|done].
  pose proof (Ascii.N_ascii_bounded c). lia.
Qed.

Lemma ascii_forall (f : Ascii.ascii -> bool) :
  forallb (fun n => f (Ascii.ascii_of_nat n)) (seq 0 256) = true -> forall c, f c = true.
Proof.
  intros H c. rewrite forallb_forall in H.
  rewrite <- (Ascii.ascii_nat_embedding c). apply H, in_seq.
  pose proof (Ascii.nat_ascii_bounded c). lia.
Qed.

Lemma byte_forall (f : Z -> bool) :
  forallb (fun n => f (Z.of_nat n)) (seq 0 256) = true -> forall b, 0 <= b < 256 -> f b = true.
Proof.
  intros H b Hb. rewrite forallb_forall in H.
  rewrite <- (Z2Nat.id b) by lia. apply H, in_seq. lia.
Qed.

(** Two digits of a byte decode to the byte. *)
Lemma hex_byte b :
  0 <= b < 256 ->
  Z.lor (u32 (Z.shiftl (hexval (hex_digit (Z.shiftr b 4))) 4)) (hexval (hex_digit (Z.land b 0xf))) = b.
Proof.
  intros Hb. apply Z.eqb_eq. revert b Hb. apply byte_forall. vm_compute. reflexivity.
Qed.

Lemma byte_mask b : 0 <= b < 256 -> Z.land b (2 ^ 32 - 2 ^ 8) = 0.
Proof. intros Hb. apply Z.eqb_eq. revert b Hb. apply byte_forall. vm_compute. reflexivity. Qed.

Lemma hex_to_rawdata_to_hex raw :
  Forall (fun b => 0 <= b < 256) raw ->
  hex_to_rawdata (rawdata_to_hex raw) (length raw) = (0, raw).
Proof.
  induction 1 as [|b raw Hb F IH]; [done|].
  cbn [length rawdata_to_hex hex_to_rawdata char_at String.get].
  rewrite hex_byte, byte_mask by done. simpl. by rewrite IH.
Qed.

Lemma hex_lower_val c : hex_lower c = true -> hex_digit (hexval c) = c /\ 0 <= hexval c < 16.
Proof.
  intros H. pose (f := fun c => if hex_lower c
    then Ascii.eqb (hex_digit (hexval c)) c && ((0 <=? hexval c) && (hexval c <? 16)) else true).
  assert (f c = true) as Hf by (apply ascii_forall; vm_compute; reflexivity).
  unfold f in Hf. rewrite H in Hf. bools.
  split; [by apply Ascii.eqb_eq|lia].
Qed.

(** Joining two digits and splitting the byte again. *)
Lemma nibbles_join h l :
  0 <= h < 16 -> 0 <= l < 16 ->
  let v := Z.lor (u32 (Z.shiftl h 4)) l in
  0 <= v < 256 /\ Z.shiftr v 4 = h /\ Z.land v 0xf = l.
Proof.
  intros Hh Hl v.
  assert (v = h * 16 + l) as Hv.
  { unfold v. rewrite Z.shiftl_mul_pow2 by lia. change (2 ^ 4) with 16. rewrite u32_id by lia.
    rewrite <- Z.lxor_lor.
    2: { apply Z.bits_inj'. intros j Hj. rewrite Z.land_spec, Z.bits_0.
         change 16 with (2 ^ 4). rewrite <- Z.shiftl_mul_pow2 by lia.
         destruct (Z.ltb_spec j 4); [by rewrite Z.shiftl_spec_low by lia|].
         change 16 with (2 ^ 4) in Hl. apply lt_pow2_bits in Hl as [_ Hl]; [|lia].
         rewrite (Hl j) by lia. apply andb_false_r. }
    symmetry. apply Z.add_nocarry_lxor.
    apply Z.bits_inj'. intros j Hj. rewrite Z.land_spec, Z.bits_0.
    change (h * 16) with (h * 2 ^ 4). rewrite <- Z.shiftl_mul_pow2 by lia.
    destruct (Z.ltb_spec j 4); [by rewrite Z.shiftl_spec_low by lia|].
    change 16 with (2 ^ 4) in Hl. apply lt_pow2_bits in Hl as [_ Hl]; [|lia].
    rewrite (Hl j) by lia. apply andb_false_r. }
  rewrite Hv. split; [lia|]. split.
  - rewrite Z.shiftr_div_pow2 by lia. change (2 ^ 4) with 16.
    rewrite Z.div_add_l by lia. rewrite Z.div_small by lia. lia.
  - change 0xf with (Z.ones 4). rewrite Z.land_ones by lia. change (2 ^ 4) with 16.
    rewrite Z.add_comm, Z_mod_plus_full. by apply Z.mod_small.
Qed.

Lemma rawdata_to_hex_to_rawdata n : forall s,
  String.length s = (2 * n)%nat -> all_chars hex_lower s = true ->
  exists raw, hex_to_rawdata s n = (0, raw) /\ rawdata_to_hex raw = s /\
    length raw = n /\ Forall (fun b => 0 <= b < 256) raw.
Proof.
  induction n as [|n IH]; intros s L V.
  - destruct s; [|simpl in L; lia]. exists []. done.
  - destruct s as [|c0 [|c1 s]]; simpl in L; [lia..|].
    simpl in V. apply andb_true_iff in V as [V0 [V1 V]%andb_true_iff].
    destruct (hex_lower_val c0 V0) as [E0 R0], (hex_lower_val c1 V1) as [E1 R1].
    destruct (nibbles_join _ _ R0 R1) as (Rv & Eh & El).
    destruct (IH s ltac:(lia) V) as (raw & E & Er & Ln & F).
    exists (Z.lor (u32 (Z.shiftl (hexval c0) 4)) (hexval c1) :: raw).
    cbn [hex_to_rawdata char_at String.get]. rewrite byte_mask by done. simpl.
    rewrite E, Eh, El, E0, E1, Er. split_and!; auto.
Qed.

Lemma is_object_id_valid_spec s :
  is_object_id_valid (Some s) = true <-> String.length s = 40%nat /\ all_chars hex_lower s = true.
Proof.
  unfold is_object_id_valid. destruct (Nat.eqb_spec (String.length s) 40); simpl; naive_solver.
Qed.

Lemma all_chars_rawdata raw :
  Forall (fun b => 0 <= b < 256) raw ->
  all_chars hex_lower (rawdata_to_hex raw) = true /\
  String.length (rawdata_to_hex raw) = (2 * length raw)%nat.
Proof.
  induction 1 as [|b raw Hb F [IH IL]]; [done|]. cbn [rawdata_to_hex all_chars String.length length].
  assert (hex_lower (hex_digit (Z.shiftr b 4)) && hex_lower (hex_digit (Z.land b 0xf)) = true) as H.
  { revert b Hb. apply byte_forall. vm_compute. reflexivity. }
  bools. rewrite H, H0, IH, IL. split; [done|lia].
Qed.

Lemma length_be_bytes n v : length (be_bytes n v) = n.
Proof. induction n; simpl; congruence. Qed.

Lemma be_val_app l1 l2 : be_val (l1 ++ l2) = be_val l1 * 256 ^ Z.of_nat (length l2) + be_val l2.
Proof.
  unfold be_val. rewrite foldl_app. generalize (foldl (fun acc b => acc * 256 + b) 0 l1).
  induction l2 as [|b l2 IH]; intros z; simpl foldl.
  - simpl. lia.
  - rewrite IH, (IH (0 * 256 + b)). cbn [length]. rewrite Nat2Z.inj_succ, Z.pow_succ_r by lia. lia.
Qed.

Lemma be_val_be_bytes n v : 0 <= v < 256 ^ Z.of_nat n -> be_val (be_bytes n v) = v.
Proof.
  revert v. induction n as [|n IH]; intros v Hv.
  - simpl in *. unfold be_val. simpl. lia.
  - cbn [be_bytes]. change (?x :: be_bytes n v) with ([x] ++ be_bytes n v).
    rewrite be_val_app, length_be_bytes.
    assert (H256 : 256 ^ Z.of_nat n = 2 ^ (8 * Z.of_nat n)) by (by rewrite Z.pow_mul_r by lia).
    rewrite Nat2Z.inj_succ, Z.pow_succ_r in Hv by lia.
    assert (0 < 256 ^ Z.of_nat n) by (apply Z.pow_pos_nonneg; lia).
    rewrite Z.shiftr_div_pow2, <- H256 by lia.
    assert (Hq : 0 <= v / 256 ^ Z.of_nat n < 256)
      by (split; [apply Z.div_pos; lia|apply Z.div_lt_upper_bound; lia]).
    rewrite (Z.mod_small _ 256) by done.
    assert (Hlow : be_bytes n v = be_bytes n (v mod 256 ^ Z.of_nat n)).
    { clear IH. rewrite H256. assert (Hm : forall m, (m <= n)%nat ->
        be_bytes m v = be_bytes m (v mod 2 ^ (8 * Z.of_nat n))); [|by apply Hm].
      intros m. induction m as [|m IHm]; intros Hmn; [done|]. cbn [be_bytes].
      rewrite <- IHm by lia. f_equal. change 256 with (2 ^ 8). apply Z.bits_inj'. intros j Hj.
      destruct (Z.ltb_spec j 8); [|by rewrite !Z.mod_pow2_bits_high by lia].
      rewrite !(Z.mod_pow2_bits_low _ 8), !Z.shiftr_spec by lia.
      by rewrite Z.mod_pow2_bits_low by lia. }
    rewrite Hlow, IH by (apply Z.mod_pos_bound; lia).
    unfold be_val at 1. simpl. pose proof (Z.div_mod v (256 ^ Z.of_nat n)). lia.
Qed.

(** Object ids survive the trip through raw bytes in both directions: every
    20-byte SHA-1 has a valid 40-digit id that decodes back to it, and every
    valid id is the hexadecimal form of the 20 bytes it decodes to. *)
Theorem object_id_roundtrip :
  (forall raw, Forall (fun b => 0 <= b < 256) raw -> length raw = 20%nat ->
     is_object_id_valid (Some (rawdata_to_hex raw)) = true /\
     hex_to_rawdata (rawdata_to_hex raw) 20 = (0, raw)) /\
  (forall id, is_object_id_valid (Some id) = true ->
     exists raw, hex_to_rawdata id 20 = (0, raw) /\ rawdata_to_hex raw = id).
Proof.
  split.
  - intros raw F L. destruct (all_chars_rawdata raw F) as [V Ln].
    rewrite is_object_id_valid_spec, <- L. split; [split; [lia|done]|].
    by apply hex_to_rawdata_to_hex.
  - intros id [L V]%is_object_id_valid_spec.
    destruct (rawdata_to_hex_to_rawdata 20 id L V) as (raw & E & Er & _). eauto.
Qed.

Lemma object_id_roundtrip_witness :
  is_object_id_valid (Some (rawdata_to_hex (replicate 20 171))) = true.
Proof.
  apply (proj1 object_id_roundtrip (replicate 20 171)); [|reflexivity].
  apply Forall_replicate. lia.
Defined.
