(* ===== verification/FsObj.v ===== *)
(** * File-system objects and their on-disk formats ([common/fs-mgr.c])

    Directory entries, directories and files, the binary format of version 0
    repositories and the JSON format of the others.  Jansson, the JSON library,
    is an interface with its documented laws; zlib compression and SHA-1 are not
    part of this file. *)

From S2P Require Import Prelude Hex.

Definition SEAF_METADATA_TYPE_FILE : Z := 1.
Definition SEAF_METADATA_TYPE_DIR : Z := 3.
Definition SEAF_DIR_NAME_LEN : nat := 256.

Definition S_IFMT : Z := 0xF000.
Definition S_IFREG : Z := 0x8000.
Definition S_IFDIR : Z := 0x4000.
Definition S_ISREG (mode : Z) : bool := Z.land mode S_IFMT =? S_IFREG.
Definition S_ISDIR (mode : Z) : bool := Z.land mode S_IFMT =? S_IFDIR.

Record SeafDirent := mkDirent {
  d_version : Z;
  d_mode : Z;
  d_id : string;
  d_name_len : nat;
  d_name : string;
  d_mtime : Z;
  d_modifier : option string;
  d_size : Z
}.

Record SeafDir := mkDir {
  dir_version : Z;
  dir_id : string;
  entries : list SeafDirent
}.

(** [n_blocks] is the length of [f_blk_sha1s]. *)
Record Seafile := mkFile {
  f_version : Z;
  f_id : string;
  f_size : Z;
  f_blk_sha1s : list string
}.

#[global] Instance SeafDirent_eq_dec : EqDecision SeafDirent.
Proof. solve_decision. Defined.
#[global] Instance SeafDir_eq_dec : EqDecision SeafDir.
Proof. solve_decision. Defined.
#[global] Instance Seafile_eq_dec : EqDecision Seafile.
Proof. solve_decision. Defined.

Definition set_name (d : SeafDirent) (name : string) : SeafDirent :=
  mkDirent (d_version d) (d_mode d) (d_id d) (String.length name) name
    (d_mtime d) (d_modifier d) (d_size d).
Definition set_id (d : SeafDirent) (id : string) : SeafDirent :=
  mkDirent (d_version d) (d_mode d) id (d_name_len d) (d_name d)
    (d_mtime d) (d_modifier d) (d_size d).

(** [seaf_dirent_new] *)
Definition seaf_dirent_new (version : Z) (sha1 : string) (mode : Z) (name : string)
    (mtime : Z) (modifier : option string) (size : Z) : SeafDirent :=
  let mode' := if S_ISREG mode then Z.lor mode 0x1A4 else mode in
  if 0 <? version then
    mkDirent version mode' sha1 (String.length name) name mtime
      (if S_ISREG mode then modifier else None) (if S_ISREG mode then size else 0)
  else mkDirent version mode' sha1 (String.length name) name 0 None 0.

(** ** Version 0: the binary format *)

(** [g_strndup] stops at a NUL byte. *)
Fixpoint cstr (l : list Z) : list Z :=
  match l with [] => [] | b :: l => if b =? 0 then [] else b :: cstr l end.

Definition dirent_to_v0 (de : SeafDirent) : list Z :=
  be_bytes 4 (d_mode de) ++ take 40 (bytes_of_string (d_id de)) ++
  be_bytes 4 (Z.of_nat (d_name_len de)) ++ take (d_name_len de) (bytes_of_string (d_name de)).

Definition seaf_dir_to_v0_data (dir : SeafDir) : list Z :=
  be_bytes 4 SEAF_METADATA_TYPE_DIR ++ concat (dirent_to_v0 <$> entries dir).

Definition dirent_base_size : nat := 48.

(** The [while (remain > dirent_base_size)] loop; every round consumes input. *)
Fixpoint parse_v0_dirents (fuel : nat) (data : list Z) : option (list SeafDirent) :=
  if (length data <=? dirent_base_size)%nat then Some []
  else
    match fuel with
    | O => None
    | S fuel =>
        let '(mode, data) := get32bit data in
        let id := string_of_bytes (take 40 data) in
        let data := drop 40 data in
        let '(name_len, data) := get32bit data in
        if Z.of_nat (length data) <? name_len then None
        else
          let n := Nat.min (Z.to_nat name_len) (SEAF_DIR_NAME_LEN - 1) in
          let dent := mkDirent 0 mode id n (string_of_bytes (cstr (take n data))) 0 None 0 in
          dents ← parse_v0_dirents fuel (drop n data);
          Some (dent :: dents)
    end.

Definition seaf_dir_from_v0_data (dir_id : string) (data : list Z) : option SeafDir :=
  let '(meta_type, data) := get32bit data in
  if negb (meta_type =? SEAF_METADATA_TYPE_DIR) then None
  else
    dents ← parse_v0_dirents (length data) data;
    Some (mkDir 0 dir_id dents).

Definition seafile_to_v0_data (file : Seafile) : list Z :=
  be_bytes 4 SEAF_METADATA_TYPE_FILE ++ be_bytes 8 (f_size file) ++
  concat ((fun id => snd (hex_to_rawdata id 20)) <$> f_blk_sha1s file).

Fixpoint block_ids_of (n : nat) (data : list Z) : list string :=
  match n with
  | O => []
  | S n => rawdata_to_hex (take 20 data) :: block_ids_of n (drop 20 data)
  end.

Definition seafile_from_v0_data (id : string) (data : list Z) : option Seafile :=
  if (length data <? 12)%nat then None
  else if negb (be_val (take 4 data) =? SEAF_METADATA_TYPE_FILE) then None
  else
    let id_list_len := (length data - 12)%nat in
    if negb (id_list_len mod 20 =? 0)%nat then None
    else
      Some (mkFile 0 id (be_val (take 8 (drop 4 data)))
              (block_ids_of (id_list_len / 20) (drop 12 data))).

(** What version 0 entries can represent. *)
Definition no_nul (s : string) : Prop := Forall (fun b => b <> 0) (bytes_of_string s).

Record dirent_v0_ok (de : SeafDirent) : Prop := {
  v0_attrs : d_version de = 0 /\ d_mtime de = 0 /\ d_modifier de = None /\ d_size de = 0;
  v0_mode : 0 <= d_mode de < 2 ^ 32;
  v0_id : String.length (d_id de) = 40%nat;
  v0_name : no_nul (d_name de);
  v0_len : d_name_len de = String.length (d_name de) /\ (0 < d_name_len de < SEAF_DIR_NAME_LEN)%nat
}.

Lemma cstr_id l : Forall (fun b => b <> 0) l -> cstr l = l.
Proof. induction 1 as [|b l Hb F IH]; simpl; [done|]. destruct (Z.eqb_spec b 0); congruence. Qed.

Lemma get32bit_be v data : 0 <= v < 2 ^ 32 -> get32bit (be_bytes 4 v ++ data) = (v, data).
Proof.
  intros Hv. unfold get32bit. rewrite take_app_length', drop_app_length' by (by rewrite length_be_bytes).
  by rewrite be_val_be_bytes.
Qed.

Lemma length_dirent_v0 de : dirent_v0_ok de -> length (dirent_to_v0 de) = (48 + d_name_len de)%nat.
Proof.
  intros [_ _ Hid _ [Hl _]]. unfold dirent_to_v0.
  rewrite !length_app, !length_be_bytes, !length_take, !length_bytes_of_string, Hid, Hl. lia.
Qed.

Lemma parse_v0_roundtrip des : forall fuel,
  Forall dirent_v0_ok des -> (length (concat (dirent_to_v0 <$> des)) <= fuel)%nat ->
  parse_v0_dirents fuel (concat (dirent_to_v0 <$> des)) = Some des.
Proof.
  induction des as [|de des IH]; intros fuel F Hf; [by destruct fuel|].
  apply Forall_cons in F as [Hok F]. rewrite fmap_cons in *. cbn [concat] in *.
  pose proof (length_dirent_v0 de Hok) as Hlen. rewrite length_app in Hf.
  destruct Hok as [(Hv & Hm & Hmo & Hs) Hmode Hid Hnul [Hnl Hpos]].
  destruct fuel as [|fuel]; [lia|]. cbn [parse_v0_dirents].
  rewrite length_app, Hlen. destruct (Nat.leb_spec (48 + d_name_len de +
    length (concat (dirent_to_v0 <$> des))) dirent_base_size); [unfold dirent_base_size in *; lia|].
  unfold dirent_to_v0 at 1. rewrite <- !app_assoc, get32bit_be by done.
  rewrite (take_ge (bytes_of_string (d_id de)) 40) by (rewrite length_bytes_of_string; lia).
  rewrite take_app_length', drop_app_length' by (by rewrite length_bytes_of_string).
  rewrite get32bit_be by (unfold SEAF_DIR_NAME_LEN in *; lia).
  rewrite (take_ge (bytes_of_string (d_name de))) by (rewrite length_bytes_of_string; lia).
  rewrite length_app, length_bytes_of_string.
  destruct (Z.ltb_spec (Z.of_nat (String.length (d_name de) +
    length (concat (dirent_to_v0 <$> des)))) (Z.of_nat (d_name_len de))); [lia|].
  rewrite Nat2Z.id, Nat.min_l by (unfold SEAF_DIR_NAME_LEN in *; lia).
  rewrite take_app_length', drop_app_length' by (by rewrite length_bytes_of_string).
  rewrite cstr_id by done. rewrite !string_of_bytes_of_string, IH by (try done; lia).
  simpl. f_equal. f_equal. destruct de; simpl in *; by subst.
Qed.

Lemma block_ids_roundtrip ids tl :
  Forall (fun id => is_object_id_valid (Some id) = true) ids ->
  block_ids_of (length ids) (concat ((fun id => snd (hex_to_rawdata id 20)) <$> ids) ++ tl) = ids /\
  length (concat ((fun id => snd (hex_to_rawdata id 20)) <$> ids)) = (20 * length ids)%nat.
Proof.
  induction 1 as [|id ids [L V]%is_object_id_valid_spec F [IH IL]]; [done|].
  destruct (rawdata_to_hex_to_rawdata 20 id L V) as (raw & E & Er & Ln & _).
  cbn [length block_ids_of fmap list_fmap concat]. rewrite E. cbn [snd].
  rewrite <- app_assoc, take_app_length', drop_app_length' by done.
  unfold fmap in *. rewrite Er, IH. split; [done|]. rewrite length_app, Ln, IL. lia.
Qed.

(** The version 0 directory format round-trips: parsing what
    [seaf_dir_to_v0_data] wrote gives back the directory, for any list of
    entries with 40-byte ids and non-empty NUL-free names of fewer than 256 bytes. *)
Theorem dir_v0_roundtrip dir :
  dir_version dir = 0 -> Forall dirent_v0_ok (entries dir) ->
  seaf_dir_from_v0_data (dir_id dir) (seaf_dir_to_v0_data dir) = Some dir.
Proof.
  intros Hv F. unfold seaf_dir_from_v0_data, seaf_dir_to_v0_data.
  rewrite get32bit_be by (unfold SEAF_METADATA_TYPE_DIR; lia). simpl.
  rewrite parse_v0_roundtrip by done. simpl. destruct dir; simpl in *; by subst.
Qed.

(** The version 0 file format round-trips for a 64-bit size and any list of
    valid block ids. *)
Theorem file_v0_roundtrip file :
  f_version file = 0 -> 0 <= f_size file < 2 ^ 64 ->
  Forall (fun id => is_object_id_valid (Some id) = true) (f_blk_sha1s file) ->
  seafile_from_v0_data (f_id file) (seafile_to_v0_data file) = Some file.
Proof.
  intros Hv Hs F. unfold seafile_from_v0_data, seafile_to_v0_data.
  destruct (block_ids_roundtrip _ [] F) as [Hids Hlen]. rewrite app_nil_r in Hids.
  set (body := concat _) in *.
  rewrite !length_app, !length_be_bytes, Hlen.
  replace (4 + (8 + 20 * length (f_blk_sha1s file)))%nat
    with (12 + length (f_blk_sha1s file) * 20)%nat by lia.
  destruct (Nat.ltb_spec (12 + length (f_blk_sha1s file) * 20) 12); [lia|].
  rewrite take_app_length', drop_app_length' by (by rewrite length_be_bytes).
  rewrite be_val_be_bytes by (unfold SEAF_METADATA_TYPE_FILE; simpl; lia). cbn [negb].
  assert (E12 : (12 + length (f_blk_sha1s file) * 20 - 12 = length (f_blk_sha1s file) * 20)%nat) by lia.
  rewrite E12, (Nat.Div0.mod_mul (length (f_blk_sha1s file)) 20).
  rewrite (Nat.div_mul (length (f_blk_sha1s file)) 20) by lia. cbn [negb].
  rewrite take_app_length' by (by rewrite length_be_bytes). rewrite be_val_be_bytes by (simpl; lia).
  rewrite app_assoc, drop_app_length' by (by rewrite length_app, !length_be_bytes).
  rewrite Hids. destruct file; simpl in *; by subst.
Qed.

Lemma dir_v0_roundtrip_witness :
  seaf_dir_from_v0_data EMPTY_SHA1 (seaf_dir_to_v0_data
    (mkDir 0 EMPTY_SHA1 [mkDirent 0 0x4000 EMPTY_SHA1 2 "zz" 0 None 0])) =
  Some (mkDir 0 EMPTY_SHA1 [mkDirent 0 0x4000 EMPTY_SHA1 2 "zz" 0 None 0]).
Proof.
  apply (dir_v0_roundtrip (mkDir 0 EMPTY_SHA1 [mkDirent 0 0x4000 EMPTY_SHA1 2 "zz" 0 None 0]));
    [reflexivity|].
  repeat constructor; simpl; unfold SEAF_DIR_NAME_LEN; try lia; discriminate.
Defined.

Lemma file_v0_roundtrip_witness :
  seafile_from_v0_data EMPTY_SHA1 (seafile_to_v0_data (mkFile 0 EMPTY_SHA1 9 [EMPTY_SHA1])) =
  Some (mkFile 0 EMPTY_SHA1 9 [EMPTY_SHA1]).
Proof.
  apply (file_v0_roundtrip (mkFile 0 EMPTY_SHA1 9 [EMPTY_SHA1])); simpl; [reflexivity|lia|].
  repeat constructor.
Defined.
