(* ===== verification/FsJson.v ===== *)
(** * JSON objects of version 1 repositories ([common/fs-mgr.c])

    The JSON forms of directories and files, against the interface [Jansson]:
    what the code relies on of the JSON library, as operations and their
    documented laws.  [assoc_jansson] is an instance. *)

From S2P Require Import Prelude Hex FsObj.

Definition is_i64 (z : Z) : Prop := - 2 ^ 63 <= z < 2 ^ 63.

Class Jansson (J : Type) := {
  json_object : J;
  json_array : J;
  json_integer : Z -> J;
  json_string : string -> option J;
  json_object_set_new : J -> string -> option J -> J;
  json_object_get : option J -> string -> option J;
  json_array_append_new : J -> option J -> J;
  json_array_size : option J -> nat;
  json_array_get : option J -> nat -> option J;
  json_integer_value : option J -> Z;
  json_string_value : option J -> option string
}.

(** The laws: objects are maps from keys to values, arrays are lists, setting
    NULL is refused, and hexadecimal text is valid UTF-8. *)
Class JanssonLaws (J : Type) `{Jansson J} := {
  is_object : J -> Prop;
  is_array : J -> Prop;
  object_new : is_object json_object;
  object_set k v o : is_object o -> is_object (json_object_set_new o k v);
  get_set_eq o k v : is_object o -> json_object_get (Some (json_object_set_new o k (Some v))) k = Some v;
  get_set_ne o k k' v : is_object o -> k <> k' ->
    json_object_get (Some (json_object_set_new o k v)) k' = json_object_get (Some o) k';
  get_new k : json_object_get (Some json_object) k = None;
  get_set_null o k k' : is_object o ->
    json_object_get (Some (json_object_set_new o k None)) k' = json_object_get (Some o) k';
  array_new : is_array json_array;
  array_append v a : is_array a -> is_array (json_array_append_new a v);
  size_new : json_array_size (Some json_array) = 0%nat;
  size_append a v : is_array a ->
    json_array_size (Some (json_array_append_new a (Some v))) = S (json_array_size (Some a));
  get_append_old a v i : is_array a -> (i < json_array_size (Some a))%nat ->
    json_array_get (Some (json_array_append_new a (Some v))) i = json_array_get (Some a) i;
  get_append_new a v : is_array a ->
    json_array_get (Some (json_array_append_new a (Some v))) (json_array_size (Some a)) = Some v;
  integer_value z : is_i64 z -> json_integer_value (Some (json_integer z)) = z;
  string_value s j : json_string s = Some j -> json_string_value (Some j) = Some s;
  string_hex s : all_chars hex_lower s = true -> is_Some (json_string s)
}.

Create HintDb jansson discriminated.

Section json.
Context {J : Type} `{Jansson J}.

Definition get_int (o : option J) (key : string) : Z := json_integer_value (json_object_get o key).
Definition get_str (o : option J) (key : string) : option string :=
  match json_object_get o key with None => None | Some s => json_string_value (Some s) end.
Definition set_int (o : J) (key : string) (v : Z) : J :=
  json_object_set_new o key (Some (json_integer v)).
Definition set_str (o : J) (key : string) (v : option string) : J :=
  json_object_set_new o key (v ≫= json_string).

(** ** Writing *)

Definition dirent_object (dirent : SeafDirent) : J :=
  let object := json_object in
  let object := set_int object "mode" (d_mode dirent) in
  let object := set_str object "id" (Some (d_id dirent)) in
  let object := set_str object "name" (Some (d_name dirent)) in
  let object := set_int object "mtime" (d_mtime dirent) in
  if S_ISREG (d_mode dirent) then
    let object := set_str object "modifier" (d_modifier dirent) in
    set_int object "size" (d_size dirent)
  else object.

Definition add_to_dirent_array (array : J) (dirent : SeafDirent) : J :=
  json_array_append_new array (Some (dirent_object dirent)).

(** [seaf_dir_to_json] up to [json_dumps]. *)
Definition seaf_dir_to_json (dir : SeafDir) : J :=
  let object := json_object in
  let object := set_int object "type" SEAF_METADATA_TYPE_DIR in
  let object := set_int object "version" (dir_version dir) in
  let dirent_array := foldl add_to_dirent_array json_array (entries dir) in
  json_object_set_new object "dirents" (Some dirent_array).

(** [seafile_to_json] up to [json_dumps]. *)
Definition seafile_to_json (file : Seafile) : J :=
  let object := json_object in
  let object := set_int object "type" SEAF_METADATA_TYPE_FILE in
  let object := set_int object "version" (f_version file) in
  let object := set_int object "size" (f_size file) in
  let block_id_array :=
    foldl (fun a id => json_array_append_new a (json_string id)) json_array (f_blk_sha1s file) in
  json_object_set_new object "block_ids" (Some block_id_array).

(** ** Reading *)

Definition parse_dirent (version : Z) (object : option J) : option SeafDirent :=
  let mode := u32 (get_int object "mode") in
  match get_str object "id" with
  | None => None
  | Some id =>
      if negb (is_object_id_valid (Some id)) then None
      else
        match get_str object "name" with
        | None => None
        | Some name =>
            let mtime := get_int object "mtime" in
            if S_ISREG mode then
              match get_str object "modifier" with
              | None => None
              | Some modifier =>
                  let size := get_int object "size" in
                  Some (mkDirent version mode id (String.length name) name mtime (Some modifier) size)
              end
            else Some (mkDirent version mode id (String.length name) name mtime None 0)
        end
  end.

Definition seaf_dir_from_json_object (dir_id : string) (object : J) : option SeafDir :=
  let type := s32 (get_int (Some object) "type") in
  if negb (type =? SEAF_METADATA_TYPE_DIR) then None
  else
    let version := s32 (get_int (Some object) "version") in
    if version <? 1 then None
    else
      match json_object_get (Some object) "dirents" with
      | None => None
      | Some dirent_array =>
          let n_dirents := json_array_size (Some dirent_array) in
          dents ← mapM (fun i => parse_dirent version (json_array_get (Some dirent_array) i))
                    (seq 0 n_dirents);
          Some (mkDir version dir_id dents)
      end.

Definition parse_block_id (o : option J) : option string :=
  match json_string_value o with
  | None => None
  | Some id => if is_object_id_valid (Some id) then Some id else None
  end.

Definition seafile_from_json_object (id : string) (object : J) : option Seafile :=
  let type := s32 (get_int (Some object) "type") in
  if negb (type =? SEAF_METADATA_TYPE_FILE) then None
  else
    let version := s32 (get_int (Some object) "version") in
    if version <? 1 then None
    else
      let file_size := u64 (get_int (Some object) "size") in
      match json_object_get (Some object) "block_ids" with
      | None => None
      | Some block_id_array =>
          let n := json_array_size (Some block_id_array) in
          ids ← mapM (fun i => parse_block_id (json_array_get (Some block_id_array) i)) (seq 0 n);
          Some (mkFile version id file_size ids)
      end.

(** What a version 1 entry may hold. *)
Record dirent_v1_ok (version : Z) (de : SeafDirent) : Prop := {
  v1_version : d_version de = version;
  v1_mode : 0 <= d_mode de < 2 ^ 32;
  v1_id : is_object_id_valid (Some (d_id de)) = true;
  v1_name : is_Some (json_string (d_name de));
  v1_len : d_name_len de = String.length (d_name de);
  v1_mtime : is_i64 (d_mtime de);
  v1_reg : S_ISREG (d_mode de) = true ->
    is_i64 (d_size de) /\ exists m, d_modifier de = Some m /\ is_Some (json_string m);
  v1_other : S_ISREG (d_mode de) = false -> d_size de = 0 /\ d_modifier de = None
}.

Context `{!JanssonLaws J}.

Lemma set_int_object o k z : is_object o -> is_object (set_int o k z).
Proof. apply object_set. Qed.
Lemma set_str_object o k s : is_object o -> is_object (set_str o k s).
Proof. apply object_set. Qed.
#[local] Hint Resolve set_int_object set_str_object object_new object_set : jansson.

Lemma get_int_eq o k z : is_object o -> is_i64 z -> get_int (Some (set_int o k z)) k = z.
Proof. intros. unfold get_int, set_int. rewrite get_set_eq by done. by apply integer_value. Qed.

Lemma get_int_ne o k k' z :
  is_object o -> k <> k' -> get_int (Some (set_int o k z)) k' = get_int (Some o) k'.
Proof. intros. unfold get_int, set_int. by rewrite get_set_ne. Qed.
Lemma get_int_ne_str o k k' v :
  is_object o -> k <> k' -> get_int (Some (set_str o k v)) k' = get_int (Some o) k'.
Proof. intros. unfold get_int, set_str. by rewrite get_set_ne. Qed.
Lemma get_int_ne_new o k k' v :
  is_object o -> k <> k' -> get_int (Some (json_object_set_new o k v)) k' = get_int (Some o) k'.
Proof. intros. unfold get_int. by rewrite get_set_ne. Qed.

Lemma get_str_eq o k s :
  is_object o -> is_Some (json_string s) -> get_str (Some (set_str o k (Some s))) k = Some s.
Proof.
  intros Ho [j E]. unfold get_str, set_str. simpl. rewrite E, get_set_eq by done.
  by apply string_value.
Qed.

Lemma get_str_ne o k k' z :
  is_object o -> k <> k' -> get_str (Some (set_int o k z)) k' = get_str (Some o) k'.
Proof. intros. unfold get_str, set_int. by rewrite get_set_ne. Qed.
Lemma get_str_ne_str o k k' v :
  is_object o -> k <> k' -> get_str (Some (set_str o k v)) k' = get_str (Some o) k'.
Proof. intros. unfold get_str, set_str. by rewrite get_set_ne. Qed.

(** Rewrites a member lookup through the members written after it. *)
Ltac member :=
  repeat first
    [ rewrite get_int_eq by (auto 10 with jansson)
    | rewrite get_str_eq by (auto 10 with jansson)
    | rewrite get_int_ne by (auto 10 with jansson)
    | rewrite get_int_ne_str by (auto 10 with jansson)
    | rewrite get_int_ne_new by (auto 10 with jansson)
    | rewrite get_str_ne by (auto 10 with jansson)
    | rewrite get_str_ne_str by (auto 10 with jansson) ].

Lemma valid_id_string id : is_object_id_valid (Some id) = true -> is_Some (json_string id).
Proof. intros [_ V]%is_object_id_valid_spec. by apply string_hex. Qed.
#[local] Hint Resolve valid_id_string : jansson.

Lemma u32_i64 z : 0 <= z < 2 ^ 32 -> is_i64 z.
Proof. unfold is_i64. lia. Qed.
#[local] Hint Resolve u32_i64 : jansson.

Lemma parse_dirent_object version de :
  dirent_v1_ok version de -> parse_dirent version (Some (dirent_object de)) = Some de.
Proof.
  intros [Hv Hm Hid Hn Hl Ht Hr Ho].
  destruct (S_ISREG (d_mode de)) eqn:E.
  - destruct (Hr eq_refl) as (Hs & m & Emod & Hjm).
    unfold parse_dirent, dirent_object. rewrite E, Emod.
    member. rewrite !u32_id, Hid by done. cbn [negb]. rewrite E.
    destruct de; simpl in *; by subst.
  - destruct (Ho eq_refl) as (Hs & Emod).
    unfold parse_dirent, dirent_object. rewrite E.
    member. rewrite !u32_id, Hid by done. cbn [negb]. rewrite E.
    destruct de; simpl in *; by subst.
Qed.

Lemma dirent_array_ok des : forall a,
  is_array a ->
  let a' := foldl add_to_dirent_array a des in
  let n := json_array_size (Some a) in
  is_array a' /\ json_array_size (Some a') = (n + length des)%nat /\
  (forall i, (i < n)%nat -> json_array_get (Some a') i = json_array_get (Some a) i) /\
  (forall i de, des !! i = Some de ->
     json_array_get (Some a') (n + i)%nat = Some (dirent_object de)).
Proof.
  induction des as [|de des IH]; intros a Ha; simpl; [split_and!; [done|lia|done|by intros i ? E]|].
  pose proof (array_append (Some (dirent_object de)) a Ha) as Ha1.
  destruct (IH _ Ha1) as (I1 & I2 & I3 & I4). clear IH.
  change (add_to_dirent_array a de) with (json_array_append_new a (Some (dirent_object de))).
  rewrite size_append in I2, I3, I4 by done. split_and!; [done|lia|..].
  - intros i Hi. rewrite I3 by lia. by apply get_append_old.
  - intros [|i] de' E; simpl in E.
    + injection E as ->. rewrite I3, Nat.add_0_r by lia. by apply get_append_new.
    + rewrite <- (I4 i de' E). f_equal. lia.
Qed.

Lemma mapM_seq {A} (f : nat -> option A) (l : list A) :
  (forall i x, l !! i = Some x -> f i = Some x) -> mapM f (seq 0 (length l)) = Some l.
Proof.
  intros Hf. apply mapM_Some. apply Forall2_same_length_lookup_2; [by rewrite length_seq|].
  intros i x y Hx Hy. apply lookup_seq in Hx as [-> _]. simpl. by apply Hf.
Qed.

Lemma block_array_ok ids : forall a,
  Forall (fun id => is_object_id_valid (Some id) = true) ids -> is_array a ->
  let a' := foldl (fun a id => json_array_append_new a (json_string id)) a ids in
  let n := json_array_size (Some a) in
  is_array a' /\ json_array_size (Some a') = (n + length ids)%nat /\
  (forall i, (i < n)%nat -> json_array_get (Some a') i = json_array_get (Some a) i) /\
  (forall i id, ids !! i = Some id ->
     parse_block_id (json_array_get (Some a') (n + i)%nat) = Some id).
Proof.
  induction ids as [|id ids IH]; intros a F Ha; simpl; [split_and!; [done|lia|done|by intros i ? E]|].
  apply Forall_cons in F as [Hid F].
  destruct (valid_id_string id Hid) as [j Ej].
  pose proof (array_append (Some j) a Ha) as Ha1. rewrite Ej.
  destruct (IH _ F Ha1) as (I1 & I2 & I3 & I4). clear IH.
  rewrite size_append in I2, I3, I4 by done. split_and!; [done|lia|..].
  - intros i Hi. rewrite I3 by lia. by apply get_append_old.
  - intros [|i] id' E; simpl in E.
    + injection E as ->. rewrite Nat.add_0_r, I3, get_append_new by (done || lia).
      unfold parse_block_id. by rewrite (string_value id' j Ej), Hid.
    + rewrite <- (I4 i id' E). do 2 f_equal. lia.
Qed.

Lemma version_int v : 1 <= v < 2 ^ 31 -> is_i64 v /\ s32 v = v /\ (v <? 1) = false.
Proof. intros. unfold is_i64. rewrite s32_id by lia. split_and!; lia. Qed.

Lemma dir_json_roundtrip_gen dir :
  1 <= dir_version dir < 2 ^ 31 -> Forall (dirent_v1_ok (dir_version dir)) (entries dir) ->
  seaf_dir_from_json_object (dir_id dir) (seaf_dir_to_json dir) = Some dir.
Proof.
  intros Hv F. destruct (version_int _ Hv) as (Hv64 & Hvs & Hvl).
  assert (Ht : is_i64 SEAF_METADATA_TYPE_DIR) by (unfold is_i64; done).
  destruct (dirent_array_ok (entries dir) json_array array_new) as (I1 & I2 & I3 & I4).
  rewrite size_new in I2, I4. unfold seaf_dir_from_json_object, seaf_dir_to_json.
  member. cbn [negb Z.eqb]. rewrite Hvs, Hvl, get_set_eq by auto with jansson.
  rewrite I2. cbn [Nat.add]. rewrite mapM_seq with (l := entries dir).
  - simpl. by destruct dir.
  - intros i de E. specialize (I4 i de E). cbn [Nat.add] in I4. rewrite I4.
    apply parse_dirent_object.
    by eapply Forall_lookup_1 in F.
Qed.

Lemma file_json_roundtrip_gen file :
  1 <= f_version file < 2 ^ 31 -> 0 <= f_size file < 2 ^ 63 ->
  Forall (fun id => is_object_id_valid (Some id) = true) (f_blk_sha1s file) ->
  seafile_from_json_object (f_id file) (seafile_to_json file) = Some file.
Proof.
  intros Hv Hs F. destruct (version_int _ Hv) as (Hv64 & Hvs & Hvl).
  assert (Ht : is_i64 SEAF_METADATA_TYPE_FILE) by (unfold is_i64; done).
  assert (Hs64 : is_i64 (f_size file)) by (unfold is_i64; lia).
  destruct (block_array_ok _ json_array F array_new) as (I1 & I2 & I3 & I4).
  rewrite size_new in I2, I4. unfold seafile_from_json_object, seafile_to_json.
  member. cbn [negb Z.eqb]. rewrite Hvs, Hvl, get_set_eq, u64_id by (lia || auto with jansson).
  rewrite I2. cbn [Nat.add]. rewrite mapM_seq with (l := f_blk_sha1s file).
  - simpl. by destruct file.
  - intros i id E. exact (I4 i id E).
Qed.
End json.

(** ** An instance: objects as association lists *)

#[local] Unset Elimination Schemes.
Inductive json :=
| JInt (z : Z)
| JStr (s : string)
| JArr (l : list json)
| JObj (l : list (string * json))
| JNull.
#[local] Set Elimination Schemes.

Fixpoint assoc_set (l : list (string * json)) (k : string) (v : json) : list (string * json) :=
  match l with
  | [] => [(k, v)]
  | (k', v') :: l => if String.eqb k k' then (k, v) :: l else (k', v') :: assoc_set l k v
  end.

Fixpoint assoc_get (l : list (string * json)) (k : string) : option json :=
  match l with
  | [] => None
  | (k', v) :: l => if String.eqb k k' then Some v else assoc_get l k
  end.

#[export] Instance assoc_jansson : Jansson json := {|
  json_object := JObj [];
  json_array := JArr [];
  json_integer := JInt;
  json_string s := Some (JStr s);
  json_object_set_new o k v :=
    match o, v with JObj l, Some v => JObj (assoc_set l k v) | _, _ => o end;
  json_object_get o k := match o with Some (JObj l) => assoc_get l k | _ => None end;
  json_array_append_new a v :=
    match a, v with JArr l, Some v => JArr (l ++ [v]) | _, _ => a end;
  json_array_size a := match a with Some (JArr l) => length l | _ => 0%nat end;
  json_array_get a i := match a with Some (JArr l) => l !! i | _ => None end;
  json_integer_value v := match v with Some (JInt z) => z | _ => 0 end;
  json_string_value v := match v with Some (JStr s) => Some s | _ => None end
|}.

Lemma assoc_get_set_eq l k v : assoc_get (assoc_set l k v) k = Some v.
Proof.
  induction l as [|[k' v'] l IH]; simpl; [by rewrite String.eqb_refl|].
  destruct (String.eqb k k') eqn:E; simpl; [by rewrite String.eqb_refl|by rewrite E].
Qed.

Lemma assoc_get_set_ne l k k' v : k <> k' -> assoc_get (assoc_set l k v) k' = assoc_get l k'.
Proof.
  intros Hne. assert (String.eqb k' k = false) as E by (apply String.eqb_neq; congruence).
  induction l as [|[k1 v1] l IH]; simpl; [by rewrite E|].
  destruct (String.eqb_spec k k1) as [->|]; simpl; [by rewrite E|]. by rewrite IH.
Qed.

#[export] Instance assoc_jansson_laws : JanssonLaws json.
Proof.
  refine {| is_object o := match o with JObj _ => True | _ => False end;
            is_array a := match a with JArr _ => True | _ => False end |}; simpl; try done.
  - intros k [v|] []; done.
  - intros [] k v; try done. intros _. apply assoc_get_set_eq.
  - intros [] k k' [v|]; try done. intros _. apply assoc_get_set_ne.
  - by intros [] k k'.
  - intros [v|] []; done.
  - intros [] v; try done. intros _. rewrite length_app. simpl. lia.
  - intros [] v i; try done. intros _ Hi. by apply lookup_app_l.
  - intros [] v; try done. intros _. by rewrite lookup_app_r, Nat.sub_diag by lia.
  - intros s j [= <-]. done.
Qed.

(** For any JSON library that obeys the laws, parsing the JSON form of a
    directory gives back the directory, when ids are valid, names and modifiers
    are valid UTF-8 and the numbers fit their fields. *)
Theorem dir_json_roundtrip {J} `{JanssonLaws J} dir :
  1 <= dir_version dir < 2 ^ 31 -> Forall (dirent_v1_ok (J := J) (dir_version dir)) (entries dir) ->
  seaf_dir_from_json_object (dir_id dir) (seaf_dir_to_json (J := J) dir) = Some dir.
Proof. apply dir_json_roundtrip_gen. Qed.

(** The JSON form of a file object round-trips: version, size and the ordered
    list of block ids are recovered. *)
Theorem file_json_roundtrip {J} `{JanssonLaws J} file :
  1 <= f_version file < 2 ^ 31 -> 0 <= f_size file < 2 ^ 63 ->
  Forall (fun id => is_object_id_valid (Some id) = true) (f_blk_sha1s file) ->
  seafile_from_json_object (f_id file) (seafile_to_json (J := J) file) = Some file.
Proof. apply file_json_roundtrip_gen. Qed.

Definition id_a : string := "aaaaaaaaaaaaaaaaaaaaaaaaaaaaaaaaaaaaaaaa".
Definition id_b : string := "bbbbbbbbbbbbbbbbbbbbbbbbbbbbbbbbbbbbbbbb".

Lemma dir_json_roundtrip_witness :
  seaf_dir_from_json_object id_b (seaf_dir_to_json (J := json)
    (mkDir 1 id_b [mkDirent 1 0x81A4 id_a 1 "x" 5 (Some "me") 7])) =
  Some (mkDir 1 id_b [mkDirent 1 0x81A4 id_a 1 "x" 5 (Some "me") 7]).
Proof.
  apply (dir_json_roundtrip (mkDir 1 id_b [mkDirent 1 0x81A4 id_a 1 "x" 5 (Some "me") 7])).
  - simpl. lia.
  - constructor; [|constructor]. split; simpl; try reflexivity; try lia.
    + eexists. reflexivity.
    + unfold is_i64. lia.
    + intros _. split; [unfold is_i64; lia|]. exists "me". split; [reflexivity|eexists; reflexivity].
    + discriminate.
Defined.

Lemma file_json_roundtrip_witness :
  seafile_from_json_object id_a (seafile_to_json (J := json) (mkFile 1 id_a 12 [id_b; id_a])) =
  Some (mkFile 1 id_a 12 [id_b; id_a]).
Proof.
  apply (file_json_roundtrip (mkFile 1 id_a 12 [id_b; id_a])); simpl; [lia|lia|].
  repeat constructor.
Defined.
