(* ===== verification/Paths.v ===== *)
(** * C strings and slash-separated paths

    The string functions of the C library the sources use on paths ([strcmp],
    [strtok_r], [strrchr], stripping of trailing slashes) and the list of
    components a path denotes. *)

From S2P Require Import Prelude.

Definition slash : Ascii.ascii := Ascii.ascii_of_nat 47.
Definition backslash : Ascii.ascii := Ascii.ascii_of_nat 92.
Definition is_slash (c : Ascii.ascii) : bool := Ascii.eqb c slash.

(** [strcmp]: bytewise, unsigned. *)
Definition strcmp (s t : string) : Z :=
  match String.compare s t with Eq => 0 | Lt => -1 | Gt => 1 end.

Definition cons_char (c : Ascii.ascii) (l : list string) : list string :=
  match l with [] => [String c EmptyString] | s :: l => String c s :: l end.

(** All pieces between slashes, empty ones included. *)
Fixpoint pieces (s : string) : list string :=
  match s with
  | EmptyString => [EmptyString]
  | String c s => if is_slash c then EmptyString :: pieces s else cons_char c (pieces s)
  end.

(** What repeated [strtok_r (p, "/")] yields: the non-empty pieces. *)
Definition components (s : string) : list string := filter (fun p => p <> EmptyString) (pieces s).

(** Removal of trailing slashes, [while (off >= 0 && copy[off] == '/') copy[off--] = 0]. *)
Fixpoint strip_slashes (s : string) : string :=
  match s with
  | EmptyString => EmptyString
  | String c s =>
      match strip_slashes s with
      | EmptyString => if is_slash c then EmptyString else String c EmptyString
      | s' => String c s'
      end
  end.

(** [strrchr (s, '/')]: the text before and after the last slash. *)
Fixpoint split_last (s : string) : option (string * string) :=
  match s with
  | EmptyString => None
  | String c s =>
      match split_last s with
      | Some (a, b) => Some (String c a, b)
      | None => if is_slash c then Some (EmptyString, s) else None
      end
  end.

(** [g_path_get_dirname], [g_path_get_basename] *)
Definition g_path_get_dirname (path : string) : string :=
  match split_last path with
  | None => "."
  | Some (dir, _) => match strip_slashes dir with EmptyString => "/" | dir => dir end
  end.

Definition g_path_get_basename (path : string) : string :=
  match path with
  | EmptyString => "."
  | _ =>
      match strip_slashes path with
      | EmptyString => "/"
      | path => match split_last path with Some (_, base) => base | None => path end
      end
  end.

(** A path with a slash in front. *)
Definition with_slash (path : string) : string :=
  match path with
  | String c _ => if is_slash c then path else String slash path
  | EmptyString => String slash path
  end.

(** [format_dir_path] of [lib/utils.c]: a leading slash and no trailing ones. *)
Definition format_dir_path (path : string) : string :=
  match strip_slashes (with_slash path) with EmptyString => "/" | rpath => rpath end.

Fixpoint has_slash (s : string) : bool :=
  match s with EmptyString => false | String c s => is_slash c || has_slash s end.

Lemma compare_refl s : String.compare s s = Eq.
Proof.
  induction s as [|c s IH]; simpl; [done|]. unfold Ascii.compare. by rewrite N.compare_refl.
Qed.

Lemma strcmp_eq s t : strcmp s t = 0 <-> s = t.
Proof.
  unfold strcmp. destruct (String.compare s t) eqn:E; split; try done.
  - intros _. by apply String.compare_eq_iff.
  - intros ->. by rewrite compare_refl in E.
  - intros ->. by rewrite compare_refl in E.
Qed.

Lemma pieces_nonempty s : pieces s <> [].
Proof. destruct s as [|c s]; simpl; [done|]. destruct (is_slash c); [done|]. by destruct (pieces s). Qed.

Lemma pieces_no_slash s : has_slash s = false -> pieces s = [s].
Proof.
  induction s as [|c s IH]; simpl; [done|]. intros [-> H]%orb_false_iff. by rewrite IH.
Qed.

Lemma pieces_app a b :
  pieces (a +:+ String slash b) = pieces a ++ pieces b.
Proof.
  induction a as [|c a IH]; [done|]. change (String c a +:+ String slash b) with (String c (a +:+ String slash b)).
  simpl. destruct (is_slash c); [by rewrite IH|]. rewrite IH.
  destruct (pieces a) eqn:E; [by apply pieces_nonempty in E|done].
Qed.

Lemma components_app a b : components (a +:+ String slash b) = components a ++ components b.
Proof. unfold components. by rewrite pieces_app, filter_app. Qed.

Lemma components_name s : has_slash s = false -> s <> EmptyString -> components s = [s].
Proof. intros H Hne. unfold components. rewrite pieces_no_slash by done. by rewrite filter_cons_True. Qed.

Lemma components_nil : components EmptyString = [].
Proof. done. Qed.

Lemma split_last_spec s :
  match split_last s with
  | Some (a, b) => s = a +:+ String slash b /\ has_slash b = false
  | None => has_slash s = false
  end.
Proof.
  induction s as [|c s IH]; simpl; [done|].
  destruct (split_last s) as [[a b]|].
  - destruct IH as [-> Hb]. done.
  - destruct (is_slash c) eqn:E; simpl; [|done].
    apply Ascii.eqb_eq in E as ->. done.
Qed.

Fixpoint slashes (k : nat) : string :=
  match k with O => EmptyString | S k => String slash (slashes k) end.

Lemma strip_slashes_spec s : exists k, s = strip_slashes s +:+ slashes k.
Proof.
  induction s as [|c s [k IH]]; [by exists 0%nat|]. simpl.
  destruct (strip_slashes s) as [|c' s'] eqn:E.
  - destruct (is_slash c) eqn:Ec.
    + apply Ascii.eqb_eq in Ec as ->. exists (S k). by rewrite IH.
    + exists k. by rewrite IH.
  - exists k. by rewrite IH.
Qed.

Lemma components_slashes k : components (slashes k) = [].
Proof.
  induction k as [|k IH]; [done|].
  change (slashes (S k)) with (EmptyString +:+ String slash (slashes k)).
  by rewrite components_app, IH.
Qed.

Lemma string_app_assoc (a b c : string) : (a +:+ b) +:+ c = a +:+ b +:+ c.
Proof.
  induction a as [|x a IH]; [done|].
  change ((String x a +:+ b) +:+ c) with (String x ((a +:+ b) +:+ c)). by rewrite IH.
Qed.

Lemma string_prefix_app (a b : string) : String.prefix a (a +:+ b) = true.
Proof.
  induction a as [|x a IH]; [by destruct b|].
  change (String.prefix (String x a) (String x (a +:+ b)) = true). simpl.
  by destruct (Ascii.ascii_dec x x).
Qed.

Lemma string_length_app (a b : string) :
  String.length (a +:+ b) = (String.length a + String.length b)%nat.
Proof.
  induction a as [|x a IH]; [done|].
  change (S (String.length (a +:+ b)) = S (String.length a + String.length b)). by rewrite IH.
Qed.

Lemma string_app_nil t : t +:+ slashes 0 = t.
Proof.
  induction t as [|c t IH]; [done|].
  change (String c t +:+ slashes 0) with (String c (t +:+ slashes 0)). by rewrite IH.
Qed.

Lemma strip_slashes_components s : components (strip_slashes s) = components s.
Proof.
  destruct (strip_slashes_spec s) as [[|k] E]; rewrite E at 2.
  - by rewrite string_app_nil.
  - change (slashes (S k)) with (String slash (slashes k)).
    by rewrite components_app, components_slashes, app_nil_r.
Qed.

(** What [path_to_obj_id] does with a path that is not a run of slashes: the
    components of the text before the last slash, then the last component. *)
Lemma strip_split_components path :
  strip_slashes path <> EmptyString ->
  match split_last (strip_slashes path) with
  | Some (a, b) => components path = components a ++ [b]
  | None => components path = [strip_slashes path]
  end.
Proof.
  intros Hne. pose proof (split_last_spec (strip_slashes path)) as H.
  rewrite <- (strip_slashes_components path).
  destruct (split_last (strip_slashes path)) as [[a b]|]; [|by apply components_name].
  destruct H as [E Hb]. rewrite E, components_app. f_equal. apply components_name; [done|].
  intros ->. clear Hb Hne.
  (* a stripped path does not end in a slash *)
  assert (Hs : forall s a, strip_slashes s <> a +:+ "/").
  { clear. induction s as [|c s IH]; intros a E; simpl in E; [by destruct a|].
    destruct (strip_slashes s) as [|c' s'] eqn:Es.
    - destruct (is_slash c) eqn:Ec; [by destruct a|].
      destruct a as [|ca [|]]; try discriminate E.
      injection E as ->. done.
    - destruct a as [|ca a]; [discriminate E|]. injection E as _ E. by apply (IH a). }
  by apply (Hs path a).
Qed.
