(* ===== verification/Sql.v ===== *)
(** * Text predicates of the SQL statements

    [LIKE] and [=] on columns with the collation [utf8mb4_bin] of the schema
    ([scripts/sql/mysql/cloudfile-v2.sql]), over UTF-8 bytes. *)

From S2P Require Import Prelude Paths.

Definition percent : Ascii.ascii := Ascii.ascii_of_nat 37.
Definition underscore : Ascii.ascii := Ascii.ascii_of_nat 95.
Definition space : Ascii.ascii := Ascii.ascii_of_nat 32.

(** A continuation byte of a UTF-8 character. *)
Definition is_continuation (c : Ascii.ascii) : bool :=
  let n := Ascii.nat_of_ascii c in (128 <=? n)%nat && (n <=? 191)%nat.

Fixpoint drop_continuation (t : string) : string :=
  match t with
  | String c t' => if is_continuation c then drop_continuation t' else t
  | EmptyString => EmptyString
  end.

(** [text LIKE pattern], with the escape character [\]: [%] stands for any text,
    [_] for one character, an escaped character for itself. *)
Fixpoint sql_like (pattern : string) : string -> bool :=
  match pattern with
  | EmptyString => fun text => match text with EmptyString => true | _ => false end
  | String c pattern' =>
      if Ascii.eqb c percent then
        fix any (text : string) : bool :=
          sql_like pattern' text || match text with EmptyString => false | String _ text => any text end
      else if Ascii.eqb c underscore then fun text =>
        match text with
        | String x text => negb (is_continuation x) && sql_like pattern' (drop_continuation text)
        | EmptyString => false
        end
      else match pattern' with
        | String d pattern'' =>
            if Ascii.eqb c backslash then fun text =>
              match text with
              | String x text => Ascii.eqb d x && sql_like pattern'' text
              | EmptyString => false
              end
            else fun text =>
              match text with
              | String x text => Ascii.eqb c x && sql_like pattern' text
              | EmptyString => false
              end
        | EmptyString => fun text =>
            match text with
            | String x text => Ascii.eqb c x && sql_like pattern' text
            | EmptyString => false
            end
        end
  end.

(** [a = b]: the collation pads with spaces, so trailing ones do not count. *)
Fixpoint rtrim (s : string) : string :=
  match s with
  | EmptyString => EmptyString
  | String c s =>
      match rtrim s with
      | EmptyString => if Ascii.eqb c space then EmptyString else String c EmptyString
      | s' => String c s'
      end
  end.

Definition sql_eq (a b : string) : bool := strcmp (rtrim a) (rtrim b) =? 0.

Lemma sql_eq_refl a : sql_eq a a = true.
Proof. unfold sql_eq. by apply Z.eqb_eq, strcmp_eq. Qed.

(** ** What patterns match *)

Definition like_special (c : Ascii.ascii) : bool :=
  Ascii.eqb c backslash || Ascii.eqb c percent || Ascii.eqb c underscore.

(** The pattern that matches [s] only. *)
Fixpoint like_escape (s : string) : string :=
  match s with
  | EmptyString => EmptyString
  | String c s => (if like_special c then String backslash (String c (like_escape s)) else String c (like_escape s))
  end.

Lemma like_literal c q x t :
  like_special c = false -> sql_like (String c q) (String x t) = Ascii.eqb c x && sql_like q t.
Proof. intros [[H1 H2]%orb_false_iff H3]%orb_false_iff. cbn [sql_like]. rewrite H2, H3. destruct q; [done|]. by rewrite H1. Qed.

Lemma like_literal_end c q : like_special c = false -> sql_like (String c q) EmptyString = false.
Proof. intros [[H1 H2]%orb_false_iff H3]%orb_false_iff. cbn [sql_like]. rewrite H2, H3. destruct q; [done|]. by rewrite H1. Qed.

Lemma like_any q t : sql_like (String percent q) t = true <-> exists a b, t = a +:+ b /\ sql_like q b = true.
Proof.
  induction t as [|x t IH].
  - change (sql_like (String percent q) "") with (sql_like q "" || false).
    rewrite orb_false_r. split; [by exists "", ""|]. intros (a & b & E & H). by destruct a, b.
  - change (sql_like (String percent q) (String x t)) with (sql_like q (String x t) || sql_like (String percent q) t).
    rewrite orb_true_iff, IH. split.
    + intros [H|(a & b & -> & H)]; [by exists "", (String x t)|by exists (String x a), b].
    + intros (a & b & E & H). destruct a as [|y a]; [left; change ("" +:+ b) with b in E; by rewrite E|].
      injection E as -> ->. right. by exists a, b.
Qed.

(** A pattern with an escaped beginning. *)
Lemma like_escape_app s d q t :
  sql_like (like_escape s +:+ String d q) t = true <->
  exists r, t = s +:+ r /\ sql_like (String d q) r = true.
Proof.
  revert t. induction s as [|c s IH]; intros t.
  - change (like_escape "" +:+ String d q) with (String d q). split; [intros H; by exists t|].
    intros (r & -> & H). done.
  - assert (Hstep : forall x t', sql_like (like_escape (String c s) +:+ String d q) (String x t') =
        Ascii.eqb c x && sql_like (like_escape s +:+ String d q) t').
    { intros x t'. cbn [like_escape]. destruct (like_special c) eqn:Ec; [done|].
      by apply like_literal. }
    assert (Hend : sql_like (like_escape (String c s) +:+ String d q) EmptyString = false).
    { cbn [like_escape]. destruct (like_special c) eqn:Ec; [done|].
      by apply like_literal_end. }
    destruct t as [|x t]; [rewrite Hend; split; [done|by intros (r & E & _)]|].
    rewrite Hstep, andb_true_iff, IH, Ascii.eqb_eq. split.
    + intros (-> & r & -> & H). by exists r.
    + intros (r & [= -> ->] & H). split; [done|]. by exists r.
Qed.

Lemma like_slash_any t : sql_like "/%" t = true <-> exists r, t = String slash r.
Proof.
  destruct t as [|x t]; [split; [done|by intros (r & E)]|].
  change "/%" with (String slash (String percent "")). rewrite like_literal by done.
  rewrite andb_true_iff, Ascii.eqb_eq, like_any. split.
  - intros (<- & _). by exists t.
  - intros (r & [= -> ->]). split; [done|]. exists r, "". split; [|done]. by rewrite (string_app_nil r : r +:+ "" = r).
Qed.

Lemma like_below s t : sql_like (like_escape s +:+ "/%") t = true <-> exists r, t = s +:+ String slash r.
Proof.
  change "/%" with (String slash (String percent "")). rewrite like_escape_app.
  change (String slash (String percent "")) with "/%". setoid_rewrite like_slash_any.
  split; [intros (r & -> & r' & ->); by exists r'|intros (r & ->); eexists; split; [done|]; by exists r].
Qed.

(** ** Patterns that are not escaped *)

Fixpoint has_char (c : Ascii.ascii) (s : string) : bool :=
  match s with EmptyString => false | String x s => Ascii.eqb c x || has_char c s end.

Definition starts_character (t : string) : bool :=
  match t with EmptyString => true | String c _ => negb (is_continuation c) end.

(** As in UTF-8, no continuation byte comes first or follows an underscore. *)
Fixpoint underscores_whole (s : string) : bool :=
  match s with
  | EmptyString => true
  | String c s' => (negb (Ascii.eqb c underscore) || starts_character s') && underscores_whole s'
  end.

Lemma starts_character_drop t : starts_character t = true -> drop_continuation t = t.
Proof. destruct t as [|c t]; [done|]. simpl. intros H%negb_true_iff. by rewrite H. Qed.

(** Without a backslash a text used as a pattern matches itself, and possibly more. *)
Lemma like_itself s q t :
  has_char backslash s = false -> underscores_whole s = true -> starts_character t = true ->
  sql_like q t = true -> sql_like (s +:+ q) (s +:+ t) = true.
Proof.
  intros Hb Hu Ht Hq. induction s as [|c s IH]; [done|]. cbn [has_char underscores_whole] in Hb, Hu.
  apply orb_false_iff in Hb as [Hc Hb]. apply andb_true_iff in Hu as [Hc' Hu]. specialize (IH Hb Hu).
  change (String c s +:+ q) with (String c (s +:+ q)). change (String c s +:+ t) with (String c (s +:+ t)).
  destruct (like_special c) eqn:E; [|rewrite like_literal by done; by rewrite Ascii.eqb_refl].
  rewrite Ascii.eqb_sym in Hc. unfold like_special in E. rewrite Hc in E. simpl in E.
  destruct (Ascii.eqb c percent) eqn:Ep.
  - apply Ascii.eqb_eq in Ep as ->. apply like_any. exists (String percent ""), (s +:+ t). by split.
  - simpl in E. apply Ascii.eqb_eq in E as ->. change (Ascii.eqb underscore underscore) with true in Hc'.
    simpl in Hc'.
    change (sql_like (String underscore (s +:+ q)) (String underscore (s +:+ t)))
      with (sql_like (s +:+ q) (drop_continuation (s +:+ t))).
    rewrite starts_character_drop; [done|]. by destruct s.
Qed.

Lemma like_below_itself s r :
  has_char backslash s = false -> underscores_whole s = true ->
  sql_like (s +:+ "/%") (s +:+ String slash r) = true.
Proof. intros Hb Hu. apply like_itself; [done|done|done|]. apply like_slash_any. by eexists. Qed.

Lemma has_char_app c a b : has_char c (a +:+ b) = has_char c a || has_char c b.
Proof.
  induction a as [|x a IH]; [done|]. change (String x a +:+ b) with (String x (a +:+ b)).
  cbn [has_char]. by rewrite IH, orb_assoc.
Qed.

Lemma underscores_whole_app_l a b : underscores_whole (a +:+ b) = true -> underscores_whole a = true.
Proof.
  induction a as [|x a IH]; [done|]. change (String x a +:+ b) with (String x (a +:+ b)).
  cbn [underscores_whole]. intros [H1 H2]%andb_true_iff. rewrite (IH H2), andb_true_r.
  apply orb_true_iff in H1 as [->|H1]; [done|]. apply orb_true_iff. right. by destruct a.
Qed.

(** A text without special characters or trailing spaces. *)
Fixpoint no_special (s : string) : bool :=
  match s with EmptyString => true | String c s => negb (like_special c) && no_special s end.
Definition sql_plain (s : string) : Prop := no_special s = true /\ rtrim s = s.

Lemma like_escape_plain s : no_special s = true -> like_escape s = s.
Proof.
  induction s as [|c s IH]; [done|]. cbn [no_special like_escape]. intros [H1%negb_true_iff H2]%andb_true_iff.
  by rewrite H1, IH.
Qed.

Lemma like_below_plain s t :
  sql_plain s -> sql_like (s +:+ "/%") t = true -> exists r, t = s +:+ String slash r.
Proof. intros [Hs _] H. apply like_below. by rewrite like_escape_plain. Qed.

Lemma sql_eq_trimmed a b : rtrim a = a -> rtrim b = b -> sql_eq a b = true -> a = b.
Proof. intros Ha Hb H. unfold sql_eq in H. rewrite Ha, Hb in H. by apply strcmp_eq, Z.eqb_eq. Qed.

Lemma sql_eq_plain a b : sql_plain a -> sql_plain b -> sql_eq a b = true -> a = b.
Proof. intros [_ Ha] [_ Hb]. by apply sql_eq_trimmed. Qed.
