(* ===== verification/CfPath.v ===== *)
(** * Normal form of paths ([common/cf-path.c])

    Rules, leases and file operations are keyed by normalised paths.  The C code
    scans the bytes of a path; [normalize_loop] is that scan, and the lemmas say
    what it computes in terms of the components a path denotes. *)

From S2P Require Import Prelude Paths.

(** The loop that passes a run of slashes. *)
Fixpoint skip_run (p : string) : string :=
  match p with
  | EmptyString => EmptyString
  | String c p' => if is_slash c then skip_run p' else p
  end.

(** The loop up to the next slash: the bytes passed and the rest. *)
Fixpoint span_name (p : string) : string * string :=
  match p with
  | EmptyString => (EmptyString, EmptyString)
  | String c p' => if is_slash c then (EmptyString, p)
                   else let '(name, rest) := span_name p' in (String c name, rest)
  end.

Fixpoint normalize_loop (fuel : nat) (p buf : string) : string :=
  match fuel with
  | O => buf
  | S fuel =>
      match skip_run p with
      | EmptyString => buf
      | p => let '(name, rest) := span_name p in normalize_loop fuel rest (buf +:+ String slash name)
      end
  end.

(** Every round passes a byte, so the length of the path is fuel enough. *)
Definition cf_path_normalize (path : option string) : string :=
  match path with
  | None | Some EmptyString => "/"
  | Some path =>
      match normalize_loop (String.length path) path EmptyString with
      | EmptyString => "/"
      | buf => buf
      end
  end.

Definition cf_path_join (dir entry : option string) : string :=
  match entry with
  | None | Some EmptyString => cf_path_normalize dir
  | Some entry => cf_path_normalize (Some (default EmptyString dir +:+ "/" +:+ entry))
  end.

Fixpoint has_component_loop (fuel : nat) (p component : string) : bool :=
  match fuel with
  | O => false
  | S fuel =>
      match skip_run p with
      | EmptyString => false
      | p => let '(name, rest) := span_name p in
             if (strcmp name component =? 0) then true else has_component_loop fuel rest component
      end
  end.

Definition cf_path_has_component (path component : option string) : bool :=
  match path, component with
  | Some path, Some (String c s) => has_component_loop (String.length path) path (String c s)
  | _, _ => false
  end.

(** ** Absolute paths from components *)

Fixpoint spell (l : list string) : string :=
  match l with [] => EmptyString | c :: l => String slash c +:+ spell l end.

Definition absolute (l : list string) : string :=
  match l with [] => "/" | _ => spell l end.

(** What a component can be. *)
Definition is_component (c : string) : Prop := c <> EmptyString /\ has_slash c = false.

Lemma string_nil_r s : s +:+ "" = s.
Proof. exact (string_app_nil s). Qed.

Lemma components_rooted s : components (String slash s) = components s.
Proof. change (String slash s) with ("" +:+ String slash s). by rewrite components_app. Qed.

Lemma skip_run_components p : components (skip_run p) = components p.
Proof.
  induction p as [|c p IH]; [done|]. simpl. destruct (is_slash c) eqn:E; [|done].
  apply Ascii.eqb_eq in E as ->. by rewrite components_rooted.
Qed.

Lemma skip_run_head p : match skip_run p with EmptyString => True | String c _ => is_slash c = false end.
Proof. induction p as [|c p IH]; [done|]. simpl. by destruct (is_slash c) eqn:E. Qed.

Lemma skip_run_length p : (String.length (skip_run p) <= String.length p)%nat.
Proof. induction p as [|c p IH]; simpl; [lia|]. destruct (is_slash c); simpl; lia. Qed.

Lemma span_name_spec p :
  let '(name, rest) := span_name p in
  p = name +:+ rest /\ has_slash name = false /\ (rest = EmptyString \/ exists r, rest = String slash r).
Proof.
  induction p as [|c p IH]; simpl; [by auto|]. destruct (is_slash c) eqn:E.
  - split; [done|]. split; [done|]. right. apply Ascii.eqb_eq in E as ->. by exists p.
  - destruct (span_name p) as [name rest]. destruct IH as (-> & Hn & Hr).
    split; [done|]. simpl. by rewrite E, Hn.
Qed.

Lemma span_name_components p c q :
  skip_run p = String c q ->
  let '(name, rest) := span_name (String c q) in
  components p = name :: components rest /\ is_component name /\
  (String.length rest < String.length p)%nat.
Proof.
  intros Hp. pose proof (skip_run_head p) as Hc. pose proof (skip_run_length p) as Hl.
  rewrite <- (skip_run_components p). rewrite Hp in Hc, Hl |- *.
  pose proof (span_name_spec (String c q)) as S. simpl in S |- *. rewrite Hc in S |- *.
  destruct (span_name q) as [name rest]. destruct S as ([= Eq] & Hs & Hr). simpl in Hl.
  assert (Hlen : (String.length q = String.length name + String.length rest)%nat)
    by (by rewrite Eq, string_length_app).
  assert (Hi : is_component (String c name)) by done.
  split; [|split; [done|lia]]. rewrite Eq.
  change (String c (name +:+ rest)) with (String c name +:+ rest).
  destruct Hi as [Hne Hns]. destruct Hr as [->|[r ->]].
  - rewrite string_nil_r, components_name; done.
  - by rewrite components_app, components_name, components_rooted.
Qed.

Lemma normalize_loop_spec fuel p buf :
  (String.length p <= fuel)%nat -> normalize_loop fuel p buf = buf +:+ spell (components p).
Proof.
  revert p buf. induction fuel as [|fuel IH]; intros p buf Hl.
  - destruct p; [|simpl in Hl; lia]. simpl. by rewrite string_nil_r.
  - cbn [normalize_loop]. destruct (skip_run p) as [|c q] eqn:E.
    + rewrite <- skip_run_components, E. simpl. by rewrite string_nil_r.
    + pose proof (span_name_components _ _ _ E) as S. destruct (span_name (String c q)) as [name rest].
      destruct S as (-> & _ & Hr). rewrite IH by lia. simpl. by rewrite string_app_assoc.
Qed.

Lemma cf_path_normalize_spec path :
  cf_path_normalize path = absolute (components (default EmptyString path)).
Proof.
  destruct path as [[|c path]|]; [done| |done]. unfold cf_path_normalize. change (default EmptyString (Some (String c path))) with (String c path).
  rewrite normalize_loop_spec by done. unfold absolute. by destruct (components (String c path)).
Qed.

Lemma components_are_components p : Forall is_component (components p).
Proof.
  unfold components. induction p as [|c p IH]; simpl; [by rewrite filter_cons_False by naive_solver|].
  destruct (is_slash c) eqn:E; [by rewrite filter_cons_False by naive_solver|].
  assert (Hall : Forall (fun s => has_slash s = false) (pieces p)).
  { clear. induction p as [|x p IH]; simpl; [by repeat constructor|].
    destruct (is_slash x) eqn:E; [by constructor|]. destruct IH as [|? ? H1 H2]; simpl; constructor; simpl; try done;
    by rewrite E. }
  destruct (pieces p) as [|s l]; simpl.
  - rewrite filter_cons_True by done. constructor; [|constructor]. split; [done|]. simpl. by rewrite E.
  - inversion_clear Hall as [|? ? H1 H2]. rewrite filter_cons_True by done.
    constructor; [split; [done|]; simpl; by rewrite E, H1|].
    apply Forall_forall. intros x [Hx1 Hx2]%list_elem_of_filter. split; [done|].
    by apply (proj1 (Forall_forall _ _) H2).
Qed.

Lemma components_spell l : Forall is_component l -> components (spell l) = l.
Proof.
  induction 1 as [|c l [Hc1 Hc2] _ IH]; [done|].
  change (spell (c :: l)) with (String slash (c +:+ spell l)). rewrite components_rooted.
  destruct l as [|c' l].
  - change (spell []) with "". by rewrite string_nil_r, components_name.
  - change (spell (c' :: l)) with (String slash (c' +:+ spell l)) in IH |- *.
    rewrite components_app, (components_name c) by done. rewrite components_rooted in IH. by rewrite IH.
Qed.

Lemma components_absolute l : Forall is_component l -> components (absolute l) = l.
Proof. destruct l; [done|]. apply components_spell. Qed.

Lemma normalize_components path :
  components (cf_path_normalize path) = components (default EmptyString path).
Proof.
  rewrite cf_path_normalize_spec. apply components_absolute, components_are_components.
Qed.

Lemma join_absolute dir entry :
  cf_path_join dir entry =
  absolute (components (default EmptyString dir) ++ components (default EmptyString entry)).
Proof.
  destruct entry as [[|c e]|]; unfold cf_path_join; rewrite cf_path_normalize_spec;
    cbn [default id]; rewrite ?components_nil, ?app_nil_r; [done| |done].
  f_equal. apply components_app.
Qed.

Lemma join_components dir entry :
  components (cf_path_join dir entry) =
  components (default EmptyString dir) ++ components (default EmptyString entry).
Proof.
  rewrite join_absolute. apply components_absolute, Forall_app; split; apply components_are_components.
Qed.

(** ** One path at or below another *)

(** The path [p] is [g] or above it. *)
Definition at_or_below (p g : string) : Prop := components p `prefix_of` components g.

Lemma spell_app l k : spell (l ++ k) = spell l +:+ spell k.
Proof. induction l as [|c l IH]; [done|]. cbn [spell app]. by rewrite IH, string_app_assoc. Qed.

Lemma absolute_inj l k : Forall is_component l -> Forall is_component k -> absolute l = absolute k -> l = k.
Proof. intros Hl Hk E. by rewrite <- (components_absolute l), <- (components_absolute k), E. Qed.

(** Textually: equal, or a prefix followed by a slash. *)
Lemma at_or_below_text l k :
  Forall is_component l -> Forall is_component k -> l <> [] -> k <> [] ->
  (absolute k = absolute l \/ exists r, absolute k = absolute l +:+ String slash r) <-> l `prefix_of` k.
Proof.
  intros Hl Hk Hne Hke. split.
  - intros [E|(r & E)]; [by rewrite (absolute_inj _ _ Hk Hl E)|].
    exists (components r). by rewrite <- (components_absolute k), E, components_app, components_absolute.
  - intros [m ->]. destruct m as [|c m]; [left; by rewrite app_nil_r|]. right.
    exists (c +:+ spell m). destruct l as [|x l]; [done|].
    change (absolute ((x :: l) ++ c :: m)) with (spell ((x :: l) ++ c :: m)).
    by rewrite spell_app.
Qed.

Lemma has_component_loop_spec fuel p c :
  (String.length p <= fuel)%nat -> has_component_loop fuel p c = true <-> c ∈ components p.
Proof.
  revert p. induction fuel as [|fuel IH]; intros p Hl.
  - destruct p; [|simpl in Hl; lia]. simpl. split; [done|]. by intros ?%elem_of_nil.
  - cbn [has_component_loop]. destruct (skip_run p) as [|x q] eqn:E.
    + rewrite <- skip_run_components, E. split; [done|]. by intros ?%elem_of_nil.
    + pose proof (span_name_components _ _ _ E) as S. destruct (span_name (String x q)) as [name rest].
      destruct S as (-> & _ & Hr). rewrite elem_of_cons, <- IH by lia.
      destruct (strcmp name c =? 0) eqn:Es.
      * apply Z.eqb_eq, strcmp_eq in Es as ->. by split; [left|].
      * apply Z.eqb_neq in Es. split; [by right|]. intros [->|?]; [|done]. by destruct Es; apply strcmp_eq.
Qed.

(** The normal form of a path is a complete invariant of the components it
    denotes: normalising keeps the components, two paths have the same normal form
    exactly when they have the same components, a normal form is its own normal
    form, joining appends the components of the entry to those of the directory,
    and the component test is membership. *)
Theorem normal_form_complete (p q entry : option string) (c : string) :
  components (cf_path_normalize p) = components (default EmptyString p) /\
  (cf_path_normalize p = cf_path_normalize q <->
   components (default EmptyString p) = components (default EmptyString q)) /\
  cf_path_normalize (Some (cf_path_normalize p)) = cf_path_normalize p /\
  cf_path_join p entry =
    absolute (components (default EmptyString p) ++ components (default EmptyString entry)) /\
  (cf_path_has_component p (Some c) = true <-> c ∈ components (default EmptyString p)).
Proof.
  split; [apply normalize_components|]. split.
  { split; intros H; [by rewrite <- normalize_components, H, normalize_components|].
    by rewrite !cf_path_normalize_spec, H. }
  split.
  { rewrite (cf_path_normalize_spec (Some _)). cbn [default id]. by rewrite normalize_components, <- cf_path_normalize_spec. }
  split; [apply join_absolute|]. destruct p as [p|]; simpl.
  - destruct c as [|x c]; [|by apply has_component_loop_spec]. split; [done|]. intros Hin.
    by apply (proj1 (Forall_forall _ _) (components_are_components p)) in Hin as [].
  - split; [done|]. by intros ?%elem_of_nil.
Qed.
