(* ===== verification/CfFileop.v ===== *)
(** * The write lifecycle ([common/cf-fileop.c])

    The vocabulary of operations, the paths an operation writes, and the
    dispatcher that runs an operation past the registered providers.  What the
    providers read and change is a state of any type. *)

From S2P Require Import Prelude Paths CfPath.

(** ** Vocabulary *)

Record OpSpec := mkOpSpec {
  os_op : string;
  os_has_source : bool;
  os_pathless : bool;
  os_subject_is_root : bool
}.

Definition op_specs : list OpSpec :=
  [ mkOpSpec "create-file" false false false;
    mkOpSpec "update-file" false false false;
    mkOpSpec "delete" false false false;
    mkOpSpec "mkdir" false false false;
    mkOpSpec "rename" true false false;
    mkOpSpec "move" true false false;
    mkOpSpec "copy" true false false;
    mkOpSpec "revert-file" false false false;
    mkOpSpec "revert-dir" false false false;
    mkOpSpec "revert-repo" false false true;
    mkOpSpec "update-dir" false false false;
    mkOpSpec "upload-blocks" false true false;
    mkOpSpec "sync-update" false false true ].

Definition find_op (op : option string) : option OpSpec :=
  op ← op; List.find (fun spec => strcmp (os_op spec) op =? 0) op_specs.

Definition cf_fileop_op_valid (op : option string) : bool :=
  match find_op op with Some _ => true | None => false end.
Definition cf_fileop_op_has_source (op : option string) : bool :=
  match find_op op with Some spec => os_has_source spec | None => false end.
Definition cf_fileop_op_pathless (op : option string) : bool :=
  match find_op op with Some spec => os_pathless spec | None => false end.
Definition cf_fileop_op_subject_is_root (op : option string) : bool :=
  match find_op op with Some spec => os_subject_is_root spec | None => false end.

(** ** Context *)

Inductive CfFileOpPhase := CF_FILEOP_PHASE_PREPARE | CF_FILEOP_PHASE_COMMITTED | CF_FILEOP_PHASE_ABORTED.

Record CfFileOp := mkFop {
  fo_phase : CfFileOpPhase;
  fo_op : option string;
  fo_repo_id : option string;
  fo_dir : option string;
  fo_name : option string;
  fo_names : list string;
  fo_src_repo_id : option string;
  fo_src_dir : option string;
  fo_src_name : option string;
  fo_src_names : list string;
  fo_user : option string;
  fo_expect_commit_id : option string;
  fo_commit_id : option string;
  fo_file_id : option string
}.

Definition set_phase (f : CfFileOp) (ph : CfFileOpPhase) : CfFileOp :=
  mkFop ph (fo_op f) (fo_repo_id f) (fo_dir f) (fo_name f) (fo_names f) (fo_src_repo_id f) (fo_src_dir f)
    (fo_src_name f) (fo_src_names f) (fo_user f) (fo_expect_commit_id f) (fo_commit_id f) (fo_file_id f).

Definition cf_fileop_subject_path (fop : CfFileOp) : option string :=
  if cf_fileop_op_pathless (fo_op fop) then None
  else if cf_fileop_op_subject_is_root (fo_op fop) then Some "/"
  else Some (cf_path_join (fo_dir fop) (fo_name fop)).

Definition cf_fileop_subject_paths (fop : CfFileOp) : list string :=
  if cf_fileop_op_pathless (fo_op fop) then []
  else match fo_names fop with
       | [] => option_list (cf_fileop_subject_path fop)
       | names => map (fun name => cf_path_join (fo_dir fop) (Some name)) names
       end.

Definition cf_fileop_source_paths (fop : CfFileOp) : list string :=
  if negb (cf_fileop_op_has_source (fo_op fop)) then []
  else match fo_src_names fop with
       | [] => [cf_path_join (fo_src_dir fop) (fo_src_name fop)]
       | names => map (fun name => cf_path_join (fo_src_dir fop) (Some name)) names
       end.

(** ** Providers and dispatch *)

Record gerror := mkErr { e_code : Z; e_message : string }.

Definition SEAF_ERR_GENERAL : Z := 500.
Definition CF_ERR_FILE_LOCKED : Z := 600.

(** A function of a provider may be NULL.  [prepare] takes what the error already
    holds; the caller of the dispatcher passes an empty error. *)
Record Provider (S : Type) := mkProvider {
  pv_name : string;
  pv_prepare : option (CfFileOp -> option gerror -> S -> Z * option gerror * S);
  pv_committed : option (CfFileOp -> S -> S);
  pv_aborted : option (CfFileOp -> S -> S)
}.
Arguments mkProvider {S}.
Arguments pv_name {S}.
Arguments pv_prepare {S}.
Arguments pv_committed {S}.
Arguments pv_aborted {S}.

Section dispatch.
Context {S : Type}.
Implicit Types (providers : list (Provider S)) (s : S).

Definition cf_fileop_register providers (p : Provider S) : list (Provider S) := providers ++ [p].

Definition cf_fileop_active providers : bool := match providers with [] => false | _ => true end.

Fixpoint prepare_loop providers (fop : CfFileOp) (error : option gerror) s : Z * option gerror * S :=
  match providers with
  | [] => (0, error, s)
  | p :: providers =>
      match pv_prepare p with
      | None => prepare_loop providers fop error s
      | Some prepare =>
          let '(ret, error, s) := prepare fop error s in
          if ret <? 0 then
            (-1, match error with
                 | None => Some (mkErr SEAF_ERR_GENERAL ("Refused by CloudFile provider " +:+ pv_name p))
                 | _ => error
                 end, s)
          else prepare_loop providers fop error s
      end
  end.

Definition cf_fileop_prepare providers (fop : CfFileOp) s : Z * option gerror * S :=
  match providers with
  | [] => (0, None, s)
  | _ =>
      if negb (cf_fileop_op_valid (fo_op fop)) then (-1, Some (mkErr SEAF_ERR_GENERAL "Unknown file operation"), s)
      else prepare_loop providers (set_phase fop CF_FILEOP_PHASE_PREPARE) None s
  end.

Definition cf_fileop_committed providers (fop : CfFileOp) s : S :=
  foldl (fun s p => match pv_committed p with
                    | Some committed => committed (set_phase fop CF_FILEOP_PHASE_COMMITTED) s
                    | None => s
                    end) s providers.

Definition cf_fileop_aborted providers (fop : CfFileOp) s : S :=
  foldl (fun s p => match pv_aborted p with
                    | Some aborted => aborted (set_phase fop CF_FILEOP_PHASE_ABORTED) s
                    | None => s
                    end) s providers.

(** [allow fop e s ps e' s']: asked in order, all of [ps] allow the operation. *)
Inductive allow (fop : CfFileOp) : option gerror -> S -> list (Provider S) -> option gerror -> S -> Prop :=
| allow_nil e s : allow fop e s [] e s
| allow_null e s p ps e' s' :
    pv_prepare p = None -> allow fop e s ps e' s' -> allow fop e s (p :: ps) e' s'
| allow_cons e s p ps prepare ret e1 s1 e' s' :
    pv_prepare p = Some prepare -> prepare fop e s = (ret, e1, s1) -> 0 <= ret ->
    allow fop e1 s1 ps e' s' -> allow fop e s (p :: ps) e' s'.

Lemma prepare_loop_spec ps fop e s ret e' s' :
  prepare_loop ps fop e s = (ret, e', s') ->
  (ret = 0 /\ allow fop e s ps e' s') \/
  (ret = -1 /\ e' <> None /\ exists pre p post prepare r e1 s1 e2,
     ps = pre ++ p :: post /\ allow fop e s pre e1 s1 /\ pv_prepare p = Some prepare /\
     prepare fop e1 s1 = (r, e2, s') /\ r < 0).
Proof.
  revert e s. induction ps as [|p ps IH]; intros e s E; simpl in E.
  - injection E as <- <- <-. left. split; [done|constructor].
  - destruct (pv_prepare p) as [prepare|] eqn:Hp.
    + destruct (prepare fop e s) as [[r e1] s1] eqn:Er. destruct (r <? 0) eqn:Hr.
      * injection E as <- <- <-. right. split; [done|]. split; [by destruct e1|].
        exists [], p, ps, prepare, r, e, s, e1. repeat split; try done; [constructor|lia].
      * apply IH in E as [[-> H]|(-> & He & pre & q & post & f & r' & e2 & s2 & e3 & -> & Ha & Hq & Hf & Hr')].
        -- left. split; [done|]. eapply allow_cons; eauto. lia.
        -- right. do 2 (split; [done|]). exists (p :: pre), q, post, f, r', e2, s2, e3.
           repeat split; try done. eapply allow_cons; eauto. lia.
    + apply IH in E as [[-> H]|(-> & He & pre & q & post & f & r' & e2 & s2 & e3 & -> & Ha & Hq & Hf & Hr')].
      * left. split; [done|]. by apply allow_null.
      * right. do 2 (split; [done|]). exists (p :: pre), q, post, f, r', e2, s2, e3.
        repeat split; try done. by apply allow_null.
Qed.

(** With providers registered, an operation outside the vocabulary is refused
    before any provider is asked; any other operation is allowed exactly when every
    provider, asked in the order of registration, allows it, and a refusal comes
    from the first provider that says no: the providers after it have not been
    asked, and the refusal carries an error. *)
Theorem prepare_first_refusal ps fop s ret e s' :
  ps <> [] -> cf_fileop_prepare ps fop s = (ret, e, s') ->
  let asked := set_phase fop CF_FILEOP_PHASE_PREPARE in
  if cf_fileop_op_valid (fo_op fop) then
    (ret = 0 /\ allow asked None s ps e s') \/
    (ret = -1 /\ e <> None /\ exists pre p post prepare r e1 s1 e2,
       ps = pre ++ p :: post /\ allow asked None s pre e1 s1 /\ pv_prepare p = Some prepare /\
       prepare asked e1 s1 = (r, e2, s') /\ r < 0)
  else ret = -1 /\ e <> None /\ s' = s.
Proof.
  intros Hne E. destruct ps as [|p ps]; [done|]. unfold cf_fileop_prepare in E.
  destruct (cf_fileop_op_valid (fo_op fop)); [|by injection E as <- <- <-].
  by apply prepare_loop_spec in E.
Qed.
End dispatch.

(** ** Every path of an operation *)

(** The paths an operation writes with the library of each: the subjects, and the
    sources in the library they are taken from. *)
Definition touched (fop : CfFileOp) (repo_id : string) : list (string * string) :=
  map (pair repo_id) (cf_fileop_subject_paths fop) ++
  map (pair (default repo_id (fo_src_repo_id fop))) (cf_fileop_source_paths fop).

(** They are in normal form. *)
Lemma touched_normal fop repo_id r p :
  (r, p) ∈ touched fop repo_id -> exists l, Forall is_component l /\ p = absolute l.
Proof.
  assert (Hj : forall d e, exists l, Forall is_component l /\ cf_path_join d e = absolute l).
  { intros d e. exists (components (default EmptyString d) ++ components (default EmptyString e)).
    split; [|apply join_absolute]. apply Forall_app. split; apply components_are_components. }
  unfold touched. rewrite elem_of_app. intros [H|H]; apply list_elem_of_fmap in H as (q & [= -> ->] & H).
  - unfold cf_fileop_subject_paths, cf_fileop_subject_path in H.
    destruct (cf_fileop_op_pathless _); [by apply elem_of_nil in H|].
    destruct (fo_names fop); [|by apply list_elem_of_fmap in H as (n & -> & _)].
    destruct (cf_fileop_op_subject_is_root _); apply list_elem_of_singleton in H as ->; [|done].
    by exists [].
  - unfold cf_fileop_source_paths in H. destruct (negb _); [by apply elem_of_nil in H|].
    destruct (fo_src_names fop); [by apply list_elem_of_singleton in H as ->|].
    by apply list_elem_of_fmap in H as (n & -> & _).
Qed.

(** A trace of the providers asked, for two providers of which the second refuses. *)
Definition noting (name : string) (answer : Z) : Provider (list string) :=
  mkProvider name (Some (fun _ e s => (answer, e, s ++ [name]))) None None.

Definition mkdir_fop : CfFileOp :=
  mkFop CF_FILEOP_PHASE_ABORTED (Some "mkdir") (Some "r") (Some "/a//b/") None [] None None None [] (Some "u") None None None.

Lemma prepare_first_refusal_witness :
  cf_fileop_prepare [noting "x" 0; noting "y" (-1); noting "z" 0] mkdir_fop [] =
    (-1, Some (mkErr 500 "Refused by CloudFile provider y"), ["x"; "y"]) /\
  exists pre p post prepare r e1 s1 e2,
    [noting "x" 0; noting "y" (-1); noting "z" 0] = pre ++ p :: post /\
    allow (set_phase mkdir_fop CF_FILEOP_PHASE_PREPARE) None [] pre e1 s1 /\ pv_prepare p = Some prepare /\
    prepare (set_phase mkdir_fop CF_FILEOP_PHASE_PREPARE) e1 s1 = (r, e2, ["x"; "y"]) /\ r < 0.
Proof.
  split; [vm_compute; reflexivity|].
  destruct (prepare_first_refusal [noting "x" 0; noting "y" (-1); noting "z" 0] mkdir_fop []
              (-1) (Some (mkErr 500 "Refused by CloudFile provider y")) ["x"; "y"]) as [[H _]|(_ & _ & H)];
    [discriminate|vm_compute; reflexivity|discriminate H|exact H].
Defined.
