(* ===== verification/FsMgr.v ===== *)
(** * The file-system manager ([common/fs-mgr.c])

    The object store of a library as a map from ids to decoded objects, reading
    directories and files, looking paths up, traversing trees, block lists and
    tree sizes.  Recursion over stored trees takes fuel; [ranked] stores (every
    store whose ids are hashes of the contents is one) have enough of it at the
    rank of the root plus one. *)

From S2P Require Import Prelude Hex FsObj Paths.

Inductive fs_object := ODir (d : SeafDir) | OFile (f : Seafile).

Abbreviation fs_store := (gmap string fs_object).

(** [seaf_fs_manager_get_seafdir]: the empty id is a virtual empty directory. *)
Definition seaf_fs_manager_get_seafdir (st : fs_store) (version : Z) (dir_id : string)
  : option SeafDir :=
  if String.eqb dir_id EMPTY_SHA1 then Some (mkDir version EMPTY_SHA1 [])
  else match st !! dir_id with
       | Some (ODir d) => Some (mkDir (dir_version d) dir_id (entries d))
       | _ => None
       end.

Definition seaf_fs_manager_get_seafile (st : fs_store) (file_id : string) : option Seafile :=
  if String.eqb file_id EMPTY_SHA1 then Some (mkFile 0 EMPTY_SHA1 0 [])
  else match st !! file_id with
       | Some (OFile f) => Some (mkFile (f_version f) file_id (f_size f) (f_blk_sha1s f))
       | _ => None
       end.

(** [seaf_dir_save]: neither the empty directory nor an existing object is
    written; [write_ok] is the outcome of writing an object. *)
Definition seaf_dir_save (write_ok : string -> bool) (st : fs_store) (dir : SeafDir) : Z * fs_store :=
  if String.eqb (dir_id dir) EMPTY_SHA1 then (0, st)
  else match st !! dir_id dir with
       | Some _ => (0, st)
       | None => if write_ok (dir_id dir) then (0, <[dir_id dir := ODir dir]> st) else (-1, st)
       end.

(** [seaf_dir_new] without a given id; [dir_hash] is the SHA-1 of the serialized
    entries ([compute_dir_id_v0] for version 0, [seaf_dir_to_json] otherwise). *)
Definition seaf_dir_new (dir_hash : Z -> list SeafDirent -> string) (l : list SeafDirent)
    (version : Z) : SeafDir :=
  mkDir version (match l with [] => EMPTY_SHA1 | _ => dir_hash version l end) l.

Definition CURRENT_DIR_OBJ_VERSION : Z := 1.
Definition dir_version_from_repo_version (repo_version : Z) : Z :=
  if repo_version =? 0 then 0 else CURRENT_DIR_OBJ_VERSION.

(** ** Looking paths up *)

Inductive fs_error := SEAF_ERR_DIR_MISSING | SEAF_ERR_PATH_NO_EXIST | SEAF_ERR_GENERAL.

Definition find_dirent (P : SeafDirent -> bool) (l : list SeafDirent) : option SeafDirent :=
  List.find P l.

(** The [strtok_r] loop: descend through the directories the components name. *)
Fixpoint walk_path (st : fs_store) (version : Z) (dir : SeafDir) (names : list string)
  : fs_error + SeafDir :=
  match names with
  | [] => inr dir
  | name :: names =>
      match find_dirent (fun d => (strcmp (d_name d) name =? 0) && S_ISDIR (d_mode d)) (entries dir) with
      | None => inl SEAF_ERR_PATH_NO_EXIST
      | Some dent =>
          match seaf_fs_manager_get_seafdir st version (d_id dent) with
          | None => inl SEAF_ERR_DIR_MISSING
          | Some dir => walk_path st version dir names
          end
      end
  end.

Definition seaf_fs_manager_get_seafdir_by_path (st : fs_store) (version : Z)
    (root_id path : string) : fs_error + SeafDir :=
  match seaf_fs_manager_get_seafdir st version root_id with
  | None => inl SEAF_ERR_DIR_MISSING
  | Some dir => walk_path st version dir (components path)
  end.

(** The scan of the parent directory for a name, over entries with a valid id. *)
Definition scan_name (name : string) (l : list SeafDirent) : option SeafDirent :=
  find_dirent (fun d => is_object_id_valid (Some (d_id d)) && (strcmp (d_name d) name =? 0)) l.

(** [seaf_fs_manager_path_to_obj_id]: the id and mode, no match, or an error. *)
Definition seaf_fs_manager_path_to_obj_id (st : fs_store) (version : Z)
    (root_id path : string) : fs_error + option (string * Z) :=
  let copy := strip_slashes path in
  if (String.length copy =? 0)%nat then inr (Some (root_id, S_IFDIR))
  else
    let base :=
      match split_last copy with
      | None =>
          match seaf_fs_manager_get_seafdir st version root_id with
          | None => inl SEAF_ERR_GENERAL
          | Some base_dir => inr (base_dir, copy)
          end
      | Some (dir_path, name) =>
          match seaf_fs_manager_get_seafdir_by_path st version root_id dir_path with
          | inl e => inl e
          | inr base_dir => inr (base_dir, name)
          end
      end in
    match base with
    | inl e => inl e
    | inr (base_dir, name) =>
        inr (match scan_name name (entries base_dir) with
             | Some dent => Some (d_id dent, d_mode dent)
             | None => None
             end)
    end.

Definition seaf_fs_manager_get_seafile_id_by_path (st : fs_store) (version : Z)
    (root_id path : string) : fs_error + option string :=
  match seaf_fs_manager_path_to_obj_id st version root_id path with
  | inl e => inl e
  | inr None => inr None
  | inr (Some (file_id, mode)) => inr (if S_ISDIR mode then None else Some file_id)
  end.

Definition seaf_fs_manager_get_seafdir_id_by_path (st : fs_store) (version : Z)
    (root_id path : string) : fs_error + option string :=
  match seaf_fs_manager_path_to_obj_id st version root_id path with
  | inl e => inl e
  | inr None => inr None
  | inr (Some (dir_id, mode)) => inr (if negb (S_ISDIR mode) then None else Some dir_id)
  end.

(** ** Traversal *)

Inductive metadata_type := TypeFile | TypeDir.
#[global] Instance metadata_type_eq_dec : EqDecision metadata_type.
Proof. solve_decision. Defined.

Section traverse.
Context {D : Type}.
(** The callback: its boolean result, the [stop] flag and the new user data. *)
Context (callback : string -> metadata_type -> D -> bool * bool * D).
Context (st : fs_store) (version : Z) (skip_errors : bool).

Definition traverse_file (id : string) (data : D) : Z * D :=
  if String.eqb id EMPTY_SHA1 then (0, data)
  else
    let '(ok, _, data) := callback id TypeFile data in
    if negb ok && negb skip_errors then (-1, data) else (0, data).

Fixpoint traverse_entries (traverse_dir : string -> D -> option (Z * D))
    (l : list SeafDirent) (data : D) : option (Z * D) :=
  match l with
  | [] => Some (0, data)
  | dent :: l =>
      if S_ISREG (d_mode dent) then
        let '(ret, data) := traverse_file (d_id dent) data in
        if (ret <? 0) && negb skip_errors then Some (-1, data)
        else traverse_entries traverse_dir l data
      else if S_ISDIR (d_mode dent) then
        match traverse_dir (d_id dent) data with
        | None => None
        | Some (ret, data) =>
            if (ret <? 0) && negb skip_errors then Some (-1, data)
            else traverse_entries traverse_dir l data
        end
      else traverse_entries traverse_dir l data
  end.

(** [None] means out of fuel. *)
Fixpoint traverse_dir (fuel : nat) (id : string) (data : D) : option (Z * D) :=
  match fuel with
  | O => None
  | S fuel =>
      let '(ok, stop, data) := callback id TypeDir data in
      if negb ok && negb skip_errors then Some (-1, data)
      else if (stop : bool) then Some (0, data)
      else
        match seaf_fs_manager_get_seafdir st version id with
        | None => Some (if skip_errors then 0 else -1, data)
        | Some dir => traverse_entries (traverse_dir fuel) (entries dir) data
        end
  end.

Definition seaf_fs_manager_traverse_tree (fuel : nat) (root_id : string) (data : D)
  : option (Z * D) :=
  if String.eqb root_id EMPTY_SHA1 then Some (0, data) else traverse_dir fuel root_id data.
End traverse.

(** ** Block lists *)

Record BlockList := mkBlockList {
  block_hash : gset string;
  block_ids : list string;
  n_blocks : Z
}.

Definition block_list_new : BlockList := mkBlockList ∅ [] 0.

Definition block_list_insert (bl : BlockList) (block_id : string) : BlockList :=
  if decide (block_id ∈ block_hash bl) then bl
  else mkBlockList ({[block_id]} ∪ block_hash bl) (block_ids bl ++ [block_id]) (u32 (n_blocks bl + 1)).

Definition block_list_difference (bl1 bl2 : BlockList) : BlockList :=
  foldl (fun bl block_id =>
    if decide (block_id ∈ block_hash bl2) then bl
    else mkBlockList ({[block_id]} ∪ block_hash bl) (block_ids bl ++ [block_id]) (u32 (n_blocks bl + 1)))
    block_list_new (block_ids bl1).

(** [fill_blocklist], the traversal callback. *)
Definition fill_blocklist (st : fs_store) (obj_id : string) (type : metadata_type)
    (bl : BlockList) : bool * bool * BlockList :=
  match type with
  | TypeFile =>
      match seaf_fs_manager_get_seafile st obj_id with
      | None => (false, false, bl)
      | Some seafile => (true, false, foldl block_list_insert bl (f_blk_sha1s seafile))
      end
  | TypeDir => (true, false, bl)
  end.

Definition seaf_fs_manager_populate_blocklist (st : fs_store) (version : Z) (fuel : nat)
    (root_id : string) (bl : BlockList) : option (Z * BlockList) :=
  seaf_fs_manager_traverse_tree (fill_blocklist st) st version false fuel root_id bl.

(** ** Sizes and counts *)

Definition seaf_fs_manager_get_file_size (st : fs_store) (file_id : string) : Z :=
  match seaf_fs_manager_get_seafile st file_id with
  | None => -1
  | Some file => s64 (f_size file)
  end.

Fixpoint dir_size_entries (get_dir_size : string -> option Z) (st : fs_store) (dver : Z)
    (l : list SeafDirent) (size : Z) : option Z :=
  match l with
  | [] => Some (s64 size)
  | dent :: l =>
      if S_ISREG (d_mode dent) then
        if 0 <? dver then dir_size_entries get_dir_size st dver l (u64 (size + d_size dent))
        else
          let result := seaf_fs_manager_get_file_size st (d_id dent) in
          if result <? 0 then Some result
          else dir_size_entries get_dir_size st dver l (u64 (size + result))
      else if S_ISDIR (d_mode dent) then
        match get_dir_size (d_id dent) with
        | None => None
        | Some result =>
            if result <? 0 then Some result
            else dir_size_entries get_dir_size st dver l (u64 (size + result))
        end
      else dir_size_entries get_dir_size st dver l size
  end.

Fixpoint get_dir_size (st : fs_store) (version : Z) (fuel : nat) (id : string) : option Z :=
  match fuel with
  | O => None
  | S fuel =>
      match seaf_fs_manager_get_seafdir st version id with
      | None => Some (-1)
      | Some dir => dir_size_entries (get_dir_size st version fuel) st (dir_version dir) (entries dir) 0
      end
  end.

Definition seaf_fs_manager_get_fs_size (st : fs_store) (version : Z) (fuel : nat)
    (root_id : string) : option Z :=
  if String.eqb root_id EMPTY_SHA1 then Some 0 else get_dir_size st version fuel root_id.

Fixpoint count_entries (count_dir_files : string -> option Z) (l : list SeafDirent) (count : Z)
  : option Z :=
  match l with
  | [] => Some count
  | dent :: l =>
      if S_ISREG (d_mode dent) then count_entries count_dir_files l (count + 1)
      else if S_ISDIR (d_mode dent) then
        match count_dir_files (d_id dent) with
        | None => None
        | Some result =>
            if result <? 0 then Some result else count_entries count_dir_files l (count + result)
        end
      else count_entries count_dir_files l count
  end.

Fixpoint count_dir_files (st : fs_store) (version : Z) (fuel : nat) (id : string) : option Z :=
  match fuel with
  | O => None
  | S fuel =>
      match seaf_fs_manager_get_seafdir st version id with
      | None => Some (-1)
      | Some dir => count_entries (count_dir_files st version fuel) (entries dir) 0
      end
  end.

Definition seaf_fs_manager_count_fs_files (st : fs_store) (version : Z) (fuel : nat)
    (root_id : string) : option Z :=
  if String.eqb root_id EMPTY_SHA1 then Some 0 else count_dir_files st version fuel root_id.

(** [get_file_count_info]: the return value and the three counters.  The return
    value is whatever the last sub-directory returned. *)
Record count_info := mkInfo { dir_count : Z; file_count : Z; info_size : Z }.

Fixpoint file_count_entries (rec : string -> count_info -> option (Z * count_info)) (version : Z)
    (l : list SeafDirent) (ret : Z) (i : count_info) : option (Z * count_info) :=
  match l with
  | [] => Some (ret, i)
  | dent :: l =>
      if S_ISREG (d_mode dent) then
        file_count_entries rec version l ret
          (mkInfo (dir_count i) (file_count i + 1)
             (if 0 <? version then info_size i + d_size dent else info_size i))
      else if S_ISDIR (d_mode dent) then
        match rec (d_id dent) (mkInfo (dir_count i + 1) (file_count i) (info_size i)) with
        | None => None
        | Some (ret, i) => file_count_entries rec version l ret i
        end
      else file_count_entries rec version l ret i
  end.

Fixpoint get_file_count_info (st : fs_store) (version : Z) (fuel : nat) (id : string)
    (i : count_info) : option (Z * count_info) :=
  match fuel with
  | O => None
  | S fuel =>
      match seaf_fs_manager_get_seafdir st version id with
      | None => Some (-1, i)
      | Some dir =>
          file_count_entries (get_file_count_info st version fuel) version (entries dir) 0 i
      end
  end.

(** ** Paths denote directory entries *)

Lemma S_ISREG_not_DIR mode : S_ISREG mode = true -> S_ISDIR mode = false.
Proof.
  unfold S_ISREG, S_ISDIR. rewrite Z.eqb_eq. intros ->. done.
Qed.

Inductive dir_at (st : fs_store) (version : Z) : SeafDir -> list string -> SeafDir -> Prop :=
| dir_at_nil dir : dir_at st version dir [] dir
| dir_at_cons dir name names dent sub dir' :
    find_dirent (fun d => (strcmp (d_name d) name =? 0) && S_ISDIR (d_mode d)) (entries dir) = Some dent ->
    seaf_fs_manager_get_seafdir st version (d_id dent) = Some sub ->
    dir_at st version sub names dir' -> dir_at st version dir (name :: names) dir'.

Lemma walk_path_dir_at st version names : forall dir dir',
  walk_path st version dir names = inr dir' <-> dir_at st version dir names dir'.
Proof.
  induction names as [|name names IH]; intros dir dir'; simpl.
  - split; [intros [= ->]; constructor|by inversion 1].
  - split.
    + destruct (find_dirent _ _) as [dent|] eqn:E1; [|done].
      destruct (seaf_fs_manager_get_seafdir _ _ _) as [sub|] eqn:E2; [|done].
      intros H%IH. by econstructor.
    + inversion 1 as [|? ? ? dent sub ? E1 E2 H3]; subst. rewrite E1, E2. by apply IH.
Qed.

(** What a path resolves to: the root for a run of slashes, otherwise the entry
    its last component names in the directory the other components lead to. *)
Inductive path_denotes (st : fs_store) (version : Z) (root_id : string)
    : list string -> string -> Z -> Prop :=
| denotes_root : path_denotes st version root_id [] root_id S_IFDIR
| denotes_entry names name root base dent :
    seaf_fs_manager_get_seafdir st version root_id = Some root ->
    dir_at st version root names base ->
    scan_name name (entries base) = Some dent ->
    path_denotes st version root_id (names ++ [name]) (d_id dent) (d_mode dent).

Lemma strip_components_nil path : strip_slashes path = EmptyString -> components path = [].
Proof. intros E. by rewrite <- strip_slashes_components, E. Qed.

Lemma path_to_obj_id_denotes st version root_id path id mode :
  seaf_fs_manager_path_to_obj_id st version root_id path = inr (Some (id, mode)) <->
  path_denotes st version root_id (components path) id mode.
Proof.
  unfold seaf_fs_manager_path_to_obj_id.
  destruct (strip_slashes path) as [|c s] eqn:Es; [|rewrite <- Es in *].
  - simpl. rewrite strip_components_nil by done. split.
    + intros [= <- <-]. constructor.
    + inversion 1; [done|]. by destruct names.
  - assert (Hne : strip_slashes path <> EmptyString) by congruence.
    assert ((String.length (strip_slashes path) =? 0)%nat = false) as -> by (by rewrite Es).
    pose proof (strip_split_components path Hne) as Hc.
    destruct (split_last (strip_slashes path)) as [[a b]|]; rewrite Hc.
    + unfold seaf_fs_manager_get_seafdir_by_path. split.
      * destruct (seaf_fs_manager_get_seafdir st version root_id) as [root|] eqn:Er; [|done].
        destruct (walk_path _ _ _ _) as [|base] eqn:Ew; [done|].
        destruct (scan_name b (entries base)) as [dent|] eqn:En; [|done].
        intros [= <- <-]. apply walk_path_dir_at in Ew. by econstructor.
      * inversion 1 as [Hnil|names name root base dent Er Hd Hn Hnm]; subst.
        { by destruct (components a). }
        apply app_inj_tail in Hnm as [<- <-]. rewrite Er.
        apply walk_path_dir_at in Hd. rewrite Hd, Hn. done.
    + split.
      * destruct (seaf_fs_manager_get_seafdir st version root_id) as [root|] eqn:Er; [|done].
        destruct (scan_name _ _) as [dent|] eqn:En; [|done].
        intros [= <- <-]. apply (denotes_entry _ _ _ [] _ root root); [done|constructor|done].
      * inversion 1 as [Hnil|names name root base dent Er Hd Hn Hnm]; subst.
        change [strip_slashes path] with ([] ++ [strip_slashes path]) in Hnm.
        apply app_inj_tail in Hnm as [-> <-]. inversion Hd; subst. by rewrite Er, Hn.
Qed.

(** ** Traversal visits exactly the tree *)

(** Directories are ranked above their sub-directories: no cycles. *)
Definition ranked (st : fs_store) (version : Z) (rank : string -> nat) : Prop :=
  forall id dir de, seaf_fs_manager_get_seafdir st version id = Some dir ->
    de ∈ entries dir -> S_ISDIR (d_mode de) = true -> (rank (d_id de) < rank id)%nat.

Inductive file_under (st : fs_store) (version : Z) : string -> string -> Prop :=
| under_file id dir de :
    seaf_fs_manager_get_seafdir st version id = Some dir -> de ∈ entries dir ->
    S_ISREG (d_mode de) = true -> d_id de <> EMPTY_SHA1 -> file_under st version id (d_id de)
| under_dir id dir de f :
    seaf_fs_manager_get_seafdir st version id = Some dir -> de ∈ entries dir ->
    S_ISDIR (d_mode de) = true -> file_under st version (d_id de) f -> file_under st version id f.

Record bl_wf (bl : BlockList) : Prop := {
  bl_hash : block_hash bl = list_to_set (block_ids bl);
  bl_nodup : NoDup (block_ids bl);
  bl_count : n_blocks bl = u32 (Z.of_nat (length (block_ids bl)))
}.

Lemma u32_succ z : u32 (u32 z + 1) = u32 (z + 1).
Proof. unfold u32. by rewrite Zplus_mod_idemp_l. Qed.

Lemma bl_append_wf bl b :
  bl_wf bl -> b ∉ block_ids bl ->
  bl_wf (mkBlockList ({[b]} ∪ block_hash bl) (block_ids bl ++ [b]) (u32 (n_blocks bl + 1))).
Proof.
  intros [Hh Hn Hc] Hb. split; simpl.
  - rewrite list_to_set_app_L, <- Hh. simpl. set_solver.
  - apply NoDup_app. split_and!; [done| |apply NoDup_singleton]. set_solver.
  - rewrite Hc, u32_succ, length_app. simpl. f_equal. lia.
Qed.

Lemma block_list_insert_spec bl b :
  bl_wf bl -> bl_wf (block_list_insert bl b) /\
  forall x, x ∈ block_ids (block_list_insert bl b) <-> x ∈ block_ids bl \/ x = b.
Proof.
  intros W. pose proof W as [Hh _ _]. unfold block_list_insert.
  case_decide as D; rewrite Hh, elem_of_list_to_set in D.
  - split; [done|]. set_solver.
  - split; [by apply bl_append_wf|]. simpl. set_solver.
Qed.

Lemma block_list_insert_all bs : forall bl,
  bl_wf bl -> bl_wf (foldl block_list_insert bl bs) /\
  forall x, x ∈ block_ids (foldl block_list_insert bl bs) <-> x ∈ block_ids bl \/ x ∈ bs.
Proof.
  induction bs as [|b bs IH]; intros bl W; simpl; [split; [done|set_solver]|].
  destruct (block_list_insert_spec bl b W) as [W1 E1].
  destruct (IH _ W1) as [W2 E2]. split; [done|]. intros x. rewrite E2, E1. set_solver.
Qed.

Lemma block_list_difference_spec bl1 bl2 :
  bl_wf bl1 -> bl_wf bl2 ->
  bl_wf (block_list_difference bl1 bl2) /\
  block_ids (block_list_difference bl1 bl2) = filter (fun b => b ∉ block_ids bl2) (block_ids bl1).
Proof.
  intros [_ Hnd _] [Hh2 _ _]. unfold block_list_difference.
  assert (H : forall l bl, bl_wf bl -> NoDup (block_ids bl ++ l) ->
    let bl' := foldl (fun bl block_id => if decide (block_id ∈ block_hash bl2) then bl
      else mkBlockList ({[block_id]} ∪ block_hash bl) (block_ids bl ++ [block_id])
        (u32 (n_blocks bl + 1))) bl l in
    bl_wf bl' /\ block_ids bl' = block_ids bl ++ filter (fun b => b ∉ block_ids bl2) l).
  { induction l as [|b l IH]; intros bl W ND; simpl; [by rewrite app_nil_r|].
    apply NoDup_app in ND as (N1 & N2 & [N3 N4]%NoDup_cons).
    case_decide as D; rewrite Hh2, elem_of_list_to_set in D.
    - rewrite filter_cons_False by auto. apply IH; [done|].
      apply NoDup_app. split_and!; [done|set_solver|done].
    - rewrite filter_cons_True by auto.
      destruct (IH (mkBlockList ({[b]} ∪ block_hash bl) (block_ids bl ++ [b]) (u32 (n_blocks bl + 1))))
        as [W' E']; simpl.
      + apply bl_append_wf; [done|]. set_solver.
      + rewrite <- app_assoc. apply NoDup_app. split_and!; [done|set_solver|].
        by apply NoDup_cons.
      + split; [done|]. rewrite E'. simpl. by rewrite <- app_assoc. }
  apply (H (block_ids bl1) block_list_new); [|done].
  split; [done|constructor|done].
Qed.

Section populate.
Context (st : fs_store) (version : Z).

(** The blocks a traversal adds: those of the files it visits. *)
Definition blocks_of (P : string -> Prop) (b : string) : Prop :=
  exists f file, P f /\ seaf_fs_manager_get_seafile st f = Some file /\ b ∈ f_blk_sha1s file.

Record collected (P : string -> Prop) (bl : BlockList) (r : Z) (bl' : BlockList) : Prop := {
  co_wf : bl_wf bl';
  co_ret : r = 0 \/ r = -1;
  co_mono : forall b, b ∈ block_ids bl -> b ∈ block_ids bl';
  co_sound : forall b, b ∈ block_ids bl' -> b ∈ block_ids bl \/ blocks_of P b;
  co_complete : r = 0 -> forall f, P f ->
    exists file, seaf_fs_manager_get_seafile st f = Some file /\
      forall b, b ∈ f_blk_sha1s file -> b ∈ block_ids bl'
}.

Lemma collected_weaken (P Q : string -> Prop) bl r bl' :
  (forall f, P f <-> Q f) -> collected P bl r bl' -> collected Q bl r bl'.
Proof.
  intros HPQ [W R M S C]. split; try done.
  - intros b Hb. destruct (S b Hb) as [|(f & file & Hf & H)]; [auto|].
    right. exists f, file. split; [by apply HPQ|done].
  - intros Hr f Hf. apply C; [done|]. by apply HPQ.
Qed.

Lemma collected_nothing bl : bl_wf bl -> collected (fun _ => False) bl 0 bl.
Proof. intros W. split; auto. done. Qed.

(** Two traversals one after the other. *)
Lemma collected_seq (P Q : string -> Prop) bl bl1 r bl2 :
  collected P bl 0 bl1 -> collected Q bl1 r bl2 -> collected (fun f => P f \/ Q f) bl r bl2.
Proof.
  intros [W1 R1 M1 S1 C1] [W2 R2 M2 S2 C2]. split; auto.
  - intros b Hb. destruct (S2 b Hb) as [Hb1|(f & file & Hf & H)].
    + destruct (S1 b Hb1) as [|(f & file & Hf & H)]; [auto|]. right. exists f, file. auto.
    + right. exists f, file. auto.
  - intros Hr f [Hf|Hf]; [|by apply C2].
    destruct (C1 eq_refl f Hf) as (file & E & H). exists file. auto.
Qed.

Lemma collected_fail (P Q : string -> Prop) bl bl1 :
  (forall f, P f -> Q f) -> collected P bl (-1) bl1 -> collected Q bl (-1) bl1.
Proof.
  intros HPQ [W R M S C]. split; auto.
  - intros b Hb. destruct (S b Hb) as [|(f & file & Hf & H)]; [auto|].
    right. exists f, file. auto.
  - done.
Qed.

Definition under_entries (l : list SeafDirent) (f : string) : Prop :=
  exists de, de ∈ l /\
    ((S_ISREG (d_mode de) = true /\ d_id de <> EMPTY_SHA1 /\ f = d_id de) \/
     (S_ISDIR (d_mode de) = true /\ file_under st version (d_id de) f)).

Lemma under_entries_cons de l f :
  under_entries (de :: l) f <->
  ((S_ISREG (d_mode de) = true /\ d_id de <> EMPTY_SHA1 /\ f = d_id de) \/
   (S_ISDIR (d_mode de) = true /\ file_under st version (d_id de) f)) \/ under_entries l f.
Proof.
  unfold under_entries. split.
  - intros (d & [->|Hd]%elem_of_cons & H); [by left|right; eauto].
  - intros [H|(d & Hd & H)]; [exists de; split; [by left|done]|exists d; split; [by right|done]].
Qed.

Lemma traverse_file_collected id bl r bl' :
  bl_wf bl -> traverse_file (fill_blocklist st) false id bl = (r, bl') ->
  collected (fun f => id <> EMPTY_SHA1 /\ f = id) bl r bl'.
Proof.
  intros W. unfold traverse_file, fill_blocklist.
  destruct (String.eqb_spec id EMPTY_SHA1) as [->|Hne].
  - intros [= <- <-]. eapply collected_weaken; [|by apply collected_nothing]. naive_solver.
  - destruct (seaf_fs_manager_get_seafile st id) as [file|] eqn:E; simpl.
    + intros [= <- <-]. destruct (block_list_insert_all (f_blk_sha1s file) bl W) as [W' E'].
      split; auto.
      * intros b Hb. apply E'. auto.
      * intros b Hb. apply E' in Hb as [|Hb]; [auto|]. right. exists id, file. auto.
      * intros _ f [_ ->]. exists file. split; [done|]. intros b Hb. apply E'. auto.
    + intros [= <- <-]. split; auto. done.
Qed.

Lemma traverse_entries_collected (rec : string -> BlockList -> option (Z * BlockList)) l :
  (forall de bl, de ∈ l -> S_ISDIR (d_mode de) = true -> bl_wf bl ->
     exists r bl', rec (d_id de) bl = Some (r, bl') /\
       collected (file_under st version (d_id de)) bl r bl') ->
  forall bl, bl_wf bl ->
  exists r bl', traverse_entries (fill_blocklist st) false rec l bl = Some (r, bl') /\
    collected (under_entries l) bl r bl'.
Proof.
  induction l as [|de l IH]; intros Hrec bl W.
  - exists 0, bl. split; [done|]. eapply collected_weaken; [|by apply collected_nothing].
    intros f. split; [done|]. intros (de & H & _). by apply not_elem_of_nil in H.
  - assert (Hl : forall de0 bl0, de0 ∈ l -> S_ISDIR (d_mode de0) = true -> bl_wf bl0 ->
      exists r bl', rec (d_id de0) bl0 = Some (r, bl') /\
       collected (file_under st version (d_id de0)) bl0 r bl')
      by (intros; apply Hrec; auto; by right).
    specialize (IH Hl). cbn [traverse_entries].
    destruct (S_ISREG (d_mode de)) eqn:Ereg.
    + destruct (traverse_file _ _ _ _) as [r1 bl1] eqn:E1.
      apply (traverse_file_collected _ _ _ _ W) in E1.
      destruct (co_ret _ _ _ _ E1) as [-> | ->]; simpl.
      * destruct (IH bl1 (co_wf _ _ _ _ E1)) as (r & bl' & E & C). exists r, bl'.
        split; [done|]. eapply collected_weaken; [|exact (collected_seq _ _ _ _ _ _ E1 C)].
        intros f. rewrite under_entries_cons, Ereg, (S_ISREG_not_DIR _ Ereg). intuition congruence.
      * eexists _, _. split; [done|]. eapply collected_fail; [|exact E1].
        intros f [Hne ->]. rewrite under_entries_cons. auto.
    + destruct (S_ISDIR (d_mode de)) eqn:Edir.
      * destruct (Hrec de bl ltac:(by left) Edir W) as (r1 & bl1 & -> & E1).
        destruct (co_ret _ _ _ _ E1) as [-> | ->]; simpl.
        -- destruct (IH bl1 (co_wf _ _ _ _ E1)) as (r & bl' & E & C). exists r, bl'.
           split; [done|]. eapply collected_weaken; [|exact (collected_seq _ _ _ _ _ _ E1 C)].
           intros f. rewrite under_entries_cons, Ereg, Edir. intuition congruence.
        -- eexists _, _. split; [done|]. eapply collected_fail; [|exact E1].
           intros f Hf. rewrite under_entries_cons. auto.
      * destruct (IH bl W) as (r & bl' & E & C). exists r, bl'. split; [done|].
        eapply collected_weaken; [|exact C].
        intros f. rewrite under_entries_cons, Ereg, Edir. intuition congruence.
Qed.

Lemma traverse_dir_collected rank :
  ranked st version rank ->
  forall fuel id bl, (rank id < fuel)%nat -> bl_wf bl ->
  exists r bl', traverse_dir (fill_blocklist st) st version false fuel id bl = Some (r, bl') /\
    collected (file_under st version id) bl r bl'.
Proof.
  intros HR. induction fuel as [|fuel IH]; intros id bl Hf W; [lia|]. simpl.
  destruct (seaf_fs_manager_get_seafdir st version id) as [dir|] eqn:E.
  - destruct (traverse_entries_collected
      (traverse_dir (fill_blocklist st) st version false fuel) (entries dir)) with (bl := bl)
      as (r & bl' & E' & C); [|done|].
    + intros de bl0 Hde Hdir W0. apply IH; [|done]. pose proof (HR _ _ _ E Hde Hdir). lia.
    + exists r, bl'. split; [done|]. eapply collected_weaken; [|exact C].
      intros f. unfold under_entries. split.
      * intros (de & Hde & [(H1 & H2 & ->)|(H1 & H2)]);
          [by eapply under_file|by eapply under_dir].
      * inversion 1 as [? dir' de E1 Hde H1 H2|? dir' de ? E1 Hde H1 H2]; subst;
          rewrite E in E1; injection E1 as ->; exists de; auto.
  - eexists _, _. split; [done|].
    eapply (collected_fail (fun _ => False)); [done|].
    destruct (collected_nothing bl W) as [W' _ M S C]. by split; auto.
Qed.
End populate.

(** [seaf_fs_manager_path_to_obj_id] resolves a path exactly as its sequence
    of non-empty components: any spelling with leading, doubled or trailing
    slashes gives the same answer, the root for no component, and otherwise the
    entry of the last component in the directory the others lead to. *)
Theorem path_to_obj_id_correct st version root_id path id mode :
  seaf_fs_manager_path_to_obj_id st version root_id path = inr (Some (id, mode)) <->
  path_denotes st version root_id (components path) id mode.
Proof. apply path_to_obj_id_denotes. Qed.

(** Populating a block list from an acyclic tree terminates; when it reports
    success every file object under the root was readable and the list holds
    exactly the old blocks and the blocks of those files, without duplicates. *)
Theorem populate_blocklist_correct st version rank fuel root bl :
  ranked st version rank -> (rank root < fuel)%nat -> bl_wf bl ->
  exists r bl', seaf_fs_manager_populate_blocklist st version fuel root bl = Some (r, bl') /\
    bl_wf bl' /\
    (r = 0 ->
       (forall f, file_under st version root f -> is_Some (seaf_fs_manager_get_seafile st f)) /\
       forall b, b ∈ block_ids bl' <->
         b ∈ block_ids bl \/
         exists f file, file_under st version root f /\
           seaf_fs_manager_get_seafile st f = Some file /\ b ∈ f_blk_sha1s file).
Proof.
  intros HR Hf W. unfold seaf_fs_manager_populate_blocklist, seaf_fs_manager_traverse_tree.
  assert (exists r bl', (if String.eqb root EMPTY_SHA1 then Some (0, bl)
    else traverse_dir (fill_blocklist st) st version false fuel root bl) = Some (r, bl') /\
    collected st (file_under st version root) bl r bl') as (r & bl' & E & [W' _ M S C]).
  { destruct (String.eqb_spec root EMPTY_SHA1) as [->|]; [|by apply (traverse_dir_collected _ _ rank)].
    exists 0, bl. split; [done|]. eapply collected_weaken; [|by apply collected_nothing].
    intros f. split; [done|]. inversion 1 as [? d de Ed Hde|? d de ? Ed Hde]; subst;
      injection Ed as <-; simpl in Hde; by apply not_elem_of_nil in Hde. }
  exists r, bl'. split; [done|]. split; [done|]. intros Hr. split.
  - intros f Hu. destruct (C Hr f Hu) as (file & -> & _). done.
  - intros b. split; [apply S|]. intros [Hb|(f & file & Hu & Ef & Hb)]; [auto|].
    destruct (C Hr f Hu) as (file' & Ef' & H). rewrite Ef in Ef'. injection Ef' as <-. auto.
Qed.

(** [block_list_difference] keeps, in order, the blocks of the first list that
    are not in the second, and its hash and counter agree with the result. *)
Theorem block_list_difference_correct bl1 bl2 :
  bl_wf bl1 -> bl_wf bl2 ->
  bl_wf (block_list_difference bl1 bl2) /\
  block_ids (block_list_difference bl1 bl2) = filter (fun b => b ∉ block_ids bl2) (block_ids bl1).
Proof. apply block_list_difference_spec. Qed.

(** [get_file_count_info] does not propagate a failure: when one sub-directory
    is missing and a later one is readable, it returns 0 with counts that omit
    the missing part. *)
Theorem count_info_swallows_error st version fuel root dir missing sub subdir i :
  seaf_fs_manager_get_seafdir st version root = Some dir ->
  entries dir = [missing; sub] ->
  S_ISDIR (d_mode missing) = true -> S_ISDIR (d_mode sub) = true ->
  seaf_fs_manager_get_seafdir st version (d_id missing) = None ->
  seaf_fs_manager_get_seafdir st version (d_id sub) = Some subdir -> entries subdir = [] ->
  get_file_count_info st version (S (S fuel)) root i =
    Some (0, mkInfo (dir_count i + 2) (file_count i) (info_size i)).
Proof.
  intros Hr He Hm Hs Hmiss Hsub Hempty.
  assert (Hreg : forall m, S_ISDIR m = true -> S_ISREG m = false).
  { intros m Hd. destruct (S_ISREG m) eqn:E; [|done]. apply S_ISREG_not_DIR in E. congruence. }
  cbn [get_file_count_info]. rewrite Hr, He. cbn [file_count_entries].
  rewrite (Hreg _ Hm), (Hreg _ Hs), Hm, Hs, Hmiss, Hsub, Hempty. simpl.
  do 3 f_equal. lia.
Qed.

Definition toy_dirent (mode : Z) (id name : string) : SeafDirent :=
  mkDirent 1 mode id (String.length name) name 0 None 0.
Definition id_1 : string := "1111111111111111111111111111111111111111".
Definition id_2 : string := "2222222222222222222222222222222222222222".
Definition id_3 : string := "3333333333333333333333333333333333333333".

Definition toy_store : fs_store :=
  <[id_1 := ODir (mkDir 1 id_1 [toy_dirent 0x4000 id_2 "b"; toy_dirent 0x4000 EMPTY_SHA1 "a"])]>
  (<[id_3 := OFile (mkFile 1 id_3 5 ["blk"])]> ∅).

Lemma count_info_swallows_error_witness :
  get_file_count_info toy_store 1 2 id_1 (mkInfo 0 0 0) = Some (0, mkInfo 2 0 0).
Proof.
  apply (count_info_swallows_error toy_store 1 0 id_1
    (mkDir 1 id_1 [toy_dirent 0x4000 id_2 "b"; toy_dirent 0x4000 EMPTY_SHA1 "a"])
    (toy_dirent 0x4000 id_2 "b") (toy_dirent 0x4000 EMPTY_SHA1 "a") (mkDir 1 EMPTY_SHA1 [])
    (mkInfo 0 0 0)); reflexivity.
Defined.

Definition toy_store2 : fs_store :=
  <[id_1 := ODir (mkDir 1 id_1 [toy_dirent 0x8000 id_3 "f"])]>
  (<[id_3 := OFile (mkFile 1 id_3 5 ["blk"])]> ∅).

Lemma populate_blocklist_correct_witness :
  exists r bl', seaf_fs_manager_populate_blocklist toy_store2 1 1 id_1 block_list_new = Some (r, bl') /\
    bl_wf bl'.
Proof.
  destruct (populate_blocklist_correct toy_store2 1 (fun _ => 0%nat) 1 id_1 block_list_new)
    as (r & bl' & E & W & _).
  - intros id dir de. unfold seaf_fs_manager_get_seafdir, toy_store2.
    destruct (String.eqb id EMPTY_SHA1); [intros [= <-] H; inversion H|].
    intros E Hde Hd. exfalso. revert E.
    destruct (decide (id = id_1)) as [->|]; [|destruct (decide (id = id_3)) as [->|]];
      simplify_map_eq; try done.
    intros [= <-]. simpl in Hde. apply list_elem_of_singleton in Hde as ->. done.
  - lia.
  - split; [reflexivity|constructor|reflexivity].
  - exists r, bl'. split; [exact E|exact W].
Defined.

Lemma block_list_difference_correct_witness :
  block_ids (block_list_difference (foldl block_list_insert block_list_new ["a"; "b"; "a"; "c"])
    (foldl block_list_insert block_list_new ["b"])) =
  filter (fun b => b ∉ block_ids (foldl block_list_insert block_list_new ["b"]))
    (block_ids (foldl block_list_insert block_list_new ["a"; "b"; "a"; "c"])).
Proof.
  assert (W0 : bl_wf block_list_new) by (split; [reflexivity|constructor|reflexivity]).
  apply (block_list_difference_correct (foldl block_list_insert block_list_new ["a"; "b"; "a"; "c"])
    (foldl block_list_insert block_list_new ["b"])).
  - by apply (block_list_insert_all ["a"; "b"; "a"; "c"]).
  - by apply (block_list_insert_all ["b"]).
Defined.
