(* ===== verification/Walk.v ===== *)
(** * Walking sorted directories in parallel

    The loop that [diff_trees_recursive] ([common/diff-simple.c]) and
    [merge_trees_recursive] ([common/merge-new.c]) share: take the largest head
    name of [n] entry lists, collect the entries of that name, advance the lists
    that had it.  On directories sorted in descending order it visits every name
    of every list exactly once, with the entries each list has for it. *)

From S2P Require Import Prelude Hex FsObj Paths FsMgr.

(** ** The order of names *)

Definition gt_name (s t : string) : Prop := String.compare s t = Gt.

Lemma compare_lt_trans a : forall b c,
  String.compare a b = Lt -> String.compare b c = Lt -> String.compare a c = Lt.
Proof.
  induction a as [|x a IH]; intros [|y b] [|z c]; simpl; try done.
  destruct (Ascii.compare x y) eqn:E1; try done.
  - apply Ascii.compare_eq_iff in E1 as ->. intros H1.
    destruct (Ascii.compare y z) eqn:E2; try done. by apply IH.
  - intros _. destruct (Ascii.compare y z) eqn:E2; try done; intros H2.
    + apply Ascii.compare_eq_iff in E2 as ->. by rewrite E1.
    + assert (Ascii.compare x z = Lt) as ->; [|done].
      apply N.compare_lt_iff. etrans; by apply N.compare_lt_iff.
Qed.

Lemma compare_swap a b : String.compare a b = CompOpp (String.compare b a).
Proof. apply String.compare_antisym. Qed.

Lemma gt_name_lt a b : gt_name a b <-> String.compare b a = Lt.
Proof. unfold gt_name. rewrite compare_swap. destruct (String.compare b a); done. Qed.

#[global] Instance gt_name_trans : Transitive gt_name.
Proof. intros a b c. rewrite !gt_name_lt. intros H1 H2. by apply (compare_lt_trans _ b). Qed.

Lemma gt_name_irrefl a : ~ gt_name a a.
Proof. unfold gt_name. by rewrite compare_refl. Qed.

Lemma gt_name_total a b : a = b \/ gt_name a b \/ gt_name b a.
Proof.
  destruct (String.compare a b) eqn:E.
  - left. by apply String.compare_eq_iff.
  - right; right. by apply gt_name_lt.
  - by right; left.
Qed.

Lemma strcmp_gt a b : (0 <? strcmp a b) = true <-> gt_name a b.
Proof. unfold strcmp, gt_name. by destruct (String.compare a b). Qed.

(** ** The loop *)

(** The "largest" name among the heads of the lists. *)
Definition larger (acc : option string) (ptr : list SeafDirent) : option string :=
  match ptr with
  | [] => acc
  | dent :: _ =>
      match acc with
      | None => Some (d_name dent)
      | Some first_name =>
          if 0 <? strcmp (d_name dent) first_name then Some (d_name dent) else acc
      end
  end.

Definition first_name (ptrs : list (list SeafDirent)) : option string := foldl larger None ptrs.

(** The entry a list has for the name at its head, and the advanced list. *)
Definition head_named (name : string) (ptr : list SeafDirent) : option SeafDirent :=
  match ptr with
  | dent :: _ => if strcmp name (d_name dent) =? 0 then Some dent else None
  | [] => None
  end.

Definition advance (name : string) (ptr : list SeafDirent) : list SeafDirent :=
  match ptr with
  | dent :: rest => if strcmp name (d_name dent) =? 0 then rest else ptr
  | [] => []
  end.

Section loop.
Context {St : Type}.
(** The loop body: the entries of one name, the return value so far, the state. *)
Context (body : list (option SeafDirent) -> Z -> St -> option (Z * St)).

Fixpoint walk_fuel (fuel : nat) (ptrs : list (list SeafDirent)) (ret : Z) (st : St)
  : option (Z * St) :=
  match first_name ptrs with
  | None => Some (ret, st)
  | Some name =>
      match fuel with
      | O => None
      | S fuel =>
          match body (head_named name <$> ptrs) ret st with
          | None => None
          | Some (ret, st) =>
              if ret <? 0 then Some (ret, st)
              else walk_fuel fuel (advance name <$> ptrs) ret st
          end
      end
  end.

Definition total (ptrs : list (list SeafDirent)) : nat := sum_list (length <$> ptrs).

Definition walk (ptrs : list (list SeafDirent)) (ret : Z) (st : St) : option (Z * St) :=
  walk_fuel (total ptrs) ptrs ret st.
End loop.

(** ** The rows it visits *)

Fixpoint rows (fuel : nat) (ptrs : list (list SeafDirent))
  : list (string * list (option SeafDirent)) :=
  match fuel, first_name ptrs with
  | S fuel, Some name => (name, head_named name <$> ptrs) :: rows fuel (advance name <$> ptrs)
  | _, _ => []
  end.

Fixpoint fold_rows {St} (body : list (option SeafDirent) -> Z -> St -> option (Z * St))
    (l : list (string * list (option SeafDirent))) (ret : Z) (st : St) : option (Z * St) :=
  match l with
  | [] => Some (ret, st)
  | row :: l =>
      match body (snd row) ret st with
      | None => None
      | Some (ret, st) => if ret <? 0 then Some (ret, st) else fold_rows body l ret st
      end
  end.

Definition sorted_entries (l : list SeafDirent) : Prop :=
  StronglySorted (fun d1 d2 => gt_name (d_name d1) (d_name d2)) l.

(** The entry of a name in a directory. *)
Definition lookup_name (name : string) (l : list SeafDirent) : option SeafDirent :=
  List.find (fun d => String.eqb name (d_name d)) l.

Lemma lookup_name_Some name l d :
  lookup_name name l = Some d -> d ∈ l /\ d_name d = name.
Proof.
  intros [H1 H2]%List.find_some. split; [by apply list_elem_of_In|].
  by apply String.eqb_eq in H2.
Qed.

Lemma lookup_name_sorted l d :
  sorted_entries l -> d ∈ l -> lookup_name (d_name d) l = Some d.
Proof.
  induction 1 as [|x l Hs IH Hx]; [by intros ?%not_elem_of_nil|].
  intros [->|Hd]%elem_of_cons; unfold lookup_name in *; simpl.
  - by rewrite String.eqb_refl.
  - rewrite Forall_forall in Hx. specialize (Hx d Hd).
    destruct (String.eqb_spec (d_name d) (d_name x)) as [E|]; [|by apply IH].
    rewrite E in Hx. by apply gt_name_irrefl in Hx.
Qed.

Lemma lookup_name_None name l :
  lookup_name name l = None <-> forall d, d ∈ l -> d_name d <> name.
Proof.
  unfold lookup_name. split.
  - intros H d Hd E. apply list_elem_of_In in Hd.
    pose proof (List.find_none _ _ H d Hd) as Hf. simpl in Hf. subst name.
    by rewrite String.eqb_refl in Hf.
  - intros H. destruct (List.find _ l) as [d|] eqn:E; [|done].
    apply lookup_name_Some in E as [Hd E]. by apply H in Hd.
Qed.

Lemma head_named_strcmp name ptr :
  head_named name ptr =
  match ptr with d :: _ => if String.eqb name (d_name d) then Some d else None | [] => None end.
Proof.
  destruct ptr as [|d ptr]; [done|]. simpl.
  destruct (String.eqb_spec name (d_name d)) as [->|Hne].
  - by rewrite (proj2 (strcmp_eq _ _) eq_refl).
  - destruct (Z.eqb_spec (strcmp name (d_name d)) 0) as [E|]; [|done].
    by apply strcmp_eq in E.
Qed.

Lemma advance_strcmp name ptr :
  advance name ptr =
  match ptr with d :: r => if String.eqb name (d_name d) then r else ptr | [] => [] end.
Proof.
  destruct ptr as [|d ptr]; [done|]. simpl.
  destruct (String.eqb_spec name (d_name d)) as [->|Hne].
  - by rewrite (proj2 (strcmp_eq _ _) eq_refl).
  - destruct (Z.eqb_spec (strcmp name (d_name d)) 0) as [E|]; [|done].
    by apply strcmp_eq in E.
Qed.

(** [first_name] is the maximum of the head names. *)
Lemma first_name_foldl ptrs : forall acc,
  match foldl larger acc ptrs with
  | None => acc = None /\ Forall (fun p => p = []) ptrs
  | Some m =>
      (acc = Some m \/ exists d r, d :: r ∈ ptrs /\ d_name d = m) /\
      (forall a, acc = Some a -> a = m \/ gt_name m a) /\
      (forall d r, d :: r ∈ ptrs -> d_name d = m \/ gt_name m (d_name d))
  end.
Proof.
  induction ptrs as [|p ptrs IH]; intros acc; simpl.
  - destruct acc; [|done]. split_and!; [by left|naive_solver|].
    intros d r H. by apply not_elem_of_nil in H.
  - specialize (IH (larger acc p)). destruct (foldl larger (larger acc p) ptrs) as [m|].
    + destruct IH as (I1 & I2 & I3). destruct p as [|d0 r0]; simpl in *.
      { split_and!; [|done|].
        - destruct I1 as [|(d & r & Hd & E)]; [auto|]. right. exists d, r. split; [by right|done].
        - intros d r [H|H]%elem_of_cons; [done|eauto]. }
      assert (Hd0 : d_name d0 = m \/ gt_name m (d_name d0)).
      { destruct acc as [a|]; [|by apply I2]. destruct (0 <? strcmp (d_name d0) a) eqn:Ec; [by apply I2|].
        destruct (gt_name_total (d_name d0) a) as [->|[H|H]]; [by apply I2| |].
        - apply strcmp_gt in H. congruence.
        - right. destruct (I2 a eq_refl) as [<-|]; [done|]. by trans a. }
      split_and!.
      * destruct I1 as [E|(d & r & Hd & E)]; [|right; exists d, r; split; [by right|done]].
        destruct acc as [a|]; [|injection E as <-; right; exists d0, r0; split; [by left|done]].
        destruct (0 <? strcmp (d_name d0) a); [|by left].
        injection E as <-. right. exists d0, r0. split; [by left|done].
      * intros a ->. destruct (0 <? strcmp (d_name d0) a) eqn:Ec; [|by apply I2].
        apply strcmp_gt in Ec. destruct Hd0 as [<-|H]; [by right|]. right. by trans (d_name d0).
      * intros d r [[= -> ->]|H]%elem_of_cons; [done|eauto].
    + destruct IH as [E F]. destruct p as [|d0 r0]; simpl in *.
      * split; [done|]. by constructor.
      * exfalso. destruct acc as [a|]; [|done]. by destruct (0 <? strcmp (d_name d0) a).
Qed.

Lemma first_name_max ptrs :
  Forall sorted_entries ptrs ->
  match first_name ptrs with
  | None => Forall (fun p => p = []) ptrs
  | Some m =>
      (exists d r, d :: r ∈ ptrs /\ d_name d = m) /\
      (forall p d, p ∈ ptrs -> d ∈ p -> d_name d = m \/ gt_name m (d_name d))
  end.
Proof.
  intros F. pose proof (first_name_foldl ptrs None) as H. unfold first_name.
  destruct (foldl larger None ptrs) as [m|]; [|tauto].
  destruct H as ([|H1] & _ & H3); [done|]. split; [done|].
  intros p d Hp Hd. rewrite Forall_forall in F. specialize (F p Hp).
  destruct p as [|d0 r]; [by apply not_elem_of_nil in Hd|].
  destruct (H3 d0 r Hp) as [E|Hgt]; apply elem_of_cons in Hd as [->|Hd]; auto.
  - inversion F as [|? ? _ Hall]; subst. rewrite Forall_forall in Hall. right. by apply Hall.
  - inversion F as [|? ? _ Hall]; subst. rewrite Forall_forall in Hall.
    right. trans (d_name d0); [done|by apply Hall].
Qed.

(** On a sorted list whose names are at most [m], the head test is a lookup and
    advancing drops exactly that name. *)
Lemma head_named_lookup m p :
  sorted_entries p -> (forall d, d ∈ p -> d_name d = m \/ gt_name m (d_name d)) ->
  head_named m p = lookup_name m p /\ sorted_entries (advance m p) /\
  (forall d, d ∈ advance m p <-> d ∈ p /\ d_name d <> m) /\
  (forall nm, nm <> m -> lookup_name nm (advance m p) = lookup_name nm p).
Proof.
  intros Hs Hm. rewrite head_named_strcmp, advance_strcmp.
  destruct p as [|d0 r]; [split_and!; try done; set_solver|].
  inversion Hs as [|? ? Hr Hall]; subst. rewrite Forall_forall in Hall.
  unfold lookup_name; simpl. destruct (String.eqb_spec m (d_name d0)) as [->|Hne].
  - split_and!; try done.
    + intros d. rewrite elem_of_cons. split.
      * intros Hd. split; [by right|]. intros E. specialize (Hall d Hd). rewrite E in Hall.
        by apply gt_name_irrefl in Hall.
      * intros [[->|Hd] Hne]; [done|done].
    + intros nm Hnm. by rewrite (proj2 (String.eqb_neq nm (d_name d0)) Hnm).
  - assert (Hlt : forall d, d ∈ d0 :: r -> gt_name m (d_name d)).
    { intros d [->|Hd]%elem_of_cons.
      - destruct (Hm d0 ltac:(by left)) as [E|]; [by symmetry in E|done].
      - trans (d_name d0); [|by apply Hall].
        destruct (Hm d0 ltac:(by left)) as [E|]; [by symmetry in E|done]. }
    split_and!; try done.
    + symmetry. apply lookup_name_None. intros d Hd E.
      specialize (Hlt d ltac:(by right)). rewrite E in Hlt. by apply gt_name_irrefl in Hlt.
    + intros d. split; [|tauto]. intros Hd. split; [done|]. intros E.
      specialize (Hlt d Hd). rewrite E in Hlt. by apply gt_name_irrefl in Hlt.
Qed.

Lemma total_advance m ptrs :
  (exists d r, d :: r ∈ ptrs /\ d_name d = m) -> (total (advance m <$> ptrs) < total ptrs)%nat.
Proof.
  intros (d & r & Hin & E). unfold total.
  assert (Hle : forall p, (length (advance m p) <= length p)%nat).
  { intros p. rewrite advance_strcmp. destruct p as [|x p]; [done|].
    destruct (String.eqb m (d_name x)); simpl; lia. }
  induction ptrs as [|p ptrs IH]; [by apply not_elem_of_nil in Hin|].
  rewrite !fmap_cons. cbn [sum_list_with id].
  assert (Hsum : (sum_list (length <$> (advance m <$> ptrs)) <= sum_list (length <$> ptrs))%nat).
  { clear -Hle. induction ptrs as [|p ptrs IH]; [done|]. rewrite !fmap_cons. cbn [sum_list_with id].
    pose proof (Hle p) as H. lia. }
  apply elem_of_cons in Hin as [<-|Hin].
  - rewrite advance_strcmp, E, String.eqb_refl. simpl. lia.
  - specialize (IH Hin). specialize (Hle p). lia.
Qed.

Definition names_of (ptrs : list (list SeafDirent)) (nm : string) : Prop :=
  exists p d, p ∈ ptrs /\ d ∈ p /\ d_name d = nm.

(** The rows of sorted lists: strictly descending names, exactly the names of
    the lists, each with the entry every list has for it. *)
Lemma rows_spec fuel : forall ptrs,
  Forall sorted_entries ptrs -> (total ptrs <= fuel)%nat ->
  StronglySorted gt_name (fst <$> rows fuel ptrs) /\
  (forall nm, nm ∈ fst <$> rows fuel ptrs <-> names_of ptrs nm) /\
  Forall (fun row => snd row = lookup_name (fst row) <$> ptrs) (rows fuel ptrs).
Proof.
  induction fuel as [|fuel IH]; intros ptrs F Hf; simpl.
  - split_and!; [constructor| |constructor]. intros nm.
    split; [by intros ?%not_elem_of_nil|]. intros (p & d & Hp & Hd & _).
    apply list_elem_of_In in Hp, Hd. exfalso. unfold total in Hf.
    induction ptrs as [|p0 ptrs IHp]; [done|]. rewrite fmap_cons in Hf. cbn [sum_list_with id] in Hf.
    apply Forall_cons in F as [_ F]. destruct Hp as [<-|Hp]; [|apply IHp; try done; lia].
    destruct p0; [done|]. simpl in Hf. lia.
  - pose proof (first_name_max ptrs F) as Hmax.
    destruct (first_name ptrs) as [m|].
    + destruct Hmax as [Hex Hle].
      assert (Hadv : forall p, p ∈ ptrs -> head_named m p = lookup_name m p /\
        sorted_entries (advance m p) /\ (forall d, d ∈ advance m p <-> d ∈ p /\ d_name d <> m) /\
        (forall nm, nm <> m -> lookup_name nm (advance m p) = lookup_name nm p)).
      { intros p Hp. rewrite Forall_forall in F. apply head_named_lookup; eauto. }
      assert (F' : Forall sorted_entries (advance m <$> ptrs)).
      { apply Forall_fmap, Forall_forall. intros p Hp. by apply Hadv. }
      pose proof (total_advance m ptrs Hex) as Ht.
      destruct (IH (advance m <$> ptrs) F' ltac:(lia)) as (I1 & I2 & I3).
      assert (Hnames : forall nm, names_of (advance m <$> ptrs) nm <-> names_of ptrs nm /\ nm <> m).
      { intros nm. unfold names_of. split.
        - intros (p' & d & Hp' & Hd & <-). apply list_elem_of_fmap in Hp' as (p & -> & Hp).
          apply Hadv in Hd as [Hd Hne]; [|done]. eauto 10.
        - intros [(p & d & Hp & Hd & <-) Hne]. exists (advance m p), d.
          split; [by apply list_elem_of_fmap_2|]. split; [by apply Hadv|done]. }
      rewrite fmap_cons. simpl. split_and!.
      * constructor; [done|]. apply Forall_forall. intros nm Hnm.
        apply I2, Hnames in Hnm as [(p & d & Hp & Hd & <-) Hne].
        destruct (Hle p d Hp Hd) as [|]; done.
      * intros nm. rewrite elem_of_cons, I2, Hnames. split.
        -- intros [->|[? _]]; [|done]. destruct Hex as (d & r & Hin & E).
           exists (d :: r), d. split_and!; [done|by left|done].
        -- intros Hnm. destruct (decide (nm = m)); auto.
      * constructor; simpl.
        -- apply list_fmap_ext. intros i p Hp. apply Hadv. by eapply list_elem_of_lookup_2.
        -- rewrite Forall_forall in I3 |- *. intros row Hrow. rewrite (I3 row Hrow).
           assert (fst row <> m).
           { apply (list_elem_of_fmap_2 fst), I2, Hnames in Hrow. tauto. }
           rewrite <- list_fmap_compose. apply list_fmap_ext. intros i p Hp. simpl.
           apply Hadv; [by eapply list_elem_of_lookup_2|done].
    + split_and!; [constructor| |constructor]. intros nm.
      split; [by intros ?%not_elem_of_nil|]. intros (p & d & Hp & Hd & _).
      rewrite Forall_forall in Hmax. rewrite (Hmax p Hp) in Hd. by apply not_elem_of_nil in Hd.
Qed.

Lemma walk_fuel_rows {St} (body : list (option SeafDirent) -> Z -> St -> option (Z * St)) fuel :
  forall ptrs ret st, Forall sorted_entries ptrs -> (total ptrs <= fuel)%nat ->
  walk_fuel body fuel ptrs ret st = fold_rows body (rows fuel ptrs) ret st.
Proof.
  induction fuel as [|fuel IH]; intros ptrs ret st F Hf; simpl;
    pose proof (first_name_max ptrs F) as Hmax; destruct (first_name ptrs) as [m|]; try done.
  - destruct Hmax as [Hex _]. pose proof (total_advance m ptrs Hex). lia.
  - cbn [fold_rows snd]. destruct (body _ ret st) as [[r st']|]; [|done]. destruct (r <? 0); [done|].
    destruct Hmax as [Hex Hle]. apply IH.
    + apply Forall_fmap, Forall_forall. intros p Hp. rewrite Forall_forall in F.
      apply head_named_lookup; eauto.
    + pose proof (total_advance m ptrs Hex). lia.
Qed.

(** The walk over sorted directories, as a fold over the sorted union of their
    names. *)
Lemma walk_rows {St} (body : list (option SeafDirent) -> Z -> St -> option (Z * St)) ptrs ret st :
  Forall sorted_entries ptrs ->
  exists rws, walk body ptrs ret st = fold_rows body rws ret st /\
    StronglySorted gt_name (fst <$> rws) /\
    (forall nm, nm ∈ fst <$> rws <-> names_of ptrs nm) /\
    Forall (fun row => snd row = lookup_name (fst row) <$> ptrs) rws.
Proof.
  intros F. exists (rows (total ptrs) ptrs). split; [by apply walk_fuel_rows|].
  by apply rows_spec.
Qed.

(** A walk whose body prepends what it finds for a row finds what the rows have. *)
Lemma fold_rows_collect {E} (body : list (option SeafDirent) -> Z -> list E -> option (Z * list E))
    (Q : string * list (option SeafDirent) -> E -> Prop) rws :
  (forall row st, row ∈ rws -> exists new, body (snd row) 0 st = Some (0, new ++ st) /\
     forall e, e ∈ new <-> Q row e) ->
  forall st, exists new, fold_rows body rws 0 st = Some (0, new ++ st) /\
    forall e, e ∈ new <-> exists row, row ∈ rws /\ Q row e.
Proof.
  induction rws as [|row rws IH]; intros H st; simpl.
  - exists []. split; [done|]. set_solver.
  - destruct (H row st ltac:(by left)) as (new1 & -> & Q1). cbn.
    destruct (IH ltac:(intros; apply H; by right) (new1 ++ st)) as (new2 & -> & Q2).
    exists (new2 ++ new1). rewrite app_assoc. split; [done|]. intros e.
    rewrite elem_of_app, Q1, Q2. set_solver.
Qed.

(** ** Well-formed stores *)

(** A store in which the walk is at home: directories are sorted, every listed
    directory can be read. *)
Record tidy (st : fs_store) (version : Z) : Prop := {
  tidy_sorted : forall id dir, seaf_fs_manager_get_seafdir st version id = Some dir ->
    sorted_entries (entries dir);
  tidy_closed : forall id dir e, seaf_fs_manager_get_seafdir st version id = Some dir ->
    e ∈ entries dir -> S_ISDIR (d_mode e) = true ->
    is_Some (seaf_fs_manager_get_seafdir st version (d_id e))
}.

(** A test that a finite store is tidy and ranked. *)
Fixpoint sortedb (l : list SeafDirent) : bool :=
  match l with
  | [] => true
  | d :: l =>
      match l with [] => true | d' :: _ => (0 <? strcmp (d_name d) (d_name d')) && sortedb l end
  end.

Definition check_dir (st : fs_store) (version : Z) (rank : string -> nat) (id : string)
    (l : list SeafDirent) : bool :=
  sortedb l &&
  forallb (fun e => negb (S_ISDIR (d_mode e)) ||
    (match seaf_fs_manager_get_seafdir st version (d_id e) with Some _ => true | None => false end &&
     (rank (d_id e) <? rank id)%nat)) l.

Definition check_store (st : fs_store) (version : Z) (rank : string -> nat) : bool :=
  forallb (fun p => match snd p with
                    | ODir d => check_dir st version rank (fst p) (entries d)
                    | OFile _ => true
                    end) (map_to_list st).

Lemma sortedb_sound l : sortedb l = true -> sorted_entries l.
Proof.
  intros H. apply Sorted_StronglySorted.
  { intros a b c. apply gt_name_trans. }
  induction l as [|d l IH]; [constructor|]. cbn [sortedb] in H. destruct l as [|d' l].
  - repeat constructor.
  - apply andb_true_iff in H as [H1 H2]. apply strcmp_gt in H1.
    constructor; [by apply IH|by constructor].
Qed.

Lemma check_dir_stored st version rank id dir :
  check_store st version rank = true -> seaf_fs_manager_get_seafdir st version id = Some dir ->
  check_dir st version rank id (entries dir) = true.
Proof.
  unfold check_store, seaf_fs_manager_get_seafdir. intros Hc.
  destruct (String.eqb id EMPTY_SHA1); [by intros [= <-]|].
  destruct (st !! id) as [[d|]|] eqn:E; [|done..]. intros [= <-]. simpl.
  rewrite forallb_forall in Hc. apply (Hc (id, ODir d)).
  by apply list_elem_of_In, elem_of_map_to_list.
Qed.

Lemma check_store_sound st version rank :
  check_store st version rank = true -> tidy st version /\ ranked st version rank.
Proof.
  intros Hc.
  assert (He : forall id dir e, seaf_fs_manager_get_seafdir st version id = Some dir ->
    e ∈ entries dir -> S_ISDIR (d_mode e) = true ->
    is_Some (seaf_fs_manager_get_seafdir st version (d_id e)) /\ (rank (d_id e) < rank id)%nat).
  { intros id dir e Hid Hin Hd. pose proof (check_dir_stored _ _ _ _ _ Hc Hid) as H.
    unfold check_dir in H. apply andb_true_iff in H as [_ H]. rewrite forallb_forall in H.
    apply list_elem_of_In, H in Hin. rewrite Hd in Hin. cbn [negb orb] in Hin.
    destruct (seaf_fs_manager_get_seafdir st version (d_id e)); [|done].
    split; [by eexists|]. cbn [andb] in Hin. blia. }
  split; [split|].
  - intros id dir Hid. pose proof (check_dir_stored _ _ _ _ _ Hc Hid) as H.
    unfold check_dir in H. apply andb_true_iff in H as [H _]. by apply sortedb_sound.
  - intros id dir e Hid Hin Hd. by destruct (He id dir e Hid Hin Hd).
  - intros id dir e Hid Hin Hd. by destruct (He id dir e Hid Hin Hd).
Qed.
