(* ===== verification/Diff.v ===== *)
(** * Differences between trees ([common/diff-simple.c])

    [diff_trees] walks two or three trees in parallel and calls back for the
    files and the directories of every name; the two-way callbacks collect the
    changes between two commits, the three-way ones the changes of a merge.
    [diff_resolve_renames] and [diff_resolve_empty_dirs] post-process the list.
    The model returns the callback data also on errors, as the code does
    through its [GList **]. *)

From stdpp Require Import pretty.
From S2P Require Import Prelude Hex FsObj Paths FsMgr Walk.

Inductive diff_status :=
  | DIFF_STATUS_ADDED | DIFF_STATUS_DELETED | DIFF_STATUS_MODIFIED | DIFF_STATUS_RENAMED
  | DIFF_STATUS_UNMERGED | DIFF_STATUS_DIR_ADDED | DIFF_STATUS_DIR_DELETED
  | DIFF_STATUS_DIR_RENAMED.

Inductive diff_type := DIFF_TYPE_WORKTREE | DIFF_TYPE_INDEX | DIFF_TYPE_COMMITS.

#[global] Instance diff_status_eq_dec : EqDecision diff_status.
Proof. solve_decision. Defined.
#[global] Instance diff_type_eq_dec : EqDecision diff_type.
Proof. solve_decision. Defined.

(** The character of a status, and of a type. *)
Definition status_char (s : diff_status) : string :=
  match s with
  | DIFF_STATUS_ADDED => "A" | DIFF_STATUS_DELETED => "D" | DIFF_STATUS_MODIFIED => "M"
  | DIFF_STATUS_RENAMED => "R" | DIFF_STATUS_UNMERGED => "U" | DIFF_STATUS_DIR_ADDED => "B"
  | DIFF_STATUS_DIR_DELETED => "C" | DIFF_STATUS_DIR_RENAMED => "E"
  end.

Definition type_char (t : diff_type) : string :=
  match t with DIFF_TYPE_WORKTREE => "W" | DIFF_TYPE_INDEX => "I" | DIFF_TYPE_COMMITS => "C" end.

Record DiffEntry := mkDE {
  de_type : diff_type;
  de_status : diff_status;
  de_unmerge_state : Z;
  de_sha1 : list Z;
  de_name : string;
  de_new_name : option string;
  de_size : Z;
  de_origin_size : Z
}.

#[global] Instance DiffEntry_eq_dec : EqDecision DiffEntry.
Proof. solve_decision. Defined.

Definition diff_entry_new (type : diff_type) (status : diff_status) (sha1 : list Z)
    (name : string) : DiffEntry :=
  mkDE type status 0 sha1 name None 0 0.

(** The raw id is what [hex_to_rawdata] writes (all 20 bytes for a valid id). *)
Definition diff_entry_new_from_dirent (type : diff_type) (status : diff_status)
    (dent : SeafDirent) (basedir : string) : DiffEntry :=
  mkDE type status 0 (snd (hex_to_rawdata (d_id dent) 20)) (basedir +:+ d_name dent) None
    (d_size dent) 0.

Definition set_origin_size (de : DiffEntry) (size : Z) : DiffEntry :=
  mkDE (de_type de) (de_status de) (de_unmerge_state de) (de_sha1 de) (de_name de)
    (de_new_name de) (de_size de) size.

Definition set_new_name (de : DiffEntry) (name : string) : DiffEntry :=
  mkDE (de_type de) (de_status de) (de_unmerge_state de) (de_sha1 de) (de_name de)
    (Some name) (de_size de) (de_origin_size de).

Definition dirent_same (denta dentb : SeafDirent) : bool :=
  (strcmp (d_id dentb) (d_id denta) =? 0) &&
  (d_mode denta =? d_mode dentb) && (d_mtime denta =? d_mtime dentb).

(** ** The parallel walk *)

Section diff.
Context {D : Type}.
(** [opt->file_cb] and [opt->dir_cb]; the latter gives its [*recurse] too. *)
Context (file_cb : string -> list (option SeafDirent) -> D -> Z * D).
Context (dir_cb : string -> list (option SeafDirent) -> D -> Z * bool * D).
Context (st : fs_store) (version : Z).

(** The entries of a kind, in their positions. *)
Definition only (kind : Z -> bool) (od : option SeafDirent) : option SeafDirent :=
  match od with Some d => if kind (d_mode d) then Some d else None | None => None end.

Definition of_mode (kind : Z -> bool) (dents : list (option SeafDirent)) : list (option SeafDirent) :=
  only kind <$> dents.

Definition none_of (dents : list (option SeafDirent)) : bool :=
  forallb (fun od => match od with Some _ => false | None => true end) dents.

Definition diff_files (dents : list (option SeafDirent)) (basedir : string) (data : D) : Z * D :=
  let files := of_mode S_ISREG dents in
  if none_of files then (0, data) else file_cb basedir files data.

(** The directories of the entries; [None] when one cannot be read. *)
Fixpoint load_sub_dirs (dents : list (option SeafDirent)) : option (list (option SeafDir)) :=
  match dents with
  | [] => Some []
  | od :: dents =>
      match od with
      | Some d =>
          if S_ISDIR (d_mode d) then
            match seaf_fs_manager_get_seafdir st version (d_id d) with
            | None => None
            | Some dir => dirs ← load_sub_dirs dents; Some (Some dir :: dirs)
            end
          else dirs ← load_sub_dirs dents; Some (None :: dirs)
      | None => dirs ← load_sub_dirs dents; Some (None :: dirs)
      end
  end.

(** [dirname]: the name of the last directory among the entries. *)
Definition last_dir_name (dents : list (option SeafDirent)) : string :=
  foldl (fun acc od => match od with
                       | Some d => if S_ISDIR (d_mode d) then d_name d else acc
                       | None => acc
                       end) EmptyString dents.

Definition diff_directories (rec : list (option SeafDir) -> string -> D -> option (Z * D))
    (dents : list (option SeafDirent)) (basedir : string) (data : D) : option (Z * D) :=
  let dirs := of_mode S_ISDIR dents in
  if none_of dirs then Some (0, data)
  else
    let '(ret, recurse, data) := dir_cb basedir dirs data in
    if ret <? 0 then Some (ret, data)
    else if negb recurse then Some (0, data)
    else match load_sub_dirs dents with
         | None => Some (-1, data)
         | Some sub_dirs => rec sub_dirs (basedir +:+ last_dir_name dents +:+ "/") data
         end.

(** The entries the loop skips: the same in all two or three trees. *)
Definition all_same (dents : list (option SeafDirent)) : bool :=
  match dents with
  | [Some d0; Some d1] => dirent_same d0 d1
  | [Some d0; Some d1; Some d2] => dirent_same d0 d1 && dirent_same d0 d2
  | _ => false
  end.

Fixpoint diff_trees_recursive (fuel : nat) (trees : list (option SeafDir)) (basedir : string)
    (data : D) : option (Z * D) :=
  match fuel with
  | O => None
  | S fuel =>
      walk (fun dents ret data =>
              if all_same dents then Some (ret, data)
              else
                let '(ret, data) := diff_files dents basedir data in
                if ret <? 0 then Some (ret, data)
                else diff_directories (diff_trees_recursive fuel) dents basedir data)
        ((fun ot => match ot with Some t => entries t | None => [] end) <$> trees) 0 data
  end.

Fixpoint load_roots (roots : list string) : option (list (option SeafDir)) :=
  match roots with
  | [] => Some []
  | root :: roots =>
      match seaf_fs_manager_get_seafdir st version root with
      | None => None
      | Some dir => dirs ← load_roots roots; Some (Some dir :: dirs)
      end
  end.

Definition diff_trees (fuel : nat) (roots : list string) (data : D) : option (Z * D) :=
  let n := length roots in
  if negb ((n =? 2) || (n =? 3))%nat then Some (-1, data)
  else match load_roots roots with
       | None => Some (-1, data)
       | Some trees => diff_trees_recursive fuel trees EmptyString data
       end.
End diff.

(** ** The callbacks: [DiffData] is the result list and [fold_dir_diff] *)

Definition twoway_diff_files (basedir : string) (files : list (option SeafDirent))
    (results : list DiffEntry) : Z * list DiffEntry :=
  match files with
  | [None; Some tree2] =>
      (0, diff_entry_new_from_dirent DIFF_TYPE_COMMITS DIFF_STATUS_ADDED tree2 basedir :: results)
  | [Some tree1; None] =>
      (0, diff_entry_new_from_dirent DIFF_TYPE_COMMITS DIFF_STATUS_DELETED tree1 basedir :: results)
  | [Some tree1; Some tree2] =>
      (0, if negb (dirent_same tree1 tree2) then
            set_origin_size
              (diff_entry_new_from_dirent DIFF_TYPE_COMMITS DIFF_STATUS_MODIFIED tree2 basedir)
              (d_size tree1) :: results
          else results)
  | _ => (0, results)
  end.

Definition twoway_diff_dirs (fold_dir_diff : bool) (basedir : string)
    (dirs : list (option SeafDirent)) (results : list DiffEntry) : Z * bool * list DiffEntry :=
  match dirs with
  | [None; Some tree2] =>
      if (strcmp (d_id tree2) EMPTY_SHA1 =? 0) || fold_dir_diff then
        (0, false,
         diff_entry_new_from_dirent DIFF_TYPE_COMMITS DIFF_STATUS_DIR_ADDED tree2 basedir :: results)
      else (0, true, results)
  | [Some tree1; None] =>
      (0, negb fold_dir_diff,
       diff_entry_new_from_dirent DIFF_TYPE_COMMITS DIFF_STATUS_DIR_DELETED tree1 basedir :: results)
  | _ => (0, true, results)
  end.

Definition threeway_diff_files (basedir : string) (files : list (option SeafDirent))
    (results : list DiffEntry) : Z * list DiffEntry :=
  let modified m :=
    diff_entry_new_from_dirent DIFF_TYPE_COMMITS DIFF_STATUS_MODIFIED m basedir :: results in
  (0, match files with
      | [Some m; Some p1; Some p2] =>
          if negb (dirent_same m p1) && negb (dirent_same m p2) then modified m else results
      | [None; Some p1; Some p2] =>
          diff_entry_new_from_dirent DIFF_TYPE_COMMITS DIFF_STATUS_DELETED p1 basedir :: results
      | [Some m; None; Some p2] => if negb (dirent_same m p2) then modified m else results
      | [Some m; Some p1; None] => if negb (dirent_same m p1) then modified m else results
      | [Some m; None; None] =>
          diff_entry_new_from_dirent DIFF_TYPE_COMMITS DIFF_STATUS_ADDED m basedir :: results
      | _ => results
      end).

Definition threeway_diff_dirs (basedir : string) (dirs : list (option SeafDirent))
    (results : list DiffEntry) : Z * bool * list DiffEntry :=
  (0, true, results).

(** ** Renames: [GList] links are entries tagged with their identity *)

Abbreviation link := (nat * DiffEntry)%type.

Definition delete_link (i : nat) (l : list link) : list link :=
  filter (fun p => fst p <> i) l.

Definition empty_sha1 : list Z := replicate 20 0.
Definition is_empty_sha1 (de : DiffEntry) : bool := bool_decide (de_sha1 de = empty_sha1).
Definition has_status (s : diff_status) (de : DiffEntry) : bool := bool_decide (de_status de = s).

(** The number of entries of a status with empty content, in an [unsigned int]. *)
Definition empty_count (s : diff_status) (l : list DiffEntry) : Z :=
  foldl (fun n de => if is_empty_sha1 de && has_status s de then u32 (n + 1) else n) 0 l.

(** One "deleted" entry of each content; a later link replaces an earlier one. *)
Definition collect_deleted (s : diff_status) (check_empty : bool) (l : list link)
  : gmap (list Z) link :=
  foldl (fun tbl p =>
           if has_status s (snd p) then
             if is_empty_sha1 (snd p) && negb check_empty then tbl
             else <[de_sha1 (snd p) := p]> tbl
           else tbl) ∅ l.

(** The list of the "added" entries, built by prepending. *)
Definition collect_added (check_empty_file check_empty_dir : bool) (l : list link) : list link :=
  foldl (fun added p =>
           if has_status DIFF_STATUS_ADDED (snd p) then
             if is_empty_sha1 (snd p) && negb check_empty_file then added else p :: added
           else if has_status DIFF_STATUS_DIR_ADDED (snd p) then
             if is_empty_sha1 (snd p) && negb check_empty_dir then added else p :: added
           else added) [] l.

Record rename_state := mkRS {
  rs_entries : list link;
  deleted_files : gmap (list Z) link;
  deleted_dirs : gmap (list Z) link;
  rs_next : nat
}.

Definition rename_of (de_del de_add : DiffEntry) : DiffEntry :=
  set_new_name
    (diff_entry_new (de_type de_del)
       (if has_status DIFF_STATUS_DIR_ADDED de_add then DIFF_STATUS_DIR_RENAMED
        else DIFF_STATUS_RENAMED) (de_sha1 de_del) (de_name de_del))
    (de_name de_add).

Definition resolve_step (s : rename_state) (p_add : link) : rename_state :=
  let de_add := snd p_add in
  let p_del := if has_status DIFF_STATUS_ADDED de_add then deleted_files s !! de_sha1 de_add
               else deleted_dirs s !! de_sha1 de_add in
  match p_del with
  | None => s
  | Some (i_del, de_del) =>
      let l := delete_link i_del (delete_link (fst p_add) (rs_entries s)) in
      let l := (rs_next s, rename_of de_del de_add) :: l in
      if has_status DIFF_STATUS_DIR_DELETED de_del then
        mkRS l (deleted_files s) (delete (de_sha1 de_add) (deleted_dirs s)) (S (rs_next s))
      else
        mkRS l (delete (de_sha1 de_add) (deleted_files s)) (deleted_dirs s) (S (rs_next s))
  end.

Definition links_of (l : list DiffEntry) : list link := imap pair l.

Definition diff_resolve_renames (diff_entries : list DiffEntry) : list DiffEntry :=
  let check_empty_dir :=
    (empty_count DIFF_STATUS_DIR_DELETED diff_entries =? 1) &&
    (empty_count DIFF_STATUS_DIR_ADDED diff_entries =? 1) in
  let check_empty_file :=
    (empty_count DIFF_STATUS_DELETED diff_entries =? 1) &&
    (empty_count DIFF_STATUS_ADDED diff_entries =? 1) in
  let l := links_of diff_entries in
  let files := collect_deleted DIFF_STATUS_DELETED check_empty_file l in
  let dirs := collect_deleted DIFF_STATUS_DIR_DELETED check_empty_dir l in
  let added := collect_added check_empty_file check_empty_dir l in
  snd <$> rs_entries (foldl resolve_step (mkRS l files dirs (length l)) added).

(** ** The entry points *)

Definition diff_commit_roots (st : fs_store) (version : Z) (fuel : nat) (root1 root2 : string)
    (results : list DiffEntry) (fold_dir_diff : bool) : option (Z * list DiffEntry) :=
  match diff_trees twoway_diff_files (twoway_diff_dirs fold_dir_diff) st version fuel
          [root1; root2] results with
  | None => None
  | Some (rc, results) =>
      Some (if rc <? 0 then (-1, results) else (0, diff_resolve_renames results))
  end.

(** [repo_version]: [None] when the repo of the first commit cannot be found. *)
Definition diff_commits (st : fs_store) (repo_version : option Z) (fuel : nat)
    (commit1_root commit2_root : string) (results : list DiffEntry) (fold_dir_diff : bool)
  : option (Z * list DiffEntry) :=
  match repo_version with
  | None => Some (-1, results)
  | Some version =>
      match diff_trees twoway_diff_files (twoway_diff_dirs fold_dir_diff) st version fuel
              [commit1_root; commit2_root] results with
      | None => None
      | Some (rc, results) =>
          Some (if rc <? 0 then (-1, results) else (0, diff_resolve_renames results))
      end
  end.

(** The merged commit's root, and the parents': [None] when the merge has no
    such parent, [Some None] when the parent cannot be read. *)
Definition diff_merge (st : fs_store) (repo_version : option Z) (fuel : nat) (merged_root : string)
    (parent1 parent2 : option (option string)) (results : list DiffEntry)
  : option (Z * list DiffEntry) :=
  if negb (length results =? 0)%nat then Some (-1, results)
  else match parent1, parent2 with
  | Some parent1, Some parent2 =>
      match repo_version with
      | None => Some (-1, results)
      | Some version =>
          match parent1 with
          | None => Some (-1, results)
          | Some p1_root =>
              match parent2 with
              | None => Some (-1, results)
              | Some p2_root =>
                  match diff_trees threeway_diff_files threeway_diff_dirs st version fuel
                          [merged_root; p1_root; p2_root] results with
                  | None => None
                  | Some (ret, results) => Some (ret, diff_resolve_renames results)
                  end
              end
          end
      end
  | _, _ => Some (-1, results)
  end.

(** The return value of [diff_trees] is dropped. *)
Definition diff_merge_roots (st : fs_store) (version : Z) (fuel : nat)
    (merged_root p1_root p2_root : string) (results : list DiffEntry)
  : option (Z * list DiffEntry) :=
  if negb (length results =? 0)%nat then Some (-1, results)
  else match diff_trees threeway_diff_files threeway_diff_dirs st version fuel
               [merged_root; p1_root; p2_root] results with
       | None => None
       | Some (_, results) => Some (0, diff_resolve_renames results)
       end.

(** ** Empty directories *)

(** [strlen (file) > strlen (dir) && strncmp (dir, file, strlen (dir)) == 0] *)
Definition name_extends (dir_name file_name : string) : bool :=
  (String.length dir_name <? String.length file_name)%nat && String.prefix dir_name file_name.

Definition is_redundant_empty_dir (de_dir de_file : DiffEntry) : bool :=
  if has_status DIFF_STATUS_DIR_ADDED de_dir && has_status DIFF_STATUS_DELETED de_file &&
     name_extends (de_name de_dir) (de_name de_file) then true
  else
    has_status DIFF_STATUS_DIR_DELETED de_dir && has_status DIFF_STATUS_ADDED de_file &&
    name_extends (de_name de_dir) (de_name de_file).

Definition diff_resolve_empty_dirs (diff_entries : list DiffEntry) : list DiffEntry :=
  let l := links_of diff_entries in
  let empty_dirs :=
    foldl (fun dirs p =>
             if has_status DIFF_STATUS_DIR_ADDED (snd p) || has_status DIFF_STATUS_DIR_DELETED (snd p)
             then p :: dirs else dirs) [] l in
  snd <$> foldl (fun l dir =>
             if existsb (fun file => is_redundant_empty_dir (snd dir) (snd file)) l
             then delete_link (fst dir) l else l) l empty_dirs.

(** ** Presentation *)

Definition diff_unmerged_state (mask : Z) : Z :=
  match Z.shiftr mask 1 with
  | 7 => 1 | 3 => 4 | 5 => 3 | 6 => 2 | 2 => 5 | 4 => 6 | _ => 0
  end.

Definition newline : string := String (Ascii.ascii_of_nat 10) EmptyString.
Definition quote : string := String (Ascii.ascii_of_nat 34) EmptyString.

(** [%d] of an [int], [%u] of a length *)
Definition fmt_d (z : Z) : string := pretty z.
Definition fmt_u (n : nat) : string := pretty (Z.of_nat n).

Definition format_diff_results (results : list DiffEntry) : string :=
  foldl (fun fmt_status de =>
    fmt_status +:+ type_char (de_type de) +:+ " " +:+ status_char (de_status de) +:+ " " +:+
    fmt_d (de_unmerge_state de) +:+ " " +:+ fmt_u (String.length (de_name de)) +:+ " " +:+
    de_name de +:+
    (if negb (has_status DIFF_STATUS_RENAMED de) then newline
     else let new_name := default EmptyString (de_new_name de) in
          " " +:+ fmt_u (String.length new_name) +:+ " " +:+ new_name +:+ newline))
    EmptyString results.

Definition get_basename (path : string) : string :=
  match split_last path with None => path | Some (_, name) => name end.

(** The first entry counted by a predicate, and how many there are. *)
Definition first_count (P : DiffEntry -> bool) (results : list DiffEntry) : string * Z :=
  foldl (fun acc de => if P de then (if snd acc =? 0 then get_basename (de_name de) else fst acc,
                                     snd acc + 1)
                       else acc) (EmptyString, 0) results.

Definition describe (one_pre one_post many_pre many_post : string) (c : string * Z) : string :=
  let '(name, n) := c in
  if n =? 1 then one_pre +:+ quote +:+ name +:+ quote +:+ one_post +:+ newline
  else if 1 <? n then
    many_pre +:+ quote +:+ name +:+ quote +:+ " and " +:+ fmt_d (n - 1) +:+ many_post +:+ newline
  else EmptyString.

Definition diff_results_to_description (results : list DiffEntry) : option string :=
  match results with
  | [] => None
  | _ =>
      let count P := first_count P results in
      Some
        (describe "Added or modified " "." "Added or modified " " more files."
           (count (fun de => has_status DIFF_STATUS_ADDED de || has_status DIFF_STATUS_MODIFIED de)) +:+
         describe "Deleted " "." "Deleted " " more files." (count (has_status DIFF_STATUS_DELETED)) +:+
         describe "Renamed " "." "Renamed " " more files." (count (has_status DIFF_STATUS_RENAMED)) +:+
         describe "Added directory " "." "Added " " more directories."
           (count (has_status DIFF_STATUS_DIR_ADDED)) +:+
         describe "Removed directory " "." "Removed " " more directories."
           (count (has_status DIFF_STATUS_DIR_DELETED)) +:+
         describe "Renamed directory " "." "Renamed " " more directories."
           (count (has_status DIFF_STATUS_DIR_RENAMED)))
  end.

(** ** What the two-way diff reports *)

(** The node at a path of a tree, the path as the list of its names. *)
Definition sub_dir (st : fs_store) (version : Z) (oe : option SeafDirent) : option SeafDir :=
  match oe with
  | Some e => if S_ISDIR (d_mode e) then seaf_fs_manager_get_seafdir st version (d_id e) else None
  | None => None
  end.

Fixpoint node_in (st : fs_store) (version : Z) (od : option SeafDir) (path : list string)
  : option SeafDirent :=
  match od, path with
  | Some d, nm :: path =>
      let oe := lookup_name nm (entries d) in
      match path with [] => oe | _ => node_in st version (sub_dir st version oe) path end
  | _, _ => None
  end.

Fixpoint join (path : list string) : string :=
  match path with
  | [] => EmptyString
  | [nm] => nm
  | nm :: path => nm +:+ "/" +:+ join path
  end.

Definition file_node (oe : option SeafDirent) (e : SeafDirent) : Prop :=
  oe = Some e /\ S_ISREG (d_mode e) = true.
Definition dir_node (oe : option SeafDirent) (e : SeafDirent) : Prop :=
  oe = Some e /\ S_ISDIR (d_mode e) = true.

(** The changes between the nodes of a path: a file added, deleted or modified,
    an empty directory added, a directory deleted. *)
Inductive change (a b : option SeafDirent) : diff_status -> SeafDirent -> Z -> Prop :=
| ch_added e : file_node b e -> (forall x, ~ file_node a x) -> change a b DIFF_STATUS_ADDED e 0
| ch_deleted e : file_node a e -> (forall x, ~ file_node b x) -> change a b DIFF_STATUS_DELETED e 0
| ch_modified e x : file_node b e -> file_node a x ->
    (d_id x, d_mode x, d_mtime x) <> (d_id e, d_mode e, d_mtime e) ->
    change a b DIFF_STATUS_MODIFIED e (d_size x)
| ch_dir_added e : dir_node b e -> (forall x, ~ dir_node a x) -> d_id e = EMPTY_SHA1 ->
    change a b DIFF_STATUS_DIR_ADDED e 0
| ch_dir_deleted e : dir_node a e -> (forall x, ~ dir_node b x) ->
    change a b DIFF_STATUS_DIR_DELETED e 0.

(** The entry that reports a change at a path. *)
Definition report (path : string) (status : diff_status) (e : SeafDirent) (origin : Z) : DiffEntry :=
  mkDE DIFF_TYPE_COMMITS status 0 (snd (hex_to_rawdata (d_id e) 20)) path None (d_size e) origin.

Lemma dirent_same_spec a b :
  dirent_same a b = true <-> (d_id a, d_mode a, d_mtime a) = (d_id b, d_mode b, d_mtime b).
Proof.
  unfold dirent_same. rewrite !andb_true_iff, !Z.eqb_eq, strcmp_eq. split.
  - intros [[-> ->] ->]. done.
  - intros [= -> -> ->]. done.
Qed.

Lemma dirent_same_false a b :
  dirent_same a b = false <-> (d_id a, d_mode a, d_mtime a) <> (d_id b, d_mode b, d_mtime b).
Proof. rewrite <- dirent_same_spec. by destruct (dirent_same a b). Qed.

Section twoway.
Context (st : fs_store) (version : Z) (rank : string -> nat).
Context (Htidy : tidy st version) (Hrank : ranked st version rank).

Abbreviation rec2 := (diff_trees_recursive twoway_diff_files (twoway_diff_dirs false) st version).
Abbreviation node := (node_in st version).
Abbreviation sub := (sub_dir st version).

(** A directory of the store, of bounded rank. *)
Definition stored (k : nat) (od : option SeafDir) : Prop :=
  forall d, od = Some d -> exists id, seaf_fs_manager_get_seafdir st version id = Some d /\
    (rank id < k)%nat.

Definition reported (a b : option SeafDirent) (path : string) (e : DiffEntry) : Prop :=
  exists s d o, change a b s d o /\ e = report path s d o.

Lemma change_none s d o : ~ change None None s d o.
Proof. inversion 1; unfold file_node, dir_node in *; naive_solver. Qed.

Lemma change_same a b s d o : dirent_same a b = true -> ~ change (Some a) (Some b) s d o.
Proof.
  intros [= Hi Hm Ht]%dirent_same_spec H.
  inversion H as [e [He1 He2] Hn|e [He1 He2] Hn|e x [He1 He2] [Hx1 Hx2] Hn
                 |e [He1 He2] Hn He3|e [He1 He2] Hn]; simplify_eq;
    try (eapply Hn; split; [done|congruence]).
  congruence.
Qed.

Lemma node_cons od nm path : path <> [] -> node od (nm :: path) =
  node (sub (match od with Some d => lookup_name nm (entries d) | None => None end)) path.
Proof. destruct od as [d|], path; done. Qed.

(** Trees with the same root have the same nodes: nothing is reported below. *)
Lemma reported_same_below od path p e : ~ reported (node od path) (node od path) p e.
Proof.
  intros (s & d & o & Hc & _). destruct (node od path) as [x|].
  - by apply (change_same x x) in Hc; [|apply dirent_same_spec].
  - by apply change_none in Hc.
Qed.

(** *** One name *)

Definition readable (oe : option SeafDirent) : Prop :=
  forall e, dir_node oe e -> is_Some (seaf_fs_manager_get_seafdir st version (d_id e)).

Definition named (nm : string) (oe : option SeafDirent) : Prop :=
  forall e, oe = Some e -> d_name e = nm.

Definition file_status (s : diff_status) : bool :=
  match s with
  | DIFF_STATUS_ADDED | DIFF_STATUS_DELETED | DIFF_STATUS_MODIFIED => true
  | _ => false
  end.

Lemma node_none path : node None path = None.
Proof. by destruct path. Qed.

Lemma node_empty_dir v path : node (Some (mkDir v EMPTY_SHA1 [])) path = None.
Proof. destruct path as [|nm [|nm' path]]; done. Qed.

Lemma only_file oe : match only S_ISREG oe with
  | Some x => file_node oe x
  | None => forall x, ~ file_node oe x
  end.
Proof.
  unfold file_node. destruct oe as [y|]; [simpl|naive_solver].
  destruct (S_ISREG (d_mode y)) eqn:E; naive_solver congruence.
Qed.

Lemma only_dir oe : match only S_ISDIR oe with
  | Some x => dir_node oe x
  | None => forall x, ~ dir_node oe x
  end.
Proof.
  unfold dir_node. destruct oe as [y|]; [simpl|naive_solver].
  destruct (S_ISDIR (d_mode y)) eqn:E; naive_solver congruence.
Qed.

Lemma file_node_eq oe x y : file_node oe x -> file_node oe y -> x = y.
Proof. unfold file_node. naive_solver. Qed.
Lemma dir_node_eq oe x y : dir_node oe x -> dir_node oe y -> x = y.
Proof. unfold dir_node. naive_solver. Qed.

(** A callback that prepends exactly the reported entries of a kind. *)
Lemma reported_one a b p s d o (kind : diff_status -> bool) :
  change a b s d o -> kind s = true ->
  (forall s' d' o', change a b s' d' o' -> kind s' = true -> s' = s /\ d' = d /\ o' = o) ->
  forall e, e ∈ [report p s d o] <-> reported a b p e /\ kind (de_status e) = true.
Proof.
  intros Hc Hk Hu e. rewrite list_elem_of_singleton. split.
  - intros ->. split; [by exists s, d, o|done].
  - intros [(s' & d' & o' & Hc' & ->) Hk']. by destruct (Hu s' d' o' Hc' Hk') as (-> & -> & ->).
Qed.

Lemma reported_nil a b p (kind : diff_status -> bool) :
  (forall s d o, change a b s d o -> kind s = true -> False) ->
  forall e, e ∈ [] <-> reported a b p e /\ kind (de_status e) = true.
Proof.
  intros Hu e. split; [by intros ?%not_elem_of_nil|].
  intros [(s & d & o & Hc & ->) Hk]. by destruct (Hu s d o Hc Hk).
Qed.

Ltac absent :=
  match goal with
  | H : forall x, ~ file_node ?o x, H2 : file_node ?o _ |- _ => by apply H in H2
  | H : forall x, ~ dir_node ?o x, H2 : dir_node ?o _ |- _ => by apply H in H2
  end.

Ltac pick :=
  let Hc := fresh in
  intros ? ? ? Hc ?; inversion Hc; subst; try done; try (exfalso; absent);
  repeat match goal with
  | H1 : file_node ?o ?x, H2 : file_node ?o ?y |- _ =>
      assert (x = y) as -> by (by eapply file_node_eq); clear H2
  | H1 : dir_node ?o ?x, H2 : dir_node ?o ?y |- _ =>
      assert (x = y) as -> by (by eapply dir_node_eq); clear H2
  end; try done.

Lemma diff_files_reported nm a b base data :
  named nm a -> named nm b ->
  exists new, diff_files twoway_diff_files [a; b] base data = (0, new ++ data) /\
    forall e, e ∈ new <-> reported a b (base +:+ nm) e /\ file_status (de_status e) = true.
Proof.
  intros Ha Hb. unfold diff_files. change (of_mode S_ISREG [a; b]) with [only S_ISREG a; only S_ISREG b].
  pose proof (only_file a) as HA. pose proof (only_file b) as HB.
  destruct (only S_ISREG a) as [x|], (only S_ISREG b) as [y|]; cbn -[Z.eqb].
  - rewrite <- (Hb y (proj1 HB)). destruct (dirent_same x y) eqn:Es; cbn -[Z.eqb].
    + exists []. split; [done|]. apply reported_nil. apply dirent_same_spec in Es. pick.
    + apply dirent_same_false in Es.
      exists [report (base +:+ d_name y) DIFF_STATUS_MODIFIED y (d_size x)]. split; [done|].
      apply reported_one; [by constructor|done|]. pick.
  - rewrite <- (Ha x (proj1 HA)).
    exists [report (base +:+ d_name x) DIFF_STATUS_DELETED x 0]. split; [done|].
    apply reported_one; [by constructor|done|]. pick.
  - rewrite <- (Hb y (proj1 HB)).
    exists [report (base +:+ d_name y) DIFF_STATUS_ADDED y 0]. split; [done|].
    apply reported_one; [by constructor|done|]. pick.
  - exists []. split; [done|]. apply reported_nil. pick.
Qed.
Lemma load_sub_dirs_sub a b :
  readable a -> readable b -> load_sub_dirs st version [a; b] = Some [sub a; sub b].
Proof.
  intros Ha Hb. unfold readable, dir_node in *.
  destruct a as [x|], b as [y|]; simpl;
    repeat match goal with
    | |- context [S_ISDIR (d_mode ?z)] => destruct (S_ISDIR (d_mode z)) eqn:?
    end;
    try (destruct (Ha x ltac:(done)) as [? ->]); try (destruct (Hb y ltac:(done)) as [? ->]); done.
Qed.

Lemma last_dir_name_named nm a b :
  named nm a -> named nm b -> none_of [only S_ISDIR a; only S_ISDIR b] = false ->
  last_dir_name [a; b] = nm.
Proof.
  unfold named, last_dir_name. intros Ha Hb. simpl.
  destruct a as [x|], b as [y|]; simpl;
    repeat match goal with
    | |- context [S_ISDIR (d_mode ?z)] => destruct (S_ISDIR (d_mode z)) eqn:?
    end; naive_solver.
Qed.

Definition reported_below (a b : option SeafDirent) (base nm : string) (e : DiffEntry) : Prop :=
  exists path, reported (node (sub a) path) (node (sub b) path) (base +:+ nm +:+ "/" +:+ join path) e.

Lemma some_dir_loaded a b :
  readable a -> readable b -> none_of [only S_ISDIR a; only S_ISDIR b] = false ->
  is_Some (sub a) \/ is_Some (sub b).
Proof.
  intros Ra Rb Hn. pose proof (only_dir a) as Ha. pose proof (only_dir b) as Hb.
  destruct (only S_ISDIR a) as [x|].
  - left. destruct (Ra x Ha) as [d Hd]. destruct Ha as [-> Hx]. simpl. rewrite Hx, Hd. by eexists.
  - destruct (only S_ISDIR b) as [y|]; [|done].
    right. destruct (Rb y Hb) as [d Hd]. destruct Hb as [-> Hy]. simpl. rewrite Hy, Hd. by eexists.
Qed.

Lemma base_app base nm q : (base +:+ nm +:+ "/") +:+ q = base +:+ nm +:+ "/" +:+ q.
Proof. by rewrite !string_app_assoc. Qed.

Lemma sub_not_dir oe : only S_ISDIR oe = None -> sub oe = None.
Proof. destruct oe as [x|]; [simpl|done]. by destruct (S_ISDIR (d_mode x)). Qed.

Lemma below_nothing a b base nm e :
  (forall path, node (sub a) path = None) -> (forall path, node (sub b) path = None) ->
  ~ reported_below a b base nm e.
Proof.
  intros Ha Hb (path & s & d & o & Hc & _). rewrite Ha, Hb in Hc. by apply change_none in Hc.
Qed.

(** What the recursive call promises for directories of smaller rank. *)
Definition rec_correct (k : nat) : Prop := forall d1 d2 base data,
  stored k d1 -> stored k d2 -> is_Some d1 \/ is_Some d2 -> exists new,
    rec2 k [d1; d2] base data = Some (0, new ++ data) /\
    forall e, e ∈ new <-> exists path, reported (node d1 path) (node d2 path) (base +:+ join path) e.

Lemma diff_directories_reported k nm a b base data :
  rec_correct k -> stored k (sub a) -> stored k (sub b) -> readable a -> readable b ->
  named nm a -> named nm b ->
  exists new,
    diff_directories (twoway_diff_dirs false) st version (rec2 k) [a; b] base data
      = Some (0, new ++ data) /\
    forall e, e ∈ new <-> (reported a b (base +:+ nm) e /\ negb (file_status (de_status e)) = true) \/
                          reported_below a b base nm e.
Proof.
  intros IH Sa Sb Ra Rb Na Nb. unfold diff_directories.
  change (of_mode S_ISDIR [a; b]) with [only S_ISDIR a; only S_ISDIR b].
  rewrite (load_sub_dirs_sub a b Ra Rb).
  pose proof (last_dir_name_named nm a b Na Nb) as Hlast.
  pose proof (only_dir a) as HA. pose proof (only_dir b) as HB.
  pose proof (sub_not_dir a) as Na'. pose proof (sub_not_dir b) as Nb'.
  assert (Hrec : none_of [only S_ISDIR a; only S_ISDIR b] = false -> forall new0,
    (forall e, e ∈ new0 <-> reported a b (base +:+ nm) e /\ negb (file_status (de_status e)) = true) ->
    exists new, rec2 k [sub a; sub b] (base +:+ last_dir_name [a; b] +:+ "/") (new0 ++ data)
        = Some (0, new ++ data) /\
      forall e, e ∈ new <-> (reported a b (base +:+ nm) e /\ negb (file_status (de_status e)) = true) \/
                          reported_below a b base nm e).
  { intros Hn new0 H0. rewrite (Hlast Hn).
    destruct (IH (sub a) (sub b) (base +:+ nm +:+ "/") (new0 ++ data) Sa Sb) as (new & -> & Hnew);
      [by apply some_dir_loaded|].
    exists (new ++ new0). split; [by rewrite app_assoc|]. intros e.
    rewrite elem_of_app, H0, Hnew. unfold reported_below.
    setoid_rewrite base_app. tauto. }
  destruct (only S_ISDIR a) as [x|] eqn:Ex, (only S_ISDIR b) as [y|] eqn:Ey; cbn -[Z.eqb] in *.
  - apply (Hrec eq_refl []). apply (reported_nil _ _ _ (fun s => negb (file_status s))). pick.
  - apply (Hrec eq_refl [diff_entry_new_from_dirent DIFF_TYPE_COMMITS DIFF_STATUS_DIR_DELETED x base]).
    rewrite <- (Na x (proj1 HA)).
    apply (reported_one _ _ _ DIFF_STATUS_DIR_DELETED x 0 (fun s => negb (file_status s)));
      [by constructor|done|]. pick.
  - destruct (Z.eqb_spec (strcmp (d_id y) EMPTY_SHA1) 0) as [E|E]; cbn -[Z.eqb].
    + apply strcmp_eq in E. rewrite <- (Nb y (proj1 HB)).
      exists [report (base +:+ d_name y) DIFF_STATUS_DIR_ADDED y 0]. split; [done|]. intros e.
      rewrite (reported_one a b _ DIFF_STATUS_DIR_ADDED y 0 (fun s => negb (file_status s)));
        [|by constructor|done|pick].
      split; [tauto|]. intros [|Hbelow]; [done|]. exfalso. revert Hbelow.
      apply below_nothing; intros path.
      * rewrite Na' by done. apply node_none.
      * destruct HB as [-> Hd]. unfold sub_dir. rewrite Hd, E. apply node_empty_dir.
    + rewrite strcmp_eq in E.
      apply (Hrec eq_refl []). apply (reported_nil _ _ _ (fun s => negb (file_status s))). pick.
  - exists []. split; [done|]. intros e.
    rewrite (reported_nil a b (base +:+ nm) (fun s => negb (file_status s))); [|pick].
    split; [tauto|]. intros [|Hbelow]; [done|]. exfalso. revert Hbelow.
    apply below_nothing; intros path; [rewrite Na'|rewrite Nb']; try done; apply node_none.
Qed.

Abbreviation body2 k base :=
  (fun dents ret data =>
     if all_same dents then Some (ret, data)
     else
       let '(ret, data) := diff_files twoway_diff_files dents base data in
       if ret <? 0 then Some (ret, data)
       else diff_directories (twoway_diff_dirs false) st version (rec2 k) dents base data).

Lemma body2_reported k nm a b base data :
  rec_correct k -> stored k (sub a) -> stored k (sub b) -> readable a -> readable b ->
  named nm a -> named nm b ->
  exists new, body2 k base [a; b] 0 data = Some (0, new ++ data) /\
    forall e, e ∈ new <-> reported a b (base +:+ nm) e \/ reported_below a b base nm e.
Proof.
  intros IH Sa Sb Ra Rb Na Nb. cbv beta. destruct (all_same [a; b]) eqn:Es.
  - exists []. split; [done|]. intros e. split; [by intros ?%not_elem_of_nil|].
    destruct a as [x|], b as [y|]; try done. cbn in Es.
    intros [(s & d & o & Hc & _)|(path & Hp)]; exfalso.
    + by apply (change_same x y) in Hc.
    + assert (sub (Some x) = sub (Some y)) as Heq.
      { apply dirent_same_spec in Es as [= E1 E2 _]. unfold sub_dir. by rewrite E1, E2. }
      rewrite Heq in Hp. by apply reported_same_below in Hp.
  - destruct (diff_files_reported nm a b base data Na Nb) as (new1 & -> & H1). cbn -[Z.eqb].
    destruct (diff_directories_reported k nm a b base (new1 ++ data)) as (new2 & -> & H2); try done.
    exists (new2 ++ new1). split; [by rewrite app_assoc|]. intros e.
    rewrite elem_of_app, H1, H2. destruct (file_status (de_status e)) eqn:Ef; cbn; [|naive_solver].
    intuition.
Qed.

(** *** The recursion *)

Definition dir_entries (od : option SeafDir) : list SeafDirent :=
  match od with Some t => entries t | None => [] end.

Lemma stored_entry k od nm :
  stored (S k) od ->
  let oe := lookup_name nm (dir_entries od) in
  stored k (sub oe) /\ readable oe /\ named nm oe /\ sorted_entries (dir_entries od).
Proof.
  intros Hs oe. destruct od as [d|]; simpl in oe; subst oe.
  2:{ split_and!; [by intros ?|by intros ? [??]|by intros ?|constructor]. }
  destruct (Hs d eq_refl) as (id & Hid & Hk). split_and!.
  - destruct (lookup_name nm (entries d)) as [e|] eqn:El; [simpl|by intros ?].
    apply lookup_name_Some in El as [Hin _].
    destruct (S_ISDIR (d_mode e)) eqn:Ed; [|by intros ?].
    intros d' Hd'. exists (d_id e). split; [done|]. pose proof (Hrank id d e Hid Hin Ed). lia.
  - intros e [He Hd]. apply lookup_name_Some in He as [Hin _]. by eapply (tidy_closed _ _ Htidy).
  - intros e He. by apply lookup_name_Some in He as [_ ?].
  - by eapply (tidy_sorted _ _ Htidy).
Qed.

Lemma reported_path d1 d2 path p e :
  reported (node d1 path) (node d2 path) p e <->
  exists nm rest, path = nm :: rest /\
    let a := lookup_name nm (dir_entries d1) in
    let b := lookup_name nm (dir_entries d2) in
    (rest = [] /\ reported a b p e \/
     rest <> [] /\ reported (node (sub a) rest) (node (sub b) rest) p e).
Proof.
  destruct path as [|nm rest].
  { split; [|intros (? & ? & ? & _); done]. intros (s & d & o & Hc & _).
    destruct d1, d2; by apply change_none in Hc. }
  assert (Hn : forall od, node od (nm :: rest) =
    match rest with [] => lookup_name nm (dir_entries od)
    | _ => node (sub (lookup_name nm (dir_entries od))) rest end).
  { intros [d|]; [done|]. simpl. destruct rest; [done|]. by rewrite node_none. }
  rewrite !Hn. destruct rest as [|nm' rest]; split.
  - intros H. exists nm, []. split; [done|]. by left.
  - by intros (? & ? & [= <- <-] & [[_ H]|[? _]]).
  - intros H. exists nm, (nm' :: rest). split; [done|]. by right.
  - by intros (? & ? & [= <- <-] & [[? _]|[_ H]]).
Qed.

Lemma reported_nonempty d1 d2 path p e : reported (node d1 path) (node d2 path) p e -> path <> [].
Proof. intros (? & ? & -> & _)%reported_path. done. Qed.

(** The changes of two directories are those of the names they have. *)
Lemma reported_rows d1 d2 base e (rws : list (string * list (option SeafDirent))) :
  (forall nm, nm ∈ fst <$> rws <-> names_of [dir_entries d1; dir_entries d2] nm) ->
  (exists row, row ∈ rws /\
     let a := lookup_name (fst row) (dir_entries d1) in
     let b := lookup_name (fst row) (dir_entries d2) in
     (reported a b (base +:+ fst row) e \/ reported_below a b base (fst row) e)) <->
  exists path, reported (node d1 path) (node d2 path) (base +:+ join path) e.
Proof.
  intros Hnames. split.
  - intros (row & _ & [Hr|(path & Hr)]).
    + exists [fst row]. apply reported_path. exists (fst row), []. split; [done|]. by left.
    + exists (fst row :: path). apply reported_path. exists (fst row), path. split; [done|]. right.
      pose proof (reported_nonempty _ _ _ _ _ Hr). split; [done|]. by destruct path.
  - intros (path & Hr). apply reported_path in Hr as (nm & rest & -> & Hr).
    assert (Hin : nm ∈ fst <$> rws).
    { apply Hnames. unfold names_of. setoid_rewrite elem_of_cons. setoid_rewrite list_elem_of_singleton.
      destruct (lookup_name nm (dir_entries d1)) as [x|] eqn:E1.
      { apply lookup_name_Some in E1 as [? ?]. eauto 10. }
      destruct (lookup_name nm (dir_entries d2)) as [x|] eqn:E2.
      { apply lookup_name_Some in E2 as [? ?]. eauto 10. }
      exfalso. destruct Hr as [[_ (? & ? & ? & Hc & _)]|[_ (? & ? & ? & Hc & _)]].
      - by apply change_none in Hc.
      - simpl in Hc. rewrite !node_none in Hc. by apply change_none in Hc. }
    apply list_elem_of_fmap in Hin as (row & -> & Hrow). exists row. split; [done|].
    destruct Hr as [[-> Hr]|[Hne Hr]]; [by left|right]. exists rest. by destruct rest.
Qed.

Lemma diff_rec_correct k : rec_correct k.
Proof.
  induction k as [|k IH]; intros d1 d2 base data S1 S2 Hsome.
  { exfalso. destruct Hsome as [[d ->]|[d ->]].
    - destruct (S1 d eq_refl) as (? & _ & ?). lia.
    - destruct (S2 d eq_refl) as (? & _ & ?). lia. }
  change (rec2 (S k) [d1; d2] base data)
    with (walk (body2 k base) [dir_entries d1; dir_entries d2] 0 data).
  destruct (walk_rows (body2 k base) [dir_entries d1; dir_entries d2] 0 data)
    as (rws & Hwalk & _ & Hnames & Hrows).
  { repeat constructor; by apply (stored_entry k _ EmptyString). }
  rewrite Hwalk. destruct (fold_rows_collect (body2 k base)
    (fun row e => let a := lookup_name (fst row) (dir_entries d1) in
                  let b := lookup_name (fst row) (dir_entries d2) in
                  reported a b (base +:+ fst row) e \/ reported_below a b base (fst row) e)
    rws) with (st := data) as (new & Hnew & Hin).
  { intros row data' Hrow. rewrite Forall_forall in Hrows. rewrite (Hrows row Hrow).
    destruct (stored_entry k d1 (fst row) S1) as (? & ? & ? & _).
    destruct (stored_entry k d2 (fst row) S2) as (? & ? & ? & _). by apply body2_reported. }
  exists new. split; [done|]. intros e. rewrite Hin. by apply reported_rows.
Qed.
End twoway.

(** ** Renames *)

Definition del_ok (s : diff_status) (check : bool) (p : link) : bool :=
  has_status s (snd p) && negb (is_empty_sha1 (snd p) && negb check).

Definition add_ok (cf cd : bool) (p : link) : bool :=
  if has_status DIFF_STATUS_ADDED (snd p) then negb (is_empty_sha1 (snd p) && negb cf)
  else has_status DIFF_STATUS_DIR_ADDED (snd p) && negb (is_empty_sha1 (snd p) && negb cd).

Lemma collect_deleted_spec s check l :
  (forall sha p, collect_deleted s check l !! sha = Some p ->
     p ∈ l /\ del_ok s check p = true /\ de_sha1 (snd p) = sha) /\
  (forall p, p ∈ l -> del_ok s check p = true -> is_Some (collect_deleted s check l !! de_sha1 (snd p))).
Proof.
  unfold collect_deleted, del_ok. induction l as [|q l [IH1 IH2]] using rev_ind.
  { split; [by intros ? ?|]. intros p Hp. by apply not_elem_of_nil in Hp. }
  rewrite foldl_snoc. set (tbl := foldl _ ∅ l) in *. clearbody tbl.
  setoid_rewrite elem_of_app. setoid_rewrite list_elem_of_singleton.
  destruct (has_status s (snd q)) eqn:Hq; [destruct (is_empty_sha1 (snd q) && negb check) eqn:He|].
  - split; [naive_solver|]. intros p [Hp| ->]; [auto|]. by rewrite Hq, He.
  - split.
    + intros sha p. rewrite lookup_insert_Some. intros [[<- <-]|[_ H]]; [|naive_solver].
      rewrite Hq, He. auto.
    + intros p [Hp| ->] Hok; [|rewrite lookup_insert_eq; by eexists].
      rewrite lookup_insert_is_Some. destruct (decide (de_sha1 (snd q) = de_sha1 (snd p))); auto.
  - split; [naive_solver|]. intros p [Hp| ->]; [auto|]. by rewrite Hq.
Qed.

Lemma collect_added_filter cf cd l :
  collect_added cf cd l = reverse (filter (fun p => add_ok cf cd p = true) l).
Proof.
  unfold collect_added, add_ok. induction l as [|q l IH] using rev_ind; [done|].
  rewrite foldl_snoc, IH, filter_app, reverse_app, filter_cons, filter_nil.
  destruct (has_status DIFF_STATUS_ADDED (snd q)); [|destruct (has_status DIFF_STATUS_DIR_ADDED (snd q))];
    try destruct (is_empty_sha1 (snd q)); destruct cf, cd; done.
Qed.

Lemma links_lookup l : snd <$> links_of l = l.
Proof. unfold links_of. rewrite fmap_imap. apply list_eq. intros i. rewrite list_lookup_imap. by destruct (l !! i). Qed.

Lemma links_ids l : fst <$> links_of l = seq 0 (length l).
Proof.
  unfold links_of. rewrite fmap_imap. apply list_eq. intros i. rewrite list_lookup_imap.
  destruct (l !! i) eqn:E; simpl.
  - apply lookup_lt_Some in E. symmetry. by apply lookup_seq_lt.
  - apply lookup_ge_None in E. symmetry. by apply lookup_seq_ge.
Qed.

Section renames.
Context (links : list link) (Hids : fst <$> links = seq 0 (length links)).
Context (files dirs : gmap (list Z) link).

Lemma link_id_lt p : p ∈ links -> (fst p < length links)%nat.
Proof. intros H. apply (list_elem_of_fmap_2 fst) in H. rewrite Hids in H. apply elem_of_seq in H. lia. Qed.

Lemma links_NoDup : NoDup (fst <$> links).
Proof. rewrite Hids. apply NoDup_seq. Qed.

Lemma link_id_inj p q : p ∈ links -> q ∈ links -> fst p = fst q -> p = q.
Proof.
  intros (i & Hi)%list_elem_of_lookup (j & Hj)%list_elem_of_lookup E.
  assert (i = j) as ->; [|congruence].
  eapply NoDup_lookup; [apply links_NoDup| |]; rewrite list_lookup_fmap; [by rewrite Hi|].
  rewrite Hj. simpl. by rewrite E.
Qed.

(** The links that pairs of (deleted, added) links use. *)
Definition used (pairs : list (link * link)) : list link := (fst <$> pairs) ++ (snd <$> pairs).

Definition table (s : rename_state) (is_file : bool) : gmap (list Z) link :=
  if is_file then deleted_files s else deleted_dirs s.

Definition table0 (is_file : bool) : gmap (list Z) link := if is_file then files else dirs.

Definition is_file (p : link) : bool := has_status DIFF_STATUS_ADDED (snd p).

(** A deleted and an added link of the same kind and content. *)
Definition rename_pair (pr : link * link) : Prop :=
  de_sha1 (snd (fst pr)) = de_sha1 (snd (snd pr)) /\
  de_status (snd (fst pr)) = (if is_file (snd pr) then DIFF_STATUS_DELETED else DIFF_STATUS_DIR_DELETED) /\
  de_status (snd (snd pr)) = (if is_file (snd pr) then DIFF_STATUS_ADDED else DIFF_STATUS_DIR_ADDED).

Record rename_inv (s : rename_state) (pairs : list (link * link)) (todo : list link) : Prop := {
  ri_entries : exists R, rs_entries s = R ++ filter (fun p => p ∉ used pairs) links /\
    (snd <$> R) = ((fun pr => rename_of (snd (fst pr)) (snd (snd pr))) <$> pairs) /\
    Forall (fun p => (length links <= fst p)%nat) R;
  ri_next : (length links <= rs_next s)%nat;
  ri_used : NoDup (used pairs) /\ used pairs ⊆ links;
  ri_table : forall k sha p, table s k !! sha = Some p ->
    p ∈ links /\ (p ∉ used pairs) /\ (p ∉ todo) /\ de_sha1 (snd p) = sha /\
    de_status (snd p) = if k then DIFF_STATUS_DELETED else DIFF_STATUS_DIR_DELETED;
  ri_todo : NoDup todo /\ forall p, p ∈ todo -> p ∈ links /\ (p ∉ used pairs) /\
    de_status (snd p) = (if is_file p then DIFF_STATUS_ADDED else DIFF_STATUS_DIR_ADDED);
  ri_pairs : Forall rename_pair pairs;
  ri_left : forall k sha, is_Some (table0 k !! sha) -> is_Some (table s k !! sha) \/
    exists pr, pr ∈ pairs /\ is_file (snd pr) = k /\ de_sha1 (snd (snd pr)) = sha
}.
Lemma used_cons p_del p_add pairs q :
  q ∈ used ((p_del, p_add) :: pairs) <-> q = p_del \/ q = p_add \/ q ∈ used pairs.
Proof. unfold used. rewrite !fmap_cons. simpl. set_solver. Qed.

Lemma NoDup_used_cons p_del p_add pairs :
  p_del <> p_add -> p_del ∉ used pairs -> p_add ∉ used pairs -> NoDup (used pairs) ->
  NoDup (used ((p_del, p_add) :: pairs)).
Proof.
  unfold used. rewrite !fmap_cons. simpl. intros Hne Hd Ha (N1 & N2 & N3)%NoDup_app. rewrite elem_of_app in Hd, Ha.
  apply NoDup_cons. rewrite elem_of_app, elem_of_cons. split; [naive_solver|].
  apply NoDup_app. split_and!; [done| |apply NoDup_cons; naive_solver].
  intros x Hx. rewrite elem_of_cons. intros [->|]; naive_solver.
Qed.

Lemma delete_links (R u : list link) (p q : link) :
  p ∈ links -> q ∈ links -> Forall (fun p => (length links <= fst p)%nat) R ->
  delete_link (fst q) (delete_link (fst p) (R ++ filter (fun p => p ∉ u) links)) =
  R ++ filter (fun r => ~ (r = q \/ r = p \/ r ∈ u)) links.
Proof.
  intros Hp Hq HR. unfold delete_link. rewrite !filter_app, !list_filter_filter. f_equal.
  - apply filter_all. rewrite Forall_forall in HR. intros r Hr%HR. simpl in Hr.
    pose proof (link_id_lt p Hp). pose proof (link_id_lt q Hq). split; lia.
  - apply filter_ext_in. intros r Hr. split.
    + naive_solver.
    + intros Hn. split_and!; [| |tauto]; intros E; apply Hn; [left|right; left]; by apply link_id_inj.
Qed.

(** The state after a pair is found. *)
Lemma resolve_step_Some s p p_del :
  table s (is_file p) !! de_sha1 (snd p) = Some p_del ->
  de_status (snd p_del) = (if is_file p then DIFF_STATUS_DELETED else DIFF_STATUS_DIR_DELETED) ->
  rs_entries (resolve_step s p) =
    (rs_next s, rename_of (snd p_del) (snd p)) ::
      delete_link (fst p_del) (delete_link (fst p) (rs_entries s)) /\
  rs_next (resolve_step s p) = S (rs_next s) /\
  forall k, table (resolve_step s p) k =
    if bool_decide (k = is_file p) then delete (de_sha1 (snd p)) (table s k) else table s k.
Proof.
  unfold resolve_step, table, is_file, has_status. intros Ht Hs.
  destruct (bool_decide (de_status (snd p) = DIFF_STATUS_ADDED)); simpl in Ht;
    rewrite Ht; destruct p_del as [i de]; simpl in Hs; rewrite Hs; simpl;
    split_and!; try done; by intros [].
Qed.

Lemma resolve_step_None s p :
  table s (is_file p) !! de_sha1 (snd p) = None -> resolve_step s p = s.
Proof.
  unfold resolve_step, table, is_file.
  by destruct (has_status DIFF_STATUS_ADDED (snd p)); intros ->.
Qed.

Lemma rename_step_Some s pairs p todo p_del :
  rename_inv s pairs (p :: todo) -> table s (is_file p) !! de_sha1 (snd p) = Some p_del ->
  rename_inv (resolve_step s p) ((p_del, p) :: pairs) todo.
Proof.
  intros Hi Ht. destruct Hi as [(R & Hent & HR & HRids) Hnext [Und Usub] Htab [Tnd Tin] Hpairs Hleft].
  destruct (Htab _ _ _ Ht) as (Din & Du & Dt & Dsha & Dst).
  destruct (Tin p ltac:(by left)) as (Pin & Pu & Pst).
  assert (p_del <> p) as Hne by (intros ->; apply Dt; by left).
  destruct (resolve_step_Some s p p_del Ht Dst) as (E1 & E2 & E3).
  apply NoDup_cons in Tnd as [Pt Tnd]. split.
  - exists ((rs_next s, rename_of (snd p_del) (snd p)) :: R).
    rewrite E1, Hent, (delete_links R _ p p_del Pin Din HRids). split_and!.
    + simpl. f_equal. f_equal. apply list_filter_iff. intros x. by rewrite used_cons.
    + rewrite !fmap_cons. by rewrite HR.
    + by constructor.
  - rewrite E2. lia.
  - split; [by apply NoDup_used_cons|]. intros x. rewrite used_cons. naive_solver.
  - intros k sha q. rewrite E3. intros Hq.
    assert (table s k !! sha = Some q /\ q <> p_del) as [Hq' Hqd].
    { case_bool_decide as Hk; [|split; [done|]].
      - apply lookup_delete_Some in Hq as [Hsha Hq]. split; [done|]. intros ->.
        apply Htab in Hq as (_ & _ & _ & ? & _). congruence.
      - intros ->. apply Htab in Hq as (_ & _ & _ & _ & Hst). rewrite Dst in Hst.
        by destruct k, (is_file p). }
    apply Htab in Hq' as (? & ? & Ht' & ? & ?). rewrite used_cons, elem_of_cons in *.
    split_and!; try done; [|tauto]. naive_solver.
  - split; [done|]. intros q Hq. rewrite used_cons.
    destruct (Tin q ltac:(by right)) as (? & Hqu & ?). split_and!; [done| |done].
    intros [->|[->|?]]; [apply Dt; by right|done|done].
  - constructor; [|done]. by split.
  - intros k sha Hk. rewrite E3.
    destruct (decide (k = is_file p /\ sha = de_sha1 (snd p))) as [[-> ->]|Hks].
    { right. exists (p_del, p). split_and!; [by left|done|done]. }
    destruct (Hleft k sha Hk) as [Hs|(pr & Hpr & ?)].
    + left. case_bool_decide; [|done]. rewrite lookup_delete_ne; [done|]. naive_solver.
    + right. exists pr. split; [by right|done].
Qed.

Lemma rename_step s pairs p todo :
  rename_inv s pairs (p :: todo) ->
  exists pairs', rename_inv (resolve_step s p) pairs' todo /\
    (forall pr, pr ∈ pairs -> pr ∈ pairs') /\
    (is_Some (table0 (is_file p) !! de_sha1 (snd p)) ->
     exists pr, pr ∈ pairs' /\ is_file (snd pr) = is_file p /\ de_sha1 (snd (snd pr)) = de_sha1 (snd p)).
Proof.
  intros Hi. destruct (table s (is_file p) !! de_sha1 (snd p)) as [p_del|] eqn:Ht.
  - exists ((p_del, p) :: pairs). split_and!; [by apply rename_step_Some|by right|].
    intros _. exists (p_del, p). split_and!; [by left|done|done].
  - exists pairs. rewrite resolve_step_None by done. split_and!; [|done|].
    + destruct Hi as [He Hn Hu Htab [Tnd Tin] Hp Hl]. split; try done.
      * intros k sha q Hq. apply Htab in Hq. rewrite elem_of_cons in Hq. naive_solver.
      * apply NoDup_cons in Tnd as [_ Tnd]. split; [done|]. intros q Hq. apply Tin. by right.
    + intros H0. destruct Hi as [_ _ _ _ _ _ Hl]. apply Hl in H0 as [[? H0]|H0]; [congruence|done].
Qed.

Lemma rename_steps todo : forall s pairs,
  rename_inv s pairs todo ->
  exists pairs', rename_inv (foldl resolve_step s todo) pairs' [] /\
    (forall pr, pr ∈ pairs -> pr ∈ pairs') /\
    forall p, p ∈ todo -> is_Some (table0 (is_file p) !! de_sha1 (snd p)) ->
     exists pr, pr ∈ pairs' /\ is_file (snd pr) = is_file p /\ de_sha1 (snd (snd pr)) = de_sha1 (snd p).
Proof.
  induction todo as [|q todo IH]; intros s pairs Hi; simpl.
  - exists pairs. split_and!; try done. intros p Hp. by apply not_elem_of_nil in Hp.
  - destruct (rename_step s pairs q todo Hi) as (pairs1 & H1 & S1 & C1).
    destruct (IH _ _ H1) as (pairs2 & H2 & S2 & C2). exists pairs2. split_and!; [done|auto|].
    intros p [->|Hp]%elem_of_cons Hs; [|by apply C2].
    destruct (C1 Hs) as (pr & ? & ? & ?). exists pr. auto.
Qed.
(** *** Empty directories *)

Definition dir_status (p : link) : bool :=
  has_status DIFF_STATUS_DIR_ADDED (snd p) || has_status DIFF_STATUS_DIR_DELETED (snd p).

Definition redundant_in (l : list link) (p : link) : bool :=
  existsb (fun file => is_redundant_empty_dir (snd p) (snd file)) l.

Lemma redundant_dir_file de_dir de_file :
  is_redundant_empty_dir de_dir de_file = true ->
  (has_status DIFF_STATUS_DIR_ADDED de_dir || has_status DIFF_STATUS_DIR_DELETED de_dir = true) /\
  has_status DIFF_STATUS_DIR_ADDED de_file || has_status DIFF_STATUS_DIR_DELETED de_file = false.
Proof.
  unfold is_redundant_empty_dir, has_status. intros H.
  destruct (de_status de_dir), (de_status de_file); done.
Qed.

Lemma redundant_in_plain (l1 l2 : list link) (p : link) :
  (forall q, dir_status q = false -> (q ∈ l1 <-> q ∈ l2)) -> redundant_in l1 p = redundant_in l2 p.
Proof.
  intros H. apply eq_true_iff_eq. unfold redundant_in. rewrite !existsb_exists.
  split; intros (q & Hq & Hr); exists q; (split; [|done]); apply list_elem_of_In in Hq;
    apply list_elem_of_In, (H q); try done; by apply (redundant_dir_file _ _ Hr).
Qed.

Lemma empty_dirs_fold (ds : list link) : forall cur : list link,
  (forall q, q ∈ cur -> q ∈ links) ->
  (forall q, q ∈ links -> dir_status q = false -> q ∈ cur) ->
  (forall d, d ∈ ds -> d ∈ links /\ dir_status d = true) ->
  foldl (fun l dir => if redundant_in l dir then delete_link (fst dir) l else l) cur ds =
  filter (fun p => ~ (p ∈ ds /\ redundant_in links p = true)) cur.
Proof.
  induction ds as [|d ds IH]; intros cur Hsub Hplain Hds; simpl.
  { symmetry. apply filter_all. intros q _ [?%not_elem_of_nil _]. done. }
  destruct (Hds d ltac:(by left)) as [Din Dst].
  rewrite (redundant_in_plain cur links) by (intros q Hq; split; [apply Hsub|intros; by apply Hplain]).
  assert (Hds' : forall d, d ∈ ds -> d ∈ links /\ dir_status d = true) by (intros; apply Hds; by right).
  destruct (redundant_in links d) eqn:Er.
  - rewrite IH; [| | |done].
    + unfold delete_link. rewrite list_filter_filter. apply filter_ext_in. intros q Hq.
      rewrite elem_of_cons. split.
      * intros [Hn Hid] [[->|?] ?]; [done|]. by apply Hn.
      * intros Hn. split; [tauto|]. intros E. apply link_id_inj in E; auto. subst. tauto.
    + intros q [_ Hq]%list_elem_of_filter. auto.
    + intros q Hq Hp. apply list_elem_of_filter. split; [|auto].
      intros E. apply link_id_inj in E; [|done|done]. subst. congruence.
  - rewrite IH by done. apply filter_ext_in. intros q Hq. rewrite elem_of_cons.
    split; [|tauto]. intros Hn [[->|?] ?]; [congruence|]. by apply Hn.
Qed.

Lemma collect_dirs_filter (l : list link) :
  foldl (fun dirs p => if dir_status p then p :: dirs else dirs) [] l =
  reverse (filter (fun p => dir_status p = true) l).
Proof.
  induction l as [|q l IH] using rev_ind; [done|].
  rewrite foldl_snoc, IH, filter_app, reverse_app, filter_cons, filter_nil.
  by destruct (dir_status q).
Qed.
End renames.

(** A deleted and an added entry, both files or both directories, of one content. *)
Definition same_content_kind (del add : DiffEntry) : Prop :=
  de_sha1 del = de_sha1 add /\
  (de_status del = DIFF_STATUS_DELETED /\ de_status add = DIFF_STATUS_ADDED \/
   de_status del = DIFF_STATUS_DIR_DELETED /\ de_status add = DIFF_STATUS_DIR_ADDED).

Lemma rename_inv_init links cf cd :
  fst <$> links = seq 0 (length links) ->
  let files := collect_deleted DIFF_STATUS_DELETED cf links in
  let dirs := collect_deleted DIFF_STATUS_DIR_DELETED cd links in
  rename_inv links files dirs (mkRS links files dirs (length links)) [] (collect_added cf cd links).
Proof.
  intros Hids files dirs.
  assert (Hadd : forall p, p ∈ collect_added cf cd links -> p ∈ links /\
    de_status (snd p) = if is_file p then DIFF_STATUS_ADDED else DIFF_STATUS_DIR_ADDED).
  { intros p. rewrite collect_added_filter, elem_of_reverse, list_elem_of_filter. unfold add_ok, is_file, has_status.
    intros [Hok Hp]. split; [done|]. case_bool_decide; [done|]. by case_bool_decide. }
  assert (Hd : forall k sha p, table (mkRS links files dirs (length links)) k !! sha = Some p ->
    p ∈ links /\ de_sha1 (snd p) = sha /\
    de_status (snd p) = if k then DIFF_STATUS_DELETED else DIFF_STATUS_DIR_DELETED).
  { intros [] sha p Hp; apply collect_deleted_spec in Hp as (? & Hok & ?); unfold del_ok, has_status in Hok;
      split_and!; try done; by case_bool_decide. }
  split; simpl; try done.
  - exists []. split_and!; [|done|done]. simpl. symmetry. apply filter_all. by intros p _ ?%not_elem_of_nil.
  - split; [constructor|]. by intros p ?%not_elem_of_nil.
  - intros k sha p Hp. destruct (Hd k sha p Hp) as (? & ? & E). split_and!; try done.
    + by intros ?%not_elem_of_nil.
    + intros [_ Hs]%Hadd. rewrite E in Hs. by destruct k, (is_file p).
  - split.
    + rewrite collect_added_filter, reverse_Permutation. apply NoDup_filter.
      eapply NoDup_fmap_1. rewrite Hids. apply NoDup_seq.
    + intros p Hp. destruct (Hadd p Hp). split_and!; try done. by intros ?%not_elem_of_nil.
  - intros k sha Hk. by left.
Qed.

Lemma resolve_renames_with cf cd l :
  let links := links_of l in
  let files := collect_deleted DIFF_STATUS_DELETED cf links in
  let dirs := collect_deleted DIFF_STATUS_DIR_DELETED cd links in
  exists (pairs : list (DiffEntry * DiffEntry)) (rest : list DiffEntry),
    snd <$> rs_entries (foldl resolve_step (mkRS links files dirs (length links)) (collect_added cf cd links)) = ((fun pr => rename_of (fst pr) (snd pr)) <$> pairs) ++ rest /\
    rest `sublist_of` l /\
    l ≡ₚ rest ++ (fst <$> pairs) ++ (snd <$> pairs) /\
    Forall (fun pr => same_content_kind (fst pr) (snd pr)) pairs /\
    forall del add, del ∈ l -> add ∈ l -> same_content_kind del add -> de_sha1 add <> empty_sha1 ->
      exists pr, pr ∈ pairs /\ de_sha1 (snd pr) = de_sha1 add /\ de_status (snd pr) = de_status add.
Proof.
  intros links files dirs.
  assert (Hids : fst <$> links = seq 0 (length links)).
  { unfold links. rewrite links_ids. by rewrite <- (links_lookup l), length_fmap at 1. }
  destruct (rename_steps links Hids files dirs (collect_added cf cd links)
    (mkRS links files dirs (length links)) []) as (pairs & Hi & _ & Hcomp).
  { by apply rename_inv_init. }
  destruct Hi as [(R & Hent & HR & _) _ [Und Usub] _ _ Hpairs _].
  exists ((fun pr => (snd (fst pr), snd (snd pr))) <$> pairs), (snd <$> filter (fun p => p ∉ used pairs) links).
  split_and!.
  - rewrite Hent, fmap_app, HR, <- list_fmap_compose. done.
  - rewrite <- (links_lookup l). fold links. apply fmap_sublist, sublist_filter.
  - rewrite <- (links_lookup l). fold links.
    rewrite (filter_out_perm (used pairs) links) at 1;
      [|eapply NoDup_fmap_1, links_NoDup, Hids|done|done].
    unfold used. by rewrite !fmap_app, <- !list_fmap_compose.
  - apply Forall_fmap. eapply Forall_impl; [exact Hpairs|]. intros pr (E1 & E2 & E3).
    simpl in *. split; [done|]. rewrite E2, E3. destruct (is_file (snd pr)); auto.
  - intros del add Hdel Hadd [Hsha Hst] Hne.
    rewrite <- (links_lookup l) in Hdel, Hadd.
    apply list_elem_of_fmap in Hdel as (pdel & -> & Hdel), Hadd as (padd & -> & Hadd).
    destruct (Hcomp padd) as (pr & Hpr & Hk & Hs).
    + rewrite collect_added_filter, elem_of_reverse, list_elem_of_filter. split; [|done].
      unfold add_ok, has_status, is_empty_sha1. rewrite (bool_decide_false _ Hne).
      destruct Hst as [[_ ->]|[_ ->]]; done.
    + rewrite <- Hsha. unfold table0, is_file, has_status.
      assert (Hok : forall s c, de_status (snd pdel) = s -> del_ok s c pdel = true).
      { intros s c Hs. unfold del_ok, has_status, is_empty_sha1.
        rewrite bool_decide_true, bool_decide_false by congruence. done. }
      destruct Hst as [[? ->]|[? ->]]; simpl; by apply collect_deleted_spec, Hok.
    + exists (snd (fst pr), snd (snd pr)). split; [by apply (list_elem_of_fmap_2 (fun pr => (snd (fst pr), snd (snd pr))))|].
      split; [done|]. simpl. rewrite Forall_forall in Hpairs. destruct (Hpairs pr Hpr) as (_ & _ & ->).
      rewrite Hk. unfold is_file, has_status. destruct Hst as [[_ ->]|[_ ->]]; done.
Qed.

Lemma resolve_empty_dirs_filter l :
  diff_resolve_empty_dirs l =
  filter (fun de => ~ Exists (fun file => is_redundant_empty_dir de file = true) l) l.
Proof.
  unfold diff_resolve_empty_dirs. set (links := links_of l).
  assert (Hids : fst <$> links = seq 0 (length links)).
  { unfold links. rewrite links_ids. by rewrite <- (links_lookup l), length_fmap at 1. }
  change (foldl (fun dirs p => _) [] links) with
    (foldl (fun dirs p => if dir_status p then p :: dirs else dirs) [] links).
  rewrite collect_dirs_filter.
  change (foldl (fun l dir => _) links ?ds) with
    (foldl (fun l dir => if redundant_in l dir then delete_link (fst dir) l else l) links ds).
  rewrite (empty_dirs_fold links Hids); [|done|done|].
  2:{ intros d Hd. by apply elem_of_reverse, list_elem_of_filter in Hd as [? ?]. }
  trans (filter (fun de => ~ Exists (fun file => is_redundant_empty_dir de file = true) l)
           (snd <$> links)); [|by unfold links; rewrite links_lookup].
  rewrite filter_fmap. f_equal.
  apply filter_ext_in. intros p Hp. simpl.
  rewrite elem_of_reverse, list_elem_of_filter.
  assert (Hr : redundant_in links p = true <->
    Exists (fun file => is_redundant_empty_dir (snd p) file = true) l).
  { unfold redundant_in. rewrite existsb_exists, Exists_exists.
    assert (Hl : forall x, x ∈ l <-> x ∈ snd <$> links) by (intros x; unfold links; by rewrite links_lookup).
    setoid_rewrite Hl. setoid_rewrite list_elem_of_fmap. setoid_rewrite <- list_elem_of_In. naive_solver. }
  rewrite <- Hr. destruct (redundant_in links p) eqn:E; [|naive_solver].
  enough (dir_status p = true) by naive_solver.
  apply existsb_exists in E as (q & _ & Hq). apply (redundant_dir_file _ _ Hq).
Qed.

Lemma diff_trees_twoway st version rank fuel root1 root2 d1 d2 results :
  tidy st version -> ranked st version rank ->
  seaf_fs_manager_get_seafdir st version root1 = Some d1 ->
  seaf_fs_manager_get_seafdir st version root2 = Some d2 ->
  (rank root1 < fuel)%nat -> (rank root2 < fuel)%nat ->
  exists new,
    diff_trees twoway_diff_files (twoway_diff_dirs false) st version fuel [root1; root2] results
      = Some (0, new ++ results) /\
    forall e, e ∈ new <-> exists path s d o,
      change (node_in st version (Some d1) path) (node_in st version (Some d2) path) s d o /\
      e = report (join path) s d o.
Proof.
  intros Ht Hr H1 H2 F1 F2.
  destruct (diff_rec_correct st version rank Ht Hr fuel (Some d1) (Some d2) EmptyString results)
    as (new & Hd & Hin).
  - intros d [= <-]. eauto.
  - intros d [= <-]. eauto.
  - left. by eexists.
  - exists new. split; [|done]. unfold diff_trees. simpl. by rewrite H1, H2.
Qed.

(** After the renames are resolved an entry is there as it was, or as one side
    of a rename; and every entry that is there is an old one or such a rename. *)
Lemma resolve_renames_entries l :
  (forall e, e ∈ l -> e ∈ diff_resolve_renames l \/
     exists del add, rename_of del add ∈ diff_resolve_renames l /\ same_content_kind del add /\
       (e = del \/ e = add)) /\
  (forall e', e' ∈ diff_resolve_renames l -> e' ∈ l \/
     exists del add, e' = rename_of del add /\ same_content_kind del add /\ del ∈ l /\ add ∈ l).
Proof.
  destruct (resolve_renames_with
    ((empty_count DIFF_STATUS_DELETED l =? 1) && (empty_count DIFF_STATUS_ADDED l =? 1))
    ((empty_count DIFF_STATUS_DIR_DELETED l =? 1) && (empty_count DIFF_STATUS_DIR_ADDED l =? 1)) l)
    as (pairs & rest & E & _ & Hp & Hk & _).
  fold (diff_resolve_renames l) in E. rewrite E. rewrite Forall_forall in Hk.
  assert (Hpair : forall pr, pr ∈ pairs ->
    rename_of (fst pr) (snd pr) ∈ ((fun pr => rename_of (fst pr) (snd pr)) <$> pairs) ++ rest).
  { intros pr Hpr. apply elem_of_app. left.
    by apply (list_elem_of_fmap_2 (fun pr => rename_of (fst pr) (snd pr))) in Hpr. }
  split.
  - intros e He. rewrite Hp, !elem_of_app, !list_elem_of_fmap in He.
    destruct He as [He|[(pr & -> & Hpr)|(pr & -> & Hpr)]].
    + left. apply elem_of_app. by right.
    + right. exists (fst pr), (snd pr). split_and!; [by apply Hpair|by apply Hk|by left].
    + right. exists (fst pr), (snd pr). split_and!; [by apply Hpair|by apply Hk|by right].
  - intros e' [He|He]%elem_of_app.
    + right. apply list_elem_of_fmap in He as (pr & -> & Hpr). exists (fst pr), (snd pr).
      split_and!; [done|by apply Hk| |]; rewrite Hp, !elem_of_app; right; [left|right];
        by apply list_elem_of_fmap_2.
    + left. rewrite Hp, elem_of_app. by left.
Qed.

(** The names alone. *)
Lemma resolve_renames_names l e :
  e ∈ l -> exists e', e' ∈ diff_resolve_renames l /\
    (de_name e' = de_name e \/
     de_new_name e' = Some (de_name e) /\
     (de_status e' = DIFF_STATUS_RENAMED \/ de_status e' = DIFF_STATUS_DIR_RENAMED)).
Proof.
  intros He. destruct (proj1 (resolve_renames_entries l) e He) as [H|(del & add & H & _ & [-> | ->])].
  - exists e. split; [done|by left].
  - exists (rename_of del add). split; [done|by left].
  - exists (rename_of del add). split; [done|right]. split; [done|].
    unfold rename_of. destruct (has_status _ _); [by right|by left].
Qed.

(** ** Theorems *)

(** C29: the two-way diff of two trees (not folding directories) succeeds and
    reports exactly the changes between them: for every path, a file added,
    deleted or modified (other id, mode or mtime), an empty directory added, a
    directory deleted; nothing is missed below unchanged or skipped directories,
    nothing else is reported. *)
Theorem diff_trees_twoway_exact st version rank fuel root1 root2 d1 d2 results :
  tidy st version -> ranked st version rank ->
  seaf_fs_manager_get_seafdir st version root1 = Some d1 ->
  seaf_fs_manager_get_seafdir st version root2 = Some d2 ->
  (rank root1 < fuel)%nat -> (rank root2 < fuel)%nat ->
  exists new,
    diff_trees twoway_diff_files (twoway_diff_dirs false) st version fuel [root1; root2] results
      = Some (0, new ++ results) /\
    forall e, e ∈ new <-> exists path s d o,
      change (node_in st version (Some d1) path) (node_in st version (Some d2) path) s d o /\
      e = report (join path) s d o.
Proof. apply diff_trees_twoway. Qed.

(** resolving renames turns disjoint pairs of a deleted and an added entry
    of the same kind and content into one rename each, in front of the remaining
    entries in their order, so nothing is lost or invented; and every content that
    some entry of a kind added and some entry deleted (other than the empty one)
    gets such a rename. *)
Theorem diff_resolve_renames_correct l :
  exists (pairs : list (DiffEntry * DiffEntry)) (rest : list DiffEntry),
    diff_resolve_renames l = ((fun pr => rename_of (fst pr) (snd pr)) <$> pairs) ++ rest /\
    rest `sublist_of` l /\
    l ≡ₚ rest ++ (fst <$> pairs) ++ (snd <$> pairs) /\
    Forall (fun pr => same_content_kind (fst pr) (snd pr)) pairs /\
    forall del add, del ∈ l -> add ∈ l -> same_content_kind del add -> de_sha1 add <> empty_sha1 ->
      exists pr, pr ∈ pairs /\ de_sha1 (snd pr) = de_sha1 add /\ de_status (snd pr) = de_status add.
Proof. apply resolve_renames_with. Qed.

(** dropping redundant empty directories removes exactly the added (deleted)
    directory entries whose name is a proper prefix of the name of some deleted
    (added) file entry, and keeps everything else in order. *)
Theorem diff_resolve_empty_dirs_correct l :
  diff_resolve_empty_dirs l =
  filter (fun de => ~ Exists (fun file => is_redundant_empty_dir de file = true) l) l.
Proof. apply resolve_empty_dirs_filter. Qed.

(** the prefix test has no path separator in it: an added empty directory is
    dropped because of a deleted file that is not under it, as [foo] for
    [foobar]. *)
Theorem empty_dir_dropped_for_sibling dir file c rest :
  de_status dir = DIFF_STATUS_DIR_ADDED -> de_status file = DIFF_STATUS_DELETED ->
  de_name file = de_name dir +:+ String c rest -> c <> slash ->
  diff_resolve_empty_dirs [dir; file] = [file].
Proof.
  intros Hd Hf Hn _.
  assert (R : is_redundant_empty_dir dir file = true).
  { unfold is_redundant_empty_dir, has_status, name_extends.
    rewrite Hd, Hf, Hn, string_prefix_app, string_length_app. simpl.
    by rewrite (proj2 (Nat.ltb_lt _ _)) by lia. }
  rewrite resolve_empty_dirs_filter, !filter_cons, filter_nil.
  rewrite decide_False, decide_True; [done| |].
  - rewrite !Exists_cons, Exists_nil. unfold is_redundant_empty_dir, has_status. rewrite Hd, Hf. naive_solver.
  - intros Hn'. apply Hn'. right. by left.
Qed.

(** [diff_merge_roots] reports success, with no entries, when a root of the
    merge cannot be read. *)
Theorem diff_merge_roots_ignores_failure st version fuel merged p1 p2 :
  load_roots st version [merged; p1; p2] = None ->
  diff_merge_roots st version fuel merged p1 p2 [] = Some (0, []).
Proof. intros H. unfold diff_merge_roots, diff_trees. simpl length. cbn -[load_roots]. by rewrite H. Qed.

Definition diff_store : fs_store :=
  <[id_1 := ODir (mkDir 1 id_1 [toy_dirent 0x8000 id_3 "f"; toy_dirent 0x4000 id_2 "d"])]>
  (<[id_2 := ODir (mkDir 1 id_2 [toy_dirent 0x8000 id_3 "g"])]>
  (<[id_3 := OFile (mkFile 1 id_3 5 ["blk"])]> ∅)).
Definition diff_rank (id : string) : nat := if String.eqb id id_1 then 1%nat else 0%nat.

Lemma diff_trees_twoway_exact_witness :
  exists new,
    diff_trees twoway_diff_files (twoway_diff_dirs false) diff_store 1 2 [id_1; EMPTY_SHA1] []
      = Some (0, new ++ []) /\ (length new = 3)%nat /\
    report (join ["d"; "g"]) DIFF_STATUS_DELETED (toy_dirent 0x8000 id_3 "g") 0 ∈ new.
Proof.
  destruct (check_store_sound diff_store 1 diff_rank eq_refl) as [T R].
  destruct (diff_trees_twoway_exact diff_store 1 diff_rank 2 id_1 EMPTY_SHA1
    (mkDir 1 id_1 [toy_dirent 0x8000 id_3 "f"; toy_dirent 0x4000 id_2 "d"])
    (mkDir 1 EMPTY_SHA1 []) [] T R eq_refl eq_refl ltac:(vm_compute; lia) ltac:(vm_compute; lia))
    as (new & E & Hin).
  exists new. split; [exact E|]. split.
  - rewrite app_nil_r in E. vm_compute in E. by injection E as <-.
  - apply Hin. exists ["d"; "g"], DIFF_STATUS_DELETED, (toy_dirent 0x8000 id_3 "g"), 0.
    split; [|done]. apply ch_deleted; [done|]. by intros x [? _].
Defined.

Lemma empty_dir_dropped_for_sibling_witness :
  diff_resolve_empty_dirs
    [diff_entry_new DIFF_TYPE_COMMITS DIFF_STATUS_DIR_ADDED empty_sha1 "foo";
     diff_entry_new DIFF_TYPE_COMMITS DIFF_STATUS_DELETED empty_sha1 "foobar"] =
  [diff_entry_new DIFF_TYPE_COMMITS DIFF_STATUS_DELETED empty_sha1 "foobar"].
Proof. by apply (empty_dir_dropped_for_sibling _ _ (Ascii.ascii_of_nat 98) "ar"). Defined.

Lemma diff_merge_roots_ignores_failure_witness :
  diff_merge_roots diff_store 1 2 id_1 id_2 id_3 [] = Some (0, []).
Proof. apply (diff_merge_roots_ignores_failure diff_store 1 2 id_1 id_2 id_3). reflexivity. Defined.
