(* ===== verification/Merge.v ===== *)
(** * Merging trees ([common/merge-new.c], [gen_conflict_path] of [common/vc-common.c])

    [seaf_merge_trees] merges two trees (head and remote) or three (base, head
    and remote).  The walk is that of the diff; each name is merged by the rules
    of [twoway_merge] / [threeway_merge] for files and [merge_directories] for
    directories, which recurses.  Entries renamed in place by a conflict are
    passed on, as the code mutates them. *)

From S2P Require Import Prelude Hex FsObj Paths FsMgr Walk Diff.

(** ** Conflict names *)

Definition dot : Ascii.ascii := Ascii.ascii_of_nat 46.

(** [strrchr (s, c)]: the text before and after the last [c]. *)
Fixpoint split_last_char (c : Ascii.ascii) (s : string) : option (string * string) :=
  match s with
  | EmptyString => None
  | String x s =>
      match split_last_char c s with
      | Some (a, b) => Some (String x a, b)
      | None => if Ascii.eqb x c then Some (EmptyString, s) else None
      end
  end.

Section conflict_name.
(** [strftime ("%Y-%m-%d-%H-%M-%S")] of the local time. *)
Context (strftime : Z -> string).

Definition gen_conflict_path (origin_path : string) (modifier : option string) (mtime : Z) : string :=
  let time_buf := strftime mtime in
  match split_last_char dot origin_path with
  | Some (copy, ext) =>
      match modifier with
      | Some m => copy +:+ " (SFConflict " +:+ m +:+ " " +:+ time_buf +:+ ")." +:+ ext
      | None => copy +:+ " (SFConflict " +:+ time_buf +:+ ")." +:+ ext
      end
  | None =>
      match modifier with
      | Some m => origin_path +:+ " (SFConflict " +:+ m +:+ " " +:+ time_buf +:+ ")"
      | None => origin_path +:+ " (SFConflict " +:+ time_buf +:+ ")"
      end
  end.

(** [get_file_modifier_mtime] of the remote head for a path ([None]: it failed);
    the creator of the remote head commit ([None]: it cannot be read); the nickname
    of a modifier (with [seaf->seahub_pk]); the current time. *)
Context (file_modifier_mtime : string -> option (option string * Z)).
Context (remote_creator : option (option string)).
Context (nickname_of : option string -> option string).
Context (now : Z).

Definition merge_conflict_filename (basedir filename : string) : option string :=
  match file_modifier_mtime (basedir +:+ filename) with
  | Some (modifier, mtime) => Some (gen_conflict_path filename (nickname_of modifier) mtime)
  | None =>
      match remote_creator with
      | None => None
      | Some creator_name => Some (gen_conflict_path filename (nickname_of creator_name) now)
      end
  end.

Definition merge_conflict_dirname (basedir dirname : string) : option string :=
  match remote_creator with
  | None => None
  | Some creator_name => Some (gen_conflict_path dirname (nickname_of creator_name) now)
  end.
End conflict_name.

(** ** The fields of [MergeOptions] the merge writes, and the object store *)

Record merge_state := mkMS {
  ms_store : fs_store;
  merged_tree_root : string;
  visit_dirs : Z;
  conflict : bool
}.

Definition set_conflict (ms : merge_state) : merge_state :=
  mkMS (ms_store ms) (merged_tree_root ms) (visit_dirs ms) true.
Definition set_root (ms : merge_state) (root : string) : merge_state :=
  mkMS (ms_store ms) root (visit_dirs ms) (conflict ms).
Definition set_store (ms : merge_state) (st : fs_store) : merge_state :=
  mkMS st (merged_tree_root ms) (visit_dirs ms) (conflict ms).
Definition visit_dir (ms : merge_state) : merge_state :=
  mkMS (ms_store ms) (merged_tree_root ms) (visit_dirs ms + 1) (conflict ms).

Definition same_id (d1 d2 : SeafDirent) : bool := strcmp (d_id d1) (d_id d2) =? 0.
Definition same_id_opt (od : option SeafDirent) (d : SeafDirent) : bool :=
  match od with Some d0 => same_id d0 d | None => false end.

Section merge.
(** The conflict names of a base directory and a name, the hash of directories,
    and the outcome of writes. *)
Context (conflict_filename conflict_dirname : string -> string -> option string).
Context (dir_hash : Z -> list SeafDirent -> string).
Context (write_ok : string -> bool).
Context (version : Z).

(** The outcome of merging the files of a name: return value, the entries
    (possibly renamed in place), the merged entries, the options. *)
Definition entry_result := (Z * list (option SeafDirent) * list SeafDirent * merge_state)%type.

Definition twoway_merge (basedir : string) (dents : list (option SeafDirent))
    (dents_out : list SeafDirent) (ms : merge_state) : entry_result :=
  match dents with
  | [dent0; dent1] =>
      match only S_ISREG dent0, only S_ISREG dent1 with
      | Some head, Some remote =>
          if same_id head remote then (0, dents, head :: dents_out, ms)
          else match conflict_filename basedir (d_name head) with
               | None => (-1, dents, dents_out, ms)
               | Some conflict_name =>
                   let remote := set_name remote conflict_name in
                   (0, [dent0; Some remote], remote :: head :: dents_out, set_conflict ms)
               end
      | None, Some remote => (0, dents, remote :: dents_out, ms)
      | Some head, None => (0, dents, head :: dents_out, ms)
      | None, None => (0, dents, dents_out, ms)
      end
  | _ => (0, dents, dents_out, ms)
  end.

Definition threeway_merge (dents : list (option SeafDirent)) (basedir : string)
    (dents_out : list SeafDirent) (ms : merge_state) : entry_result :=
  match dents with
  | [dent0; dent1; dent2] =>
      match only S_ISREG dent0, only S_ISREG dent1, only S_ISREG dent2 with
      | base, Some head, Some remote =>
          if same_id head remote then (0, dents, head :: dents_out, ms)
          else if same_id_opt base head then (0, dents, remote :: dents_out, ms)
          else if same_id_opt base remote then (0, dents, head :: dents_out, ms)
          else match conflict_filename basedir (d_name head) with
               | None => (-1, dents, dents_out, ms)
               | Some conflict_name =>
                   let remote := set_name remote conflict_name in
                   (0, [dent0; dent1; Some remote], remote :: head :: dents_out, set_conflict ms)
               end
      | Some base, None, Some remote =>
          if negb (same_id base remote) then
            match dent1 with
            | Some _ =>
                match conflict_filename basedir (d_name remote) with
                | None => (-1, dents, dents_out, ms)
                | Some conflict_name =>
                    let remote := set_name remote conflict_name in
                    (0, [dent0; dent1; Some remote], remote :: dents_out, set_conflict ms)
                end
            | None => (0, dents, remote :: dents_out, ms)
            end
          else (0, dents, dents_out, ms)
      | Some base, Some head, None =>
          if negb (same_id base head) then
            match dent2 with
            | Some d2 =>
                match conflict_dirname basedir (d_name d2) with
                | None => (-1, dents, dents_out, ms)
                | Some conflict_name =>
                    (0, [dent0; dent1; Some (set_name d2 conflict_name)], head :: dents_out,
                     set_conflict ms)
                end
            | None => (0, dents, head :: dents_out, ms)
            end
          else (0, dents, dents_out, ms)
      | None, None, Some remote =>
          match dent1 with
          | None => (0, dents, remote :: dents_out, ms)
          | Some d1 =>
              if same_id_opt dent0 d1 then (0, dents, remote :: dents_out, ms)
              else match conflict_filename basedir (d_name remote) with
                   | None => (-1, dents, dents_out, ms)
                   | Some conflict_name =>
                       let remote := set_name remote conflict_name in
                       (0, [dent0; dent1; Some remote], remote :: dents_out, set_conflict ms)
                   end
          end
      | None, Some head, None =>
          match dent2 with
          | None => (0, dents, head :: dents_out, ms)
          | Some d2 =>
              if same_id_opt dent0 d2 then (0, dents, head :: dents_out, ms)
              else match conflict_dirname basedir (d_name d2) with
                   | None => (-1, dents, dents_out, ms)
                   | Some conflict_name =>
                       (0, [dent0; dent1; Some (set_name d2 conflict_name)], head :: dents_out,
                        set_conflict ms)
                   end
          end
      | _, None, None => (0, dents, dents_out, ms)
      end
  | _ => (0, dents, dents_out, ms)
  end.

Definition merge_entries (dents : list (option SeafDirent)) (basedir : string)
    (dents_out : list SeafDirent) (ms : merge_state) : entry_result :=
  if (length dents =? 2)%nat then twoway_merge basedir dents dents_out ms
  else threeway_merge dents basedir dents_out ms.

(** ** Directories *)

Definition is_dir (od : option SeafDirent) : bool :=
  match od with Some d => S_ISDIR (d_mode d) | None => false end.

(** [dir_mask]: bit [i] is set when the [i]-th entry is a directory. *)
Fixpoint mask_from (i : Z) (dents : list (option SeafDirent)) : Z :=
  match dents with
  | [] => 0
  | od :: dents => Z.lor (if is_dir od then Z.shiftl 1 i else 0) (mask_from (i + 1) dents)
  end.
Definition dir_mask (dents : list (option SeafDirent)) : Z := mask_from 0 dents.

(** What the [switch] on the mask decides: return at once with the given value
    and entries, or go on to merge the sub-directories. *)
Inductive dir_decision := DirReturn (ret : Z) (add : option SeafDirent) | DirRecurse.

Definition decide_directories (dents : list (option SeafDirent)) : dir_decision :=
  match dents with
  | [dent0; dent1; dent2] =>
      let same a b := match a, b with Some a, Some b => same_id a b | _, _ => false end in
      match dir_mask dents with
      | 1 => DirReturn 0 None
      | 2 => DirReturn 0 dent1
      | 3 => if same dent0 dent1 then DirReturn 0 None else DirRecurse
      | 4 => DirReturn 0 dent2
      | 5 => if same dent0 dent2 then DirReturn 0 None else DirRecurse
      | 6 | 7 =>
          if same dent1 dent2 then DirReturn 0 dent1
          else if same dent0 dent1 then DirReturn 0 dent2
          else if same dent0 dent2 then DirReturn 0 dent1
          else DirRecurse
      | _ => DirReturn (-1) None
      end
  | [dent0; dent1] =>
      let same a b := match a, b with Some a, Some b => same_id a b | _, _ => false end in
      match dir_mask dents with
      | 1 => DirReturn 0 dent0
      | 2 => DirReturn 0 dent1
      | 3 => if same dent0 dent1 then DirReturn 0 dent1 else DirRecurse
      | _ => DirReturn (-1) None
      end
  | _ => DirRecurse
  end.

(** The sub-directories; on failure, [None] and the options so far. *)
Fixpoint visit_sub_dirs (dents : list (option SeafDirent)) (ms : merge_state)
  : option (list (option SeafDir)) * merge_state :=
  match dents with
  | [] => (Some [], ms)
  | od :: dents =>
      match od with
      | Some d =>
          if S_ISDIR (d_mode d) then
            match seaf_fs_manager_get_seafdir (ms_store ms) version (d_id d) with
            | None => (None, ms)
            | Some dir =>
                let '(dirs, ms) := visit_sub_dirs dents (visit_dir ms) in
                (dirs ← dirs; Some (Some dir :: dirs), ms)
            end
          else let '(dirs, ms) := visit_sub_dirs dents ms in (dirs ← dirs; Some (None :: dirs), ms)
      | None => let '(dirs, ms) := visit_sub_dirs dents ms in (dirs ← dirs; Some (None :: dirs), ms)
      end
  end.

(** The entry that carries the merged sub-directory. *)
Definition merged_dent (dents : list (option SeafDirent)) : option SeafDirent :=
  match dents with
  | [_; dent1; dent2] =>
      match dir_mask dents with 3 | 6 | 7 => dent1 | 5 => dent2 | _ => None end
  | [_; dent1] => match dir_mask dents with 3 => dent1 | _ => None end
  | _ => None
  end.

Definition prepend_opt (od : option SeafDirent) (l : list SeafDirent) : list SeafDirent :=
  match od with Some d => d :: l | None => l end.

Definition merge_directories
    (rec : list (option SeafDir) -> string -> merge_state -> option (Z * merge_state))
    (dents : list (option SeafDirent)) (basedir : string)
    (dents_out : list SeafDirent) (ms : merge_state)
  : option (Z * list SeafDirent * merge_state) :=
  match decide_directories dents with
  | DirReturn ret add => Some (ret, prepend_opt add dents_out, ms)
  | DirRecurse =>
      match visit_sub_dirs dents ms with
      | (None, ms) => Some (-1, dents_out, ms)
      | (Some sub_dirs, ms) =>
          match rec sub_dirs (basedir +:+ last_dir_name dents +:+ "/") ms with
          | None => None
          | Some (ret, ms) =>
              Some (ret,
                    prepend_opt ((fun d => set_id d (merged_tree_root ms)) <$> merged_dent dents)
                      dents_out, ms)
          end
      end
  end.

(** ** Trees *)

(** [g_list_sort] with [compare_dirents]: a stable sort by descending name. *)
Fixpoint insert_dirent (d : SeafDirent) (l : list SeafDirent) : list SeafDirent :=
  match l with
  | [] => [d]
  | d' :: l' => if strcmp (d_name d') (d_name d) <=? 0 then d :: l else d' :: insert_dirent d l'
  end.
Definition sort_dirents (l : list SeafDirent) : list SeafDirent := foldr insert_dirent [] l.

Definition has_kind (kind : Z -> bool) (dents : list (option SeafDirent)) : bool :=
  existsb (fun od => match od with Some d => kind (d_mode d) | None => false end) dents.

(** The loop body: files first, then directories, the merged entries kept. *)
Definition merge_row (rec : list (option SeafDir) -> string -> merge_state -> option (Z * merge_state))
    (basedir : string) (dents : list (option SeafDirent)) (ret : Z)
    (acc : list SeafDirent * merge_state) : option (Z * (list SeafDirent * merge_state)) :=
  let '(merged_dents, ms) := acc in
  let '(ret, dents, merged_dents, ms) :=
    if has_kind S_ISREG dents then merge_entries dents basedir merged_dents ms
    else (ret, dents, merged_dents, ms) in
  if ret <? 0 then Some (ret, (merged_dents, ms))
  else if has_kind S_ISDIR dents then
    match merge_directories rec dents basedir merged_dents ms with
    | None => None
    | Some (ret, merged_dents, ms) => Some (ret, (merged_dents, ms))
    end
  else Some (ret, (merged_dents, ms)).

(** After the loop: the merged directory, saved unless it is one of the two
    merged ones. *)
Definition finish_tree (trees : list (option SeafDir)) (merged_dents : list SeafDirent) (ret : Z)
    (ms : merge_state) : Z * merge_state :=
  let merged_tree :=
    seaf_dir_new dir_hash (sort_dirents merged_dents) (dir_version_from_repo_version version) in
  let is_tree ot := match ot with
                    | Some t => strcmp (FsObj.dir_id t) (FsObj.dir_id merged_tree) =? 0
                    | None => false
                    end in
  let save ms :=
    let '(ret, st) := seaf_dir_save write_ok (ms_store ms) merged_tree in (ret, set_store ms st) in
  match trees with
  | [_; head; remote] | [head; remote] =>
      let ms := set_root ms (FsObj.dir_id merged_tree) in
      if is_tree head || is_tree remote then (ret, ms) else save ms
  | _ => (ret, ms)
  end.

Fixpoint merge_trees_recursive (fuel : nat) (trees : list (option SeafDir)) (basedir : string)
    (ms : merge_state) : option (Z * merge_state) :=
  match fuel with
  | O => None
  | S fuel =>
      match walk (merge_row (merge_trees_recursive fuel) basedir)
              ((fun ot => match ot with Some t => entries t | None => [] end) <$> trees)
              0 ([], ms) with
      | None => None
      | Some (ret, (merged_dents, ms)) =>
          if ret <? 0 then Some (ret, ms) else Some (finish_tree trees merged_dents ret ms)
      end
  end.

Definition seaf_merge_trees (fuel : nat) (roots : list string) (ms : merge_state)
  : option (Z * merge_state) :=
  let n := length roots in
  if negb ((n =? 2) || (n =? 3))%nat then Some (-1, ms)
  else match load_roots (ms_store ms) version roots with
       | None => Some (-1, ms)
       | Some trees => merge_trees_recursive fuel trees EmptyString ms
       end.
End merge.

(** ** What a merge keeps *)

(** The files under an entry, by path (the entry's name first) and content. *)
Inductive entry_file (st : fs_store) (version : Z) : SeafDirent -> list string -> string -> Prop :=
| ef_file e : S_ISREG (d_mode e) = true -> entry_file st version e [d_name e] (d_id e)
| ef_dir e sub x path f :
    S_ISDIR (d_mode e) = true -> seaf_fs_manager_get_seafdir st version (d_id e) = Some sub ->
    x ∈ entries sub -> entry_file st version x path f ->
    entry_file st version e (d_name e :: path) f.

Definition list_file (st : fs_store) (version : Z) (l : list SeafDirent) (path : list string)
    (f : string) : Prop :=
  exists e, e ∈ l /\ entry_file st version e path f.

(** Every listed directory can be read. *)
Definition closed (st : fs_store) (version : Z) : Prop := forall id dir e,
  seaf_fs_manager_get_seafdir st version id = Some dir -> e ∈ entries dir ->
  S_ISDIR (d_mode e) = true -> is_Some (seaf_fs_manager_get_seafdir st version (d_id e)).

Definition readable_list (st : fs_store) (version : Z) (l : list SeafDirent) : Prop :=
  forall e, e ∈ l -> S_ISDIR (d_mode e) = true ->
  is_Some (seaf_fs_manager_get_seafdir st version (d_id e)).

Lemma get_seafdir_mono st st' version id d :
  st ⊆ st' -> seaf_fs_manager_get_seafdir st version id = Some d ->
  seaf_fs_manager_get_seafdir st' version id = Some d.
Proof.
  unfold seaf_fs_manager_get_seafdir. intros Hs. destruct (String.eqb id EMPTY_SHA1); [done|].
  destruct (st !! id) as [o|] eqn:E; [|done]. by rewrite (lookup_weaken _ _ _ _ E Hs).
Qed.

Lemma entry_file_mono st st' version e path f :
  st ⊆ st' -> entry_file st version e path f -> entry_file st' version e path f.
Proof.
  intros Hs. induction 1 as [e He|e sub x path f He Hsub Hx _ IH]; [by constructor|].
  econstructor; [done| |done|done]. by eapply get_seafdir_mono.
Qed.

Lemma list_file_mono st st' version l path f :
  st ⊆ st' -> list_file st version l path f -> list_file st' version l path f.
Proof. intros Hs (e & ? & ?). exists e. split; [done|]. by eapply entry_file_mono. Qed.

(** In a closed store, growing the store adds no files to what it has. *)
Lemma entry_file_closed st st' version e path f :
  st ⊆ st' -> closed st version -> entry_file st' version e path f ->
  (S_ISDIR (d_mode e) = true -> is_Some (seaf_fs_manager_get_seafdir st version (d_id e))) ->
  entry_file st version e path f.
Proof.
  intros Hs Hc. induction 1 as [e He|e sub x path f He Hsub Hx _ IH]; intros Hr; [by constructor|].
  destruct (Hr He) as [sub' Hsub']. pose proof (get_seafdir_mono _ _ _ _ _ Hs Hsub') as E.
  rewrite E in Hsub. injection Hsub as <-.
  econstructor; [done|done|done|]. apply IH. by apply (Hc _ _ _ Hsub').
Qed.

Lemma list_file_closed st st' version l path f :
  st ⊆ st' -> closed st version -> readable_list st version l ->
  list_file st' version l path f <-> list_file st version l path f.
Proof.
  intros Hs Hc Hr. split; [|by apply list_file_mono].
  intros (e & He & Hf). exists e. split; [done|]. eapply entry_file_closed; eauto.
Qed.

Lemma entry_file_cons st version e path f :
  entry_file st version e path f <-> exists rest, path = d_name e :: rest /\
    ((rest = [] /\ S_ISREG (d_mode e) = true /\ f = d_id e) \/
     (exists sub, S_ISDIR (d_mode e) = true /\
        seaf_fs_manager_get_seafdir st version (d_id e) = Some sub /\
        list_file st version (entries sub) rest f)).
Proof.
  split.
  - inversion 1; subst; eexists; (split; [done|]); [left; done|right].
    eexists. split_and!; try done. by eexists.
  - intros (rest & -> & [(-> & ? & ->)|(sub & ? & ? & x & ? & ?)]); [by constructor|by econstructor].
Qed.

Lemma entry_file_nonempty st version e f : ~ entry_file st version e [] f.
Proof. inversion 1. Qed.

Lemma list_file_app st version l1 l2 path f :
  list_file st version (l1 ++ l2) path f <->
  list_file st version l1 path f \/ list_file st version l2 path f.
Proof. unfold list_file. setoid_rewrite elem_of_app. naive_solver. Qed.

Lemma list_file_perm st version l1 l2 path f :
  l1 ≡ₚ l2 -> list_file st version l1 path f <-> list_file st version l2 path f.
Proof. intros Hp. unfold list_file. by setoid_rewrite Hp. Qed.

(** The files of a sorted list under a name are those of its entry of that name. *)
Lemma list_file_name st version l nm rest f :
  sorted_entries l ->
  list_file st version l (nm :: rest) f <->
  exists e, lookup_name nm l = Some e /\ entry_file st version e (nm :: rest) f.
Proof.
  intros Hs. split.
  - intros (e & He & Hf). exists e. split; [|done].
    assert (nm = d_name e) as -> by (by inversion Hf). by apply lookup_name_sorted.
  - intros (e & [He _]%lookup_name_Some & Hf). by exists e.
Qed.

(** ** Sorting *)

Lemma sort_dirents_perm l : sort_dirents l ≡ₚ l.
Proof.
  induction l as [|d l IH]; [done|]. simpl. rewrite <- IH at 2. clear IH.
  induction (sort_dirents l) as [|d' l' IH]; [done|]. simpl.
  case_match; [done|]. rewrite IH. constructor.
Qed.

(** ** Content-addressed stores *)

Section keeps.
Context (conflict_filename conflict_dirname : string -> string -> option string).
Context (dir_hash : Z -> list SeafDirent -> string).
Context (version : Z).
Abbreviation dv := (dir_version_from_repo_version version).
Abbreviation always := (fun _ : string => true).

(** No two directories have the same id, and none has the empty id. *)
Record collision_free : Prop := {
  cf_inj : forall l1 l2, dir_hash dv l1 = dir_hash dv l2 -> l1 = l2;
  cf_empty : forall l, dir_hash dv l <> EMPTY_SHA1
}.

(** Objects are stored under their ids. *)
Record addressed (st : fs_store) : Prop := {
  ad_dir : forall id d, st !! id = Some (ODir d) -> id = dir_hash dv (entries d) /\ entries d <> [];
  ad_file : forall id f l, st !! id = Some (OFile f) -> id <> dir_hash dv l
}.

(** The store of a merge in progress. *)
Record good (st : fs_store) : Prop := {
  g_addressed : addressed st;
  g_closed : closed st version
}.

Context (Hcf : collision_free).

Abbreviation newid l := (dir_id (seaf_dir_new dir_hash l dv)).

Lemma newid_inj l1 l2 : newid l1 = newid l2 -> l1 = l2.
Proof.
  destruct l1, l2; simpl; try done; intros E.
  - by symmetry in E; apply (cf_empty Hcf) in E.
  - by apply (cf_empty Hcf) in E.
  - by apply (cf_inj Hcf) in E.
Qed.

Lemma get_seafdir_id st id d : seaf_fs_manager_get_seafdir st version id = Some d -> dir_id d = id.
Proof.
  unfold seaf_fs_manager_get_seafdir. destruct (String.eqb_spec id EMPTY_SHA1) as [->|].
  - by intros [= <-].
  - destruct (st !! id) as [[]|]; [|done..]. by intros [= <-].
Qed.

Lemma get_seafdir_newid st id d :
  addressed st -> seaf_fs_manager_get_seafdir st version id = Some d -> id = newid (entries d).
Proof.
  intros Ha. unfold seaf_fs_manager_get_seafdir. destruct (String.eqb_spec id EMPTY_SHA1) as [->|].
  - by intros [= <-].
  - destruct (st !! id) as [[d'|]|] eqn:E; [|done..]. intros [= <-].
    destruct (ad_dir _ Ha _ _ E) as [-> Hne]. simpl. by destruct (entries d').
Qed.

Lemma get_empty st : seaf_fs_manager_get_seafdir st version EMPTY_SHA1 = Some (mkDir version EMPTY_SHA1 []).
Proof. done. Qed.

(** Saving a directory whose sub-directories can be read. *)
Lemma save_dir st l :
  good st -> readable_list st version l ->
  exists st', seaf_dir_save always st (seaf_dir_new dir_hash l dv) = (0, st') /\
    st ⊆ st' /\ good st' /\
    exists m, seaf_fs_manager_get_seafdir st' version (newid l) = Some m /\ entries m = l.
Proof.
  intros [Ha Hc] Hr. unfold seaf_dir_save. destruct l as [|e l].
  { exists st. split_and!; [done|done|by split|]. by eexists. }
  cbn [seaf_dir_new dir_id]. set (id := dir_hash dv (e :: l)).
  assert (id <> EMPTY_SHA1) as Hne by apply (cf_empty Hcf).
  rewrite (proj2 (String.eqb_neq _ _) Hne).
  assert (Hget : forall st' d, st' !! id = Some (ODir d) -> entries d = e :: l ->
    exists m, seaf_fs_manager_get_seafdir st' version id = Some m /\ entries m = e :: l).
  { intros st' d E El. unfold seaf_fs_manager_get_seafdir.
    rewrite (proj2 (String.eqb_neq _ _) Hne), E. by eexists. }
  destruct (st !! id) as [o|] eqn:E.
  - exists st. split_and!; [done|done|by split|]. destruct o as [d|f].
    + apply (Hget _ d E). destruct (ad_dir _ Ha _ _ E) as [Hid _].
      by apply (cf_inj Hcf) in Hid.
    + by pose proof (ad_file _ Ha _ _ (e :: l) E).
  - eexists. split; [done|]. set (st' := <[id := _]> st).
    assert (Hsub : st ⊆ st') by by apply insert_subseteq.
    split_and!; [done| |].
    + split.
      * split.
        -- intros id' d. unfold st'. rewrite lookup_insert_Some. intros [[<- [= <-]]|[_ H]]; [done|].
           by apply (ad_dir _ Ha).
        -- intros id' f l'. unfold st'. rewrite lookup_insert_Some. intros [[_ [=]]|[_ H]].
           by apply (ad_file _ Ha _ _ _ H).
      * intros id' d x Hd Hx Hdir. assert (is_Some (seaf_fs_manager_get_seafdir st version (d_id x))) as [y Hy].
        { unfold seaf_fs_manager_get_seafdir in Hd.
          destruct (String.eqb id' EMPTY_SHA1) eqn:Ee.
          { injection Hd as <-. by apply not_elem_of_nil in Hx. }
          destruct (decide (id' = id)) as [->|Hid].
          - unfold st' in Hd. rewrite lookup_insert_eq in Hd. injection Hd as <-. by apply Hr.
          - unfold st' in Hd. rewrite lookup_insert_ne in Hd by done.
            apply (Hc id' d x); [|done|done]. unfold seaf_fs_manager_get_seafdir. by rewrite Ee. }
        exists y. by eapply get_seafdir_mono.
    + apply (Hget _ (seaf_dir_new dir_hash (e :: l) dv)); [apply lookup_insert_eq|done].
Qed.

(** A directory of a store, or none. *)
Definition from_store (st : fs_store) (od : option SeafDir) : Prop :=
  forall d, od = Some d -> exists id, seaf_fs_manager_get_seafdir st version id = Some d.

Lemma finish_tree_spec b h r l ms :
  good (ms_store ms) -> readable_list (ms_store ms) version l ->
  from_store (ms_store ms) h -> from_store (ms_store ms) r ->
  exists ms', finish_tree dir_hash always version [b; h; r] l 0 ms = (0, ms') /\
    ms_store ms ⊆ ms_store ms' /\ good (ms_store ms') /\
    exists m, seaf_fs_manager_get_seafdir (ms_store ms') version (merged_tree_root ms') = Some m /\
      entries m ≡ₚ l.
Proof.
  intros Hg Hr Hh Hrr. unfold finish_tree. set (sl := sort_dirents l).
  pose proof (sort_dirents_perm l : sl ≡ₚ l) as Hperm.
  assert (Htree : forall od, from_store (ms_store ms) od ->
    match od with Some t => strcmp (dir_id t) (newid sl) =? 0 | None => false end = true ->
    exists m, seaf_fs_manager_get_seafdir (ms_store ms) version (newid sl) = Some m /\ entries m ≡ₚ l).
  { intros [t|] Ht; [|done]. intros E%Z.eqb_eq%strcmp_eq. destruct (Ht t eq_refl) as [id Hid].
    pose proof (get_seafdir_id _ _ _ Hid) as E1.
    pose proof (get_seafdir_newid _ _ _ (g_addressed _ Hg) Hid) as E2.
    exists t. assert (newid (entries t) = newid sl) as Hn by congruence.
    split; [congruence|]. apply newid_inj in Hn as ->. done. }
  destruct (_ || _) eqn:Ht.
  - eexists. split; [done|]. split_and!; [done|done|]. cbn.
    apply orb_true_iff in Ht as [Ht|Ht]; [by apply (Htree h)|by apply (Htree r)].
  - destruct (save_dir (ms_store ms) sl Hg) as (st' & Hs & Hsub & Hg' & m & Hm & Hent).
    { intros e He. apply Hr. by rewrite <- Hperm. }
    cbn [set_root ms_store]. rewrite Hs. eexists. split; [done|]. split_and!; [done|done|].
    exists m. split; [done|]. by rewrite Hent.
Qed.

(** ** One name: the files *)

(** A name, or a conflict name made from it. *)
Definition renamed (nm nm' : string) : Prop :=
  nm' = nm \/ exists bd, conflict_filename bd nm = Some nm' \/ conflict_dirname bd nm = Some nm'.

Definition has_names : Prop := forall bd nm,
  is_Some (conflict_filename bd nm) /\ is_Some (conflict_dirname bd nm).

Lemma same_id_spec d1 d2 : same_id d1 d2 = true <-> d_id d1 = d_id d2.
Proof. unfold same_id. by rewrite Z.eqb_eq, strcmp_eq. Qed.

Lemma same_id_false d1 d2 : same_id d1 d2 = false <-> d_id d1 <> d_id d2.
Proof. rewrite <- same_id_spec. by destruct (same_id d1 d2). Qed.

(** The content of the file an entry is. *)
Definition file_id (oe : option SeafDirent) (f : string) : Prop :=
  match only S_ISREG oe with Some e => d_id e = f | None => False end.

Definition new_file (new : list SeafDirent) (nm f : string) : Prop :=
  exists e, e ∈ new /\ d_name e = nm /\ d_id e = f.

Record files_merged (nm : string) (a0 a1 a2 a2' : option SeafDirent) (new : list SeafDirent) : Prop := {
  fm_both f : file_id a1 f -> file_id a2 f -> new_file new nm f;
  fm_head f : file_id a1 f -> ~ file_id a0 f -> new_file new nm f;
  fm_remote f : file_id a2 f -> ~ file_id a0 f -> exists nm', renamed nm nm' /\ new_file new nm' f;
  fm_source e : e ∈ new -> S_ISREG (d_mode e) = true /\
    ((d_name e = nm /\ file_id a1 (d_id e) /\ (file_id a2 (d_id e) \/ ~ file_id a0 (d_id e))) \/
     (renamed nm (d_name e) /\ file_id a2 (d_id e) /\
      (file_id a1 (d_id e) \/ ~ file_id a0 (d_id e))));
  fm_dent : a2' = a2 \/
    exists d nm', a2 = Some d /\ a2' = Some (set_name d nm') /\ renamed nm nm' /\
      ~ (is_dir a1 = true /\ is_dir a2 = true)
}.

Lemma only_reg_dir oe e : only S_ISREG oe = Some e -> oe = Some e /\ is_dir oe = false /\ S_ISREG (d_mode e) = true.
Proof.
  destruct oe as [x|]; [simpl|done]. destruct (S_ISREG (d_mode x)) eqn:E; [|done].
  intros [= ->]. split_and!; try done. by apply S_ISREG_not_DIR.
Qed.

Lemma file_id_reg oe e f : only S_ISREG oe = Some e -> file_id oe f <-> d_id e = f.
Proof. unfold file_id. by intros ->. Qed.
Lemma file_id_not oe f : only S_ISREG oe = None -> file_id oe f <-> False.
Proof. unfold file_id. by intros ->. Qed.

Lemma new_file_here e l nm f : d_name e = nm -> d_id e = f -> new_file (e :: l) nm f.
Proof. exists e. split; [by left|done]. Qed.
Lemma new_file_later e l nm f : new_file l nm f -> new_file (e :: l) nm f.
Proof. intros (x & ? & ?). exists x. split; [by right|done]. Qed.

Lemma renamed_refl nm : renamed nm nm.
Proof. by left. Qed.
Lemma renamed_file bd nm nm' : conflict_filename bd nm = Some nm' -> renamed nm nm'.
Proof. right. eauto. Qed.
Lemma renamed_dir bd nm nm' : conflict_dirname bd nm = Some nm' -> renamed nm nm'.
Proof. right. eauto. Qed.

Create HintDb merge discriminated.
#[local] Hint Resolve new_file_here new_file_later renamed_refl renamed_file renamed_dir : merge.

(** Solves a branch of the merge once the tests on ids are known. *)
Ltac new_file_tac :=
  first [ apply new_file_here; cbn [set_name d_name d_id]; congruence
        | apply new_file_later, new_file_here; cbn [set_name d_name d_id]; congruence ].

Ltac source_tac :=
  cbn [set_name d_name d_id d_mode]; split; [assumption|];
  first [ left; split_and!; [congruence|congruence|first [left; congruence|right; congruence]]
        | left; split_and!; [congruence|congruence|right; tauto]
        | right; split_and!;
          [ first [eapply renamed_file; eassumption|left; congruence] | congruence
          | first [left; congruence|right; congruence|right; tauto]] ].

Ltac file_branch :=
  lazymatch goal with
  | |- exists _ _ _, (_, [_; _; ?x], ?u :: ?v :: ?o, ?m) = (_, _, _ ++ ?o, _) /\ _ => exists x, [u; v], m
  | |- exists _ _ _, (_, [_; _; ?x], ?u :: ?o, ?m) = (_, _, _ ++ ?o, _) /\ _ => exists x, [u], m
  | |- exists _ _ _, (_, [_; _; ?x], ?o, ?m) = (_, _, _ ++ ?o, _) /\ _ => exists x, [], m
  end;
  split; [reflexivity|]; split; [reflexivity|]; split; unfold file_id;
  repeat match goal with
  | H : only S_ISREG ?a = _ |- context [only S_ISREG ?a] => rewrite H
  end; intros;
  [ first [exfalso; tauto || congruence | new_file_tac]
  | first [exfalso; tauto || congruence | new_file_tac]
  | first [ exfalso; tauto || congruence
          | eexists; split; [apply renamed_refl|new_file_tac]
          | eexists; split; [eapply renamed_file; eassumption|new_file_tac] ]
  | repeat match goal with
    | H : _ ∈ _ :: _ |- _ => apply elem_of_cons in H as [->|H]
    | H : _ ∈ [] |- _ => by apply not_elem_of_nil in H
    end; source_tac
  | first [by left | right; eexists _, _; split_and!;
      [ reflexivity | reflexivity
      | first [eapply renamed_file; eassumption|eapply renamed_dir; eassumption]
      | intros [? ?]; congruence ]] ].

Lemma threeway_merge_files nm a0 a1 a2 basedir out ms :
  has_names -> named nm a0 -> named nm a1 -> named nm a2 ->
  exists a2' new ms', threeway_merge conflict_filename conflict_dirname [a0; a1; a2] basedir out ms
      = (0, [a0; a1; a2'], new ++ out, ms') /\
    ms_store ms' = ms_store ms /\ files_merged nm a0 a1 a2 a2' new.
Proof.
  intros Hn N0 N1 N2.
  assert (HR : forall a e, named nm a -> only S_ISREG a = Some e ->
    d_name e = nm /\ S_ISREG (d_mode e) = true /\ is_dir a = false /\ a = Some e).
  { intros a e Ha He. destruct (only_reg_dir _ _ He) as (-> & ? & ?). split_and!; try done. by apply Ha. }
  destruct (only S_ISREG a0) as [b|] eqn:E0, (only S_ISREG a1) as [h|] eqn:E1,
    (only S_ISREG a2) as [r|] eqn:E2; cbn [threeway_merge]; rewrite E0, E1, E2; cbn [same_id_opt];
    try (destruct (HR a0 b N0 E0) as (Bn & Bm & Bd & ->)); try (destruct (HR a1 h N1 E1) as (Hnm & Hm & Hd & ->));
    try (destruct (HR a2 r N2 E2) as (Rn & Rm & Rd & ->));
    repeat match goal with
    | |- context [match conflict_filename ?bd ?n with _ => _ end] =>
        let H := fresh "Hc" in destruct (proj1 (Hn bd n)) as [? H]; rewrite H
    | |- context [match conflict_dirname ?bd ?n with _ => _ end] =>
        let H := fresh "Hc" in destruct (proj2 (Hn bd n)) as [? H]; rewrite H
    | |- context [if negb (same_id ?x ?y) then _ else _] =>
        let H := fresh "Hs" in destruct (same_id x y) eqn:H; cbn [negb]
    | |- context [if same_id ?x ?y then _ else _] =>
        let H := fresh "Hs" in destruct (same_id x y) eqn:H
    | |- context [if same_id_opt ?x ?y then _ else _] =>
        let H := fresh "Hs" in destruct (same_id_opt x y) eqn:H
    | |- context [match ?a with Some _ => _ | None => _ end] =>
        is_var a; let H := fresh "Ha" in destruct a eqn:H
    end;
    repeat match goal with
    | H : same_id _ _ = true |- _ => apply same_id_spec in H
    | H : same_id _ _ = false |- _ => apply same_id_false in H
    end;
    repeat match goal with
    | N : named nm (Some ?s) |- _ => let H := fresh in pose proof (N s eq_refl) as H; clear N
    end;
    repeat match goal with
    | H : d_name ?e = nm, H' : _ (d_name ?e) = Some _ |- _ => rewrite H in H'
    end; file_branch.
Qed.

(** ** One name: the directories *)

Context (st0 : fs_store) (rank : string -> nat).
Context (Htidy : tidy st0 version) (Hrank : ranked st0 version rank).

Lemma st0_closed : closed st0 version.
Proof. intros id dir e. apply (tidy_closed _ _ Htidy). Qed.

(** The files below an entry that is a directory. *)
Definition content (st : fs_store) (oe : option SeafDirent) (path : list string) (f : string) : Prop :=
  list_file st version (dir_entries (sub_dir st version oe)) path f.

Abbreviation readable0 oe := (readable st0 version oe).

Lemma sub_dir_mono st oe : st0 ⊆ st -> readable0 oe -> sub_dir st version oe = sub_dir st0 version oe.
Proof.
  intros Hs Hr. destruct oe as [e|]; [simpl|done]. destruct (S_ISDIR (d_mode e)) eqn:E; [|done].
  destruct (Hr e ltac:(done)) as [d Hd]. rewrite Hd. by apply (get_seafdir_mono st0).
Qed.

Lemma content_mono st oe path f :
  st0 ⊆ st -> readable0 oe -> content st oe path f <-> content st0 oe path f.
Proof.
  intros Hs Hr. unfold content. rewrite (sub_dir_mono st oe Hs Hr).
  apply list_file_closed; [done|apply st0_closed|].
  destruct oe as [e|]; [simpl|by intros ? ?%not_elem_of_nil].
  destruct (S_ISDIR (d_mode e)) eqn:E; [|by intros ? ?%not_elem_of_nil].
  destruct (seaf_fs_manager_get_seafdir st0 version (d_id e)) as [d|] eqn:Ed;
    [|by intros ? ?%not_elem_of_nil].
  intros x Hx Hd. by eapply st0_closed.
Qed.

Lemma content_not_dir st oe path f : is_dir oe = false -> ~ content st oe path f.
Proof.
  destruct oe as [e|]; simpl; [|by intros _ (? & ?%not_elem_of_nil & _)].
  unfold content. simpl. intros ->. by intros (? & ?%not_elem_of_nil & _).
Qed.

(** Only directory entries name directory objects. *)
Definition plain (oe : option SeafDirent) : Prop :=
  forall e d, oe = Some e -> S_ISDIR (d_mode e) = false -> st0 !! d_id e <> Some (ODir d).

Lemma content_same oe1 oe2 e1 e2 path f :
  oe1 = Some e1 -> oe2 = Some e2 -> d_id e1 = d_id e2 -> is_dir oe2 = true -> plain oe1 ->
  content st0 oe2 path f -> content st0 oe1 path f.
Proof.
  intros -> -> Hid Hd Hp. simpl in Hd. unfold content. simpl. rewrite Hd, Hid.
  destruct (S_ISDIR (d_mode e1)) eqn:E; [done|]. unfold seaf_fs_manager_get_seafdir.
  destruct (String.eqb (d_id e2) EMPTY_SHA1); [done|].
  destruct (st0 !! d_id e2) as [[d|]|] eqn:El; [|done..].
  exfalso. rewrite <- Hid in El. by apply (Hp e1 d).
Qed.

Lemma content_same_dirs oe1 oe2 e1 e2 path f :
  oe1 = Some e1 -> oe2 = Some e2 -> d_id e1 = d_id e2 -> is_dir oe1 = true -> is_dir oe2 = true ->
  content st0 oe1 path f <-> content st0 oe2 path f.
Proof. intros -> -> Hid H1 H2. simpl in *. unfold content. simpl. by rewrite H1, H2, Hid. Qed.

Definition new_below (st : fs_store) (new : list SeafDirent) (nm : string) (path : list string)
    (f : string) : Prop :=
  exists e, e ∈ new /\ d_name e = nm /\ content st (Some e) path f.

Record dirs_merged (st : fs_store) (nm : string) (a0 a1 a2 : option SeafDirent)
    (new : list SeafDirent) : Prop := {
  dm_both q f : content st0 a1 q f -> content st0 a2 q f -> new_below st new nm q f;
  dm_head q f : content st0 a1 q f -> ~ content st0 a0 q f -> new_below st new nm q f;
  dm_remote q f : content st0 a2 q f -> ~ content st0 a0 q f ->
    exists nm' q', renamed nm nm' /\ Forall2 renamed q q' /\ new_below st new nm' q' f;
  dm_source e q f : e ∈ new -> content st (Some e) q f ->
    (d_name e = nm /\ content st0 a1 q f /\ ~ (content st0 a0 q f /\ ~ content st0 a2 q f)) \/
    (exists q0, renamed nm (d_name e) /\ Forall2 renamed q0 q /\ content st0 a2 q0 f /\
       ~ (content st0 a0 q0 f /\ ~ content st0 a1 q0 f));
  dm_dir e : e ∈ new -> S_ISDIR (d_mode e) = true /\
    is_Some (seaf_fs_manager_get_seafdir st version (d_id e))
}.

Lemma Forall2_renamed_refl q : Forall2 renamed q q.
Proof. induction q; constructor; [by left|done]. Qed.

Lemma Forall2_one nm nm' : renamed nm nm' -> Forall2 renamed [nm] [nm'].
Proof. intros H. constructor; [done|constructor]. Qed.

Lemma readable_some st e : st0 ⊆ st -> readable0 (Some e) -> S_ISDIR (d_mode e) = true ->
  is_Some (seaf_fs_manager_get_seafdir st version (d_id e)).
Proof. intros Hs Hr He. destruct (Hr e ltac:(done)) as [d Hd]. exists d. by apply (get_seafdir_mono st0). Qed.

(** The three ways to settle a name without recursion. *)
Lemma add_head st nm a0 a1 a2 d :
  st0 ⊆ st -> a1 = Some d -> is_dir a1 = true -> readable0 a1 -> named nm a1 ->
  (forall q f, content st0 a2 q f -> ~ content st0 a0 q f -> content st0 a1 q f) ->
  (forall q f, content st0 a1 q f -> content st0 a0 q f -> ~ content st0 a2 q f -> False) ->
  dirs_merged st nm a0 a1 a2 [d].
Proof.
  intros Hs -> Hd Hr Hn H1 H2.
  assert (Hnew : forall q f, content st0 (Some d) q f -> new_below st [d] nm q f).
  { intros q f Hq. exists d. split_and!; [by left|by apply Hn|]. by apply content_mono. }
  split; auto.
  - intros q f Ha Hb. exists nm, q. split_and!; [by left|apply Forall2_renamed_refl|by apply Hnew, H1].
  - intros e q f He Hc. apply list_elem_of_singleton in He as ->. apply content_mono in Hc; [|done..].
    left. split_and!; [by apply Hn|done|]. intros [? ?]. by apply (H2 q f).
  - intros e He. apply list_elem_of_singleton in He as ->. split; [done|by apply readable_some].
Qed.

Lemma add_remote st nm a0 a1 a2 d e :
  st0 ⊆ st -> a2 = Some d -> is_dir a2 = true -> readable0 a2 ->
  d_mode e = d_mode d -> d_id e = d_id d -> renamed nm (d_name e) ->
  (d_name e = nm \/ is_dir a1 = false) ->
  (forall q f, content st0 a1 q f -> ~ content st0 a0 q f -> content st0 a2 q f) ->
  (forall q f, content st0 a2 q f -> content st0 a0 q f -> ~ content st0 a1 q f -> False) ->
  dirs_merged st nm a0 a1 a2 [e].
Proof.
  intros Hs -> Hd Hr Em Ei Hren Hone H1 H2.
  assert (Hc : forall q f, content st (Some e) q f <-> content st0 (Some d) q f).
  { intros q f. rewrite <- content_mono by done. unfold content. simpl. by rewrite Em, Ei. }
  assert (Hnew : forall q f, content st0 (Some d) q f -> new_below st [e] (d_name e) q f).
  { intros q f Hq. exists e. split_and!; [by left|done|by apply Hc]. }
  assert (Hhead : forall q f, content st0 a1 q f -> content st0 (Some d) q f -> new_below st [e] nm q f).
  { intros q f Ha Hb. destruct Hone as [<-|Hone]; [by apply Hnew|]. by apply content_not_dir in Ha. }
  split; auto.
  - intros q f Ha Hb. exists (d_name e), q. split_and!; [done|apply Forall2_renamed_refl|by apply Hnew].
  - intros x q f Hx Hq. apply list_elem_of_singleton in Hx as ->. apply Hc in Hq.
    right. exists q. split_and!; [done|apply Forall2_renamed_refl|done|]. intros [? ?]. by apply (H2 q f).
  - intros x Hx. apply list_elem_of_singleton in Hx as ->. rewrite Em, Ei. split; [done|].
    by apply (readable_some st d).
Qed.

Lemma add_none st nm a0 a1 a2 :
  (forall q f, content st0 a1 q f -> content st0 a2 q f -> False) ->
  (forall q f, content st0 a1 q f -> content st0 a0 q f) ->
  (forall q f, content st0 a2 q f -> content st0 a0 q f) ->
  dirs_merged st nm a0 a1 a2 [].
Proof.
  intros H1 H2 H3. split.
  - intros q f ? ?. by destruct (H1 q f).
  - intros q f Ha Hb. destruct Hb. auto.
  - intros q f Ha Hb. destruct Hb. auto.
  - by intros ? ? ? ?%not_elem_of_nil.
  - by intros ? ?%not_elem_of_nil.
Qed.

(** ** Trees *)

(** The merge of the entries [H] and [R] over the base [B] (all of the initial
    store) into [M] (of the store afterwards). *)
Record merged (st : fs_store) (B H R M : list SeafDirent) : Prop := {
  ml_both p f : list_file st0 version H p f -> list_file st0 version R p f ->
    list_file st version M p f;
  ml_head p f : list_file st0 version H p f -> ~ list_file st0 version B p f ->
    list_file st version M p f;
  ml_remote p f : list_file st0 version R p f -> ~ list_file st0 version B p f ->
    exists p', Forall2 renamed p p' /\ list_file st version M p' f;
  ml_source p f : list_file st version M p f ->
    (list_file st0 version H p f /\ ~ (list_file st0 version B p f /\ ~ list_file st0 version R p f)) \/
    (exists p0, Forall2 renamed p0 p /\ list_file st0 version R p0 f /\
       ~ (list_file st0 version B p0 f /\ ~ list_file st0 version H p0 f))
}.

Abbreviation sub0 := (sub_dir st0 version).

Lemma add_merged st nm a0 a1 a2 e m :
  seaf_fs_manager_get_seafdir st version (d_id e) = Some m -> S_ISDIR (d_mode e) = true ->
  renamed nm (d_name e) -> (d_name e = nm \/ is_dir a1 = false) ->
  merged st (dir_entries (sub0 a0)) (dir_entries (sub0 a1)) (dir_entries (sub0 a2)) (entries m) ->
  dirs_merged st nm a0 a1 a2 [e].
Proof.
  intros Hm He Hren Hone [M1 M2 M3 M4].
  assert (Hc : forall q f, content st (Some e) q f <-> list_file st version (entries m) q f).
  { intros q f. unfold content. simpl. by rewrite He, Hm. }
  assert (Hnew : forall q f, list_file st version (entries m) q f -> new_below st [e] (d_name e) q f).
  { intros q f Hq. exists e. split_and!; [by left|done|by apply Hc]. }
  assert (Hat : forall q f, content st0 a1 q f -> list_file st version (entries m) q f ->
    new_below st [e] nm q f).
  { intros q f H1 Hq. destruct Hone as [<-|Hone]; [by apply Hnew|]. by apply content_not_dir in H1. }
  split.
  - intros q f H1 H2. apply Hat; [done|by apply M1].
  - intros q f H1 H2. apply Hat; [done|by apply M2].
  - intros q f H1 H2. destruct (M3 q f H1 H2) as (q' & Hq' & Hl).
    exists (d_name e), q'. split_and!; [done|done|by apply Hnew].
  - intros x q f Hx Hq. apply list_elem_of_singleton in Hx as ->. apply Hc, M4 in Hq as [[H1 H2]|(q0 & F & H1 & H2)].
    + left. split_and!; [|done|done]. destruct Hone as [|Hone]; [done|]. by apply content_not_dir in H1.
    + right. by exists q0.
  - intros x Hx. apply list_elem_of_singleton in Hx as ->. split; [done|by eexists].
Qed.

Abbreviation recm := (merge_trees_recursive conflict_filename conflict_dirname dir_hash always version).

(** What the recursive merge promises for directories of smaller rank. *)
Definition rec_merges (k : nat) : Prop := forall b h r base ms,
  stored st0 version rank k b -> stored st0 version rank k h -> stored st0 version rank k r ->
  is_Some b \/ is_Some h \/ is_Some r -> st0 ⊆ ms_store ms -> good (ms_store ms) ->
  exists ms', recm k [b; h; r] base ms = Some (0, ms') /\
    ms_store ms ⊆ ms_store ms' /\ good (ms_store ms') /\
    exists m, seaf_fs_manager_get_seafdir (ms_store ms') version (merged_tree_root ms') = Some m /\
      merged (ms_store ms') (dir_entries b) (dir_entries h) (dir_entries r) (entries m).

Lemma visit_sub_dirs_spec a0 a1 a2 ms :
  st0 ⊆ ms_store ms -> readable0 a0 -> readable0 a1 -> readable0 a2 ->
  exists ms', visit_sub_dirs version [a0; a1; a2] ms = (Some [sub0 a0; sub0 a1; sub0 a2], ms') /\
    ms_store ms' = ms_store ms.
Proof.
  intros Hs R0 R1 R2.
  assert (Hone : forall a l ms, st0 ⊆ ms_store ms -> readable0 a ->
    exists ms1, ms_store ms1 = ms_store ms /\
      visit_sub_dirs version (a :: l) ms =
      let '(dirs, ms2) := visit_sub_dirs version l ms1 in (dirs ← dirs; Some (sub0 a :: dirs), ms2)).
  { clear. intros a l ms Hs Hr. simpl. rewrite <- (sub_dir_mono (ms_store ms) a Hs Hr).
    destruct a as [e|]; [simpl|by exists ms]. destruct (S_ISDIR (d_mode e)) eqn:E; [|by exists ms].
    destruct (Hr e ltac:(done)) as [d Hd]. rewrite (get_seafdir_mono _ _ _ _ _ Hs Hd).
    by exists (visit_dir ms). }
  destruct (Hone a0 [a1; a2] ms Hs R0) as (ms1 & E1 & ->).
  destruct (Hone a1 [a2] ms1 ltac:(by rewrite E1) R1) as (ms2 & E2 & ->).
  destruct (Hone a2 [] ms2 ltac:(by rewrite E2, E1) R2) as (ms3 & E3 & ->).
  exists ms3. simpl. split; [done|congruence].
Qed.

Lemma dir_mask3 a0 a1 a2 :
  dir_mask [a0; a1; a2] =
  (if is_dir a0 then 1 else 0) + (if is_dir a1 then 2 else 0) + (if is_dir a2 then 4 else 0).
Proof. unfold dir_mask, mask_from. by destruct (is_dir a0), (is_dir a1), (is_dir a2). Qed.

Lemma is_dir_some oe : is_dir oe = true -> exists d, oe = Some d /\ S_ISDIR (d_mode d) = true.
Proof. destruct oe as [d|]; [by eexists|done]. Qed.

(** The remote's entry after the files are merged: itself, possibly renamed. *)
Definition dent_renamed (nm : string) (a1 a2 a2' : option SeafDirent) : Prop :=
  match a2, a2' with
  | None, None => True
  | Some d, Some e =>
      d_mode e = d_mode d /\ d_id e = d_id d /\ renamed nm (d_name e) /\
      (d_name e = nm \/ is_dir a1 = false \/ is_dir a2 = false)
  | _, _ => False
  end.

Lemma dent_renamed_same nm a1 a2 a2' :
  dent_renamed nm a1 a2 a2' -> is_dir a2' = is_dir a2 /\ sub0 a2' = sub0 a2 /\
  forall d, same_id_opt a2' d = same_id_opt a2 d.
Proof.
  destruct a2 as [d|], a2' as [e|]; try done. intros (Em & Ei & _). simpl.
  unfold same_id. rewrite Em, Ei. done.
Qed.

(** Going on with the sub-directories. *)
Lemma merge_directories_recurse k nm a0 a1 a2 a2' e base out ms :
  rec_merges k ->
  stored st0 version rank k (sub0 a0) -> stored st0 version rank k (sub0 a1) ->
  stored st0 version rank k (sub0 a2) ->
  readable0 a0 -> readable0 a1 -> readable0 a2 ->
  is_dir a0 || is_dir a1 || is_dir a2 = true -> dent_renamed nm a1 a2 a2' ->
  st0 ⊆ ms_store ms -> good (ms_store ms) ->
  decide_directories [a0; a1; a2'] = DirRecurse -> merged_dent [a0; a1; a2'] = Some e ->
  S_ISDIR (d_mode e) = true -> renamed nm (d_name e) -> (d_name e = nm \/ is_dir a1 = false) ->
  exists new ms', merge_directories version (recm k) [a0; a1; a2'] base out ms
      = Some (0, new ++ out, ms') /\
    ms_store ms ⊆ ms_store ms' /\ good (ms_store ms') /\ dirs_merged (ms_store ms') nm a0 a1 a2 new.
Proof.
  intros IH S0 S1 S2 R0 R1 R2 Hany Hren Hs Hg Hdec He Hdir Hnm Hone.
  destruct (dent_renamed_same _ _ _ _ Hren) as (Hd2 & Hs2 & _).
  assert (R2' : readable0 a2').
  { intros x [-> Hx]. destruct a2 as [d|]; [|done]. destruct Hren as (Em & Ei & _). rewrite Ei.
    apply R2. split; [done|]. by rewrite <- Em. }
  destruct (visit_sub_dirs_spec a0 a1 a2' ms Hs R0 R1 R2') as (ms1 & Hv & Hst).
  destruct (IH (sub0 a0) (sub0 a1) (sub0 a2) (base +:+ last_dir_name [a0; a1; a2'] +:+ "/") ms1)
    as (ms2 & Hr & Hsub & Hg2 & m & Hm & Hmer); try done.
  - assert (Hsome : forall a, readable0 a -> is_dir a = true -> is_Some (sub0 a)).
    { intros a Ra (d & -> & Hd)%is_dir_some. simpl. rewrite Hd. by apply Ra. }
    apply orb_true_iff in Hany as [[H|H]%orb_true_iff|H]; eauto.
  - by rewrite Hst.
  - by rewrite Hst.
  - rewrite Hst in Hsub. unfold merge_directories. rewrite Hdec, Hv, Hs2, Hr, He.
    exists [set_id e (merged_tree_root ms2)], ms2. split; [done|]. split_and!; [done|done|].
    by apply (add_merged _ nm a0 a1 a2 _ m).
Qed.

(** The decision on the mask settles the name, or names the entry to merge into. *)
Definition settled (st : fs_store) (nm : string) (a0 a1 a2 a2' : option SeafDirent) : Prop :=
  (exists add, decide_directories [a0; a1; a2'] = DirReturn 0 add /\
     dirs_merged st nm a0 a1 a2 (prepend_opt add [])) \/
  (decide_directories [a0; a1; a2'] = DirRecurse /\
   exists e, merged_dent [a0; a1; a2'] = Some e /\ S_ISDIR (d_mode e) = true /\
     renamed nm (d_name e) /\ (d_name e = nm \/ is_dir a1 = false)).

Section settle.
Context (st : fs_store) (nm : string) (a0 : option SeafDirent).
Context (Hs : st0 ⊆ st) (P0 : plain a0).

Ltac mask := unfold decide_directories, merged_dent; rewrite !dir_mask3.

(** Both head and remote have the directory (masks 6 and 7). *)
Lemma settle_both h r e :
  is_dir (Some h) = true -> is_dir (Some r) = true ->
  readable0 (Some h) -> readable0 (Some r) -> named nm (Some h) ->
  dent_renamed nm (Some h) (Some r) (Some e) -> settled st nm a0 (Some h) (Some r) (Some e).
Proof.
  intros D1 D2 R1 R2 N1 (Em & Ei & Hrn & Hone).
  assert (Hnm : d_name e = nm) by (destruct Hone as [|[|]]; congruence).
  assert (De : is_dir (Some e) = true) by (simpl in *; by rewrite Em).
  assert (Hdec : decide_directories [a0; Some h; Some e] =
    (if same_id h e then DirReturn 0 (Some h)
     else if same_id_opt a0 h then DirReturn 0 (Some e)
     else if same_id_opt a0 e then DirReturn 0 (Some h) else DirRecurse) /\
    merged_dent [a0; Some h; Some e] = Some h).
  { mask. rewrite D1, De. by destruct (is_dir a0). }
  destruct Hdec as [Hdec Hmd]. unfold settled. rewrite Hdec, Hmd.
  destruct (same_id h e) eqn:E1; [|destruct (same_id_opt a0 h) eqn:E2; [|destruct (same_id_opt a0 e) eqn:E3]].
  - left. eexists. split; [done|]. apply same_id_spec in E1.
    assert (Hc : forall q f, content st0 (Some h) q f <-> content st0 (Some r) q f).
    { intros. eapply content_same_dirs; congruence || done. }
    eapply add_head; try done; intros q f; rewrite Hc; tauto.
  - left. eexists. split; [done|]. destruct a0 as [b|]; [|done]. apply same_id_spec in E2.
    eapply (add_remote st nm (Some b) (Some h) (Some r) r e); try done; [by left|..].
    + intros q f H1 H2. destruct H2. by apply (content_same (Some b) (Some h) b h).
    + intros q f H1 H2 H3. destruct (is_dir (Some b)) eqn:Db; [|by apply content_not_dir in H2].
      apply H3. by apply (content_same_dirs (Some b) (Some h) b h).
  - left. eexists. split; [done|]. destruct a0 as [b|]; [|done]. apply same_id_spec in E3.
    assert (d_id b = d_id r) as Eb by congruence.
    eapply add_head; try done.
    + intros q f H1 H2. destruct H2. by apply (content_same (Some b) (Some r) b r).
    + intros q f H1 H2 H3. destruct (is_dir (Some b)) eqn:Db; [|by apply content_not_dir in H2].
      apply H3. by apply (content_same_dirs (Some b) (Some r) b r).
  - right. split; [done|]. exists h. split_and!; [done|done| |]; rewrite (N1 h eq_refl); [by left|by left].
Qed.

(** Only the head has it (masks 2 and 3). *)
Lemma settle_head h a2 a2' :
  is_dir (Some h) = true -> is_dir a2 = false -> readable0 (Some h) -> named nm (Some h) ->
  dent_renamed nm (Some h) a2 a2' -> settled st nm a0 (Some h) a2 a2'.
Proof.
  intros D1 D2 R1 N1 Hren. destruct (dent_renamed_same _ _ _ _ Hren) as (D2' & _). rewrite D2 in D2'.
  assert (Hno : forall q f, ~ content st0 a2 q f) by (intros; by apply content_not_dir).
  unfold settled. mask. rewrite D1, D2'. destruct (is_dir a0) eqn:D0; cbn [Z.add Pos.add Pos.succ].
  - destruct (is_dir_some _ D0) as (b & -> & Hb). destruct (same_id b h) eqn:E.
    + left. eexists. split; [done|]. apply same_id_spec in E. apply add_none.
      * intros q f _ H. by apply Hno in H.
      * intros q f. by apply (content_same_dirs (Some h) (Some b) h b).
      * intros q f H. by apply Hno in H.
    + right. split; [done|]. exists h. split_and!; [done|done| |]; rewrite (N1 h eq_refl); [by left|by left].
  - left. eexists. split; [done|]. eapply add_head; try done.
    + intros q f H. by apply Hno in H.
    + intros q f _ H. by apply content_not_dir in H.
Qed.

(** Only the remote has it (masks 4 and 5). *)
Lemma settle_remote a1 r e :
  is_dir a1 = false -> is_dir (Some r) = true -> readable0 (Some r) ->
  dent_renamed nm a1 (Some r) (Some e) -> settled st nm a0 a1 (Some r) (Some e).
Proof.
  intros D1 D2 R2 (Em & Ei & Hrn & Hone).
  assert (De : is_dir (Some e) = true) by (simpl in *; by rewrite Em).
  assert (Hno : forall q f, ~ content st0 a1 q f) by (intros; by apply content_not_dir).
  unfold settled. mask. rewrite D1, De. destruct (is_dir a0) eqn:D0; cbn [Z.add Pos.add Pos.succ].
  - destruct (is_dir_some _ D0) as (b & -> & Hb). destruct (same_id b e) eqn:E.
    + left. eexists. split; [done|]. apply same_id_spec in E. apply add_none.
      * intros q f H. by apply Hno in H.
      * intros q f H. by apply Hno in H.
      * intros q f. apply (content_same_dirs (Some r) (Some b) r b); congruence || done.
    + right. split; [done|]. exists e. split_and!; try done. by right.
  - left. eexists. split; [done|]. eapply (add_remote st nm a0 a1 (Some r) r e); try done.
    + by right.
    + intros q f H. by apply Hno in H.
    + intros q f _ H. by apply content_not_dir in H.
Qed.

(** Neither has it (mask 1). *)
Lemma settle_none a1 a2 a2' :
  is_dir a0 = true -> is_dir a1 = false -> is_dir a2 = false ->
  dent_renamed nm a1 a2 a2' -> settled st nm a0 a1 a2 a2'.
Proof.
  intros D0 D1 D2 Hren. destruct (dent_renamed_same _ _ _ _ Hren) as (D2' & _). rewrite D2 in D2'.
  unfold settled. mask. rewrite D0, D1, D2'. left. eexists. split; [done|].
  apply add_none; intros q f H; by apply content_not_dir in H.
Qed.
End settle.

Lemma merge_directories_dirs k nm a0 a1 a2 a2' base out ms :
  rec_merges k ->
  stored st0 version rank k (sub0 a0) -> stored st0 version rank k (sub0 a1) ->
  stored st0 version rank k (sub0 a2) ->
  readable0 a0 -> readable0 a1 -> readable0 a2 -> named nm a1 -> plain a0 ->
  is_dir a0 || is_dir a1 || is_dir a2 = true -> dent_renamed nm a1 a2 a2' ->
  st0 ⊆ ms_store ms -> good (ms_store ms) ->
  exists new ms', merge_directories version (recm k) [a0; a1; a2'] base out ms
      = Some (0, new ++ out, ms') /\
    ms_store ms ⊆ ms_store ms' /\ good (ms_store ms') /\ dirs_merged (ms_store ms') nm a0 a1 a2 new.
Proof.
  intros IH S0 S1 S2 R0 R1 R2 N1 P0 Hany Hren Hs Hg.
  assert (Hset : settled (ms_store ms) nm a0 a1 a2 a2').
  { destruct (is_dir a1) eqn:D1; [destruct (is_dir_some _ D1) as (h & -> & _)|];
      (destruct (is_dir a2) eqn:D2; [destruct (is_dir_some _ D2) as (r & -> & _); destruct a2' as [e|]; [|done]|]).
    - by apply settle_both.
    - by apply settle_head.
    - by apply settle_remote.
    - apply settle_none; try done. by destruct (is_dir a0). }
  destruct Hset as [(add & Hdec & Hm)|(Hdec & e & ? & ? & ? & ?)].
  - exists (prepend_opt add []), ms. unfold merge_directories. rewrite Hdec.
    split_and!; try done. by destruct add.
  - by apply (merge_directories_recurse k nm a0 a1 a2 a2' e).
Qed.

(** ** One name: files and directories together *)

Definition olist (oe : option SeafDirent) : list SeafDirent :=
  match oe with Some e => [e] | None => [] end.

Lemma content_nonempty st oe f : ~ content st oe [] f.
Proof. intros (e & _ & H). by apply entry_file_nonempty in H. Qed.

Lemma list_file_olist st nm oe p f :
  named nm oe ->
  list_file st version (olist oe) p f <->
  exists rest, p = nm :: rest /\ (rest = [] /\ file_id oe f \/ content st oe rest f).
Proof.
  intros Hn. unfold list_file. destruct oe as [e|]; simpl.
  - setoid_rewrite list_elem_of_singleton. split.
    + intros (x & -> & Hx). apply entry_file_cons in Hx as (rest & -> & H).
      exists rest. rewrite (Hn e eq_refl). split; [done|].
      destruct H as [(-> & Hr & ->)|(sub & Hd & Hsub & Hl)].
      * left. split; [done|]. unfold file_id. simpl. by rewrite Hr.
      * right. unfold content. simpl. by rewrite Hd, Hsub.
    + intros (rest & -> & H). exists e. split; [done|]. apply entry_file_cons. exists rest.
      rewrite (Hn e eq_refl). split; [done|]. unfold file_id, content in H. simpl in H.
      destruct H as [[-> H]|H].
      * left. by destruct (S_ISREG (d_mode e)).
      * right. destruct (S_ISDIR (d_mode e)); [|by destruct H as (? & ?%not_elem_of_nil & _)].
        destruct (seaf_fs_manager_get_seafdir st version (d_id e)) as [sub|] eqn:E;
          [|by destruct H as (? & ?%not_elem_of_nil & _)]. by exists sub.
  - split.
    + by intros (? & ?%not_elem_of_nil & _).
    + intros (rest & -> & [[_ []]|H]). by destruct H as (? & ?%not_elem_of_nil & _).
Qed.

Lemma list_file_here st nm oe f :
  named nm oe -> list_file st version (olist oe) [nm] f <-> file_id oe f.
Proof.
  intros Hn. rewrite (list_file_olist st nm) by done. split.
  - intros (rest & [= <-] & [[_ H]|H]); [done|]. by apply content_nonempty in H.
  - intros H. exists []. auto.
Qed.

Lemma list_file_below st nm oe q f :
  named nm oe -> q <> [] -> list_file st version (olist oe) (nm :: q) f <-> content st oe q f.
Proof.
  intros Hn Hq. rewrite (list_file_olist st nm) by done. split.
  - by intros (rest & [= <-] & [[-> H]|H]).
  - intros H. exists q. auto.
Qed.

Lemma new_file_list st new nm f :
  (forall e, e ∈ new -> S_ISREG (d_mode e) = true) -> new_file new nm f -> list_file st version new [nm] f.
Proof. intros Hr (e & He & <- & <-). exists e. split; [done|]. constructor. auto. Qed.

Lemma new_below_list st new nm q f :
  (forall e, e ∈ new -> S_ISDIR (d_mode e) = true) -> new_below st new nm q f ->
  list_file st version new (nm :: q) f.
Proof.
  intros Hd (e & He & <- & H). exists e. split; [done|]. apply entry_file_cons. exists q.
  split; [done|]. right. unfold content in H. simpl in H. rewrite (Hd e He) in H.
  destruct (seaf_fs_manager_get_seafdir st version (d_id e)) as [sub|] eqn:E;
    [|by destruct H as (? & ?%not_elem_of_nil & _)].
  exists sub. auto.
Qed.

(** The files and the directories of a name make up its merge. *)
Lemma row_merged st nm a0 a1 a2 a2' newf newd :
  named nm a0 -> named nm a1 -> named nm a2 ->
  files_merged nm a0 a1 a2 a2' newf -> dirs_merged st nm a0 a1 a2 newd ->
  merged st (olist a0) (olist a1) (olist a2) (newd ++ newf).
Proof.
  intros N0 N1 N2 [F1 F2 F3 F4 _] [D1 D2 D3 D4 D5].
  assert (Hreg : forall e, e ∈ newf -> S_ISREG (d_mode e) = true) by (intros e He; by apply F4).
  assert (Hdir : forall e, e ∈ newd -> S_ISDIR (d_mode e) = true) by (intros e He; by apply D5).
  assert (Hf : forall nm' f, new_file newf nm' f -> list_file st version (newd ++ newf) [nm'] f).
  { intros nm' f H. apply list_file_app. right. by apply new_file_list. }
  assert (Hd : forall nm' q f, new_below st newd nm' q f -> list_file st version (newd ++ newf) (nm' :: q) f).
  { intros nm' q f H. apply list_file_app. left. by apply new_below_list. }
  assert (Hsplit : forall p f, list_file st version (newd ++ newf) p f ->
    exists e, (e ∈ newf /\ p = [d_name e] /\ f = d_id e) \/
      (exists q, e ∈ newd /\ p = d_name e :: q /\ content st (Some e) q f)).
  { intros p f (e & He & H). exists e. apply elem_of_app in He as [He|He];
      apply entry_file_cons in H as (rest & -> & [(-> & Hr & ->)|(sub & Hsd & Hsub & Hl)]).
    - pose proof (Hdir e He) as Hd'. by rewrite (S_ISREG_not_DIR _ Hr) in Hd'.
    - right. exists rest. split_and!; try done. unfold content. simpl. by rewrite Hsd, Hsub.
    - by left.
    - by rewrite (S_ISREG_not_DIR _ (Hreg e He)) in Hsd. }
  split.
  - intros p f H1 H2. apply (list_file_olist _ nm) in H1 as (q & -> & H1); [|done].
    apply (list_file_olist _ nm) in H2 as (q' & [= <-] & H2); [|done].
    destruct H1 as [[-> H1]|H1], H2 as [[? H2]|H2]; subst;
      try (by apply content_nonempty in H2); try (by apply content_nonempty in H1); auto.
  - intros p f H1 H2. apply (list_file_olist _ nm) in H1 as (q & -> & H1); [|done].
    rewrite (list_file_olist _ nm) in H2 by done. destruct H1 as [[-> H1]|H1].
    + apply Hf, F2; [done|]. intros H. apply H2. exists []. auto.
    + apply Hd, D2; [done|]. intros H. apply H2. exists q. auto.
  - intros p f H1 H2. apply (list_file_olist _ nm) in H1 as (q & -> & H1); [|done].
    rewrite (list_file_olist _ nm) in H2 by done. destruct H1 as [[-> H1]|H1].
    + destruct (F3 f H1) as (nm' & Hn' & Hnew).
      { intros H. apply H2. exists []. auto. }
      exists [nm']. split; [by apply Forall2_one|auto].
    + destruct (D3 q f H1) as (nm' & q' & Hn' & Hq' & Hnew).
      { intros H. apply H2. exists q. auto. }
      exists (nm' :: q'). split; [by constructor|auto].
  - intros p f H. apply Hsplit in H as (e & [(He & -> & ->)|(q & He & -> & Hc)]).
    + destruct (F4 e He) as [_ [(En & H1 & H2)|(Hn & H1 & H2)]].
      * left. rewrite En. rewrite !(list_file_here st0 nm) by done. tauto.
      * right. exists [nm]. rewrite !(list_file_here st0 nm) by done.
        split_and!; [by apply Forall2_one|done|tauto].
    + destruct (D4 e q f He Hc) as [(En & H1 & H2)|(q0 & Hn & Hq & H1 & H2)].
      * left. rewrite En. rewrite !(list_file_below st0 nm); [tauto|try done..];
          intros ->; by apply content_nonempty in Hc.
      * right. exists (nm :: q0). rewrite !(list_file_below st0 nm);
          [split_and!; [by constructor|done|tauto]|try done..];
          intros ->; by apply content_nonempty in H1.
Qed.

Lemma no_files a0 a1 a2 nm :
  has_kind S_ISREG [a0; a1; a2] = false -> files_merged nm a0 a1 a2 a2 [].
Proof.
  intros H.
  assert (Hno : only S_ISREG a0 = None /\ only S_ISREG a1 = None /\ only S_ISREG a2 = None).
  { unfold has_kind in H. simpl in H. unfold only.
    destruct a0 as [x|], a1 as [y|], a2 as [z|]; bools; split_and!; try done;
      repeat match goal with H : S_ISREG _ = false |- _ => rewrite H; clear H end; done. }
  destruct Hno as (E0 & E1 & E2). unfold file_id. split; unfold file_id; rewrite ?E1, ?E2; try done.
  - by intros e ?%not_elem_of_nil.
  - by left.
Qed.

Lemma has_kind_dirs a0 a1 a2 :
  has_kind S_ISDIR [a0; a1; a2] = is_dir a0 || is_dir a1 || is_dir a2.
Proof.
  unfold has_kind, is_dir. simpl.
  destruct a0 as [x|], a1 as [y|], a2 as [z|]; simpl; by rewrite ?orb_false_r, ?orb_assoc.
Qed.

Lemma no_dirs st a0 a1 a2 nm :
  has_kind S_ISDIR [a0; a1; a2] = false -> dirs_merged st nm a0 a1 a2 [].
Proof.
  rewrite has_kind_dirs. intros H. bools.
  apply add_none; intros q f Hc; by apply content_not_dir in Hc.
Qed.

Lemma files_dent nm a0 a1 a2 a2' new :
  named nm a2 -> files_merged nm a0 a1 a2 a2' new -> dent_renamed nm a1 a2 a2'.
Proof.
  intros N2 [_ _ _ _ [->|(d & nm' & -> & -> & Hr & Hn)]]; simpl.
  - destruct a2 as [d|]; [|done]. unfold dent_renamed. rewrite (N2 d eq_refl). split_and!; [done|done|by left|by left].
  - split_and!; [done|done|done|]. right. simpl in Hn. destruct (is_dir a1); [|by left].
    right. by destruct (S_ISDIR (d_mode d)); [destruct Hn|].
Qed.

(** What is known of the entries of a name. *)
Record row_ok (k : nat) (nm : string) (oe : option SeafDirent) : Prop := {
  ro_stored : stored st0 version rank k (sub0 oe);
  ro_readable : readable0 oe;
  ro_named : named nm oe;
  ro_plain : plain oe
}.

Lemma new_readable st nm a0 a1 a2 a2' newf newd :
  files_merged nm a0 a1 a2 a2' newf -> dirs_merged st nm a0 a1 a2 newd ->
  readable_list st version (newd ++ newf).
Proof.
  intros HF HD e He Hd. apply elem_of_app in He as [He|He].
  - by apply (dm_dir _ _ _ _ _ _ HD).
  - destruct (fm_source _ _ _ _ _ _ HF e He) as [Hr _]. by rewrite (S_ISREG_not_DIR _ Hr) in Hd.
Qed.

Lemma merge_row_merged k nm a0 a1 a2 base out ms :
  has_names -> rec_merges k -> row_ok k nm a0 -> row_ok k nm a1 -> row_ok k nm a2 ->
  st0 ⊆ ms_store ms -> good (ms_store ms) ->
  exists new ms', merge_row conflict_filename conflict_dirname version (recm k) base [a0; a1; a2] 0 (out, ms)
      = Some (0, (new ++ out, ms')) /\
    ms_store ms ⊆ ms_store ms' /\ good (ms_store ms') /\
    readable_list (ms_store ms') version new /\
    merged (ms_store ms') (olist a0) (olist a1) (olist a2) new.
Proof.
  intros Hn IH [S0 R0 N0 P0] [S1 R1 N1 P1] [S2 R2 N2 P2] Hs Hg.
  assert (Hfiles : exists a2' newf ms1,
    (if has_kind S_ISREG [a0; a1; a2]
     then merge_entries conflict_filename conflict_dirname [a0; a1; a2] base out ms
     else (0, [a0; a1; a2], out, ms)) = (0, [a0; a1; a2'], newf ++ out, ms1) /\
    ms_store ms1 = ms_store ms /\ files_merged nm a0 a1 a2 a2' newf).
  { destruct (has_kind S_ISREG [a0; a1; a2]) eqn:E.
    - by apply threeway_merge_files.
    - exists a2, [], ms. split_and!; [done|done|]. by apply no_files. }
  destruct Hfiles as (a2' & newf & ms1 & Ef & Est & Hfm). unfold merge_row. rewrite Ef. cbn [Z.ltb Z.compare].
  pose proof (files_dent _ _ _ _ _ _ N2 Hfm) as Hren.
  assert (Hk : has_kind S_ISDIR [a0; a1; a2'] = has_kind S_ISDIR [a0; a1; a2]).
  { rewrite !has_kind_dirs. by destruct (dent_renamed_same _ _ _ _ Hren) as [-> _]. }
  rewrite Hk. destruct (has_kind S_ISDIR [a0; a1; a2]) eqn:E.
  - rewrite has_kind_dirs in E.
    destruct (merge_directories_dirs k nm a0 a1 a2 a2' base (newf ++ out) ms1)
      as (newd & ms2 & -> & Hsub & Hg2 & Hdm); try done; [by rewrite Est|by rewrite Est|].
    exists (newd ++ newf), ms2. rewrite app_assoc, Est in *. split_and!; try done.
    + by eapply new_readable.
    + by eapply row_merged.
  - exists newf, ms1. rewrite Est. split_and!; try done.
    + by eapply (new_readable _ _ _ _ _ _ _ []), no_dirs.
    + by eapply (row_merged _ _ _ _ _ _ _ []), no_dirs.
Qed.

(** ** All names *)

Lemma merged_mono st st' B H R M :
  st ⊆ st' -> closed st version -> readable_list st version M -> merged st B H R M -> merged st' B H R M.
Proof.
  intros Hs Hc Hr [M1 M2 M3 M4].
  assert (E : forall p f, list_file st' version M p f <-> list_file st version M p f)
    by (intros; by apply list_file_closed).
  split.
  - intros p f. rewrite E. auto.
  - intros p f. rewrite E. auto.
  - intros p f. setoid_rewrite E. auto.
  - intros p f. rewrite E. auto.
Qed.

(** Merges over disjoint sets of names. *)
Lemma merged_app st B1 H1 R1 M1 B2 H2 R2 M2 :
  (forall e1 e2, e1 ∈ B1 ++ H1 ++ R1 -> e2 ∈ B2 ++ H2 ++ R2 -> d_name e1 <> d_name e2) ->
  merged st B1 H1 R1 M1 -> merged st B2 H2 R2 M2 ->
  merged st (B1 ++ B2) (H1 ++ H2) (R1 ++ R2) (M2 ++ M1).
Proof.
  intros Hdis [A1 A2 A3 A4] [C1 C2 C3 C4].
  assert (Hd : forall l1 l2 p f f', (forall e, e ∈ l1 -> e ∈ B1 ++ H1 ++ R1) ->
    (forall e, e ∈ l2 -> e ∈ B2 ++ H2 ++ R2) ->
    list_file st0 version l1 p f -> list_file st0 version l2 p f' -> False).
  { intros l1 l2 p f f' S1 S2 (e1 & I1 & F1) (e2 & I2 & F2).
    apply entry_file_cons in F1 as (r1 & -> & _), F2 as (r2 & [= E _] & _).
    by apply (Hdis e1 e2); auto. }
  assert (SB1 : forall e, e ∈ B1 -> e ∈ B1 ++ H1 ++ R1) by set_solver.
  assert (SH1 : forall e, e ∈ H1 -> e ∈ B1 ++ H1 ++ R1) by set_solver.
  assert (SR1 : forall e, e ∈ R1 -> e ∈ B1 ++ H1 ++ R1) by set_solver.
  assert (SB2 : forall e, e ∈ B2 -> e ∈ B2 ++ H2 ++ R2) by set_solver.
  assert (SH2 : forall e, e ∈ H2 -> e ∈ B2 ++ H2 ++ R2) by set_solver.
  assert (SR2 : forall e, e ∈ R2 -> e ∈ B2 ++ H2 ++ R2) by set_solver.
  split; intros p f; rewrite ?list_file_app.
  - intros [Ha|Ha] [Hb|Hb].
    + right. auto.
    + exfalso. by apply (Hd H1 R2 p f f).
    + exfalso. by apply (Hd R1 H2 p f f).
    + left. auto.
  - intros [Ha|Ha] Hb; [right; apply A2|left; apply C2]; tauto.
  - intros [Ha|Ha] Hb; setoid_rewrite list_file_app.
    + destruct (A3 p f) as (p' & ? & ?); [done|tauto|]. eauto.
    + destruct (C3 p f) as (p' & ? & ?); [done|tauto|]. eauto.
  - intros [HM|HM].
    + destruct (C4 p f HM) as [[Ha Hb]|(p0 & F & Ha & Hb)].
      * left. split; [by right|]. intros [[Hc|Hc] He]; [by apply (Hd B1 H2 p f f)|].
        apply Hb. split; [done|tauto].
      * right. exists p0. rewrite !list_file_app. split_and!; [done|by right|].
        intros [[Hc|Hc] He]; [by apply (Hd B1 R2 p0 f f)|]. apply Hb. split; [done|tauto].
    + destruct (A4 p f HM) as [[Ha Hb]|(p0 & F & Ha & Hb)].
      * left. split; [by left|]. intros [[Hc|Hc] He]; [|by apply (Hd H1 B2 p f f)].
        apply Hb. split; [done|tauto].
      * right. exists p0. rewrite !list_file_app. split_and!; [done|by left|].
        intros [[Hc|Hc] He]; [|by apply (Hd R1 B2 p0 f f)]. apply Hb. split; [done|tauto].
Qed.

(** The entries a list has for the names of some rows. *)
Fixpoint column (l : list SeafDirent) (rws : list (string * list (option SeafDirent))) : list SeafDirent :=
  match rws with [] => [] | row :: rws => olist (lookup_name (fst row) l) ++ column l rws end.

Lemma elem_of_column l rws e : e ∈ column l rws -> e ∈ l /\ d_name e ∈ fst <$> rws.
Proof.
  induction rws as [|row rws IH]; simpl; [by intros ?%not_elem_of_nil|].
  rewrite elem_of_app. intros [He|He].
  - destruct (lookup_name (fst row) l) as [d|] eqn:E; [|by apply not_elem_of_nil in He].
    apply list_elem_of_singleton in He as ->. apply lookup_name_Some in E as [? E].
    split; [done|]. rewrite E. by left.
  - destruct (IH He). split; [done|]. by right.
Qed.

Lemma olist_name l nm e : e ∈ olist (lookup_name nm l) -> d_name e = nm.
Proof.
  destruct (lookup_name nm l) as [d|] eqn:E; [|by intros ?%not_elem_of_nil].
  intros ->%list_elem_of_singleton. by apply lookup_name_Some in E as [_ ?].
Qed.

Lemma column_all l rws :
  sorted_entries l -> (forall e, e ∈ l -> d_name e ∈ fst <$> rws) ->
  forall e, e ∈ column l rws <-> e ∈ l.
Proof.
  intros Hs Hall e. split; [intros He; by apply elem_of_column in He as [? _]|].
  intros He. specialize (Hall e He). induction rws as [|row rws IH]; [by apply not_elem_of_nil in Hall|].
  simpl. rewrite elem_of_app. apply elem_of_cons in Hall as [E|Hin]; [|right; by apply IH].
  left. rewrite <- E, (lookup_name_sorted l e Hs He). by left.
Qed.

Lemma list_file_ext st l1 l2 p f :
  (forall e, e ∈ l1 <-> e ∈ l2) -> list_file st version l1 p f <-> list_file st version l2 p f.
Proof. intros H. unfold list_file. by setoid_rewrite H. Qed.

Lemma merged_ext st B H R M B' H' R' M' :
  (forall e, e ∈ B <-> e ∈ B') -> (forall e, e ∈ H <-> e ∈ H') -> (forall e, e ∈ R <-> e ∈ R') ->
  (forall e, e ∈ M <-> e ∈ M') -> merged st B H R M -> merged st B' H' R' M'.
Proof.
  intros EB EH ER EM [M1 M2 M3 M4].
  assert (XB : forall p f, list_file st0 version B p f <-> list_file st0 version B' p f) by (intros; by apply list_file_ext).
  assert (XH : forall p f, list_file st0 version H p f <-> list_file st0 version H' p f) by (intros; by apply list_file_ext).
  assert (XR : forall p f, list_file st0 version R p f <-> list_file st0 version R' p f) by (intros; by apply list_file_ext).
  assert (XM : forall p f, list_file st version M p f <-> list_file st version M' p f) by (intros; by apply list_file_ext).
  split; intros p f; try setoid_rewrite <- XB; try setoid_rewrite <- XH; try setoid_rewrite <- XR;
    try setoid_rewrite <- XM; auto.
Qed.

Lemma fold_rows_merged k base B H R rws :
  has_names -> rec_merges k ->
  (forall nm, row_ok k nm (lookup_name nm B) /\ row_ok k nm (lookup_name nm H) /\ row_ok k nm (lookup_name nm R)) ->
  StronglySorted gt_name (fst <$> rws) ->
  Forall (fun row => snd row = lookup_name (fst row) <$> [B; H; R]) rws ->
  forall out ms, st0 ⊆ ms_store ms -> good (ms_store ms) ->
  exists new ms',
    fold_rows (merge_row conflict_filename conflict_dirname version (recm k) base) rws 0 (out, ms)
      = Some (0, (new ++ out, ms')) /\
    ms_store ms ⊆ ms_store ms' /\ good (ms_store ms') /\ readable_list (ms_store ms') version new /\
    merged (ms_store ms') (column B rws) (column H rws) (column R rws) new.
Proof.
  intros Hn IH Hrow. induction rws as [|row rws IHr]; intros Hso Hrows out ms Hs Hg.
  - exists [], ms. split_and!; try done.
    + by intros ? ?%not_elem_of_nil.
    + split; unfold list_file; simpl; setoid_rewrite elem_of_nil; naive_solver.
  - apply Forall_cons in Hrows as [Er Hrows]. rewrite fmap_cons in Hso.
    apply StronglySorted_inv in Hso as [Hso Hgt].
    destruct (Hrow (fst row)) as (K0 & K1 & K2). cbn [fold_rows]. rewrite Er. cbn [fmap list_fmap].
    destruct (merge_row_merged k (fst row) _ _ _ base out ms Hn IH K0 K1 K2 Hs Hg)
      as (new1 & ms1 & -> & Sub1 & G1 & Rd1 & Mg1). cbn [Z.ltb Z.compare].
    destruct (IHr Hso Hrows (new1 ++ out) ms1) as (new2 & ms2 & -> & Sub2 & G2 & Rd2 & Mg2);
      [by trans (ms_store ms)|done|].
    exists (new2 ++ new1), ms2. rewrite app_assoc. split_and!; [done|by trans (ms_store ms1)|done| |].
    + intros e [He|He]%elem_of_app Hd; [by apply Rd2|].
      destruct (Rd1 e He Hd) as [d Hd']. exists d. by eapply get_seafdir_mono.
    + cbn [column]. apply merged_app; [|by eapply merged_mono; [| apply G1 | |]|done].
      intros e1 e2 He1 He2 E. rewrite Forall_forall in Hgt.
      assert (d_name e1 = fst row) as E1.
      { rewrite !elem_of_app in He1. destruct He1 as [He|[He|He]]; by apply olist_name in He. }
      assert (d_name e2 ∈ fst <$> rws) as E2.
      { rewrite !elem_of_app in He2. destruct He2 as [He|[He|He]]; by apply elem_of_column in He as [_ ?]. }
      apply Hgt in E2. rewrite <- E, E1 in E2. by apply gt_name_irrefl in E2.
Qed.

(** Only directory entries of the store name directory objects. *)
Definition typed : Prop := forall id dir e d,
  seaf_fs_manager_get_seafdir st0 version id = Some dir -> e ∈ entries dir ->
  S_ISDIR (d_mode e) = false -> st0 !! d_id e <> Some (ODir d).

Lemma row_ok_lookup k od nm :
  typed -> stored st0 version rank (S k) od -> row_ok k nm (lookup_name nm (dir_entries od)).
Proof.
  intros Ht Hs. destruct (stored_entry st0 version rank Htidy Hrank k od nm Hs) as (? & ? & ? & _).
  split; try done. intros e d He Hd. destruct od as [dir|]; [|done].
  destruct (Hs dir eq_refl) as (id & Hid & _). apply lookup_name_Some in He as [He _].
  by apply (Ht id dir e d).
Qed.

Lemma stored_from_store k od st : st0 ⊆ st -> stored st0 version rank k od -> from_store st od.
Proof.
  intros Hs Hst d Hd. destruct (Hst d Hd) as (id & Hid & _). exists id. by apply (get_seafdir_mono st0).
Qed.

Lemma merge_rec_merges k : has_names -> typed -> rec_merges k.
Proof.
  intros Hn Ht. induction k as [|k IH]; intros b h r base ms Sb Sh Sr Hany Hs Hg.
  { exfalso. destruct Hany as [[d ->]|[[d ->]|[d ->]]];
      [destruct (Sb d eq_refl) as (? & _ & ?)|destruct (Sh d eq_refl) as (? & _ & ?)
      |destruct (Sr d eq_refl) as (? & _ & ?)]; lia. }
  set (row := merge_row conflict_filename conflict_dirname version (recm k) base).
  change (recm (S k) [b; h; r] base ms) with
    (match walk row [dir_entries b; dir_entries h; dir_entries r] 0 ([], ms) with
     | None => None
     | Some (ret, (merged_dents, ms)) =>
         if ret <? 0 then Some (ret, ms)
         else Some (finish_tree dir_hash always version [b; h; r] merged_dents ret ms)
     end).
  destruct (walk_rows row [dir_entries b; dir_entries h; dir_entries r] 0 ([], ms))
    as (rws & -> & Hso & Hnames & Hrows).
  { repeat constructor; by apply (stored_entry st0 version rank Htidy Hrank k _ EmptyString). }
  destruct (fold_rows_merged k base (dir_entries b) (dir_entries h) (dir_entries r) rws Hn IH)
    with (out := @nil SeafDirent) (ms := ms) as (new & ms1 & Hf & Sub1 & G1 & Rd1 & Mg1); try done.
  { intros nm. split_and!; by apply row_ok_lookup. }
  unfold row. rewrite Hf. cbn [Z.ltb Z.compare]. rewrite app_nil_r.
  destruct (finish_tree_spec b h r new ms1) as (ms2 & -> & Sub2 & G2 & m & Hm & Hperm); try done.
  { eapply stored_from_store; [|exact Sh]. by trans (ms_store ms). }
  { eapply stored_from_store; [|exact Sr]. by trans (ms_store ms). }
  exists ms2. split_and!; [done|by trans (ms_store ms1)|done|]. exists m. split; [done|].
  assert (Hcol : forall od, od ∈ [b; h; r] -> stored st0 version rank (S k) od ->
    forall e, e ∈ column (dir_entries od) rws <-> e ∈ dir_entries od).
  { intros od Hod Hst. apply column_all.
    - by apply (stored_entry st0 version rank Htidy Hrank k _ EmptyString).
    - intros e He. apply Hnames. exists (dir_entries od), e. split_and!; [|done|done].
      by apply (list_elem_of_fmap_2 dir_entries [b; h; r]). }
  apply (merged_ext _ (column (dir_entries b) rws) (column (dir_entries h) rws)
           (column (dir_entries r) rws) new).
  - apply Hcol; [by left|done].
  - apply Hcol; [by right; left|done].
  - apply Hcol; [by right; right; left|done].
  - intros e. by rewrite Hperm.
  - eapply merged_mono; [done|apply G1|done|done].
Qed.
End keeps.

(** ** When the remote has not changed *)

Definition name_ge (d1 d2 : SeafDirent) : Prop := ~ gt_name (d_name d2) (d_name d1).

Lemma name_ge_trans a b c : name_ge a b -> name_ge b c -> name_ge a c.
Proof.
  unfold name_ge. intros H1 H2 H. destruct (gt_name_total (d_name a) (d_name b)) as [E|[Hab|Hba]].
  - by rewrite E in H.
  - apply H2. by trans (d_name a).
  - done.
Qed.

Lemma insert_dirent_sorted d l : StronglySorted name_ge l -> StronglySorted name_ge (insert_dirent d l).
Proof.
  induction 1 as [|d' l Hs IH Hall]; simpl; [repeat constructor|].
  destruct (strcmp (d_name d') (d_name d) <=? 0) eqn:E.
  - assert (Hd : name_ge d d').
    { unfold name_ge. intros Hgt%strcmp_gt. lia. }
    constructor; [by constructor|]. constructor; [done|].
    eapply Forall_impl; [exact Hall|]. intros x Hx. by apply (name_ge_trans _ d').
  - constructor; [done|]. apply Forall_forall. intros x Hx.
    assert (Hperm : insert_dirent d l ≡ₚ d :: l).
    { clear. induction l as [|y l IH]; [done|]. simpl. case_match; [done|]. rewrite IH. constructor. }
    rewrite Hperm in Hx. apply elem_of_cons in Hx as [->|Hx].
    + unfold name_ge. intros Hgt. assert (Hlt : gt_name (d_name d') (d_name d)) by (apply strcmp_gt; lia).
      apply (gt_name_irrefl (d_name d)). by trans (d_name d').
    + rewrite Forall_forall in Hall. by apply Hall.
Qed.

Lemma sort_dirents_sorted l : StronglySorted name_ge (sort_dirents l).
Proof. induction l as [|d l IH]; [constructor|]. by apply insert_dirent_sorted. Qed.

(** Sorting recovers a directory from its entries in any order. *)
Lemma sort_dirents_unique l h : sorted_entries h -> l ≡ₚ h -> sort_dirents l = h.
Proof.
  intros Hh Hp. apply (StronglySorted_unique_strong name_ge).
  - intros x1 x2 H1 H2 G1 G2.
    assert (d_name x1 = d_name x2) as E.
    { destruct (gt_name_total (d_name x1) (d_name x2)) as [|[?|?]]; done. }
    rewrite sort_dirents_perm, Hp in H1.
    pose proof (lookup_name_sorted h x1 Hh H1) as L1. pose proof (lookup_name_sorted h x2 Hh H2) as L2.
    rewrite E in L1. congruence.
  - apply sort_dirents_sorted.
  - clear -Hh. induction Hh as [|a l Hs IH Hall]; constructor; [done|].
    eapply Forall_impl; [exact Hall|]. intros b Hab Hba.
    apply (gt_name_irrefl (d_name a)). by trans (d_name b).
  - by rewrite sort_dirents_perm.
Qed.

Section unchanged.
Context (conflict_filename conflict_dirname : string -> string -> option string).
Context (dir_hash : Z -> list SeafDirent -> string) (write_ok : string -> bool) (version : Z).

Definition file_or_dir (d : SeafDirent) : Prop :=
  S_ISREG (d_mode d) = true \/ S_ISDIR (d_mode d) = true.

Abbreviation row rec := (merge_row conflict_filename conflict_dirname version rec).

Lemma same_id_refl d : same_id d d = true.
Proof. by apply same_id_spec. Qed.

Lemma same_id_sym d1 d2 : same_id d1 d2 = same_id d2 d1.
Proof. apply eq_true_iff_eq. rewrite !same_id_spec. done. Qed.

Lemma files_unchanged x a1 base out ms :
  threeway_merge conflict_filename conflict_dirname [x; a1; x] base out ms
  = (0, [x; a1; x], olist (only S_ISREG a1) ++ out, ms).
Proof.
  unfold threeway_merge. destruct (only S_ISREG x) as [b|], (only S_ISREG a1) as [h|];
    cbn [same_id_opt olist app].
  - rewrite (same_id_sym h b), same_id_refl. by destruct (same_id b h).
  - by rewrite same_id_refl.
  - destruct x as [d|]; [|done]. cbn [same_id_opt]. by rewrite same_id_refl.
  - done.
Qed.

Lemma dirs_unchanged rec x a1 base out ms :
  is_dir x || is_dir a1 || is_dir x = true ->
  merge_directories version rec [x; a1; x] base out ms
  = Some (0, olist (only S_ISDIR a1) ++ out, ms).
Proof.
  intros Hany.
  assert (Ha : only S_ISDIR a1 = if is_dir a1 then a1 else None).
  { destruct a1 as [d|]; [|done]. simpl. by destruct (S_ISDIR (d_mode d)). }
  unfold merge_directories, decide_directories. rewrite dir_mask3, Ha.
  destruct (is_dir x) eqn:Dx, (is_dir a1) eqn:D1; try done; cbn [Z.add Pos.add Pos.succ Pos.add_carry].
  - destruct (is_dir_some _ Dx) as (b & -> & _), (is_dir_some _ D1) as (h & -> & _).
    rewrite (same_id_sym h b), same_id_refl. by destruct (same_id b h).
  - destruct (is_dir_some _ Dx) as (b & -> & _). by rewrite same_id_refl.
  - by destruct (is_dir_some _ D1) as (h & -> & _).
Qed.

(** A name whose remote entry is that of the base keeps the head's entry. *)
Lemma row_unchanged rec base x a1 out ms :
  (forall d, a1 = Some d -> file_or_dir d) ->
  row rec base [x; a1; x] 0 (out, ms) = Some (0, (olist a1 ++ out, ms)).
Proof.
  intros Hk. unfold merge_row.
  assert (Hf : (if has_kind S_ISREG [x; a1; x]
     then merge_entries conflict_filename conflict_dirname [x; a1; x] base out ms
     else (0, [x; a1; x], out, ms)) = (0, [x; a1; x], olist (only S_ISREG a1) ++ out, ms)).
  { destruct (has_kind S_ISREG [x; a1; x]) eqn:E; [apply files_unchanged|].
    assert (only S_ISREG a1 = None) as ->; [|done].
    unfold has_kind in E. destruct a1 as [h|]; [simpl in *|done]. bools. by rewrite H0. }
  rewrite Hf. cbn [Z.ltb Z.compare]. rewrite has_kind_dirs.
  assert (Hsplit : olist (only S_ISDIR a1) ++ olist (only S_ISREG a1) = olist a1).
  { destruct a1 as [h|]; [|done]. cbn. destruct (Hk h eq_refl) as [Hr|Hd].
    - by rewrite Hr, (S_ISREG_not_DIR _ Hr).
    - rewrite Hd. destruct (S_ISREG (d_mode h)) eqn:Hr; [|done].
      by rewrite (S_ISREG_not_DIR _ Hr) in Hd. }
  destruct (is_dir x || is_dir a1 || is_dir x) eqn:E.
  - rewrite dirs_unchanged by done. by rewrite app_assoc, Hsplit.
  - rewrite <- Hsplit. apply orb_false_iff in E as [[_ E]%orb_false_iff _].
    destruct a1 as [h|]; [|done]. simpl in *. by rewrite E.
Qed.

Lemma fold_unchanged rec base X H rws :
  (forall d, d ∈ H -> file_or_dir d) ->
  Forall (fun row => snd row = lookup_name (fst row) <$> [X; H; X]) rws ->
  forall out ms, fold_rows (row rec base) rws 0 (out, ms) =
    Some (0, (reverse (column H rws) ++ out, ms)).
Proof.
  intros Hk. induction rws as [|r rws IH]; intros Hrows out ms; [done|].
  apply Forall_cons in Hrows as [Er Hrows]. cbn [fold_rows]. rewrite Er. cbn [fmap list_fmap].
  rewrite row_unchanged.
  - cbn [Z.ltb Z.compare]. rewrite IH by done. cbn [column].
    rewrite reverse_app, <- app_assoc. do 4 f_equal.
    by destruct (lookup_name (fst r) H).
  - intros d [Hd _]%lookup_name_Some. auto.
Qed.
End unchanged.

Lemma column_perm l rws :
  sorted_entries l -> NoDup (fst <$> rws) -> (forall e, e ∈ l -> d_name e ∈ fst <$> rws) ->
  column l rws ≡ₚ l.
Proof.
  intros Hs Hnd Hall. apply NoDup_Permutation.
  - clear Hall. induction rws as [|r rws IH]; [constructor|]. rewrite fmap_cons in Hnd.
    apply NoDup_cons in Hnd as [Hr Hnd]. simpl. apply NoDup_app. split_and!; [| |auto].
    + destruct (lookup_name (fst r) l); [apply NoDup_singleton|constructor].
    + intros e He Hc. apply olist_name in He. apply elem_of_column in Hc as [_ Hc]. by rewrite He in Hc.
  - clear -Hs. induction Hs as [|d l Hs IH Hall]; constructor; [|done].
    intros Hd. rewrite Forall_forall in Hall. apply Hall in Hd. by apply gt_name_irrefl in Hd.
  - by apply column_all.
Qed.

(** ** Theorems *)

(** C2: a three-way merge of trees of a content-addressed store succeeds, saves a
    readable tree, and keeps every change: a file both sides have is kept; a file
    the head added or changed keeps its path; a file the remote added or changed is
    kept under its path or conflict names of it; and every file of the result comes
    from the head or the remote and was not deleted by the other side since the
    base. *)
Theorem seaf_merge_trees_keeps_changes
    conflict_filename conflict_dirname dir_hash version rank fuel base head remote b h r ms :
  has_names conflict_filename conflict_dirname ->
  collision_free dir_hash version -> addressed dir_hash version (ms_store ms) ->
  tidy (ms_store ms) version -> ranked (ms_store ms) version rank -> typed version (ms_store ms) ->
  seaf_fs_manager_get_seafdir (ms_store ms) version base = Some b ->
  seaf_fs_manager_get_seafdir (ms_store ms) version head = Some h ->
  seaf_fs_manager_get_seafdir (ms_store ms) version remote = Some r ->
  (rank base < fuel)%nat -> (rank head < fuel)%nat -> (rank remote < fuel)%nat ->
  exists ms' m,
    seaf_merge_trees conflict_filename conflict_dirname dir_hash (fun _ => true) version fuel
      [base; head; remote] ms = Some (0, ms') /\
    ms_store ms ⊆ ms_store ms' /\
    seaf_fs_manager_get_seafdir (ms_store ms') version (merged_tree_root ms') = Some m /\
    merged conflict_filename conflict_dirname version (ms_store ms) (ms_store ms')
      (entries b) (entries h) (entries r) (entries m).
Proof.
  intros Hn Hcf Had Ht Hr Hty Hb Hh Hrr F1 F2 F3.
  destruct (merge_rec_merges conflict_filename conflict_dirname dir_hash version Hcf (ms_store ms) rank
    Ht Hr fuel Hn Hty (Some b) (Some h) (Some r) EmptyString ms)
    as (ms' & Hm & Hsub & _ & m & Hget & Hmer).
  - intros d [= <-]. eauto.
  - intros d [= <-]. eauto.
  - intros d [= <-]. eauto.
  - left. by eexists.
  - done.
  - split; [done|]. intros id dir e. apply (tidy_closed _ _ Ht).
  - exists ms', m. split_and!; try done. unfold seaf_merge_trees. simpl. by rewrite Hb, Hh, Hrr.
Qed.

(** when the remote is still the base, the merge yields the head's root, with no
    conflict, no visit of a sub-directory and nothing written. *)
Theorem merge_unchanged_remote
    conflict_filename conflict_dirname dir_hash write_ok version fuel base head b h ms :
  collision_free dir_hash version -> addressed dir_hash version (ms_store ms) ->
  tidy (ms_store ms) version ->
  seaf_fs_manager_get_seafdir (ms_store ms) version base = Some b ->
  seaf_fs_manager_get_seafdir (ms_store ms) version head = Some h ->
  Forall file_or_dir (entries h) ->
  seaf_merge_trees conflict_filename conflict_dirname dir_hash write_ok version (S fuel)
    [base; head; base] ms = Some (0, set_root ms head).
Proof.
  intros Hcf Had Ht Hb Hh Hk. unfold seaf_merge_trees.
  change (load_roots (ms_store ms) version [base; head; base]) with
    (match seaf_fs_manager_get_seafdir (ms_store ms) version base with
     | None => None
     | Some d => dirs ← load_roots (ms_store ms) version [head; base]; Some (Some d :: dirs) end).
  rewrite Hb. simpl load_roots. rewrite Hh, Hb. cbn [length Nat.eqb orb negb mbind option_bind].
  cbn [merge_trees_recursive fmap list_fmap].
  pose proof (tidy_sorted _ _ Ht _ _ Hb) as Sb. pose proof (tidy_sorted _ _ Ht _ _ Hh) as Sh.
  destruct (walk_rows (merge_row conflict_filename conflict_dirname version
    (merge_trees_recursive conflict_filename conflict_dirname dir_hash write_ok version fuel) EmptyString)
    [entries b; entries h; entries b] 0 ([], ms)) as (rws & -> & Hso & Hnames & Hrows);
    [by repeat constructor|].
  rewrite (fold_unchanged _ _ _ _ _ (entries b) (entries h)); [|by apply Forall_forall|done].
  cbn [Z.ltb Z.compare]. rewrite app_nil_r. unfold finish_tree.
  assert (Hsort : sort_dirents (reverse (column (entries h) rws)) = entries h).
  { apply sort_dirents_unique; [done|]. rewrite reverse_Permutation. apply column_perm; [done| |].
    - clear -Hso. induction Hso as [|x l Hs IH Hall]; constructor; [|done].
      intros Hx. rewrite Forall_forall in Hall. apply Hall in Hx. by apply gt_name_irrefl in Hx.
    - intros e He. apply Hnames. exists (entries h), e. split_and!; [by right; left|done|done]. }
  rewrite Hsort.
  pose proof (get_seafdir_id _ _ _ _ Hh) as E1.
  pose proof (get_seafdir_newid dir_hash _ _ _ _ Had Hh) as E2.
  rewrite <- E2, E1, (proj2 (strcmp_eq head head) eq_refl). done.
Qed.

(** the two-way merge of a name that is a file in the head and a directory in
    the remote adds both entries under that name, with no conflict recorded. *)
Theorem twoway_merge_duplicate_names conflict_filename conflict_dirname version rec basedir h r out ms :
  S_ISREG (d_mode h) = true -> S_ISDIR (d_mode r) = true -> d_name h = d_name r ->
  merge_row conflict_filename conflict_dirname version rec basedir [Some h; Some r] 0 (out, ms)
  = Some (0, (r :: h :: out, ms)).
Proof.
  intros Hh Hr _. pose proof (S_ISREG_not_DIR _ Hh) as Hd.
  assert (S_ISREG (d_mode r) = false) as Hr'.
  { destruct (S_ISREG (d_mode r)) eqn:E; [|done]. by rewrite (S_ISREG_not_DIR _ E) in Hr. }
  unfold merge_row, has_kind, merge_entries, twoway_merge, merge_directories, decide_directories, dir_mask.
  simpl. rewrite Hh, Hr'. simpl. rewrite Hd, Hr. done.
Qed.

(** ** Witnesses: an injective hash and a store with two roots over the empty one *)

Fixpoint bits (p : positive) : string :=
  match p with xH => "1" | xO p => String Ascii.zero (bits p) | xI p => String Ascii.one (bits p) end.

Lemma bits_inj p : forall q, bits p = bits q -> p = q.
Proof. induction p; intros []; simpl; try done; intros [= E]; f_equal; auto. all: by destruct p. Qed.

(** A string that shows where it ends: every character is announced. *)
Fixpoint delim (s t : string) : string :=
  match s with
  | EmptyString => String Ascii.zero t
  | String c s => String Ascii.one (String c (delim s t))
  end.

Lemma delim_inj s1 : forall s2 t1 t2, delim s1 t1 = delim s2 t2 -> s1 = s2 /\ t1 = t2.
Proof.
  induction s1 as [|c s1 IH]; intros [|c' s2] t1 t2 E; try done; cbn in E.
  - by injection E as <-.
  - injection E as -> E. by destruct (IH _ _ _ E) as [-> ->].
Qed.

Definition number (z : Z) : string := bits (encode z).

Lemma number_inj z1 z2 : number z1 = number z2 -> z1 = z2.
Proof. intros E%bits_inj. by apply (inj encode) in E. Qed.

Definition ser_dirent (d : SeafDirent) (t : string) : string :=
  delim (number (d_version d)) (delim (number (d_mode d)) (delim (d_id d)
    (delim (number (Z.of_nat (d_name_len d))) (delim (d_name d) (delim (number (d_mtime d))
      (delim (number (d_size d)) (match d_modifier d with
                                  | None => String Ascii.zero t
                                  | Some m => String Ascii.one (delim m t)
                                  end))))))).

Lemma ser_dirent_inj d1 d2 t1 t2 : ser_dirent d1 t1 = ser_dirent d2 t2 -> d1 = d2 /\ t1 = t2.
Proof.
  unfold ser_dirent. intros E. repeat (apply delim_inj in E as [?%number_inj E] || apply delim_inj in E as [? E]).
  destruct d1 as [v1 m1 i1 l1 n1 u1 o1 s1], d2 as [v2 m2 i2 l2 n2 u2 o2 s2]; cbn in *.
  assert (l1 = l2) by lia. subst. destruct o1, o2; try done; injection E as E; [|by subst].
  apply delim_inj in E as [-> ->]. done.
Qed.

(** The text itself stands for its hash. *)
Definition toy_hash (version : Z) (l : list SeafDirent) : string :=
  String slash (foldr ser_dirent EmptyString l).

Lemma toy_hash_collision_free version : collision_free toy_hash version.
Proof.
  split; [|by intros l]. intros l1 l2 [= E]. revert l2 E.
  assert (Hne : forall d t, ser_dirent d t <> EmptyString).
  { intros d t. unfold ser_dirent. by destruct (number (d_version d)). }
  induction l1 as [|d1 l1 IH]; intros [|d2 l2] E; cbn in E; [done|..].
  - by symmetry in E; apply Hne in E.
  - by apply Hne in E.
  - apply ser_dirent_inj in E as [-> E]. by rewrite (IH _ E).
Qed.

Definition root_a : list SeafDirent := [toy_dirent 0x8000 "x" "a"].
Definition root_b : list SeafDirent := [toy_dirent 0x8000 "y" "b"].
Definition merge_store : fs_store :=
  <[toy_hash 1 root_a := ODir (mkDir 1 (toy_hash 1 root_a) root_a)]>
  (<[toy_hash 1 root_b := ODir (mkDir 1 (toy_hash 1 root_b) root_b)]> ∅).
Definition merge_ms : merge_state := mkMS merge_store EMPTY_SHA1 0 false.
Definition toy_conflict (basedir name : string) : option string := Some (name +:+ " (SFConflict)").

Lemma merge_roots :
  seaf_fs_manager_get_seafdir merge_store 1 (toy_hash 1 root_a)
    = Some (mkDir 1 (toy_hash 1 root_a) root_a) /\
  seaf_fs_manager_get_seafdir merge_store 1 (toy_hash 1 root_b)
    = Some (mkDir 1 (toy_hash 1 root_b) root_b).
Proof. split; vm_compute; reflexivity. Qed.

Lemma merge_store_addressed : addressed toy_hash 1 merge_store.
Proof.
  split.
  - intros id d. unfold merge_store. rewrite !lookup_insert_Some, lookup_empty.
    intros [[<- [= <-]]|[_ [[<- [= <-]]|[_ [=]]]]]; done.
  - intros id f l. unfold merge_store. rewrite !lookup_insert_Some, lookup_empty.
    by intros [[_ [=]]|[_ [[_ [=]]|[_ [=]]]]].
Qed.

Lemma merge_store_typed : typed 1 merge_store.
Proof.
  intros id dir e d Hid He _. assert (Hx : d_id e = "x" \/ d_id e = "y").
  { unfold seaf_fs_manager_get_seafdir in Hid. destruct (String.eqb id EMPTY_SHA1).
    { injection Hid as <-. by apply not_elem_of_nil in He. }
    destruct (merge_store !! id) as [[d'|]|] eqn:E; [|done..]. injection Hid as <-. revert E.
    unfold merge_store. rewrite !lookup_insert_Some, lookup_empty.
    intros [[_ [= <-]]|[_ [[_ [= <-]]|[_ [=]]]]]; apply list_elem_of_singleton in He as ->; auto. }
  unfold merge_store. rewrite !lookup_insert_Some, lookup_empty.
  destruct Hx as [-> | ->]; by intros [[[=] _]|[_ [[[=] _]|[_ [=]]]]].
Qed.

Lemma seaf_merge_trees_keeps_changes_witness :
  exists ms' m,
    seaf_merge_trees toy_conflict toy_conflict toy_hash (fun _ => true) 1 1
      [EMPTY_SHA1; toy_hash 1 root_a; toy_hash 1 root_b] merge_ms = Some (0, ms') /\
    seaf_fs_manager_get_seafdir (ms_store ms') 1 (merged_tree_root ms') = Some m /\
    list_file (ms_store ms') 1 (entries m) ["a"] "x".
Proof.
  destruct (check_store_sound merge_store 1 (fun _ => 0%nat)) as [T R]; [vm_compute; reflexivity|].
  destruct (seaf_merge_trees_keeps_changes toy_conflict toy_conflict toy_hash 1 (fun _ => 0%nat) 1
    EMPTY_SHA1 (toy_hash 1 root_a) (toy_hash 1 root_b) (mkDir 1 EMPTY_SHA1 [])
    (mkDir 1 (toy_hash 1 root_a) root_a) (mkDir 1 (toy_hash 1 root_b) root_b) merge_ms)
    as (ms' & m & E & _ & G & M); [|apply toy_hash_collision_free|apply merge_store_addressed
      |exact T|exact R|apply merge_store_typed|reflexivity|apply merge_roots|apply merge_roots|lia|lia|lia|].
  - intros bd nm. split; by eexists.
  - exists ms', m. split_and!; [exact E|exact G|].
    apply (ml_head _ _ _ _ _ _ _ _ _ M); clear.
    + exists (toy_dirent 0x8000 "x" "a"). split; [by left|by constructor].
    + intros (e & ?%not_elem_of_nil & _). done.
Defined.

Lemma merge_unchanged_remote_witness :
  seaf_merge_trees toy_conflict toy_conflict toy_hash (fun _ => false) 1 1
    [toy_hash 1 root_a; toy_hash 1 root_b; toy_hash 1 root_a] merge_ms
  = Some (0, set_root merge_ms (toy_hash 1 root_b)).
Proof.
  destruct (check_store_sound merge_store 1 (fun _ => 0%nat)) as [T _]; [vm_compute; reflexivity|].
  apply (merge_unchanged_remote toy_conflict toy_conflict toy_hash (fun _ => false) 1 0
    (toy_hash 1 root_a) (toy_hash 1 root_b)
    (mkDir 1 (toy_hash 1 root_a) root_a) (mkDir 1 (toy_hash 1 root_b) root_b)).
  - apply toy_hash_collision_free.
  - apply merge_store_addressed.
  - exact T.
  - apply merge_roots.
  - apply merge_roots.
  - repeat constructor.
Defined.

Lemma twoway_merge_duplicate_names_witness :
  merge_row toy_conflict toy_conflict 1 (fun _ _ _ => None) EmptyString
    [Some (toy_dirent 0x8000 "x" "a"); Some (toy_dirent 0x4000 "y" "a")] 0 ([], merge_ms)
  = Some (0, ([toy_dirent 0x4000 "y" "a"; toy_dirent 0x8000 "x" "a"], merge_ms)).
Proof. by apply (twoway_merge_duplicate_names toy_conflict toy_conflict 1 (fun _ _ _ => None)). Defined.
