(* ===== verification/CommitMgr.v ===== *)
(** * Commits and their history graph ([common/commit-mgr.c])

    The commits of a repository as a map from ids, saving a commit, and the
    traversals of the history: newest commit first, every commit at most once,
    a callback that may fail or stop the walk down a branch. *)

From S2P Require Import Prelude Hex FsObj Paths.

(** [SeafCommit] (the pointer to the manager and the reference count aside). *)
Record SeafCommit := mkCommit {
  commit_id : string;
  repo_id : string;
  root_id : string;
  desc : string;
  creator_name : option string;
  creator_id : string;
  ctime : Z;
  parent_id : option string;
  second_parent_id : option string;
  repo_name : option string;
  repo_desc : option string;
  repo_category : option string;
  device_name : option string;
  client_version : option string;
  encrypted : bool;
  enc_version : Z;
  magic : option string;
  random_key : option string;
  salt : option string;
  pwd_hash : option string;
  pwd_hash_algo : option string;
  pwd_hash_params : option string;
  no_local_history : bool;
  version : Z;
  new_merge : bool;
  conflict : bool;
  repaired : bool
}.

#[global] Instance SeafCommit_eq_dec : EqDecision SeafCommit.
Proof. solve_decision. Defined.

Definition set_commit_id (c : SeafCommit) (id : string) : SeafCommit :=
  mkCommit id (repo_id c) (root_id c) (desc c) (creator_name c) (creator_id c) (ctime c)
    (parent_id c) (second_parent_id c) (repo_name c) (repo_desc c) (repo_category c) (device_name c)
    (client_version c) (encrypted c) (enc_version c) (magic c) (random_key c) (salt c) (pwd_hash c)
    (pwd_hash_algo c) (pwd_hash_params c) (no_local_history c) (version c) (new_merge c) (conflict c)
    (repaired c).

Definition set_parents (c : SeafCommit) (p1 p2 : option string) : SeafCommit :=
  mkCommit (commit_id c) (repo_id c) (root_id c) (desc c) (creator_name c) (creator_id c) (ctime c)
    p1 p2 (repo_name c) (repo_desc c) (repo_category c) (device_name c)
    (client_version c) (encrypted c) (enc_version c) (magic c) (random_key c) (salt c) (pwd_hash c)
    (pwd_hash_algo c) (pwd_hash_params c) (no_local_history c) (version c) (new_merge c) (conflict c)
    (repaired c).

Abbreviation commit_store := (gmap string SeafCommit).

(** [load_commit] of a decoded store: the id must have 40 characters, and becomes
    the commit's. *)
Definition seaf_commit_manager_get_commit (cs : commit_store) (id : string) : option SeafCommit :=
  if negb (String.length id =? 40)%nat then None
  else match cs !! id with
       | Some c => Some (set_commit_id c id)
       | None => None
       end.

(** ** New commits *)

(** [memcpy] of the first [n] characters and a terminator. *)
Fixpoint string_take (n : nat) (s : string) : string :=
  match n, s with S n, String c s => String c (string_take n s) | _, _ => EmptyString end.

Lemma string_take_id s : string_take (String.length s) s = s.
Proof. induction s as [|c s IH]; simpl; [done|by rewrite IH]. Qed.

Section new.
(** SHA-1 of a byte string. *)
Context (sha1 : list Z -> list Z).

Definition nul_terminated (s : string) : list Z := bytes_of_string s ++ [0].

Definition compute_commit_id (root_id creator_id : string) (creator_name : option string)
    (desc : string) (ctime : Z) : string :=
  rawdata_to_hex (sha1
    (nul_terminated root_id ++ nul_terminated creator_id ++
     match creator_name with Some n => nul_terminated n | None => [] end ++
     nul_terminated desc ++ be_bytes 8 ctime)).

(** [now] is [time (NULL)]. *)
Definition seaf_commit_new (now : Z) (commit_id : option string) (repo_id root_id : string)
    (creator_name : option string) (creator_id desc : string) (ctime : Z) : SeafCommit :=
  let repo_id := string_take 36 repo_id in
  let root_id := string_take 40 root_id in
  let creator_id := string_take 40 creator_id in
  let ctime := if ctime =? 0 then now else ctime in
  let id := match commit_id with
            | None => compute_commit_id root_id creator_id creator_name desc ctime
            | Some id => string_take 40 id
            end in
  mkCommit id repo_id root_id desc creator_name creator_id ctime None None
    None None None None None false 0 None None None None None None false 0 false false false.
End new.

(** [save_commit]: an existing object is not written again; [write_ok] is the
    outcome of the write. *)
Definition save_commit (write_ok : bool) (cs : commit_store) (c : SeafCommit) : Z * commit_store :=
  match cs !! commit_id c with
  | Some _ => (0, cs)
  | None => if write_ok then (0, <[commit_id c := c]> cs) else (-1, cs)
  end.

Definition seaf_commit_manager_add_commit (write_ok : bool) (cs : commit_store) (c : SeafCommit)
  : Z * commit_store :=
  let '(ret, cs) := save_commit write_ok cs c in (if ret <? 0 then -1 else 0, cs).

Definition seaf_commit_manager_del_commit (cs : commit_store) (id : string) : commit_store := delete id cs.

Definition seaf_commit_manager_commit_exists (cs : commit_store) (id : string) : bool :=
  match cs !! id with Some _ => true | None => false end.

(** ** Traversal *)

(** The difference of the [guint64] times, converted to [gint]. *)
Definition compare_commit_by_time (a b : SeafCommit) : Z := s32 (u64 (ctime b - ctime a)).

(** [g_list_insert_sorted_with_data] *)
Fixpoint insert_sorted (c : SeafCommit) (l : list SeafCommit) : list SeafCommit :=
  match l with
  | [] => [c]
  | x :: l' => if 0 <? compare_commit_by_time c x then x :: insert_sorted c l' else c :: l
  end.

Section traverse.
Context {D : Type}.
(** The callback: its result, the [stop] flag, the new user data. *)
Context (func : SeafCommit -> D -> bool * bool * D).
Context (cs : commit_store) (skip_errors : bool).

(** The pending commits and the table of scheduled ids. *)
Definition insert_parent_commit (allow_truncate : bool) (pending : list SeafCommit)
    (hash : gset string) (parent_id : string) : Z * list SeafCommit * gset string :=
  if decide (parent_id ∈ hash) then (0, pending, hash)
  else match seaf_commit_manager_get_commit cs parent_id with
       | None => (if allow_truncate then 0 else -1, pending, hash)
       | Some p => (0, insert_sorted p pending, {[parent_id]} ∪ hash)
       end.

(** An optional parent. *)
Definition insert_opt_parent (allow_truncate : bool) (pending : list SeafCommit) (hash : gset string)
    (parent : option string) : Z * list SeafCommit * gset string :=
  match parent with
  | None => (0, pending, hash)
  | Some id => insert_parent_commit allow_truncate pending hash id
  end.

(** The loop; [None] means out of fuel. *)
Fixpoint traverse_loop (allow_truncate : bool) (fuel : nat) (pending : list SeafCommit)
    (hash : gset string) (data : D) : option (bool * D) :=
  match pending with
  | [] => Some (true, data)
  | commit :: pending =>
      match fuel with
      | O => None
      | S fuel =>
          let '(ok, stop, data) := func commit data in
          if negb ok && negb skip_errors then Some (false, data)
          else if (stop : bool) then traverse_loop allow_truncate fuel pending hash data
          else
            let '(ret, pending, hash) :=
              insert_opt_parent allow_truncate pending hash (parent_id commit) in
            if (ret <? 0) && negb skip_errors then Some (false, data)
            else
              let '(ret, pending, hash) :=
                insert_opt_parent allow_truncate pending hash (second_parent_id commit) in
              if (ret <? 0) && negb skip_errors then Some (false, data)
              else traverse_loop allow_truncate fuel pending hash data
      end
  end.

Definition traverse_commit_tree_common (allow_truncate : bool) (fuel : nat) (head : string) (data : D)
  : option (bool * D) :=
  match seaf_commit_manager_get_commit cs head with
  | None => Some (false, data)
  | Some commit =>
      traverse_loop allow_truncate fuel (insert_sorted commit []) {[commit_id commit]} data
  end.

Definition seaf_commit_manager_traverse_commit_tree (fuel : nat) (head : string) (data : D)
  : option (bool * D) :=
  traverse_commit_tree_common false fuel head data.

Definition seaf_commit_manager_traverse_commit_tree_truncated (fuel : nat) (head : string) (data : D)
  : option (bool * D) :=
  traverse_commit_tree_common true fuel head data.

(** With a limit on the number of commits; the walk does not stop at an unmerged
    branch, and the pending commit is where the next walk starts. *)
Fixpoint traverse_limit_loop (limit : Z) (fuel : nat) (pending : list SeafCommit) (hash : gset string)
    (count : Z) (data : D) : option (bool * D * option string) :=
  match pending with
  | [] => Some (true, data, None)
  | commit :: pending =>
      match fuel with
      | O => None
      | S fuel =>
          let '(ok, stop, data) := func commit data in
          if negb ok && negb skip_errors then Some (false, data, None)
          else if (stop : bool) then traverse_limit_loop limit fuel pending hash count data
          else
            let '(ret, pending, hash) := insert_opt_parent false pending hash (parent_id commit) in
            if (ret <? 0) && negb skip_errors then Some (false, data, None)
            else
              let '(ret, pending, hash) :=
                insert_opt_parent false pending hash (second_parent_id commit) in
              if (ret <? 0) && negb skip_errors then Some (false, data, None)
              else if 0 <? limit then
                let count := count + 1 in
                if (limit <=? count) && (length pending <=? 1)%nat
                then Some (true, data, commit_id <$> head pending)
                else traverse_limit_loop limit fuel pending hash count data
              else traverse_limit_loop limit fuel pending hash count data
      end
  end.

Definition seaf_commit_manager_traverse_commit_tree_with_limit (fuel : nat) (limit : Z)
    (head : string) (data : D) : option (bool * D * option string) :=
  match seaf_commit_manager_get_commit cs head with
  | None => Some (false, data, None)
  | Some commit =>
      traverse_limit_loop limit fuel (insert_sorted commit []) {[commit_id commit]} 0 data
  end.
End traverse.

(** ** The commits a traversal visits *)

Lemma get_commit_id cs id c : seaf_commit_manager_get_commit cs id = Some c -> commit_id c = id.
Proof.
  unfold seaf_commit_manager_get_commit. destruct (negb _); [done|].
  destruct (cs !! id); [|done]. by intros [= <-].
Qed.

Lemma get_commit_mono (cs cs' : commit_store) id c :
  cs ⊆ cs' -> seaf_commit_manager_get_commit cs id = Some c -> seaf_commit_manager_get_commit cs' id = Some c.
Proof.
  intros Hs. unfold seaf_commit_manager_get_commit. destruct (negb _); [done|].
  destruct (cs !! id) as [c0|] eqn:E; [|done]. by rewrite (lookup_weaken _ _ _ _ E Hs).
Qed.

Lemma insert_sorted_perm c l : insert_sorted c l ≡ₚ c :: l.
Proof.
  induction l as [|x l IH]; [done|]. simpl. case_match; [|done]. rewrite IH. constructor.
Qed.

(** The parents of a commit. *)
Definition parents (c : SeafCommit) : list string :=
  match parent_id c with Some p => [p] | None => [] end ++
  match second_parent_id c with Some p => [p] | None => [] end.

(** The commits the callback was called with, in order, with its stop flags. *)
Inductive runs {D} (func : SeafCommit -> D -> bool * bool * D) :
  D -> list (SeafCommit * bool) -> D -> Prop :=
| runs_nil d : runs func d [] d
| runs_cons d c stop d' tr d'' :
    func c d = (true, stop, d') -> runs func d' tr d'' -> runs func d ((c, stop) :: tr) d''.

Abbreviation ids tr := ((fun x => commit_id (fst x)) <$> tr).

Section trace.
Context (cs : commit_store) (allow : bool).
Abbreviation get := (seaf_commit_manager_get_commit cs).

(** The pending commits, the scheduled ids and the commits visited so far. *)
Record trav_inv (pending : list SeafCommit) (hash : gset string) (tr : list (SeafCommit * bool)) : Prop := {
  ti_hash : forall id, id ∈ hash <-> id ∈ commit_id <$> pending \/ id ∈ ids tr;
  ti_nodup : NoDup ((commit_id <$> pending) ++ ids tr);
  ti_pending : forall c, c ∈ pending -> get (commit_id c) = Some c;
  ti_visited : forall x, x ∈ tr -> get (commit_id (fst x)) = Some (fst x);
  ti_parents : forall c p, (c, false) ∈ tr -> p ∈ parents c -> p ∈ hash \/ (allow = true /\ get p = None)
}.

Lemma insert_parent_inv pending hash tr p pending' hash' ret :
  trav_inv pending hash tr -> insert_parent_commit cs allow pending hash p = (ret, pending', hash') ->
  trav_inv pending' hash' tr /\ hash ⊆ hash' /\ (ret = 0 \/ ret = -1) /\ (ret = 0 -> p ∈ hash' \/ (allow = true /\ get p = None)).
Proof.
  intros [H1 H2 H3 H4 H5]. unfold insert_parent_commit. destruct (decide (p ∈ hash)).
  { intros [= <- <- <-]. split_and!; [by split|done|by left|by left]. }
  destruct (get p) as [c|] eqn:E.
  - intros [= <- <- <-]. pose proof (get_commit_id _ _ _ E) as Ei. split_and!; [|set_solver|by left|left; set_solver].
    split.
    + intros id. rewrite elem_of_union, elem_of_singleton, H1, insert_sorted_perm, fmap_cons, elem_of_cons.
      rewrite Ei. tauto.
    + rewrite insert_sorted_perm, fmap_cons. simpl. apply NoDup_cons. split; [|done].
      rewrite elem_of_app, Ei, <- H1. done.
    + intros x. rewrite insert_sorted_perm, elem_of_cons. intros [->|Hx]; [by rewrite Ei|auto].
    + done.
    + intros x q Hx Hq. destruct (H5 x q Hx Hq); [left; set_solver|by right].
  - intros [= <- <- <-]. split_and!; [by split|done| |].
    + destruct allow; auto.
    + right. by destruct allow.
Qed.

Lemma insert_opt_inv pending hash tr op pending' hash' ret :
  trav_inv pending hash tr -> insert_opt_parent cs allow pending hash op = (ret, pending', hash') ->
  trav_inv pending' hash' tr /\ hash ⊆ hash' /\ (ret = 0 \/ ret = -1) /\
  (ret = 0 -> forall p, op = Some p -> p ∈ hash' \/ (allow = true /\ get p = None)).
Proof.
  intros Hi. destruct op as [p|]; simpl.
  - intros H. destruct (insert_parent_inv _ _ _ _ _ _ _ Hi H) as (? & ? & ? & Hp).
    split_and!; try done. intros E q [= <-]. auto.
  - intros [= <- <- <-]. split_and!; [done|done|by left|done].
Qed.

Lemma inv_move c pending hash tr :
  trav_inv (c :: pending) hash tr -> trav_inv pending hash (tr ++ [(c, true)]).
Proof.
  intros [H1 H2 H3 H4 H5]. split.
  - intros id. rewrite H1, fmap_app, fmap_cons, elem_of_cons, elem_of_app. simpl. set_solver.
  - rewrite fmap_app, app_assoc. simpl. rewrite <- Permutation_cons_append. done.
  - intros x Hx. apply H3. by right.
  - intros x [Hx| ->%list_elem_of_singleton]%elem_of_app; [auto|]. apply H3. by left.
  - intros x p [Hx|Hx%list_elem_of_singleton]%elem_of_app; [eauto|done].
Qed.

Lemma inv_unstop c pending hash tr :
  (forall p, p ∈ parents c -> p ∈ hash \/ (allow = true /\ get p = None)) ->
  trav_inv pending hash (tr ++ [(c, true)]) -> trav_inv pending hash (tr ++ [(c, false)]).
Proof.
  intros Hp [H1 H2 H3 H4 H5]. rewrite fmap_app in *. split; [by rewrite fmap_app|by rewrite fmap_app|done| |].
  - intros x [Hx| ->%list_elem_of_singleton]%elem_of_app; [apply H4; set_solver|].
    apply (H4 (c, true)). set_solver.
  - intros x p [Hx|Hx%list_elem_of_singleton]%elem_of_app.
    + apply H5. set_solver.
    + injection Hx as ->. auto.
Qed.

(** The result of a successful walk over all of the history it reaches. *)
Record visited_all (hash : gset string) (tr : list (SeafCommit * bool)) : Prop := {
  va_nodup : NoDup (ids tr);
  va_hash : forall id, id ∈ hash -> id ∈ ids tr;
  va_get : forall x, x ∈ tr -> get (commit_id (fst x)) = Some (fst x);
  va_parents : forall c p, (c, false) ∈ tr -> p ∈ parents c ->
    p ∈ ids tr \/ (allow = true /\ get p = None)
}.

Lemma visited_all_intro hash tr : trav_inv [] hash tr -> visited_all hash tr.
Proof.
  intros [H1 H2 H3 H4 H5]. simpl in *.
  assert (Hh : forall id, id ∈ hash -> id ∈ ids tr) by (intros id; rewrite H1; set_solver).
  split; [done|done|done|]. intros c p Hc Hp. destruct (H5 c p Hc Hp); auto.
Qed.

(** A property the parents inherit. *)
Definition inherited (P : SeafCommit -> Prop) : Prop :=
  forall c p c', P c -> p ∈ parents c -> get p = Some c' -> P c'.

Lemma insert_opt_Forall (P : SeafCommit -> Prop) c pending hash op pending' hash' ret :
  inherited P -> P c -> (forall p, op = Some p -> p ∈ parents c) -> Forall P pending ->
  insert_opt_parent cs allow pending hash op = (ret, pending', hash') -> Forall P pending'.
Proof.
  intros HP Hc Ho HF. destruct op as [p|]; simpl; [|by intros [= <- <- <-]].
  unfold insert_parent_commit. case_decide; [by intros [= <- <- <-]|].
  destruct (get p) as [c'|] eqn:E; intros [= <- <- <-]; [|done].
  rewrite insert_sorted_perm. constructor; [|done]. eapply HP; eauto.
Qed.

Lemma parent_in c p : parent_id c = Some p -> p ∈ parents c.
Proof. intros E. apply elem_of_app. left. rewrite E. by left. Qed.

Lemma second_parent_in c p : second_parent_id c = Some p -> p ∈ parents c.
Proof. intros E. apply elem_of_app. right. rewrite E. by left. Qed.

Lemma parents_inv c p : p ∈ parents c -> parent_id c = Some p \/ second_parent_id c = Some p.
Proof.
  intros [Hp|Hp]%elem_of_app.
  - destruct (parent_id c); [|by apply not_elem_of_nil in Hp].
    apply list_elem_of_singleton in Hp as ->. auto.
  - destruct (second_parent_id c); [|by apply not_elem_of_nil in Hp].
    apply list_elem_of_singleton in Hp as ->. auto.
Qed.

(** One turn of the loop that does not stop: both parents scheduled. *)
Lemma schedule_parents c pending hash tr r1 p1 h1 r2 p2 h2 :
  trav_inv (c :: pending) hash tr ->
  insert_opt_parent cs allow pending hash (parent_id c) = (r1, p1, h1) ->
  insert_opt_parent cs allow p1 h1 (second_parent_id c) = (r2, p2, h2) ->
  (r1 <? 0) = false -> (r2 <? 0) = false -> trav_inv p2 h2 (tr ++ [(c, false)]) /\ hash ⊆ h2.
Proof.
  intros Hi E1 E2 N1 N2. pose proof (inv_move _ _ _ _ Hi) as Hm.
  destruct (insert_opt_inv _ _ _ _ _ _ _ Hm E1) as (I1 & S1 & [-> | ->] & P1); [|done].
  destruct (insert_opt_inv _ _ _ _ _ _ _ I1 E2) as (I2 & S2 & [-> | ->] & P2); [|done].
  split; [|set_solver].
  apply inv_unstop; [|done]. intros p [Hp|Hp]%parents_inv; [|by apply P2].
  destruct (P1 eq_refl p Hp); [left; by apply S2|by right].
Qed.

Lemma trav_inv_start c head : get head = Some c -> trav_inv [c] {[commit_id c]} [].
Proof.
  intros E. pose proof (get_commit_id _ _ _ E) as Ei. split; simpl.
  - intros id. rewrite elem_of_singleton, list_elem_of_singleton. set_solver.
  - apply NoDup_singleton.
  - intros x ->%list_elem_of_singleton. by rewrite Ei.
  - by intros x ?%not_elem_of_nil.
  - by intros x p ?%not_elem_of_nil.
Qed.

Context {D : Type} (func : SeafCommit -> D -> bool * bool * D).

(** A successful walk visits every scheduled commit once, and the parents of
    those that did not stop it. *)
Lemma traverse_loop_trace P fuel : inherited P -> forall pending hash tr d d',
  trav_inv pending hash tr -> Forall P pending ->
  traverse_loop func cs false allow fuel pending hash d = Some (true, d') ->
  exists tr', runs func d tr' d' /\ visited_all hash (tr ++ tr') /\
    Forall (fun x => P (fst x)) tr' /\ fst <$> head tr' = head pending.
Proof.
  intros HP. induction fuel as [|fuel IH]; intros [|c pending] hash tr d d' Hi HF Hrun; try done;
    simpl in Hrun.
  - injection Hrun as <-. exists []. rewrite app_nil_r.
    split_and!; [constructor|by apply visited_all_intro|constructor|done].
  - injection Hrun as <-. exists []. rewrite app_nil_r.
    split_and!; [constructor|by apply visited_all_intro|constructor|done].
  - destruct (func c d) as [[ok stop] d1] eqn:Ef. destruct ok; [simpl in Hrun|done].
    pose proof (inv_move _ _ _ _ Hi) as Hm. apply Forall_cons in HF as [Hc HF].
    destruct stop.
    + destruct (IH _ _ _ _ _ Hm HF Hrun) as (tr' & Hr & Hv & HFt & _).
      exists ((c, true) :: tr'). rewrite <- app_assoc in Hv.
      split_and!; [by econstructor|done|by constructor|done].
    + destruct (insert_opt_parent cs allow pending hash (parent_id c)) as [[r1 p1] h1] eqn:E1.
      pose proof (insert_opt_Forall P c _ _ _ _ _ _ HP Hc (parent_in c) HF E1) as F1.
      destruct (r1 <? 0) eqn:N1; [done|]. simpl in Hrun.
      destruct (insert_opt_parent cs allow p1 h1 (second_parent_id c)) as [[r2 p2] h2] eqn:E2.
      pose proof (insert_opt_Forall P c _ _ _ _ _ _ HP Hc (second_parent_in c) F1 E2) as F2.
      destruct (r2 <? 0) eqn:N2; [done|]. simpl in Hrun.
      destruct (schedule_parents _ _ _ _ _ _ _ _ _ _ Hi E1 E2 N1 N2) as [I2 S2].
      destruct (IH _ _ _ _ _ I2 F2 Hrun) as (tr' & Hr & [V1 V2 V3 V4] & HFt & _).
      exists ((c, false) :: tr'). split_and!; [by econstructor| |by constructor|done].
      rewrite <- app_assoc in V1, V2, V3, V4. split; eauto.
Qed.

Lemma traverse_tree_trace P fuel id d d' :
  inherited P -> (forall c, get id = Some c -> P c) ->
  traverse_commit_tree_common func cs false allow fuel id d = Some (true, d') ->
  exists c tr, get id = Some c /\ runs func d tr d' /\ visited_all {[id]} tr /\
    Forall (fun x => P (fst x)) tr /\ fst <$> head tr = Some c.
Proof.
  intros HP Hid. unfold traverse_commit_tree_common.
  destruct (get id) as [c|] eqn:E; [|done]. pose proof (get_commit_id _ _ _ E) as Ei. intros Hrun.
  destruct (traverse_loop_trace P _ HP _ _ _ _ _ (trav_inv_start _ _ E) ltac:(repeat constructor; auto) Hrun)
    as (tr & Hr & Hv & HF & Hh).
  exists c, tr. rewrite Ei in Hv. done.
Qed.

(** A walk fails only on a missing parent, or when the callback does. *)
Lemma traverse_loop_no_failure P fuel : inherited P ->
  (forall c d, fst (fst (func c d)) = true) ->
  (allow = true \/ forall c p, P c -> p ∈ parents c -> is_Some (get p)) ->
  forall pending hash d r d', Forall P pending ->
  traverse_loop func cs false allow fuel pending hash d = Some (r, d') -> r = true.
Proof.
  intros HP Hf Hc. induction fuel as [|fuel IH]; intros [|c pending] hash d r d' HF Hrun; simpl in Hrun;
    try congruence.
  specialize (Hf c d) as Hok. destruct (func c d) as [[ok stop] d1]. simpl in Hok. subst ok.
  simpl in Hrun. apply Forall_cons in HF as [HPc HF]. destruct stop; [by eapply IH|].
  assert (Hins : forall op pe h r1 p1 h1, (forall p, op = Some p -> p ∈ parents c) ->
    insert_opt_parent cs allow pe h op = (r1, p1, h1) -> r1 = 0).
  { intros [p|] pe h r1 p1 h1 Hop; simpl; [|by intros [= <- <- <-]]. unfold insert_parent_commit.
    case_decide; [by intros [= <- <- <-]|]. destruct (get p) eqn:E; [by intros [= <- <- <-]|].
    intros [= <- <- <-]. destruct Hc as [-> | Hc]; [done|].
    destruct (Hc c p HPc (Hop p eq_refl)). congruence. }
  destruct (insert_opt_parent cs allow pending hash (parent_id c)) as [[r1 p1] h1] eqn:E1.
  pose proof (Hins _ _ _ _ _ _ (parent_in c) E1) as ->. simpl in Hrun.
  pose proof (insert_opt_Forall P c _ _ _ _ _ _ HP HPc (parent_in c) HF E1) as F1.
  destruct (insert_opt_parent cs allow p1 h1 (second_parent_id c)) as [[r2 p2] h2] eqn:E2.
  pose proof (Hins _ _ _ _ _ _ (second_parent_in c) E2) as ->. simpl in Hrun.
  pose proof (insert_opt_Forall P c _ _ _ _ _ _ HP HPc (second_parent_in c) F1 E2) as F2.
  by eapply IH.
Qed.

(** ** Enough fuel: a commit is scheduled once *)

Lemma insert_opt_measure pending (hash : gset string) op pending' hash' ret :
  hash ⊆ dom cs -> insert_opt_parent cs allow pending hash op = (ret, pending', hash') ->
  hash' ⊆ dom cs /\ (length pending' + (size cs - size hash') <= length pending + (size cs - size hash))%nat.
Proof.
  intros Hs. destruct op as [p|]; simpl; [|intros [= <- <- <-]; split; [done|lia]].
  unfold insert_parent_commit. destruct (decide (p ∈ hash)); [intros [= <- <- <-]; split; [done|lia]|].
  destruct (get p) as [c|] eqn:E; [|intros [= <- <- <-]; split; [done|lia]].
  intros [= <- <- <-].
  assert (p ∈ dom cs) as Hp.
  { unfold seaf_commit_manager_get_commit in E. destruct (negb _); [done|].
    destruct (cs !! p) eqn:El; [|done]. by eapply elem_of_dom_2. }
  assert (Hsub : {[p]} ∪ hash ⊆ dom cs) by set_solver. split; [done|].
  pose proof (subseteq_size _ _ Hsub) as Hle. rewrite size_dom in Hle.
  rewrite size_union in * by set_solver. rewrite size_singleton in *.
  rewrite (Permutation_length (insert_sorted_perm c pending)). simpl. lia.
Qed.

Lemma traverse_loop_total skip fuel : forall pending (hash : gset string) d,
  hash ⊆ dom cs -> (length pending + (size cs - size hash) <= fuel)%nat ->
  is_Some (traverse_loop func cs skip allow fuel pending hash d).
Proof.
  induction fuel as [|fuel IH]; intros [|c pending] hash d Hs Hf; simpl in *; try by eexists.
  { lia. }
  destruct (func c d) as [[ok stop] d1]. destruct (_ && _); [by eexists|].
  destruct stop; [apply IH; [done|lia]|].
  destruct (insert_opt_parent cs allow pending hash (parent_id c)) as [[r1 p1] h1] eqn:E1.
  destruct (insert_opt_measure _ _ _ _ _ _ Hs E1) as [S1 M1]. destruct (_ && _); [by eexists|].
  destruct (insert_opt_parent cs allow p1 h1 (second_parent_id c)) as [[r2 p2] h2] eqn:E2.
  destruct (insert_opt_measure _ _ _ _ _ _ S1 E2) as [S2 M2]. destruct (_ && _); [by eexists|].
  apply IH; [done|lia].
Qed.

Lemma traverse_total skip fuel head d :
  (size cs <= fuel)%nat -> is_Some (traverse_commit_tree_common func cs skip allow fuel head d).
Proof.
  intros Hf. unfold traverse_commit_tree_common. destruct (get head) as [c|] eqn:E; [|by eexists].
  assert (head ∈ dom cs) as Hin.
  { unfold seaf_commit_manager_get_commit in E. destruct (negb _); [done|].
    destruct (cs !! head) eqn:El; [|done]. by eapply elem_of_dom_2. }
  rewrite (get_commit_id _ _ _ E). assert (Hs : ({[head]} : gset string) ⊆ dom cs) by set_solver.
  pose proof (subseteq_size _ _ Hs) as Hle. rewrite size_dom, size_singleton in Hle.
  apply traverse_loop_total; [done|]. rewrite size_singleton. simpl. lia.
Qed.
End trace.

(** ** What the traversals promise *)

(** The commits of the history of [start], through commits that can be loaded. *)
Inductive ancestor (cs : commit_store) (start : string) : SeafCommit -> Prop :=
| anc_self c : seaf_commit_manager_get_commit cs start = Some c -> ancestor cs start c
| anc_parent c p c' :
    ancestor cs start c -> p ∈ parents c -> seaf_commit_manager_get_commit cs p = Some c' ->
    ancestor cs start c'.

Lemma ancestor_get cs start c :
  ancestor cs start c -> seaf_commit_manager_get_commit cs (commit_id c) = Some c.
Proof.
  intros [c' E|c0 p c' _ _ E]; pose proof (get_commit_id _ _ _ E) as Ei; by rewrite Ei.
Qed.

Lemma runs_foldl {D} (func : SeafCommit -> D -> bool * bool * D) d tr d' :
  runs func d tr d' -> d' = foldl (fun d c => snd (func c d)) d (fst <$> tr).
Proof. induction 1 as [|d c stop d' tr d'' Ef _ IH]; simpl; [done|by rewrite Ef]. Qed.

Lemma runs_stop {D} (func : SeafCommit -> D -> bool * bool * D) d tr d' :
  runs func d tr d' -> (forall c d, fst (func c d) = (true, false)) ->
  forall x, x ∈ tr -> snd x = false.
Proof.
  intros Hr Hf. induction Hr as [|d c stop d' tr d'' Ef _ IH]; intros x; [by intros ?%not_elem_of_nil|].
  intros [-> | Hx]%elem_of_cons; [|auto]. specialize (Hf c d). rewrite Ef in Hf. by injection Hf.
Qed.

(** The trace of a walk that nothing stops is the whole history. *)
Lemma visited_all_ancestor cs allow start tr :
  visited_all cs allow {[start]} tr -> (forall x, x ∈ tr -> snd x = false) ->
  forall c, ancestor cs start c -> commit_id c ∈ ids tr.
Proof.
  intros [V1 V2 V3 V4] Hst c Hc. induction Hc as [c E|c p c' Hc IH Hp E].
  - rewrite (get_commit_id _ _ _ E). apply V2. set_solver.
  - rewrite (get_commit_id _ _ _ E). apply list_elem_of_fmap in IH as ([c0 b] & Ei & Hx). simpl in Ei.
    pose proof (V3 _ Hx) as E0. simpl in E0. rewrite <- Ei, (ancestor_get _ _ _ Hc) in E0.
    injection E0 as <-. pose proof (Hst _ Hx) as Hb. simpl in Hb. subst b.
    destruct (V4 c p Hx Hp) as [|[_ Hn]]; [done|congruence].
Qed.

(** With a callback that neither fails nor stops, the traversal from a commit
    that can be loaded returns, succeeds and calls the callback exactly once for
    every commit of the history of that commit and for no other; the plain
    version needs every parent to be there, the truncated one skips those that
    are not.  Fuel for the number of stored commits is enough. *)
Theorem traverse_visits_history {D} (func : SeafCommit -> D -> bool * bool * D) cs allow fuel start d :
  (size cs <= fuel)%nat ->
  is_Some (seaf_commit_manager_get_commit cs start) ->
  (forall c d, fst (func c d) = (true, false)) ->
  (allow = true \/ forall c p, ancestor cs start c -> p ∈ parents c ->
     is_Some (seaf_commit_manager_get_commit cs p)) ->
  exists l, traverse_commit_tree_common func cs false allow fuel start d
      = Some (true, foldl (fun d c => snd (func c d)) d l) /\
    NoDup l /\ forall c, c ∈ l <-> ancestor cs start c.
Proof.
  intros Hf [c0 E0] Hfn Hc.
  destruct (traverse_total cs allow func false fuel start d Hf) as [[r d'] Hrun].
  assert (HP : inherited cs (ancestor cs start)) by (intros ?????; by eapply anc_parent).
  assert (r = true) as ->.
  { unfold traverse_commit_tree_common in Hrun. rewrite E0 in Hrun.
    eapply traverse_loop_no_failure; [exact HP| |exact Hc| |exact Hrun].
    - intros c d0. by rewrite Hfn.
    - repeat constructor. done. }
  destruct (traverse_tree_trace cs allow func (ancestor cs start) fuel start d d' HP
    ltac:(intros; by constructor) Hrun) as (c & tr & _ & Hr & Hv & HF & _).
  exists (fst <$> tr). pose proof (runs_foldl _ _ _ _ Hr) as <-. split; [done|]. split.
  - apply (NoDup_fmap_1 commit_id). rewrite <- list_fmap_compose. apply Hv.
  - intros c1. split.
    + intros ([c2 b] & -> & Hx)%list_elem_of_fmap. rewrite Forall_forall in HF. by apply (HF _ Hx).
    + intros Ha. pose proof (visited_all_ancestor _ _ _ _ Hv (runs_stop _ _ _ _ Hr Hfn) _ Ha) as Hi.
      apply list_elem_of_fmap in Hi as ([c2 b] & Ei & Hx). simpl in Ei.
      pose proof (va_get _ _ _ _ Hv _ Hx) as E2. simpl in E2.
      rewrite <- Ei, (ancestor_get _ _ _ Ha) in E2. injection E2 as <-.
      apply list_elem_of_fmap. by exists (c1, b).
Qed.

(** ** Traversal with a limit *)

Lemma traverse_limit_trace {D} (func : SeafCommit -> D -> bool * bool * D) cs limit fuel :
  forall pending hash tr count d d' next,
  trav_inv cs false pending hash tr ->
  traverse_limit_loop func cs false limit fuel pending hash count d = Some (true, d', next) ->
  exists tr' pending' hash', runs func d tr' d' /\ trav_inv cs false pending' hash' (tr ++ tr') /\
    hash ⊆ hash' /\ (length pending' <= 1)%nat /\ next = commit_id <$> head pending'.
Proof.
  induction fuel as [|fuel IH]; intros [|c pending] hash tr count d d' next Hi Hrun; try done;
    simpl in Hrun.
  1,2: injection Hrun as <- <-; exists [], [], hash; rewrite app_nil_r;
    split_and!; [constructor|done|done|simpl; lia|done].
  destruct (func c d) as [[ok stop] d1] eqn:Ef. destruct ok; [simpl in Hrun|done]. destruct stop.
  { destruct (IH _ _ _ _ _ _ _ (inv_move _ _ _ _ _ _ Hi) Hrun) as (tr' & p' & h' & Hr & Hi' & H).
    exists ((c, true) :: tr'), p', h'. rewrite <- app_assoc in Hi'. split; [by econstructor|done]. }
  destruct (insert_opt_parent cs false pending hash (parent_id c)) as [[r1 p1] h1] eqn:E1.
  destruct (r1 <? 0) eqn:N1; [done|]. simpl in Hrun.
  destruct (insert_opt_parent cs false p1 h1 (second_parent_id c)) as [[r2 p2] h2] eqn:E2.
  destruct (r2 <? 0) eqn:N2; [done|]. simpl in Hrun.
  destruct (schedule_parents _ _ _ _ _ _ _ _ _ _ _ _ Hi E1 E2 N1 N2) as [Hi2 Hsub].
  assert (Hgo : forall n, traverse_limit_loop func cs false limit fuel p2 h2 n d1 = Some (true, d', next) ->
    exists tr' pending' hash', runs func d tr' d' /\ trav_inv cs false pending' hash' (tr ++ tr') /\
    hash ⊆ hash' /\ (length pending' <= 1)%nat /\ next = commit_id <$> head pending').
  { intros n Hn. destruct (IH _ _ _ _ _ _ _ Hi2 Hn) as (tr' & p' & h' & Hr & Hi' & Hs & H).
    exists ((c, false) :: tr'), p', h'. rewrite <- app_assoc in Hi'.
    split_and!; [by econstructor|done|set_solver|by apply H|by apply H]. }
  destruct (0 <? limit); [|eauto]. destruct (_ && _) eqn:Estop; [|eauto].
  injection Hrun as <- <-. exists [(c, false)], p2, h2.
  split_and!; [by repeat econstructor|done|done|blia|done].
Qed.

(** A page of the history loses nothing: when the limited traversal reports the
    commit the next page starts from (or none), every commit of the history was
    either visited in this page or belongs to the history of that commit, for a
    callback that never stops; each visited commit was visited once. *)
Theorem limited_traversal_pages {D} (func : SeafCommit -> D -> bool * bool * D) cs fuel limit start d d' next :
  (forall c d, fst (func c d) = (true, false)) ->
  seaf_commit_manager_traverse_commit_tree_with_limit func cs false fuel limit start d
    = Some (true, d', next) ->
  exists l, d' = foldl (fun d c => snd (func c d)) d l /\ NoDup l /\
    forall c, ancestor cs start c -> c ∈ l \/ exists id, next = Some id /\ ancestor cs id c.
Proof.
  intros Hfn. unfold seaf_commit_manager_traverse_commit_tree_with_limit.
  destruct (seaf_commit_manager_get_commit cs start) as [c0|] eqn:E0; [|done]. intros Hrun.
  destruct (traverse_limit_trace _ _ _ _ _ _ _ _ _ _ _ (trav_inv_start cs false _ _ E0) Hrun)
    as (tr & pe & h & Hr & Hi & Hs & Hl & ->). simpl in Hi.
  exists (fst <$> tr). split; [by eapply runs_foldl|].
  destruct Hi as [H1 H2 H3 H4 H5]. apply NoDup_app in H2 as (_ & _ & H2). split.
  { apply (NoDup_fmap_1 commit_id). by rewrite <- list_fmap_compose. }
  assert (Hh : forall c, seaf_commit_manager_get_commit cs (commit_id c) = Some c -> commit_id c ∈ h ->
    c ∈ fst <$> tr \/ exists id, commit_id <$> head pe = Some id /\ ancestor cs id c).
  { intros c Ec [Hp|Ht]%H1.
    - right. destruct pe as [|q [|]]; [by apply not_elem_of_nil in Hp| |simpl in Hl; lia].
      apply list_elem_of_singleton in Hp. exists (commit_id q). split; [done|].
      rewrite <- Hp. by constructor.
    - left. apply list_elem_of_fmap in Ht as ([c2 b] & Ei & Hx). pose proof (H4 _ Hx) as E2.
      simpl in E2, Ei. rewrite <- Ei, Ec in E2. injection E2 as <-. apply list_elem_of_fmap. by exists (c, b). }
  intros c Hc. induction Hc as [c E|c p c' Hc IH Hp E]; pose proof (get_commit_id _ _ _ E) as Ei.
  - apply Hh; [by rewrite Ei|]. apply Hs. rewrite E0 in E. injection E as ->. set_solver.
  - destruct IH as [Hl'|(id & En & Ha)]; [|right; exists id; split; [done|by eapply anc_parent]].
    apply list_elem_of_fmap in Hl' as ([c2 b] & -> & Hx).
    pose proof (runs_stop _ _ _ _ Hr Hfn _ Hx) as Hb. simpl in Hb. subst b.
    destruct (H5 c2 p Hx Hp) as [|[]]; [|done]. apply Hh; by rewrite Ei.
Qed.

Lemma traverse_limit_loop_unlimited {D} (func : SeafCommit -> D -> bool * bool * D) cs skip limit fuel :
  limit <= 0 -> forall pending hash count d,
  traverse_limit_loop func cs skip limit fuel pending hash count d =
  (fun x => (fst x, snd x, None)) <$> traverse_loop func cs skip false fuel pending hash d.
Proof.
  intros Hl. induction fuel as [|fuel IH]; intros [|c pending] hash count d; simpl; try done.
  destruct (func c d) as [[ok stop] d1]. destruct (negb ok && negb skip); [done|].
  destruct stop; [by apply IH|].
  destruct (insert_opt_parent cs false pending hash (parent_id c)) as [[r1 p1] h1].
  destruct (_ && _); [done|].
  destruct (insert_opt_parent cs false p1 h1 (second_parent_id c)) as [[r2 p2] h2].
  destruct (_ && _); [done|]. destruct (Z.ltb_spec 0 limit); [lia|]. apply IH.
Qed.

(** A limit that is zero or negative is no limit: the limited traversal then
    does what the plain one does, errors included, and reports no next page. *)
Theorem nonpositive_limit_is_unlimited {D} (func : SeafCommit -> D -> bool * bool * D) cs skip limit fuel start d :
  limit <= 0 ->
  seaf_commit_manager_traverse_commit_tree_with_limit func cs skip fuel limit start d =
  (fun x => (fst x, snd x, None)) <$> seaf_commit_manager_traverse_commit_tree func cs skip fuel start d.
Proof.
  intros Hl. unfold seaf_commit_manager_traverse_commit_tree_with_limit,
    seaf_commit_manager_traverse_commit_tree, traverse_commit_tree_common.
  destruct (seaf_commit_manager_get_commit cs start); [|done].
  by apply traverse_limit_loop_unlimited.
Qed.

(** The id of a commit does not cover its parents: of two commits made with the
    same tree, creator, description and time, and different parents, saving the
    second after the first reports success and keeps the first one's parents. *)
Theorem same_id_second_commit_dropped sha1 now repo_id root_id creator_name creator_id desc ctime p1 p2 q1 q2 cs :
  let c := seaf_commit_new sha1 now None repo_id root_id creator_name creator_id desc ctime in
  cs !! commit_id c = None -> String.length (commit_id c) = 40%nat ->
  let cs1 := snd (seaf_commit_manager_add_commit true cs (set_parents c p1 p2)) in
  seaf_commit_manager_add_commit true cs1 (set_parents c q1 q2) = (0, cs1) /\
  seaf_commit_manager_get_commit cs1 (commit_id c) = Some (set_parents c p1 p2).
Proof.
  intros c Hn Hl cs1. subst cs1. clearbody c.
  assert (E : seaf_commit_manager_add_commit true cs (set_parents c p1 p2) =
    (0, <[commit_id c := set_parents c p1 p2]> cs)).
  { unfold seaf_commit_manager_add_commit, save_commit. simpl. by rewrite Hn. }
  rewrite E. cbn [snd]. split.
  - unfold seaf_commit_manager_add_commit, save_commit. simpl. by rewrite lookup_insert_eq.
  - unfold seaf_commit_manager_get_commit. by rewrite Hl, lookup_insert_eq.
Qed.

(** ** Witnesses: a history with a merge *)

Definition toy_commit (id : string) (time : Z) (p q : option string) : SeafCommit :=
  set_parents (seaf_commit_new (fun _ => []) 0 (Some id) "r" "t" None "u" "d" time) p q.

Definition c_1 : string := "1111111111111111111111111111111111111111".
Definition c_2 : string := "2222222222222222222222222222222222222222".
Definition c_3 : string := "3333333333333333333333333333333333333333".
Definition c_4 : string := "4444444444444444444444444444444444444444".

(** 4 merges 2 and 3, which both follow 1. *)
Definition toy_history : commit_store :=
  {[ c_1 := toy_commit c_1 10 None None; c_2 := toy_commit c_2 20 (Some c_1) None;
     c_3 := toy_commit c_3 30 (Some c_1) None; c_4 := toy_commit c_4 40 (Some c_2) (Some c_3) ]}.

Definition collect (c : SeafCommit) (l : list string) : bool * bool * list string :=
  (true, false, l ++ [commit_id c]).

Lemma traverse_visits_history_witness :
  traverse_commit_tree_common collect toy_history false true 4 c_4 [] = Some (true, [c_4; c_3; c_2; c_1]) /\
  exists l, traverse_commit_tree_common collect toy_history false true 4 c_4 []
    = Some (true, foldl (fun d c => snd (collect c d)) [] l) /\
    NoDup l /\ forall c, c ∈ l <-> ancestor toy_history c_4 c.
Proof.
  split; [vm_compute; reflexivity|]. apply (traverse_visits_history collect).
  - vm_compute. lia.
  - eexists. vm_compute. reflexivity.
  - reflexivity.
  - left. reflexivity.
Defined.

Lemma limited_traversal_pages_witness :
  exists l, [c_4] ++ [c_3; c_2] = foldl (fun d c => snd (collect c d)) [] l /\ NoDup l /\
    forall c, ancestor toy_history c_4 c -> c ∈ l \/ exists id, Some c_1 = Some id /\ ancestor toy_history id c.
Proof.
  apply (limited_traversal_pages collect toy_history 4 2 c_4 []).
  - reflexivity.
  - vm_compute. reflexivity.
Defined.

Lemma nonpositive_limit_is_unlimited_witness :
  seaf_commit_manager_traverse_commit_tree_with_limit collect toy_history false 4 (-1) c_4 [] =
  Some (true, [c_4; c_3; c_2; c_1], None).
Proof.
  rewrite (nonpositive_limit_is_unlimited collect toy_history false (-1) 4 c_4 []) by lia.
  vm_compute. reflexivity.
Defined.

Lemma same_id_second_commit_dropped_witness :
  seaf_commit_manager_get_commit
    (snd (seaf_commit_manager_add_commit true
       (snd (seaf_commit_manager_add_commit true ∅
          (set_parents (seaf_commit_new (fun _ => replicate 20 7) 0 None "r" c_1 None c_2 "d" 5) (Some c_3) None)))
       (set_parents (seaf_commit_new (fun _ => replicate 20 7) 0 None "r" c_1 None c_2 "d" 5) (Some c_4) None)))
    "0707070707070707070707070707070707070707" =
  Some (set_parents (seaf_commit_new (fun _ => replicate 20 7) 0 None "r" c_1 None c_2 "d" 5) (Some c_3) None).
Proof.
  destruct (same_id_second_commit_dropped (fun _ => replicate 20 7) 0 "r" c_1 None c_2 "d" 5
    (Some c_3) None (Some c_4) None ∅) as [E1 E2].
  - reflexivity.
  - vm_compute. reflexivity.
  - rewrite E1. exact E2.
Defined.
