(* ===== verification/CommitJson.v ===== *)
(** * The JSON form of a commit ([common/commit-mgr.c])

    Writing and reading the members of a commit object, with the checks on the
    ids and on the encryption fields.  The members are listed in the order the
    code writes them; [put] writes one.  Two of the accessors come from
    libsearpc: they are the class [SearpcMembers]. *)

From S2P Require Import Prelude Hex FsObj FsJson CommitMgr.

(** [json_object_set_string_or_null_member] and its counterpart. *)
Class SearpcMembers (J : Type) `{Jansson J} := {
  set_string_or_null_member : J -> string -> option string -> J;
  get_string_or_null_member : J -> string -> option string
}.

(** A NULL string is written as a null value; a missing member and a null value
    are read as NULL; the other members stay. *)
Class SearpcLaws (J : Type) `{JanssonLaws J, !SearpcMembers J} := {
  or_null_object o k v : is_object o -> is_object (set_string_or_null_member o k v);
  or_null_other o k k' v : is_object o -> k <> k' ->
    json_object_get (Some (set_string_or_null_member o k v)) k' = json_object_get (Some o) k';
  or_null_str o k v : is_object o -> (forall s, v = Some s -> is_Some (json_string s)) ->
    get_str (Some (set_string_or_null_member o k v)) k = v;
  or_null_has o k v : is_object o -> (forall s, v = Some s -> is_Some (json_string s)) ->
    is_Some (json_object_get (Some (set_string_or_null_member o k v)) k);
  or_null_get o k : get_string_or_null_member o k = get_str (Some o) k
}.

(** A member that is written, or left out under a condition of the code. *)
Inductive member :=
| MString (v : option string)
| MStringOrNull (v : option string)
| MInt (z : Z)
| MOmitted.

Definition omitted_if (b : bool) (m : member) : member := if b then MOmitted else m.
Definition if_set (v : option string) : member :=
  match v with Some s => MString (Some s) | None => MOmitted end.
Definition is_set {A} (v : option A) : bool := match v with Some _ => true | None => false end.

Definition commit_members (commit : SeafCommit) : list (string * member) :=
  let enc m := if encrypted commit then m else MOmitted in
  [ ("commit_id", MString (Some (commit_id commit)));
    ("root_id", MString (Some (root_id commit)));
    ("repo_id", MString (Some (repo_id commit)));
    ("creator_name", if_set (creator_name commit));
    ("creator", MString (Some (creator_id commit)));
    ("description", MString (Some (desc commit)));
    ("ctime", MInt (s64 (ctime commit)));
    ("parent_id", MStringOrNull (parent_id commit));
    ("second_parent_id", MStringOrNull (second_parent_id commit));
    ("repo_name", MString (repo_name commit));
    ("repo_desc", MString (repo_desc commit));
    ("repo_category", MStringOrNull (repo_category commit));
    ("device_name", if_set (device_name commit));
    ("client_version", if_set (client_version commit));
    ("encrypted", enc (MString (Some "true")));
    ("enc_version", enc (MInt (enc_version commit)));
    ("magic", enc (omitted_if (negb ((1 <=? enc_version commit) && negb (is_set (pwd_hash commit))))
                     (MString (magic commit))));
    ("key", enc (omitted_if (enc_version commit <? 2) (MString (random_key commit))));
    ("salt", enc (omitted_if (enc_version commit <? 3) (MString (salt commit))));
    ("pwd_hash", enc (if_set (pwd_hash commit)));
    ("pwd_hash_algo", enc (omitted_if (negb (is_set (pwd_hash commit))) (MString (pwd_hash_algo commit))));
    ("pwd_hash_params", enc (omitted_if (negb (is_set (pwd_hash commit))) (MString (pwd_hash_params commit))));
    ("no_local_history", omitted_if (negb (no_local_history commit)) (MInt 1));
    ("version", omitted_if (version commit =? 0) (MInt (version commit)));
    ("conflict", omitted_if (negb (conflict commit)) (MInt 1));
    ("new_merge", omitted_if (negb (new_merge commit)) (MInt 1));
    ("repaired", omitted_if (negb (repaired commit)) (MInt 1)) ].

Section commit_json.
Context {J : Type} `{Jansson J} `{!SearpcMembers J}.
(** libuuid's [uuid_parse] succeeds; GLib's [g_ascii_strdown]. *)
Context (is_uuid_valid : string -> bool) (ascii_strdown : string -> string).

Definition put (object : J) (m : string * member) : J :=
  match m with
  | (key, MString v) => set_str object key v
  | (key, MStringOrNull v) => set_string_or_null_member object key v
  | (key, MInt z) => set_int object key z
  | (_, MOmitted) => object
  end.

Definition commit_to_json_object (commit : SeafCommit) : J := foldl put json_object (commit_members commit).

Definition json_object_has_member (object : J) (key : string) : bool := is_set (json_object_get (Some object) key).

(** An [int] member that may be missing. *)
Definition int_member (object : J) (key : string) : Z :=
  if json_object_has_member object key then s32 (get_int (Some object) key) else 0.

Definition has_length (n : nat) (s : option string) : bool :=
  match s with Some s => (String.length s =? n)%nat | None => false end.

(** The lengths of the encryption fields; an unknown version is refused. *)
Definition enc_fields_ok (enc_version : Z) (magic random_key salt : option string) : bool :=
  if enc_version =? 0 then true
  else if enc_version =? 1 then has_length 32 magic
  else if enc_version =? 2 then has_length 64 magic && has_length 96 random_key
  else if (enc_version =? 3) || (enc_version =? 4)
       then has_length 64 magic && has_length 96 random_key && has_length 64 salt
  else false.

Definition valid_or_null (id : option string) : bool :=
  match id with Some id => is_object_id_valid (Some id) | None => true end.

Definition commit_from_json_object (now : Z) (id : string) (object : J) : option SeafCommit :=
  let str k := get_str (Some object) k in
  let str_or_null k := get_string_or_null_member object k in
  let root_id := str "root_id" in
  let repo_id := str "repo_id" in
  let creator_name :=
    if json_object_has_member object "creator_name" then str_or_null "creator_name" else None in
  let creator := str "creator" in
  let desc := default EmptyString (str "description") in
  let ctime := u64 (get_int (Some object) "ctime") in
  let parent_id := str_or_null "parent_id" in
  let second_parent_id := str_or_null "second_parent_id" in
  let repo_name := default EmptyString (str "repo_name") in
  let repo_desc := default EmptyString (str "repo_desc") in
  let repo_category := str_or_null "repo_category" in
  let device_name := str_or_null "device_name" in
  let client_version := str_or_null "client_version" in
  let encrypted :=
    if json_object_has_member object "encrypted" then str_or_null "encrypted" else None in
  let is_true := match encrypted with Some s => String.eqb s "true" | None => false end in
  let enc := is_true && json_object_has_member object "enc_version" in
  let enc_version := if enc then s32 (get_int (Some object) "enc_version") else 0 in
  let magic := if enc then str "magic" else None in
  let pwd_hash := if enc then str "pwd_hash" else None in
  let pwd_hash_algo := if enc then str "pwd_hash_algo" else None in
  let pwd_hash_params := if enc then str "pwd_hash_params" else None in
  let random_key := if 2 <=? enc_version then str "key" else None in
  let salt := if 3 <=? enc_version then str "salt" else None in
  let no_local_history := int_member object "no_local_history" in
  let version := int_member object "version" in
  let new_merge := int_member object "new_merge" in
  let conflict := int_member object "conflict" in
  let repaired := int_member object "repaired" in
  match repo_id, root_id, creator with
  | Some repo_id, Some root_id, Some creator =>
      if negb (is_uuid_valid repo_id && is_object_id_valid (Some root_id) &&
               (String.length creator =? 40)%nat && valid_or_null parent_id &&
               valid_or_null second_parent_id)
      then None
      else
        let magic := match magic with Some m => Some m | None => pwd_hash end in
        if negb (enc_fields_ok enc_version magic random_key salt) then None
        else
          let c := seaf_commit_new (fun _ => []) now (Some id) repo_id root_id
                     (ascii_strdown <$> creator_name) creator desc ctime in
          Some (mkCommit (commit_id c) (CommitMgr.repo_id c) (CommitMgr.root_id c) (CommitMgr.desc c)
            (CommitMgr.creator_name c) (creator_id c) (CommitMgr.ctime c)
            parent_id second_parent_id (Some repo_name) (Some repo_desc) repo_category
            device_name client_version is_true
            (if is_true then enc_version else 0)
            (if is_true && (1 <=? enc_version) && negb (is_set pwd_hash) then magic else None)
            (if is_true && (2 <=? enc_version) then random_key else None)
            (if is_true && (3 <=? enc_version) then salt else None)
            (if is_true then pwd_hash else None)
            (if is_true && is_set pwd_hash then pwd_hash_algo else None)
            (if is_true && is_set pwd_hash then pwd_hash_params else None)
            (negb (no_local_history =? 0)) version (negb (new_merge =? 0)) (negb (conflict =? 0))
            (negb (repaired =? 0)))
  | _, _, _ => None
  end.

(** ** Reading the members back *)

Definition string_of_member (m : member) : option string :=
  match m with MString v | MStringOrNull v => v | _ => None end.
Definition present (m : member) : bool :=
  match m with MString v => is_set v | MStringOrNull _ => true | MInt _ => true | MOmitted => false end.
Definition not_int (m : member) : Prop := match m with MInt _ => False | _ => True end.
Definition member_ok (m : member) : Prop :=
  match m with
  | MString v | MStringOrNull v => forall s, v = Some s -> is_Some (json_string (J := J) s)
  | MInt z => is_i64 z
  | MOmitted => True
  end.

Fixpoint assoc_member (k : string) (l : list (string * member)) : member :=
  match l with
  | [] => MOmitted
  | (k', m) :: l => if String.eqb k k' then m else assoc_member k l
  end.

Context `{!JanssonLaws J, !SearpcLaws J}.

Lemma put_object o m : is_object o -> is_object (put o m).
Proof.
  destruct m as [k []]; simpl; [by apply object_set|by apply or_null_object|by apply object_set|done].
Qed.

Lemma put_other o k k' m :
  is_object o -> k <> k' -> json_object_get (Some (put o (k, m))) k' = json_object_get (Some o) k'.
Proof.
  intros Ho Hk. destruct m; simpl; [by apply get_set_ne|by apply or_null_other|by apply get_set_ne|done].
Qed.

Lemma members_other l k : k ∉ l.*1 -> forall o, is_object o ->
  json_object_get (Some (foldl put o l)) k = json_object_get (Some o) k.
Proof.
  induction l as [|[k' m] l IH]; intros Hk o Ho; [done|]. cbn [foldl]. rewrite fmap_cons in Hk.
  apply not_elem_of_cons in Hk as [Hne Hk]. rewrite IH by (done || by apply put_object).
  apply put_other; [done|]. simpl in Hne. congruence.
Qed.

(** What one member reads as, written last. *)
Lemma put_same o k m :
  is_object o -> json_object_get (Some o) k = None -> member_ok m ->
  (not_int m -> get_str (Some (put o (k, m))) k = string_of_member m) /\
  json_object_has_member (put o (k, m)) k = present m /\
  (forall z, m = MInt z -> get_int (Some (put o (k, m))) k = z).
Proof.
  intros Ho Hn Hm. unfold json_object_has_member. destruct m as [[v|]|v|z|]; simpl in *.
  - destruct (Hm v eq_refl) as [j Ej]. unfold get_str, set_str. simpl. rewrite Ej, get_set_eq by done.
    split_and!; [intros _; by apply string_value|done|done].
  - unfold get_str, set_str. simpl. rewrite get_set_null, Hn by done. done.
  - split_and!; [intros _; by apply or_null_str| |done].
    destruct (or_null_has o k v Ho Hm) as [j ->]. done.
  - split_and!; [done|by unfold set_int; rewrite get_set_eq|].
    intros z' [= <-]. unfold get_int, set_int. rewrite get_set_eq by done. by apply integer_value.
  - unfold get_str. rewrite Hn. done.
Qed.

Lemma members_read l k : NoDup l.*1 -> Forall (fun x => member_ok (snd x)) l -> forall o, is_object o ->
  json_object_get (Some o) k = None ->
  let m := assoc_member k l in
  (not_int m -> get_str (Some (foldl put o l)) k = string_of_member m) /\
  json_object_has_member (foldl put o l) k = present m /\
  (forall z, m = MInt z -> get_int (Some (foldl put o l)) k = z).
Proof.
  unfold json_object_has_member, get_str, get_int.
  induction l as [|[k' m] l IH]; intros HN HF o Ho Hk; cbn [foldl assoc_member].
  { simpl. rewrite Hk. done. }
  apply NoDup_cons in HN as [Hni HN]. apply Forall_cons in HF as [Hm HF].
  destruct (String.eqb_spec k k') as [->|Hne].
  - rewrite members_other by (done || by apply put_object).
    exact (put_same o k' m Ho Hk Hm).
  - apply IH; [done|done|by apply put_object|]. rewrite put_other by done. done.
Qed.

Definition int_keys : list string :=
  ["ctime"; "enc_version"; "no_local_history"; "version"; "conflict"; "new_merge"; "repaired"]%string.

Lemma commit_keys_nodup commit : NoDup (commit_members commit).*1.
Proof. apply (bool_decide_unpack _). vm_compute. exact Logic.I. Qed.

Lemma assoc_not_int commit k : k ∉ int_keys -> not_int (assoc_member k (commit_members commit)).
Proof.
  intros Hk. unfold int_keys in Hk. rewrite !not_elem_of_cons in Hk.
  destruct Hk as (H1 & H2 & H3 & H4 & H5 & H6 & H7 & _). cbn [commit_members assoc_member].
  repeat match goal with
  | |- context [String.eqb k ?x] =>
      destruct (String.eqb_spec k x) as [->|_]; [try done; unfold omitted_if, if_set; by repeat case_match|]
  end.
  done.
Qed.

(** What a commit must satisfy for its JSON form to be read back. *)
Record commit_ok (c : SeafCommit) : Prop := {
  ok_id : String.length (commit_id c) = 40%nat;
  ok_repo : is_uuid_valid (repo_id c) = true /\ String.length (repo_id c) = 36%nat;
  ok_root : is_object_id_valid (Some (root_id c)) = true;
  ok_creator : String.length (creator_id c) = 40%nat;
  ok_creator_name : ascii_strdown <$> creator_name c = creator_name c;
  ok_parents : valid_or_null (parent_id c) = true /\ valid_or_null (second_parent_id c) = true;
  ok_ctime : 0 < ctime c < 2 ^ 63;
  ok_repo_name : is_Some (repo_name c) /\ is_Some (repo_desc c);
  ok_version : - 2 ^ 31 <= version c < 2 ^ 31;
  ok_plain : encrypted c = false ->
    enc_version c = 0 /\ magic c = None /\ random_key c = None /\ salt c = None /\ pwd_hash c = None;
  ok_enc : enc_fields_ok (enc_version c) (if is_set (pwd_hash c) then pwd_hash c else magic c)
    (random_key c) (salt c) = true;
  ok_magic : (pwd_hash c <> None \/ enc_version c < 1) -> magic c = None;
  ok_key : enc_version c < 2 -> random_key c = None;
  ok_salt : enc_version c < 3 -> salt c = None;
  ok_pwd : pwd_hash c = None -> pwd_hash_algo c = None /\ pwd_hash_params c = None;
  ok_utf8 : Forall (fun x => member_ok (snd x)) (commit_members c)
}.
Section read_back.
Context (c : SeafCommit) (Hc : commit_ok c).
Abbreviation obj := (commit_to_json_object c).
Abbreviation at_key k := (assoc_member k (commit_members c)).

Lemma read_members k :
  (not_int (at_key k) -> get_str (Some obj) k = string_of_member (at_key k)) /\
  json_object_has_member obj k = present (at_key k) /\
  (forall z, at_key k = MInt z -> get_int (Some obj) k = z).
Proof.
  apply (members_read _ _ (commit_keys_nodup c) (ok_utf8 _ Hc)); [apply object_new|apply get_new].
Qed.

Lemma read_str k : k ∉ int_keys -> get_str (Some obj) k = string_of_member (at_key k).
Proof. intros Hk. apply read_members. by apply assoc_not_int. Qed.

Lemma read_or_null k : k ∉ int_keys -> get_string_or_null_member obj k = string_of_member (at_key k).
Proof. intros Hk. rewrite or_null_get. by apply read_str. Qed.

Lemma read_has k : json_object_has_member obj k = present (at_key k).
Proof. apply read_members. Qed.

(** A flag that is written as 1 or left out. *)
Lemma read_flag k b : at_key k = omitted_if (negb b) (MInt 1) -> negb (int_member obj k =? 0) = b.
Proof.
  intros E. unfold int_member. rewrite read_has, E. destruct b; simpl; [|done].
  destruct (read_members k) as (_ & _ & Hz). by rewrite (Hz 1 E).
Qed.

Lemma read_version : int_member obj "version" = version c.
Proof.
  assert (E : at_key "version" = omitted_if (version c =? 0) (MInt (version c))) by reflexivity.
  unfold int_member. rewrite read_has, E. destruct (read_members "version") as (_ & _ & Hz).
  rewrite E in Hz. destruct (Z.eqb_spec (version c) 0) as [->|]; simpl in *; [done|].
  rewrite (Hz _ eq_refl). apply s32_id, Hc.
Qed.

Lemma read_ctime : u64 (get_int (Some obj) "ctime") = ctime c.
Proof.
  destruct (read_members "ctime") as (_ & _ & Hz). pose proof (ok_ctime _ Hc).
  rewrite (Hz (s64 (ctime c)) eq_refl), s64_id, u64_id; lia.
Qed.
(** The encryption version, read when the commit is encrypted. *)
Lemma read_enc_version : encrypted c = true -> s32 (get_int (Some obj) "enc_version") = enc_version c.
Proof.
  intros He. assert (E : at_key "enc_version" = if encrypted c then MInt (enc_version c) else MOmitted)
    by reflexivity.
  rewrite He in E. destruct (read_members "enc_version") as (_ & _ & Hz). rewrite (Hz _ E).
  apply s32_id. pose proof (ok_enc _ Hc) as H0. unfold enc_fields_ok in H0.
  repeat (case_match; bools; try lia); try done.
Qed.
End read_back.

Lemma string_take_all n s : String.length s = n -> string_take n s = s.
Proof. intros <-. apply string_take_id. Qed.

Lemma enc_version_cases v m k s : enc_fields_ok v m k s = true -> v = 0 \/ v = 1 \/ v = 2 \/ v = 3 \/ v = 4.
Proof. unfold enc_fields_ok. repeat (case_match; bools; try lia); try done. Qed.

Lemma string_if_set v : string_of_member (if_set v) = v.
Proof. by destruct v. Qed.

Lemma present_if_set v : (if present (if_set v) then v else None) = v.
Proof. by destruct v. Qed.

(** The commit rebuilt from values that agree with its fields. *)
Lemma commit_json_roundtrip_gen now c :
  commit_ok c -> commit_from_json_object now (commit_id c) (commit_to_json_object c) = Some c.
Proof.
  intros Hc. pose proof Hc as [O1 [O2 O2'] O3 O4 O5 [O6 O6'] O7 [[rn O8] [rd O8']] O9 O10 O11 O12 O13 O14 O15 _].
  unfold commit_from_json_object.
  rewrite !(read_str c Hc), !(read_or_null c Hc), !(read_has c Hc), (read_ctime c Hc), (read_version c Hc)
    by (apply (bool_decide_unpack _); vm_compute; exact Logic.I).
  rewrite !(read_flag c Hc _ (no_local_history c)), !(read_flag c Hc _ (new_merge c)),
    !(read_flag c Hc _ (conflict c)), !(read_flag c Hc _ (repaired c)) by reflexivity.
  repeat match goal with
  | |- context [assoc_member ?k (commit_members c)] =>
      let m := eval cbv [assoc_member commit_members String.eqb Ascii.eqb Bool.eqb]
        in (assoc_member k (commit_members c)) in
      change (assoc_member k (commit_members c)) with m
  end.
  cbn [string_of_member present]. rewrite !string_if_set, !present_if_set, O2, O3, O4, O5, O6, O6'.
  unfold seaf_commit_new. cbn [CommitMgr.commit_id CommitMgr.repo_id CommitMgr.root_id CommitMgr.desc
    CommitMgr.creator_name CommitMgr.creator_id CommitMgr.ctime].
  pose proof O3 as [O3' _]%is_object_id_valid_spec.
  rewrite (string_take_all 40 (commit_id c)), (string_take_all 36 (repo_id c)), (string_take_all 40 (root_id c)),
    (string_take_all 40 (creator_id c)), (proj2 (Z.eqb_neq (ctime c) 0)) by (done || lia).
  pose proof (read_enc_version c Hc) as Hv. clear Hc O1 O2 O2' O3 O3' O4 O5 O6 O6' O7 O9.
  revert Hv. generalize (s32 (get_int (Some (commit_to_json_object c)) "enc_version")). intros ev Hv.
  assert (Hev : encrypted c = true -> ev = enc_version c) by done. clear Hv.
  destruct (encrypted c) eqn:He.
  - specialize (Hev eq_refl). subst ev. clear O10.
    destruct c. simpl in *. subst.
    destruct (enc_version_cases _ _ _ _ O11) as [-> | [-> | [-> | [-> | ->]]]];
      try (rewrite O13 in * by lia); try (rewrite O14 in * by lia);
      destruct pwd_hash as [h|]; try (destruct (O15 eq_refl) as [-> ->]);
      try (rewrite O12 in * by first [left; discriminate|right; lia]);
      simpl in O11 |- *; rewrite ?O11; try done; destruct magic; simpl in O11 |- *; by rewrite ?O11.
  - destruct (O10 eq_refl) as (E1 & E2 & E3 & E4 & E5). destruct (O15 E5) as [E6 E7].
    destruct c. simpl in *. by subst.
Qed.
End commit_json.

(** ** The instance *)

#[export] Instance assoc_searpc : SearpcMembers json := {|
  set_string_or_null_member o k v :=
    json_object_set_new o k (match v with Some s => json_string s | None => Some JNull end);
  get_string_or_null_member o k := get_str (Some o) k
|}.

#[export] Instance assoc_searpc_laws : SearpcLaws json.
Proof.
  split.
  - intros o k v. apply object_set.
  - intros o k k' v. apply get_set_ne.
  - intros o k v Ho _. 
    assert (E : forall j, json_object_get (Some (json_object_set_new o k (Some j))) k = Some j)
      by (intros j; by apply get_set_eq).
    assert (G : forall j, get_str (Some (json_object_set_new o k (Some j))) k = json_string_value (Some j))
      by (intros j; unfold get_str; by rewrite E).
    destruct v as [s|]; [exact (G (JStr s))|exact (G JNull)].
  - intros o k v Ho _. 
    assert (E : forall j, json_object_get (Some (json_object_set_new o k (Some j))) k = Some j)
      by (intros j; by apply get_set_eq).
    destruct v as [s|]; [exists (JStr s); apply E|exists JNull; apply E].
  - done.
Qed.

(** The JSON form of a commit round-trips, for every JSON library and member
    accessors that obey the laws: reading the written object gives back every
    field, for plain commits and for all four encryption versions, with a magic
    or with a password hash. *)
Theorem commit_json_roundtrip {J} `{SearpcLaws J} is_uuid_valid ascii_strdown now c :
  commit_ok (J := J) is_uuid_valid ascii_strdown c ->
  commit_from_json_object (J := J) is_uuid_valid ascii_strdown now (commit_id c) (commit_to_json_object c) = Some c.
Proof. exact (commit_json_roundtrip_gen is_uuid_valid ascii_strdown now c). Qed.

(** A commit object with a bad id, creator or encryption field is refused: what
    is read has a valid library id, valid object ids, a creator of 40 characters,
    a known encryption version and, as the version asks, a magic (unless there is
    a password hash), a key and a salt of the right lengths. *)
Theorem commit_from_json_checked {J} `{SearpcMembers J} is_uuid_valid ascii_strdown now id object c :
  commit_from_json_object (J := J) is_uuid_valid ascii_strdown now id object = Some c ->
  (exists s, get_str (Some object) "repo_id" = Some s /\ is_uuid_valid s = true /\ repo_id c = string_take 36 s) /\
  is_object_id_valid (Some (root_id c)) = true /\ String.length (creator_id c) = 40%nat /\
  valid_or_null (parent_id c) = true /\ valid_or_null (second_parent_id c) = true /\
  0 <= enc_version c <= 4 /\
  (1 <= enc_version c -> pwd_hash c = None ->
     has_length (if enc_version c =? 1 then 32%nat else 64%nat) (magic c) = true) /\
  (2 <= enc_version c -> has_length 96 (random_key c) = true) /\
  (3 <= enc_version c -> has_length 64 (salt c) = true).
Proof.
  unfold commit_from_json_object. intros Hr.
  destruct (get_str (Some object) "repo_id") as [r|] eqn:Er; [|done].
  destruct (get_str (Some object) "root_id") as [ro|] eqn:Ero; [|done].
  destruct (get_str (Some object) "creator") as [cr|] eqn:Ecr; [|done].
  destruct (negb (is_uuid_valid r && _ && _ && _ && _)) eqn:Hg; [done|].
  apply negb_false_iff in Hg. rewrite !andb_true_iff in Hg. destruct Hg as ((((G1 & G2) & G3) & G4) & G5).
  apply Nat.eqb_eq in G3. pose proof G2 as [G2' _]%is_object_id_valid_spec.
  destruct (negb (enc_fields_ok _ _ _ _)) eqn:He in Hr; [done|]. apply negb_false_iff in He.
  unfold seaf_commit_new in Hr. cbn [commit_id repo_id root_id desc creator_name creator_id ctime] in Hr.
  rewrite (string_take_all 40 ro), (string_take_all 40 cr) in Hr by done.
  injection Hr as <-. cbn [commit_id repo_id root_id creator_id parent_id second_parent_id encrypted
    enc_version pwd_hash magic random_key salt].
  split; [by exists r|]. do 4 (split; [done|]).
  destruct (match (if json_object_has_member object "encrypted" then _ else None) with
            | Some s => String.eqb s "true" | None => false end); cbn [andb] in *;
    [|split_and!; try done; lia].
  destruct (json_object_has_member object "enc_version"); [|split_and!; try done; lia].
  revert He. generalize (s32 (get_int (Some object) "enc_version")). intros v He.
  by destruct (enc_version_cases _ _ _ _ He) as [-> | [-> | [-> | [-> | ->]]]]; cbn in He |- *;
    rewrite ?andb_true_iff in He; split_and!; try done; try tauto; intros _ Hp; rewrite ?Hp in *; cbn;
    destruct (get_str (Some object) "magic"); tauto.
Qed.

(** ** Witnesses: an encrypted commit *)

Fixpoint letters (n : nat) : string := match n with O => EmptyString | S n => String (Ascii.ascii_of_nat 97) (letters n) end.

Definition toy_encrypted : SeafCommit :=
  mkCommit (letters 40) (letters 36) (letters 40) "Added x" (Some "me@a.b") (letters 40) 1700000000
    (Some (letters 40)) None (Some "lib") (Some "") None (Some "pc") None true 2
    (Some (letters 64)) (Some (letters 96)) None None None None false 1 false false true.

Lemma toy_utf8 : Forall (fun x => member_ok (J := json) (snd x)) (commit_members toy_encrypted).
Proof.
  cbn [commit_members toy_encrypted].
  repeat first [apply Forall_nil_2 | apply Forall_cons_2];
    simpl; first [done | intros s' _; eexists; reflexivity | unfold is_i64; lia].
Qed.

Lemma commit_json_roundtrip_witness :
  commit_from_json_object (J := json) (fun _ => true) (fun s => s) 0 (letters 40)
    (commit_to_json_object toy_encrypted) = Some toy_encrypted.
Proof.
  apply (commit_json_roundtrip (J := json) (fun _ => true) (fun s => s) 0 toy_encrypted).
  split; try reflexivity; try discriminate; try exact toy_utf8.
  - split; reflexivity.
  - split; reflexivity.
  - cbn. lia.
  - split; eexists; reflexivity.
  - cbn. lia.
  - cbn. intros [Hp|Hv]; [by destruct Hp|lia].
  - split; reflexivity.
Defined.

Lemma commit_from_json_checked_witness :
  has_length 96 (random_key toy_encrypted) = true.
Proof.
  apply (commit_from_json_checked (J := json) (fun _ => true) (fun s => s) 0 (letters 40)
    (commit_to_json_object toy_encrypted) toy_encrypted); [vm_compute; reflexivity|simpl; lia].
Defined.
