(* ===== verification/Gc.v ===== *)
(** * Garbage collection of a library ([server/gc/gc-core.c])

    The live objects of the kept commits are put into an index, then the stored
    objects that are not in it are removed.  The collector is written against
    the interface [LiveIndex]; [bloom_index] is the instance the server uses.
    What the database, the object stores and the clock answer is a [GcEnv]:
    objects may be added between the first scan and the scan for new commits,
    so there are two versions of the stores. *)

From S2P Require Import Prelude Bloom Hex FsObj FsMgr CommitMgr.

(** ** How long history is kept ([server/gc/repo-mgr.c]) *)

(** The per-library row: the query fails, finds no row, or a number of days. *)
Inductive limit_row := RowError | RowNone | RowDays (days : Z).

Definition seaf_repo_manager_get_repo_history_limit (row : limit_row) (keep_days : Z) : Z :=
  let per_repo_days := match row with RowError => -1 | RowNone => keep_days | RowDays d => d end in
  if per_repo_days <? 0 then -1 else per_repo_days.

(** [days] is an [int], and so is the product. *)
Definition seaf_repo_manager_get_repo_truncate_time (now days timestamp : Z) : Z :=
  if 0 <? days then Z.max (now - s32 (s32 (days * 24) * 3600)) timestamp
  else if days <? 0 then timestamp
  else 0.

(** ** The index of live objects *)

Class LiveIndex (I : Type) := {
  index_create : Z -> option I;
  index_add : I -> string -> I;
  index_test : I -> string -> bool;
  index_good : I -> Prop;
  index_has : I -> string -> Prop
}.

(** What the collector needs of the index: no string that was added tests
    negative.  Strings that were not added may test positive. *)
Class LiveIndexLaws (I : Type) `{LiveIndex I} := {
  create_good size i : 0 < size <= 2 ^ 32 -> index_create size = Some i -> index_good i;
  add_good i s : index_good i -> index_good (index_add i s) /\ index_has (index_add i s) s;
  add_has i s t : index_has i t -> index_has (index_add i s) t;
  test_has i s : index_has i s -> index_test i s = true
}.

Definition MAX_BF_SIZE : Z := Z.shiftl 1 29.

(** [alloc_gc_index]: four bits for every object, within bounds. *)
Definition gc_index_size (total : Z) : Z := Z.min (Z.max (u64 (Z.shiftl total 2)) (Z.shiftl 1 13)) MAX_BF_SIZE.

Lemma gc_index_size_range total : 2 ^ 13 <= gc_index_size total <= 2 ^ 29.
Proof. unfold gc_index_size, MAX_BF_SIZE. rewrite !Z.shiftl_1_l. lia. Qed.

Record SeafRepo := mkRepo {
  r_id : string;
  r_store_id : string;
  r_version : Z;
  r_is_virtual : bool;
  r_head : string
}.

(** What the rest of the system answers during one collection. *)
Record GcEnv := mkGcEnv {
  e_now : Z;
  e_limit_row : string -> limit_row;
  e_keep_days : Z;
  e_commits : string -> commit_store;
  e_commits_new : string -> commit_store;
  e_fs : string -> fs_store;
  e_fs_new : string -> fs_store;
  e_blocks : option (list string);
  e_fs_objs : option (list string);
  e_virtual_ids : list string;
  e_repo : string -> option SeafRepo;
  e_base_commit : string -> option string;
  e_branch : string -> option string;
  e_begin_ok : bool;
  e_gcid_ok : string -> bool;
  e_uuid : string -> string;
  e_pool_ok : bool;
  e_remove_block_ok : string -> bool;
  e_remove_fs_ok : string -> bool;
  e_commit_ok : bool;
  e_fuel : nat
}.

(** The tables the collector changes. *)
Record GcDb := mkGcDb {
  valid_since : gmap string Z;
  gc_ids : gmap string string
}.

(** The per-library data of a collection ([GCData] without the shared indexes). *)
Record GCData := mkGCData {
  gd_repo : SeafRepo;
  visited : gset string;
  visited_commits : gset string;
  truncate_time : Z;
  traversed_head : bool;
  traversed_commits : Z;
  traversed_blocks : Z;
  traversed_fs_objs : Z
}.

Definition set_visited (d : GCData) (v : gset string) : GCData :=
  mkGCData (gd_repo d) v (visited_commits d) (truncate_time d) (traversed_head d)
    (traversed_commits d) (traversed_blocks d) (traversed_fs_objs d).
Definition set_visited_commits (d : GCData) (v : gset string) : GCData :=
  mkGCData (gd_repo d) (visited d) v (truncate_time d) (traversed_head d)
    (traversed_commits d) (traversed_blocks d) (traversed_fs_objs d).
Definition set_traversed_head (d : GCData) (b : bool) : GCData :=
  mkGCData (gd_repo d) (visited d) (visited_commits d) (truncate_time d) b
    (traversed_commits d) (traversed_blocks d) (traversed_fs_objs d).
Definition set_traversed (d : GCData) (commits blocks fs_objs : Z) : GCData :=
  mkGCData (gd_repo d) (visited d) (visited_commits d) (truncate_time d) (traversed_head d)
    commits blocks fs_objs.

Section gc.
Context {I : Type} `{LiveIndex I}.

(** The two indexes; there is an index of fs objects only when they are collected too. *)
Record GcIndex := mkGcIndex { blocks_index : I; fs_index : option I }.

Abbreviation gc_state := (GcIndex * GCData)%type.

(** ** Filling the indexes *)

Section scan.
Context (st : fs_store).

Definition add_blocks_to_index (file_id : string) (s : gc_state) : Z * gc_state :=
  let '(idx, data) := s in
  match seaf_fs_manager_get_seafile st file_id with
  | None => (-1, s)
  | Some seafile =>
      let add idx b := mkGcIndex (index_add (blocks_index idx) b) (fs_index idx) in
      (0, (foldl add idx (f_blk_sha1s seafile),
           set_traversed data (traversed_commits data)
             (s64 (traversed_blocks data + Z.of_nat (length (f_blk_sha1s seafile))))
             (traversed_fs_objs data)))
  end.

Definition add_fs_to_index (file_id : string) (s : gc_state) : gc_state :=
  let '(idx, data) := s in
  (mkGcIndex (blocks_index idx) ((fun i => index_add i file_id) <$> fs_index idx),
   set_traversed data (traversed_commits data) (traversed_blocks data)
     (s64 (traversed_fs_objs data + 1))).

Definition fs_callback (obj_id : string) (type : metadata_type) (s : gc_state)
  : bool * bool * gc_state :=
  let '(idx, data) := s in
  if decide (obj_id ∈ visited data) then (true, true, s)
  else
    let data := set_visited data ({[obj_id]} ∪ visited data) in
    let s := add_fs_to_index obj_id (idx, data) in
    if decide (type = TypeFile) then
      let '(ret, s) := add_blocks_to_index obj_id s in (negb (ret <? 0), false, s)
    else (true, false, s).

(** The tree of a commit; [fuel] bounds the depth of the tree. *)
Definition traverse_root (fuel : nat) (root : string) (s : gc_state) : bool * gc_state :=
  match seaf_fs_manager_traverse_tree fs_callback st (r_version (gd_repo (snd s))) false fuel root s with
  | Some (ret, s) => (negb (ret <? 0), s)
  | None => (false, s)
  end.

Definition count_commit (s : gc_state) : gc_state :=
  (fst s, set_traversed (snd s) (s32 (traversed_commits (snd s) + 1)) (traversed_blocks (snd s)) 0).

Definition mark_commit (id : string) (s : gc_state) : gc_state :=
  (fst s, set_visited_commits (snd s) ({[id]} ∪ visited_commits (snd s))).

Definition traverse_commit (fuel : nat) (commit : SeafCommit) (s : gc_state) : bool * bool * gc_state :=
  let data := snd s in
  if decide (commit_id commit ∈ visited_commits data) then (true, true, s)
  else
    let stop :=
      if truncate_time data =? 0 then true
      else (0 <? truncate_time data) && (s64 (ctime commit) <? truncate_time data) && traversed_head data in
    let s := (fst s, set_traversed_head data true) in
    let '(ok, s) := traverse_root fuel (root_id commit) (count_commit s) in
    if negb ok then (false, stop, s)
    else (true, stop, mark_commit (commit_id commit) s).

Definition traverse_base_commit (fuel : nat) (commit : SeafCommit) (s : gc_state) : bool * bool * gc_state :=
  if decide (commit_id commit ∈ visited_commits (snd s)) then (true, true, s)
  else
    let '(ok, s) := traverse_root fuel (root_id commit) (count_commit s) in
    if negb ok then (false, true, s)
    else (true, true, mark_commit (commit_id commit) s).
End scan.

(** A traversal of the history that uses the whole store as fuel. *)
Definition run_traversal (func : SeafCommit -> gc_state -> bool * bool * gc_state) (cs : commit_store)
    (start : string) (s : gc_state) : bool * gc_state :=
  match seaf_commit_manager_traverse_commit_tree func cs false (size cs) start s with
  | Some r => r
  | None => (false, s)
  end.

Context (env : GcEnv).

Definition repo_truncate_time (db : GcDb) (id : string) : Z :=
  seaf_repo_manager_get_repo_truncate_time (e_now env)
    (seaf_repo_manager_get_repo_history_limit (e_limit_row env id) (e_keep_days env))
    (default (-1) (valid_since db !! id)).

Definition update_valid_since_time (db : GcDb) (repo : SeafRepo) (new_time : Z) : GcDb :=
  let old_time := default (-1) (valid_since db !! r_id repo) in
  let set t := mkGcDb (<[r_id repo := t]> (valid_since db)) (gc_ids db) in
  if 0 <? new_time then (if old_time <? new_time then set new_time else db)
  else if new_time =? 0 then
    match seaf_commit_manager_get_commit (e_commits env (r_id repo)) (r_head repo) with
    | Some head => if (old_time <? 0) || (u64 old_time <? ctime head) then set (s64 (ctime head)) else db
    | None => db
    end
  else db.

Definition gc_data_new (db : GcDb) (repo : SeafRepo) : GcDb * GCData :=
  let t := repo_truncate_time db (r_id repo) in
  (update_valid_since_time db repo t, mkGCData repo ∅ ∅ t false 0 0 0).

Definition populate_gc_index_for_repo (s : gc_state) : Z * gc_state :=
  let repo := gd_repo (snd s) in
  let '(res, s) := run_traversal (traverse_commit (e_fs env (r_store_id repo)) (e_fuel env))
                     (e_commits env (r_id repo)) (r_head repo) s in
  if negb res then (-1, s) else (traversed_blocks (snd s), s).

(** The GC id is replaced, inside the transaction. *)
Definition update_gc_id (db : GcDb) (repo : SeafRepo) : Z * GcDb :=
  if e_gcid_ok env (r_id repo)
  then (0, mkGcDb (valid_since db) (<[r_id repo := e_uuid env (r_id repo)]> (gc_ids db)))
  else (-1, db).

Definition populate_gc_index_for_repo_for_new_commits (online : bool) (db : GcDb) (s : gc_state)
  : Z * GcDb * gc_state :=
  let repo := gd_repo (snd s) in
  let '(ret, db) := if negb (r_is_virtual repo) && online then update_gc_id db repo else (0, db) in
  if ret <? 0 then (-1, db, s)
  else
    let s := (fst s, set_traversed (snd s) 0 0 (traversed_fs_objs (snd s))) in
    match e_branch env (r_id repo) with
    | None => (-1, db, s)
    | Some new_head =>
        let '(res, s) :=
          if String.eqb (r_head repo) new_head then (true, s)
          else run_traversal (traverse_commit (e_fs_new env (r_store_id repo)) (e_fuel env))
                 (e_commits_new env (r_id repo)) new_head s in
        if negb res then (-1, db, s) else (traversed_blocks (snd s), db, s)
    end.

(** The sub-libraries share the stores, and the indexes; their data is kept for
    the second scan, the last one first. *)
Fixpoint populate_gc_index_for_virtual_repos (ids : list string) (db : GcDb) (idx : GcIndex)
    (virtual_repos : list GCData) (ret : Z) : Z * GcDb * GcIndex * list GCData :=
  match ids with
  | [] => (ret, db, idx, virtual_repos)
  | id :: ids =>
      match e_repo env id with
      | None => (-1, db, idx, virtual_repos)
      | Some vrepo =>
          let '(db, data) := gc_data_new db vrepo in
          let '(scan_ret, (idx, data)) := populate_gc_index_for_repo (idx, data) in
          if scan_ret <? 0 then (-1, db, idx, data :: virtual_repos)
          else populate_gc_index_for_virtual_repos ids db idx (data :: virtual_repos) (s64 (ret + scan_ret))
      end
  end.

Fixpoint populate_gc_index_for_virtual_repos_for_new_commits (online : bool) (virtual_repos : list GCData)
    (db : GcDb) (idx : GcIndex) (ret : Z) : Z * GcDb * GcIndex :=
  match virtual_repos with
  | [] => (ret, db, idx)
  | data :: virtual_repos =>
      let '(scan_ret, db, (idx, _)) := populate_gc_index_for_repo_for_new_commits online db (idx, data) in
      if scan_ret <? 0 then (-1, db, idx)
      else populate_gc_index_for_virtual_repos_for_new_commits online virtual_repos db idx
             (s64 (ret + scan_ret))
  end.

Fixpoint traverse_base_commits (ids : list string) (s : gc_state) : Z * gc_state :=
  match ids with
  | [] => (traversed_blocks (snd s), s)
  | id :: ids =>
      match e_base_commit env id with
      | None => traverse_base_commits ids s
      | Some base =>
          let repo := gd_repo (snd s) in
          let '(res, s) := run_traversal (traverse_base_commit (e_fs env (r_store_id repo)) (e_fuel env))
                             (e_commits env (r_store_id repo)) base s in
          if negb res then (-1, s) else traverse_base_commits ids s
      end
  end.

Definition populate_gc_index_for_base_commit (s : gc_state) : Z * gc_state :=
  traverse_base_commits (e_virtual_ids env) s.

(** ** Removing what is not in the index *)

(** One task of the thread pool; the counters and the removed objects. *)
Definition check_liveness (remove_ok : string -> bool) (index : I) (dry_run : bool)
    (acc : Z * Z * list string) (id : string) : Z * Z * list string :=
  let '(removed, failed, gone) := acc in
  if index_test index id then acc
  else if dry_run then (removed + 1, failed, gone)
  else if remove_ok id then (removed + 1, failed, gone ++ [id])
  else (removed, failed + 1, gone).

(** The two removal phases: the result and the removed objects. *)
Definition check_existing (remove_ok : string -> bool) (exist : list string) (index : I) (dry_run : bool)
  : Z * list string :=
  if negb (e_pool_ok env) then (-1, [])
  else
    let '(removed, failed, gone) := foldl (check_liveness remove_ok index dry_run) (0, 0, []) exist in
    (if failed =? 0 then removed else -1, gone).

Definition check_existing_blocks : list string -> I -> bool -> Z * list string :=
  check_existing (e_remove_block_ok env).

Definition check_existing_fs : list string -> I -> bool -> Z * list string :=
  check_existing (e_remove_fs_ok env).

(** ** One collection *)

Record GcResult := mkGcResult {
  gc_ret : Z;
  removed_blocks : list string;
  removed_fs : list string;
  gc_db : GcDb
}.

Definition nothing_removed (ret : Z) (db : GcDb) : option GcResult := Some (mkGcResult ret [] [] db).

(** The second scan and the removal; a transaction that is not committed leaves
    the table of GC ids alone. *)
Definition gc_new_commits_and_remove (dry_run online : bool) (exist_blocks exist_fs : list string)
    (db : GcDb) (idx : GcIndex) (data : GCData) (virtual_repos : list GCData) : option GcResult :=
  let '(ret, db', (idx, data)) := populate_gc_index_for_repo_for_new_commits online db (idx, data) in
  if ret <? 0 then nothing_removed ret db
  else
    let '(ret, db', idx) :=
      populate_gc_index_for_virtual_repos_for_new_commits online virtual_repos db' idx 0 in
    if ret <? 0 then nothing_removed ret db
    else
      let '(ret, gone) := check_existing_blocks exist_blocks (blocks_index idx) dry_run in
      if ret <? 0 then Some (mkGcResult ret gone [] db)
      else
        let '(removed, gone_fs) :=
          match fs_index idx with
          | Some i => check_existing_fs exist_fs i dry_run
          | None => (0, [])
          end in
        if removed <? 0 then Some (mkGcResult ret gone gone_fs db)
        else Some (mkGcResult ret gone gone_fs (if online && negb (e_commit_ok env) then db else db')).

(** [None]: the cleanup frees a pointer that was never assigned. *)
Definition gc_v1_repo (repo : SeafRepo) (dry_run online rm_fs : bool) (db : GcDb) : option GcResult :=
  if repo_truncate_time db (r_id repo) <? 0 then nothing_removed 0 db
  else
    match e_blocks env with
    | None => nothing_removed (-1) db
    | Some blocks =>
        let exist_blocks := elements (list_to_set blocks : gset string) in
        if (length exist_blocks =? 0)%nat then nothing_removed 0 db
        else
          match (if rm_fs then e_fs_objs env else Some []) with
          | None => None
          | Some fs_objs =>
              let exist_fs := elements (list_to_set fs_objs : gset string) in
              match index_create (gc_index_size (Z.of_nat (length exist_blocks))),
                    (if rm_fs && (0 <? length exist_fs)%nat
                     then Some <$> index_create (gc_index_size (Z.of_nat (length exist_fs)))
                     else Some None) with
              | Some blocks_index, Some fs_index =>
                  let '(db, data) := gc_data_new db repo in
                  let '(ret, (idx, data)) :=
                    populate_gc_index_for_repo (mkGcIndex blocks_index fs_index, data) in
                  if ret <? 0 then nothing_removed ret db
                  else
                    let '(ret, db, idx, virtual_repos) :=
                      populate_gc_index_for_virtual_repos (e_virtual_ids env) db idx [] 0 in
                    if ret <? 0 then nothing_removed ret db
                    else
                      let '(ret, (idx, data)) :=
                        if rm_fs then populate_gc_index_for_base_commit (idx, data) else (ret, (idx, data)) in
                      if rm_fs && (ret <? 0) then nothing_removed ret db
                      else if online && negb (e_begin_ok env) then nothing_removed ret db
                      else gc_new_commits_and_remove dry_run online exist_blocks exist_fs db idx data
                             virtual_repos
              | _, _ => None
              end
          end
    end.
End gc.
Arguments GcIndex : clear implicits.

(** ** All libraries *)

(** A library as it is listed: gone, damaged, or with its data. *)
Inductive listed_repo := RepoMissing | RepoCorrupted | RepoOk (repo : SeafRepo).

(** The collections [gc_core_run] starts, and its result: [run] is the result of
    [gc_v1_repo] on a library. *)
Definition gc_core_step (acc : Z * list SeafRepo) (l : listed_repo)
  : Z * list SeafRepo :=
  let '(result, pushed) := acc in
  match l with
  | RepoMissing => acc
  | RepoCorrupted => (-1, pushed)
  | RepoOk repo => if r_is_virtual repo then acc else (result, pushed ++ [repo])
  end.

Definition gc_core_run (run : SeafRepo -> Z) (delete_garbage : Z) (del_garbage : bool)
    (repos : list listed_repo) : Z * list SeafRepo :=
  let '(result, pushed) := foldl gc_core_step (0, []) repos in
  let result := foldl (fun result repo => if run repo <? 0 then -1 else result) result pushed in
  (if del_garbage && (delete_garbage <? 0) then -1 else result, pushed).

(** ** Libraries deleted by users *)

Inductive RemoveType := COMMIT | FS | BLOCK.

#[global] Instance RemoveType_eq_dec : EqDecision RemoveType.
Proof. solve_decision. Defined.

Section garbage.
Context (is_uuid_valid repo_exists : string -> bool).
(** Removing the store of a deleted library, and its row among the garbage. *)
Context (remove_ok : RemoveType -> string -> bool) (remove_garbage_ok : string -> bool).
(** The order in which the tasks are finished. *)
Context (schedule : list (RemoveType * string) -> list (RemoveType * string)).

Definition garbage_repos (del_repos : list string) : list string :=
  filter (fun id => is_uuid_valid id = true /\ repo_exists id = false) del_repos.

Definition remove_tasks (del_repos : list string) : list (RemoveType * string) :=
  id ← garbage_repos del_repos; [(COMMIT, id); (FS, id); (BLOCK, id)].

(** A task that is taken from the queue. *)
Definition pop_task (acc : Z * gset string) (task : RemoveType * string) : Z * gset string :=
  let '(result, deleted) := acc in
  if remove_ok (fst task) (snd task) then acc else (-1, deleted ∖ {[snd task]}).

(** The result and the libraries whose garbage row is removed. *)
Definition delete_garbaged_repos (dry_run : bool) (del_repos : list string) : Z * gset string :=
  if dry_run then (0, ∅)
  else
    let '(result, deleted) :=
      foldl pop_task (0, list_to_set (garbage_repos del_repos)) (schedule (remove_tasks del_repos)) in
    (foldl (fun result id => if remove_garbage_ok id then result else -1) result (elements deleted), deleted).
End garbage.
