(* ===== verification/GcProof.v ===== *)
(** * The garbage collector keeps what is live

    The proofs about [Gc]: the scan of a tree with its table of visited objects
    leaves a set closed under references, all of it in the indexes; the scans of
    the histories visit every commit that has to be kept; so nothing that a kept
    commit refers to is removed. *)

From S2P Require Import Prelude Bloom Hex FsObj FsMgr CommitMgr Gc.

Section safety.
Context {I : Type} `{LiveIndexLaws I}.
Abbreviation gc_state := (GcIndex I * GCData)%type.

(** ** What the indexes hold *)

Definition has_block (idx : GcIndex I) (b : string) : Prop := index_has (blocks_index idx) b.
Definition has_fs (idx : GcIndex I) (x : string) : Prop :=
  match fs_index idx with Some i => index_has i x | None => True end.
Definition good_idx (idx : GcIndex I) : Prop :=
  index_good (blocks_index idx) /\ match fs_index idx with Some i => index_good i | None => True end.

Record idx_le (i1 i2 : GcIndex I) : Prop := {
  le_block : forall b, has_block i1 b -> has_block i2 b;
  le_fs : forall x, has_fs i1 x -> has_fs i2 x
}.

#[local] Instance idx_le_preorder : PreOrder idx_le.
Proof. split; [by split|]. intros x y z [A1 A2] [B1 B2]. split; auto. Qed.

(** The part of the data that the scan of a tree leaves alone. *)
Definition frame (d : GCData) := (gd_repo d, visited_commits d, truncate_time d, traversed_head d).

Record tree_step (s s' : gc_state) : Prop := {
  ts_idx : idx_le (fst s) (fst s');
  ts_visited : visited (snd s) ⊆ visited (snd s');
  ts_frame : frame (snd s) = frame (snd s')
}.

#[local] Instance tree_step_preorder : PreOrder tree_step.
Proof.
  split; [by split|]. intros x y z [A1 A2 A3] [B1 B2 B3].
  split; [by transitivity (fst y)|set_solver|congruence].
Qed.

(** ** The scan of a tree *)

Definition refers (de : SeafDirent) : Prop :=
  (S_ISREG (d_mode de) = true /\ d_id de <> EMPTY_SHA1) \/ S_ISDIR (d_mode de) = true.

(** A visited object: what it refers to is visited or in the index. *)
Definition node_ok (st : fs_store) (V : gset string) (idx : GcIndex I) (v : string) : Prop :=
  v = EMPTY_SHA1 \/
  match st !! v with
  | Some (ODir d) => forall de, de ∈ entries d -> refers de -> d_id de ∈ V
  | Some (OFile f) => forall b, b ∈ f_blk_sha1s f -> has_block idx b
  | None => False
  end.

(** All visited objects but the directories being scanned. *)
Definition closed (st : fs_store) (grey : gset string) (V : gset string) (idx : GcIndex I) : Prop :=
  forall v, v ∈ V -> v ∈ grey \/ node_ok st V idx v.

Record tree_ok (st : fs_store) (grey : gset string) (s : gc_state) : Prop := {
  to_good : good_idx (fst s);
  to_closed : closed st grey (visited (snd s)) (fst s);
  to_fs : forall x, x ∈ visited (snd s) -> has_fs (fst s) x
}.

Lemma node_ok_mono st st' (V V' : gset string) idx idx' v :
  st ⊆ st' -> V ⊆ V' -> idx_le idx idx' -> node_ok st V idx v -> node_ok st' V' idx' v.
Proof.
  intros Hs HV Hi [->|Hv]; [by left|right]. destruct (st !! v) as [o|] eqn:E; [|done].
  rewrite (lookup_weaken _ _ _ _ E Hs). destruct o; [set_solver|]. intros b Hb. by apply Hi, Hv.
Qed.

Lemma tree_ok_mono st st' s : st ⊆ st' -> tree_ok st ∅ s -> tree_ok st' ∅ s.
Proof.
  intros Hs [G C F]. split; [done| |done]. intros v Hv. right.
  destruct (C v Hv) as [?|Hn]; [set_solver|]. by eapply node_ok_mono.
Qed.

Lemma add_blocks_le l : forall idx,
  idx_le idx (foldl (fun idx b => mkGcIndex (index_add (blocks_index idx) b) (fs_index idx)) idx l) /\
  (good_idx idx ->
   good_idx (foldl (fun idx b => mkGcIndex (index_add (blocks_index idx) b) (fs_index idx)) idx l) /\
   forall b, b ∈ l ->
   has_block (foldl (fun idx b => mkGcIndex (index_add (blocks_index idx) b) (fs_index idx)) idx l) b).
Proof.
  induction l as [|b l IH]; intros idx; simpl.
  { split; [done|]. intros Hg. split; [done|]. by intros b ?%not_elem_of_nil. }
  destruct (IH (mkGcIndex (index_add (blocks_index idx) b) (fs_index idx))) as [L G]. split.
  - etransitivity; [|exact L]. split; [intros c Hc; by apply add_has|done].
  - intros [G1 G2]. destruct (add_good (blocks_index idx) b G1) as [G3 G4].
    destruct G as [G5 G6]; [by split|]. split; [done|].
    intros c [-> | Hc]%elem_of_cons; [|by apply G6]. by apply L.
Qed.

(** The index of fs objects after one more. *)
Lemma add_fs_step id idx data :
  let s' := add_fs_to_index id (idx, set_visited data ({[id]} ∪ visited data)) in
  tree_step (idx, data) s' /\ id ∈ visited (snd s') /\
  (good_idx idx -> good_idx (fst s') /\ has_fs (fst s') id) /\
  visited (snd s') = {[id]} ∪ visited data /\ blocks_index (fst s') = blocks_index idx.
Proof.
  simpl. split_and!; [|set_solver| |done|done].
  - split; simpl; [|set_solver|done]. split; [done|]. intros x. unfold has_fs. simpl.
    destruct (fs_index idx); simpl; [apply add_has|done].
  - intros [G1 G2]. unfold good_idx, has_fs. simpl. destruct (fs_index idx) as [i|]; simpl; [|done].
    destruct (add_good i id G2). done.
Qed.

Lemma grey_more st (grey : gset string) s s' id :
  tree_ok st grey s -> tree_step s s' -> good_idx (fst s') ->
  visited (snd s') = {[id]} ∪ visited (snd s) -> has_fs (fst s') id ->
  tree_ok st ({[id]} ∪ grey) s'.
Proof.
  intros [G C F] [L S _] G' E Hid. split; [done| |].
  - intros v. rewrite E. intros [->%elem_of_singleton|Hv]%elem_of_union; [set_solver|].
    destruct (C v Hv) as [?|Hn]; [set_solver|right].
    eapply node_ok_mono; [done| |exact L|exact Hn]. rewrite E in S. exact S.
  - intros x. rewrite E. intros [->%elem_of_singleton|Hx]%elem_of_union; [done|]. by apply L, F.
Qed.

Lemma ungrey st (grey : gset string) s id :
  tree_ok st ({[id]} ∪ grey) s -> node_ok st (visited (snd s)) (fst s) id -> tree_ok st grey s.
Proof.
  intros [G C F] Hn. split; [done| |done]. intros v Hv.
  destruct (C v Hv) as [[->%elem_of_singleton|Hg]%elem_of_union|Hv']; auto.
Qed.

Lemma fs_callback_dir st grey id s ok stop s' :
  tree_ok st grey s -> fs_callback st id TypeDir s = (ok, stop, s') ->
  tree_step s s' /\ ok = true /\ id ∈ visited (snd s') /\
  (stop = true -> tree_ok st grey s') /\ (stop = false -> tree_ok st ({[id]} ∪ grey) s').
Proof.
  intros Hok. destruct s as [idx data]. unfold fs_callback. case_decide as Hv.
  { intros [= <- <- <-]. by split_and!. }
  rewrite decide_False by done. intros [= <- <- <-].
  destruct (add_fs_step id idx data) as (S1 & V1 & G1 & E1 & _).
  destruct (G1 (to_good _ _ _ Hok)) as [G2 F2]. split_and!; try done.
  intros _. by eapply grey_more.
Qed.

Lemma get_seafile_stored st id file :
  seaf_fs_manager_get_seafile st id = Some file ->
  (id = EMPTY_SHA1 /\ f_blk_sha1s file = []) \/
  exists f, st !! id = Some (OFile f) /\ f_blk_sha1s file = f_blk_sha1s f.
Proof.
  unfold seaf_fs_manager_get_seafile. destruct (String.eqb_spec id EMPTY_SHA1) as [->|].
  - intros [= <-]. by left.
  - destruct (st !! id) as [[|f]|]; [done| |done]. intros [= <-]. right. by exists f.
Qed.

Lemma fs_callback_file st grey id s ok stop s' :
  tree_ok st grey s -> fs_callback st id TypeFile s = (ok, stop, s') ->
  tree_step s s' /\ (ok = true -> tree_ok st grey s' /\ id ∈ visited (snd s')).
Proof.
  intros Hok. destruct s as [idx data]. unfold fs_callback. case_decide as Hv.
  { intros [= <- <- <-]. by split_and!. }
  rewrite decide_True by done.
  destruct (add_fs_step id idx data) as (S1 & V1 & G1 & E1 & E2).
  destruct (G1 (to_good _ _ _ Hok)) as [G2 F2].
  destruct (add_fs_to_index id _) as [idx1 data1]. unfold add_blocks_to_index.
  destruct (seaf_fs_manager_get_seafile st id) as [file|] eqn:E; intros [= <- <- <-]; [|done].
  destruct (add_blocks_le (f_blk_sha1s file) idx1) as [L G]. destruct (G G2) as [G3 G4].
  assert (S2 : tree_step (idx, data)
    (foldl (fun idx b => mkGcIndex (index_add (blocks_index idx) b) (fs_index idx)) idx1 (f_blk_sha1s file),
     set_traversed data1 (traversed_commits data1)
       (s64 (traversed_blocks data1 + Z.of_nat (length (f_blk_sha1s file)))) (traversed_fs_objs data1))).
  { etransitivity; [exact S1|]. by split. }
  split; [done|]. intros _. split; [|done].
  apply (ungrey _ _ _ id); [eapply grey_more; [exact Hok|exact S2|done|exact E1|by apply L]|].
  destruct (get_seafile_stored _ _ _ E) as [[-> _]|(f & Ef & Eb)]; [by left|right].
  rewrite Ef, <- Eb. exact G4.
Qed.

Lemma traverse_file_ok st grey id s r s' :
  tree_ok st grey s -> traverse_file (fs_callback st) false id s = (r, s') ->
  tree_step s s' /\ (r = 0 \/ r = -1) /\
  (r = 0 -> tree_ok st grey s' /\ (id <> EMPTY_SHA1 -> id ∈ visited (snd s'))).
Proof.
  intros Hok. unfold traverse_file. destruct (String.eqb_spec id EMPTY_SHA1).
  { intros [= <- <-]. split_and!; [done|by left|done]. }
  destruct (fs_callback st id TypeFile s) as [[ok stop] s1] eqn:E.
  destruct (fs_callback_file _ _ _ _ _ _ _ Hok E) as [S Hk].
  destruct ok; simpl; intros [= <- <-].
  - destruct Hk; [done|]. split_and!; [done|by left|done].
  - split_and!; [done|by right|done].
Qed.

Lemma traverse_entries_ok st grey rec l :
  (forall id s r s', tree_ok st grey s -> rec id s = Some (r, s') ->
     tree_step s s' /\ (r = 0 \/ r = -1) /\ (r = 0 -> tree_ok st grey s' /\ id ∈ visited (snd s'))) ->
  forall s r s', tree_ok st grey s ->
  traverse_entries (fs_callback st) false rec l s = Some (r, s') ->
  tree_step s s' /\ (r = 0 \/ r = -1) /\
  (r = 0 -> tree_ok st grey s' /\ forall de, de ∈ l -> refers de -> d_id de ∈ visited (snd s')).
Proof.
  intros Hrec. induction l as [|de l IH]; intros s r s' Hok; cbn [traverse_entries].
  { intros [= <- <-]. split_and!; [done|by left|]. intros _. split; [done|]. by intros de ?%not_elem_of_nil. }
  assert (Hnext : forall s1, tree_step s s1 -> tree_ok st grey s1 -> (refers de -> d_id de ∈ visited (snd s1)) ->
    traverse_entries (fs_callback st) false rec l s1 = Some (r, s') ->
    tree_step s s' /\ (r = 0 \/ r = -1) /\
    (r = 0 -> tree_ok st grey s' /\ forall de0, de0 ∈ de :: l -> refers de0 -> d_id de0 ∈ visited (snd s'))).
  { intros s1 S1 Hok1 Hde Hrun. destruct (IH _ _ _ Hok1 Hrun) as (S2 & R & Hr).
    split_and!; [by transitivity s1|done|]. intros ->. destruct Hr as [Hok2 Hl]; [done|]. split; [done|].
    intros d [-> | Hd]%elem_of_cons Hrd; [|auto]. by apply S2, Hde. }
  destruct (S_ISREG (d_mode de)) eqn:Er.
  - destruct (traverse_file (fs_callback st) false (d_id de) s) as [r1 s1] eqn:E.
    destruct (traverse_file_ok _ _ _ _ _ _ Hok E) as (S1 & R1 & H1).
    destruct R1 as [-> | ->]; simpl; [|by intros [= <- <-]; split_and!; [|right|]].
    destruct H1 as [Hok1 Hid]; [done|]. apply Hnext; [done|done|].
    intros [[_ Hne]|Hd]; [auto|]. by rewrite (S_ISREG_not_DIR _ Er) in Hd.
  - destruct (S_ISDIR (d_mode de)) eqn:Ed.
    + destruct (rec (d_id de) s) as [[r1 s1]|] eqn:E; [|done].
      destruct (Hrec _ _ _ _ Hok E) as (S1 & R1 & H1).
      destruct R1 as [-> | ->]; simpl; [|by intros [= <- <-]; split_and!; [|right|]].
      destruct H1 as [Hok1 Hid]; [done|]. by apply Hnext.
    + apply Hnext; [done|done|]. unfold refers. rewrite Er, Ed. intros [[]|]; done.
Qed.

Lemma get_seafdir_stored st version id dir :
  seaf_fs_manager_get_seafdir st version id = Some dir ->
  id = EMPTY_SHA1 \/ exists d, st !! id = Some (ODir d) /\ entries dir = entries d.
Proof.
  unfold seaf_fs_manager_get_seafdir. destruct (String.eqb_spec id EMPTY_SHA1) as [->|]; [by left|].
  destruct (st !! id) as [[d|]|]; [|done|done]. intros [= <-]. right. by exists d.
Qed.

Lemma traverse_dir_ok st version fuel : forall grey id s r s',
  tree_ok st grey s -> traverse_dir (fs_callback st) st version false fuel id s = Some (r, s') ->
  tree_step s s' /\ (r = 0 \/ r = -1) /\ (r = 0 -> tree_ok st grey s' /\ id ∈ visited (snd s')).
Proof.
  induction fuel as [|fuel IH]; intros grey id s r s' Hok Hrun; [done|]. simpl in Hrun.
  destruct (fs_callback st id TypeDir s) as [[ok stop] s1] eqn:E.
  destruct (fs_callback_dir _ _ _ _ _ _ _ Hok E) as (S1 & -> & V1 & Hst & Hgo). simpl in Hrun.
  destruct stop.
  { injection Hrun as <- <-. split_and!; [done|by left|]. auto. }
  destruct (seaf_fs_manager_get_seafdir st version id) as [dir|] eqn:Ed.
  - destruct (traverse_entries_ok st ({[id]} ∪ grey) _ (entries dir) (IH _) _ _ _ (Hgo eq_refl) Hrun)
      as (S2 & R & Hr).
    split_and!; [by transitivity s1|done|]. intros ->. destruct Hr as [Hok2 Hl]; [done|].
    split; [|by apply S2]. apply (ungrey _ _ _ id); [done|].
    destruct (get_seafdir_stored _ _ _ _ Ed) as [->|(d & Est & Ee)]; [by left|right].
    rewrite Est, <- Ee. exact Hl.
  - injection Hrun as <- <-. split_and!; [done|by right|done].
Qed.

Lemma traverse_root_ok st fuel root s s' :
  tree_ok st ∅ s -> traverse_root st fuel root s = (true, s') ->
  tree_step s s' /\ tree_ok st ∅ s' /\ (root = EMPTY_SHA1 \/ root ∈ visited (snd s')).
Proof.
  intros Hok. unfold traverse_root, seaf_fs_manager_traverse_tree.
  destruct (String.eqb_spec root EMPTY_SHA1) as [->|].
  { intros [= <-]. split_and!; [done|done|by left]. }
  destruct (traverse_dir _ _ _ _ _ _ _) as [[r s1]|] eqn:E; [|done].
  destruct (traverse_dir_ok _ _ _ _ _ _ _ _ Hok E) as (S & [-> | ->] & Hr); [|done].
  intros [= <-]. destruct Hr; [done|]. auto.
Qed.
(** ** What a commit refers to *)

Inductive obj_under (st : fs_store) (version : Z) : string -> string -> Prop :=
| under_here id : obj_under st version id id
| under_entry id dir de x :
    seaf_fs_manager_get_seafdir st version id = Some dir -> de ∈ entries dir -> refers de ->
    obj_under st version (d_id de) x -> obj_under st version id x.

Lemma tree_ok_under st version s id x :
  tree_ok st ∅ s -> obj_under st version id x ->
  id = EMPTY_SHA1 \/ id ∈ visited (snd s) -> x = EMPTY_SHA1 \/ x ∈ visited (snd s).
Proof.
  intros Hok Hu. induction Hu as [id|id dir de x Ed Hde Hr _ IH]; [done|]. intros Hid. apply IH.
  destruct (get_seafdir_stored _ _ _ _ Ed) as [->|(d & Est & Ee)].
  { unfold seaf_fs_manager_get_seafdir in Ed. rewrite String.eqb_refl in Ed. injection Ed as <-.
    simpl in Hde. by apply not_elem_of_nil in Hde. }
  destruct Hid as [->|Hid].
  { unfold seaf_fs_manager_get_seafdir in Ed. rewrite String.eqb_refl in Ed. injection Ed as <-.
    simpl in Hde. by apply not_elem_of_nil in Hde. }
  right. destruct (to_closed _ _ _ Hok id Hid) as [?|[->|Hn]]; [set_solver| |].
  - unfold seaf_fs_manager_get_seafdir in Ed. rewrite String.eqb_refl in Ed. injection Ed as <-.
    simpl in Hde. by apply not_elem_of_nil in Hde.
  - rewrite Est in Hn. apply Hn; [by rewrite <- Ee|done].
Qed.

(** An object and its blocks are in the indexes. *)
Definition indexed (st : fs_store) (idx : GcIndex I) (x : string) : Prop :=
  has_fs idx x /\ forall f b, st !! x = Some (OFile f) -> b ∈ f_blk_sha1s f -> has_block idx b.

Lemma indexed_le st idx idx' x : idx_le idx idx' -> indexed st idx x -> indexed st idx' x.
Proof. intros [L1 L2] [A B]. split; [auto|]. intros f b Ef Hb. eauto. Qed.

Lemma visited_indexed st s x :
  tree_ok st ∅ s -> x ∈ visited (snd s) -> x <> EMPTY_SHA1 -> indexed st (fst s) x.
Proof.
  intros Hok Hx Hne. split; [by apply (to_fs _ _ _ Hok)|]. intros f b Ef Hb.
  destruct (to_closed _ _ _ Hok x Hx) as [?|[?|Hn]]; [set_solver|done|]. rewrite Ef in Hn. auto.
Qed.

Lemma tree_ok_idx st idx idx' d :
  idx_le idx idx' -> good_idx idx' -> tree_ok st ∅ (idx, d) -> tree_ok st ∅ (idx', d).
Proof.
  intros L G [_ C F]. split; [done| |].
  - intros v Hv. right. destruct (C v Hv) as [?|Hn]; [set_solver|]. by eapply node_ok_mono.
  - intros x Hx. apply L. by apply F.
Qed.

(** ** The scan of a history *)

Definition root_ok (s : gc_state) (c : SeafCommit) : Prop :=
  root_id c = EMPTY_SHA1 \/ root_id c ∈ visited (snd s).

Definition commits_ok (cs : commit_store) (s : gc_state) : Prop :=
  forall id, id ∈ visited_commits (snd s) ->
    exists c, seaf_commit_manager_get_commit cs id = Some c /\ root_ok s c.

Record scan_step (s s' : gc_state) : Prop := {
  ss_idx : idx_le (fst s) (fst s');
  ss_visited : visited (snd s) ⊆ visited (snd s');
  ss_commits : visited_commits (snd s) ⊆ visited_commits (snd s');
  ss_repo : gd_repo (snd s) = gd_repo (snd s');
  ss_time : truncate_time (snd s) = truncate_time (snd s')
}.

#[local] Instance scan_step_preorder : PreOrder scan_step.
Proof.
  split; [by split|]. intros x y z [A1 A2 A3 A4 A5] [B1 B2 B3 B4 B5].
  split; [by transitivity (fst y)|set_solver|set_solver|congruence|congruence].
Qed.

Lemma tree_scan_step s s' : tree_step s s' -> scan_step s s'.
Proof.
  intros [L V F]. unfold frame in F. injection F as F1 F2 F3 F4. split; [done|done|by rewrite F2|done|done].
Qed.

Lemma root_ok_mono s s' c : scan_step s s' -> root_ok s c -> root_ok s' c.
Proof. intros S [|Hr]; [by left|right]. by apply S. Qed.

Lemma tree_ok_data st grey idx d d' :
  visited d' = visited d -> tree_ok st grey (idx, d) -> tree_ok st grey (idx, d').
Proof. intros E [G C F]. split; simpl in *; rewrite ?E; done. Qed.

(** The commit ends the walk down its branch. *)
Definition ends (t : Z) (th : bool) (c : SeafCommit) : Prop :=
  t = 0 \/ (0 < t /\ s64 (ctime c) < t /\ th = true).

(** Scanning the tree of a commit and marking it. *)
Lemma scan_commit_ok st fuel c s0 s s1 :
  tree_ok st ∅ s -> traverse_root st fuel (root_id c) (count_commit s) = (true, s1) ->
  scan_step s0 s -> visited_commits (snd s0) = visited_commits (snd s) ->
  let s' := mark_commit (commit_id c) s1 in
  tree_ok st ∅ s' /\ scan_step s0 s' /\ root_ok s' c /\
  visited_commits (snd s') = {[commit_id c]} ∪ visited_commits (snd s0) /\
  traversed_head (snd s') = traversed_head (snd s).
Proof.
  intros Hok E S0 EV. destruct s as [idx d].
  apply (traverse_root_ok st) in E as (S1 & Hok1 & Hr);
    [|by apply (tree_ok_data _ _ _ d)].
  destruct s1 as [idx1 d1]. pose proof (ts_frame _ _ S1) as F. unfold frame in F. simpl in F.
  injection F as F1 F2 F3 F4. simpl. split_and!.
  - by apply (tree_ok_data _ _ _ d1).
  - etransitivity; [exact S0|]. destruct S1 as [L V _]. simpl in L, V.
    split; simpl; [done|done|set_solver|done|done].
  - exact Hr.
  - simpl in EV. rewrite <- F2, EV. done.
  - done.
Qed.

Lemma traverse_commit_ok st fuel c s stop s' :
  tree_ok st ∅ s -> traverse_commit st fuel c s = (true, stop, s') ->
  tree_ok st ∅ s' /\ scan_step s s' /\
  visited_commits (snd s') = {[commit_id c]} ∪ visited_commits (snd s) /\
  (commit_id c ∉ visited_commits (snd s) -> root_ok s' c) /\
  (stop = true -> commit_id c ∈ visited_commits (snd s) \/ ends (truncate_time (snd s)) (traversed_head (snd s)) c) /\
  (traversed_head (snd s) = true -> traversed_head (snd s') = true).
Proof.
  intros Hok. unfold traverse_commit. case_decide as Hv.
  { intros [= <- <-]. split_and!; [done|done|set_solver|done|by left|done]. }
  destruct s as [idx d]. simpl.
  destruct (traverse_root _ _ _ _) as [[|] s1] eqn:E; simpl; [|done]. intros [= <- <-].
  destruct (scan_commit_ok st fuel c (idx, d) (idx, set_traversed_head d true) s1) as (A & B & C & D & F);
    [by apply (tree_ok_data _ _ _ d)|exact E|by split|done|].
  split_and!; [exact A|exact B|exact D|by intros _| |intros _; by rewrite F].
  intros Hs. right. unfold ends. destruct (Z.eqb_spec (truncate_time d) 0); [by left|right].
  apply andb_true_iff in Hs as [Hs Hth]. apply andb_true_iff in Hs as [?%Z.ltb_lt ?%Z.ltb_lt]. done.
Qed.

Lemma runs_scan st fuel cs s tr s' :
  runs (traverse_commit st fuel) s tr s' ->
  tree_ok st ∅ s -> commits_ok cs s ->
  (forall x, x ∈ tr -> seaf_commit_manager_get_commit cs (commit_id (fst x)) = Some (fst x)) ->
  NoDup (ids tr) ->
  tree_ok st ∅ s' /\ scan_step s s' /\ commits_ok cs s' /\
  (forall id, id ∈ visited_commits (snd s') <-> id ∈ visited_commits (snd s) \/ id ∈ ids tr) /\
  (forall c, (c, true) ∈ tr -> commit_id c ∈ visited_commits (snd s) \/
     ends (truncate_time (snd s)) (traversed_head (snd s)) c \/
     (ends (truncate_time (snd s)) true c /\ fst <$> head tr <> Some c)).
Proof.
  induction 1 as [s|s c stop s1 tr s' Ef Hr IH]; intros Hok Hco Hget HN.
  { split_and!; [done|done|done| |by intros c ?%not_elem_of_nil]. intros id. simpl.
    rewrite elem_of_nil. tauto. }
  destruct (traverse_commit_ok _ _ _ _ _ _ Hok Ef) as (Hok1 & S1 & V1 & R1 & T1 & _).
  simpl in HN. apply NoDup_cons in HN as [Hni HN].
  assert (Hco1 : commits_ok cs s1).
  { intros id. rewrite V1. intros Hid. destruct (decide (id ∈ visited_commits (snd s))) as [Hin|Hin].
    - destruct (Hco id Hin) as (c0 & E0 & Hro). exists c0. split; [done|]. by eapply root_ok_mono.
    - assert (id = commit_id c) as -> by set_solver. exists c. split; [|auto].
      apply (Hget (c, stop)). by left. }
  destruct IH as (A & B & C & D & E); [done|done|intros x Hx; apply Hget; by right|done|].
  split_and!; [done|by transitivity s1|done| |].
  - intros id. rewrite D, V1, fmap_cons, elem_of_cons. simpl. set_solver.
  - intros c0 [[= -> <-]|Hc0]%elem_of_cons; [destruct (T1 eq_refl); auto|].
    assert (Hne : commit_id c0 <> commit_id c).
    { intros Heq. apply Hni. rewrite <- Heq. apply list_elem_of_fmap. by exists (c0, true). }
    destruct (E c0 Hc0) as [Hv|Hd].
    + left. rewrite V1 in Hv. set_solver.
    + right. right. split; [|simpl; congruence]. rewrite (ss_time _ _ S1).
      destruct Hd as [[?|(? & ? & ?)]|[Hd _]]; [by left|by right|done].
Qed.

(** The commits whose parents are kept too: all of them; with a time, those that
    are not older, and the head the first scan starts from; with time 0, none. *)
Definition goes_on (t : Z) (th : bool) (start : string) (c : SeafCommit) : Prop :=
  t <> 0 /\ (0 < t -> t <= s64 (ctime c) \/ (th = false /\ commit_id c = start)).

Lemma run_traversal_ok st fuel cs start s s' :
  run_traversal (traverse_commit st fuel) cs start s = (true, s') ->
  tree_ok st ∅ s -> commits_ok cs s ->
  tree_ok st ∅ s' /\ scan_step s s' /\ commits_ok cs s' /\ start ∈ visited_commits (snd s') /\
  (forall c p, seaf_commit_manager_get_commit cs (commit_id c) = Some c ->
     commit_id c ∈ visited_commits (snd s') -> commit_id c ∉ visited_commits (snd s) ->
     goes_on (truncate_time (snd s)) (traversed_head (snd s)) start c ->
     p ∈ parents c -> p ∈ visited_commits (snd s')).
Proof.
  unfold run_traversal. intros Hrun Hok Hco.
  destruct (seaf_commit_manager_traverse_commit_tree _ _ _ _ _ _) as [r|] eqn:E; [|done]. subst r.
  unfold seaf_commit_manager_traverse_commit_tree in E.
  destruct (traverse_tree_trace cs false _ (fun _ => True) _ _ _ _ ltac:(done) ltac:(done) E)
    as (c0 & tr & E0 & Hr & [V1 V2 V3 V4] & _ & Hh).
  destruct (runs_scan _ _ cs _ _ _ Hr Hok Hco V3 V1) as (A & B & C & D & F).
  split_and!; [done|done|done| |].
  - apply D. right. apply V2. set_solver.
  - intros c p Ec Hin Hnot [Ht Hgo] Hp. apply D. right.
    apply D in Hin as [?|Hin]; [done|]. apply list_elem_of_fmap in Hin as ([c1 b] & Ei & Hx).
    simpl in Ei. pose proof (V3 _ Hx) as E1. simpl in E1. rewrite <- Ei, Ec in E1. injection E1 as <-.
    destruct b; [exfalso|destruct (V4 c p Hx Hp) as [|[]]; done].
    destruct (F c Hx) as [?|[[?|(G1 & G2 & G3)]|[[?|(G1 & G2 & _)] Hne]]]; [done|done| |done|].
    + destruct (Hgo G1) as [?|[? _]]; [lia|congruence].
    + destruct (Hgo G1) as [?|[_ Hs]]; [lia|]. apply Hne. rewrite Hh. f_equal.
      rewrite Hs, E0 in Ec. by injection Ec.
Qed.

(** A callback that always stops is called for the start only. *)
Lemma run_traversal_stop (func : SeafCommit -> gc_state -> bool * bool * gc_state) cs start s s' :
  (forall c s, snd (fst (func c s)) = true) -> run_traversal func cs start s = (true, s') ->
  exists c, seaf_commit_manager_get_commit cs start = Some c /\ func c s = (true, true, s').
Proof.
  intros Hst. unfold run_traversal, seaf_commit_manager_traverse_commit_tree, traverse_commit_tree_common.
  destruct (seaf_commit_manager_get_commit cs start) as [c|] eqn:E; [|done]. intros Hrun. exists c.
  split; [done|]. destruct (size cs) as [|n]; [done|]. simpl in Hrun.
  specialize (Hst c s). destruct (func c s) as [[ok stop] s1]. simpl in Hst. subst stop.
  destruct ok; [|done]. destruct n; simpl in Hrun; by injection Hrun as ->.
Qed.

Lemma traverse_base_ok st fuel cs base s s' :
  run_traversal (traverse_base_commit st fuel) cs base s = (true, s') ->
  tree_ok st ∅ s -> commits_ok cs s ->
  tree_ok st ∅ s' /\ scan_step s s' /\ commits_ok cs s' /\
  visited_commits (snd s') = {[base]} ∪ visited_commits (snd s).
Proof.
  intros Hrun Hok Hco. apply run_traversal_stop in Hrun as (c & Ec & Ef).
  2:{ intros c0 s0. unfold traverse_base_commit. case_decide; [done|].
      by destruct (traverse_root _ _ _ _) as [[] ?]. }
  pose proof (get_commit_id _ _ _ Ec) as Ei. unfold traverse_base_commit in Ef. case_decide as Hv.
  { injection Ef as <-. split_and!; [done|done|done|]. rewrite Ei in Hv. set_solver. }
  destruct (traverse_root _ _ _ _) as [[|] s1] eqn:E; simpl in Ef; [|done]. injection Ef as <-.
  destruct (scan_commit_ok st fuel c s s s1 Hok E) as (A & B & C & D & _); [done|done|].
  rewrite Ei in *. split_and!; [done|done| |done].
  intros id. rewrite D. intros Hid. destruct (decide (id ∈ visited_commits (snd s))) as [Hin|Hin].
  - destruct (Hco id Hin) as (c0 & E0 & Hro). exists c0. split; [done|]. by eapply root_ok_mono.
  - assert (id = base) as -> by set_solver. by exists c.
Qed.
(** ** The commits a collection keeps *)

Inductive kept (cs : commit_store) (cont : SeafCommit -> Prop) (start : string) : SeafCommit -> Prop :=
| kept_start c : seaf_commit_manager_get_commit cs start = Some c -> kept cs cont start c
| kept_parent c p c' :
    kept cs cont start c -> cont c -> p ∈ parents c ->
    seaf_commit_manager_get_commit cs p = Some c' -> kept cs cont start c'.

Lemma kept_get cs cont start c :
  kept cs cont start c -> seaf_commit_manager_get_commit cs (commit_id c) = Some c.
Proof. intros [c' E|c0 p c' _ _ _ E]; pose proof (get_commit_id _ _ _ E) as Ei; by rewrite Ei. Qed.

Section env.
Context (env : GcEnv).

(** The stores only grow between the scans. *)
Definition stores_grow : Prop :=
  (forall r, e_commits env r ⊆ e_commits_new env r) /\ (forall r, e_fs env r ⊆ e_fs_new env r).

(** The base commits the sub-libraries of a library were made from. *)
Definition base_commits : list string := omap (e_base_commit env) (e_virtual_ids env).

(** The commits of a library that are live: from the head at the first scan, from
    the head at the second scan, and the base commits.  A base commit that was
    scanned for its own sake ends a branch of the second scan. *)
Definition live_commit (t : Z) (bases : list string) (r : SeafRepo) (c : SeafCommit) : Prop :=
  kept (e_commits env (r_id r)) (goes_on t false (r_head r)) (r_head r) c \/
  (exists h, e_branch env (r_id r) = Some h /\
    kept (e_commits_new env (r_id r))
      (fun c => goes_on t true h c /\ commit_id c ∉ bases) h c) \/
  (commit_id c ∈ bases /\ seaf_commit_manager_get_commit (e_commits env (r_id r)) (commit_id c) = Some c).

(** Everything the live commits of a library refer to is in the indexes. *)
Definition covered (t : Z) (bases : list string) (r : SeafRepo) (idx : GcIndex I) : Prop :=
  forall c x, live_commit t bases r c ->
    obj_under (e_fs_new env (r_store_id r)) (r_version r) (root_id c) x -> x <> EMPTY_SHA1 ->
    indexed (e_fs_new env (r_store_id r)) idx x.

Lemma covered_le t bases r idx idx' : idx_le idx idx' -> covered t bases r idx -> covered t bases r idx'.
Proof. intros L Hc c x Hl Hx Hne. eapply indexed_le; [exact L|]. by eapply Hc. Qed.

(** After the first scan of a library. *)
Record scanned (t : Z) (bases : list string) (r : SeafRepo) (idx : GcIndex I) (d : GCData) : Prop := {
  sc_repo : gd_repo d = r;
  sc_time : truncate_time d = t;
  sc_tree : tree_ok (e_fs env (r_store_id r)) ∅ (idx, d);
  sc_commits : commits_ok (e_commits env (r_id r)) (idx, d);
  sc_bases : forall id, id ∈ bases -> id ∈ visited_commits d;
  sc_first : exists V : gset string, V ⊆ visited_commits d /\
    (forall id, id ∈ visited_commits d -> id ∈ V \/ id ∈ bases) /\ r_head r ∈ V /\
    forall c p, seaf_commit_manager_get_commit (e_commits env (r_id r)) (commit_id c) = Some c ->
      commit_id c ∈ V -> goes_on t false (r_head r) c -> p ∈ parents c -> p ∈ V
}.

Lemma scanned_le t bases r idx idx' d :
  idx_le idx idx' -> good_idx idx' -> scanned t bases r idx d -> scanned t bases r idx' d.
Proof. intros L G [A B C D E F]. split; try done. by eapply tree_ok_idx. Qed.

Lemma populate_repo_scanned idx db r db' d ret idx' d' :
  good_idx idx -> gc_data_new env db r = (db', d) ->
  populate_gc_index_for_repo env (idx, d) = (ret, (idx', d')) -> (ret <? 0) = false ->
  idx_le idx idx' /\ good_idx idx' /\ scanned (repo_truncate_time env db (r_id r)) [] r idx' d'.
Proof.
  intros G [= <- <-]. unfold populate_gc_index_for_repo. simpl.
  set (d := mkGCData r ∅ ∅ _ false 0 0 0).
  destruct (run_traversal _ _ _ _) as [[|] s'] eqn:E; simpl; intros [= <- ->] Hret; [|done].
  destruct (run_traversal_ok _ _ _ _ _ _ E) as (A & B & C & D & F).
  - split; [done| |]; subst d; simpl; [intros v Hv; set_solver|intros x Hx; set_solver].
  - subst d. intros id Hid. simpl in Hid. set_solver.
  - split; [apply B|]. split; [apply A|]. destruct B as [B1 B2 B3 B4 B5]. simpl in *.
    split; [by rewrite <- B4|by rewrite <- B5|done|done|by intros id ?%not_elem_of_nil|].
    exists (visited_commits d'). split_and!; [done|by left|done|].
    intros c p Ec Hin Hgo Hp. eapply F; [exact Ec|exact Hin| |exact Hgo|exact Hp].
    subst d. simpl. set_solver.
Qed.

Lemma scanned_kept t bases r idx d c :
  scanned t bases r idx d ->
  kept (e_commits env (r_id r)) (goes_on t false (r_head r)) (r_head r) c ->
  commit_id c ∈ visited_commits d.
Proof.
  intros [_ _ _ _ _ (V & Hs & _ & Hh & Hc)] Hk. apply Hs.
  induction Hk as [c E|c p c' Hk IH Hgo Hp E]; rewrite (get_commit_id _ _ _ E); [done|].
  eapply Hc; [by eapply kept_get|done|done|done].
Qed.

Lemma goes_on_head t th h h' c : goes_on t true h c -> goes_on t th h' c.
Proof. intros [? Hg]. split; [done|]. intros Ht. destruct (Hg Ht) as [|[? _]]; [by left|done]. Qed.

(** The second scan completes the first. *)
Lemma new_scan_kept t bases r idx d cs h (s' : gc_state) :
  scanned t bases r idx d -> e_commits env (r_id r) ⊆ cs ->
  visited_commits d ⊆ visited_commits (snd s') -> h ∈ visited_commits (snd s') ->
  (forall c p, seaf_commit_manager_get_commit cs (commit_id c) = Some c ->
     commit_id c ∈ visited_commits (snd s') -> commit_id c ∉ visited_commits d ->
     goes_on t true h c -> p ∈ parents c -> p ∈ visited_commits (snd s')) ->
  forall c, kept cs (fun c => goes_on t true h c /\ commit_id c ∉ bases) h c ->
  commit_id c ∈ visited_commits (snd s').
Proof.
  intros [_ _ _ Hco _ (V & HV & HVb & _ & HVc)] Hcs Hsub Hh Hnew c Hk.
  induction Hk as [c E|c p c' Hk IH [Hgo Hb] Hp E]; rewrite (get_commit_id _ _ _ E); [done|].
  destruct (decide (commit_id c ∈ visited_commits d)) as [Hin|Hin];
    [|by eapply Hnew; [eapply kept_get| | | |]].
  destruct (HVb _ Hin) as [HinV|?]; [|done]. apply Hsub, HV.
  destruct (Hco _ Hin) as (c1 & E1 & _). pose proof (get_commit_mono _ _ _ _ Hcs E1) as E2.
  rewrite (kept_get _ _ _ _ Hk) in E2. injection E2 as <-.
  eapply HVc; [exact E1|done|by eapply goes_on_head|done].
Qed.

Lemma commits_ok_mono (cs cs' : commit_store) s : cs ⊆ cs' -> commits_ok cs s -> commits_ok cs' s.
Proof.
  intros Hs Hc id Hid. destruct (Hc id Hid) as (c & E & Hr). exists c. split; [|done].
  by eapply get_commit_mono.
Qed.

Lemma commits_covered t bases r s :
  stores_grow -> tree_ok (e_fs_new env (r_store_id r)) ∅ s -> commits_ok (e_commits_new env (r_id r)) s ->
  (forall c, live_commit t bases r c -> commit_id c ∈ visited_commits (snd s)) ->
  covered t bases r (fst s).
Proof.
  intros [Hcs _] Hok Hco Hl c x Hc Hx Hne. destruct (Hco _ (Hl c Hc)) as (c1 & E1 & Hr).
  assert (c1 = c) as ->.
  { destruct Hc as [Hk|[(h & _ & Hk)|[_ Hk]]]; [apply kept_get in Hk|apply kept_get in Hk; congruence|];
      apply (get_commit_mono _ _ _ _ (Hcs (r_id r))) in Hk; congruence. }
  destruct (tree_ok_under _ _ _ _ _ Hok Hx Hr); [done|]. by apply visited_indexed.
Qed.

Lemma populate_new_covered t bases r online db idx d ret db' idx' d' :
  stores_grow -> scanned t bases r idx d ->
  populate_gc_index_for_repo_for_new_commits env online db (idx, d) = (ret, db', (idx', d')) ->
  (ret <? 0) = false -> idx_le idx idx' /\ good_idx idx' /\ covered t bases r idx'.
Proof.
  intros Hg Hsc. unfold populate_gc_index_for_repo_for_new_commits. simpl. rewrite (sc_repo _ _ _ _ _ Hsc).
  destruct (if _ && _ then _ else _) as [ret0 db0]. destruct (ret0 <? 0); [by intros [= <- _ _]|].
  destruct (e_branch env (r_id r)) as [h|] eqn:Eb; [|by intros [= <- _ _]].
  set (s0 := (idx, set_traversed d 0 0 (traversed_fs_objs d))).
  assert (T0 : tree_ok (e_fs_new env (r_store_id r)) ∅ s0).
  { apply (tree_ok_mono (e_fs env (r_store_id r))); [apply Hg|].
    apply (tree_ok_data _ _ _ d); [done|apply Hsc]. }
  assert (C0 : commits_ok (e_commits_new env (r_id r)) s0).
  { apply (commits_ok_mono (e_commits env (r_id r))); [apply Hg|]. exact (sc_commits _ _ _ _ _ Hsc). }
  assert (Hend : forall s', scan_step s0 s' -> tree_ok (e_fs_new env (r_store_id r)) ∅ s' ->
    commits_ok (e_commits_new env (r_id r)) s' -> h ∈ visited_commits (snd s') ->
    (forall c p, seaf_commit_manager_get_commit (e_commits_new env (r_id r)) (commit_id c) = Some c ->
     commit_id c ∈ visited_commits (snd s') -> commit_id c ∉ visited_commits d ->
     goes_on t true h c -> p ∈ parents c -> p ∈ visited_commits (snd s')) ->
    idx_le idx (fst s') /\ good_idx (fst s') /\ covered t bases r (fst s')).
  { intros s' S T C Hh Hnew. split_and!; [apply S|apply T|]. apply commits_covered; [done|done|done|].
    intros c [Hk|[(h' & Eb' & Hk)|[Hb _]]].
    - apply (ss_commits _ _ S). simpl. by eapply scanned_kept.
    - rewrite Eb in Eb'. injection Eb' as <-.
      eapply new_scan_kept; [exact Hsc|apply Hg|apply S|done|exact Hnew|exact Hk].
    - apply (ss_commits _ _ S). simpl. by eapply sc_bases. }
  destruct (String.eqb_spec (r_head r) h) as [Heq|Hne]; simpl.
  - intros [= <- <- <- <-] _. apply (Hend s0); [done|done|done| |].
    + destruct (sc_first _ _ _ _ _ Hsc) as (V & HV & _ & Hh & _). simpl. rewrite <- Heq. by apply HV.
    + intros c p _ Hin Hni. simpl in Hin. done.
  - destruct (run_traversal _ _ _ _) as [[|] s'] eqn:E; simpl; intros [= <- <- ->]; [|done]. intros _.
    destruct (run_traversal_ok _ _ _ _ _ _ E T0 C0) as (A & B & C & D & F).
    apply (Hend (idx', d')); [done|done|done|done|].
    intros c p Ec Hin Hni Hgo Hp. eapply F; [done|done|done| |done].
    subst s0. simpl. rewrite (sc_time _ _ _ _ _ Hsc). by eapply goes_on_head.
Qed.
(** ** The scans one after the other *)

Lemma update_valid_since_other db r t id :
  r_id r <> id -> valid_since (update_valid_since_time env db r t) !! id = valid_since db !! id.
Proof.
  intros Hne. unfold update_valid_since_time.
  repeat case_match; simpl; try done; by rewrite lookup_insert_ne.
Qed.

Lemma virtual_repos_scanned : (forall id r, e_repo env id = Some r -> r_id r = id) ->
  forall vids db idx vr ret0 ret db' idx' vr',
  populate_gc_index_for_virtual_repos env vids db idx vr ret0 = (ret, db', idx', vr') ->
  (ret <? 0) = false -> good_idx idx -> NoDup vids ->
  Forall (fun d => exists t r, scanned t [] r idx d) vr ->
  idx_le idx idx' /\ good_idx idx' /\ Forall (fun d => exists t r, scanned t [] r idx' d) vr' /\
  (forall d, d ∈ vr -> d ∈ vr') /\
  forall id r, id ∈ vids -> e_repo env id = Some r ->
    exists d, d ∈ vr' /\ scanned (repo_truncate_time env db id) [] r idx' d.
Proof.
  intros Hid. induction vids as [|v vids IH]; intros db idx vr ret0 ret db' idx' vr' Hrun Hret G HN HF.
  { injection Hrun as <- <- <- <-. split_and!; try done. by intros id r ?%not_elem_of_nil. }
  cbn [populate_gc_index_for_virtual_repos] in Hrun.
  destruct (e_repo env v) as [vrepo|] eqn:Er; [|injection Hrun as <- _ _ _; done].
  destruct (gc_data_new env db vrepo) as [db1 d] eqn:Ed.
  destruct (populate_gc_index_for_repo env (idx, d)) as [sr [idx1 d1]] eqn:Ep.
  destruct (sr <? 0) eqn:Hsr; [injection Hrun as <- _ _ _; done|].
  destruct (populate_repo_scanned _ _ _ _ _ _ _ _ G Ed Ep Hsr) as (L1 & G1 & S1).
  apply NoDup_cons in HN as [Hni HN].
  destruct (IH _ _ _ _ _ _ _ _ Hrun Hret G1 HN) as (L2 & G2 & F2 & M2 & A2).
  { constructor; [by eexists _, _|]. eapply Forall_impl; [exact HF|].
    intros d0 (t & r & Hs). exists t, r. by eapply scanned_le. }
  split_and!; [by transitivity idx1|done|done|intros d0 Hd0; apply M2; by right|].
  intros id r [-> | Hin]%elem_of_cons E.
  - rewrite Er in E. injection E as <-. exists d1. split; [apply M2; by left|].
    rewrite (Hid _ _ Er) in S1. by eapply scanned_le.
  - destruct (A2 id r Hin E) as (d2 & Hd2 & S2). exists d2. split; [done|].
    assert (repo_truncate_time env db1 id = repo_truncate_time env db id) as <-; [|done].
    injection Ed as <- _. unfold repo_truncate_time. rewrite update_valid_since_other; [done|].
    rewrite (Hid _ _ Er). intros ->. done.
Qed.

Lemma virtual_repos_covered online : stores_grow -> forall vr db idx ret0 ret db' idx',
  populate_gc_index_for_virtual_repos_for_new_commits env online vr db idx ret0 = (ret, db', idx') ->
  (ret <? 0) = false -> good_idx idx -> Forall (fun d => exists t r, scanned t [] r idx d) vr ->
  idx_le idx idx' /\ forall d t r, d ∈ vr -> scanned t [] r idx d -> covered t [] r idx'.
Proof.
  intros Hg. induction vr as [|d vr IH]; intros db idx ret0 ret db' idx' Hrun Hret G HF.
  { injection Hrun as <- <- <-. split; [done|]. by intros d t r ?%not_elem_of_nil. }
  cbn [populate_gc_index_for_virtual_repos_for_new_commits] in Hrun.
  destruct (populate_gc_index_for_repo_for_new_commits env online db (idx, d)) as [[sr db1] [idx1 d1]] eqn:Ep.
  destruct (sr <? 0) eqn:Hsr; [injection Hrun as <- _ _; done|].
  apply Forall_cons in HF as [(t0 & r0 & S0) HF].
  destruct (populate_new_covered _ _ _ _ _ _ _ _ _ _ _ Hg S0 Ep Hsr) as (L1 & G1 & _).
  destruct (IH _ _ _ _ _ _ Hrun Hret G1) as (L2 & A2).
  { eapply Forall_impl; [exact HF|]. intros d0 (t & r & Hs). exists t, r. by eapply scanned_le. }
  split; [by transitivity idx1|]. intros d0 t r [-> | Hd]%elem_of_cons Hs.
  - destruct (populate_new_covered _ _ _ _ _ _ _ _ _ _ _ Hg Hs Ep Hsr) as (_ & _ & C).
    by eapply covered_le.
  - eapply A2; [done|]. by eapply scanned_le.
Qed.

Lemma scanned_add_base t bases r idx d base s' :
  r_store_id r = r_id r -> scanned t bases r idx d ->
  run_traversal (traverse_base_commit (e_fs env (r_store_id r)) (e_fuel env))
    (e_commits env (r_store_id r)) base (idx, d) = (true, s') ->
  idx_le idx (fst s') /\ scanned t (base :: bases) r (fst s') (snd s').
Proof.
  intros Est [A B C D Hb (V & HV & HVb & HVh & HVc)] Hrun.
  apply (traverse_base_ok) in Hrun as (T & S & Co & E); [|done|by rewrite Est].
  rewrite Est in Co. destruct s' as [idx' d']. destruct S as [S1 S2 S3 S4 S5]. simpl in *. split; [done|].
  split; [by rewrite <- S4|by rewrite <- S5|done|done| |].
  - intros id [-> | Hid]%elem_of_cons; rewrite E; [set_solver|]. specialize (Hb id Hid). set_solver.
  - exists V. split_and!; [set_solver| |done|done]. intros id. rewrite E.
    intros [->%elem_of_singleton|Hin]%elem_of_union; [right; by left|].
    destruct (HVb id Hin); [by left|right; by right].
Qed.

Lemma scanned_bases_ext t b1 b2 r idx d :
  (forall x, x ∈ b1 <-> x ∈ b2) -> scanned t b1 r idx d -> scanned t b2 r idx d.
Proof.
  intros Hb [A B C D Hv (V & HV & HVb & HVh & HVc)]. split; try done.
  - intros id Hid. apply Hv. by apply Hb.
  - exists V. split_and!; try done. intros id Hin. destruct (HVb id Hin); [by left|right; by apply Hb].
Qed.

Lemma base_commits_scanned t r : r_store_id r = r_id r ->
  forall vids bases idx d ret idx' d',
  scanned t bases r idx d -> traverse_base_commits env vids (idx, d) = (ret, (idx', d')) ->
  (ret <? 0) = false ->
  idx_le idx idx' /\ scanned t (omap (e_base_commit env) vids ++ bases) r idx' d'.
Proof.
  intros Est. induction vids as [|v vids IH]; intros bases idx d ret idx' d' Hs Hrun Hret; simpl in Hrun.
  { by injection Hrun as <- <- <-. }
  simpl. destruct (e_base_commit env v) as [base|]; [|by eapply IH].
  rewrite (sc_repo _ _ _ _ _ Hs) in Hrun.
  destruct (run_traversal _ _ _ _) as [[|] [idx1 d1]] eqn:E; simpl in Hrun;
    [|by injection Hrun as <- _ _].
  destruct (scanned_add_base _ _ _ _ _ _ _ Est Hs E) as [L1 S1].
  destruct (IH _ _ _ _ _ _ S1 Hrun Hret) as [L2 S2]. split; [by transitivity idx1|].
  eapply scanned_bases_ext; [|exact S2]. intros x. rewrite !elem_of_app, !elem_of_cons. tauto.
Qed.

(** ** Removal *)

Lemma check_existing_removed ok exist (index : I) dry_run :
  Forall (fun x => x ∈ exist /\ index_test index x = false) (snd (check_existing env ok exist index dry_run)).
Proof.
  unfold check_existing. destruct (negb _); [constructor|].
  assert (Hf : forall l acc, (forall x, x ∈ l -> x ∈ exist) ->
    Forall (fun x => x ∈ exist /\ index_test index x = false) (snd acc) ->
    Forall (fun x => x ∈ exist /\ index_test index x = false)
      (snd (foldl (check_liveness ok index dry_run) acc l))).
  { induction l as [|x l IH]; intros [[rm fl] gone] Hl HF; [done|]. simpl.
    apply IH; [intros y Hy; apply Hl; by right|]. destruct (index_test index x) eqn:E; [done|].
    destruct dry_run; [done|]. destruct (ok x); [|done]. simpl in *. apply Forall_app. split; [done|].
    repeat constructor; [|done]. apply Hl. by left. }
  specialize (Hf exist (0, 0, []) ltac:(done) ltac:(constructor)).
  by destruct (foldl _ _ _) as [[rm fl] gone].
Qed.

Lemma check_existing_keeps ok exist (index : I) dry_run x :
  index_has index x -> x ∉ snd (check_existing env ok exist index dry_run).
Proof.
  intros Hx Hin. pose proof (check_existing_removed ok exist index dry_run) as HF.
  rewrite Forall_forall in HF. destruct (HF x Hin) as [_ Ht]. by rewrite (test_has _ _ Hx) in Ht.
Qed.

(** The objects of the store [st] that the collection left alone. *)
Definition spared (st : fs_store) (res : GcResult) (x : string) : Prop :=
  (x ∉ removed_fs res) /\
  forall f b, st !! x = Some (OFile f) -> b ∈ f_blk_sha1s f -> b ∉ removed_blocks res.

Lemma removal_spares dry_run online eb ef db idx d vr res t bases r :
  gc_new_commits_and_remove env dry_run online eb ef db idx d vr = Some res ->
  stores_grow -> scanned t bases r idx d -> good_idx idx ->
  Forall (fun d => exists t r, scanned t [] r idx d) vr ->
  (removed_blocks res = [] /\ removed_fs res = []) \/
  exists idx', covered t bases r idx' /\
    (forall d t r, d ∈ vr -> scanned t [] r idx d -> covered t [] r idx') /\
    forall st x, indexed st idx' x -> spared st res x.
Proof.
  intros Hrun Hg Hs G HF. unfold gc_new_commits_and_remove, check_existing_blocks, check_existing_fs in Hrun.
  destruct (populate_gc_index_for_repo_for_new_commits env online db (idx, d)) as [[r1 db1] [idx1 d1]] eqn:E1.
  destruct (r1 <? 0) eqn:H1; [injection Hrun as <-; by left|].
  destruct (populate_new_covered _ _ _ _ _ _ _ _ _ _ _ Hg Hs E1 H1) as (L1 & G1 & C1).
  destruct (populate_gc_index_for_virtual_repos_for_new_commits env online vr db1 idx1 0)
    as [[r2 db2] idx2] eqn:E2.
  destruct (r2 <? 0) eqn:H2; [injection Hrun as <-; by left|].
  destruct (virtual_repos_covered _ Hg _ _ _ _ _ _ _ E2 H2 G1) as (L2 & A2).
  { eapply Forall_impl; [exact HF|]. intros d0 (t0 & r0 & S0). exists t0, r0. by eapply scanned_le. }
  right. exists idx2. split_and!; [by eapply covered_le| |].
  { intros d0 t0 r0 Hd0 S0. eapply A2; [done|]. by eapply scanned_le. }
  intros st x [Hf Hb].
  pose proof (check_existing_keeps (e_remove_block_ok env) eb (blocks_index idx2) dry_run) as Kb.
  destruct (check_existing env (e_remove_block_ok env) eb (blocks_index idx2) dry_run) as [r3 gone].
  simpl in Kb.
  assert (Hblocks : forall f b, st !! x = Some (OFile f) -> b ∈ f_blk_sha1s f -> b ∉ gone).
  { intros f b Ef Hbf. apply Kb. by eapply Hb. }
  destruct (r3 <? 0); [injection Hrun as <-; split; [apply not_elem_of_nil|done]|].
  unfold has_fs in Hf. destruct (fs_index idx2) as [i|].
  - pose proof (check_existing_keeps (e_remove_fs_ok env) ef i dry_run x Hf) as Kf.
    destruct (check_existing env (e_remove_fs_ok env) ef i dry_run) as [r4 gone_fs].
    destruct (r4 <? 0); injection Hrun as <-; by split.
  - simpl in Hrun. injection Hrun as <-. split; [apply not_elem_of_nil|done].
Qed.
End env.

(** The base commits that count for a library: those of the library collected,
    when fs objects are. *)
Definition bases_of (env : GcEnv) (rm_fs : bool) (repo r : SeafRepo) : list string :=
  if rm_fs && String.eqb (r_id r) (r_id repo) then base_commits env else [].

(** The library and its sub-libraries. *)
Definition collected_repo (env : GcEnv) (repo r : SeafRepo) : Prop :=
  r = repo \/ exists id, id ∈ e_virtual_ids env /\ e_repo env id = Some r.

(** Library ids identify libraries, and a collected library has its own store. *)
Record repos_ok (env : GcEnv) (repo : SeafRepo) : Prop := {
  ro_store : r_store_id repo = r_id repo;
  ro_nodup : NoDup (r_id repo :: e_virtual_ids env);
  ro_ids : forall id r, e_repo env id = Some r -> r_id r = id
}.

Lemma gc_index_good total i : index_create (gc_index_size total) = Some i -> index_good i.
Proof.
  apply create_good. pose proof (gc_index_size_range total). lia.
Qed.

(** Nothing removed, nothing lost. *)
Lemma nothing_removed_spares st rt db res x : nothing_removed rt db = Some res -> spared st res x.
Proof. intros [= <-]. split; [apply not_elem_of_nil|]. intros f b _ _. apply not_elem_of_nil. Qed.

(** The end of a collection, once the library, its sub-libraries and its base
    commits have been scanned. *)
Lemma finish_spares env repo rm_fs db db1 db2 dry_run online eb ef idx2 idx3 d3 vr rt res :
  stores_grow env -> repos_ok env repo -> good_idx idx2 -> idx_le idx2 idx3 ->
  scanned env (repo_truncate_time env db (r_id repo)) (bases_of env rm_fs repo repo) repo idx3 d3 ->
  Forall (fun d => exists t r, scanned env t [] r idx2 d) vr ->
  (forall id, r_id repo <> id -> valid_since db1 !! id = valid_since db !! id) ->
  (forall id r, id ∈ e_virtual_ids env -> e_repo env id = Some r ->
     exists d, d ∈ vr /\ scanned env (repo_truncate_time env db1 id) [] r idx2 d) ->
  (if online && negb (e_begin_ok env) then nothing_removed rt db2
   else gc_new_commits_and_remove env dry_run online eb ef db2 idx3 d3 vr) = Some res ->
  forall r c x, collected_repo env repo r ->
    live_commit env (repo_truncate_time env db (r_id r)) (bases_of env rm_fs repo r) r c ->
    obj_under (e_fs_new env (r_store_id r)) (r_version r) (root_id c) x -> x <> EMPTY_SHA1 ->
    spared (e_fs_new env (r_store_id r)) res x.
Proof.
  intros Hg [Est HN Hids] G2 L3 S3 F2 Hvs A2 Hfin r c x Hr Hl Hu Hne.
  destruct (online && _); [by eapply nothing_removed_spares|].
  assert (G3 : good_idx idx3) by apply S3.
  assert (F3 : Forall (fun d => exists t r, scanned env t [] r idx3 d) vr).
  { eapply Forall_impl; [exact F2|]. intros d0 (t0 & r0 & S0). exists t0, r0. by eapply scanned_le. }
  destruct (removal_spares _ _ _ _ _ _ _ _ _ _ _ _ _ Hfin Hg S3 G3 F3)
    as [[B0 B1]|(idx' & C1 & C2 & C3)].
  { split; [rewrite B1|intros f b _ _; rewrite B0]; apply not_elem_of_nil. }
  apply C3. destruct Hr as [-> | (id & Hid & Er)]; [by eapply C1|].
  destruct (A2 id r Hid Er) as (d0 & Hd0 & S0). pose proof (Hids _ _ Er) as Ei.
  apply NoDup_cons in HN as [Hni HN].
  assert (Hneq : r_id r <> r_id repo) by (intros Heq; apply Hni; rewrite <- Heq, Ei; done).
  assert (Eb : bases_of env rm_fs repo r = []).
  { unfold bases_of. apply String.eqb_neq in Hneq. by rewrite Hneq, andb_false_r. }
  rewrite Eb in Hl.
  assert (Et : repo_truncate_time env db1 id = repo_truncate_time env db (r_id r)).
  { unfold repo_truncate_time. by rewrite Ei, Hvs by congruence. }
  rewrite Et in S0. eapply (C2 d0 _ r Hd0); [by eapply scanned_le|exact Hl|exact Hu|exact Hne].
Qed.

Lemma gc_v1_repo_spares env repo dry_run online rm_fs db res :
  stores_grow env -> repos_ok env repo ->
  gc_v1_repo (I := I) env repo dry_run online rm_fs db = Some res ->
  forall r c x, collected_repo env repo r ->
    live_commit env (repo_truncate_time env db (r_id r)) (bases_of env rm_fs repo r) r c ->
    obj_under (e_fs_new env (r_store_id r)) (r_version r) (root_id c) x -> x <> EMPTY_SHA1 ->
    spared (e_fs_new env (r_store_id r)) res x.
Proof.
  intros Hg Hro Hrun r c x Hr Hl Hu Hne. pose proof Hro as [Est HN Hids].
  unfold gc_v1_repo in Hrun. destruct (_ <? 0); [by eapply nothing_removed_spares|].
  destruct (e_blocks env) as [blocks|]; [|by eapply nothing_removed_spares].
  destruct (_ =? 0)%nat; [by eapply nothing_removed_spares|].
  destruct (if rm_fs then _ else _) as [fs_objs|]; [|done].
  destruct (index_create _) as [bi|] eqn:Ebi; [|done].
  destruct (if _ && _ then _ else _) as [fi|] eqn:Efi; [|done].
  assert (G0 : good_idx (mkGcIndex bi fi)).
  { split; simpl; [by eapply gc_index_good|]. destruct fi as [i|]; [|done].
    clear Hrun. destruct (rm_fs && _); [|done]. apply fmap_Some in Efi as (i' & Ei & [= ->]). by eapply gc_index_good. }
  destruct (gc_data_new env db repo) as [db1 d] eqn:Ed.
  destruct (populate_gc_index_for_repo env _) as [r1 [idx1 d1]] eqn:E1.
  destruct (r1 <? 0) eqn:N1; [by eapply nothing_removed_spares|].
  destruct (populate_repo_scanned _ _ _ _ _ _ _ _ _ G0 Ed E1 N1) as (L1 & G1 & S1).
  destruct (populate_gc_index_for_virtual_repos env _ _ _ _ _) as [[[r2 db2] idx2] vr] eqn:E2.
  destruct (r2 <? 0) eqn:N2; [by eapply nothing_removed_spares|].
  apply NoDup_cons in HN as [Hni HN].
  destruct (virtual_repos_scanned _ Hids _ _ _ _ _ _ _ _ _ E2 N2 G1 HN ltac:(constructor))
    as (L2 & G2 & F2 & _ & A2).
  apply (scanned_le _ _ _ _ _ _ _ L2 G2) in S1.
  assert (Hvs : forall id, r_id repo <> id -> valid_since db1 !! id = valid_since db !! id).
  { injection Ed as <- _. intros id. apply update_valid_since_other. }
  pose proof (fun idx3 d3 rt L3 S3 Hfin => finish_spares env repo rm_fs db db1 db2 dry_run online
    (elements (list_to_set blocks : gset string)) (elements (list_to_set fs_objs : gset string)) idx2
    idx3 d3 vr rt res Hg Hro G2 L3 S3 F2 Hvs A2 Hfin r c x Hr Hl Hu Hne) as Hlast.
  unfold bases_of at 1 in Hlast. rewrite String.eqb_refl, andb_true_r in Hlast.
  destruct rm_fs; simpl in Hrun; [|by eapply Hlast].
  unfold populate_gc_index_for_base_commit in Hrun.
  destruct (traverse_base_commits env (e_virtual_ids env) (idx2, d1)) as [r3 [idx3 d3]] eqn:E3.
  destruct (r3 <? 0) eqn:N3; [by eapply nothing_removed_spares|].
  destruct (base_commits_scanned _ _ _ Est _ _ _ _ _ _ _ S1 E3 N3) as [L3 S3].
  rewrite app_nil_r in S3. by eapply Hlast.
Qed.
End safety.

(** ** The Bloom filter as the index *)

Section bloom.
Context (sha_int : string -> nat -> Z).

#[local] Instance bloom_index : LiveIndex Bloom := {|
  index_create size := bloom_create size 3 0;
  index_add bf s := match bloom_add sha_int bf s with Some (_, bf') => bf' | None => bf end;
  index_test bf s := match bloom_test sha_int bf s with Some r => negb (r =? 0) | None => false end;
  index_good bf := exists live, bloom_inv bf (live_hits sha_int bf live);
  index_has bf s := exists live, bloom_inv bf (live_hits sha_int bf live) /\ s ∈ live
|}.

Lemma bloom_index_laws : LiveIndexLaws Bloom.
Proof.
  split.
  - intros size i Hs Hc. exists []. by apply (create_inv size 3 0).
  - intros i s [live Hi]. destruct (add_inv sha_int i live s Hi) as (bf' & E & _ & Hi'). simpl. rewrite E.
    split; [by eexists|]. exists (s :: live). split; [done|by left].
  - intros i s t (live & Hi & Ht). destruct (add_inv sha_int i live s Hi) as (bf' & E & _ & Hi'). simpl.
    rewrite E. exists (s :: live). split; [done|by right].
  - intros i s (live & Hi & Hs). simpl. by rewrite (inv_test sha_int i live s Hi Hs).
Qed.
End bloom.

(** ** What a collection guarantees *)

(** C1: A collection never removes what is live: for every index without false
    negatives, whatever the library, the options, the failures of removals and
    the outcome of the run, no fs object and no block that a kept commit of the
    library or of one of its sub-libraries refers to is removed.  The kept
    commits are those from the head at the first scan and from the head at the
    second scan down to the first commit older than the history limit, and the
    base commits of the sub-libraries when fs objects are collected. *)
Theorem gc_keeps_live_objects {I} `{LiveIndexLaws I} env repo dry_run online rm_fs db res :
  stores_grow env -> repos_ok env repo ->
  gc_v1_repo (I := I) env repo dry_run online rm_fs db = Some res ->
  forall r c x, collected_repo env repo r ->
    live_commit env (repo_truncate_time env db (r_id r)) (bases_of env rm_fs repo r) r c ->
    obj_under (e_fs_new env (r_store_id r)) (r_version r) (root_id c) x -> x <> EMPTY_SHA1 ->
    (x ∉ removed_fs res) /\
    forall f b, e_fs_new env (r_store_id r) !! x = Some (OFile f) -> b ∈ f_blk_sha1s f ->
      b ∉ removed_blocks res.
Proof. exact (gc_v1_repo_spares env repo dry_run online rm_fs db res). Qed.

(** The Bloom filter as the server sizes it (four bits per object, at least
    2^13 and at most 2^29 bits, three hash functions) can be created for every
    number of objects and satisfies the interface: an added id always tests
    positive, whatever is added afterwards. *)
Theorem gc_bloom_index_no_false_negative sha_int total l1 s l2 :
  exists bf, bloom_create (gc_index_size total) 3 0 = Some bf /\
    exists bf', foldl (fun obf x => bf ← obf; snd <$> bloom_add sha_int bf x) (Some bf) (l1 ++ s :: l2) = Some bf' /\
      bloom_test sha_int bf' s = Some 1.
Proof.
  eexists. split; [reflexivity|].
  set (bf := mkBloom _ _ _ _ _ _).
  assert (Hi : bloom_inv bf (live_hits sha_int bf [])).
  { apply (create_inv (gc_index_size total) 3 0); [|done].
    pose proof (gc_index_size_range total). lia. }
  assert (Hf : forall l bf live, bloom_inv bf (live_hits sha_int bf live) -> exists bf' live',
    foldl (fun obf x => bf ← obf; snd <$> bloom_add sha_int bf x) (Some bf) l = Some bf' /\
    bloom_inv bf' (live_hits sha_int bf' live') /\ forall x, x ∈ l \/ x ∈ live -> x ∈ live').
  { induction l as [|x l IH]; intros bf0 live Hb; [exists bf0, live; set_solver|]. simpl.
    destruct (add_inv sha_int bf0 live x Hb) as (bf1 & -> & _ & Hb1). simpl.
    destruct (IH _ _ Hb1) as (bf2 & live2 & E & Hb2 & Hl). exists bf2, live2.
    split_and!; [done|done|]. intros y Hy. apply Hl. set_solver. }
  destruct (Hf (l1 ++ s :: l2) bf [] Hi) as (bf' & live' & E & Hb & Hl). exists bf'. split; [done|].
  apply (inv_test sha_int _ live'); [done|]. apply Hl. set_solver.
Qed.

Lemma check_liveness_dry {I} `{LiveIndex I} ok (index : I) l : forall acc,
  snd acc = [] -> snd (foldl (check_liveness ok index true) acc l) = [].
Proof.
  induction l as [|x l IH]; intros [[a b] g] Hg; [done|]. simpl. apply IH.
  destruct (index_test index x); done.
Qed.

Lemma check_existing_dry {I} `{LiveIndex I} env ok l (index : I) :
  snd (check_existing env ok l index true) = [].
Proof.
  unfold check_existing. destruct (negb _); [done|].
  pose proof (check_liveness_dry ok index l (0, 0, []) eq_refl) as Hd.
  by destruct (foldl _ _ _) as [[a b] g].
Qed.

(** A dry run removes neither blocks nor fs objects. *)
Theorem gc_dry_run_removes_nothing {I} `{LiveIndex I} env repo online rm_fs db res :
  gc_v1_repo (I := I) env repo true online rm_fs db = Some res ->
  removed_blocks res = [] /\ removed_fs res = [].
Proof.
  unfold gc_v1_repo, gc_new_commits_and_remove, check_existing_blocks, check_existing_fs, nothing_removed.
  intros Hrun.
  repeat (case_match; try (by simplify_eq)); simplify_eq; try done.
  all: repeat match goal with
    | E : check_existing ?e ?o ?l ?i true = (_, ?g) |- _ =>
        pose proof (check_existing_dry e o l i); rewrite E in *; clear E; simpl in *; subst
    end; done.
Qed.

(** For a history limit of up to 24855 days the truncation time is the limit
    counted back from now, or the time recorded by earlier collections when that
    is later; it is never in the future unless the recorded time is. *)
Theorem truncate_time_exact now days timestamp :
  0 < days <= 24855 ->
  seaf_repo_manager_get_repo_truncate_time now days timestamp = Z.max (now - days * 86400) timestamp.
Proof.
  intros Hd. unfold seaf_repo_manager_get_repo_truncate_time.
  destruct (Z.ltb_spec 0 days); [|lia]. rewrite (s32_id (days * 24)), s32_id by lia. f_equal. lia.
Qed.

(** From 24856 days on the product overflows an [int]: the truncation time
    computed for 24856 days lies 68 years in the future, so a collection keeps
    the head commit and its parents only. *)
Theorem truncate_time_overflow now :
  0 <= now ->
  seaf_repo_manager_get_repo_truncate_time now 24856 (-1) = now + 2147408896.
Proof.
  intros Hn. unfold seaf_repo_manager_get_repo_truncate_time.
  change (s32 (s32 (24856 * 24) * 3600)) with (-2147408896). simpl. lia.
Qed.

Lemma truncate_time_exact_witness :
  seaf_repo_manager_get_repo_truncate_time 1700000000 30 (-1) = 1697408000.
Proof. rewrite (truncate_time_exact 1700000000 30 (-1)) by lia. reflexivity. Defined.

Lemma truncate_time_overflow_witness :
  seaf_repo_manager_get_repo_truncate_time 1700000000 24856 (-1) = 3847408896.
Proof. rewrite (truncate_time_overflow 1700000000) by lia. reflexivity. Defined.

(** When listing the fs objects fails, the collection ends by freeing a pointer
    that was never assigned ([None]), whatever the library. *)
Theorem gc_frees_unassigned_data {I} `{LiveIndex I} env repo dry_run online db blocks :
  0 <= repo_truncate_time env db (r_id repo) ->
  e_blocks env = Some blocks -> blocks <> [] -> e_fs_objs env = None ->
  gc_v1_repo (I := I) env repo dry_run online true db = None.
Proof.
  intros Ht Eb Hne Ef. unfold gc_v1_repo. destruct (Z.ltb_spec (repo_truncate_time env db (r_id repo)) 0); [lia|].
  rewrite Eb, Ef. destruct (length _ =? 0)%nat eqn:El; [|done]. apply Nat.eqb_eq, nil_length_inv in El.
  apply elements_empty_inv in El. destruct blocks; [done|]. set_solver.
Qed.

(** ** Witnesses: a library with a live and a dead file *)

Definition f_live : string := "aaaaaaaaaaaaaaaaaaaaaaaaaaaaaaaaaaaaaaaa".
Definition f_dead : string := "bbbbbbbbbbbbbbbbbbbbbbbbbbbbbbbbbbbbbbbb".
Definition d_root : string := "cccccccccccccccccccccccccccccccccccccccc".
Definition b_live : string := "dddddddddddddddddddddddddddddddddddddddd".
Definition b_dead : string := "eeeeeeeeeeeeeeeeeeeeeeeeeeeeeeeeeeeeeeee".

Definition gc_fs : fs_store :=
  {[ d_root := ODir (mkDir 1 d_root [mkDirent 1 0x81A4 f_live 1 "x" 5 None 7]);
     f_live := OFile (mkFile 1 f_live 7 [b_live]); f_dead := OFile (mkFile 1 f_dead 7 [b_dead]) ]}.

Definition gc_commit : SeafCommit :=
  seaf_commit_new (fun _ => []) 0 (Some c_1) "lib" d_root None c_2 "first" 100.

(** [limit] is the history limit; the listing of fs objects may fail. *)
Definition gc_toy (limit : Z) (fs_objs : option (list string)) (remove_fs_ok : bool) : GcEnv := {|
  e_now := 1700000000; e_limit_row _ := RowDays limit; e_keep_days := -1;
  e_commits _ := {[ c_1 := gc_commit ]}; e_commits_new _ := {[ c_1 := gc_commit ]};
  e_fs _ := gc_fs; e_fs_new _ := gc_fs;
  e_blocks := Some [b_live; b_dead]; e_fs_objs := fs_objs;
  e_virtual_ids := []; e_repo _ := None; e_base_commit _ := None; e_branch _ := Some c_1;
  e_begin_ok := true; e_gcid_ok _ := true; e_uuid _ := "new-id"; e_pool_ok := true;
  e_remove_block_ok _ := true; e_remove_fs_ok _ := remove_fs_ok; e_commit_ok := true; e_fuel := 5 |}.

Definition gc_lib : SeafRepo := mkRepo "lib" "lib" 1 false c_1.
Definition gc_db0 : GcDb := mkGcDb ∅ ∅.

(** An index without false positives, to evaluate with. *)
#[local] Instance set_index : LiveIndex (gset string) := {|
  index_create _ := Some ∅;
  index_add i s := {[s]} ∪ i;
  index_test i s := bool_decide (s ∈ i);
  index_good _ := True;
  index_has i s := s ∈ i
|}.

#[local] Instance set_index_laws : LiveIndexLaws (gset string).
Proof.
  split; simpl; try done; try set_solver. intros i s Hs. by apply bool_decide_eq_true.
Qed.

(** The collection of the library with the exact index. *)
Definition gc_run (limit : Z) (fs_objs : option (list string)) (remove_fs_ok dry_run : bool) : option GcResult :=
  gc_v1_repo (I := gset string) (gc_toy limit fs_objs remove_fs_ok) gc_lib dry_run false true gc_db0.

Example gc_run_example : gc_run 30 (Some [d_root; f_live; f_dead]) true false =
  Some (mkGcResult 1 [b_dead] [f_dead] (mkGcDb {[ "lib" := 1697408000 ]} ∅)).
Proof. vm_compute. reflexivity. Qed.

Lemma gc_keeps_live_objects_witness :
  match gc_run 30 (Some [d_root; f_live; f_dead]) true false with
  | Some res => f_live ∉ removed_fs res
  | None => False
  end.
Proof.
  destruct (gc_run 30 (Some [d_root; f_live; f_dead]) true false) as [res|] eqn:E.
  - eapply (gc_keeps_live_objects _ gc_lib false false true gc_db0 res);
      [..|exact E|by left|left; apply kept_start; vm_compute; reflexivity| |discriminate].
    + split; done.
    + split; [done|apply NoDup_singleton|done].
    + eapply (under_entry _ _ _ (mkDir 1 d_root [mkDirent 1 0x81A4 f_live 1 "x" 5 None 7])).
      * vm_compute. reflexivity.
      * by left.
      * left. split; [reflexivity|discriminate].
      * apply under_here.
  - vm_compute in E. discriminate.
Defined.

Lemma gc_dry_run_removes_nothing_witness :
  match gc_run 30 (Some [d_root; f_live; f_dead]) true true with
  | Some res => removed_blocks res = [] /\ removed_fs res = []
  | None => False
  end.
Proof.
  destruct (gc_run 30 (Some [d_root; f_live; f_dead]) true true) as [res|] eqn:E.
  - exact (gc_dry_run_removes_nothing _ _ _ _ _ _ E).
  - vm_compute in E. discriminate.
Defined.

Lemma gc_frees_unassigned_data_witness : gc_run 30 None true false = None.
Proof.
  apply (gc_frees_unassigned_data (gc_toy 30 None true) gc_lib false false gc_db0 [b_live; b_dead]).
  - vm_compute. discriminate.
  - reflexivity.
  - discriminate.
  - reflexivity.
Defined.

(** A failure to remove an fs object is not reported: the collection returns the
    number of removed blocks, as after a success, and the object is still there. *)
Theorem gc_hides_fs_failure :
  gc_v1_repo (I := gset string) (gc_toy 30 (Some [d_root; f_live; f_dead]) false) gc_lib false false true gc_db0 =
  Some (mkGcResult 1 [b_dead] [] (mkGcDb {[ "lib" := 1697408000 ]} ∅)).
Proof. vm_compute. reflexivity. Qed.

(** A dry run still moves the recorded start of the library's history forward:
    afterwards the commits before that time count as gone. *)
Theorem gc_dry_run_moves_valid_since :
  gc_v1_repo (I := gset string) (gc_toy 30 (Some [d_root; f_live; f_dead]) true) gc_lib true false true gc_db0 =
  Some (mkGcResult 1 [] [] (mkGcDb {[ "lib" := 1697408000 ]} ∅)).
Proof. vm_compute. reflexivity. Qed.

(** ** Deleted libraries *)

Lemma pop_tasks_deleted remove_ok l : forall acc id,
  id ∈ snd (foldl (pop_task remove_ok) acc l) <->
  id ∈ snd acc /\ forall ty, (ty, id) ∈ l -> remove_ok ty id = true.
Proof.
  induction l as [|[ty0 id0] l IH]; intros [result deleted] id; simpl.
  { split; [|tauto]. intros Hid. split; [done|]. by intros ty ?%not_elem_of_nil. }
  rewrite IH. destruct (remove_ok ty0 id0) eqn:E; simpl.
  - split; intros [Hd Hl]; (split; [done|]).
    + intros ty [[= -> ->]|Ht]%elem_of_cons; auto.
    + intros ty Ht. apply Hl. by right.
  - rewrite elem_of_difference, elem_of_singleton. split.
    + intros [[Hd Hne] Hl]. split; [done|]. intros ty [[= -> ->]|Ht]%elem_of_cons; [done|auto].
    + intros [Hd Hl]. split; [split; [done|]|].
      * intros ->. rewrite (Hl ty0) in E; [done|by left].
      * intros ty Ht. apply Hl. by right.
Qed.

(** A deleted library leaves the list of garbage exactly when its id is a UUID,
    no library has that id any more and the commits, the fs objects and the
    blocks were all removed, in whatever order the removals finish; only the
    stores of such libraries are touched. *)
Theorem garbage_row_removed_after_all_stores is_uuid_valid repo_exists remove_ok remove_garbage_ok schedule del_repos id :
  (forall l, schedule l ≡ₚ l) ->
  (id ∈ snd (delete_garbaged_repos is_uuid_valid repo_exists remove_ok remove_garbage_ok schedule false del_repos) <->
   id ∈ del_repos /\ is_uuid_valid id = true /\ repo_exists id = false /\ forall ty, remove_ok ty id = true) /\
  (forall ty x, (ty, x) ∈ schedule (remove_tasks is_uuid_valid repo_exists del_repos) ->
   x ∈ del_repos /\ repo_exists x = false).
Proof.
  intros Hs.
  assert (Ht : forall ty x, (ty, x) ∈ schedule (remove_tasks is_uuid_valid repo_exists del_repos) <->
    x ∈ garbage_repos is_uuid_valid repo_exists del_repos).
  { intros ty x. rewrite Hs. unfold remove_tasks. rewrite list_elem_of_bind. split.
    - intros (y & Hy & Hin). rewrite !elem_of_cons, elem_of_nil in Hy.
      destruct Hy as [[= _ ->]|[[= _ ->]|[[= _ ->]|[]]]]; done.
    - intros Hx. exists x. split; [|done]. destruct ty; rewrite !elem_of_cons; auto. }
  split; [|intros ty x Hx; apply Ht, list_elem_of_filter in Hx; naive_solver].
  unfold delete_garbaged_repos.
  pose proof (pop_tasks_deleted remove_ok (schedule (remove_tasks is_uuid_valid repo_exists del_repos))
    (0, list_to_set (garbage_repos is_uuid_valid repo_exists del_repos)) id) as Hp.
  destruct (foldl (pop_task remove_ok) _ _) as [result deleted]. simpl in *. rewrite Hp.
  rewrite elem_of_list_to_set. split.
  - intros [Hg Hr]. pose proof Hg as [[? ?] ?]%list_elem_of_filter. split_and!; try done.
    intros ty. apply Hr. by apply Ht.
  - intros (Hd & Hu & He & Hr). split; [|auto]. by apply list_elem_of_filter.
Qed.

Lemma garbage_row_removed_after_all_stores_witness :
  c_1 ∈ snd (delete_garbaged_repos (fun _ => true) (fun _ => false)
    (fun ty id => bool_decide (id <> c_2 \/ ty = FS)) (fun _ => true) reverse false [c_1; c_2]).
Proof.
  apply (garbage_row_removed_after_all_stores (fun _ => true) (fun _ => false)
    (fun ty id => bool_decide (id <> c_2 \/ ty = FS)) (fun _ => true) reverse [c_1; c_2] c_1).
  - intros l. apply reverse_Permutation.
  - split_and!; [by left|reflexivity|reflexivity|]. intros ty. apply bool_decide_eq_true. left. discriminate.
Defined.
