(* ===== verification/RepoOp.v ===== *)
(** * Online file operations ([server/repo-op.c])

    Posting, replacing, deleting and renaming entries: the directory a path names
    is rewritten, then every directory above it, bottom up, and the id of the new
    root is returned.  The functions of the code differ in what they do to the
    entries of the target directory; [rewrite_path] is the recursion they share. *)

From stdpp Require Import pretty.
From S2P Require Import Prelude Hex FsObj Paths FsMgr Walk Merge.

(** ** Names *)

Fixpoint replace_backslashes (s : string) : string :=
  match s with
  | EmptyString => EmptyString
  | String c s => String (if Ascii.eqb c backslash then slash else c) (replace_backslashes s)
  end.

Definition get_canonical_path (path : string) : string := strip_slashes (replace_backslashes path).

Definition filename_exists (entries : list SeafDirent) (filename : string) : bool :=
  existsb (fun dent => strcmp (d_name dent) filename =? 0) entries.

(** [split_filename]: the name up to the last dot and the extension. *)
Definition split_filename (filename : string) : string * option string :=
  match split_last_char dot filename with
  | Some (name, ext) => (name, Some ext)
  | None => (filename, None)
  end.

(** [g_strdup_printf ("%s (%d).%s", name, i, ext)] *)
Definition numbered_name (name : string) (ext : option string) (i : nat) : string :=
  match ext with
  | Some ext => name +:+ " (" +:+ pretty (N.of_nat i) +:+ ")." +:+ ext
  | None => name +:+ " (" +:+ pretty (N.of_nat i) +:+ ")"
  end.

Definition DUPLICATE_NAMES_COUNT : nat := 1000.

(** The loop at [i], with [left = DUPLICATE_NAMES_COUNT + 1 - i] turns to go. *)
Fixpoint unique_loop (entries : list SeafDirent) (name : string) (ext : option string)
    (left : nat) (unique_name : string) : option string :=
  match left with
  | O => None
  | S left' =>
      if filename_exists entries unique_name
      then unique_loop entries name ext left'
             (numbered_name name ext (DUPLICATE_NAMES_COUNT + 1 - left))
      else Some unique_name
  end.

Definition generate_unique_filename (file : string) (entries : list SeafDirent) : option string :=
  let '(name, ext) := split_filename file in
  unique_loop entries name ext DUPLICATE_NAMES_COUNT file.

(** ** Paths: repeated [strchr (to_path, '/')] until nothing remains *)

Fixpoint strchr_parts (to_path : string) : list string :=
  match to_path with
  | EmptyString => []
  | String c s => if is_slash c then EmptyString :: strchr_parts s else cons_char c (strchr_parts s)
  end.

(** A leading slash is removed before the recursion. *)
Definition skip_slash (path : string) : string :=
  match path with String c s => if is_slash c then s else path | EmptyString => path end.

(** ** Directories *)

(** [is_dirents_sorted] and [seaf_fs_manager_get_seafdir_sorted] of [common/fs-mgr.c]. *)
Fixpoint is_dirents_sorted (dirents : list SeafDirent) : bool :=
  match dirents with
  | [] => true
  | d :: l =>
      match l with
      | [] => true
      | d' :: _ => if strcmp (d_name d) (d_name d') <? 0 then false else is_dirents_sorted l
      end
  end.

Definition seaf_fs_manager_get_seafdir_sorted (st : fs_store) (version : Z) (dir_id : string)
  : option SeafDir :=
  match seaf_fs_manager_get_seafdir st version dir_id with
  | None => None
  | Some dir =>
      if 0 <? version then Some dir
      else if is_dirents_sorted (entries dir) then Some dir
      else Some (mkDir (dir_version dir) (FsObj.dir_id dir) (sort_dirents (entries dir)))
  end.

Section ops.
(** The id of a directory, the outcome of a write, the version of the library
    and the clock. *)
Context (dir_hash : Z -> list SeafDirent -> string) (write_ok : string -> bool).
Context (version now : Z).

(** [seaf_dir_new] and [seaf_dir_save]: the id when the directory is saved. *)
Definition save_new_dir (st : fs_store) (l : list SeafDirent) : option string * fs_store :=
  let newdir := seaf_dir_new dir_hash l (dir_version_from_repo_version version) in
  let '(ret, st) := seaf_dir_save write_ok st newdir in
  (if ret =? 0 then Some (FsObj.dir_id newdir) else None, st).

(** The first entry of a name is given the new id (and time). *)
Fixpoint update_dent (name : string) (f : SeafDirent -> SeafDirent) (l : list SeafDirent) : list SeafDirent :=
  match l with
  | [] => []
  | d :: l => if strcmp (d_name d) name =? 0 then f d :: l else d :: update_dent name f l
  end.

Definition set_mtime (d : SeafDirent) (mtime : Z) : SeafDirent :=
  mkDirent (d_version d) (d_mode d) (d_id d) (d_name_len d) (d_name d) mtime (d_modifier d) (d_size d).

Definition new_child (touch : bool) (id : string) (d : SeafDirent) : SeafDirent :=
  let d := set_id d id in if touch && (0 <? version) then set_mtime d now else d.

(** What is done to the target directory: it fails, it finds nothing to do, or it
    gives new entries; with an answer for the caller. *)
Inductive target (A : Type) :=
| TargetFails
| TargetSame (a : A)
| TargetNew (l : list SeafDirent) (a : A).
#[global] Arguments TargetFails {A}.
#[global] Arguments TargetSame {A} a.
#[global] Arguments TargetNew {A} l a.

Record rewritten (A : Type) := mkRewritten { rw_id : string; rw_changed : bool; rw_answer : A }.
#[global] Arguments mkRewritten {A}.
#[global] Arguments rw_id {A}.
#[global] Arguments rw_changed {A}.
#[global] Arguments rw_answer {A}.

Fixpoint rewrite_path {A} (touch : bool) (at_target : list SeafDirent -> target A) (parts : list string)
    (dir_id : string) (st : fs_store) : option (rewritten A) * fs_store :=
  match seaf_fs_manager_get_seafdir_sorted st version dir_id with
  | None => (None, st)
  | Some olddir =>
      match parts with
      | [] =>
          match at_target (entries olddir) with
          | TargetFails => (None, st)
          | TargetSame a => (Some (mkRewritten (FsObj.dir_id olddir) false a), st)
          | TargetNew l a =>
              let '(id, st) := save_new_dir st l in
              ((fun id => mkRewritten id true a) <$> id, st)
          end
      | name :: parts =>
          match find_dirent (fun d => strcmp (d_name d) name =? 0) (entries olddir) with
          | None => (None, st)
          | Some dent =>
              match rewrite_path touch at_target parts (d_id dent) st with
              | (None, st) => (None, st)
              | (Some r, st) =>
                  if rw_changed r then
                    let '(id, st) :=
                      save_new_dir st (update_dent name (new_child touch (rw_id r)) (entries olddir)) in
                    ((fun id => mkRewritten id true (rw_answer r)) <$> id, st)
                  else (Some (mkRewritten (FsObj.dir_id olddir) false (rw_answer r)), st)
              end
          end
      end
  end.

Definition rewrite_at {A} (touch : bool) (at_target : list SeafDirent -> target A)
    (root_id parent_dir : string) (st : fs_store) : option (rewritten A) * fs_store :=
  rewrite_path touch at_target (strchr_parts (skip_slash parent_dir)) root_id st.

(** ** Posting *)

Definition replace_dent (newdent : SeafDirent) (l : list SeafDirent) : list SeafDirent :=
  (fun dent => if strcmp (d_name dent) (d_name newdent) =? 0 then newdent else dent) <$> l.

Definition post_target (replace_existed : bool) (newdent : SeafDirent) (l : list SeafDirent)
  : target string :=
  if replace_existed && filename_exists l (d_name newdent)
  then TargetNew (replace_dent newdent l) (d_name newdent)
  else
    match generate_unique_filename (d_name newdent) l with
    | None => TargetFails
    | Some unique_name =>
        let dent_dup := seaf_dirent_new (d_version newdent) (d_id newdent) (d_mode newdent) unique_name
                          (d_mtime newdent) (d_modifier newdent) (d_size newdent) in
        TargetNew (insert_dirent dent_dup l) unique_name
    end.

(** [post_file_recursive] *)
Definition do_post_file_replace (root_id parent_dir : string) (replace_existed : bool)
    (dent : SeafDirent) (st : fs_store) : option (rewritten string) * fs_store :=
  rewrite_at true (post_target replace_existed dent) root_id parent_dir st.

Definition do_post_file (root_id parent_dir : string) (dent : SeafDirent) (st : fs_store)
  : option (rewritten string) * fs_store :=
  do_post_file_replace root_id parent_dir false dent st.

(** ** Posting several entries *)

(** The first entry of a name is taken out. *)
Fixpoint remove_first (name : string) (l : list SeafDirent) : option (list SeafDirent) :=
  match l with
  | [] => None
  | d :: l => if strcmp (d_name d) name =? 0 then Some l else cons d <$> remove_first name l
  end.

Definition add_new_entry (user : string) (replace_existed : bool) (dent : SeafDirent)
    (l : list SeafDirent) : option (list SeafDirent * string) :=
  let new unique_name := seaf_dirent_new (dir_version_from_repo_version version) (d_id dent) (d_mode dent)
                           unique_name (d_mtime dent) (Some user) (d_size dent) in
  match (if replace_existed then remove_first (d_name dent) l else None) with
  | Some l => Some (insert_dirent (new (d_name dent)) l, d_name dent)
  | None =>
      unique_name ← generate_unique_filename (d_name dent) l;
      Some (insert_dirent (new unique_name) l, unique_name)
  end.

Fixpoint add_new_entries (user : string) (replace_existed : bool) (dents : list SeafDirent)
    (l : list SeafDirent) (name_list : list string) : option (list SeafDirent * list string) :=
  match dents with
  | [] => Some (l, name_list)
  | dent :: dents =>
      '(l, name) ← add_new_entry user replace_existed dent l;
      add_new_entries user replace_existed dents l (name_list ++ [name])
  end.

Definition post_multi_target (user : string) (replace_existed : bool) (dents : list SeafDirent)
    (l : list SeafDirent) : target (list string) :=
  match add_new_entries user replace_existed dents l [] with
  | None => TargetFails
  | Some (l, names) => TargetNew l names
  end.

(** [post_multi_files_recursive] *)
Definition post_multi_files (root_id parent_dir : string) (user : string) (replace_existed : bool)
    (dents : list SeafDirent) (st : fs_store) : option (rewritten (list string)) * fs_store :=
  rewrite_at true (post_multi_target user replace_existed dents) root_id parent_dir st.

Definition STD_FILE_MODE : Z := Z.lor S_IFREG 0x1A4.

(** [do_post_multi_files]: the three lists are walked together. *)
Fixpoint zip_dents (mtime : Z) (filenames ids : list string) (sizes : list Z) : list SeafDirent :=
  match filenames, ids, sizes with
  | name :: filenames, id :: ids, size :: sizes =>
      mkDirent 0 STD_FILE_MODE (string_of_bytes (take 40 (bytes_of_string id))) 0 name
        (if 0 <? mtime then mtime else now) None size :: zip_dents mtime filenames ids sizes
  | _, _, _ => []
  end.

Definition do_post_multi_files (root_id parent_dir : string) (filenames ids : list string) (sizes : list Z)
    (user : string) (replace_existed : bool) (mtime : Z) (st : fs_store)
  : option (rewritten (list string)) * fs_store :=
  post_multi_files root_id parent_dir user replace_existed (zip_dents mtime filenames ids sizes) st.

(** ** Deleting *)

(** The number of deleted entries, the mode of the last and the name of the first. *)
Record del_answer := mkDel { deleted_num : Z; del_mode : option Z; desc_file : option string }.

Definition del_step (names : list string) (acc : del_answer * list SeafDirent) (old : SeafDirent)
  : del_answer * list SeafDirent :=
  let '(a, kept) := acc in
  if existsb (fun name => strcmp (d_name old) name =? 0) names
  then (mkDel (deleted_num a + 1) (Some (d_mode old))
          (match desc_file a with None => Some (d_name old) | d => d end), kept)
  else (a, kept ++ [old]).

(** [names] is the decoded JSON list; an empty one is a failure. *)
Definition del_target (names : list string) (l : list SeafDirent) : target del_answer :=
  match names with
  | [] => TargetFails
  | _ =>
      let '(a, kept) := foldl (del_step names) (mkDel 0 None None, []) l in
      if deleted_num a =? 0 then TargetSame a else TargetNew kept a
  end.

(** [del_file_recursive] *)
Definition do_del_file (root_id parent_dir : string) (names : list string) (st : fs_store)
  : option (rewritten del_answer) * fs_store :=
  rewrite_at true (del_target names) root_id parent_dir st.

(** ** Renaming *)

Definition rename_step (oldname newname : string) (acc : list SeafDirent * option SeafDirent) (old : SeafDirent)
  : list SeafDirent * option SeafDirent :=
  let '(kept, newdent) := acc in
  if negb (strcmp (d_name old) oldname =? 0) then (kept ++ [old], newdent)
  else (kept, Some (seaf_dirent_new (d_version old) (d_id old) (d_mode old) newname (d_mtime old)
                      (d_modifier old) (d_size old))).

Definition rename_target (oldname newname : string) (l : list SeafDirent) : target unit :=
  let '(kept, newdent) := foldl (rename_step oldname newname) ([], None) l in
  TargetNew (match newdent with Some d => insert_dirent d kept | None => kept end) tt.

(** [rename_file_recursive]; the times of the directories stay. *)
Definition do_rename_file (root_id parent_dir oldname newname : string) (st : fs_store)
  : option (rewritten unit) * fs_store :=
  rewrite_at false (rename_target oldname newname) root_id parent_dir st.

(** ** Replacing *)

Definition put_target (newdent : SeafDirent) (l : list SeafDirent) : target unit :=
  TargetNew (replace_dent newdent l) tt.

(** [put_file_recursive] *)
Definition do_put_file (root_id parent_dir : string) (dent : SeafDirent) (st : fs_store)
  : option (rewritten unit) * fs_store :=
  rewrite_at true (put_target dent) root_id parent_dir st.

(** ** Looking up *)

(** The mode of the entry, if there is one. *)
Definition check_file_exists (st : fs_store) (root_id parent_dir filename : string) : option Z :=
  match seaf_fs_manager_get_seafdir_by_path st version root_id parent_dir with
  | inl _ => None
  | inr dir => d_mode <$> find_dirent (fun d => strcmp (d_name d) filename =? 0) (entries dir)
  end.

Definition get_dirent_by_path (st : fs_store) (root_id path file_name : string) : option SeafDirent :=
  match seaf_fs_manager_get_seafdir_by_path st version root_id path with
  | inl _ => None
  | inr dir => find_dirent (fun d => strcmp (d_name d) file_name =? 0) (entries dir)
  end.
End ops.
