(* ===== verification/RepoOpProof.v ===== *)
(** * What the online file operations do to a library ([server/repo-op.c])

    A library is seen as a map from paths to entries ([view]).  An operation on
    the directory a path names changes the view below that path as it changes the
    target directory, leaves every other path as it was, and keeps the store well
    formed: directories strictly sorted, every listed directory readable, every
    object under its id. *)

From stdpp Require Import pretty.
From S2P Require Import Prelude Hex FsObj Paths FsMgr Walk Merge RepoOp.

(** ** Libraries as maps from paths *)

(** The entry, without what a change below a directory rewrites in it: its id
    and its time. *)
Definition attr (d : SeafDirent) : SeafDirent :=
  if S_ISDIR (d_mode d) then set_mtime (set_id d EmptyString) 0 else d.

Section view.
Context (version : Z).

Fixpoint view (st : fs_store) (l : list SeafDirent) (path : list string) : option SeafDirent :=
  match path with
  | [] => None
  | name :: rest =>
      d ← lookup_name name l;
      match rest with
      | [] => Some (attr d)
      | _ =>
          if S_ISDIR (d_mode d) then
            dir ← seaf_fs_manager_get_seafdir st version (d_id d);
            view st (entries dir) rest
          else None
      end
  end.

Definition view_root (st : fs_store) (root_id : string) (path : list string) : option SeafDirent :=
  dir ← seaf_fs_manager_get_seafdir st version root_id; view st (entries dir) path.

(** The entries of the directory a path names; every component is a directory. *)
Fixpoint entries_at (st : fs_store) (id : string) (parts : list string) : option (list SeafDirent) :=
  dir ← seaf_fs_manager_get_seafdir st version id;
  match parts with
  | [] => Some (entries dir)
  | name :: parts =>
      d ← lookup_name name (entries dir);
      if S_ISDIR (d_mode d) then entries_at st (d_id d) parts else None
  end.

(** The path below a directory. *)
Fixpoint below (parts path : list string) : option (list string) :=
  match parts, path with
  | [], _ => Some path
  | x :: parts, y :: path => if String.eqb x y then below parts path else None
  | _, _ => None
  end.

Lemma below_Some parts : forall path q, below parts path = Some q <-> path = parts ++ q.
Proof.
  induction parts as [|x parts IH]; intros path q; simpl.
  - split; [by intros [= ->]|by intros ->].
  - destruct path as [|y path]; [split; discriminate|].
    destruct (String.eqb_spec x y) as [->|Hne].
    + rewrite IH. split; [by intros ->|by intros [= ->]].
    + split; [done|]. intros [= E _]. by symmetry in E.
Qed.

(** The view of a store is not changed by storing more. *)
Lemma view_mono st st' path : forall l,
  st ⊆ st' -> closed st version -> readable_list st version l ->
  view st' l path = view st l path.
Proof.
  induction path as [|name rest IH]; intros l Hs Hc Hr; [done|]. cbn [view].
  destruct (lookup_name name l) as [d|] eqn:El; [|done]. cbn [mbind option_bind].
  destruct rest as [|n rest]; [done|]. destruct (S_ISDIR (d_mode d)) eqn:Ed; [|done].
  apply lookup_name_Some in El as [Hd _]. destruct (Hr d Hd Ed) as [dir Hdir].
  rewrite Hdir, (get_seafdir_mono _ _ _ _ _ Hs Hdir). cbn [mbind option_bind].
  apply IH; [done|done|]. intros e He. by apply (Hc _ _ _ Hdir).
Qed.
End view.

(** ** Looking up in changed directories *)

Lemma strcmp_name d name : (strcmp (d_name d) name =? 0) = String.eqb name (d_name d).
Proof.
  destruct (String.eqb_spec name (d_name d)) as [->|Hne].
  - apply Z.eqb_eq. by apply strcmp_eq.
  - apply Z.eqb_neq. intros E%strcmp_eq. by symmetry in E.
Qed.

Lemma find_dirent_lookup name l :
  find_dirent (fun d => strcmp (d_name d) name =? 0) l = lookup_name name l.
Proof.
  unfold find_dirent, lookup_name. induction l as [|d l IH]; [done|]. simpl.
  by rewrite strcmp_name, IH.
Qed.

Lemma filename_exists_lookup l name :
  filename_exists l name = match lookup_name name l with Some _ => true | None => false end.
Proof.
  unfold filename_exists, lookup_name. induction l as [|d l IH]; [done|]. simpl.
  rewrite strcmp_name, IH. by destruct (String.eqb name (d_name d)).
Qed.

Lemma lookup_name_cons name d l :
  lookup_name name (d :: l) = if String.eqb name (d_name d) then Some d else lookup_name name l.
Proof. done. Qed.

Lemma lookup_name_app name l1 l2 :
  lookup_name name (l1 ++ l2) = match lookup_name name l1 with Some d => Some d | None => lookup_name name l2 end.
Proof.
  induction l1 as [|d l1 IH]; [done|]. rewrite <- app_comm_cons, !lookup_name_cons, IH.
  by destruct (String.eqb name (d_name d)).
Qed.

Lemma update_dent_names name f l :
  (forall d, d_name (f d) = d_name d) -> d_name <$> update_dent name f l = d_name <$> l.
Proof.
  intros Hf. induction l as [|d l IH]; [done|]. simpl.
  destruct (strcmp (d_name d) name =? 0); rewrite !fmap_cons; [by rewrite Hf|by rewrite IH].
Qed.

Lemma lookup_update_dent name f l nm :
  (forall d, d_name (f d) = d_name d) ->
  lookup_name nm (update_dent name f l) =
  if String.eqb nm name then f <$> lookup_name nm l else lookup_name nm l.
Proof.
  intros Hf. induction l as [|d l IH]; simpl; [by destruct (String.eqb nm name)|].
  rewrite strcmp_name. destruct (String.eqb_spec name (d_name d)) as [->|Hne].
  - rewrite !lookup_name_cons, Hf. by destruct (String.eqb nm (d_name d)).
  - rewrite !lookup_name_cons, IH. destruct (String.eqb_spec nm (d_name d)) as [->|]; [|done].
    destruct (String.eqb_spec (d_name d) name) as [E|]; [by rewrite E in Hne|done].
Qed.

Lemma sorted_entries_names l : sorted_entries l <-> StronglySorted gt_name (d_name <$> l).
Proof.
  unfold sorted_entries. induction l as [|d l IH]; [split; constructor|]. rewrite fmap_cons. split.
  - inversion 1 as [|? ? H1 H2]; subst. constructor; [by apply IH|]. apply Forall_fmap. exact H2.
  - inversion 1 as [|? ? H1 H2]; subst. constructor; [by apply IH|]. exact (proj1 (Forall_fmap d_name _ l) H2).
Qed.

Lemma sorted_same_names l1 l2 :
  d_name <$> l1 = d_name <$> l2 -> sorted_entries l1 -> sorted_entries l2.
Proof. intros E. by rewrite !sorted_entries_names, E. Qed.

Lemma sorted_entries_filter (P : SeafDirent -> Prop) `{!forall d, Decision (P d)} l :
  sorted_entries l -> sorted_entries (filter P l).
Proof.
  unfold sorted_entries. induction 1 as [|d l Hs IH Hall]; [constructor|]. rewrite filter_cons.
  destruct (decide (P d)); [|done]. constructor; [done|]. apply Forall_forall.
  intros x [_ Hx]%list_elem_of_filter. rewrite Forall_forall in Hall. by apply Hall.
Qed.

Lemma insert_dirent_perm d l : insert_dirent d l ≡ₚ d :: l.
Proof. induction l as [|y l IH]; [done|]. simpl. case_match; [done|]. rewrite IH. constructor. Qed.

(** Inserting an entry of a new name. *)
Lemma insert_dirent_strict d l :
  sorted_entries l -> lookup_name (d_name d) l = None -> sorted_entries (insert_dirent d l).
Proof.
  intros Hs Hn. rewrite lookup_name_None in Hn. revert Hn.
  induction Hs as [|d' l Hs IH Hall]; intros Hn; simpl; [repeat constructor|].
  destruct (strcmp (d_name d') (d_name d) <=? 0) eqn:E.
  - assert (gt_name (d_name d) (d_name d')) as Hgt.
    { destruct (gt_name_total (d_name d') (d_name d)) as [Heq|[H|H]]; [|apply strcmp_gt in H; lia|done].
      by pose proof (Hn d' ltac:(by left)). }
    constructor; [by constructor|]. constructor; [done|]. eapply Forall_impl; [exact Hall|].
    intros x Hx. by trans (d_name d').
  - constructor; [apply IH; intros x Hx; apply Hn; by right|].
    apply Forall_forall. intros x. rewrite insert_dirent_perm, elem_of_cons. intros [->|Hx].
    + apply strcmp_gt. lia.
    + rewrite Forall_forall in Hall. by apply Hall.
Qed.

Lemma lookup_insert_dirent d l nm :
  lookup_name (d_name d) l = None ->
  lookup_name nm (insert_dirent d l) = if String.eqb nm (d_name d) then Some d else lookup_name nm l.
Proof.
  induction l as [|d' l IH]; [done|]. rewrite lookup_name_cons. intros Hn.
  destruct (String.eqb_spec (d_name d) (d_name d')) as [|Hne]; [done|]. cbn [insert_dirent].
  destruct (_ <=? 0); [done|]. rewrite !lookup_name_cons, (IH Hn).
  destruct (String.eqb_spec nm (d_name d')) as [->|]; [|done].
  destruct (String.eqb_spec (d_name d') (d_name d)) as [E|]; [by rewrite E in Hne|done].
Qed.

Lemma lookup_replace_dent d l nm :
  lookup_name nm (replace_dent d l) =
  if String.eqb nm (d_name d) then (fun _ => d) <$> lookup_name nm l else lookup_name nm l.
Proof.
  unfold replace_dent. induction l as [|x l IH]; [by destruct (String.eqb nm (d_name d))|].
  rewrite fmap_cons, strcmp_name. destruct (String.eqb_spec (d_name d) (d_name x)) as [E|Hne].
  - rewrite !lookup_name_cons, IH, E. by destruct (String.eqb nm (d_name x)).
  - rewrite !lookup_name_cons, IH. destruct (String.eqb_spec nm (d_name x)) as [->|]; [|done].
    destruct (String.eqb_spec (d_name x) (d_name d)) as [E|]; [by rewrite E in Hne|done].
Qed.

Lemma replace_dent_names d l : d_name <$> replace_dent d l = d_name <$> l.
Proof.
  unfold replace_dent. induction l as [|x l IH]; [done|]. rewrite !fmap_cons, IH, strcmp_name.
  by destruct (String.eqb_spec (d_name d) (d_name x)) as [->|].
Qed.

Lemma lookup_name_filter (P : SeafDirent -> Prop) `{!forall d, Decision (P d)} l nm :
  (forall d d', d_name d = d_name d' -> P d -> P d') ->
  lookup_name nm (filter P l) =
  match lookup_name nm l with Some d => if decide (P d) then Some d else None | None => None end.
Proof.
  intros Hname. induction l as [|x l IH]; [done|]. rewrite filter_cons, lookup_name_cons.
  destruct (String.eqb_spec nm (d_name x)) as [->|Hne].
  - destruct (decide (P x)); [by rewrite lookup_name_cons, String.eqb_refl|].
    rewrite IH. destruct (lookup_name (d_name x) l) as [y|] eqn:E; [|done].
    apply lookup_name_Some in E as [_ E]. rewrite decide_False; [done|].
    intros Hy. by apply (Hname y x E) in Hy.
  - destruct (decide (P x)); [|done]. rewrite lookup_name_cons.
    by rewrite (proj2 (String.eqb_neq _ _) Hne).
Qed.

(** ** The recursion *)

Section rewrite.
Context (dir_hash : Z -> list SeafDirent -> string) (version now : Z).
Abbreviation always := (fun _ : string => true).

(** The invariant of a library's store. *)
Record library_ok (st : fs_store) : Prop := {
  lib_addressed : addressed dir_hash version st;
  lib_tidy : tidy st version
}.

Lemma library_good st : library_ok st -> good dir_hash version st.
Proof. intros [Ha Ht]. split; [done|]. intros id dir e. apply (tidy_closed _ _ Ht). Qed.

Lemma is_dirents_sorted_strict l : sorted_entries l -> is_dirents_sorted l = true.
Proof.
  induction 1 as [|d l Hs IH Hall]; [done|]. cbn [is_dirents_sorted]. destruct l as [|d' l]; [done|].
  apply Forall_cons in Hall as [Hgt%strcmp_gt _].
  destruct (Z.ltb_spec (strcmp (d_name d) (d_name d')) 0); [lia|done].
Qed.

Lemma get_sorted st id :
  tidy st version ->
  seaf_fs_manager_get_seafdir_sorted st version id = seaf_fs_manager_get_seafdir st version id.
Proof.
  intros Ht. unfold seaf_fs_manager_get_seafdir_sorted.
  destruct (seaf_fs_manager_get_seafdir st version id) as [dir|] eqn:E; [|done].
  rewrite (is_dirents_sorted_strict _ (tidy_sorted _ _ Ht _ _ E)). by destruct (0 <? version).
Qed.

Context (Hcf : collision_free dir_hash version).

(** Saving a sorted directory of readable sub-directories. *)
Lemma save_new_dir_ok st l :
  library_ok st -> sorted_entries l -> readable_list st version l ->
  exists id st' m, save_new_dir dir_hash always version st l = (Some id, st') /\ st ⊆ st' /\
    library_ok st' /\ seaf_fs_manager_get_seafdir st' version id = Some m /\ entries m = l.
Proof.
  intros Hl Hs Hr. destruct (save_dir dir_hash version Hcf st l (library_good _ Hl) Hr)
    as (st' & E & Hsub & Hg & m & Hm & Hent).
  unfold save_new_dir. rewrite E. eexists _, st', m. split_and!; [done|done| |done|done].
  destruct Hg as [Ha Hc]. split; [done|]. split; [|done].
  intros id dir Hid. pose proof (get_seafdir_newid _ _ _ _ _ Ha Hid) as Hn.
  destruct (decide (entries dir = l)) as [->|Hne]; [done|].
  assert (Hold : seaf_fs_manager_get_seafdir st version id = Some dir \/ id = FsObj.dir_id
    (seaf_dir_new dir_hash l (dir_version_from_repo_version version))).
  { unfold seaf_dir_save in E. repeat case_match; injection E as <-; auto.
    unfold seaf_fs_manager_get_seafdir in *. destruct (String.eqb id EMPTY_SHA1); [auto|].
    destruct (decide (id = FsObj.dir_id (seaf_dir_new dir_hash l
      (dir_version_from_repo_version version)))); [auto|]. rewrite lookup_insert_ne in Hid by done. auto. }
  destruct Hold as [Hold|Hold].
  - by apply (tidy_sorted _ _ (lib_tidy _ Hl) _ _ Hold).
  - exfalso. apply Hne. apply (newid_inj dir_hash version Hcf). congruence.
Qed.

Lemma d_name_new_child touch id d : d_name (new_child version now touch id d) = d_name d.
Proof. unfold new_child. by destruct (touch && _). Qed.
Lemma d_mode_new_child touch id d : d_mode (new_child version now touch id d) = d_mode d.
Proof. unfold new_child. by destruct (touch && _). Qed.
Lemma d_id_new_child touch id d : d_id (new_child version now touch id d) = id.
Proof. unfold new_child. by destruct (touch && _). Qed.
Lemma attr_new_child touch id d :
  S_ISDIR (d_mode d) = true -> attr (new_child version now touch id d) = attr d.
Proof.
  intros Hd. unfold attr. rewrite d_mode_new_child, Hd. unfold new_child.
  by destruct (touch && _).
Qed.

Lemma lookup_name_nil nm : lookup_name nm [] = None.
Proof. done. Qed.

Lemma update_dent_elem name f l d :
  d ∈ update_dent name f l -> d ∈ l \/ exists d0, lookup_name name l = Some d0 /\ d = f d0.
Proof.
  induction l as [|x l IH]; cbn [update_dent]; [by intros ?%not_elem_of_nil|].
  rewrite strcmp_name, lookup_name_cons.
  destruct (String.eqb name (d_name x)).
  - intros [->|Hd]%elem_of_cons; [right; by exists x|]. left. by right.
  - intros [->|Hd]%elem_of_cons; [left; by left|]. destruct (IH Hd) as [|]; [|by right]. left. by right.
Qed.

Lemma entries_at_mono st st' parts : forall id l,
  st ⊆ st' -> entries_at version st id parts = Some l -> entries_at version st' id parts = Some l.
Proof.
  induction parts as [|name parts IH]; intros id l Hsub; cbn [entries_at];
    destruct (seaf_fs_manager_get_seafdir st version id) as [dir|] eqn:E; try done;
    rewrite (get_seafdir_mono _ _ _ _ _ Hsub E); cbn [mbind option_bind]; [done|].
  destruct (lookup_name name (entries dir)); [|done]. cbn [mbind option_bind].
  case_match; [|done]. by apply IH.
Qed.

(** What a rewriting has done to a library. *)
Record rewrote (st : fs_store) (id : string) (parts : list string) (l' : list SeafDirent)
    (st' : fs_store) (id' : string) : Prop := {
  rw_grows : st ⊆ st';
  rw_library : library_ok st';
  rw_entries : entries_at version st' id' parts = Some l';
  rw_view : forall path, view_root version st' id' path =
    match below parts path with
    | Some (name :: rest) => view version st' l' (name :: rest)
    | _ => view_root version st id path
    end
}.

Lemma view_root_dir st id dir path :
  seaf_fs_manager_get_seafdir st version id = Some dir ->
  view_root version st id path = view version st (entries dir) path.
Proof. unfold view_root. by intros ->. Qed.

(** Rewriting the target directory itself. *)
Lemma rewrote_here st id dir st' id' m :
  seaf_fs_manager_get_seafdir st version id = Some dir -> st ⊆ st' -> library_ok st' ->
  seaf_fs_manager_get_seafdir st' version id' = Some m ->
  rewrote st id [] (entries m) st' id'.
Proof.
  intros Hdir Hsub Hl Hm. split; [done|done|..]; cbn [entries_at below].
  - by rewrite Hm.
  - intros [|name rest]; unfold view_root; [by rewrite Hm, Hdir|by rewrite Hm].
Qed.

(** Rewriting a directory on the way. *)
Lemma rewrote_above st id dir name d parts l' st1 id1 touch st' id' m :
  library_ok st -> seaf_fs_manager_get_seafdir st version id = Some dir ->
  lookup_name name (entries dir) = Some d -> S_ISDIR (d_mode d) = true ->
  rewrote st (d_id d) parts l' st1 id1 -> readable_list st1 version l' ->
  st1 ⊆ st' -> library_ok st' -> seaf_fs_manager_get_seafdir st' version id' = Some m ->
  entries m = update_dent name (new_child version now touch id1) (entries dir) ->
  rewrote st id (name :: parts) l' st' id'.
Proof.
  intros Hl Hdir Hd Hisd [R1 R2 R3 R4] Hr' Hsub Hl' Hm Em.
  assert (Hup := fun nm => lookup_update_dent name (new_child version now touch id1) (entries dir) nm
                             (d_name_new_child touch id1)).
  assert (Hget1 : is_Some (seaf_fs_manager_get_seafdir st1 version id1)).
  { destruct parts; cbn [entries_at] in R3;
      by destruct (seaf_fs_manager_get_seafdir st1 version id1). }
  destruct Hget1 as [dir1 Hdir1]. pose proof (get_seafdir_mono _ _ _ _ _ Hsub Hdir1) as Hdir1'.
  pose proof (tidy_closed _ _ (lib_tidy _ R2)) as Hc1. pose proof (tidy_closed _ _ (lib_tidy _ Hl)) as Hc.
  assert (Hview1 : forall path, view version st' (entries dir1) path = view_root version st1 id1 path).
  { intros path. rewrite (view_root_dir _ _ _ _ Hdir1). apply view_mono; [done|exact Hc1|].
    intros e He. by apply (Hc1 _ _ _ Hdir1). }
  assert (Hold : forall path, view version st' (entries dir) path = view version st (entries dir) path).
  { intros path. apply view_mono; [by trans st1|exact Hc|]. intros e He. by apply (Hc _ _ _ Hdir). }
  split; [by trans st1|done|..].
  - cbn [entries_at]. rewrite Hm. cbn [mbind option_bind]. rewrite Em, Hup, String.eqb_refl, Hd.
    cbn [fmap option_fmap option_map mbind option_bind]. rewrite d_mode_new_child, Hisd, d_id_new_child.
    by apply (entries_at_mono st1).
  - intros [|nm rest]; cbn [below]; [by rewrite (view_root_dir _ _ _ _ Hm), (view_root_dir _ _ _ _ Hdir)|].
    rewrite (view_root_dir _ _ _ _ Hm), Em. cbn [view]. rewrite Hup, String.eqb_sym.
    destruct (String.eqb_spec name nm) as [<-|Hne].
    + rewrite Hd. cbn [fmap option_fmap option_map mbind option_bind].
      rewrite d_mode_new_child, Hisd, d_id_new_child, Hdir1', attr_new_child by done.
      rewrite (view_root_dir _ _ _ _ Hdir). cbn [view mbind option_bind]. rewrite Hd. cbn [mbind option_bind].
      rewrite Hisd. destruct rest as [|n rest].
      { by destruct parts. }
      rewrite Hview1, R4. destruct (below parts (n :: rest)) as [[|n' rest']|]; try done.
      symmetry. by apply (view_mono version st1 st' (n' :: rest') l').
    + rewrite (view_root_dir _ _ _ _ Hdir). rewrite <- Hold. done.
Qed.

Lemma readable_update st st1 name f l :
  st ⊆ st1 -> readable_list st version l ->
  (forall d, lookup_name name l = Some d -> S_ISDIR (d_mode (f d)) = true ->
     is_Some (seaf_fs_manager_get_seafdir st1 version (d_id (f d)))) ->
  readable_list st1 version (update_dent name f l).
Proof.
  intros Hsub Hr Hf e He Hd. apply update_dent_elem in He as [He|(d0 & Hd0 & ->)]; [|by apply Hf].
  destruct (Hr e He Hd) as [dir Hdir]. exists dir. by eapply get_seafdir_mono.
Qed.

Lemma rewrote_read st id parts l' st' id' :
  rewrote st id parts l' st' id' -> is_Some (seaf_fs_manager_get_seafdir st' version id').
Proof.
  intros [_ _ R _]. destruct parts; cbn [entries_at] in R;
    by destruct (seaf_fs_manager_get_seafdir st' version id').
Qed.

Lemma rewrite_path_new {A} touch (at_target : list SeafDirent -> target A) parts :
  forall id st l l' a,
  library_ok st -> entries_at version st id parts = Some l -> at_target l = TargetNew l' a ->
  sorted_entries l' -> readable_list st version l' ->
  exists id' st', rewrite_path dir_hash always version now touch at_target parts id st
                  = (Some (mkRewritten id' true a), st') /\ rewrote st id parts l' st' id'.
Proof.
  induction parts as [|name parts IH]; intros id st l l' a Hl He Ht Hs Hr; cbn [entries_at] in He;
    destruct (seaf_fs_manager_get_seafdir st version id) as [dir|] eqn:Hdir; try done;
    cbn [mbind option_bind] in He; cbn [rewrite_path]; rewrite (get_sorted _ _ (lib_tidy _ Hl)), Hdir.
  - injection He as ->. rewrite Ht.
    destruct (save_new_dir_ok st l' Hl Hs Hr) as (id' & st' & m & E & Hsub & Hl' & Hm & <-).
    rewrite E. exists id', st'. split; [done|]. by apply (rewrote_here _ _ dir).
  - rewrite find_dirent_lookup. destruct (lookup_name name (entries dir)) as [d|] eqn:Hd; [|done].
    cbn [mbind option_bind] in He. destruct (S_ISDIR (d_mode d)) eqn:Hisd; [|done].
    destruct (IH _ _ _ _ _ Hl He Ht Hs Hr) as (id1 & st1 & E1 & R). rewrite E1. cbn.
    destruct (save_new_dir_ok st1 (update_dent name (new_child version now touch id1) (entries dir)))
      as (id' & st' & m & E & Hsub & Hl' & Hm & Em).
    + apply R.
    + apply (sorted_same_names (entries dir)); [|by apply (tidy_sorted _ _ (lib_tidy _ Hl) _ _ Hdir)].
      by rewrite update_dent_names by apply d_name_new_child.
    + apply (readable_update st); [apply R| |].
      * intros e Hin. by apply (tidy_closed _ _ (lib_tidy _ Hl) _ _ _ Hdir).
      * intros d0 _ _. rewrite d_id_new_child. by eapply rewrote_read.
    + rewrite E. exists id', st'. split; [done|].
      eapply rewrote_above; try done. intros e Hin Hed. destruct (Hr e Hin Hed) as [x Hx].
      exists x. eapply get_seafdir_mono; [apply R|done].
Qed.

(** Nothing is written when the target has nothing to do. *)
Lemma rewrite_path_same {A} touch (at_target : list SeafDirent -> target A) write_ok parts :
  forall id st l a,
  library_ok st -> entries_at version st id parts = Some l -> at_target l = TargetSame a ->
  rewrite_path dir_hash write_ok version now touch at_target parts id st
  = (Some (mkRewritten id false a), st).
Proof.
  induction parts as [|name parts IH]; intros id st l a Hl He Ht; cbn [entries_at] in He;
    destruct (seaf_fs_manager_get_seafdir st version id) as [dir|] eqn:Hdir; try done;
    cbn [mbind option_bind] in He; cbn [rewrite_path]; rewrite (get_sorted _ _ (lib_tidy _ Hl)), Hdir;
    rewrite (get_seafdir_id _ _ _ _ Hdir).
  - injection He as ->. by rewrite Ht.
  - rewrite find_dirent_lookup. destruct (lookup_name name (entries dir)) as [d|] eqn:Hd; [|done].
    cbn [mbind option_bind] in He. destruct (S_ISDIR (d_mode d)) eqn:Hisd; [|done].
    by rewrite (IH _ _ _ _ Hl He Ht).
Qed.

(** A refusal at the target refuses the operation. *)
Lemma rewrite_path_refused {A} touch (at_target : list SeafDirent -> target A) write_ok parts :
  forall id st l,
  library_ok st -> entries_at version st id parts = Some l -> at_target l = TargetFails ->
  fst (rewrite_path dir_hash write_ok version now touch at_target parts id st) = None.
Proof.
  induction parts as [|name parts IH]; intros id st l Hl He Ht; cbn [entries_at] in He;
    destruct (seaf_fs_manager_get_seafdir st version id) as [dir|] eqn:Hdir; try done;
    cbn [mbind option_bind] in He; cbn [rewrite_path]; rewrite (get_sorted _ _ (lib_tidy _ Hl)), Hdir.
  - injection He as ->. by rewrite Ht.
  - rewrite find_dirent_lookup. destruct (lookup_name name (entries dir)) as [d|]; [|done].
    cbn [mbind option_bind] in He. destruct (S_ISDIR (d_mode d)); [|done].
    specialize (IH _ _ _ Hl He Ht).
    destruct (rewrite_path dir_hash write_ok version now touch at_target parts (d_id d) st) as [r st1].
    cbn in IH. by rewrite IH.
Qed.

(** Whatever fails, the store only grows; an operation that succeeds while some
    writes may fail has the outcome it has when none does. *)
Lemma save_new_dir_fails write_ok st l :
  st ⊆ snd (save_new_dir dir_hash write_ok version st l) /\
  (fst (save_new_dir dir_hash write_ok version st l) = None \/
   save_new_dir dir_hash write_ok version st l = save_new_dir dir_hash always version st l).
Proof.
  unfold save_new_dir, seaf_dir_save. destruct (String.eqb _ EMPTY_SHA1); [by split; [|right]|].
  destruct (st !! _) eqn:E; [by split; [|right]|]. destruct (write_ok _); cbn; [|by split; [|left]].
  split; [by apply insert_subseteq|by right].
Qed.

Lemma rewrite_path_fails {A} touch (at_target : list SeafDirent -> target A) write_ok parts :
  forall id st,
  st ⊆ snd (rewrite_path dir_hash write_ok version now touch at_target parts id st) /\
  (fst (rewrite_path dir_hash write_ok version now touch at_target parts id st) = None \/
   rewrite_path dir_hash write_ok version now touch at_target parts id st
   = rewrite_path dir_hash always version now touch at_target parts id st).
Proof.
  assert (Hsave : forall st l (f : string -> rewritten A),
    let r w := (let '(id, st) := save_new_dir dir_hash w version st l in (f <$> id, st)) in
    st ⊆ snd (r write_ok) /\ (fst (r write_ok) = None \/ r write_ok = r always)).
  { intros st l f. destruct (save_new_dir_fails write_ok st l) as [Hsub Hor]. cbv beta zeta.
    destruct (save_new_dir dir_hash write_ok version st l) as [o st1]. cbn in Hsub, Hor |- *.
    split; [done|]. destruct Hor as [-> |<-]; auto. }
  induction parts as [|name parts IH]; intros id st; cbn [rewrite_path];
    destruct (seaf_fs_manager_get_seafdir_sorted st version id) as [dir|]; try by split; [|left].
  - destruct (at_target (entries dir)) as [|a|l a]; [by split; [|left]|by split; [|right]|]. apply Hsave.
  - rewrite find_dirent_lookup. destruct (lookup_name name (entries dir)) as [d|]; [|by split; [|left]].
    destruct (IH (d_id d) st) as [Hsub Hor].
    destruct (rewrite_path dir_hash write_ok version now touch at_target parts (d_id d) st) as [o st1].
    cbn in Hsub, Hor. destruct Hor as [-> |<-]; [by split; [|left]|].
    destruct o as [r|]; [|by split; [|left]]. destruct (rw_changed r); [|by split; [|right]].
    destruct (Hsave st1 (update_dent name (new_child version now touch (rw_id r)) (entries dir))
      (fun id => mkRewritten id true (rw_answer r))) as [H1 H2].
    split; [by trans st1|exact H2].
Qed.

End rewrite.

(** ** Unique names *)

(** The names tried, in order. *)
Definition candidate (file : string) (i : nat) : string :=
  match i with
  | O => file
  | _ => let '(name, ext) := split_filename file in numbered_name name ext i
  end.

Lemma unique_loop_spec l file name ext left :
  split_filename file = (name, ext) ->
  forall i, (i + left = DUPLICATE_NAMES_COUNT)%nat ->
  match unique_loop l name ext left (candidate file i) with
  | Some u => exists k, (i <= k < DUPLICATE_NAMES_COUNT)%nat /\ u = candidate file k /\
      filename_exists l u = false /\ forall j, (i <= j < k)%nat -> filename_exists l (candidate file j) = true
  | None => forall j, (i <= j < DUPLICATE_NAMES_COUNT)%nat -> filename_exists l (candidate file j) = true
  end.
Proof.
  intros Hsplit. induction left as [|left IH]; intros i Hi.
  - cbn [unique_loop]. intros j Hj. lia.
  - cbn [unique_loop]. destruct (filename_exists l (candidate file i)) eqn:E.
    + replace (numbered_name name ext (DUPLICATE_NAMES_COUNT + 1 - S left)) with (candidate file (S i)).
      2:{ unfold candidate. rewrite Hsplit. f_equal. lia. }
      specialize (IH (S i) ltac:(lia)). destruct (unique_loop _ _ _ _ _) as [u|].
      * destruct IH as (k & Hk & -> & Hu & Hj). exists k. split_and!; [lia|lia|done|done|].
        intros j Hj'. destruct (decide (j = i)) as [->|]; [done|]. apply Hj. lia.
      * intros j Hj'. destruct (decide (j = i)) as [->|]; [done|]. apply IH. lia.
    + exists i. split_and!; [lia|lia|done|done|]. intros j Hj. lia.
Qed.

Lemma generate_unique_filename_spec file l :
  match generate_unique_filename file l with
  | Some u => exists k, (k < DUPLICATE_NAMES_COUNT)%nat /\ u = candidate file k /\
      filename_exists l u = false /\ forall j, (j < k)%nat -> filename_exists l (candidate file j) = true
  | None => forall j, (j < DUPLICATE_NAMES_COUNT)%nat -> filename_exists l (candidate file j) = true
  end.
Proof.
  unfold generate_unique_filename. destruct (split_filename file) as [name ext] eqn:Hsplit.
  pose proof (unique_loop_spec l file name ext DUPLICATE_NAMES_COUNT Hsplit 0 ltac:(lia)) as H.
  change (candidate file 0) with file in H. destruct (unique_loop _ _ _ _ _) as [u|].
  - destruct H as (k & Hk & -> & Hu & Hj). exists k. split_and!; [lia|done|done|].
    intros j Hj'. apply Hj. lia.
  - intros j Hj. apply H. lia.
Qed.

Lemma generate_unique_filename_fresh file l u :
  generate_unique_filename file l = Some u -> lookup_name u l = None.
Proof.
  intros E. pose proof (generate_unique_filename_spec file l) as H. rewrite E in H.
  destruct H as (k & _ & _ & Hu & _). rewrite filename_exists_lookup in Hu. by destruct (lookup_name u l).
Qed.

(** ** The abstract operations on maps from paths *)

Section abstract.
Context (version : Z) (st : fs_store).
Implicit Types v : list string -> option SeafDirent.

(** Put an entry, with what is below it, into a directory. *)
Definition put_entry v (parts : list string) (e : SeafDirent) (path : list string) : option SeafDirent :=
  match below parts path with
  | Some (name :: rest) =>
      if String.eqb name (d_name e) then view version st [e] (name :: rest) else v path
  | _ => v path
  end.

(** Remove names from a directory. *)
Definition remove_names v (parts names : list string) (path : list string) : option SeafDirent :=
  match below parts path with
  | Some (name :: _) => if bool_decide (name ∈ names) then None else v path
  | _ => v path
  end.

(** Move an entry to a new name in the same directory. *)
Definition move_entry v (parts : list string) (oldname : string) (e : SeafDirent) (path : list string)
  : option SeafDirent :=
  match below parts path with
  | Some (name :: rest) =>
      if String.eqb name (d_name e) then
        match rest with [] => Some (attr e) | _ => v (parts ++ oldname :: rest) end
      else if String.eqb name oldname then None
      else v path
  | _ => v path
  end.
End abstract.

Section operations.
Context (dir_hash : Z -> list SeafDirent -> string) (version now : Z).
Context (Hcf : collision_free dir_hash version).
Abbreviation always := (fun _ : string => true).

(** The view below the directory a path names. *)
Lemma view_entries_at st parts : forall id l path name rest,
  entries_at version st id parts = Some l -> below parts path = Some (name :: rest) ->
  view_root version st id path = view version st l (name :: rest).
Proof.
  induction parts as [|x parts IH]; intros id l path name rest He Hb; cbn [entries_at] in He;
    destruct (seaf_fs_manager_get_seafdir st version id) as [dir|] eqn:Hdir; try done;
    cbn [mbind option_bind] in He; rewrite (view_root_dir _ _ _ _ _ Hdir).
  - injection He as ->. cbn in Hb. by injection Hb as ->.
  - destruct path as [|y path]; [done|]. cbn [below] in Hb.
    destruct (String.eqb_spec x y) as [<-|]; [|done].
    destruct (lookup_name x (entries dir)) as [d|] eqn:Hd; [|done]. cbn [mbind option_bind] in He.
    destruct (S_ISDIR (d_mode d)) eqn:Hisd; [|done]. pose proof (IH _ _ _ _ _ He Hb) as E.
    unfold view_root in E. cbn [view]. rewrite Hd. cbn [mbind option_bind]. rewrite Hisd.
    destruct path; [by destruct parts|]. exact E.
Qed.

(** A view of one directory depends on the entry of the first name only. *)
Lemma view_lookup st l1 l2 name rest :
  lookup_name name l1 = lookup_name name l2 ->
  view version st l1 (name :: rest) = view version st l2 (name :: rest).
Proof. intros E. cbn [view]. by rewrite E. Qed.

(** The view after a rewriting, from the entries that are other than before. *)
Lemma rewrote_view st id parts l l' st' id' (a : list string -> option SeafDirent) :
  library_ok dir_hash version st -> readable_list st version l' ->
  entries_at version st id parts = Some l ->
  rewrote dir_hash version st id parts l' st' id' ->
  (forall path, (forall name rest, below parts path <> Some (name :: rest)) ->
     a path = view_root version st id path) ->
  (forall path name rest, below parts path = Some (name :: rest) ->
     a path = view version st l' (name :: rest)) ->
  forall path, view_root version st' id' path = a path.
Proof.
  intros Hl Hr He R H1 H2 path. rewrite (rw_view _ _ _ _ _ _ _ _ R).
  destruct (below parts path) as [[|name rest]|] eqn:E; [symmetry; apply H1; congruence..| |].
  - rewrite (H2 path name rest E). apply view_mono; [apply R| |done].
    intros i d e. apply (tidy_closed _ _ (lib_tidy _ _ _ Hl)).
  - symmetry. apply H1. congruence.
Qed.

(** A library, the directory a path names in it, and its entries. *)
Record at_dir (st : fs_store) (root_id parent_dir : string) (l : list SeafDirent) : Prop := {
  at_library : library_ok dir_hash version st;
  at_entries : entries_at version st root_id (strchr_parts (skip_slash parent_dir)) = Some l
}.

Lemma entries_at_dir st parts : forall id l,
  entries_at version st id parts = Some l ->
  exists i d, seaf_fs_manager_get_seafdir st version i = Some d /\ entries d = l.
Proof.
  induction parts as [|x parts IH]; intros id l He; cbn [entries_at] in He;
    destruct (seaf_fs_manager_get_seafdir st version id) as [dir|] eqn:Hdir; try done;
    cbn [mbind option_bind] in He.
  - injection He as <-. by exists id, dir.
  - destruct (lookup_name x (entries dir)) as [d|]; [|done]. cbn [mbind option_bind] in He.
    destruct (S_ISDIR (d_mode d)); [|done]. by apply (IH (d_id d)).
Qed.

Lemma at_sorted st root_id parent_dir l :
  at_dir st root_id parent_dir l -> sorted_entries l /\ readable_list st version l.
Proof.
  intros [Hl He]. destruct (entries_at_dir _ _ _ _ He) as (i & d & Hd & <-). split.
  - by apply (tidy_sorted _ _ (lib_tidy _ _ _ Hl) _ _ Hd).
  - intros e Hin. by apply (tidy_closed _ _ (lib_tidy _ _ _ Hl) _ _ _ Hd).
Qed.

(** The outcome of an operation: the answer, a library that has grown, and the
    view of the new root. *)
Definition outcome {A} (st : fs_store) (r : option (rewritten A) * fs_store) (a : A)
    (v : list string -> option SeafDirent) : Prop :=
  exists root' st', r = (Some (mkRewritten root' true a), st') /\ st ⊆ st' /\
    library_ok dir_hash version st' /\ forall path, view_root version st' root' path = v path.

Lemma rewrite_at_outcome {A} touch (at_target : list SeafDirent -> target A) root_id parent_dir st l l' a v :
  at_dir st root_id parent_dir l -> at_target l = TargetNew l' a ->
  sorted_entries l' -> readable_list st version l' ->
  (forall path, (forall name rest, below (strchr_parts (skip_slash parent_dir)) path <> Some (name :: rest)) ->
     v path = view_root version st root_id path) ->
  (forall path name rest, below (strchr_parts (skip_slash parent_dir)) path = Some (name :: rest) ->
     v path = view version st l' (name :: rest)) ->
  outcome st (rewrite_at dir_hash always version now touch at_target root_id parent_dir st) a v.
Proof.
  intros [Hl He] Ht Hs Hr H1 H2. unfold rewrite_at.
  destruct (rewrite_path_new dir_hash version now Hcf touch at_target _ _ _ _ _ _ Hl He Ht Hs Hr)
    as (id' & st' & E & R).
  exists id', st'. split_and!; [done|apply R|apply R|]. by eapply rewrote_view.
Qed.

(** An entry that can be put into a directory. *)
Definition storable (st : fs_store) (e : SeafDirent) : Prop :=
  S_ISDIR (d_mode e) = true -> is_Some (seaf_fs_manager_get_seafdir st version (d_id e)).

(** A map whose part below a directory is the view of its entries. *)
Definition shows (st : fs_store) (parts : list string) (l : list SeafDirent)
    (v : list string -> option SeafDirent) : Prop :=
  forall path name rest, below parts path = Some (name :: rest) -> v path = view version st l (name :: rest).

Lemma shows_put st parts v l l' (e : SeafDirent) :
  shows st parts l v ->
  (forall nm, lookup_name nm l' = if String.eqb nm (d_name e) then Some e else lookup_name nm l) ->
  shows st parts l' (put_entry version st v parts e).
Proof.
  intros Hv Hl path name rest Hb. unfold put_entry. rewrite Hb.
  destruct (String.eqb_spec name (d_name e)) as [->|Hne].
  - apply view_lookup. by rewrite Hl, lookup_name_cons, String.eqb_refl.
  - rewrite (Hv _ _ _ Hb). apply view_lookup. by rewrite Hl, (proj2 (String.eqb_neq _ _) Hne).
Qed.

Lemma put_above st v parts (e : SeafDirent) path :
  (forall name rest, below parts path <> Some (name :: rest)) -> put_entry version st v parts e path = v path.
Proof.
  intros H. unfold put_entry. destruct (below parts path) as [[|name rest]|]; try done. by destruct (H name rest).
Qed.

(** Any target that changes the entry of one name puts the entry there. *)
Lemma rewrite_at_put {A} touch (at_target : list SeafDirent -> target A) root_id parent_dir st l l' a e :
  at_dir st root_id parent_dir l -> at_target l = TargetNew l' a ->
  sorted_entries l' -> (forall d, d ∈ l' -> d ∈ l \/ d = e) -> storable st e ->
  (forall nm, lookup_name nm l' = if String.eqb nm (d_name e) then Some e else lookup_name nm l) ->
  outcome st (rewrite_at dir_hash always version now touch at_target root_id parent_dir st) a
    (put_entry version st (view_root version st root_id) (strchr_parts (skip_slash parent_dir)) e).
Proof.
  intros Hat Ht Hs Hin He Hlk. pose proof (at_sorted _ _ _ _ Hat) as [_ Hr].
  apply (rewrite_at_outcome touch at_target root_id parent_dir st l l' a); [done..| | |].
  - intros d Hd Hisd. destruct (Hin d Hd) as [Hl| ->]; [by apply Hr|by apply He].
  - intros path. apply put_above.
  - apply (shows_put st _ _ l); [|done]. intros path name rest Hb. eapply view_entries_at; [apply Hat|done].
Qed.

Definition posted (e : SeafDirent) (name : string) : SeafDirent :=
  seaf_dirent_new (d_version e) (d_id e) (d_mode e) name (d_mtime e) (d_modifier e) (d_size e).

Lemma d_name_dirent_new v i m nm t mo sz : d_name (seaf_dirent_new v i m nm t mo sz) = nm.
Proof. unfold seaf_dirent_new. by destruct (0 <? v). Qed.
Lemma d_id_dirent_new v i m nm t mo sz : d_id (seaf_dirent_new v i m nm t mo sz) = i.
Proof. unfold seaf_dirent_new. by destruct (0 <? v). Qed.

Lemma S_ISREG_perm m : S_ISREG m = true -> S_ISREG (Z.lor m 0x1A4) = true.
Proof.
  unfold S_ISREG. rewrite !Z.eqb_eq, Z.land_lor_distr_l. intros ->. done.
Qed.

Lemma S_ISDIR_dirent_new v i m nm t mo sz :
  S_ISDIR (d_mode (seaf_dirent_new v i m nm t mo sz)) = S_ISDIR m.
Proof.
  assert (E : d_mode (seaf_dirent_new v i m nm t mo sz) = if S_ISREG m then Z.lor m 0x1A4 else m).
  { unfold seaf_dirent_new. by destruct (0 <? v). }
  rewrite E. destruct (S_ISREG m) eqn:Hr; [|done].
  by rewrite (S_ISREG_not_DIR _ (S_ISREG_perm _ Hr)), (S_ISREG_not_DIR _ Hr).
Qed.

Lemma storable_dirent_new st v e nm t mo sz :
  storable st e -> storable st (seaf_dirent_new v (d_id e) (d_mode e) nm t mo sz).
Proof.
  unfold storable. rewrite S_ISDIR_dirent_new, d_id_dirent_new. done.
Qed.

Lemma post_file_outcome st root_id parent_dir l e u :
  at_dir st root_id parent_dir l -> storable st e ->
  generate_unique_filename (d_name e) l = Some u ->
  outcome st (do_post_file dir_hash always version now root_id parent_dir e st) u
    (put_entry version st (view_root version st root_id) (strchr_parts (skip_slash parent_dir)) (posted e u)).
Proof.
  intros Hat He Hu. pose proof (at_sorted _ _ _ _ Hat) as [Hs _].
  pose proof (generate_unique_filename_fresh _ _ _ Hu) as Hf.
  unfold do_post_file, do_post_file_replace, posted. eapply rewrite_at_put; [done|..].
  - unfold post_target. cbn [andb]. by rewrite Hu.
  - apply insert_dirent_strict; [done|]. by rewrite d_name_dirent_new.
  - intros d. rewrite insert_dirent_perm, elem_of_cons. intros [->|]; auto.
  - by apply storable_dirent_new.
  - intros nm. apply lookup_insert_dirent. unfold posted. by rewrite d_name_dirent_new.
Qed.

(** C30: posting an entry into a directory of a library puts that entry, under the
    first free name, at that path, changes no other path, keeps the library well
    formed, and answers the name. *)
Theorem post_file_refines st root_id parent_dir l e u :
  at_dir st root_id parent_dir l -> storable st e ->
  generate_unique_filename (d_name e) l = Some u ->
  outcome st (do_post_file dir_hash always version now root_id parent_dir e st) u
    (put_entry version st (view_root version st root_id) (strchr_parts (skip_slash parent_dir)) (posted e u)).
Proof. apply post_file_outcome. Qed.

(** posting with replacement puts the entry at the path itself when the name
    is taken. *)
Theorem post_file_replaces st root_id parent_dir l e d :
  at_dir st root_id parent_dir l -> storable st e -> lookup_name (d_name e) l = Some d ->
  outcome st (do_post_file_replace dir_hash always version now root_id parent_dir true e st) (d_name e)
    (put_entry version st (view_root version st root_id) (strchr_parts (skip_slash parent_dir)) e).
Proof.
  intros Hat He Hd. pose proof (at_sorted _ _ _ _ Hat) as [Hs _].
  unfold do_post_file_replace. eapply rewrite_at_put; [done|..|done|].
  - unfold post_target. by rewrite filename_exists_lookup, Hd.
  - by apply (sorted_same_names l); [rewrite replace_dent_names|].
  - intros x (y & -> & Hy)%list_elem_of_fmap. case_match; auto.
  - intros nm. rewrite lookup_replace_dent. destruct (String.eqb_spec nm (d_name e)) as [->|]; [|done].
    by rewrite Hd.
Qed.

(** replacing a file of a directory puts the new entry at its path and
    changes no other path. *)
Theorem put_file_refines st root_id parent_dir l e d :
  at_dir st root_id parent_dir l -> storable st e -> lookup_name (d_name e) l = Some d ->
  outcome st (do_put_file dir_hash always version now root_id parent_dir e st) tt
    (put_entry version st (view_root version st root_id) (strchr_parts (skip_slash parent_dir)) e).
Proof.
  intros Hat He Hd. pose proof (at_sorted _ _ _ _ Hat) as [Hs _].
  unfold do_put_file. eapply rewrite_at_put; [done|done|..|done|].
  - by apply (sorted_same_names l); [rewrite replace_dent_names|].
  - intros x (y & -> & Hy)%list_elem_of_fmap. case_match; auto.
  - intros nm. rewrite lookup_replace_dent. destruct (String.eqb_spec nm (d_name e)) as [->|]; [|done].
    by rewrite Hd.
Qed.

(** ** Several entries *)

(** One entry after the other: a new name is added or an entry is replaced. *)
Inductive puts : list SeafDirent -> list SeafDirent -> list SeafDirent -> Prop :=
| puts_nil l : puts l [] l
| puts_cons l e l1 es l2 :
    (sorted_entries l -> sorted_entries l1) ->
    (forall d, d ∈ l1 -> d ∈ l \/ d = e) ->
    (forall nm, lookup_name nm l1 = if String.eqb nm (d_name e) then Some e else lookup_name nm l) ->
    puts l1 es l2 -> puts l (e :: es) l2.

Lemma puts_spec st parts l es l' :
  puts l es l' -> sorted_entries l -> readable_list st version l -> Forall (storable st) es ->
  sorted_entries l' /\ readable_list st version l' /\
  forall v, shows st parts l v -> shows st parts l' (foldl (fun v e => put_entry version st v parts e) v es).
Proof.
  induction 1 as [l|l e l1 es l2 H1 H2 H3 _ IH]; intros Hs Hr Hes; [by split_and!|].
  apply Forall_cons in Hes as [He Hes].
  destruct (IH (H1 Hs)) as (S & R & V); [|done|].
  { intros d Hd Hisd. destruct (H2 d Hd) as [Hl| ->]; [by apply Hr|by apply He]. }
  split_and!; [done|done|]. intros v Hv. cbn [foldl]. apply V. by eapply shows_put.
Qed.

Lemma foldl_put_above st parts es path :
  (forall name rest, below parts path <> Some (name :: rest)) ->
  forall v, foldl (fun v e => put_entry version st v parts e) v es path = v path.
Proof.
  intros Hb. induction es as [|e es IH]; intros v; [done|]. cbn [foldl]. rewrite IH. by apply put_above.
Qed.

Definition new_entry (user : string) (d : SeafDirent) (name : string) : SeafDirent :=
  seaf_dirent_new (dir_version_from_repo_version version) (d_id d) (d_mode d) name (d_mtime d) (Some user)
    (d_size d).

Lemma remove_first_spec name l l' :
  remove_first name l = Some l' -> sorted_entries l ->
  sorted_entries l' /\ lookup_name name l' = None /\ (forall d, d ∈ l' -> d ∈ l) /\
  (forall nm, nm <> name -> lookup_name nm l' = lookup_name nm l).
Proof.
  revert l'. induction l as [|d l IH]; intros l' E Hs; [done|]. cbn [remove_first] in E.
  rewrite strcmp_name in E. inversion Hs as [|? ? Hs' Hall]; subst. rewrite Forall_forall in Hall.
  destruct (String.eqb_spec name (d_name d)) as [->|Hne].
  - injection E as <-. split_and!; [done| |by right|].
    + apply lookup_name_None. intros x Hx Ex. pose proof (Hall x Hx) as Hgt. rewrite Ex in Hgt.
      by apply gt_name_irrefl in Hgt.
    + intros nm Hnm. rewrite lookup_name_cons. by rewrite (proj2 (String.eqb_neq _ _) Hnm).
  - destruct (remove_first name l) as [l1|]; [|done]. injection E as <-.
    destruct (IH l1 eq_refl Hs') as (S & N & I & L). split_and!.
    + constructor; [done|]. apply Forall_forall. intros x Hx. by apply Hall, I.
    + rewrite lookup_name_cons. by rewrite (proj2 (String.eqb_neq _ _) Hne).
    + intros x [->|Hx]%elem_of_cons; [by left|]. right. by apply I.
    + intros nm Hnm. rewrite !lookup_name_cons. by rewrite L.
Qed.

Lemma add_new_entry_unfold user replace d l :
  add_new_entry version user replace d l =
  match (if replace then remove_first (d_name d) l else None) with
  | Some l => Some (insert_dirent (new_entry user d (d_name d)) l, d_name d)
  | None => u ← generate_unique_filename (d_name d) l; Some (insert_dirent (new_entry user d u) l, u)
  end.
Proof. done. Qed.

Lemma add_new_entry_puts user replace d l l' name :
  add_new_entry version user replace d l = Some (l', name) -> sorted_entries l ->
  sorted_entries l' /\ (forall x, x ∈ l' -> x ∈ l \/ x = new_entry user d name) /\
  (forall nm, lookup_name nm l' = if String.eqb nm name then Some (new_entry user d name) else lookup_name nm l) /\
  (if replace then name = d_name d \/ lookup_name (d_name d) l = None else True) /\
  (name = d_name d \/ generate_unique_filename (d_name d) l = Some name).
Proof.
  rewrite add_new_entry_unfold. intros E Hs.
  assert (Hn : forall nm, d_name (new_entry user d nm) = nm) by (intros; apply d_name_dirent_new).
  destruct (if replace then remove_first (d_name d) l else None) as [l1|] eqn:Erm.
  - injection E as <- <-. destruct replace; [|done].
    destruct (remove_first_spec _ _ _ Erm Hs) as (S & N & I & L). split_and!; [| | |by left|by left].
    + apply insert_dirent_strict; [done|]. by rewrite Hn.
    + intros x. rewrite insert_dirent_perm, elem_of_cons. intros [->|Hx]; [by right|]. left. by apply I.
    + intros nm. rewrite lookup_insert_dirent by by rewrite Hn. rewrite Hn.
      destruct (String.eqb_spec nm (d_name d)); [done|]. by apply L.
  - destruct (generate_unique_filename (d_name d) l) as [u|] eqn:Eu; [|done]. cbn in E.
    injection E as <- <-. pose proof (generate_unique_filename_fresh _ _ _ Eu) as Hf. split_and!.
    + apply insert_dirent_strict; [done|]. by rewrite Hn.
    + intros x. rewrite insert_dirent_perm, elem_of_cons. intros [->|Hx]; [by right|by left].
    + intros nm. rewrite lookup_insert_dirent by by rewrite Hn. by rewrite Hn.
    + destruct replace; [|done]. right. clear -Erm. induction l as [|x l IH]; [done|].
      cbn [remove_first] in Erm. rewrite strcmp_name in Erm. rewrite lookup_name_cons.
      destruct (String.eqb (d_name d) (d_name x)); [done|].
      apply IH. by destruct (remove_first (d_name d) l).
    + by right.
Qed.

(** Appending to the list of names has no effect on the entries. *)
Lemma add_new_entries_spec user replace dents : forall l names l' names',
  add_new_entries version user replace dents l names = Some (l', names') -> sorted_entries l ->
  exists added, names' = names ++ added /\ length added = length dents /\
    puts l (zip_with (new_entry user) dents added) l'.
Proof.
  induction dents as [|d dents IH]; intros l names l' names' E Hs; cbn [add_new_entries] in E.
  - injection E as <- <-. exists []. rewrite app_nil_r. split_and!; [done|done|constructor].
  - destruct (add_new_entry version user replace d l) as [[l1 name]|] eqn:E1; [|done].
    cbn [mbind option_bind] in E.
    destruct (add_new_entry_puts _ _ _ _ _ _ E1 Hs) as (S & I & L & _ & _).
    destruct (IH _ _ _ _ E S) as (added & -> & Hlen & P). exists (name :: added).
    split_and!; [by rewrite <- app_assoc|cbn; lia|]. cbn [zip_with].
    apply (puts_cons _ _ l1); [done|done| |done].
    intros nm. rewrite L. unfold new_entry. by rewrite d_name_dirent_new.
Qed.

(** posting several entries has the effect of putting them one after the
    other, each under the name reported for it. *)
Theorem post_multi_files_refines st root_id parent_dir l user replace dents l' names :
  at_dir st root_id parent_dir l -> Forall (storable st) dents ->
  add_new_entries version user replace dents l [] = Some (l', names) ->
  length names = length dents /\
  outcome st (post_multi_files dir_hash always version now root_id parent_dir user replace dents st) names
    (foldl (fun v e => put_entry version st v (strchr_parts (skip_slash parent_dir)) e)
      (view_root version st root_id) (zip_with (new_entry user) dents names)).
Proof.
  intros Hat Hd E. pose proof (at_sorted _ _ _ _ Hat) as [Hs Hr].
  destruct (add_new_entries_spec _ _ _ _ _ _ _ E Hs) as (added & -> & Hlen & P). cbn [app] in *.
  split; [done|].
  destruct (puts_spec st (strchr_parts (skip_slash parent_dir)) _ _ _ P Hs Hr) as (S & R & V).
  { clear -Hd. revert added. induction Hd as [|d dents Hd _ IH]; intros [|n added]; cbn [zip_with]; try constructor.
    - by apply storable_dirent_new.
    - apply IH. }
  unfold post_multi_files. eapply rewrite_at_outcome; [done| |done|done| |].
  - unfold post_multi_target. by rewrite E.
  - intros path Hb. by apply foldl_put_above.
  - apply V. intros path name rest Hb. eapply view_entries_at; [apply Hat|done].
Qed.

(** ** Deleting *)

Lemma names_test (names : list string) d :
  existsb (fun name => strcmp (d_name d) name =? 0) names = bool_decide (d_name d ∈ names).
Proof.
  induction names as [|n names IH]; [done|]. cbn [existsb]. rewrite IH, strcmp_name.
  destruct (String.eqb_spec n (d_name d)) as [->|Hne].
  - symmetry. apply bool_decide_eq_true. by left.
  - cbn [orb]. apply bool_decide_ext. set_solver.
Qed.

Definition gone (names : list string) (l : list SeafDirent) : list SeafDirent :=
  filter (fun d => d_name d ∈ names) l.

Lemma del_fold names l : forall a kept,
  foldl (del_step names) (a, kept) l =
  (mkDel (deleted_num a + Z.of_nat (length (gone names l)))
     (match last (gone names l) with Some d => Some (d_mode d) | None => del_mode a end)
     (match desc_file a with Some f => Some f | None => d_name <$> head (gone names l) end),
   kept ++ filter (fun d => d_name d ∉ names) l).
Proof.
  induction l as [|d l IH]; intros a kept.
  - cbn. rewrite app_nil_r, Z.add_0_r. destruct a as [n m [f|]]; done.
  - cbn [foldl]. unfold del_step at 2. rewrite names_test. unfold gone. rewrite !filter_cons.
    destruct (decide (d_name d ∈ names)) as [Hin|Hin].
    + rewrite bool_decide_true, decide_False by naive_solver. rewrite IH. fold (gone names l). f_equal. f_equal.
      * cbn [deleted_num length]. lia.
      * rewrite last_cons. cbn [del_mode]. by destruct (last (gone names l)).
      * cbn [desc_file]. by destruct (desc_file a).
    + rewrite bool_decide_false, decide_True by naive_solver. rewrite IH. fold (gone names l).
      by rewrite <- app_assoc.
Qed.

(** deleting names from a directory removes those that are there, with all
    that is below them, changes no other path, and answers how many they were and
    the first of them; when none is there nothing is written and the root stays. *)
Theorem del_file_refines st root_id parent_dir l names :
  at_dir st root_id parent_dir l -> names <> [] ->
  match gone names l with
  | [] => do_del_file dir_hash always version now root_id parent_dir names st
          = (Some (mkRewritten root_id false (mkDel 0 None None)), st)
  | d :: _ => exists a, deleted_num a = Z.of_nat (length (gone names l)) /\ desc_file a = Some (d_name d) /\
      outcome st (do_del_file dir_hash always version now root_id parent_dir names st) a
        (remove_names (view_root version st root_id) (strchr_parts (skip_slash parent_dir)) names)
  end.
Proof.
  intros Hat Hne. pose proof (at_sorted _ _ _ _ Hat) as [Hs Hr].
  assert (Ht : del_target names l =
    let a := mkDel (Z.of_nat (length (gone names l))) (d_mode <$> last (gone names l))
               (d_name <$> head (gone names l)) in
    if deleted_num a =? 0 then TargetSame a else TargetNew (filter (fun d => d_name d ∉ names) l) a).
  { unfold del_target. destruct names; [done|]. by rewrite del_fold. }
  destruct (gone names l) as [|d ds] eqn:Eg.
  - unfold do_del_file, rewrite_at. apply (rewrite_path_same dir_hash version now true _ _ _ _ _ l);
      [apply Hat|apply Hat|]. by rewrite Ht.
  - eexists. split_and!; [| |unfold do_del_file; eapply rewrite_at_outcome; [exact Hat|exact Ht|..]]; [done|done|..].
    + by apply sorted_entries_filter.
    + intros e [_ He]%list_elem_of_filter. by apply Hr.
    + intros path Hb. unfold remove_names. destruct (below _ path) as [[|nm rest]|]; try done.
      by destruct (Hb nm rest).
    + intros path name rest Hb. unfold remove_names. rewrite Hb. destruct Hat as [Hl He].
      rewrite (view_entries_at _ _ _ _ _ _ _ He Hb). cbn [view].
      rewrite lookup_name_filter by (intros ? ? ->; done).
      destruct (lookup_name name l) as [x|] eqn:Ex; [|by case_bool_decide].
      apply lookup_name_Some in Ex as [_ <-]. case_bool_decide as Hin; [by rewrite decide_False by naive_solver|].
      by rewrite decide_True.
Qed.

(** ** Renaming *)

Definition renamed_entry (newname : string) (d : SeafDirent) : SeafDirent := posted d newname.

Lemma rename_fold oldname newname l : forall kept o,
  foldl (rename_step oldname newname) (kept, o) l =
  (kept ++ filter (fun d => d_name d <> oldname) l,
   match last (filter (fun d => d_name d = oldname) l) with
   | Some d => Some (renamed_entry newname d)
   | None => o
   end).
Proof.
  induction l as [|d l IH]; intros kept o; [cbn; by rewrite app_nil_r|].
  cbn [foldl]. unfold rename_step at 2. rewrite strcmp_name, !filter_cons.
  destruct (String.eqb_spec oldname (d_name d)) as [->|Hne]; cbn [negb].
  - rewrite decide_False, decide_True by naive_solver. rewrite IH, last_cons.
    by destruct (last (filter _ l)).
  - rewrite decide_True, decide_False by naive_solver. rewrite IH, <- app_assoc. done.
Qed.

Lemma filter_name_sorted l d :
  sorted_entries l -> d ∈ l -> filter (fun x => d_name x = d_name d) l = [d].
Proof.
  induction 1 as [|x l Hs IH Hall]; [by intros ?%not_elem_of_nil|]. rewrite filter_cons.
  rewrite Forall_forall in Hall. intros [<-|Hd]%elem_of_cons.
  - rewrite decide_True by done. f_equal. destruct (filter _ l) as [|y ys] eqn:E; [done|].
    assert (Hy : y ∈ filter (fun x => d_name x = d_name d) l) by (rewrite E; by left).
    apply list_elem_of_filter in Hy as [Ey Hy]. apply Hall in Hy. rewrite Ey in Hy. by apply gt_name_irrefl in Hy.
  - rewrite decide_False; [by apply IH|]. intros E. apply Hall in Hd. rewrite E in Hd. by apply gt_name_irrefl in Hd.
Qed.

(** renaming an entry to a name that is free moves it, with what is below it,
    to the new name and changes no other path. *)
Theorem rename_file_refines st root_id parent_dir l oldname newname d :
  at_dir st root_id parent_dir l -> lookup_name oldname l = Some d ->
  newname <> oldname -> lookup_name newname l = None ->
  outcome st (do_rename_file dir_hash always version now root_id parent_dir oldname newname st) tt
    (move_entry (view_root version st root_id) (strchr_parts (skip_slash parent_dir)) oldname
       (renamed_entry newname d)).
Proof.
  intros Hat Hd Hne Hnew. pose proof (at_sorted _ _ _ _ Hat) as [Hs Hr].
  pose proof (lookup_name_Some _ _ _ Hd) as [Hin Hname].
  set (e := renamed_entry newname d). set (kept := filter (fun x => d_name x <> oldname) l).
  assert (En : d_name e = newname) by apply d_name_dirent_new.
  assert (Ht : rename_target oldname newname l = TargetNew (insert_dirent e kept) tt).
  { unfold rename_target. rewrite rename_fold, <- Hname, filter_name_sorted by done. cbn [last app].
    unfold kept. by rewrite Hname. }
  assert (Hkept : forall nm, lookup_name nm kept = if String.eqb nm oldname then None else lookup_name nm l).
  { intros nm. unfold kept. rewrite lookup_name_filter by (intros ? ? ->; done).
    destruct (lookup_name nm l) as [x|] eqn:Ex; [|by destruct (String.eqb nm oldname)].
    apply lookup_name_Some in Ex as [_ <-]. destruct (String.eqb_spec (d_name x) oldname).
    - by rewrite decide_False by naive_solver.
    - by rewrite decide_True. }
  assert (Hfree : lookup_name (d_name e) kept = None).
  { rewrite Hkept, En, Hnew. by destruct (String.eqb newname oldname). }
  unfold do_rename_file. eapply rewrite_at_outcome; [exact Hat|exact Ht|..].
  - apply insert_dirent_strict; [by apply sorted_entries_filter|done].
  - intros x. rewrite insert_dirent_perm, elem_of_cons. intros [->|[_ Hx]%list_elem_of_filter]; [|by apply Hr].
    apply (storable_dirent_new st _ d). intros Hisd. by apply Hr.
  - intros path Hb. unfold move_entry. destruct (below _ path) as [[|nm rest]|]; try done. by destruct (Hb nm rest).
  - intros path name rest Hb. unfold move_entry. rewrite Hb. destruct Hat as [Hl He].
    assert (Hlk := lookup_insert_dirent e kept name Hfree). cbn [view]. rewrite Hlk, Hkept, En.
    destruct (String.eqb_spec name newname) as [->|].
    + cbn [mbind option_bind]. destruct rest as [|n rest]; [done|].
      rewrite (view_entries_at st _ root_id l _ oldname (n :: rest) He) by (by apply below_Some).
      cbn [view]. rewrite Hd. cbn [mbind option_bind]. unfold e, renamed_entry, posted.
      by rewrite S_ISDIR_dirent_new, d_id_dirent_new.
    + destruct (String.eqb_spec name oldname) as [->|]; [done|].
      by rewrite (view_entries_at _ _ _ _ _ _ _ He Hb).
Qed.

(** ** The invariant, whatever happens *)

(** The entries the recursion reaches: it descends through any entry. *)
Fixpoint reached (st : fs_store) (id : string) (parts : list string) : option (list SeafDirent) :=
  dir ← seaf_fs_manager_get_seafdir st version id;
  match parts with
  | [] => Some (entries dir)
  | name :: parts => d ← lookup_name name (entries dir); reached st (d_id d) parts
  end.

Lemma save_new_dir_library write_ok st l :
  library_ok dir_hash version st -> sorted_entries l -> readable_list st version l ->
  let r := save_new_dir dir_hash write_ok version st l in
  library_ok dir_hash version (snd r) /\
  forall id, fst r = Some id -> is_Some (seaf_fs_manager_get_seafdir (snd r) version id).
Proof.
  intros Hl Hs Hr. cbv zeta. destruct (save_new_dir_fails dir_hash version write_ok st l) as [_ [E|E]].
  - rewrite E. split; [|done]. revert E. unfold save_new_dir, seaf_dir_save.
    destruct (String.eqb _ EMPTY_SHA1); [done|]. destruct (st !! _); [done|]. by destruct (write_ok _).
  - rewrite E. destruct (save_new_dir_ok dir_hash version Hcf st l Hl Hs Hr)
      as (id & st' & m & E' & _ & Hl' & Hm & _).
    rewrite E'. split; [done|]. cbn. intros ? [= <-]. by exists m.
Qed.

Lemma rewrite_path_library {A} touch (at_target : list SeafDirent -> target A) write_ok parts : forall id st,
  library_ok dir_hash version st ->
  (forall l l' a, reached st id parts = Some l -> at_target l = TargetNew l' a ->
     sorted_entries l -> readable_list st version l -> sorted_entries l' /\ readable_list st version l') ->
  let r := rewrite_path dir_hash write_ok version now touch at_target parts id st in
  library_ok dir_hash version (snd r) /\ st ⊆ snd r /\
  forall x, fst r = Some x -> is_Some (seaf_fs_manager_get_seafdir (snd r) version (rw_id x)).
Proof.
  induction parts as [|name parts IH]; intros id st Hl Hgood; cbv zeta; cbn [rewrite_path];
    rewrite (get_sorted _ _ _ (lib_tidy _ _ _ Hl)); cbn [reached] in Hgood;
    destruct (seaf_fs_manager_get_seafdir st version id) as [dir|] eqn:Hdir; try (by split_and!);
    cbn [mbind option_bind] in Hgood;
    pose proof (tidy_sorted _ _ (lib_tidy _ _ _ Hl) _ _ Hdir) as Hs;
    assert (Hr : readable_list st version (entries dir))
      by (intros e He; by apply (tidy_closed _ _ (lib_tidy _ _ _ Hl) _ _ _ Hdir)).
  - destruct (at_target (entries dir)) as [|a|l a] eqn:Ht; [by split_and!| |].
    { split_and!; [done|done|]. cbn. intros x [= <-]. cbn. rewrite (get_seafdir_id _ _ _ _ Hdir). by exists dir. }
    destruct (Hgood _ _ _ eq_refl Ht Hs Hr) as [Hs' Hr'].
    destruct (save_new_dir_library write_ok st l Hl Hs' Hr') as [L I].
    destruct (save_new_dir_fails dir_hash version write_ok st l) as [Hsub _].
    destruct (save_new_dir dir_hash write_ok version st l) as [o st1]. cbn in *. split_and!; [done|done|].
    intros x. destruct o as [i|]; [|done]. intros [= <-]. by apply I.
  - rewrite find_dirent_lookup. destruct (lookup_name name (entries dir)) as [d|] eqn:Hd; [|by split_and!].
    cbn [mbind option_bind] in Hgood. destruct (IH (d_id d) st Hl Hgood) as (L1 & S1 & I1).
    destruct (rewrite_path dir_hash write_ok version now touch at_target parts (d_id d) st) as [o st1].
    cbn in L1, S1, I1. destruct o as [r|]; [|by split_and!]. destruct (rw_changed r).
    2:{ split_and!; [done|done|]. cbn. intros x [= <-]. cbn. rewrite (get_seafdir_id _ _ _ _ Hdir).
        exists dir. by eapply get_seafdir_mono. }
    set (l := update_dent name (new_child version now touch (rw_id r)) (entries dir)).
    destruct (save_new_dir_library write_ok st1 l L1) as [L I].
    { apply (sorted_same_names (entries dir)); [|done]. unfold l.
      by rewrite update_dent_names by apply d_name_new_child. }
    { apply (readable_update version st); [done|done|]. intros d0 _ _. rewrite d_id_new_child. by apply I1. }
    destruct (save_new_dir_fails dir_hash version write_ok st1 l) as [Hsub _].
    destruct (save_new_dir dir_hash write_ok version st1 l) as [o st2]. cbn in *.
    split_and!; [done|by trans st1|]. intros x. destruct o as [i|]; [|done]. intros [= <-]. by apply I.
Qed.

(** The operations on a library, with their arguments. *)
Inductive op :=
| OpPost (parent_dir : string) (replace : bool) (e : SeafDirent)
| OpPostMulti (parent_dir user : string) (replace : bool) (es : list SeafDirent)
| OpPut (parent_dir : string) (e : SeafDirent)
| OpDel (parent_dir : string) (names : list string)
| OpRename (parent_dir oldname newname : string).

Definition run_op (write_ok : string -> bool) (o : op) (root_id : string) (st : fs_store)
  : option string * fs_store :=
  match o with
  | OpPost parent_dir replace e =>
      let '(r, st) := do_post_file_replace dir_hash write_ok version now root_id parent_dir replace e st in
      (rw_id <$> r, st)
  | OpPostMulti parent_dir user replace es =>
      let '(r, st) := post_multi_files dir_hash write_ok version now root_id parent_dir user replace es st in
      (rw_id <$> r, st)
  | OpPut parent_dir e =>
      let '(r, st) := do_put_file dir_hash write_ok version now root_id parent_dir e st in (rw_id <$> r, st)
  | OpDel parent_dir names =>
      let '(r, st) := do_del_file dir_hash write_ok version now root_id parent_dir names st in (rw_id <$> r, st)
  | OpRename parent_dir oldname newname =>
      let '(r, st) := do_rename_file dir_hash write_ok version now root_id parent_dir oldname newname st in
      (rw_id <$> r, st)
  end.

(** New directory entries name stored directories; a new name is free. *)
Definition op_ok (st : fs_store) (root_id : string) (o : op) : Prop :=
  match o with
  | OpPost _ _ e | OpPut _ e => storable st e
  | OpPostMulti _ _ _ es => Forall (storable st) es
  | OpDel _ _ => True
  | OpRename parent_dir oldname newname => forall l,
      reached st root_id (strchr_parts (skip_slash parent_dir)) = Some l ->
      newname = oldname \/ lookup_name newname l = None
  end.

Lemma readable_put st l l' e :
  readable_list st version l -> storable st e -> (forall d, d ∈ l' -> d ∈ l \/ d = e) ->
  readable_list st version l'.
Proof. intros Hr He Hin d Hd Hisd. destruct (Hin d Hd) as [Hl| ->]; [by apply Hr|by apply He]. Qed.

Lemma replace_dent_elem e l d : d ∈ replace_dent e l -> d ∈ l \/ d = e.
Proof. intros (y & -> & Hy)%list_elem_of_fmap. case_match; auto. Qed.

Lemma replace_dent_ok st e l :
  storable st e -> sorted_entries l -> readable_list st version l ->
  sorted_entries (replace_dent e l) /\ readable_list st version (replace_dent e l).
Proof.
  intros He Hs Hr. split; [by apply (sorted_same_names l); [rewrite replace_dent_names|]|].
  apply (readable_put st l _ e); [done..|apply replace_dent_elem].
Qed.

Lemma insert_dirent_ok st e l :
  storable st e -> sorted_entries l -> readable_list st version l -> lookup_name (d_name e) l = None ->
  sorted_entries (insert_dirent e l) /\ readable_list st version (insert_dirent e l).
Proof.
  intros He Hs Hr Hn. split; [by apply insert_dirent_strict|]. apply (readable_put st l _ e); [done..|].
  intros d. rewrite insert_dirent_perm, elem_of_cons. intros [->|]; auto.
Qed.

Lemma filter_ok (P : SeafDirent -> Prop) `{!forall d, Decision (P d)} st l :
  sorted_entries l -> readable_list st version l ->
  sorted_entries (filter P l) /\ readable_list st version (filter P l).
Proof.
  intros Hs Hr. split; [by apply sorted_entries_filter|]. intros d [_ Hd]%list_elem_of_filter. by apply Hr.
Qed.

Lemma post_target_ok st replace e l l' a :
  storable st e -> sorted_entries l -> readable_list st version l ->
  post_target replace e l = TargetNew l' a -> sorted_entries l' /\ readable_list st version l'.
Proof.
  intros He Hs Hr. unfold post_target. destruct (replace && filename_exists l (d_name e)).
  - intros [= <- _]. by apply replace_dent_ok.
  - destruct (generate_unique_filename (d_name e) l) as [u|] eqn:Eu; [|done]. intros [= <- _].
    apply insert_dirent_ok; [by apply storable_dirent_new|done|done|].
    rewrite d_name_dirent_new. by eapply generate_unique_filename_fresh.
Qed.

Lemma post_multi_target_ok st user replace es l l' a :
  Forall (storable st) es -> sorted_entries l -> readable_list st version l ->
  post_multi_target version user replace es l = TargetNew l' a ->
  sorted_entries l' /\ readable_list st version l'.
Proof.
  intros He Hs Hr. unfold post_multi_target.
  destruct (add_new_entries version user replace es l []) as [[l1 names]|] eqn:E; [|done]. intros [= <- _].
  destruct (add_new_entries_spec _ _ _ _ _ _ _ E Hs) as (added & _ & _ & P).
  destruct (puts_spec st [] _ _ _ P Hs Hr) as (S & R & _); [|done].
  clear -He. revert added. induction He as [|d es Hd _ IH]; intros [|n added]; cbn [zip_with]; try constructor.
  - by apply storable_dirent_new.
  - apply IH.
Qed.

Lemma del_target_ok st names l l' a :
  sorted_entries l -> readable_list st version l -> del_target names l = TargetNew l' a ->
  sorted_entries l' /\ readable_list st version l'.
Proof.
  intros Hs Hr. unfold del_target. destruct names as [|n names]; [done|]. rewrite del_fold.
  cbv zeta beta iota. case_match; [done|]. intros [= <- _]. by apply (filter_ok (fun d => d_name d ∉ n :: names)).
Qed.

Lemma rename_target_ok st oldname newname l l' a :
  newname = oldname \/ lookup_name newname l = None ->
  sorted_entries l -> readable_list st version l -> rename_target oldname newname l = TargetNew l' a ->
  sorted_entries l' /\ readable_list st version l'.
Proof.
  intros Hnew Hs Hr. unfold rename_target. rewrite rename_fold. cbn [app].
  destruct (filter_ok (fun d => d_name d <> oldname) st l Hs Hr) as [Hs' Hr'].
  destruct (last (filter (fun d => d_name d = oldname) l)) as [d|] eqn:El; intros [= <- _]; [|done].
  apply insert_dirent_ok; [|done|done|].
  - apply storable_dirent_new. intros Hd. apply Hr; [|done].
    apply last_Some_elem_of, list_elem_of_filter in El. tauto.
  - unfold renamed_entry, posted. rewrite d_name_dirent_new, lookup_name_filter by (intros ? ? ->; done).
    destruct Hnew as [->| ->]; [|done]. destruct (lookup_name oldname l) as [x|] eqn:Ex; [|done].
    apply lookup_name_Some in Ex as [_ <-]. by rewrite decide_False by naive_solver.
Qed.

Lemma run_op_library write_ok o root_id st :
  library_ok dir_hash version st -> op_ok st root_id o ->
  let r := run_op write_ok o root_id st in
  library_ok dir_hash version (snd r) /\ st ⊆ snd r /\
  forall id, fst r = Some id -> is_Some (seaf_fs_manager_get_seafdir (snd r) version id).
Proof.
  intros Hl Ho. cbv zeta.
  assert (Hgen : forall A touch (at_target : list SeafDirent -> target A) parent_dir,
    (forall l l' a, reached st root_id (strchr_parts (skip_slash parent_dir)) = Some l ->
       at_target l = TargetNew l' a -> sorted_entries l -> readable_list st version l ->
       sorted_entries l' /\ readable_list st version l') ->
    let r := (let '(r, st) := rewrite_at dir_hash write_ok version now touch at_target root_id parent_dir st in
              (rw_id <$> r, st)) in
    library_ok dir_hash version (snd r) /\ st ⊆ snd r /\
    forall id, fst r = Some id -> is_Some (seaf_fs_manager_get_seafdir (snd r) version id)).
  { intros A touch at_target parent_dir Hg. cbv zeta.
    destruct (rewrite_path_library touch at_target write_ok _ root_id st Hl Hg) as (L & S & I).
    unfold rewrite_at. destruct (rewrite_path _ _ _ _ _ _ _ _ _) as [o' st']. cbn in *.
    split_and!; [done|done|]. intros id. destruct o' as [x|]; [|done]. intros [= <-]. by apply I. }
  destruct o as [pd rep e|pd user rep es|pd e|pd names|pd old new]; cbn [run_op op_ok] in *.
  - apply Hgen. intros l l' a _ Ht Hs Hr. by eapply post_target_ok.
  - apply Hgen. intros l l' a _ Ht Hs Hr. by eapply post_multi_target_ok.
  - apply Hgen. intros l l' a _ Ht Hs Hr. injection Ht as <- _. by apply replace_dent_ok.
  - apply Hgen. intros l l' a _ Ht Hs Hr. by eapply del_target_ok.
  - apply Hgen. intros l l' a Hre Ht Hs Hr. eapply rename_target_ok; [by apply Ho|done..].
Qed.

(** The states of a library: any sequence of operations, each with its own
    failing writes, the root moving on when an operation succeeds. *)
Inductive reachable (root0 : string) (st0 : fs_store) : string -> fs_store -> Prop :=
| reach_start : reachable root0 st0 root0 st0
| reach_op root st o write_ok :
    reachable root0 st0 root st -> op_ok st root o ->
    reachable root0 st0 (default root (fst (run_op write_ok o root st))) (snd (run_op write_ok o root st)).

(** C27: every state a library reaches by the operations, whatever writes fail, is
    well formed: strictly sorted directories, every listed directory readable,
    every object under its id; the root can be read and no object is lost. *)
Theorem operations_keep_library root0 st0 root st :
  library_ok dir_hash version st0 -> is_Some (seaf_fs_manager_get_seafdir st0 version root0) ->
  reachable root0 st0 root st ->
  library_ok dir_hash version st /\ is_Some (seaf_fs_manager_get_seafdir st version root) /\ st0 ⊆ st.
Proof.
  intros Hl H0. induction 1 as [|root st o write_ok _ (L & [d Hd] & S) Ho]; [by split_and!|].
  destruct (run_op_library write_ok o root st L Ho) as (L' & S' & I').
  split_and!; [done| |by trans st]. destruct (fst (run_op write_ok o root st)) as [id|]; [by apply I'|].
  exists d. cbn. by eapply get_seafdir_mono.
Qed.

(** whatever writes fail, an operation leaves every stored object in place,
    and either fails or has the outcome it has when no write fails. *)
Theorem rewrite_at_atomic {A} touch (at_target : list SeafDirent -> target A) write_ok root_id parent_dir st :
  st ⊆ snd (rewrite_at dir_hash write_ok version now touch at_target root_id parent_dir st) /\
  (fst (rewrite_at dir_hash write_ok version now touch at_target root_id parent_dir st) = None \/
   rewrite_at dir_hash write_ok version now touch at_target root_id parent_dir st
   = rewrite_at dir_hash always version now touch at_target root_id parent_dir st).
Proof. apply rewrite_path_fails. Qed.

End operations.

(** the name chosen for a posted file is the first free one of the name and
    its numbered variants (1) to (999); without one the post fails. *)
Theorem unique_filename_first_free file l :
  match generate_unique_filename file l with
  | Some u => exists k, (k < 1000)%nat /\ u = candidate file k /\
      lookup_name u l = None /\ forall j, (j < k)%nat -> is_Some (lookup_name (candidate file j) l)
  | None => forall j, (j < 1000)%nat -> is_Some (lookup_name (candidate file j) l)
  end.
Proof.
  assert (Hex : forall nm, filename_exists l nm = true -> is_Some (lookup_name nm l)).
  { intros nm. rewrite filename_exists_lookup. by destruct (lookup_name nm l). }
  pose proof (generate_unique_filename_spec file l) as H.
  destruct (generate_unique_filename file l) as [u|] eqn:Eu.
  - destruct H as (k & Hk & -> & _ & Hj). exists k. split_and!; [done|done| |auto].
    by eapply generate_unique_filename_fresh.
  - auto.
Qed.

(** ** An empty file taken for a directory *)

Lemma strchr_parts_name s : has_slash s = false -> s <> EmptyString -> strchr_parts (skip_slash s) = [s].
Proof.
  intros H Hne. assert (skip_slash s = s) as ->.
  { destruct s as [|c s]; [done|]. cbn in H |- *. by destruct (is_slash c). }
  induction s as [|c s IH]; [done|]. cbn [has_slash] in H. apply orb_false_iff in H as [Hc Hs].
  cbn [strchr_parts]. rewrite Hc. destruct s as [|c' s]; [done|]. by rewrite (IH Hs).
Qed.

Lemma save_new_dir_stored dir_hash version st l :
  library_ok dir_hash version st -> collision_free dir_hash version -> sorted_entries l ->
  readable_list st version l -> l <> [] ->
  exists id st', save_new_dir dir_hash (fun _ => true) version st l = (Some id, st') /\ st ⊆ st' /\
    library_ok dir_hash version st' /\ id <> EMPTY_SHA1 /\ exists m, st' !! id = Some (ODir m) /\ entries m = l.
Proof.
  intros Hl Hcf Hs Hr Hne.
  destruct (save_new_dir_ok dir_hash version Hcf st l Hl Hs Hr) as (id & st' & m & E & Hsub & Hl' & Hm & Em).
  exists id, st'. unfold seaf_fs_manager_get_seafdir in Hm.
  destruct (String.eqb_spec id EMPTY_SHA1) as [->|Hid].
  { injection Hm as <-. by destruct Hne. }
  destruct (st' !! id) as [[d|f]|] eqn:Ed; [|done..]. injection Hm as <-. cbn in Em.
  split_and!; [done|done|done|done|]. by exists d.
Qed.

(** the operations do not test that the components of the parent path are
    directories; the id of an empty file is that of the empty directory, so a file
    can be posted into an empty file, whose entry then names a directory object
    and can no longer be read. *)
Theorem post_into_empty_file dir_hash version now st root_id dir d e :
  collision_free dir_hash version -> library_ok dir_hash version st ->
  seaf_fs_manager_get_seafdir st version root_id = Some dir ->
  lookup_name (d_name d) (entries dir) = Some d ->
  S_ISREG (d_mode d) = true -> d_id d = EMPTY_SHA1 -> storable version st e ->
  has_slash (d_name d) = false -> d_name d <> EmptyString ->
  exists root' st' dir' d',
    do_post_file dir_hash (fun _ => true) version now root_id (d_name d) e st
    = (Some (mkRewritten root' true (d_name e)), st') /\
    seaf_fs_manager_get_seafdir st' version root' = Some dir' /\
    lookup_name (d_name d) (entries dir') = Some d' /\
    S_ISREG (d_mode d') = true /\ seaf_fs_manager_get_seafile st' (d_id d') = None.
Proof.
  intros Hcf Hl Hdir Hd Hreg Hempty He Hsl Hnn. pose proof (lib_tidy _ _ _ Hl) as Ht.
  pose proof (tidy_sorted _ _ Ht _ _ Hdir) as Hs.
  unfold do_post_file, do_post_file_replace, rewrite_at. rewrite strchr_parts_name by done.
  cbn [rewrite_path]. rewrite (get_sorted version _ _ Ht), Hdir, find_dirent_lookup, Hd, Hempty.
  rewrite (get_sorted version _ _ Ht), get_empty.
  cbn [entries post_target andb].
  assert (generate_unique_filename (d_name e) [] = Some (d_name e)) as ->.
  { unfold generate_unique_filename. by destruct (split_filename (d_name e)). }
  cbn [insert_dirent]. fold (posted e (d_name e)).
  destruct (save_new_dir_stored dir_hash version st [posted e (d_name e)] Hl Hcf)
    as (id1 & st1 & E1 & Hsub1 & Hl1 & Hne1 & m1 & Hm1 & _); [repeat constructor| |done|].
  { intros x ->%list_elem_of_singleton. by apply storable_dirent_new. }
  rewrite E1. cbn.
  destruct (save_new_dir_ok dir_hash version Hcf st1
    (update_dent (d_name d) (new_child version now true id1) (entries dir)))
    as (id2 & st2 & m2 & E2 & Hsub2 & Hl2 & Hm2 & Em2); [done|..].
  { apply (sorted_same_names (entries dir)); [|done]. by rewrite update_dent_names by apply d_name_new_child. }
  { apply (readable_update version st); [done|intros x Hx; by apply (tidy_closed _ _ Ht _ _ _ Hdir)|].
    intros d0 Hd0. rewrite d_mode_new_child. rewrite Hd in Hd0. injection Hd0 as <-.
    by rewrite (S_ISREG_not_DIR _ Hreg). }
  rewrite E2. exists id2, st2, m2, (new_child version now true id1 d). split_and!; [done|done|..].
  - rewrite Em2, lookup_update_dent by apply d_name_new_child. by rewrite String.eqb_refl, Hd.
  - by rewrite d_mode_new_child.
  - rewrite d_id_new_child. unfold seaf_fs_manager_get_seafile.
    rewrite (proj2 (String.eqb_neq _ _) Hne1). by rewrite (lookup_weaken _ _ _ _ Hm1 Hsub2).
Qed.

(** the name numbered 1000 is generated and then thrown away. *)
Theorem last_numbered_name_unused file l :
  (forall j, (j < DUPLICATE_NAMES_COUNT)%nat -> filename_exists l (candidate file j) = true) ->
  generate_unique_filename file l = None.
Proof.
  intros H. pose proof (generate_unique_filename_spec file l) as S.
  destruct (generate_unique_filename file l) as [u|]; [|done]. destruct S as (k & Hk & -> & Hu & _).
  rewrite (H k Hk) in Hu. done.
Qed.

(** ** Witnesses *)

Definition sub_entries : list SeafDirent := [toy_dirent 0x8000 EMPTY_SHA1 "f.txt"].
Definition root_entries : list SeafDirent :=
  [toy_dirent 0x4000 (toy_hash 1 sub_entries) "sub"; toy_dirent 0x8000 EMPTY_SHA1 "a"].
Definition op_store : fs_store :=
  <[toy_hash 1 root_entries := ODir (mkDir 1 (toy_hash 1 root_entries) root_entries)]>
  (<[toy_hash 1 sub_entries := ODir (mkDir 1 (toy_hash 1 sub_entries) sub_entries)]> ∅).
Definition op_root : string := toy_hash 1 root_entries.
Definition new_file : SeafDirent := toy_dirent 0x8000 id_1 "f.txt".
Definition op_rank (id : string) : nat := if String.eqb id op_root then 1 else 0.

Lemma op_library : library_ok toy_hash 1 op_store.
Proof.
  split.
  - split; intros id; unfold op_store.
    + intros d. rewrite !lookup_insert_Some, lookup_empty.
      by intros [[<- [= <-]]|[_ [[<- [= <-]]|[_ [=]]]]].
    + intros f l. rewrite !lookup_insert_Some, lookup_empty.
      by intros [[_ [=]]|[_ [[_ [=]]|[_ [=]]]]].
  - apply (check_store_sound op_store 1 op_rank). vm_compute. reflexivity.
Qed.

Lemma op_at_sub : at_dir toy_hash 1 op_store op_root "/sub" sub_entries.
Proof. split; [apply op_library|vm_compute; reflexivity]. Qed.

Lemma op_storable : storable 1 op_store new_file.
Proof. vm_compute. discriminate. Qed.

Lemma post_file_refines_witness :
  outcome toy_hash 1 op_store
    (do_post_file toy_hash (fun _ => true) 1 7 op_root "/sub" new_file op_store) "f (1).txt"
    (put_entry 1 op_store (view_root 1 op_store op_root) ["sub"] (posted new_file "f (1).txt")).
Proof.
  apply (post_file_refines toy_hash 1 7 (toy_hash_collision_free 1) op_store op_root "/sub" sub_entries).
  - apply op_at_sub.
  - apply op_storable.
  - vm_compute. reflexivity.
Defined.

Lemma operations_keep_library_witness :
  exists root st, root <> op_root /\ reachable toy_hash 1 7 op_root op_store root st /\
    library_ok toy_hash 1 st /\ is_Some (seaf_fs_manager_get_seafdir st 1 root) /\ op_store ⊆ st.
Proof.
  set (o := OpDel "/sub" ["f.txt"]). pose (r := run_op toy_hash 1 7 (fun _ => true) o op_root op_store).
  exists (default op_root (fst r)), (snd r).
  assert (Hre : reachable toy_hash 1 7 op_root op_store (default op_root (fst r)) (snd r)).
  { by apply reach_op; [apply reach_start|]. }
  split; [vm_compute; discriminate|]. split; [exact Hre|].
  apply (operations_keep_library toy_hash 1 7 (toy_hash_collision_free 1) op_root op_store).
  - apply op_library.
  - vm_compute. eexists. reflexivity.
  - exact Hre.
Defined.

Lemma post_file_replaces_witness :
  outcome toy_hash 1 op_store
    (do_post_file_replace toy_hash (fun _ => true) 1 7 op_root "/sub" true new_file op_store) "f.txt"
    (put_entry 1 op_store (view_root 1 op_store op_root) ["sub"] new_file).
Proof.
  apply (post_file_replaces toy_hash 1 7 (toy_hash_collision_free 1) op_store op_root "/sub" sub_entries
    new_file (toy_dirent 0x8000 EMPTY_SHA1 "f.txt")).
  - apply op_at_sub.
  - apply op_storable.
  - reflexivity.
Defined.

Lemma put_file_refines_witness :
  outcome toy_hash 1 op_store
    (do_put_file toy_hash (fun _ => true) 1 7 op_root "/sub" new_file op_store) tt
    (put_entry 1 op_store (view_root 1 op_store op_root) ["sub"] new_file).
Proof.
  apply (put_file_refines toy_hash 1 7 (toy_hash_collision_free 1) op_store op_root "/sub" sub_entries
    new_file (toy_dirent 0x8000 EMPTY_SHA1 "f.txt")).
  - apply op_at_sub.
  - apply op_storable.
  - reflexivity.
Defined.

Lemma post_multi_files_refines_witness :
  length ["f (1).txt"; "f (2).txt"] = 2%nat /\
  outcome toy_hash 1 op_store
    (post_multi_files toy_hash (fun _ => true) 1 7 op_root "/sub" "me" false [new_file; new_file] op_store)
    ["f (1).txt"; "f (2).txt"]
    (foldl (fun v e => put_entry 1 op_store v ["sub"] e) (view_root 1 op_store op_root)
       [new_entry 1 "me" new_file "f (1).txt"; new_entry 1 "me" new_file "f (2).txt"]).
Proof.
  refine (post_multi_files_refines toy_hash 1 7 (toy_hash_collision_free 1) op_store op_root "/sub" sub_entries
    "me" false [new_file; new_file] _ ["f (1).txt"; "f (2).txt"] op_at_sub _ _).
  - repeat constructor; apply op_storable.
  - vm_compute. reflexivity.
Defined.

Lemma del_file_refines_witness :
  exists a, deleted_num a = 1 /\ desc_file a = Some "f.txt" /\
    outcome toy_hash 1 op_store
      (do_del_file toy_hash (fun _ => true) 1 7 op_root "/sub" ["f.txt"; "g"] op_store) a
      (remove_names (view_root 1 op_store op_root) ["sub"] ["f.txt"; "g"]).
Proof.
  exact (del_file_refines toy_hash 1 7 (toy_hash_collision_free 1) op_store op_root "/sub" sub_entries
    ["f.txt"; "g"] op_at_sub ltac:(discriminate)).
Defined.

Lemma rename_file_refines_witness :
  outcome toy_hash 1 op_store
    (do_rename_file toy_hash (fun _ => true) 1 7 op_root "/sub" "f.txt" "g.txt" op_store) tt
    (move_entry (view_root 1 op_store op_root) ["sub"] "f.txt"
       (renamed_entry "g.txt" (toy_dirent 0x8000 EMPTY_SHA1 "f.txt"))).
Proof.
  apply (rename_file_refines toy_hash 1 7 (toy_hash_collision_free 1) op_store op_root "/sub" sub_entries
    "f.txt" "g.txt" (toy_dirent 0x8000 EMPTY_SHA1 "f.txt")).
  - apply op_at_sub.
  - reflexivity.
  - discriminate.
  - reflexivity.
Defined.

Lemma post_into_empty_file_witness :
  exists root' st' dir' d',
    do_post_file toy_hash (fun _ => true) 1 7 op_root "a" new_file op_store
    = (Some (mkRewritten root' true "f.txt"), st') /\
    seaf_fs_manager_get_seafdir st' 1 root' = Some dir' /\
    lookup_name "a" (entries dir') = Some d' /\
    S_ISREG (d_mode d') = true /\ seaf_fs_manager_get_seafile st' (d_id d') = None.
Proof.
  apply (post_into_empty_file toy_hash 1 7 op_store op_root (mkDir 1 op_root root_entries)
    (toy_dirent 0x8000 EMPTY_SHA1 "a") new_file).
  - apply toy_hash_collision_free.
  - apply op_library.
  - vm_compute. reflexivity.
  - reflexivity.
  - reflexivity.
  - reflexivity.
  - apply op_storable.
  - reflexivity.
  - discriminate.
Defined.

Definition numbered_entries : list SeafDirent := (fun i => toy_dirent 0x8000 id_1 (candidate "f" i)) <$> seq 0 1000.

Lemma last_numbered_name_unused_witness :
  filename_exists numbered_entries (candidate "f" 1000) = false /\
  generate_unique_filename "f" numbered_entries = None.
Proof.
  split; [vm_compute; reflexivity|]. apply last_numbered_name_unused. intros j Hj.
  unfold filename_exists. apply existsb_exists. exists (toy_dirent 0x8000 id_1 (candidate "f" j)). split.
  - apply (in_map (fun i => toy_dirent 0x8000 id_1 (candidate "f" i))), in_seq. unfold DUPLICATE_NAMES_COUNT in Hj. lia.
  - apply Z.eqb_eq. apply strcmp_eq. reflexivity.
Defined.
