(* ===== verification/LibView.v ===== *)
(** * Lemmas on the view of a library

    Directories in the view, entries put one after the other, operations whose writes
    may fail. *)

From S2P Require Import Prelude Hex Paths FsObj FsMgr Walk Merge RepoOp RepoOpProof.

Lemma string_prefix_iff a : forall b, String.prefix a b = true <-> exists r, b = a +:+ r.
Proof.
  induction a as [|c a IH]; intros b.
  - split; [|by destruct b]. intros _. by exists b.
  - destruct b as [|d b]; [by split; [|intros [r [=]]]|]. cbn [String.prefix]. destruct (Ascii.ascii_dec c d) as [->|Hne].
    + rewrite IH. change (String d a +:+ ?r) with (String d (a +:+ r)). split; intros [r Hr]; exists r; congruence.
    + split; [done|]. intros [r Hr]. change (String c a +:+ r) with (String c (a +:+ r)) in Hr. congruence.
Qed.

(** ** Directories in the view *)

Section dirs.
Context (version : Z).

(** A path names a directory. *)
Definition is_dir_at (st : fs_store) (root : string) (parts : list string) : Prop :=
  is_Some (seaf_fs_manager_get_seafdir st version root) /\
  match parts with [] => True | _ => exists e, view_root version st root parts = Some e /\ S_ISDIR (d_mode e) = true end.

Lemma attr_mode e : d_mode (attr e) = d_mode e.
Proof. unfold attr. by destruct (S_ISDIR (d_mode e)). Qed.

Lemma entries_at_is_dir st parts : forall root,
  tidy st version -> is_Some (entries_at version st root parts) <-> is_dir_at st root parts.
Proof.
  induction parts as [|x parts IH]; intros root Ht; unfold is_dir_at; cbn [entries_at].
  - destruct (seaf_fs_manager_get_seafdir st version root) eqn:E; cbn; naive_solver.
  - destruct (seaf_fs_manager_get_seafdir st version root) as [dir|] eqn:E; cbn [mbind option_bind]; [|naive_solver].
    unfold view_root. rewrite E. cbn [mbind option_bind view].
    destruct (lookup_name x (entries dir)) as [d|] eqn:Ed; cbn [mbind option_bind]; [|naive_solver].
    destruct (S_ISDIR (d_mode d)) eqn:Hd.
    + rewrite (IH (d_id d) Ht). unfold is_dir_at, view_root. apply lookup_name_Some in Ed as [Hin _].
      destruct (tidy_closed _ _ Ht _ _ _ E Hin Hd) as [sub Hs]. rewrite Hs. cbn [mbind option_bind].
      destruct parts; [|naive_solver]. split; intros _; [|done]. split; [done|]. exists (attr d). by rewrite attr_mode.
    + split; [by intros [? ?]|]. intros (_ & e & He & Hde). destruct parts; [|done].
      injection He as <-. rewrite attr_mode in Hde. congruence.
Qed.

Lemma view_dir_parts st root parts l name rest :
  entries_at version st root parts = Some l ->
  view_root version st root (parts ++ name :: rest) = view version st l (name :: rest).
Proof. intros H. eapply view_entries_at; [done|]. by apply below_Some. Qed.

Lemma view_absent st l name rest : lookup_name name l = None -> view version st l (name :: rest) = None.
Proof. intros H. cbn [view]. by rewrite H. Qed.
End dirs.

(** ** Looking names up *)

Lemma find_dir_lookup name l :
  sorted_entries l ->
  find_dirent (fun d => (strcmp (d_name d) name =? 0) && S_ISDIR (d_mode d)) l =
  match lookup_name name l with Some d => if S_ISDIR (d_mode d) then Some d else None | None => None end.
Proof.
  induction 1 as [|d l Hs IH Hall]; [done|]. unfold find_dirent in *. cbn [List.find]. rewrite lookup_name_cons, strcmp_name.
  destruct (String.eqb_spec name (d_name d)) as [->|Hne]; cbn [andb]; [|done].
  destruct (S_ISDIR (d_mode d)); [done|]. rewrite IH.
  assert (Hn : lookup_name (d_name d) l = None).
  { apply lookup_name_None. intros x Hx Ex. rewrite Forall_forall in Hall. specialize (Hall x Hx). rewrite Ex in Hall.
    by apply gt_name_irrefl in Hall. }
  by rewrite Hn.
Qed.

(** [check_file_exists] is a lookup in the view. *)
Lemma walk_path_view version st names name : forall dir,
  tidy st version -> sorted_entries (entries dir) ->
  (match walk_path st version dir names with
   | inl _ => None
   | inr d => d_mode <$> find_dirent (fun d => strcmp (d_name d) name =? 0) (entries d)
   end) = d_mode <$> view version st (entries dir) (names ++ [name]).
Proof.
  induction names as [|x names IH]; intros dir Ht Hs; cbn [walk_path app view].
  - rewrite find_dirent_lookup. destruct (lookup_name name (entries dir)) as [d|]; [|done]. cbn. by rewrite attr_mode.
  - rewrite find_dir_lookup by done. destruct (lookup_name x (entries dir)) as [d|]; [|done]. cbn [mbind option_bind].
    destruct (S_ISDIR (d_mode d)); [|by destruct names].
    destruct (seaf_fs_manager_get_seafdir st version (d_id d)) as [sub|] eqn:Hd; [|by destruct names].
    rewrite IH by (done || by eapply tidy_sorted). by destruct names.
Qed.

Lemma check_file_exists_view version st root path name :
  tidy st version ->
  check_file_exists version st root path name = d_mode <$> view_root version st root (components path ++ [name]).
Proof.
  intros Ht. unfold check_file_exists, seaf_fs_manager_get_seafdir_by_path, view_root.
  destruct (seaf_fs_manager_get_seafdir st version root) as [dir|] eqn:Hd; [|done]. cbn [mbind option_bind].
  rewrite <- walk_path_view by (done || by eapply tidy_sorted). by destruct (walk_path _ _ _ _).
Qed.

(** A free name is given as it is. *)
Lemma unique_filename_free name l : lookup_name name l = None -> generate_unique_filename name l = Some name.
Proof.
  intros Hn. assert (He : filename_exists l name = false) by (rewrite filename_exists_lookup; by rewrite Hn).
  unfold generate_unique_filename. destruct (split_filename name). cbn [unique_loop DUPLICATE_NAMES_COUNT]. by rewrite He.
Qed.

(** ** Names of the entries that are put *)

(** [u] is the first of [file] and its numbered variants that is neither the name of an
    entry nor one of the names given earlier. *)
Definition first_free (l : list SeafDirent) (earlier : list string) (file u : string) : Prop :=
  exists k, (k < 1000)%nat /\ u = candidate file k /\ lookup_name u l = None /\ u ∉ earlier /\
    forall j, (j < k)%nat -> is_Some (lookup_name (candidate file j) l) \/ candidate file j ∈ earlier.

Lemma generate_first_free file l u : generate_unique_filename file l = Some u -> first_free l [] file u.
Proof.
  intros E. pose proof (unique_filename_first_free file l) as H. rewrite E in H.
  destruct H as (k & Hk & Hu & Hn & Hj). exists k. split_and!; [done..|by intros ?%not_elem_of_nil|auto].
Qed.

(** An entry that was added counts as a name given earlier. *)
Lemma first_free_added l l1 u e earlier file v :
  (forall nm, lookup_name nm l1 = if String.eqb nm u then Some e else lookup_name nm l) ->
  first_free l1 earlier file v -> first_free l (u :: earlier) file v.
Proof.
  intros Hl (k & Hk & Hv & Hn & He & Hj). rewrite Hl in Hn.
  destruct (String.eqb_spec v u) as [|Hvu]; [done|]. exists k. split_and!; [done..| |].
  - by intros [|]%elem_of_cons.
  - intros j Hjk. destruct (Hj j Hjk) as [Hs|Hin]; [|right; by right]. rewrite Hl in Hs.
    destruct (String.eqb_spec (candidate file j) u) as [->|]; [right; by left|by left].
Qed.

(** Without replacement every entry gets the first free name there is for it. *)
Lemma add_new_entries_free version user dents : forall l names l' names',
  add_new_entries version user false dents l names = Some (l', names') -> sorted_entries l ->
  exists added, names' = names ++ added /\
    forall i d u, dents !! i = Some d -> added !! i = Some u -> first_free l (take i added) (d_name d) u.
Proof.
  induction dents as [|d dents IH]; intros l names l' names' E Hs; cbn [add_new_entries] in E.
  - injection E as <- <-. exists []. by rewrite app_nil_r.
  - destruct (add_new_entry version user false d l) as [[l1 u]|] eqn:E1; [|done]. cbn [mbind option_bind] in E.
    destruct (add_new_entry_puts _ _ _ _ _ _ _ E1 Hs) as (Hs1 & _ & Hl & _ & _).
    destruct (IH _ _ _ _ E Hs1) as (added & -> & Hf). exists (u :: added).
    split; [by rewrite <- app_assoc|]. intros [|i] d' u' Hd Hu; cbn in Hd, Hu.
    + injection Hd as <-. injection Hu as <-. rewrite add_new_entry_unfold in E1.
      destruct (generate_unique_filename (d_name d) l) as [u'|] eqn:Eu; [|done]. cbn in E1. injection E1 as _ <-.
      by apply generate_first_free.
    + cbn [take]. eapply first_free_added; [exact Hl|]. by apply Hf.
Qed.

(** These names are free and distinct. *)
Lemma first_free_fresh l names (files : list string) :
  length files = length names ->
  (forall i w u, files !! i = Some w -> names !! i = Some u -> first_free l (take i names) w u) ->
  NoDup names /\ Forall (fun u => lookup_name u l = None) names.
Proof.
  intros Hlen H.
  assert (Hat : forall i u, names !! i = Some u -> exists w, first_free l (take i names) w u).
  { intros i u Hu. destruct (lookup_lt_is_Some_2 files i) as [w Hw]; [apply lookup_lt_Some in Hu; lia|].
    exists w. by apply H. }
  split.
  - apply NoDup_alt. intros i j u Hi Hj.
    assert (Hlt : forall i j, names !! i = Some u -> names !! j = Some u -> ~ (i < j)%nat).
    { clear i j Hi Hj. intros i j Hi Hj Hij. destruct (Hat j u Hj) as (w & k & _ & _ & _ & Hno & _). apply Hno.
      apply list_elem_of_lookup. exists i. by rewrite lookup_take_lt. }
    pose proof (Hlt i j Hi Hj). pose proof (Hlt j i Hj Hi). lia.
  - apply Forall_lookup. intros i u Hu. destruct (Hat i u Hu) as (w & k & _ & _ & Hn & _). done.
Qed.

Section put.
Context (version : Z) (st : fs_store) (parts : list string).
Abbreviation put_all := (foldl (fun v e => put_entry version st v parts e)).

(** Entries with names of their own, put one after the other. *)
Lemma put_all_other es : forall v u rest, u ∉ d_name <$> es -> put_all v es (parts ++ u :: rest) = v (parts ++ u :: rest).
Proof.
  induction es as [|e es IH]; intros v u rest Hu; [done|]. cbn [foldl]. apply not_elem_of_cons in Hu as [Hne Hu].
  rewrite IH by done. unfold put_entry. rewrite (proj2 (below_Some _ _ (u :: rest)) eq_refl).
  by rewrite (proj2 (String.eqb_neq _ _) Hne).
Qed.

Lemma put_all_at es : forall v e rest,
  NoDup (d_name <$> es) -> e ∈ es -> put_all v es (parts ++ d_name e :: rest) = view version st [e] (d_name e :: rest).
Proof.
  induction es as [|x es IH]; intros v e rest Hnd He; [by apply elem_of_nil in He|].
  apply NoDup_cons in Hnd as [Hx Hnd]. cbn [foldl]. apply elem_of_cons in He as [->|He]; [|by apply IH].
  rewrite put_all_other by done. unfold put_entry. rewrite (proj2 (below_Some _ _ (d_name x :: rest)) eq_refl).
  by rewrite String.eqb_refl.
Qed.

Lemma put_all_outside es v path :
  (forall u rest, path = parts ++ u :: rest -> u ∉ d_name <$> es) -> put_all v es path = v path.
Proof.
  intros H. destruct (below parts path) as [[|u rest]|] eqn:E.
  - apply foldl_put_above. intros n r. by rewrite E.
  - pose proof E as ->%below_Some. by apply put_all_other, (H u rest).
  - apply foldl_put_above. intros n r. by rewrite E.
Qed.
End put.

(** ** Operations *)

Lemma app_cons_cases {A} (u n : A) (rest rest' : list A) : forall dst src,
  dst ++ u :: rest = src ++ n :: rest' ->
  (exists q, dst = src ++ n :: q) \/ (dst = src /\ u = n) \/ (exists q, src = dst ++ u :: q).
Proof.
  induction dst as [|x dst IH]; intros [|y src] E; cbn in E; injection E as -> E; [by right; left| |by left; eexists|].
  - right. right. by exists src.
  - destruct (IH src E) as [[q ->]|[[-> ->]|[q ->]]]; [left|right; left|right; right]; [by exists q|done|by exists q].
Qed.

Section ops.
Context (dir_hash : Z -> list SeafDirent -> string) (version : Z) (Hcf : collision_free dir_hash version).
Abbreviation parts_of path := (strchr_parts (skip_slash path)).

(** Deleting names, whether or not they are there. *)
Lemma del_file_view now st root_id parent_dir l names :
  at_dir dir_hash version st root_id parent_dir l -> names <> [] ->
  exists r st', do_del_file dir_hash (fun _ => true) version now root_id parent_dir names st = (Some r, st') /\
    st ⊆ st' /\ library_ok dir_hash version st' /\
    forall path, view_root version st' (rw_id r) path =
      remove_names (view_root version st root_id) (parts_of parent_dir) names path.
Proof.
  intros Hat Hne. pose proof (del_file_refines dir_hash version now Hcf st root_id parent_dir l names Hat Hne) as H.
  destruct (gone names l) as [|d ds] eqn:Eg.
  - eexists _, st. split; [exact H|]. split; [done|]. split; [apply Hat|]. intros path. cbn [rw_id].
    unfold remove_names. destruct (below _ path) as [[|n rest]|] eqn:E; try done. case_bool_decide as Hin; [|done].
    apply below_Some in E as ->. rewrite (view_dir_parts _ _ _ _ l) by apply Hat. apply view_absent.
    apply lookup_name_None. intros x Hx <-. assert (Hg : x ∈ gone names l) by by apply list_elem_of_filter.
    rewrite Eg in Hg. by apply elem_of_nil in Hg.
  - destruct H as (a & _ & _ & root' & st' & E & Hs & Hl & Hv). by exists (mkRewritten root' true a), st'.
Qed.

(** Nothing is below a name that is free. *)
Lemma view_prefix_dir st root parts ld u q ls :
  entries_at version st root (parts ++ u :: q) = Some ls -> entries_at version st root parts = Some ld ->
  lookup_name u ld <> None.
Proof.
  revert root. induction parts as [|x parts IH]; intros root; cbn [app entries_at].
  - destruct (seaf_fs_manager_get_seafdir st version root) as [dir|]; [|done]. cbn [mbind option_bind].
    intros H [= <-] Hn. by rewrite Hn in H.
  - destruct (seaf_fs_manager_get_seafdir st version root) as [dir|]; [|done]. cbn [mbind option_bind].
    destruct (lookup_name x (entries dir)) as [d|]; [|done]. cbn [mbind option_bind].
    destruct (S_ISDIR (d_mode d)); [apply IH|done].
Qed.

(** Writes that fail make an operation fail, or have no effect on it. *)
Lemma rewrite_at_done {A} now touch (at_target : list SeafDirent -> target A) write_ok root_id parent_dir st r st' :
  rewrite_at dir_hash write_ok version now touch at_target root_id parent_dir st = (Some r, st') ->
  rewrite_at dir_hash (fun _ => true) version now touch at_target root_id parent_dir st = (Some r, st').
Proof.
  unfold rewrite_at. intros E.
  destruct (proj2 (rewrite_path_fails dir_hash version now touch at_target write_ok (parts_of parent_dir) root_id st))
    as [H|H]; rewrite E in H; [done|]. by rewrite <- H.
Qed.
End ops.
