(* ===== verification/Repo.v ===== *)
(** * Libraries in the database ([server/repo-mgr.c], [common/branch-mgr.c])

    The rows a library is loaded from, the record [SeafRepo], the metadata it
    takes from its head commit and hands to new commits, and the branch rows. *)

From S2P Require Import Prelude Hex FsObj Paths CommitMgr.

Inductive db_type := SEAF_DB_TYPE_SQLITE | SEAF_DB_TYPE_MYSQL | SEAF_DB_TYPE_PGSQL.
#[global] Instance db_type_eq_dec : EqDecision db_type.
Proof. solve_decision. Defined.

(** A row of [VirtualRepo]. *)
Record SeafVirtRepo := mkVirt {
  v_origin_repo_id : string;
  v_path : string;
  v_base_commit : string
}.

(** A row of [RepoInfo]. *)
Record RepoInfo := mkRepoInfo {
  ri_name : option string;
  ri_update_time : Z;
  ri_version : Z;
  ri_encrypted : bool;
  ri_last_modifier : option string;
  ri_status : Z
}.

(** A row of [cf_dir_acl]: its path, and the six columns read for the proof,
    [None] where NULL. *)
Record AclRow := mkAclRow { acl_path : string; acl_columns : list (option string) }.

(** The tables, by their keys; the rows of [cf_dir_acl] of a library in the order
    of the key; of [cf_edit_guard] the paths of the active rows. *)
Record Db := mkDb {
  t_Repo : gset string;
  t_Branch : gmap (string * string) string;
  t_VirtualRepo : gmap string SeafVirtRepo;
  t_GCID : gmap string string;
  t_RepoInfo : gmap string RepoInfo;
  t_cf_dir_acl : gmap string (list AclRow);
  t_cf_edit_guard : option (gmap string (list (option string)))
}.

(** ** Branches *)

Record SeafBranch := mkBranch { b_name : string; b_repo_id : string; b_commit_id : string }.

Definition seaf_branch_new (name repo_id commit_id : string) : SeafBranch :=
  mkBranch name (string_take 36 repo_id) (string_take 40 commit_id).

Definition seaf_branch_set_commit (b : SeafBranch) (commit_id : string) : SeafBranch :=
  mkBranch (b_name b) (b_repo_id b) (string_take 40 commit_id).

(** [seaf_branch_manager_get_branch]: an empty commit id counts as no row. *)
Definition real_get_branch (db : Db) (repo_id name : string) : option SeafBranch :=
  match t_Branch db !! (name, repo_id) with
  | None | Some EmptyString => None
  | Some id => Some (seaf_branch_new name repo_id id)
  end.

Definition seaf_branch_manager_get_branch (db : Db) (repo_id name : string) : option SeafBranch :=
  if strcmp name "fetch_head" =? 0 then real_get_branch db repo_id "master"
  else real_get_branch db repo_id name.

Definition seaf_branch_manager_branch_exists (db : Db) (repo_id name : string) : bool :=
  match t_Branch db !! (name, repo_id) with Some _ => true | None => false end.

Definition set_branch (db : Db) (name repo_id commit_id : string) : Db :=
  mkDb (t_Repo db) (<[(name, repo_id) := commit_id]> (t_Branch db)) (t_VirtualRepo db) (t_GCID db)
    (t_RepoInfo db) (t_cf_dir_acl db) (t_cf_edit_guard db).

(** ** Loading a library *)

Record SeafRepo := mkRepo {
  r_id : string;
  r_store_id : string;
  r_virtual : option SeafVirtRepo;
  r_head : SeafBranch;
  r_root_id : string;
  r_name : option string;
  r_desc : option string;
  r_last_modifier : option string;
  r_last_modify : Z;
  r_encrypted : bool;
  r_enc_version : Z;
  r_magic : string;
  r_random_key : string;
  r_salt : string;
  r_pwd_hash : string;
  r_pwd_hash_algo : option string;
  r_pwd_hash_params : option string;
  r_no_local_history : bool;
  r_repaired : bool;
  r_version : Z;
  r_status : Z
}.

Definition text (o : option string) : string := match o with Some s => s | None => EmptyString end.
Definition is_none {A} (o : option A) : bool := match o with None => true | Some _ => false end.

(** [create_repo_fill_size]: the library of the joined rows; [None] when there is
    no [Repo] row or no [master] branch.  Only the fields the model uses of the
    rows; the metadata comes with the head commit. *)
Definition create_repo (db : Db) (id : string) : option SeafRepo :=
  if bool_decide (id ∈ t_Repo db) then
    commit_id ← t_Branch db !! ("master", id);
    let v := t_VirtualRepo db !! id in
    Some (mkRepo (string_take 36 id)
            (match v with Some v => string_take 36 (v_origin_repo_id v) | None => string_take 36 id end)
            ((fun v => mkVirt (string_take 36 (v_origin_repo_id v)) (v_path v)
                         (string_take 40 (v_base_commit v))) <$> v)
            (seaf_branch_new "master" id commit_id) EmptyString None None None 0 false 0
            EmptyString EmptyString EmptyString EmptyString None None false false 0
            (match t_RepoInfo db !! id with Some i => ri_status i | None => 0 end))
  else None.

(** [memcpy] of a fixed number of characters into zeroed memory. *)
Definition copied (n : nat) (o : option string) : string := string_take n (text o).

Definition seaf_repo_from_commit (r : SeafRepo) (c : SeafCommit) : SeafRepo :=
  let enc := encrypted c in
  let v := enc_version c in
  let no_algo := is_none (pwd_hash_algo c) in
  mkRepo (r_id r) (r_store_id r) (r_virtual r) (r_head r)
    (string_take 40 (root_id c)) (repo_name c) (repo_desc c) (creator_name c) (ctime c) enc
    (if enc then v else r_enc_version r)
    (if enc then
       if (2 <=? v) && no_algo then copied 64 (magic c)
       else if (v =? 1) && no_algo then copied 32 (magic c) else r_magic r
     else r_magic r)
    (if enc && ((v =? 2) || (v =? 3) || (v =? 4)) then copied 96 (random_key c) else r_random_key r)
    (if enc && ((v =? 3) || (v =? 4)) then copied 64 (salt c) else r_salt r)
    (if enc && negb no_algo then copied 64 (pwd_hash c) else r_pwd_hash r)
    (if enc && negb no_algo then pwd_hash_algo c else r_pwd_hash_algo r)
    (if enc && negb no_algo then pwd_hash_params c else r_pwd_hash_params r)
    (no_local_history c) (repaired c) (version c) (r_status r).

Definition seaf_repo_to_commit (r : SeafRepo) (c : SeafCommit) : SeafCommit :=
  let enc := r_encrypted r in
  let v := if enc then r_enc_version r else enc_version c in
  let no_algo := is_none (r_pwd_hash_algo r) in
  mkCommit (commit_id c) (repo_id c) (root_id c) (desc c) (creator_name c) (creator_id c) (ctime c)
    (parent_id c) (second_parent_id c) (r_name r) (r_desc r) (repo_category c) (device_name c)
    (client_version c) enc v
    (if enc && (((v =? 1) && no_algo) || ((2 <=? v) && no_algo)) then Some (r_magic r) else magic c)
    (if enc && ((v =? 2) || (v =? 3) || (v =? 4)) then Some (r_random_key r) else random_key c)
    (if enc && ((v =? 3) || (v =? 4)) then Some (r_salt r) else salt c)
    (if enc && negb no_algo then Some (r_pwd_hash r) else pwd_hash c)
    (if enc && negb no_algo then r_pwd_hash_algo r else pwd_hash_algo c)
    (if enc && negb no_algo then r_pwd_hash_params r else pwd_hash_params c)
    (r_no_local_history r) (r_version r) (new_merge c) (conflict c) (r_repaired r).

(** [seaf_repo_manager_get_repo]: a library whose head commit is missing is
    corrupted and not returned. *)
Definition seaf_repo_manager_get_repo (db : Db) (cs : commit_store) (id : string) : option SeafRepo :=
  if (37 <=? String.length id)%nat then None
  else
    repo ← create_repo db id;
    commit ← seaf_commit_manager_get_commit cs (b_commit_id (r_head repo));
    Some (seaf_repo_from_commit repo commit).

(** [set_repo_commit_to_db], [seaf_repo_manager_update_repo_info] (when no query
    fails): a missing commit leaves the row; the status of a row stays. *)
Definition set_repo_commit_to_db (db : Db) (now : Z) (repo_id : string) (i : RepoInfo) : Db :=
  let i := mkRepoInfo (ri_name i) (if ri_update_time i =? 0 then now else ri_update_time i) (ri_version i)
             (ri_encrypted i) (ri_last_modifier i)
             (match t_RepoInfo db !! repo_id with Some old => ri_status old | None => 0 end) in
  mkDb (t_Repo db) (t_Branch db) (t_VirtualRepo db) (t_GCID db) (<[repo_id := i]> (t_RepoInfo db))
    (t_cf_dir_acl db) (t_cf_edit_guard db).

Definition seaf_repo_manager_update_repo_info (db : Db) (cs : commit_store) (now : Z)
    (repo_id head_commit_id : string) : Db :=
  match seaf_commit_manager_get_commit cs head_commit_id with
  | None => db
  | Some head => set_repo_commit_to_db db now repo_id
      (mkRepoInfo (repo_name head) (ctime head) (version head) (encrypted head) (creator_name head) 0)
  end.

(** [seaf_repo_get_current_gc_id] *)
Definition seaf_repo_get_current_gc_id (type : db_type) (db : Db) (repo : SeafRepo) : option string :=
  if bool_decide (type = SEAF_DB_TYPE_SQLITE) then None
  else match r_virtual repo with
       | None => t_GCID db !! r_id repo
       | Some _ => t_GCID db !! r_store_id repo
       end.

(** ** The metadata passes from commit to commit *)

(** What the encryption version requires of a commit: exactly the fields it needs,
    in their lengths (as [commit_from_json_object] checks). *)
Definition has_length (n : nat) (o : option string) : Prop :=
  match o with Some s => String.length s = n | None => False end.

Record enc_ok (c : SeafCommit) : Prop := {
  eo_plain : encrypted c = false ->
    enc_version c = 0 /\ magic c = None /\ random_key c = None /\ salt c = None /\
    pwd_hash c = None /\ pwd_hash_algo c = None /\ pwd_hash_params c = None;
  eo_version : encrypted c = true -> 1 <= enc_version c <= 4;
  eo_magic : encrypted c = true ->
    if is_none (pwd_hash_algo c) then has_length (if enc_version c =? 1 then 32 else 64) (magic c)
    else magic c = None;
  eo_key : encrypted c = true ->
    if 2 <=? enc_version c then has_length 96 (random_key c) else random_key c = None;
  eo_salt : encrypted c = true ->
    if 3 <=? enc_version c then has_length 64 (salt c) else salt c = None;
  eo_pwd : encrypted c = true ->
    if is_none (pwd_hash_algo c) then pwd_hash c = None /\ pwd_hash_params c = None
    else has_length 64 (pwd_hash c)
}.

#[local] Arguments copied : simpl never.
#[local] Arguments has_length : simpl never.

Lemma copied_id n o : has_length n o -> Some (copied n o) = o.
Proof.
  destruct o as [s|]; [|done]. unfold has_length, copied, text. intros <-. by rewrite string_take_id.
Qed.

(** A commit as [seaf_commit_new] makes it. *)
Definition bare (c : SeafCommit) : Prop :=
  enc_version c = 0 /\ magic c = None /\ random_key c = None /\ salt c = None /\
  pwd_hash c = None /\ pwd_hash_algo c = None /\ pwd_hash_params c = None.

(** The fields that describe the library. *)
Definition library_fields (c : SeafCommit) :=
  (repo_name c, repo_desc c, encrypted c, enc_version c, magic c, random_key c, salt c,
   (pwd_hash c, pwd_hash_algo c, pwd_hash_params c), no_local_history c, version c, repaired c).

(** The library loaded from the database has no metadata of its own. *)
Definition blank (r : SeafRepo) : Prop := r_pwd_hash_algo r = None /\ r_pwd_hash_params r = None.

(** a new commit of a library describes the library as its head commit does:
    name, description, encryption version, keys, password hash and format version
    pass from commit to commit unchanged. *)
Theorem commit_inherits_library r head c :
  enc_ok head -> blank r -> bare c ->
  library_fields (seaf_repo_to_commit (seaf_repo_from_commit r head) c) = library_fields head.
Proof.
  intros [P V M K S W] [B1 B2] (E0 & E1 & E2 & E3 & E4 & E5 & E6).
  unfold library_fields, seaf_repo_to_commit, seaf_repo_from_commit. cbn.
  destruct (encrypted head) eqn:He; cbn [andb].
  - specialize (V eq_refl). specialize (M eq_refl). specialize (K eq_refl). specialize (S eq_refl).
    specialize (W eq_refl).
    assert (Hv : enc_version head = 1 \/ enc_version head = 2 \/ enc_version head = 3 \/ enc_version head = 4) by lia.
    destruct (pwd_hash_algo head) as [algo|] eqn:Ha; cbn [is_none] in M, W |- *;
      [|destruct W as [W1 W2]];
      destruct Hv as [Hv|[Hv|[Hv|Hv]]]; rewrite Hv in K, S |- *; try rewrite Hv in M; cbn in M, K, S |- *;
      rewrite ?B1; cbn; rewrite ?(copied_id _ _ M), ?(copied_id _ _ K), ?(copied_id _ _ S), ?(copied_id _ _ W);
      congruence.
  - destruct (P eq_refl) as (-> & -> & -> & -> & -> & -> & ->). by rewrite E0, E1, E2, E3, E4, E5, E6.
Qed.

Definition enc_commit : SeafCommit :=
  mkCommit c_1 EmptyString c_2 "d" (Some "me") EMPTY_SHA1 5 None None (Some "lib") (Some "") None None None true 2
    (Some (string_of_bytes (replicate 64 97))) (Some (string_of_bytes (replicate 96 98))) None None None None
    false 1 false false false.

Lemma commit_inherits_library_witness :
  library_fields (seaf_repo_to_commit
    (seaf_repo_from_commit
       (mkRepo EmptyString EmptyString None (mkBranch "master" EmptyString c_1) EmptyString None None None 0 false 0
          EmptyString EmptyString EmptyString EmptyString None None false false 0 0) enc_commit)
    (toy_commit c_3 9 None None)) = library_fields enc_commit.
Proof.
  apply commit_inherits_library; [|by split|by split_and!].
  split; cbn; try done; intros _; split; done.
Defined.
