(* ===== verification/CfV2Acl.v ===== *)
(** * Access rules of a library ([common/cf-v2-acl.c])

    Whether rules apply to a library or to a linked path, and the checks a change
    of a protected library sends to the Hub before it is published.  The rules are
    the rows of [cf_dir_acl]; the Hub and the UTF-8 validation are parameters. *)

From S2P Require Import Prelude Hex Paths Sql CfPath FsObj FsMgr Walk Diff CommitMgr Repo.

(** ** Canonical paths *)

Fixpoint has_double_slash (s : string) : bool :=
  match s with
  | String a (String b _ as s') => (is_slash a && is_slash b) || has_double_slash s'
  | _ => false
  end.

Fixpoint ends_with_slash (s : string) : bool :=
  match s with
  | EmptyString => false
  | String c EmptyString => is_slash c
  | String _ s => ends_with_slash s
  end.

Fixpoint has_control (s : string) : bool :=
  match s with
  | EmptyString => false
  | String c s => let n := Ascii.nat_of_ascii c in (n <? 32)%nat || (n =? 127)%nat || has_control s
  end.

Section utf8.
Context (g_utf8_validate : string -> bool).

Definition canonical (path : string) : bool :=
  match path with
  | EmptyString => false
  | String c _ =>
      if negb (is_slash c) || (4096 <? Z.of_nat (String.length path)) || negb (g_utf8_validate path)
         || has_char backslash path || has_double_slash path
         || ((1 <? String.length path)%nat && ends_with_slash path)
      then false
      else if has_control path then false
      else forallb (fun part => negb ((strcmp part "." =? 0) || (strcmp part ".." =? 0))) (pieces path)
  end.
End utf8.

(** ** Whether rules apply to a library ([cf_v2_acl_unscoped]) *)

Inductive acl_query := AScope (repo_id : string) | AOrigin | AVirtual (repo_id : string) | ALink (repo_id : string).

Section scope.
Context (dbt : db_type) (db : Db) (fails : acl_query -> bool).

Definition acl_rules (repo_id : string) : list AclRow := default [] (t_cf_dir_acl db !! repo_id).

Definition check_scope (repo_id : string) : Z :=
  if fails (AScope repo_id) then -1
  else match acl_rules repo_id with [] => 0 | _ => -2 end.

Definition check (repo_id : string) : Z :=
  if negb (bool_decide (dbt = SEAF_DB_TYPE_MYSQL)) then -1
  else
    let result := check_scope repo_id in
    if negb (result =? 0) then result
    else if fails AOrigin then -1
    else match t_VirtualRepo db !! repo_id with
         | None => result
         | Some v =>
             let origin := v_origin_repo_id v in
             if negb (String.length origin =? 36)%nat || (strcmp origin repo_id =? 0) then -1
             else check_scope origin
         end.

Definition cf_v2_acl_unscoped (repo_id : string) : Z := check repo_id.

(** ** Public links *)

Context (g_utf8_validate : string -> bool).

(** The condition of the query on a row. *)
Definition link_row (path : string) (subtree : bool) (row : AclRow) : bool :=
  sql_eq (acl_path row) "/" || sql_eq (acl_path row) path
  || sql_like (acl_path row +:+ "/%") path
  || (subtree && ((sql_eq path "/" && negb (sql_eq (acl_path row) "/"))
                  || sql_like (path +:+ "/%") (acl_path row))).

(** [g_build_filename] of two elements: one separator between them. *)
Definition g_build_filename (first second : string) : string :=
  strip_slashes first +:+ String slash (skip_run second).

(** 0: no rule intersects, 1: denied, -1: unavailable.  A library that is part of
    another one is resolved through its row; [None]: more than [fuel] libraries
    inside each other. *)
Fixpoint cf_v2_acl_public_link_scope (fuel : nat) (repo path : string) (subtree : bool) : option Z :=
  match fuel with
  | O => None
  | S fuel =>
      if negb (String.length repo =? 36)%nat || negb (canonical g_utf8_validate path) then Some 1
      else if negb (bool_decide (dbt = SEAF_DB_TYPE_MYSQL)) then Some (-1)
      else if fails (AVirtual repo) then Some (-1)
      else match t_VirtualRepo db !! repo with
           | Some info =>
               if negb (canonical g_utf8_validate (v_path info)) || (strcmp (v_origin_repo_id info) repo =? 0)
               then Some (-1)
               else
                 let mapped := match path with
                               | String c (String _ _ as rest) => g_build_filename (v_path info) rest
                               | _ => v_path info
                               end in
                 cf_v2_acl_public_link_scope fuel (v_origin_repo_id info) mapped subtree
           | None =>
               if fails (ALink repo) then Some (-1)
               else Some (if existsb (link_row path subtree) (acl_rules repo) then 1 else 0)
           end
  end.
End scope.

(** ** The check of a change before it is published *)

Inductive entry_kind := KindFile | KindDir.
Inductive acl_action := ActionRead | ActionWrite.

Record acl_check := mkCheck { ck_path : string; ck_kind : entry_kind; ck_action : acl_action }.

(** ** Requests to the Hub and its replies *)

Record acl_request := mkRequest {
  rq_repo_id : string;
  rq_username : string;
  rq_partial : bool;
  rq_checks : list acl_check
}.

#[local] Set Warnings "-register-all".

(** A parsed reply; [None]: no JSON text. *)
Inductive json :=
  | JNull | JBool (b : bool) | JInt (z : Z) | JString (s : string) | JArray (l : list json)
  | JObject (l : list (string * json)).

Definition json_object_get (v : option json) (key : string) : option json :=
  match v with
  | Some (JObject l) => snd <$> List.find (fun kv => strcmp kv.1 key =? 0) l
  | _ => None
  end.
Definition json_is_true (v : option json) : bool := match v with Some (JBool true) => true | _ => false end.
Definition json_string_value (v : option json) : option string :=
  match v with Some (JString s) => Some s | _ => None end.

(** The answer of [cf_v2_acl_check_json]: the HTTP status, -1 without one, and
    the body of the reply. *)
Definition hub_answer : Type := Z * option json.

(** The tests every reader of a reply makes. *)
Definition positive_reply (reply : option json) : bool :=
  json_is_true (json_object_get reply "allowed") &&
  bool_decide (json_string_value (json_object_get reply "contract") = Some "cf-acl-v1").

Definition authorize_change (answer : hub_answer) : bool :=
  (answer.1 =? 200) && positive_reply answer.2.

Definition scoped_entry_is_dir (de : DiffEntry) : bool :=
  match de_status de with
  | DIFF_STATUS_DIR_ADDED | DIFF_STATUS_DIR_DELETED | DIFF_STATUS_DIR_RENAMED => true
  | _ => false
  end.

Definition scoped_status_supported (de : DiffEntry) : bool :=
  match de_status de with DIFF_STATUS_UNMERGED => false | _ => true end.

(** The new name of a rename, when there is one. *)
Definition renamed_to (de : DiffEntry) : option string :=
  match de_status de, de_new_name de with
  | (DIFF_STATUS_RENAMED | DIFF_STATUS_DIR_RENAMED), Some (String c s) => Some (String c s)
  | _, _ => None
  end.

Section preflight.
Context (g_utf8_validate : string -> bool).

(** The loop over the changes; [None]: denied. *)
Fixpoint scoped_checks (changes : list DiffEntry) (checks : list acl_check) : option (list acl_check) :=
  match changes with
  | [] => Some checks
  | delta :: changes =>
      if (4096 <=? Z.of_nat (length checks)) || negb (scoped_status_supported delta) then None
      else
        let kind := if scoped_entry_is_dir delta then KindDir else KindFile in
        let path := String slash (default (de_name delta) (renamed_to delta)) in
        if negb (canonical g_utf8_validate path) then None
        else
          let checks := checks ++ [mkCheck path kind ActionWrite] in
          match renamed_to delta with
          | Some new_name =>
              if negb (strcmp (de_name delta) new_name =? 0) then
                let src := String slash (de_name delta) in
                if negb (canonical g_utf8_validate src) then None
                else scoped_checks changes (checks ++ [mkCheck src kind ActionWrite])
              else scoped_checks changes checks
          | None => scoped_checks changes checks
          end
  end.

(** The outer [option]: out of fuel. *)
Definition cf_v2_acl_preflight_scoped (fuel : nat) (db : Db) (cs : commit_store) (st : fs_store)
    (hub : acl_request -> hub_answer) (repo_id old_id new_id actor : string) : option Z :=
  match actor with
  | EmptyString => Some (-1)
  | _ =>
      match seaf_repo_manager_get_repo db cs repo_id with
      | None => Some (-1)
      | Some repo =>
          match r_virtual repo with
          | Some _ => Some (-1)
          | None =>
              match seaf_commit_manager_get_commit cs old_id, seaf_commit_manager_get_commit cs new_id with
              | Some old, Some next =>
                  match diff_commit_roots st (r_version repo) fuel (root_id old) (root_id next) [] false with
                  | None => None
                  | Some (ret, changes) =>
                      if ret <? 0 then Some (-1)
                      else match scoped_checks changes [] with
                           | None | Some [] => Some (-1)
                           | Some checks => 
                               Some (if authorize_change (hub (mkRequest repo_id actor false checks)) then 0 else -1)
                           end
                  end
              | _, _ => Some (-1)
              end
          end
      end
  end.

(** The checks an entry of a diff stands for: a write of the entry, of its kind,
    under each of its names. *)
Definition asked (delta : DiffEntry) (c : acl_check) : Prop :=
  exists name, (name = de_name delta \/ Some name = renamed_to delta) /\
    c = mkCheck (String slash name) (if scoped_entry_is_dir delta then KindDir else KindFile) ActionWrite.

(** The loop asks for these and nothing else. *)
Lemma scoped_checks_spec changes : forall acc checks,
  scoped_checks changes acc = Some checks ->
  forall c, c ∈ checks <-> c ∈ acc \/ exists delta, delta ∈ changes /\ asked delta c.
Proof.
  induction changes as [|d changes IH]; intros acc checks E; cbn [scoped_checks] in E.
  - injection E as <-. intros c. split; [by left|]. by intros [|(? & ?%not_elem_of_nil & _)].
  - destruct (_ || _); [done|]. destruct (negb (canonical _ _)); [done|].
    set (kind := if scoped_entry_is_dir d then KindDir else KindFile) in E.
    assert (Hstep : forall acc', scoped_checks changes acc' = Some checks ->
      (forall c, c ∈ acc' <-> c ∈ acc \/ asked d c) ->
      forall c, c ∈ checks <-> c ∈ acc \/ exists delta, delta ∈ d :: changes /\ asked delta c).
    { intros acc' E' Hacc c. rewrite (IH _ _ E' c), Hacc. setoid_rewrite elem_of_cons. naive_solver. }
    assert (Hask : forall c, asked d c <->
      c = mkCheck (String slash (de_name d)) kind ActionWrite \/
      exists n, renamed_to d = Some n /\ c = mkCheck (String slash n) kind ActionWrite).
    { intros c. unfold asked. fold kind. split; [|naive_solver].
      intros (n & [-> | Hn] & ->); [by left|right]. by exists n. }
    destruct (renamed_to d) as [new_name|] eqn:Er; cbn [default id] in *.
    + destruct (strcmp (de_name d) new_name =? 0) eqn:Es; cbn [negb] in E.
      * apply Z.eqb_eq, strcmp_eq in Es. apply (Hstep _ E). intros c.
        rewrite elem_of_app, list_elem_of_singleton, Hask, Es. split.
        -- intros [H | ->]; [by left|right; by left].
        -- intros [H|[-> |(n & [= <-] & ->)]]; [by left|by right|by right].
      * destruct (negb (canonical _ _)); [done|]. apply (Hstep _ E). intros c.
        rewrite !elem_of_app, !list_elem_of_singleton, Hask. split.
        -- intros [[H | ->] | ->]; [by left|right; right; by exists new_name|right; by left].
        -- intros [H|[-> |(n & [= <-] & ->)]]; [by left; left|by right|by left; right].
    + apply (Hstep _ E). intros c. rewrite elem_of_app, list_elem_of_singleton, Hask. split.
      * intros [H | ->]; [by left|right; by left].
      * intros [H|[-> |(n & [=] & _)]]; [by left|by right].
Qed.

(** What an allowed change went through. *)
Lemma preflight_allowed fuel db cs st hub repo_id old_id new_id actor r :
  cf_v2_acl_preflight_scoped fuel db cs st hub repo_id old_id new_id actor = Some r -> 0 <= r ->
  actor <> EmptyString /\ exists repo old next ret changes checks,
    seaf_repo_manager_get_repo db cs repo_id = Some repo /\ r_virtual repo = None /\
    seaf_commit_manager_get_commit cs old_id = Some old /\ seaf_commit_manager_get_commit cs new_id = Some next /\
    diff_commit_roots st (r_version repo) fuel (root_id old) (root_id next) [] false = Some (ret, changes) /\
    0 <= ret /\ scoped_checks changes [] = Some checks /\
    authorize_change (hub (mkRequest repo_id actor false checks)) = true.
Proof.
  unfold cf_v2_acl_preflight_scoped. intros E Hr. destruct actor as [|a actor]; [injection E as <-; lia|].
  split; [done|].
  destruct (seaf_repo_manager_get_repo db cs repo_id) as [repo|]; [|injection E as <-; lia].
  destruct (r_virtual repo) eqn:Ev; [injection E as <-; lia|].
  destruct (seaf_commit_manager_get_commit cs old_id) as [old|] eqn:E1; [|injection E as <-; lia].
  destruct (seaf_commit_manager_get_commit cs new_id) as [next|] eqn:E2; [|injection E as <-; lia].
  destruct (diff_commit_roots _ _ _ _ _ _ _) as [[ret changes]|] eqn:Ed; [|done].
  destruct (ret <? 0) eqn:El; [injection E as <-; lia|].
  destruct (scoped_checks changes []) as [checks|] eqn:Ec; [|injection E as <-; lia].
  exists repo, old, next, ret, changes, checks.
  destruct checks as [|c checks]; [injection E as <-; lia|].
  destruct (authorize_change _) eqn:Ea; [|injection E as <-; lia].
  split_and!; try done. lia.
Qed.
End preflight.

(** ** Canonical paths are normal forms *)

Lemma has_double_slash_app a b : has_double_slash (a +:+ b) = false -> has_double_slash b = false.
Proof.
  induction a as [|x a IH]; [done|]. change (String x a +:+ b) with (String x (a +:+ b)). intros H. apply IH.
  cbn [has_double_slash] in H. destruct (a +:+ b); [done|]. by apply orb_false_iff in H as [_ H].
Qed.

Lemma ends_with_slash_app a c b : ends_with_slash (a +:+ String c b) = ends_with_slash (String c b).
Proof.
  induction a as [|x a IH]; [done|]. change (String x a +:+ String c b) with (String x (a +:+ String c b)).
  rewrite <- IH. cbn [ends_with_slash]. by destruct a.
Qed.

Lemma rooted_normal n s :
  (String.length s <= n)%nat -> s <> EmptyString ->
  has_double_slash (String slash s) = false -> ends_with_slash (String slash s) = false ->
  String slash s = spell (components s).
Proof.
  revert s. induction n as [|n IH]; intros s Hn Hne Hd He; [destruct s; [done|simpl in Hn; lia]|].
  destruct s as [|c s]; [done|].
  assert (Hc : is_slash c = false).
  { change (has_double_slash (String slash (String c s)))
      with ((is_slash slash && is_slash c) || has_double_slash (String c s)) in Hd.
    by apply orb_false_iff in Hd as [Hd _]. }
  assert (Hskip : skip_run (String c s) = String c s) by (cbn [skip_run]; by rewrite Hc).
  pose proof (span_name_components _ _ _ Hskip) as Hs. pose proof (span_name_spec (String c s)) as Ht.
  destruct (span_name (String c s)) as [name rest]. destruct Hs as (-> & _ & Hl), Ht as (Eq & _ & [->|[r ->]]).
  - rewrite string_nil_r in Eq. cbn [spell]. change (components "") with (@nil string). cbn [spell].
    by rewrite string_nil_r, Eq.
  - rewrite Eq in Hd, He |- *. change (String slash (name +:+ String slash r)) with (String slash name +:+ String slash r) in *.
    assert (Hr : r <> EmptyString) by (intros ->; by rewrite ends_with_slash_app in He).
    cbn [spell]. rewrite components_rooted. rewrite <- (IH r); [done|simpl in Hl, Hn; lia|done| |].
    + by apply has_double_slash_app in Hd.
    + by rewrite ends_with_slash_app in He.
Qed.

Lemma canonical_parts g_utf8_validate p :
  canonical g_utf8_validate p = true ->
  g_utf8_validate p = true /\ has_char backslash p = false /\ p = absolute (components p).
Proof.
  destruct p as [|c s]; [done|]. unfold canonical.
  destruct (negb (is_slash c)) eqn:Hc; [done|]. apply negb_false_iff, Ascii.eqb_eq in Hc as ->.
  destruct (4096 <? _); [done|]. destruct (g_utf8_validate _); [|done].
  destruct (has_char backslash _) eqn:Hb; [done|]. destruct (has_double_slash _) eqn:Hd; [done|].
  cbn [orb negb]. intros H. split; [done|]. split; [done|]. rewrite components_rooted.
  destruct s as [|x s]; [done|]. cbn [String.length Nat.ltb Nat.leb andb] in H.
  destruct (ends_with_slash _) eqn:He; [done|].
  pose proof (rooted_normal _ (String x s) (le_n _) ltac:(done) Hd He) as E. rewrite E at 1.
  destruct (components (String x s)) eqn:Ec; [|done]. by rewrite E in Hd.
Qed.

(** ** Links and rules *)

(** The library and path a link is resolved to. *)
Inductive resolved (db : Db) : string -> string -> string -> string -> Prop :=
| resolved_here repo path : t_VirtualRepo db !! repo = None -> resolved db repo path repo path
| resolved_origin repo path info repo' path' :
    t_VirtualRepo db !! repo = Some info ->
    resolved db (v_origin_repo_id info)
      (match path with String c (String _ _ as rest) => g_build_filename (v_path info) rest | _ => v_path info end)
      repo' path' ->
    resolved db repo path repo' path'.

(** A rule at or above the path, or below it when a whole tree is linked. *)
Definition intersects (subtree : bool) (path rule : string) : Prop :=
  at_or_below rule path \/ (subtree = true /\ at_or_below path rule).

Definition rule_path (g : string) : Prop := g = absolute (components g).

Lemma below_like a b :
  Forall is_component a -> Forall is_component b -> a <> [] -> a `prefix_of` b ->
  has_char backslash (absolute a) = false -> underscores_whole (absolute a) = true ->
  sql_eq (absolute a) (absolute b) = true \/ sql_like (absolute a +:+ "/%") (absolute b) = true.
Proof.
  intros Ha Hb Hne Hp Hc Hu. assert (Hnb : b <> []) by (intros ->; by apply prefix_nil_inv in Hp).
  apply (at_or_below_text a b Ha Hb Hne Hnb) in Hp as [->|[r ->]]; [left; apply sql_eq_refl|right].
  by apply like_below_itself.
Qed.

Lemma link_row_prefix subtree lp lg cols :
  Forall is_component lp -> Forall is_component lg ->
  has_char backslash (absolute lp) = false -> underscores_whole (absolute lp) = true ->
  lg `prefix_of` lp \/ (subtree = true /\ lp `prefix_of` lg) ->
  link_row (absolute lp) subtree (mkAclRow (absolute lg) cols) = true.
Proof.
  unfold link_row. cbn [acl_path]. intros Hp Hg Hc Hu [H|[-> H]].
  - destruct lg as [|x lg]; [by rewrite sql_eq_refl|].
    assert (Hnb : lp <> []) by (intros ->; by apply prefix_nil_inv in H).
    apply (at_or_below_text _ lp Hg Hp ltac:(done) Hnb) in H as [E|[r E]].
    + rewrite E, sql_eq_refl. by rewrite orb_true_r.
    + rewrite E in Hc, Hu |- *. rewrite has_char_app in Hc. apply orb_false_iff in Hc as [Hc _].
      apply underscores_whole_app_l in Hu. rewrite (like_below_itself _ r) by done. by rewrite orb_true_r.
  - destruct (sql_eq (absolute lg) "/") eqn:E1; [done|]. cbn [orb negb andb].
    destruct lp as [|x lp]; [by rewrite sql_eq_refl, orb_true_r|].
    destruct (below_like (x :: lp) lg Hp Hg ltac:(done) H Hc Hu) as [E|E].
    + unfold sql_eq in E |- *. rewrite Z.eqb_eq, strcmp_eq in E.
      by rewrite E, (proj2 (Z.eqb_eq _ _) (proj2 (strcmp_eq _ _) eq_refl)).
    + by rewrite E, !orb_true_r.
Qed.

Lemma link_row_intersects subtree path row :
  rule_path path -> rule_path (acl_path row) ->
  has_char backslash path = false -> underscores_whole path = true ->
  intersects subtree path (acl_path row) -> link_row path subtree row = true.
Proof.
  destruct row as [g cols]. unfold rule_path, intersects, at_or_below. cbn [acl_path]. intros Ep Eg Hc Hu H.
  rewrite Ep, Eg. rewrite Ep in Hc, Hu. apply link_row_prefix; try done; apply components_are_components.
Qed.

Lemma link_row_plain subtree path row :
  sql_plain path -> sql_plain (acl_path row) -> link_row path subtree row = true ->
  intersects subtree path (acl_path row).
Proof.
  unfold link_row, intersects, at_or_below. intros Hp Hg H. apply orb_true_iff in H as [H|H];
    [apply orb_true_iff in H as [H|H]; [apply orb_true_iff in H as [H|H]|]|].
  - left. apply sql_eq_plain in H; [|done|done]. rewrite H. apply prefix_nil.
  - left. apply sql_eq_plain in H as ->; done.
  - left. apply like_below_plain in H as [r ->]; [|done]. rewrite components_app. by eexists.
  - apply andb_true_iff in H as [-> H]. right. split; [done|]. apply orb_true_iff in H as [[H _]%andb_true_iff|H].
    + apply sql_eq_plain in H; [|done|done]. rewrite H. apply prefix_nil.
    + apply like_below_plain in H as [r ->]; [|done]. rewrite components_app. by eexists.
Qed.

Section link_scope.
Context (dbt : db_type) (db : Db) (fails : acl_query -> bool) (g_utf8_validate : string -> bool).
(** In UTF-8 no continuation byte follows an ASCII character. *)
Context (Hutf8 : forall s, g_utf8_validate s = true -> underscores_whole s = true).

(** C36: a public link is let through only when no access rule of the library it is
    resolved to stands at or above its path, nor below it when a whole tree is
    linked, whatever the paths contain; and for a library that is not part of
    another one, whose paths have no characters special to [LIKE], the link is
    denied only when such a rule exists. *)
Theorem public_link_scope_exact fuel repo path subtree :
  (forall r row, row ∈ acl_rules db r -> rule_path (acl_path row)) ->
  (cf_v2_acl_public_link_scope dbt db fails g_utf8_validate fuel repo path subtree = Some 0 ->
   exists repo' path', resolved db repo path repo' path' /\
     forall row, row ∈ acl_rules db repo' -> ~ intersects subtree path' (acl_path row)) /\
  (String.length repo = 36%nat -> canonical g_utf8_validate path = true -> t_VirtualRepo db !! repo = None ->
   sql_plain path -> (forall row, row ∈ acl_rules db repo -> sql_plain (acl_path row)) ->
   cf_v2_acl_public_link_scope dbt db fails g_utf8_validate fuel repo path subtree = Some 1 ->
   exists row, row ∈ acl_rules db repo /\ intersects subtree path (acl_path row)).
Proof.
  intros Hrules. split.
  - revert repo path. induction fuel as [|fuel IH]; intros repo path E; [done|]. cbn [cf_v2_acl_public_link_scope] in E.
    destruct (negb _ || negb _) eqn:Ec; [done|]. apply orb_false_iff in Ec as [_ Ec%negb_false_iff].
    destruct (negb (bool_decide _)); [done|]. destruct (fails (AVirtual repo)); [done|].
    destruct (t_VirtualRepo db !! repo) as [info|] eqn:Ev.
    + destruct (_ || _); [done|]. apply IH in E as (r & q & Hr & H). exists r, q. split; [|done].
      by eapply resolved_origin.
    + destruct (fails (ALink repo)); [done|]. exists repo, path. split; [by constructor|]. intros row Hin Hx.
      apply canonical_parts in Ec as (Hu & Hb & Hn).
      destruct (existsb _ _) eqn:Ex; [done|]. apply not_true_iff_false in Ex. apply Ex, existsb_exists.
      exists row. split; [by apply list_elem_of_In|]. apply link_row_intersects; eauto.
  - destruct fuel as [|fuel]; [done|]. cbn [cf_v2_acl_public_link_scope]. intros Hl Hc Hv Hp Hg.
    rewrite Hl, Hc, Hv. cbn [Nat.eqb negb orb]. destruct (negb (bool_decide _)); [done|].
    destruct (fails (AVirtual repo)); [done|]. destruct (fails (ALink repo)); [done|].
    destruct (existsb _ _) eqn:Ex; [|done]. apply existsb_exists in Ex as (row & Hin%list_elem_of_In & Hrow).
    intros _. exists row. split; [done|]. apply link_row_plain; [done|by apply Hg|done].
Qed.
End link_scope.

(** A library inside another one, which has a rule. *)
Definition link_origin : string := "0123abcd-0123-4567-89ab-0123456789ab".
Definition link_repo : string := "ffffabcd-0123-4567-89ab-0123456789ab".
Definition link_db : Db :=
  mkDb ∅ ∅ {[ link_repo := mkVirt link_origin "/team" EmptyString ]} ∅ ∅ {[ link_origin := [mkAclRow "/team/private" []] ]} None.

Lemma link_rules r row : row ∈ acl_rules link_db r -> row = mkAclRow "/team/private" [].
Proof.
  unfold acl_rules, link_db. cbn [t_cf_dir_acl]. destruct (decide (r = link_origin)) as [->|Hne].
  - rewrite lookup_singleton. by intros ?%list_elem_of_singleton.
  - rewrite lookup_singleton_ne by done. by intros ?%elem_of_nil.
Qed.

Lemma public_link_scope_exact_witness :
  cf_v2_acl_public_link_scope SEAF_DB_TYPE_MYSQL link_db (fun _ => false) underscores_whole 2 link_repo "/docs" true = Some 0 /\
  (exists repo' path', resolved link_db link_repo "/docs" repo' path' /\
     forall row, row ∈ acl_rules link_db repo' -> ~ intersects true path' (acl_path row)) /\
  (exists row, row ∈ acl_rules link_db link_origin /\ intersects true "/team" (acl_path row)).
Proof.
  assert (H : cf_v2_acl_public_link_scope SEAF_DB_TYPE_MYSQL link_db (fun _ => false) underscores_whole 2 link_repo "/docs" true = Some 0)
    by (vm_compute; reflexivity).
  split; [exact H|]. split.
  - apply (public_link_scope_exact SEAF_DB_TYPE_MYSQL link_db (fun _ => false) underscores_whole (fun s E => E) 2 link_repo "/docs" true);
      [|exact H]. intros r row Hrow. apply link_rules in Hrow as ->. reflexivity.
  - apply (public_link_scope_exact SEAF_DB_TYPE_MYSQL link_db (fun _ => false) underscores_whole (fun s E => E) 2 link_origin "/team" true).
    + intros r row Hrow. apply link_rules in Hrow as ->. reflexivity.
    + reflexivity.
    + vm_compute. reflexivity.
    + vm_compute. reflexivity.
    + split; reflexivity.
    + intros row Hrow. apply link_rules in Hrow as ->. split; reflexivity.
    + vm_compute. reflexivity.
Defined.
