(* ===== verification/CfAcl.v ===== *)
(** * Permissions on paths ([common/cf-ext.c], [common/cf-acl.c],
    [common/cf-v2-share.c], [common/cf-permission-many.c])

    The chain of permission providers, the provider that asks the Hub, the filter
    of directory listings, share grants and the batch of permission queries.  The
    Hub is a function from requests to answers. *)

From S2P Require Import Prelude Hex Paths Sql CfPath FsObj FsMgr Walk Diff CommitMgr Repo CfV2Acl.

(** ** The provider chain ([cf_ext_check_permission], [cf_ext_share_grant]) *)

(** A provider of permissions: library, path, user and the permission so far, and
    what the flag [unavailable] holds; the narrowed permission and the flag. *)
Definition CfPermFunc : Type :=
  string -> string -> option string -> string -> bool -> option string * bool.

Fixpoint perm_chain (providers : list (option CfPermFunc)) (repo_id path : string) (user : option string)
    (perm : string) (unavailable : bool) : option string * bool :=
  match providers with
  | [] => (Some perm, unavailable)
  | None :: providers => perm_chain providers repo_id path user perm unavailable
  | Some f :: providers =>
      match f repo_id path user perm unavailable with
      | (None, unavailable) => (None, unavailable)
      | (Some perm, unavailable) => perm_chain providers repo_id path user perm unavailable
      end
  end.

Definition cf_ext_check_permission (providers : list (option CfPermFunc)) (repo_id path : string)
    (user native_perm : option string) : option string * bool :=
  match providers, native_perm with
  | [], _ => (native_perm, false)
  | _, None => (None, false)
  | _, Some perm => perm_chain providers repo_id path user perm false
  end.

Definition CfShareGrantFunc : Type := string -> string -> string -> option string * bool.

Fixpoint grant_chain (providers : list CfShareGrantFunc) (repo_id path user : string) : option string * bool :=
  match providers with
  | [] => (None, false)
  | g :: providers =>
      match g repo_id path user with
      | (Some grant, unavailable) => (Some grant, unavailable)
      | (None, true) => (None, true)
      | (None, false) => grant_chain providers repo_id path user
      end
  end.

Definition cf_ext_share_grant (providers : list CfShareGrantFunc) (repo_id path : string) (user : option string)
  : option string * bool :=
  match user with
  | None | Some EmptyString => (None, false)
  | Some user => grant_chain providers repo_id path user
  end.

(** ** Asking the Hub *)

(** An entry of a listing, with the permission shown for it. *)
Record item := mkItem {
  it_name : string;
  it_mode : Z;
  it_permission : option string;
  it_id : string;
  it_version : Z;
  it_mtime : Z;
  it_size : Z;
  it_modifier : option string;
  it_is_shared : bool
}.

Definition set_permission (i : item) (p : string) : item :=
  mkItem (it_name i) (it_mode i) (Some p) (it_id i) (it_version i) (it_mtime i) (it_size i) (it_modifier i) (it_is_shared i).

(** The other functions of the providers, NULL where missing: each filters what the
    one before left, and the first restricted path is reported. *)
Definition CfDirentFilterFunc : Type := string -> string -> string -> list item -> list item.

Definition cf_ext_filter_dirents (filters : list (option CfDirentFilterFunc)) (repo_id dir_path user : string)
    (dirents : list item) : list item :=
  foldl (fun dirents f => match f with Some f => f repo_id dir_path user dirents | None => dirents end) dirents filters.

Definition CfRestrictedFunc : Type := string -> string -> option string -> string -> option string.

Fixpoint cf_ext_find_restricted_path (providers : list (option CfRestrictedFunc)) (repo_id path : string)
    (user : option string) (native_perm : string) : option string :=
  match providers with
  | [] => None
  | None :: providers => cf_ext_find_restricted_path providers repo_id path user native_perm
  | Some f :: providers =>
      match f repo_id path user native_perm with
      | Some restricted => Some restricted
      | None => cf_ext_find_restricted_path providers repo_id path user native_perm
      end
  end.

Definition is_level (s : string) : bool := (strcmp s "r" =? 0) || (strcmp s "rw" =? 0).

Section acl.
Context (hub : acl_request -> hub_answer).
Context (dbt : db_type) (db : Db) (fails : acl_query -> bool).

(** The permission of a reply to one check. *)
Definition single_level (reply : option json) : option string :=
  if positive_reply reply then
    match json_object_get reply "permissions" with
    | Some (JArray [level]) => l ← json_string_value (Some level); if is_level l then Some l else None
    | _ => None
    end
  else None.

Definition v2_effective_read (repo path : string) (user : option string) : option string * bool :=
  match user with
  | None | Some EmptyString => (None, false)
  | Some user =>
      let '(status, reply) := hub (mkRequest repo user false [mkCheck path KindDir ActionRead]) in
      if negb (status =? 200) then (None, (status <? 0) || (500 <=? status))
      else match single_level reply with Some l => (Some l, false) | None => (None, true) end
  end.

Definition cf_acl_apply (repo path : string) (user : option string) (native_perm : string)
  : option string * bool :=
  let scope := cf_v2_acl_unscoped dbt db fails repo in
  if scope =? 0 then (Some native_perm, false)
  else if negb (scope =? -2) then (None, true)
  else v2_effective_read repo path user.

(** ** Listings *)

(** Names an entry can have. *)
Definition entry_name_ok (name : string) : bool :=
  negb ((strcmp name EmptyString =? 0) || has_slash name || (strcmp name "." =? 0) || (strcmp name ".." =? 0)).

Definition entry_check (dir : string) (i : item) : acl_check :=
  mkCheck (g_build_filename dir (it_name i)) (if S_ISDIR (it_mode i) then KindDir else KindFile) ActionRead.

(** The entries of a chunk that get a check; [None]: a malformed name. *)
Fixpoint chunk_checks (dir : string) (l : list item) : option (list item) :=
  match l with
  | [] => Some []
  | i :: l =>
      if negb (entry_name_ok (it_name i)) then None
      else
        included ← chunk_checks dir l;
        if negb (S_ISDIR (it_mode i)) && negb (S_ISREG (it_mode i)) then Some included else Some (i :: included)
  end.

Definition permission_ok (v : json) : bool :=
  match v with JNull => true | JString s => is_level s | _ => false end.

Definition show (visible : list item) (iv : item * json) : list item :=
  match iv.2 with JString p => set_permission iv.1 p :: visible | _ => visible end.

(** [None]: the chunk is refused; otherwise the visible entries, last first. *)
Definition filter_chunk (repo dir user : string) (begin visible : list item) : option (list item) :=
  included ← chunk_checks dir begin;
  match included with
  | [] => Some visible
  | _ =>
      if (512 <? length included)%nat then None
      else
        let '(status, reply) := hub (mkRequest repo user true (entry_check dir <$> included)) in
        if negb (status =? 200) || negb (positive_reply reply) then None
        else match json_object_get reply "permissions" with
             | Some (JArray permissions) =>
                 if negb (length permissions =? length included)%nat then None
                 else if forallb permission_ok permissions
                      then Some (foldl show visible (combine included permissions)) else None
             | _ => None
             end
  end.

(** Chunks of 512 entries; every round takes one, so their number is fuel enough. *)
Fixpoint filter_loop (fuel : nat) (repo dir user : string) (p visible : list item) : option (list item) :=
  match p with
  | [] => Some visible
  | _ =>
      match fuel with
      | O => None
      | S fuel =>
          visible ← filter_chunk repo dir user (take 512 p) visible;
          filter_loop fuel repo dir user (drop 512 p) visible
      end
  end.

Definition cf_acl_filter_dirents (repo : string) (dir user : option string) (dirents : list item) : list item :=
  match dirents with
  | [] => []
  | _ =>
      let scope := cf_v2_acl_unscoped dbt db fails repo in
      if scope =? 0 then dirents
      else match dir, user with
           | Some dir, Some (String _ _ as user) =>
               if negb (scope =? -2) then []
               else match filter_loop (length dirents) repo dir user dirents [] with
                    | None => []
                    | Some visible => reverse visible
                    end
           | _, _ => []
           end
  end.

(** ** Whole trees *)

(** The condition of the query on a row. *)
Definition below_row (path : string) (row : AclRow) : bool :=
  (sql_eq path "/" && negb (sql_eq (acl_path row) "/")) || sql_like (path +:+ "/%") (acl_path row).

(** [Some path]: restricted. *)
Definition cf_acl_find_restricted_path (repo path : string) (user : option string) (native_perm : string)
  : option string :=
  match cf_acl_apply repo path user native_perm with
  | (None, _) => Some path
  | (Some perm, _) =>
      if (strcmp native_perm "rw" =? 0) && negb (strcmp perm "rw" =? 0) then Some path
      else if fails (ALink repo) then Some path
      else if existsb (below_row path) (acl_rules db repo) then Some path else None
  end.

(** ** Shares *)

Definition CF_SHARE_PAYLOAD_MAX : Z := 8192.
Definition CF_SHARE_PATH_MAX : Z := 4096.
Definition CF_SHARE_USER_MAX : Z := 255.

(** The length of the text of a request. *)
Context (payload_length : acl_request -> Z).

Definition request_path (path : string) : option string :=
  match path with
  | EmptyString => None
  | String c _ =>
      if negb (is_slash c) || (CF_SHARE_PATH_MAX <? Z.of_nat (String.length path)) then None
      else match strip_slashes path with EmptyString => None | normalized => Some normalized end
  end.

Definition qualified_permission (repo_id path user : string) : option string * bool :=
  let request := mkRequest repo_id user false [mkCheck path KindDir ActionRead] in
  if CF_SHARE_PAYLOAD_MAX <? payload_length request then (None, false)
  else
    let '(status, reply) := hub request in
    if negb (status =? 200) then (None, (status <? 0) || (500 <=? status))
    else (single_level reply, false).

Definition cf_v2_share_grant (repo_id path user : string) : option string * bool :=
  if negb (String.length repo_id =? 36)%nat || (strcmp user EmptyString =? 0)
     || (CF_SHARE_USER_MAX <? Z.of_nat (String.length user)) then (None, false)
  else match request_path path with
       | None => (None, false)
       | Some normalized => qualified_permission repo_id normalized user
       end.
End acl.

(** ** Listings are filtered entry by entry *)

Definition is_level_spec : forall s, is_level s = true -> s = "r" \/ s = "rw".
Proof.
  intros s [H|H]%orb_true_iff; apply Z.eqb_eq, strcmp_eq in H; auto.
Qed.

(** What the filter means: an entry is shown with the permission the Hub gives its
    check; an entry that is neither file nor directory is not shown. *)
Definition shown (perm_of : acl_check -> option string) (dir : string) (i : item) : option item :=
  if S_ISDIR (it_mode i) || S_ISREG (it_mode i) then set_permission i <$> perm_of (entry_check dir i) else None.

Definition permission_value (p : option string) : json :=
  match p with Some p => JString p | None => JNull end.

Lemma chunk_checks_filter dir l :
  Forall (fun i => entry_name_ok (it_name i) = true) l ->
  chunk_checks dir l = Some (filter (fun i => S_ISDIR (it_mode i) || S_ISREG (it_mode i) = true) l).
Proof.
  induction 1 as [|i l Hi _ IH]; [done|]. cbn [chunk_checks]. rewrite Hi, IH. cbn [negb mbind option_bind].
  rewrite <- negb_orb. destruct (S_ISDIR (it_mode i) || S_ISREG (it_mode i)) eqn:E; cbn [negb].
  - by rewrite filter_cons_True.
  - rewrite filter_cons_False; [done|]. by rewrite E.
Qed.

Lemma show_foldl perm_of dir included : forall visible,
  foldl show visible (combine included (permission_value ∘ perm_of ∘ entry_check dir <$> included)) =
  reverse (omap (fun i => set_permission i <$> perm_of (entry_check dir i)) included) ++ visible.
Proof.
  induction included as [|i l IH]; intros visible; [done|].
  cbn [fmap list_fmap combine foldl]. rewrite IH. cbn [omap list_omap].
  unfold show at 1. cbn [compose fst snd]. destruct (perm_of (entry_check dir i)) as [p|]; [|done].
  cbn [permission_value fmap option_fmap option_map]. by rewrite reverse_cons, <- app_assoc.
Qed.

Lemma omap_shown perm_of dir (l : list item) :
  omap (fun i => set_permission i <$> perm_of (entry_check dir i))
    (filter (fun i => S_ISDIR (it_mode i) || S_ISREG (it_mode i) = true) l) = omap (shown perm_of dir) l.
Proof.
  induction l as [|i l IH]; [done|]. rewrite filter_cons. cbn [omap list_omap]. unfold shown at 1.
  case_decide as E; [rewrite E; cbn [omap list_omap]; by rewrite IH|].
  apply not_true_is_false in E. by rewrite E, IH.
Qed.

(** Whatever the Hub answers. *)
Lemma show_sound visible l i :
  i ∈ foldl show visible l ->
  i ∈ visible \/ exists i0 p, (i0, JString p) ∈ l /\ i = set_permission i0 p.
Proof.
  revert visible. induction l as [|[i0 v] l IH]; intros visible Hi; [by left|]. cbn [foldl] in Hi.
  apply IH in Hi as [Hi|(i1 & p & Hin & ->)]; [|right; exists i1, p; by split; [right|]].
  unfold show in Hi. cbn [fst snd] in Hi. destruct v; try (by left).
  apply elem_of_cons in Hi as [->|Hi]; [|by left]. right. eexists i0, _. by split; [left|].
Qed.

Lemma chunk_checks_elem dir l inc i : chunk_checks dir l = Some inc -> i ∈ inc -> i ∈ l.
Proof.
  revert inc. induction l as [|j l IH]; intros inc E Hi; cbn [chunk_checks] in E.
  - injection E as <-. done.
  - destruct (negb (entry_name_ok _)); [done|]. destruct (chunk_checks dir l) as [inc'|]; [|done].
    cbn [mbind option_bind] in E. destruct (_ && _); injection E as <-; [right; by eapply IH|].
    apply elem_of_cons in Hi as [->|Hi]; [by left|right; by eapply IH].
Qed.

Lemma filter_chunk_sound hub repo dir user l visible visible' i :
  filter_chunk hub repo dir user l visible = Some visible' -> i ∈ visible' ->
  i ∈ visible \/ exists i0 p, i0 ∈ l /\ is_level p = true /\ i = set_permission i0 p.
Proof.
  unfold filter_chunk. intros E Hi. destruct (chunk_checks dir l) as [inc|] eqn:Ei; [|done].
  cbn [mbind option_bind] in E. destruct inc as [|x inc]; [injection E as <-; by left|].
  destruct (512 <? _)%nat; [done|]. destruct (hub _) as [status reply].
  destruct (_ || _); [done|]. destruct (json_object_get reply _) as [[| | | |perms|]|]; try done.
  destruct (negb _); [done|]. destruct (forallb permission_ok perms) eqn:Ef; [|done]. apply (inj Some) in E. subst visible'.
  apply show_sound in Hi as [Hi|(i0 & p & Hin%list_elem_of_In & ->)]; [by left|right]. exists i0, p.
  split_and!; [|by apply (proj1 (forallb_forall _ _) Ef (JString p)), (in_combine_r _ _ _ _ Hin)|done].
  eapply chunk_checks_elem; [done|]. apply list_elem_of_In, (in_combine_l _ _ _ _ Hin).
Qed.

Lemma filter_loop_sound hub fuel repo dir user l visible visible' :
  filter_loop hub fuel repo dir user l visible = Some visible' -> forall i, i ∈ visible' ->
  i ∈ visible \/ exists i0 p, i0 ∈ l /\ is_level p = true /\ i = set_permission i0 p.
Proof.
  revert l visible. induction fuel as [|fuel IH]; intros l visible E i Hi; destruct l as [|x l]; cbn [filter_loop] in E;
    [injection E as <-; by left|done|injection E as <-; by left|].
  destruct (filter_chunk _ _ _ _ _ visible) as [v1|] eqn:E1; [|done]. cbn [mbind option_bind] in E.
  destruct (IH _ _ E i Hi) as [H|(i0 & p & Hin & H)].
  - apply (filter_chunk_sound _ _ _ _ _ _ _ _ E1) in H as [H|(i0 & p & Hin & H)]; [by left|right].
    exists i0, p. split; [|done]. apply elem_of_take in Hin as (k & Hk & _). by eapply list_elem_of_lookup_2.
  - right. exists i0, p. split; [|done]. rewrite <- (take_drop 512 (x :: l)). apply elem_of_app. by right.
Qed.

Section listing.
Context (hub : acl_request -> hub_answer) (repo user : string).
(** The Hub's decision on each check, and that a partial request of at most 512
    checks is answered with the decisions in order, as the interface documents. *)
Context (perm_of : acl_check -> option string).
Context (Hlevels : forall c p, perm_of c = Some p -> is_level p = true).
Context (Hhub : forall checks, checks <> [] -> (length checks <= 512)%nat ->
  exists reply, hub (mkRequest repo user true checks) = (200, Some reply) /\ positive_reply (Some reply) = true /\
    json_object_get (Some reply) "permissions" = Some (JArray (permission_value ∘ perm_of <$> checks))).

Lemma filter_chunk_exact dir l visible :
  (length l <= 512)%nat -> Forall (fun i => entry_name_ok (it_name i) = true) l ->
  filter_chunk hub repo dir user l visible = Some (reverse (omap (shown perm_of dir) l) ++ visible).
Proof.
  intros Hl Hn. unfold filter_chunk. rewrite chunk_checks_filter by done. cbn [mbind option_bind].
  rewrite <- omap_shown.
  pose proof (length_filter (fun i => S_ISDIR (it_mode i) || S_ISREG (it_mode i) = true) l) as Hf.
  destruct (filter _ l) as [|i inc]; [done|]. rewrite (proj2 (Nat.ltb_ge _ _)) by lia.
  destruct (Hhub (entry_check dir <$> i :: inc)) as (reply & -> & -> & ->);
    [done|rewrite length_fmap; lia|].
  rewrite !length_fmap, Nat.eqb_refl. change (200 =? 200) with true. cbn [negb orb].
  rewrite <- list_fmap_compose.
  assert (Hok : forallb permission_ok (permission_value ∘ perm_of ∘ entry_check dir <$> i :: inc) = true).
  { apply forallb_forall. intros v Hv%list_elem_of_In. apply list_elem_of_fmap in Hv as (x & -> & _). cbn.
    destruct (perm_of _) as [p|] eqn:Ep; [|done]. by apply Hlevels in Ep. }
  change ((permission_value ∘ perm_of) ∘ entry_check dir) with (permission_value ∘ perm_of ∘ entry_check dir).
  rewrite Hok. f_equal. apply show_foldl.
Qed.

Lemma filter_loop_exact dir fuel l visible :
  (length l <= fuel)%nat -> Forall (fun i => entry_name_ok (it_name i) = true) l ->
  filter_loop hub fuel repo dir user l visible = Some (reverse (omap (shown perm_of dir) l) ++ visible).
Proof.
  revert l visible. induction fuel as [|fuel IH]; intros l visible Hl Hn.
  - destruct l; [done|simpl in Hl; lia].
  - destruct l as [|i l]; [done|]. cbn [filter_loop].
    rewrite filter_chunk_exact; [|rewrite length_take; lia|by apply Forall_take]. cbn [mbind option_bind].
    rewrite IH; [|rewrite length_drop; simpl in Hl |- *; lia|by apply Forall_drop].
    rewrite app_assoc, <- reverse_app, <- omap_app, take_drop. done.
Qed.
End listing.

(** A Hub that answers every request of at most 512 checks with the permissions of
    [perm_of]. *)
Record answers_for (hub : acl_request -> hub_answer) (repo user : string) (perm_of : acl_check -> option string) : Prop := {
  af_level : forall c p, perm_of c = Some p -> is_level p = true;
  af_reply : forall checks, checks <> [] -> (length checks <= 512)%nat ->
    exists reply, hub (mkRequest repo user true checks) = (200, Some reply) /\ positive_reply (Some reply) = true /\
      json_object_get (Some reply) "permissions" = Some (JArray (permission_value ∘ perm_of <$> checks))
}.

Lemma filter_dirents_omap hub dbt db fails repo dir user dirents perm_of :
  cf_v2_acl_unscoped dbt db fails repo = -2 -> user <> EmptyString -> answers_for hub repo user perm_of ->
  Forall (fun i => entry_name_ok (it_name i) = true) dirents ->
  cf_acl_filter_dirents hub dbt db fails repo (Some dir) (Some user) dirents = omap (shown perm_of dir) dirents.
Proof.
  intros Hscope Hu [Hl Hh] Hn. unfold cf_acl_filter_dirents. rewrite Hscope. destruct user as [|c user]; [done|].
  change (-2 =? 0) with false. change (-2 =? -2) with true. cbn [negb]. destruct dirents as [|d0 ds]; [done|].
  rewrite (filter_loop_exact hub repo (String c user) perm_of Hl Hh) by done.
  by rewrite app_nil_r, reverse_involutive.
Qed.

(** C37: the listing of a directory of a library with access rules is exactly the
    entries the Hub lets the user read, in their order and with the permission the
    Hub gives, although the Hub is asked in chunks of 512 entries; and whatever the
    Hub answers, every entry shown is an entry of the directory with the permission
    r or rw. *)
Theorem filter_dirents_exact hub dbt db fails repo dir user dirents :
  cf_v2_acl_unscoped dbt db fails repo = -2 -> user <> EmptyString ->
  (forall i, i ∈ cf_acl_filter_dirents hub dbt db fails repo (Some dir) (Some user) dirents ->
   exists i0 p, i0 ∈ dirents /\ is_level p = true /\ i = set_permission i0 p) /\
  forall perm_of, answers_for hub repo user perm_of ->
    Forall (fun i => entry_name_ok (it_name i) = true) dirents ->
    cf_acl_filter_dirents hub dbt db fails repo (Some dir) (Some user) dirents = omap (shown perm_of dir) dirents.
Proof.
  intros Hscope Hu. split; [|intros perm_of; by apply filter_dirents_omap].
  unfold cf_acl_filter_dirents. rewrite Hscope. destruct user as [|c user]; [done|].
  change (-2 =? 0) with false. change (-2 =? -2) with true. cbn [negb].
  destruct dirents as [|d0 ds]; [by intros i ?%elem_of_nil|]. set (l := d0 :: ds).
  destruct (filter_loop _ _ _ _ _ l []) as [visible|] eqn:E; [|by intros i ?%elem_of_nil].
  intros i Hi. rewrite elem_of_reverse in Hi.
  destruct (filter_loop_sound _ _ _ _ _ _ _ _ E i Hi) as [H|H]; [by apply elem_of_nil in H|done].
Qed.

(** ** The chain only tightens *)

(** [r] is less than [rw], which is less than [admin]. *)
Definition privilege (p : option string) : nat :=
  match p with
  | None => 0
  | Some p => if strcmp p "r" =? 0 then 1 else if strcmp p "rw" =? 0 then 2
              else if strcmp p "admin" =? 0 then 3 else 0
  end.

(** What [cf-ext.h] requires of a provider. *)
Definition tightens (f : CfPermFunc) : Prop :=
  forall repo_id path user native u, (privilege (f repo_id path user native u).1 <= privilege (Some native))%nat.

Lemma perm_chain_tightens providers repo_id path user perm u :
  (forall f, Some f ∈ providers -> tightens f) ->
  (privilege (perm_chain providers repo_id path user perm u).1 <= privilege (Some perm))%nat.
Proof.
  intros H. revert perm u. induction providers as [|[f|] ps IH]; intros perm u; [done| |].
  - cbn [perm_chain]. pose proof (H f ltac:(by left) repo_id path user perm u) as Hf.
    destruct (f repo_id path user perm u) as [[p|] u']; cbn [fst] in Hf; [|simpl; lia].
    etransitivity; [apply IH; intros g Hg; apply H; by right|done].
  - apply IH. intros g Hg. apply H. by right.
Qed.

(** ** Whole trees *)

(** a whole tree is exported or synchronised only when the user has the native
    permission on it and no access rule stands below it: if no restricted path is
    reported for a normal path without a backslash, the permission on the path is
    granted (and not narrowed from rw), and no rule of the library is strictly below
    the path. *)
Theorem restricted_path_safe hub dbt db fails repo path user native_perm :
  rule_path path -> has_char backslash path = false -> underscores_whole path = true ->
  (forall row, row ∈ acl_rules db repo -> rule_path (acl_path row) /\ rtrim (acl_path row) = acl_path row) ->
  cf_acl_find_restricted_path hub dbt db fails repo path user native_perm = None ->
  (exists perm, (cf_acl_apply hub dbt db fails repo path user native_perm).1 = Some perm /\
     (native_perm = "rw" -> perm = "rw")) /\
  forall row, row ∈ acl_rules db repo -> at_or_below path (acl_path row) -> acl_path row = path.
Proof.
  intros Hp Hb Hu Hrules. unfold cf_acl_find_restricted_path.
  destruct (cf_acl_apply hub dbt db fails repo path user native_perm) as [[perm|] u]; [|done].
  destruct ((strcmp native_perm "rw" =? 0) && negb (strcmp perm "rw" =? 0)) eqn:En; [done|].
  destruct (fails (ALink repo)); [done|]. destruct (existsb _ _) eqn:Ex; [done|]. intros _. split.
  { exists perm. split; [done|]. intros ->. change (strcmp "rw" "rw" =? 0) with true in En. simpl in En.
    by apply negb_false_iff, Z.eqb_eq, strcmp_eq in En. }
  intros row Hin Hbelow. destruct (Hrules row Hin) as [Hg Hpl]. apply not_true_iff_false in Ex.
  destruct (decide (acl_path row = path)) as [|Hne]; [done|]. exfalso. apply Ex, existsb_exists. exists row.
  split; [by apply list_elem_of_In|]. unfold below_row, at_or_below, rule_path in *.
  destruct (components path) as [|x lp] eqn:Ec.
  - change (absolute []) with "/" in Hp. rewrite Hp, sql_eq_refl. destruct (sql_eq (acl_path row) "/") eqn:E; [|done].
    apply sql_eq_trimmed in E; [|done|done]. congruence.
  - apply orb_true_iff. right. rewrite Hp in Hb, Hu, Hne |- *. rewrite Hg.
    assert (Hf1 : Forall is_component (x :: lp)) by (rewrite <- Ec; apply components_are_components).
    assert (Hf2 := components_are_components (acl_path row)).
    assert (Hnb : components (acl_path row) <> []) by (intros E; rewrite E in Hbelow; by apply prefix_nil_inv in Hbelow).
    apply (at_or_below_text _ _ Hf1 Hf2 ltac:(done) Hnb) in Hbelow as [E|[r E]]; [congruence|].
    rewrite E. by apply like_below_itself.
Qed.

(** With a backslash in the path a rule below it is missed. *)
Theorem restricted_path_misses_backslash hub fails :
  let repo := "0123abcd-0123-4567-89ab-0123456789ab" in
  let path := String slash (String (Ascii.ascii_of_nat 97) (String backslash EmptyString)) in
  let db := mkDb ∅ ∅ ∅ ∅ ∅ {[ repo := [mkAclRow (path +:+ "/x") []] ]} None in
  (forall q, fails q = false) ->
  (cf_acl_apply hub SEAF_DB_TYPE_MYSQL db fails repo path (Some "u") "rw").1 = Some "rw" ->
  cf_acl_find_restricted_path hub SEAF_DB_TYPE_MYSQL db fails repo path (Some "u") "rw" = None /\
  at_or_below path (path +:+ "/x").
Proof.
  intros repo path db Hf Happ. split.
  - unfold cf_acl_find_restricted_path. destruct (cf_acl_apply _ _ _ _ _ _ _ _) as [[p|] u]; [|done].
    cbn [fst] in Happ. injection Happ as ->. rewrite Hf. by vm_compute.
  - exists ["x"]. by vm_compute.
Qed.

(** ** Grants *)

(** a share grant is the Hub's: a granted level is r or rw, comes from a
    positive reply of the Hub for this user on a path with the same components, and
    never concerns the root of the library; the flag "unavailable" is set only when
    the Hub could not be reached or failed, and then nothing is granted. *)
Theorem share_grant_safe hub payload_length repo_id path user :
  match cf_v2_share_grant hub payload_length repo_id path user with
  | (Some level, unavailable) =>
      unavailable = false /\ (level = "r" \/ level = "rw") /\ components path <> [] /\
      exists normalized reply, components normalized = components path /\
        hub (mkRequest repo_id user false [mkCheck normalized KindDir ActionRead]) = (200, reply) /\
        positive_reply reply = true /\ json_object_get reply "permissions" = Some (JArray [JString level])
  | (None, true) =>
      exists normalized status reply,
        hub (mkRequest repo_id user false [mkCheck normalized KindDir ActionRead]) = (status, reply) /\
        (status < 0 \/ 500 <= status)
  | (None, false) => True
  end.
Proof.
  unfold cf_v2_share_grant. destruct (_ || _); [done|]. destruct (request_path path) as [n|] eqn:En; [|done].
  assert (Hn : components n = components path /\ components path <> []).
  { unfold request_path in En. destruct path as [|c p]; [done|]. destruct (_ || _) eqn:Ec; [done|].
    apply orb_false_iff in Ec as [Ec%negb_false_iff _]. apply Ascii.eqb_eq in Ec as ->.
    destruct (strip_slashes (String slash p)) as [|x q] eqn:Es; [done|]. injection En as <-.
    rewrite <- Es, strip_slashes_components. split; [done|]. intros Hnil.
    pose proof (strip_split_components (String slash p) ltac:(by rewrite Es)) as H. rewrite Hnil in H.
    destruct (split_last _) as [[a b]|]; [by destruct (components a)|done]. }
  destruct Hn as [Hn1 Hn2]. unfold qualified_permission. destruct (_ <? payload_length _); [done|].
  destruct (hub _) as [status reply] eqn:Eh. destruct (status =? 200) eqn:E2; cbn [negb].
  - apply Z.eqb_eq in E2 as ->. unfold single_level. destruct (positive_reply reply) eqn:Ep; [|done].
    destruct (json_object_get reply "permissions") as [[| | | |[|v [|]]|]|] eqn:Ej; try done.
    destruct v as [| | |l| |]; try done. cbn [json_string_value mbind option_bind].
    destruct (is_level l) eqn:El; [|done]. split; [done|]. split; [by apply is_level_spec|]. split; [done|].
    by exists n, reply.
  - destruct ((status <? 0) || (500 <=? status)) eqn:Es; [|done]. exists n, status, reply. split; [done|]. lia.
Qed.

(** ** Batches of queries ([common/cf-permission-many.c]) *)

Definition MAX_PATHS : nat := 50.
Definition MAX_BYTES : Z := 65536.
Definition MAX_PATH_BYTES : Z := 4096.
Definition BUDGET_US : Z := 10 * 1000000.

Definition g_ascii_isxdigit (c : Ascii.ascii) : bool :=
  let n := Ascii.nat_of_ascii c in
  ((48 <=? n) && (n <=? 57) || (97 <=? n) && (n <=? 102) || (65 <=? n) && (n <=? 70))%nat.

Fixpoint valid_repo_from (i : nat) (repo : string) : bool :=
  match repo with
  | EmptyString => true
  | String c repo =>
      (if (i =? 8)%nat || (i =? 13)%nat || (i =? 18)%nat || (i =? 23)%nat
       then Ascii.eqb c (Ascii.ascii_of_nat 45) else g_ascii_isxdigit c) && valid_repo_from (S i) repo
  end.

Definition valid_repo (repo : option string) : bool :=
  match repo with
  | None => false
  | Some repo => (String.length repo =? 36)%nat && valid_repo_from 0 repo
  end.

Fixpoint chop_last (s : string) : string :=
  match s with
  | EmptyString | String _ EmptyString => EmptyString
  | String c s => String c (chop_last s)
  end.

Definition checked_path (path : option string) : option string :=
  match path with
  | None | Some EmptyString => None
  | Some (String c _ as path) =>
      if negb (is_slash c) || (MAX_PATH_BYTES <? Z.of_nat (String.length path)) || has_double_slash path
         || (130 <? length (pieces path))%nat
         || existsb (fun part => (strcmp part "." =? 0) || (strcmp part ".." =? 0)) (pieces path)
      then None
      else Some (if (1 <? String.length path)%nat && ends_with_slash path then chop_last path else path)
  end.

Inductive many_error := ManyInvalid | ManyTimeout | ManyProvider (code : Z).

(** A batch that passed the tests of the request. *)
Record many_request := mkMany { mr_repo : string; mr_user : string; mr_paths : list string }.

(** [json_loads] gave [request] for a text of [bytes] bytes. *)
Definition parse_many (bytes : Z) (request : option json) : option many_request :=
  if MAX_BYTES <? bytes then None
  else
    match request, json_object_get request "paths", json_object_get request "version" with
    | Some (JObject members), Some (JArray paths), Some (JInt version) =>
        repo ← json_string_value (json_object_get request "repo_id");
        user ← json_string_value (json_object_get request "user");
        if negb (length members =? 4)%nat || negb (version =? 1) || negb (valid_repo (Some repo))
           || (strcmp user EmptyString =? 0) || (255 <? Z.of_nat (String.length user))
           || (length paths <? 1)%nat || (MAX_PATHS <? length paths)%nat
        then None
        else normalized ← mapM (fun v => checked_path (json_string_value (Some v))) paths;
             Some (mkMany repo user normalized)
    | _, _, _ => None
    end.

Lemma parse_many_paths bytes request r :
  parse_many bytes request = Some r -> (length (mr_paths r) <= MAX_PATHS)%nat.
Proof.
  unfold parse_many. intros E. destruct (MAX_BYTES <? bytes); [done|].
  destruct request as [[| | | | |members]|]; try done.
  destruct (json_object_get _ "paths") as [[| | | |paths|]|]; try done.
  destruct (json_object_get _ "version") as [[| |version| | |]|]; try done.
  destruct (json_string_value (json_object_get _ "repo_id")) as [repo|]; [|done]. cbn [mbind option_bind] in E.
  destruct (json_string_value (json_object_get _ "user")) as [user|]; [|done]. cbn [mbind option_bind] in E.
  destruct (_ || (MAX_PATHS <? length paths)%nat) eqn:Ec; [done|]. apply orb_false_iff in Ec as [_ Ec].
  destruct (mapM _ paths) as [l|] eqn:Em; [|done]. injection E as <-. apply length_mapM in Em.
  apply Nat.ltb_ge in Ec. cbn [mr_paths]. lia.
Qed.

Section many.
(** The scalar query, and the successive readings of the clock. *)
Context (scalar : string -> string -> string -> option string * option Z) (clock : nat -> Z).

Definition readable (permission : option string) : option string :=
  match permission with Some p => if is_level p then Some p else None | None => None end.

Fixpoint many_loop (repo user : string) (deadline : Z) (tick : nat) (paths : list string)
    (items : list (string * option string)) : many_error + list (string * option string) :=
  match paths with
  | [] => inr items
  | path :: paths =>
      if deadline <=? clock tick then inl ManyTimeout
      else match scalar repo path user with
           | (_, Some failure) => inl (ManyProvider failure)
           | (permission, None) =>
               if deadline <=? clock (tick + 1) then inl ManyTimeout
               else many_loop repo user deadline (tick + 2) paths (items ++ [(path, readable permission)])
           end
  end.

Definition cf_permissions_many_json (bytes : Z) (request : option json)
  : many_error + (string * string * list (string * option string)) :=
  let deadline := clock 0 + BUDGET_US in
  match parse_many bytes request with
  | None => inl ManyInvalid
  | Some r =>
      match many_loop (mr_repo r) (mr_user r) deadline 1 (mr_paths r) [] with
      | inl e => inl e
      | inr items => inr (mr_repo r, mr_user r, items)
      end
  end.

Lemma many_loop_spec repo user deadline paths : forall tick items,
  match many_loop repo user deadline tick paths items with
  | inr out =>
      out = items ++ ((fun p => (p, readable (scalar repo p user).1)) <$> paths) /\
      (forall p, p ∈ paths -> (scalar repo p user).2 = None)
  | inl ManyTimeout => exists k, (tick <= k < tick + 2 * length paths)%nat /\ deadline <= clock k
  | inl (ManyProvider e) => exists p, p ∈ paths /\ (scalar repo p user).2 = Some e
  | inl ManyInvalid => False
  end.
Proof.
  induction paths as [|p ps IH]; intros tick items.
  - simpl. rewrite app_nil_r. split; [done|]. by intros p ?%elem_of_nil.
  - cbn [many_loop]. destruct (Z.leb_spec deadline (clock tick)) as [H|H]; [exists tick; simpl; lia|].
    destruct (scalar repo p user) as [perm [e|]] eqn:Es; [exists p; split; [by left|by rewrite Es]|].
    destruct (Z.leb_spec deadline (clock (tick + 1))) as [H'|H']; [exists (tick + 1)%nat; simpl; lia|].
    specialize (IH (tick + 2)%nat (items ++ [(p, readable perm)])).
    destruct (many_loop _ _ _ _ _ _) as [[| |e]|out].
    + done.
    + destruct IH as (k & Hk & Hd). exists k. simpl. split; [lia|done].
    + destruct IH as (q & Hq & Hs). exists q. split; [by right|done].
    + destruct IH as [-> Hall]. rewrite <- app_assoc. cbn [fmap list_fmap app]. rewrite Es. split; [done|].
      intros q [->|Hq]%elem_of_cons; [by rewrite Es|by apply Hall].
Qed.

(** a batch of permission queries is all or nothing, in order and without
    invention: it succeeds exactly when the request is well formed, no query fails
    and the clock stays within the budget, and then it lists, for the requested paths
    in their order and with repetitions, the scalar answer where that is r or rw and
    null otherwise. *)
Theorem permissions_many_all_or_nothing bytes request :
  match cf_permissions_many_json bytes request with
  | inr (repo, user, items) =>
      exists r, parse_many bytes request = Some r /\ repo = mr_repo r /\ user = mr_user r /\
        items = (fun p => (p, readable (scalar repo p user).1)) <$> mr_paths r /\
        forall p, p ∈ mr_paths r -> (scalar repo p user).2 = None
  | inl ManyInvalid => parse_many bytes request = None
  | inl ManyTimeout => exists k, (1 <= k <= 2 * MAX_PATHS)%nat /\ clock 0 + BUDGET_US <= clock k
  | inl (ManyProvider e) => exists r p, parse_many bytes request = Some r /\ p ∈ mr_paths r /\
      (scalar (mr_repo r) p (mr_user r)).2 = Some e
  end.
Proof.
  unfold cf_permissions_many_json. destruct (parse_many bytes request) as [r|] eqn:Ep; [|done].
  pose proof (many_loop_spec (mr_repo r) (mr_user r) (clock 0 + BUDGET_US) (mr_paths r) 1 []) as H.
  destruct (many_loop _ _ _ _ _ _) as [[| |e]|items].
  - done.
  - destruct H as (k & Hk & Hd). exists k. split; [|done].
    pose proof (parse_many_paths _ _ _ Ep). lia.
  - destruct H as (p & Hp & He). by exists r, p.
  - exists r. destruct H as [-> H]. by split_and!.
Qed.
End many.

(** ** Findings *)

(** A library with a rule, whose Hub lets the user write. *)
Definition ext_repo : string := "0123abcd-0123-4567-89ab-0123456789ab".
Definition ext_db : Db := mkDb ∅ ∅ ∅ ∅ ∅ {[ ext_repo := [mkAclRow "/team/private" []] ]} None.
Definition ext_perm (c : acl_check) : option string :=
  if sql_like "%private%" (ck_path c) then None else Some "rw".
Definition ext_hub (r : acl_request) : hub_answer :=
  (200, Some (JObject [("allowed", JBool true); ("contract", JString "cf-acl-v1");
                       ("permissions", JArray (permission_value ∘ ext_perm <$> rq_checks r))])).

(** The provider that asks the Hub returns the Hub's level, not the lesser of it and
    the native permission. *)
Theorem acl_apply_widens :
  ~ tightens (fun repo_id path user native _ =>
      cf_acl_apply ext_hub SEAF_DB_TYPE_MYSQL ext_db (fun _ => false) repo_id path user native).
Proof.
  intros H. specialize (H ext_repo "/team" (Some "u") "r" false). vm_compute in H. lia.
Qed.

(** ** Instances *)

Definition ext_item (name : string) (mode : Z) (permission : option string) (id : string) : item :=
  mkItem name mode permission id 1 0 0 None false.
Definition ext_items : list item :=
  [ext_item "private" 0x4000 None "1"; ext_item "plan.txt" 0x8000 None "2"; ext_item "link" 0xa000 None "3";
   ext_item "public" 0x4000 None "4"].

Lemma ext_answers repo user : answers_for ext_hub repo user ext_perm.
Proof.
  split.
  - intros c p H. unfold ext_perm in H. destruct (sql_like _ _); [discriminate H|]. injection H as <-. reflexivity.
  - intros checks _ _. eexists. split; [reflexivity|]. split; reflexivity.
Qed.

Lemma filter_dirents_exact_witness :
  cf_acl_filter_dirents ext_hub SEAF_DB_TYPE_MYSQL ext_db (fun _ => false) ext_repo (Some "/team") (Some "u") ext_items
  = omap (shown ext_perm "/team") ext_items /\
  omap (shown ext_perm "/team") ext_items =
    [ext_item "plan.txt" 0x8000 (Some "rw") "2"; ext_item "public" 0x4000 (Some "rw") "4"].
Proof.
  split; [|vm_compute; reflexivity].
  apply (filter_dirents_exact ext_hub SEAF_DB_TYPE_MYSQL ext_db (fun _ => false) ext_repo "/team" "u" ext_items).
  - vm_compute. reflexivity.
  - discriminate.
  - apply ext_answers.
  - repeat constructor.
Defined.

Lemma restricted_path_safe_witness :
  cf_acl_find_restricted_path ext_hub SEAF_DB_TYPE_MYSQL ext_db (fun _ => false) ext_repo "/te_m/docs" (Some "u") "rw" = None /\
  forall row, row ∈ acl_rules ext_db ext_repo -> at_or_below "/te_m/docs" (acl_path row) -> acl_path row = "/te_m/docs".
Proof.
  assert (H : cf_acl_find_restricted_path ext_hub SEAF_DB_TYPE_MYSQL ext_db (fun _ => false) ext_repo "/te_m/docs" (Some "u") "rw" = None)
    by (vm_compute; reflexivity).
  split; [exact H|].
  apply (restricted_path_safe ext_hub SEAF_DB_TYPE_MYSQL ext_db (fun _ => false) ext_repo "/te_m/docs" (Some "u") "rw");
    [reflexivity|reflexivity|reflexivity| |exact H].
  intros row Hrow. assert (E : acl_rules ext_db ext_repo = [mkAclRow "/team/private" []]) by (vm_compute; reflexivity).
  rewrite E in Hrow. apply list_elem_of_singleton in Hrow as ->. split; reflexivity.
Defined.
