(* ===== verification/Publish.v ===== *)
(** * Publishing commits ([common/branch-mgr.c], [common/cf-v2-edit-fence.c], the
    ACL proof of [common/cf-v2-acl.c], [gen_new_commit] of [server/repo-op.c])

    A new tree becomes the head of a library by a compare-and-swap of its
    [master] row.  Before the transaction the code reads the access rules and
    the changed paths (phase A); inside it, it compares the collector's mark, the
    head, the rules and the reserved paths again (phase B) and updates the row.
    [gen_new_commit] merges with a head that has moved and retries.  Several
    processes take the steps of [gnc_step] in any order over the shared state. *)

From S2P Require Import Prelude Hex FsObj Paths FsMgr Walk Diff Merge CommitMgr Repo CfV2Acl.

(** ** Strings of the configuration *)

(** [g_ascii_isspace] *)
Definition g_ascii_isspace (c : Ascii.ascii) : bool :=
  existsb (fun n => Ascii.eqb c (Ascii.ascii_of_nat n)) [9; 10; 12; 13; 32]%nat.

Fixpoint g_strchug (s : string) : string :=
  match s with
  | String c s' => if g_ascii_isspace c then g_strchug s' else s
  | EmptyString => EmptyString
  end.

Fixpoint g_strchomp (s : string) : string :=
  match s with
  | EmptyString => EmptyString
  | String c s =>
      match g_strchomp s with
      | EmptyString => if g_ascii_isspace c then EmptyString else String c EmptyString
      | s => String c s
      end
  end.

Definition g_strstrip (s : string) : string := g_strchomp (g_strchug s).

(** [g_strsplit (s, ",", -1)] of a non-empty string. *)
Fixpoint split_at (sep : Ascii.ascii) (s : string) : list string :=
  match s with
  | EmptyString => [EmptyString]
  | String c s => if Ascii.eqb c sep then EmptyString :: split_at sep s
                  else cons_char c (split_at sep s)
  end.

Definition comma : Ascii.ascii := Ascii.ascii_of_nat 44.
Definition hyphen : Ascii.ascii := Ascii.ascii_of_nat 45.

(** ** Checkout policy ([cf_v2_edit_repo_checkout]) *)

Definition is_lower_hex (c : Ascii.ascii) : bool :=
  let n := Ascii.nat_of_ascii c in
  ((48 <=? n)%nat && (n <=? 57)%nat) || ((97 <=? n)%nat && (n <=? 102)%nat).

Fixpoint canonical_from (i : nat) (id : string) : bool :=
  match id with
  | EmptyString => true
  | String c id =>
      (if (i =? 8)%nat || (i =? 13)%nat || (i =? 18)%nat || (i =? 23)%nat
       then Ascii.eqb c hyphen else is_lower_hex c) && canonical_from (S i) id
  end.

Definition canonical_repo_id (id : string) : bool :=
  (String.length id =? 36)%nat && canonical_from 0 id.

(** A boolean of the configuration: its value, missing, or not a boolean. *)
Inductive key_file_bool := KeyBool (b : bool) | KeyMissing | KeyInvalid.

Record Session := mkSession {
  se_db_type : db_type;
  se_checkout_enabled : key_file_bool;
  se_checkout_repo_ids : option string;
  se_is_repair : bool
}.

(** The loop over the listed ids; [None] when one is malformed or repeated. *)
Fixpoint checkout_ids (parts : list string) (ids : gset string) : option (gset string) :=
  match parts with
  | [] => Some ids
  | p :: parts =>
      let id := g_strstrip p in
      if negb (canonical_repo_id id) || bool_decide (id ∈ ids) then None
      else checkout_ids parts ({[id]} ∪ ids)
  end.

(** The listed libraries; [None] when the configuration is invalid. *)
Definition checkout_policy (s : Session) : option (gset string) :=
  match se_checkout_enabled s with
  | KeyInvalid => None
  | KeyMissing | KeyBool false => Some ∅
  | KeyBool true =>
      match se_checkout_repo_ids s with
      | None => Some ∅
      | Some raw =>
          if (8192 <? Z.of_nat (String.length raw)) then None
          else match g_strstrip raw with
               | EmptyString => Some ∅
               | raw => checkout_ids (split_at comma raw) ∅
               end
      end
  end.

Definition cf_v2_edit_repo_checkout (s : Session) (repo_id : string) : Z :=
  match checkout_policy s with
  | None => -1
  | Some ids => if bool_decide (repo_id ∈ ids) then 1 else 0
  end.

(** ** Failing queries and the outside world *)

Inductive query :=
| QAcl (trans : bool) (repo_id : string) | QOrigin (trans : bool) | QBegin | QGcId | QHead
| QGuardTable | QGuards | QUpdate | QCommit.

(** What one step meets: the clock, the writes and queries that fail, the Hub's
    answers, the names for conflicting files and directories. *)
Record Oracle := mkOracle {
  o_now : Z;
  o_commit_write : bool;
  o_dir_write : string -> bool;
  o_fails : query -> bool;
  o_hub : acl_request -> hub_answer;
  o_conflict_filename : string -> string -> option string;
  o_conflict_dirname : string -> string -> option string
}.

(** ** The proof of the access rules ([cf_v2_acl_proof]) *)

Section publish.
(** SHA-1 and SHA-256 (in hexadecimal), the ids of directories, the fuel for trees. *)
Context (sha1 : list Z -> list Z) (sha256 : list Z -> string).
Context (dir_hash : Z -> list SeafDirent -> string).
Context (fuel : nat) (se : Session).
Context (g_utf8_validate : string -> bool).

(** [proof_row]: [None] on a NULL column. *)
Fixpoint proof_row (cols : list (option string)) : option (list Z) :=
  match cols with
  | [] => Some []
  | None :: _ => None
  | Some v :: cols => rest ← proof_row cols; Some (nul_terminated v ++ rest)
  end.

Fixpoint proof_rows (rows : list (list (option string))) : option (list Z) :=
  match rows with
  | [] => Some []
  | r :: rows => a ← proof_row r; b ← proof_rows rows; Some (a ++ b)
  end.

(** The bytes hashed for one library, and whether it has rules. *)
Definition proof_repo (o : Oracle) (trans : bool) (db : Db) (repo_id : string) : option (list Z * bool) :=
  if o_fails o (QAcl trans repo_id) then None
  else
    let rows := acl_columns <$> default [] (t_cf_dir_acl db !! repo_id) in
    if (4096 <? Z.of_nat (length rows)) then None
    else b ← proof_rows rows;
         Some (nul_terminated repo_id ++ b, negb (length rows =? 0)%nat).

Definition cf_v2_acl_proof (o : Oracle) (trans : bool) (db : Db) (repo_id : string)
  : option (string * bool) :=
  if negb (String.length repo_id =? 36)%nat || negb (bool_decide (se_db_type se = SEAF_DB_TYPE_MYSQL))
  then None
  else
    '(b, has) ← proof_repo o trans db repo_id;
    if o_fails o (QOrigin trans) then None
    else match t_VirtualRepo db !! repo_id with
         | None => Some (sha256 b, has)
         | Some v =>
             let origin := v_origin_repo_id v in
             if negb (String.length origin =? 36)%nat || (strcmp origin repo_id =? 0) then None
             else '(b', has') ← proof_repo o trans db origin; Some (sha256 (b ++ b'), has || has')
         end.

(** ** Reserved paths ([common/cf-v2-edit-fence.c]) *)

Record CfV2EditPrepared := mkPrepared {
  p_repo_id : string;
  p_old_id : string;
  p_new_id : string;
  p_changes : list DiffEntry
}.

(** [guard_available], with what [guard_schema_state] has become (0: not read). *)
Definition guard_available (o : Oracle) (db : Db) (schema : Z) : Z * Z :=
  if negb (bool_decide (se_db_type se = SEAF_DB_TYPE_MYSQL)) then (-1, schema)
  else
    let schema :=
      if schema =? 0 then
        if o_fails o QGuardTable then 3
        else match t_cf_edit_guard db with Some _ => 2 | None => 1 end
      else schema in
    (if schema =? 2 then 1 else -1, schema).

(** The outer [option]: the diff ran out of fuel. *)
Definition cf_v2_edit_prepare_unscoped_branch (o : Oracle) (db : Db) (cs : commit_store) (st : fs_store)
    (schema : Z) (repo_id old_commit_id new_commit_id : string)
  : option (option CfV2EditPrepared * Z) :=
  let policy := cf_v2_edit_repo_checkout se repo_id in
  if policy <? 0 then Some (None, schema)
  else if (policy =? 0) || (strcmp old_commit_id new_commit_id =? 0)
  then Some (Some (mkPrepared repo_id old_commit_id new_commit_id []), schema)
  else
    let '(available, schema) := guard_available o db schema in
    if available <=? 0 then Some (None, schema)
    else match seaf_repo_manager_get_repo db cs repo_id with
         | None => Some (None, schema)
         | Some repo =>
             match seaf_commit_manager_get_commit cs old_commit_id,
                   seaf_commit_manager_get_commit cs new_commit_id with
             | Some old_commit, Some new_commit =>
                 match diff_commit_roots st (r_version repo) fuel (root_id old_commit)
                         (root_id new_commit) [] false with
                 | None => None
                 | Some (result, changes) =>
                     if result <? 0 then Some (None, schema)
                     else Some (Some (mkPrepared repo_id old_commit_id new_commit_id changes), schema)
                 end
             | _, _ => Some (None, schema)
             end
         end.

Definition path_touches (changed : option string) (guarded : string) : bool :=
  match changed with
  | None | Some EmptyString => false
  | Some (String c s) =>
      let name := if is_slash c then s else String c s in
      let absolute := String slash name in
      (strcmp absolute guarded =? 0) || String.prefix (absolute +:+ "/") guarded
  end.

(** [read_guard_path] over the rows; [None]: an invalid row. *)
Fixpoint guard_paths (rows : list (option string)) (paths : list string) : option (list string) :=
  match rows with
  | [] => Some paths
  | row :: rows =>
      match row with
      | Some (String c s) =>
          let path := String c s in
          if negb (is_slash c) || (4096 <? Z.of_nat (String.length path)) || negb (g_utf8_validate path)
             || (8192 <=? Z.of_nat (length paths))
          then None
          else guard_paths rows (paths ++ [path])
      | _ => None
      end
  end.

Definition touches_guard (paths : list string) (delta : DiffEntry) : bool :=
  existsb (fun path => path_touches (Some (de_name delta)) path || path_touches (de_new_name delta) path) paths.

Definition cf_v2_edit_check_unscoped_branch (o : Oracle) (db : Db) (schema : Z)
    (repo_id old_commit_id new_commit_id : string) (prepared : CfV2EditPrepared) : Z * Z :=
  if negb (strcmp (p_repo_id prepared) repo_id =? 0) || negb (strcmp (p_old_id prepared) old_commit_id =? 0)
     || negb (strcmp (p_new_id prepared) new_commit_id =? 0)
  then (-1, schema)
  else
    let policy := cf_v2_edit_repo_checkout se repo_id in
    if policy <=? 0 then (policy, schema)
    else
      let '(available, schema) := guard_available o db schema in
      if available <=? 0 then (-1, schema)
      else if o_fails o QGuards then (-1, schema)
      else match t_cf_edit_guard db with
           | None => (-1, schema)
           | Some tbl =>
               match guard_paths (default [] (tbl !! repo_id)) [] with
               | None => (-1, schema)
               | Some paths => (if existsb (touches_guard paths) (p_changes prepared) then -1 else 0, schema)
               end
           end.

(** ** Compare and swap ([test_and_update_branch]) *)

(** What is announced or scheduled: a new head to the notification server and the
    queue, the merge of sub-libraries, the computation of a size. *)
Inductive event :=
| EvNotify (repo_id commit_id : string)
| EvPublish (repo_id commit_id : string)
| EvMergeVirtualRepo (repo_id : string)
| EvUpdateRepoSize (repo_id : string).

(** The commits and objects are those of the libraries at hand: one library, or virtual
    libraries with their origin, whose objects they share; their commits, which the code
    keeps by library, are told apart by their ids. *)
Record World := mkWorld {
  w_db : Db;
  w_commits : commit_store;
  w_fs : fs_store;
  w_events : list event;
  w_guard_schema : Z
}.

Definition set_db (w : World) (db : Db) : World :=
  mkWorld db (w_commits w) (w_fs w) (w_events w) (w_guard_schema w).
Definition set_commits (w : World) (cs : commit_store) : World :=
  mkWorld (w_db w) cs (w_fs w) (w_events w) (w_guard_schema w).
Definition set_fs (w : World) (st : fs_store) : World :=
  mkWorld (w_db w) (w_commits w) st (w_events w) (w_guard_schema w).
Definition set_schema (w : World) (schema : Z) : World :=
  mkWorld (w_db w) (w_commits w) (w_fs w) (w_events w) schema.
Definition emit (w : World) (e : event) : World :=
  mkWorld (w_db w) (w_commits w) (w_fs w) (w_events w ++ [e]) (w_guard_schema w).

Definition SEAF_BRANCH_UPDATE_ERROR : Z := -1.
Definition SEAF_BRANCH_UPDATE_ACL_DENIED : Z := -2.
Definition SEAF_BRANCH_UPDATE_HEAD_CONFLICT : Z := -3.

Definition on_branch_updated (o : Oracle) (w : World) (branch : SeafBranch) : World :=
  if se_is_repair se then w
  else
    let w := set_db w (seaf_repo_manager_update_repo_info (w_db w) (w_commits w) (o_now o)
                         (b_repo_id branch) (b_commit_id branch)) in
    let w := emit w (EvNotify (b_repo_id branch) (b_commit_id branch)) in
    match t_VirtualRepo (w_db w) !! b_repo_id branch with
    | Some _ => w
    | None => emit w (EvPublish (b_repo_id branch) (b_commit_id branch))
    end.

(** Phase A, without a transaction: the proof of the rules and the changes of an
    OPTIONAL library; [None] inside: denied. *)
Definition phase_a (o : Oracle) (w : World) (branch : SeafBranch) (old_commit_id : string)
  : option (option (string * CfV2EditPrepared) * World) :=
  match cf_v2_acl_proof o false (w_db w) (b_repo_id branch) with
  | None => Some (None, w)
  | Some (acl_before, acl_protected) =>
      let actor :=
        repo ← seaf_repo_manager_get_repo (w_db w) (w_commits w) (b_repo_id branch);
        candidate ← seaf_commit_manager_get_commit (w_commits w) (b_commit_id branch);
        creator_name candidate in
      let allowed :=
        if acl_protected then
          cf_v2_acl_preflight_scoped g_utf8_validate fuel (w_db w) (w_commits w) (w_fs w) (o_hub o)
            (b_repo_id branch) old_commit_id (b_commit_id branch) (text actor)
        else Some 0 in
      match allowed with
      | None => None
      | Some allowed =>
          if allowed <? 0 then Some (None, w)
          else match cf_v2_edit_prepare_unscoped_branch o (w_db w) (w_commits w) (w_fs w) (w_guard_schema w)
                       (b_repo_id branch) old_commit_id (b_commit_id branch) with
               | None => None
               | Some (prepared, schema) =>
                   Some ((fun p => (acl_before, p)) <$> prepared, set_schema w schema)
               end
      end
  end.

(** [strcmp0] *)
Definition same_text (a b : option string) : bool := bool_decide (a = b).

(** Phase B, the transaction: the result, whether the collector ran in between,
    the state. *)
Definition phase_b (o : Oracle) (w : World) (branch : SeafBranch) (old_commit_id : string)
    (check_gc : bool) (last_gc_id : option string) (origin_repo_id : option string)
    (acl_before : string) (guard_changes : CfV2EditPrepared) : Z * bool * World :=
  let db := w_db w in
  if o_fails o QBegin then (-1, false, w)
  else if check_gc && o_fails o QGcId then (-1, false, w)
  else if check_gc && negb (same_text last_gc_id
                              (t_GCID db !! default (b_repo_id branch) origin_repo_id))
  then (-1, true, w)
  else if o_fails o QHead then (SEAF_BRANCH_UPDATE_ERROR, false, w)
  else match t_Branch db !! (b_name branch, b_repo_id branch) with
       | None => (SEAF_BRANCH_UPDATE_ERROR, false, w)
       | Some commit_id =>
           if negb (strcmp old_commit_id (string_take 40 commit_id) =? 0)
           then (SEAF_BRANCH_UPDATE_HEAD_CONFLICT, false, w)
           else match cf_v2_acl_proof o true db (b_repo_id branch) with
                | None => (SEAF_BRANCH_UPDATE_ACL_DENIED, false, w)
                | Some (acl_after, _) =>
                    if negb (strcmp acl_before acl_after =? 0)
                    then (SEAF_BRANCH_UPDATE_ACL_DENIED, false, w)
                    else
                      let '(guard_result, schema) :=
                        cf_v2_edit_check_unscoped_branch o db (w_guard_schema w) (b_repo_id branch)
                          old_commit_id (b_commit_id branch) guard_changes in
                      let w := set_schema w schema in
                      if guard_result <? 0 then (SEAF_BRANCH_UPDATE_ACL_DENIED, false, w)
                      else if o_fails o QUpdate then (-1, false, w)
                      else if o_fails o QCommit then (-1, false, w)
                      else
                        let w := set_db w (set_branch db (b_name branch) (b_repo_id branch) (b_commit_id branch)) in
                        (0, false,
                         if negb (strcmp old_commit_id (b_commit_id branch) =? 0)
                         then on_branch_updated o w branch else w)
                end
       end.

(** ** [gen_new_commit_guarded] *)

Inductive commit_error := CE_GENERAL | CE_CONCURRENT_UPLOAD | CE_GC_CONFLICT.

Record gnc_args := mkArgs {
  ga_repo_id : string;
  ga_base : SeafCommit;
  ga_new_root : string;
  ga_user : option string;
  ga_desc : string;
  ga_handle_concurrent_update : bool;
  ga_check_gc : bool;
  ga_last_gc_id : option string
}.

(** Where a call is: at its start, at [retry] with the library it has read, before
    each phase of the compare-and-swap, asleep, done. *)
Inductive gnc_pc :=
| GncStart
| GncRetry (repo : SeafRepo) (new_commit : SeafCommit) (retry_cnt : nat)
| GncPhaseA (repo : SeafRepo) (new_commit current_head merged_commit : SeafCommit) (retry_cnt : nat)
| GncPhaseB (repo : SeafRepo) (new_commit current_head merged_commit : SeafCommit) (retry_cnt : nat)
    (acl_before : string) (guard_changes : CfV2EditPrepared)
| GncSleep (new_commit : SeafCommit) (retry_cnt : nat)
| GncDone (r : commit_error + string).

Definition MAX_RETRY_COUNT : nat := 10.

Definition gen_merge_description (st : fs_store) (version : Z) (merged_root p1_root p2_root : string)
  : option (option string) :=
  match diff_merge_roots st version fuel merged_root p1_root p2_root [] with
  | None => None
  | Some (_, results) => Some (diff_results_to_description results)
  end.

Definition AUTO_MERGE : string := "Auto merge by system".

(** [merged_commit] of two trees: [new_merge] and [conflict] are set after it is
    made, the library's metadata last. *)
Definition set_merge (c : SeafCommit) (parent second : string) (merge_conflict : bool) : SeafCommit :=
  mkCommit (commit_id c) (repo_id c) (root_id c) (desc c) (creator_name c) (creator_id c) (ctime c)
    (Some parent) (Some second) (repo_name c) (repo_desc c) (repo_category c) (device_name c)
    (client_version c) (encrypted c) (enc_version c) (magic c) (random_key c) (salt c) (pwd_hash c)
    (pwd_hash_algo c) (pwd_hash_params c) (no_local_history c) (CommitMgr.version c) true
    (if merge_conflict then true else CommitMgr.conflict c) (repaired c).

Definition gnc_start (o : Oracle) (a : gnc_args) (w : World) : gnc_pc * World :=
  match seaf_repo_manager_get_repo (w_db w) (w_commits w) (ga_repo_id a) with
  | None => (GncDone (inl CE_GENERAL), w)
  | Some repo =>
      let new_commit :=
        seaf_commit_new sha1 (o_now o) None (r_id repo) (ga_new_root a) (ga_user a) EMPTY_SHA1 (ga_desc a) 0 in
      let new_commit := seaf_repo_to_commit repo
                          (set_parents new_commit (Some (commit_id (ga_base a))) (second_parent_id new_commit)) in
      let '(ret, cs) := seaf_commit_manager_add_commit (o_commit_write o) (w_commits w) new_commit in
      let w := set_commits w cs in
      if ret <? 0 then (GncDone (inl CE_GENERAL), w) else (GncRetry repo new_commit 0, w)
  end.

(** From [retry] to the compare-and-swap: the head, the merge if it is not the base. *)
Definition gnc_retry (o : Oracle) (a : gnc_args) (repo : SeafRepo) (new_commit : SeafCommit)
    (retry_cnt : nat) (w : World) : option (gnc_pc * World) :=
  match seaf_commit_manager_get_commit (w_commits w) (b_commit_id (r_head repo)) with
  | None => Some (GncDone (inl CE_GENERAL), w)
  | Some current_head =>
      if negb (strcmp (commit_id (ga_base a)) (commit_id current_head) =? 0) then
        if negb (ga_handle_concurrent_update a) then Some (GncDone (inl CE_CONCURRENT_UPLOAD), w)
        else
          match seaf_merge_trees (o_conflict_filename o) (o_conflict_dirname o) dir_hash (o_dir_write o)
                  (r_version repo) fuel
                  [root_id (ga_base a); root_id current_head; ga_new_root a]
                  (mkMS (w_fs w) EmptyString 0 false) with
          | None => None
          | Some (ret, ms) =>
              let w := set_fs w (ms_store ms) in
              if ret <? 0 then Some (GncDone (inl CE_GENERAL), w)
              else
                match (if negb (Merge.conflict ms) then Some (Some AUTO_MERGE)
                       else gen_merge_description (w_fs w) (r_version repo) (merged_tree_root ms)
                              (root_id current_head) (ga_new_root a)) with
                | None => None
                | Some desc =>
                    let merged := seaf_commit_new sha1 (o_now o) None (r_id repo) (merged_tree_root ms)
                                    (ga_user a) EMPTY_SHA1 (default AUTO_MERGE desc) 0 in
                    let merged := seaf_repo_to_commit repo
                      (set_merge merged (commit_id current_head) (commit_id new_commit) (Merge.conflict ms)) in
                    let '(ret, cs) := seaf_commit_manager_add_commit (o_commit_write o) (w_commits w) merged in
                    let w := set_commits w cs in
                    if ret <? 0 then Some (GncDone (inl CE_GENERAL), w)
                    else Some (GncPhaseA repo new_commit current_head merged retry_cnt, w)
                end
          end
      else Some (GncPhaseA repo new_commit current_head new_commit retry_cnt, w)
  end.

(** The branch to publish, and the test of the collector's mark. *)
Definition gnc_branch (repo : SeafRepo) (merged : SeafCommit) : SeafBranch :=
  seaf_branch_set_commit (r_head repo) (commit_id merged).

Definition gnc_check_gc (a : gnc_args) : bool :=
  if bool_decide (se_db_type se = SEAF_DB_TYPE_SQLITE) then false else ga_check_gc a.

Definition gnc_phase_a (o : Oracle) (a : gnc_args) (repo : SeafRepo)
    (new_commit current_head merged : SeafCommit) (retry_cnt : nat) (w : World) : option (gnc_pc * World) :=
  match phase_a o w (gnc_branch repo merged) (commit_id current_head) with
  | None => None
  | Some (None, w) => Some (GncDone (inl CE_GENERAL), w)
  | Some (Some (acl_before, changes), w) =>
      Some (GncPhaseB repo new_commit current_head merged retry_cnt acl_before changes, w)
  end.

Definition gnc_phase_b (o : Oracle) (a : gnc_args) (repo : SeafRepo)
    (new_commit current_head merged : SeafCommit) (retry_cnt : nat) (acl_before : string)
    (changes : CfV2EditPrepared) (w : World) : gnc_pc * World :=
  let '(published, gc_conflict, w) :=
    phase_b o w (gnc_branch repo merged) (commit_id current_head) (gnc_check_gc a) (ga_last_gc_id a)
      (Some (r_store_id repo)) acl_before changes in
  (if published <? 0 then
     if published =? SEAF_BRANCH_UPDATE_ACL_DENIED then GncDone (inl CE_GENERAL)
     else if gnc_check_gc a && gc_conflict then GncDone (inl CE_GC_CONFLICT)
     else if negb (published =? SEAF_BRANCH_UPDATE_HEAD_CONFLICT) then GncDone (inl CE_GENERAL)
     else if negb (ga_handle_concurrent_update a) then GncDone (inl CE_CONCURRENT_UPLOAD)
     else if (S retry_cnt <=? MAX_RETRY_COUNT)%nat then GncSleep new_commit (S retry_cnt)
     else GncDone (inl CE_GENERAL)
   else GncDone (inr (commit_id merged)), w).

(** Awake again: the library is read anew. *)
Definition gnc_wake (a : gnc_args) (new_commit : SeafCommit) (retry_cnt : nat) (w : World) : gnc_pc * World :=
  match seaf_repo_manager_get_repo (w_db w) (w_commits w) (ga_repo_id a) with
  | None => (GncDone (inl CE_GENERAL), w)
  | Some repo => (GncRetry repo new_commit retry_cnt, w)
  end.

(** One step of a call; [None]: it is done, or a walk ran out of fuel. *)
Definition gnc_step (o : Oracle) (a : gnc_args) (pc : gnc_pc) (w : World) : option (gnc_pc * World) :=
  match pc with
  | GncStart => Some (gnc_start o a w)
  | GncRetry repo new n => gnc_retry o a repo new n w
  | GncPhaseA repo new head merged n => gnc_phase_a o a repo new head merged n w
  | GncPhaseB repo new head merged n acl changes => Some (gnc_phase_b o a repo new head merged n acl changes w)
  | GncSleep new n => Some (gnc_wake a new n w)
  | GncDone _ => None
  end.
End publish.
