(* ===== verification/PublishProof.v ===== *)
(** * What publishing promises

    Over any interleaving of calls of [gen_new_commit]: the history of the head
    only grows, a call that succeeds has its tree in the history, a call takes a
    bounded number of steps, and a publication meets the collector's mark, the
    access rules and the reserved paths it was checked against. *)

From S2P Require Import Prelude Hex FsObj Paths FsMgr Walk Diff Merge CommitMgr Repo CfV2Acl Publish.

#[local] Arguments string_take : simpl never.

(** ** Histories in a growing store *)

Lemma ancestor_mono cs cs' start c : cs ⊆ cs' -> ancestor cs start c -> ancestor cs' start c.
Proof.
  intros Hs. induction 1 as [c E|c p c' _ IH Hp E].
  - apply anc_self. by eapply get_commit_mono.
  - eapply anc_parent; [done|done|]. by eapply get_commit_mono.
Qed.

(** The history of a parent is part of the history. *)
Lemma ancestor_through cs start c p c' :
  seaf_commit_manager_get_commit cs start = Some c -> p ∈ parents c -> ancestor cs p c' -> ancestor cs start c'.
Proof.
  intros Hc Hp. induction 1 as [c' E|c1 q c' _ IH Hq E].
  - eapply anc_parent; [by apply anc_self|done|done].
  - by eapply anc_parent.
Qed.

(** A commit that is stored under its id. *)
Definition stored_commit (cs : commit_store) (c : SeafCommit) : Prop :=
  seaf_commit_manager_get_commit cs (commit_id c) = Some c.

Lemma stored_commit_mono cs cs' c : cs ⊆ cs' -> stored_commit cs c -> stored_commit cs' c.
Proof. intros Hs. by apply get_commit_mono. Qed.

Lemma stored_commit_length cs c : stored_commit cs c -> String.length (commit_id c) = 40%nat.
Proof.
  unfold stored_commit, seaf_commit_manager_get_commit.
  destruct (Nat.eqb_spec (String.length (commit_id c)) 40); done.
Qed.

Lemma strcmp_refl s : (strcmp s s =? 0) = true.
Proof. apply Z.eqb_eq. by apply strcmp_eq. Qed.

Lemma string_take_length n s : (String.length s <= n)%nat -> string_take n s = s.
Proof.
  revert n. induction s as [|c s IH]; intros [|n] H; cbn [String.length] in H; try done; [lia|].
  cbn [string_take]. change (String c (string_take n s) = String c s). by rewrite IH by lia.
Qed.

Lemma get_commit_stored cs id c : seaf_commit_manager_get_commit cs id = Some c -> stored_commit cs c.
Proof. intros E. unfold stored_commit. by rewrite (get_commit_id _ _ _ E). Qed.

Lemma add_commit_grows ok cs c ret cs' :
  seaf_commit_manager_add_commit ok cs c = (ret, cs') -> cs ⊆ cs'.
Proof.
  unfold seaf_commit_manager_add_commit, save_commit. destruct (cs !! commit_id c) eqn:E.
  - by intros [= _ <-].
  - destruct ok; intros [= _ <-]; [by apply insert_subseteq|done].
Qed.

(** ** One step *)

Section steps.
Context (sha1 : list Z -> list Z) (sha256 : list Z -> string).
Context (dir_hash : Z -> list SeafDirent -> string).
Context (fuel : nat) (se : Session) (g_utf8_validate : string -> bool).
Abbreviation step_of := (gnc_step sha1 sha256 dir_hash fuel se g_utf8_validate).

Definition head_of (w : World) (rid : string) : option string := t_Branch (w_db w) !! ("master", rid).

Lemma head_on_branch_updated o w b rid : head_of (on_branch_updated se o w b) rid = head_of w rid.
Proof.
  unfold on_branch_updated. destruct (se_is_repair se); [done|].
  assert (H : forall db cs now r h, t_Branch (seaf_repo_manager_update_repo_info db cs now r h) = t_Branch db).
  { intros. unfold seaf_repo_manager_update_repo_info. by destruct (seaf_commit_manager_get_commit _ _). }
  unfold head_of. destruct (t_VirtualRepo _ !! _); cbn; by rewrite H.
Qed.

Lemma commits_on_branch_updated o w b : w_commits (on_branch_updated se o w b) = w_commits w.
Proof. unfold on_branch_updated. destruct (se_is_repair se); [done|]. by destruct (t_VirtualRepo _ !! _). Qed.

(** A test of the transaction that fails. *)
Ltac refused := intros [= <- <- <-]; split; [done|]; left; split; [lia|done].

(** The transaction: it fails and leaves the rows, or all its tests hold and only
    the branch moves. *)
Lemma phase_b_spec o w b old check_gc last_gc origin acl changes r gc w' :
  phase_b sha256 se g_utf8_validate o w b old check_gc last_gc origin acl changes = (r, gc, w') ->
  w_commits w' = w_commits w /\
  ((r < 0 /\ w_db w' = w_db w) \/
   (r = 0 /\ gc = false /\
    (check_gc = true -> last_gc = t_GCID (w_db w) !! default (b_repo_id b) origin) /\
    (exists h, t_Branch (w_db w) !! (b_name b, b_repo_id b) = Some h /\ old = string_take 40 h) /\
    (exists has, cf_v2_acl_proof sha256 se o true (w_db w) (b_repo_id b) = Some (acl, has)) /\
    (exists schema, cf_v2_edit_check_unscoped_branch se g_utf8_validate o (w_db w) (w_guard_schema w)
       (b_repo_id b) old (b_commit_id b) changes = (0, schema)) /\
    t_Branch (w_db w') = <[(b_name b, b_repo_id b) := b_commit_id b]> (t_Branch (w_db w)))).
Proof.
  unfold phase_b, SEAF_BRANCH_UPDATE_ERROR, SEAF_BRANCH_UPDATE_ACL_DENIED, SEAF_BRANCH_UPDATE_HEAD_CONFLICT.
  destruct (o_fails o QBegin); [refused|].
  destruct (check_gc && o_fails o QGcId); [refused|].
  destruct (check_gc && _) eqn:Egc; [refused|].
  destruct (o_fails o QHead); [refused|].
  destruct (t_Branch (w_db w) !! (b_name b, b_repo_id b)) as [h|] eqn:Eh;
    [|refused].
  destruct (strcmp old (string_take 40 h) =? 0) eqn:Eold; cbn [negb];
    [|refused].
  destruct (cf_v2_acl_proof sha256 se o true (w_db w) (b_repo_id b)) as [[acl_after has]|] eqn:Eacl;
    [|refused].
  destruct (strcmp acl acl_after =? 0) eqn:Ea; cbn [negb];
    [|refused].
  destruct (cf_v2_edit_check_unscoped_branch se g_utf8_validate o (w_db w) (w_guard_schema w) (b_repo_id b)
    old (b_commit_id b) changes) as [g schema] eqn:Eg.
  destruct (g <? 0) eqn:Eg0; [refused|].
  destruct (o_fails o QUpdate); [refused|].
  destruct (o_fails o QCommit); [refused|].
  intros [= <- <- <-]. split; [case_match; [by rewrite commits_on_branch_updated|done]|]. right.
  apply Z.eqb_eq, strcmp_eq in Eold, Ea. subst.
  assert (g = 0) as ->.
  { revert Eg Eg0. unfold cf_v2_edit_check_unscoped_branch, cf_v2_edit_repo_checkout.
    intros Eg Eg0. repeat case_match; simplify_eq; lia. }
  split_and!; [done|done| |by eauto|by eauto|by eauto|].
  - intros ->. cbn [andb] in Egc. apply negb_false_iff, bool_decide_eq_true in Egc. done.
  - case_match; [|done]. unfold on_branch_updated. destruct (se_is_repair se); [done|].
    destruct (t_VirtualRepo _ !! _); cbn; unfold seaf_repo_manager_update_repo_info; by case_match.
Qed.

(** What phase A read and went through. *)
Lemma phase_a_passes o w b old acl p w1 :
  phase_a sha256 fuel se g_utf8_validate o w b old = Some (Some (acl, p), w1) ->
  exists has schema, cf_v2_acl_proof sha256 se o false (w_db w) (b_repo_id b) = Some (acl, has) /\
    cf_v2_edit_prepare_unscoped_branch fuel se o (w_db w) (w_commits w) (w_fs w) (w_guard_schema w) (b_repo_id b) old
      (b_commit_id b) = Some (Some p, schema) /\
    (has = true -> exists actor r, 0 <= r /\
       cf_v2_acl_preflight_scoped g_utf8_validate fuel (w_db w) (w_commits w) (w_fs w) (o_hub o) (b_repo_id b) old
         (b_commit_id b) actor = Some r /\
       forall c, seaf_commit_manager_get_commit (w_commits w) (b_commit_id b) = Some c -> actor = text (creator_name c)).
Proof.
  unfold phase_a. destruct (cf_v2_acl_proof sha256 se o false (w_db w) (b_repo_id b)) as [[a0 has]|]; [|done].
  set (actor := text _). destruct (if has then _ else _) as [allowed|] eqn:Ea; [|done].
  destruct (Z.ltb_spec allowed 0); [done|].
  destruct (cf_v2_edit_prepare_unscoped_branch _ _ _ _ _ _ _ _ _ _) as [[[q|] sc]|] eqn:Ep; [|done..].
  intros [= <- <- _]. exists has, sc. split; [done|]. split; [done|]. intros ->. exists actor, allowed.
  split; [done|]. split; [done|]. intros c Hc. subst actor. rewrite Hc.
  apply preflight_allowed in Ea as (_ & repo & _ & _ & _ & _ & _ & Hrepo & _); [|done]. by rewrite Hrepo.
Qed.

Lemma phase_a_frame o w b old r w' :
  phase_a sha256 fuel se g_utf8_validate o w b old = Some (r, w') -> w_commits w' = w_commits w /\ w_db w' = w_db w.
Proof.
  unfold phase_a. intros E. repeat case_match; simplify_eq; done.
Qed.

(** Nothing a step does takes commits away, and only a transaction moves a head. *)
Lemma gnc_step_frame o a pc w pc' w' :
  step_of o a pc w = Some (pc', w') ->
  w_commits w ⊆ w_commits w' /\
  (match pc with GncPhaseB _ _ _ _ _ _ _ => True | _ => w_db w' = w_db w end).
Proof.
  destruct pc as [|repo new n|repo new head merged n|repo new head merged n acl ch|new n|]; cbn [gnc_step].
  - intros [= E]. unfold gnc_start in E. repeat case_match; simplify_eq; (split; [|done]); try done;
      by eapply add_commit_grows.
  - unfold gnc_retry. intros E. repeat case_match; simplify_eq; (split; [|done]); try done;
      match goal with H : seaf_commit_manager_add_commit _ _ _ = _ |- _ => exact (add_commit_grows _ _ _ _ _ H) end.
  - unfold gnc_phase_a. destruct (phase_a _ _ _ _ _ _ _) as [[[[acl ch]|] w1]|] eqn:E; [..|done];
      apply phase_a_frame in E as [Ec Ed]; intros [= _ <-]; by rewrite Ec, Ed.
  - unfold gnc_phase_b. destruct (phase_b _ _ _ _ _ _ _ _ _ _ _ _) as [[r gc] w1] eqn:E.
    apply phase_b_spec in E as [Ec _]. intros [= _ <-]. by rewrite Ec.
  - intros [= E]. unfold gnc_wake in E. case_match; by simplify_eq.
  - done.
Qed.

(** ** Processes over a shared state *)

Record system := mkSystem { s_world : World; s_calls : gmap nat (gnc_args * gnc_pc) }.

(** The commits a call has made are stored as it made them: no other commit has
    their ids. *)
Definition ids_unique (pc : gnc_pc) (w : World) : Prop :=
  match pc with
  | GncRetry _ new _ | GncSleep new _ => stored_commit (w_commits w) new
  | GncPhaseA _ new _ merged _ | GncPhaseB _ new _ merged _ _ _ =>
      stored_commit (w_commits w) new /\ stored_commit (w_commits w) merged
  | _ => True
  end.

(** A call starts, a call takes a step, or anything else happens: other tables
    change and commits are added, but only calls move the head of the library. *)
Inductive step (rid : string) : system -> system -> Prop :=
| step_call w calls i a :
    calls !! i = None -> ga_repo_id a = rid ->
    step rid (mkSystem w calls) (mkSystem w (<[i := (a, GncStart)]> calls))
| step_proc w calls i a pc o pc' w' :
    calls !! i = Some (a, pc) -> step_of o a pc w = Some (pc', w') -> ids_unique pc' w' ->
    step rid (mkSystem w calls) (mkSystem w' (<[i := (a, pc')]> calls))
| step_env w w' calls :
    head_of w' rid = head_of w rid -> w_commits w ⊆ w_commits w' ->
    step rid (mkSystem w calls) (mkSystem w' calls).

Inductive steps (rid : string) : system -> system -> Prop :=
| steps_refl s : steps rid s s
| steps_trans s1 s2 s3 : steps rid s1 s2 -> step rid s2 s3 -> steps rid s1 s3.

(** A commit of the history of the head. *)
Definition in_history (w : World) (rid : string) (c : SeafCommit) : Prop :=
  exists h, head_of w rid = Some h /\ ancestor (w_commits w) h c.

(** What a call knows. *)
Definition repo_of (rid : string) (repo : SeafRepo) : Prop :=
  b_name (r_head repo) = "master" /\ b_repo_id (r_head repo) = rid.

Definition own_commit (w : World) (a : gnc_args) (new : SeafCommit) : Prop :=
  stored_commit (w_commits w) new /\ root_id new = string_take 40 (ga_new_root a) /\
  parent_id new = Some (commit_id (ga_base a)).

(** [merged] is stored, on top of the head it was made for and of the new commit;
    a call that does not merge publishes the new commit on its base; and where the head
    is still the base there is nothing to merge. *)
Definition ready (w : World) (a : gnc_args) (new head merged : SeafCommit) : Prop :=
  stored_commit (w_commits w) merged /\ commit_id head ∈ parents merged /\
  (merged = new \/ commit_id new ∈ parents merged) /\
  (ga_handle_concurrent_update a = false -> merged = new /\ commit_id head = commit_id (ga_base a)) /\
  (commit_id head = commit_id (ga_base a) -> merged = new).

Definition working (rid : string) (w : World) (a : gnc_args) (pc : gnc_pc) : Prop :=
  match pc with
  | GncRetry repo new _ => repo_of rid repo /\ own_commit w a new
  | GncPhaseA repo new head merged _ | GncPhaseB repo new head merged _ _ _ =>
      repo_of rid repo /\ own_commit w a new /\ ready w a new head merged
  | GncSleep new _ => own_commit w a new
  | GncStart | GncDone _ => True
  end.

Definition call_ok (rid : string) (w : World) (c : gnc_args * gnc_pc) : Prop :=
  let '(a, pc) := c in
  ga_repo_id a = rid /\ working rid w a pc /\
  match pc with
  | GncDone (inr id) =>
      (exists c, commit_id c = id /\ in_history w rid c) /\
      exists new, own_commit w a new /\ in_history w rid new
  | _ => True
  end.

Record system_ok (rid : string) (s : system) : Prop := {
  so_head : exists h c, head_of (s_world s) rid = Some h /\
    seaf_commit_manager_get_commit (w_commits (s_world s)) h = Some c;
  so_calls : map_Forall (fun _ c => call_ok rid (s_world s) c) (s_calls s)
}.

(** The state may change to one that has all the commits and all of the history. *)
Definition extends (rid : string) (w w' : World) : Prop :=
  w_commits w ⊆ w_commits w' /\ (forall c, in_history w rid c -> in_history w' rid c).

Lemma extends_same_head rid w w' :
  w_commits w ⊆ w_commits w' -> head_of w' rid = head_of w rid -> extends rid w w'.
Proof.
  intros Hs Hh. split; [done|]. intros c (h & E & Ha). exists h. rewrite Hh. split; [done|].
  by eapply ancestor_mono.
Qed.

Lemma own_commit_mono w w' a new : w_commits w ⊆ w_commits w' -> own_commit w a new -> own_commit w' a new.
Proof. intros Hs (H1 & H2 & H3). split_and!; [|done|done]. by eapply stored_commit_mono. Qed.

Lemma ready_mono w w' a new head merged :
  w_commits w ⊆ w_commits w' -> ready w a new head merged -> ready w' a new head merged.
Proof. intros Hs (H1 & H2 & H3). split_and!; [|done|apply H3..]. by eapply stored_commit_mono. Qed.

#[local] Hint Resolve own_commit_mono ready_mono : cf.

Lemma working_mono rid w w' a pc : w_commits w ⊆ w_commits w' -> working rid w a pc -> working rid w' a pc.
Proof. intros Hs. destruct pc; cbn [working]; intuition eauto with cf. Qed.

Lemma call_ok_extends rid w w' c : extends rid w w' -> call_ok rid w c -> call_ok rid w' c.
Proof.
  intros [Hs Hh]. destruct c as [a pc]. intros (Ha & Hpc & Hd). split; [done|]. split; [by eapply working_mono|].
  destruct pc as [| | | | |[|id]]; try done. destruct Hd as [(c & E & Hc) (new & Ho & Hn)].
  split; [exists c|exists new]; eauto with cf.
Qed.

Lemma head_taken repo merged cs :
  stored_commit cs merged -> b_commit_id (gnc_branch repo merged) = commit_id merged.
Proof.
  intros Hs. cbn [gnc_branch seaf_branch_set_commit b_commit_id].
  apply string_take_length. rewrite (stored_commit_length _ _ Hs). lia.
Qed.

Lemma get_repo_of db cs rid repo : seaf_repo_manager_get_repo db cs rid = Some repo -> repo_of rid repo.
Proof.
  unfold seaf_repo_manager_get_repo, create_repo. destruct (37 <=? String.length rid)%nat eqn:E; [done|].
  case_bool_decide; [|done]. destruct (t_Branch db !! _) as [h|]; [|done]. cbn [mbind option_bind].
  destruct (seaf_commit_manager_get_commit cs _) as [c|]; [|done]. cbn [mbind option_bind]. intros [= <-].
  split; [done|]. cbn. apply string_take_length. bools. lia.
Qed.

(** What a call knows, it knows after its step. *)
Lemma working_step rid o a pc w pc' w' :
  ga_repo_id a = rid -> working rid w a pc -> step_of o a pc w = Some (pc', w') -> ids_unique pc' w' ->
  working rid w' a pc'.
Proof.
  intros Ha Hok E Hids. destruct (gnc_step_frame _ _ _ _ _ _ E) as [Hs _].
  apply (working_mono _ _ w') in Hok; [|done].
  destruct pc as [|repo new n|repo new head merged n|repo new head merged n acl ch|new n|]; cbn [gnc_step working] in *.
  - injection E as E. unfold gnc_start in E. rewrite Ha in E.
    destruct (seaf_repo_manager_get_repo (w_db w) (w_commits w) rid) as [repo|] eqn:Er; [|by simplify_eq].
    destruct (seaf_commit_manager_add_commit _ _ _) as [ret cs]. destruct (ret <? 0); simplify_eq; [done|].
    split; [by eapply get_repo_of|]. by split_and!.
  - destruct Hok as [Hrepo Hown]. unfold gnc_retry in E.
    destruct (seaf_commit_manager_get_commit (w_commits w) (b_commit_id (r_head repo))) as [head|] eqn:Eh;
      [|by simplify_eq].
    destruct (strcmp (commit_id (ga_base a)) (commit_id head) =? 0) eqn:Eb; cbn [negb] in E.
    + injection E as <- <-. apply Z.eqb_eq, strcmp_eq in Eb. split; [done|split; [done|]].
      split; [apply Hown|]. split; [|split; [by left|by split]]. rewrite <- Eb. apply parent_in. apply Hown.
    + destruct (ga_handle_concurrent_update a) eqn:Eu; cbn [negb] in E; [|by simplify_eq].
      assert (Hne : commit_id head <> commit_id (ga_base a)) by (intros Hx; by rewrite Hx, strcmp_refl in Eb).
      repeat case_match; simplify_eq; try done; destruct Hids as [_ Hm];
        (split; [done|split; [done|]]; split; [exact Hm|]; split; [|split; [right|split; congruence]]; cbn; set_solver).
  - unfold gnc_phase_a in E.
    destruct (phase_a _ _ _ _ _ _ _) as [[[[acl ch]|] w1]|]; [..|done]; by injection E as <- <-.
  - injection E as E. unfold gnc_phase_b in E.
    destruct (phase_b _ _ _ _ _ _ _ _ _ _ _ _) as [[r gc] w1]. injection E as <- <-.
    destruct (r <? 0); [|done]. destruct (r =? _); [done|]. destruct (_ && gc); [done|].
    destruct (negb (r =? _)); [done|]. destruct (negb _); [done|]. destruct (_ <=? _)%nat; [apply Hok|done].
  - injection E as E. unfold gnc_wake in E. rewrite Ha in E.
    destruct (seaf_repo_manager_get_repo (w_db w) (w_commits w) rid) as [repo|] eqn:Er; simplify_eq; [|done].
    split; [by eapply get_repo_of|done].
  - done.
Qed.

(** A step leaves the head where it is and does not end in success, or it is the
    transaction: it puts [merged] on top of the head it was tested against. *)
Definition publishes (rid : string) (a : gnc_args) (new head merged : SeafCommit) (w w' : World) : Prop :=
  own_commit w a new /\ ready w a new head merged /\ w_commits w' = w_commits w /\
  (exists h, head_of w rid = Some h /\ commit_id head = string_take 40 h) /\
  head_of w' rid = Some (commit_id merged).

Lemma step_publishes rid o a pc w pc' w' :
  working rid w a pc -> step_of o a pc w = Some (pc', w') ->
  (head_of w' rid = head_of w rid /\ forall id, pc' <> GncDone (inr id)) \/
  (exists new head merged, pc' = GncDone (inr (commit_id merged)) /\ publishes rid a new head merged w w').
Proof.
  intros Hok E. destruct (gnc_step_frame _ _ _ _ _ _ E) as [_ Hdb].
  destruct pc as [|repo new n|repo new head merged n|repo new head merged n acl ch|new n|]; cbn [gnc_step working] in *;
    [| | | | |done].
  4: { injection E as E. unfold gnc_phase_b in E. destruct Hok as ([Hn Hr] & Hown & Hready).
       destruct (phase_b _ _ _ _ _ _ _ _ _ _ _ _) as [[r gc] w1] eqn:E1. injection E as <- <-.
       apply phase_b_spec in E1 as [Ec [[Hneg Hd]|(-> & _ & _ & (h' & Hh' & Hold) & _ & _ & Hb)]].
       - left. split; [unfold head_of; by rewrite Hd|]. destruct (Z.ltb_spec r 0); [|lia]. destruct (r =? _); [done|].
         destruct (_ && gc); [done|]. destruct (negb (r =? _)); [done|]. destruct (negb _); [done|].
         by destruct (_ <=? _)%nat.
       - right. exists new, head, merged. split; [done|].
         cbn [gnc_branch seaf_branch_set_commit b_name b_repo_id] in Hh', Hb. rewrite Hn, Hr in Hh', Hb.
         split_and!; [done..|by exists h'|]. unfold head_of. rewrite Hb, lookup_insert_eq. f_equal.
         eapply head_taken, Hready. }
  all: left; split; [unfold head_of; by rewrite Hdb|].
  - injection E as E. unfold gnc_start in E. repeat case_match; by simplify_eq.
  - unfold gnc_retry in E. repeat case_match; by simplify_eq.
  - unfold gnc_phase_a in E. repeat case_match; by simplify_eq.
  - injection E as E. unfold gnc_wake in E. case_match; by simplify_eq.
Qed.

(** The head is a stored commit. *)
Definition head_stored (rid : string) (w : World) : Prop :=
  exists h c, head_of w rid = Some h /\ seaf_commit_manager_get_commit (w_commits w) h = Some c.

Lemma publishes_extends rid a new head merged w w' :
  publishes rid a new head merged w w' -> head_stored rid w ->
  extends rid w w' /\ in_history w' rid merged /\ in_history w' rid new.
Proof.
  intros (Hown & (Hm & Hp & Hnew & _) & Ec & (h' & Hh' & Hold) & Hhead) (h & c & Hh & Hc).
  rewrite Hh' in Hh. injection Hh as ->.
  assert (String.length h = 40)%nat as Hlen.
  { unfold seaf_commit_manager_get_commit in Hc. destruct (Nat.eqb_spec (String.length h) 40); done. }
  rewrite string_take_length in Hold by lia.
  assert (Hm1 : stored_commit (w_commits w') merged) by by rewrite Ec.
  assert (Hin : in_history w' rid merged) by (exists (commit_id merged); split; [done|by apply anc_self]).
  split; [split; [by rewrite Ec|]|split; [done|]].
  - intros x (h0 & Hh0 & Hx). rewrite Hh' in Hh0. injection Hh0 as <-.
    exists (commit_id merged). split; [done|]. apply (ancestor_through _ _ merged (commit_id head)); [done|done|].
    rewrite Ec, Hold. done.
  - destruct Hnew as [->|Hnew]; [done|]. exists (commit_id merged). split; [done|].
    apply (anc_parent _ _ merged (commit_id new)); [by apply anc_self|done|]. rewrite Ec. apply Hown.
Qed.

Lemma step_call_ok rid o a pc w pc' w' :
  call_ok rid w (a, pc) -> step_of o a pc w = Some (pc', w') -> ids_unique pc' w' -> head_stored rid w ->
  extends rid w w' /\ call_ok rid w' (a, pc') /\ head_stored rid w'.
Proof.
  intros (Ha & Hok & _) E Hids Hhead. destruct (gnc_step_frame _ _ _ _ _ _ E) as [Hs _].
  pose proof (working_step _ _ _ _ _ _ _ Ha Hok E Hids) as Hok'.
  destruct (step_publishes _ _ _ _ _ _ _ Hok E) as [[Hh Hpc]|(new & head & merged & -> & Hpub)].
  - split; [by apply extends_same_head|]. split.
    + split; [done|]. split; [done|]. destruct pc' as [| | | | |[|id]]; try done. by destruct (Hpc id).
    + destruct Hhead as (h & c & E1 & E2). exists h, c. rewrite Hh. split; [done|]. by eapply get_commit_mono.
  - destruct (publishes_extends _ _ _ _ _ _ _ Hpub Hhead) as (Hext & H1 & H2).
    destruct Hpub as (Hown & (Hm & _) & Ec & _ & Hhead'). split; [done|]. split.
    + split; [done|]. split; [done|]. split; [by exists merged|]. exists new. split; [|done]. by eapply own_commit_mono.
    + exists (commit_id merged), merged. split; [done|]. by rewrite Ec.
Qed.

Lemma steps_ok rid s s' :
  steps rid s s' -> system_ok rid s ->
  system_ok rid s' /\ extends rid (s_world s) (s_world s').
Proof.
  induction 1 as [s|s1 s2 s3 _ IH Hstep]; intros Hs; [split; [done|split; [done|tauto]]|].
  destruct (IH Hs) as [Hs2 [He1 He2]]. clear IH Hs.
  assert (Hgoal : system_ok rid s3 /\ extends rid (s_world s2) (s_world s3)).
  { destruct Hs2 as [Hh Hc]. destruct Hstep as [w calls i a Hi Ha|w calls i a pc o pc' w' Hi E Hids|w w' calls Hh' Hs'];
      cbn [s_world s_calls] in *.
    - split; [|by apply extends_same_head]. split; [done|]. cbn. by apply map_Forall_insert_2.
    - pose proof (Hc i (a, pc) Hi) as Hok.
      destruct (step_call_ok rid o a pc w pc' w' Hok E Hids Hh) as (Hext & Hok' & Hh').
      split; [|done]. split; [done|]. cbn. apply map_Forall_insert_2; [done|].
      eapply map_Forall_impl; [exact Hc|]. intros j c. by apply call_ok_extends.
    - pose proof (extends_same_head rid w w' Hs' Hh') as Hext. split; [|done]. split; cbn.
      + destruct Hh as (h & c & E1 & E2). exists h, c. split; [by rewrite Hh'|]. by eapply get_commit_mono.
      + eapply map_Forall_impl; [exact Hc|]. intros j c. by apply call_ok_extends. }
  destruct Hgoal as [Hs3 [He3 He4]]. split; [done|]. split; [by trans (w_commits (s_world s2))|auto].
Qed.

(** ** A call ends *)

Definition gnc_measure (pc : gnc_pc) : nat :=
  match pc with
  | GncStart => 44
  | GncSleep _ n => 4 * (MAX_RETRY_COUNT - n) + 4
  | GncRetry _ _ n => 4 * (MAX_RETRY_COUNT - n) + 3
  | GncPhaseA _ _ _ _ n => 4 * (MAX_RETRY_COUNT - n) + 2
  | GncPhaseB _ _ _ _ n _ _ => 4 * (MAX_RETRY_COUNT - n) + 1
  | GncDone _ => 0
  end.

Lemma gnc_measure_decreases o a pc w pc' w' :
  step_of o a pc w = Some (pc', w') -> (gnc_measure pc' < gnc_measure pc)%nat.
Proof.
  destruct pc as [|repo new n|repo new head merged n|repo new head merged n acl ch|new n|]; cbn [gnc_step]; try done.
  - intros [= E]. unfold gnc_start in E. repeat case_match; simplify_eq; cbn; lia.
  - unfold gnc_retry. intros E. repeat case_match; simplify_eq; cbn [gnc_measure]; lia.
  - unfold gnc_phase_a. intros E. repeat case_match; simplify_eq; cbn [gnc_measure]; lia.
  - intros [= E]. unfold gnc_phase_b in E. destruct (phase_b _ _ _ _ _ _ _ _ _ _ _ _) as [[r gc] w1].
    injection E as <- _. change (gnc_measure (GncPhaseB _ _ _ _ n _ _)) with (4 * (MAX_RETRY_COUNT - n) + 1)%nat.
    destruct (r <? 0); [|cbn; lia]. destruct (r =? _); [cbn; lia|]. destruct (_ && gc); [cbn; lia|].
    destruct (negb (r =? _)); [cbn; lia|]. destruct (negb _); [cbn; lia|].
    destruct (_ <=? _)%nat eqn:En; bools; cbn [gnc_measure]; unfold MAX_RETRY_COUNT; lia.
  - intros [= E]. unfold gnc_wake in E. case_match; simplify_eq; cbn [gnc_measure]; lia.
Qed.

(** The steps of one call, whatever the others do in between. *)
Inductive call_steps (a : gnc_args) : nat -> gnc_pc -> gnc_pc -> Prop :=
| call_none pc : call_steps a 0 pc pc
| call_more n pc o w pc1 w1 pc2 :
    step_of o a pc w = Some (pc1, w1) -> call_steps a n pc1 pc2 -> call_steps a (S n) pc pc2.

(** C35: a call of [gen_new_commit] takes at most 44 steps, whatever other
    processes do to the shared state between them: at most eleven attempts of the
    compare-and-swap. *)
Theorem gen_new_commit_bounded a n pc : call_steps a n GncStart pc -> (n <= 44)%nat.
Proof.
  enough (H : forall pc0, call_steps a n pc0 pc -> (n + gnc_measure pc <= gnc_measure pc0)%nat).
  { intros Hc. apply H in Hc. cbn [gnc_measure] in Hc. lia. }
  induction 1 as [pc0|m pc0 o w pc1 w1 pc2 E _ IH]; [done|]. apply gnc_measure_decreases in E. lia.
Qed.

(** C3: over any interleaving of calls of [gen_new_commit] with anything else that
    leaves the head row alone, the history of the library only grows: every commit
    reachable from an earlier head is reachable from every later one, so no
    published change is ever lost. *)
Theorem history_only_grows rid s s' c :
  system_ok rid s -> steps rid s s' ->
  in_history (s_world s) rid c -> in_history (s_world s') rid c.
Proof. intros Hs Hst. destruct (steps_ok rid s s' Hst Hs) as [_ [_ H]]. apply H. Qed.

(** C28: a call that reports success has published: the commit it returns and a
    commit with the tree it was given, made on top of its base, are in the history
    of the head, and stay there, as long as new commits get fresh ids (part of
    [steps]). *)
Theorem success_is_published rid s s' i a id :
  system_ok rid s -> steps rid s s' -> s_calls s' !! i = Some (a, GncDone (inr id)) ->
  (exists c, commit_id c = id /\ in_history (s_world s') rid c) /\
  exists new, root_id new = string_take 40 (ga_new_root a) /\
    parent_id new = Some (commit_id (ga_base a)) /\ in_history (s_world s') rid new.
Proof.
  intros Hs Hst Hi. destruct (steps_ok rid s s' Hst Hs) as [[_ Hc] _].
  destruct (Hc i _ Hi) as (_ & _ & Hid & new & (_ & H2 & H3) & H4). split; [done|]. by exists new.
Qed.

(** ** The fence of reserved paths *)

(** The path of a node, as the table of reservations has it. *)
Definition plain_name (n : string) : Prop := n <> EmptyString /\ has_slash n = false.

Lemma path_touches_itself path :
  path <> [] -> Forall plain_name path -> path_touches (Some (join path)) (String slash (join path)) = true.
Proof.
  destruct path as [|n path]; [done|]. intros _ [[Hne Hs] _]%Forall_cons.
  assert (Hj : exists c s, join (n :: path) = String c s /\ is_slash c = false).
  { destruct n as [|c n]; [done|]. cbn [has_slash] in Hs. apply orb_false_iff in Hs as [Hc _].
    destruct path; by eexists _, _. }
  destruct Hj as (c & s & -> & Hc). cbn [path_touches]. rewrite Hc.
  by rewrite (proj2 (Z.eqb_eq _ _) (proj2 (strcmp_eq _ _) eq_refl)).
Qed.

Lemma guard_paths_spec rows : forall acc paths,
  guard_paths g_utf8_validate rows acc = Some paths ->
  (forall p, p ∈ acc -> p ∈ paths) /\ (forall p, Some p ∈ rows -> p ∈ paths).
Proof.
  induction rows as [|row rows IH]; intros acc paths E; cbn [guard_paths] in E.
  - injection E as <-. split; [done|]. by intros p ?%not_elem_of_nil.
  - destruct row as [[|c s]|]; [done| |done]. cbv zeta in E. case_match; [done|].
    destruct (IH _ _ E) as [H1 H2]. split.
    + intros p Hp. apply H1, elem_of_app. by left.
    + intros p [Hp|Hp]%elem_of_cons; [|by apply H2]. injection Hp as ->. apply H1, elem_of_app. right.
      by apply list_elem_of_singleton.
Qed.

(** The same file at a path, or none, in two trees. *)
Definition same_file (a b : option SeafDirent) : Prop :=
  (forall x, file_node a x -> exists y, file_node b y /\
     (d_id x, d_mode x, d_mtime x) = (d_id y, d_mode y, d_mtime y)) /\
  (forall y, file_node b y -> exists x, file_node a x).

Lemma no_change_same_file a b : (forall s e n, ~ change a b s e n) -> same_file a b.
Proof.
  intros H.
  assert (Hdec : forall oe, {x | file_node oe x} + {forall x, ~ file_node oe x}).
  { intros [e|]; [|right; by intros x [? _]]. destruct (S_ISREG (d_mode e)) eqn:E.
    - left. by exists e.
    - right. intros x [[= <-] Hx]. congruence. }
  split.
  - intros x Hx. destruct (Hdec b) as [[y Hy]|Hn]; [|by destruct (H _ _ _ (ch_deleted a b x Hx Hn))].
    exists y. split; [done|].
    destruct (decide ((d_id x, d_mode x, d_mtime x) = (d_id y, d_mode y, d_mtime y))) as [|Hd]; [done|].
    by destruct (H _ _ _ (ch_modified a b y x Hy Hx Hd)).
  - intros y Hy. destruct (Hdec a) as [[x Hx]|Hn]; [by exists x|].
    by destruct (H _ _ _ (ch_added a b y Hy Hn)).
Qed.

(** The changes handed to the fence are those of the diff. *)
Lemma prepare_changes o db cs st schema rid old new p schema' :
  cf_v2_edit_prepare_unscoped_branch fuel se o db cs st schema rid old new = Some (Some p, schema') ->
  cf_v2_edit_repo_checkout se rid = 1 -> old <> new ->
  exists repo c1 c2 r, seaf_repo_manager_get_repo db cs rid = Some repo /\
    seaf_commit_manager_get_commit cs old = Some c1 /\ seaf_commit_manager_get_commit cs new = Some c2 /\
    diff_commit_roots st (r_version repo) fuel (root_id c1) (root_id c2) [] false = Some (r, p_changes p) /\ 0 <= r.
Proof.
  unfold cf_v2_edit_prepare_unscoped_branch. intros E Hp Hne. rewrite Hp in E. cbn [Z.ltb Z.eqb orb Z.compare] in E.
  destruct (Z.eqb_spec (strcmp old new) 0) as [Heq|_]; [by apply strcmp_eq in Heq|].
  destruct (guard_available se o db schema) as [av sc]. destruct (av <=? 0); [done|].
  destruct (seaf_repo_manager_get_repo db cs rid) as [repo|]; [|done].
  destruct (seaf_commit_manager_get_commit cs old) as [c1|]; [|done].
  destruct (seaf_commit_manager_get_commit cs new) as [c2|]; [|done].
  destruct (diff_commit_roots _ _ _ _ _ _ _) as [[r ch]|] eqn:Ed; [|done].
  destruct (Z.ltb_spec r 0); [done|]. injection E as <- _. exists repo, c1, c2, r. done.
Qed.

(** A library with reservations: its trees can be compared. *)
Record comparable (st : fs_store) (version : Z) (root1 root2 : string) (d1 d2 : SeafDir) : Prop := {
  cm_tidy : tidy st version;
  cm_rank : exists rank, ranked st version rank /\ (rank root1 < fuel)%nat /\ (rank root2 < fuel)%nat;
  cm_root1 : seaf_fs_manager_get_seafdir st version root1 = Some d1;
  cm_root2 : seaf_fs_manager_get_seafdir st version root2 = Some d2
}.

(** Every path that changed is a name of the diff. *)
Lemma changed_path_reported st version root1 root2 d1 d2 r changes path s e n :
  comparable st version root1 root2 d1 d2 ->
  diff_commit_roots st version fuel root1 root2 [] false = Some (r, changes) ->
  change (node_in st version (Some d1) path) (node_in st version (Some d2) path) s e n ->
  exists delta, delta ∈ changes /\
    (de_name delta = join path \/
     de_new_name delta = Some (join path) /\
     (de_status delta = DIFF_STATUS_RENAMED \/ de_status delta = DIFF_STATUS_DIR_RENAMED)).
Proof.
  intros [T (rank & R & F1 & F2) H1 H2] Hd Hc.
  destruct (diff_trees_twoway st version rank fuel root1 root2 d1 d2 [] T R H1 H2 F1 F2) as (new & Hnew & Hin).
  unfold diff_commit_roots in Hd. rewrite Hnew in Hd. cbn [Z.ltb Z.compare] in Hd. injection Hd as _ Hch.
  rewrite app_nil_r in Hch. subst changes.
  assert (He : report (join path) s e n ∈ new) by (apply Hin; by exists path, s, e, n).
  exact (resolve_renames_names _ _ He).
Qed.

Lemma check_no_touch o db schema rid old new p schema' tbl rows g delta :
  cf_v2_edit_check_unscoped_branch se g_utf8_validate o db schema rid old new p = (0, schema') ->
  cf_v2_edit_repo_checkout se rid = 1 -> t_cf_edit_guard db = Some tbl -> tbl !! rid = Some rows ->
  Some g ∈ rows -> delta ∈ p_changes p ->
  path_touches (Some (de_name delta)) g = false /\ path_touches (de_new_name delta) g = false.
Proof.
  unfold cf_v2_edit_check_unscoped_branch. intros E Hp Ht Hr Hg Hd. destruct (_ || _); [done|].
  rewrite Hp in E. cbn [Z.leb Z.compare] in E. destruct (guard_available se o db schema) as [av sc].
  destruct (av <=? 0); [done|]. destruct (o_fails o QGuards); [done|]. rewrite Ht, Hr in E.
  change (default [] (Some rows)) with rows in E.
  destruct (guard_paths g_utf8_validate rows []) as [paths|] eqn:Eg; [|done].
  destruct (existsb _ (p_changes p)) eqn:Ex; [done|]. destruct (guard_paths_spec _ _ _ Eg) as [_ Hin].
  apply orb_false_iff. destruct (_ || _) eqn:Et; [|done]. exfalso. rewrite <- not_true_iff_false in Ex. apply Ex.
  apply existsb_exists. exists delta. split; [by apply list_elem_of_In|]. unfold touches_guard.
  apply existsb_exists. exists g. split; [|done]. apply list_elem_of_In. by apply Hin.
Qed.

(** C4: in a library with reservations no publication changes a reserved file:
    when the compare-and-swap succeeds, every path that is reserved at the time of
    the transaction has the same file, or none, in the tree of the old head and in
    the published tree, whatever happened between the diff and the transaction. *)
Theorem reserved_files_unchanged o w b old acl p w1 o' w' check_gc last_gc origin gc w2
    repo c1 c2 d1 d2 tbl rows path :
  phase_a sha256 fuel se g_utf8_validate o w b old = Some (Some (acl, p), w1) ->
  phase_b sha256 se g_utf8_validate o' w' b old check_gc last_gc origin acl p = (0, gc, w2) ->
  cf_v2_edit_repo_checkout se (b_repo_id b) = 1 -> old <> b_commit_id b ->
  t_cf_edit_guard (w_db w') = Some tbl -> tbl !! b_repo_id b = Some rows ->
  Some (String slash (join path)) ∈ rows -> path <> [] -> Forall plain_name path ->
  seaf_repo_manager_get_repo (w_db w) (w_commits w) (b_repo_id b) = Some repo ->
  seaf_commit_manager_get_commit (w_commits w) old = Some c1 ->
  seaf_commit_manager_get_commit (w_commits w) (b_commit_id b) = Some c2 ->
  comparable (w_fs w) (r_version repo) (root_id c1) (root_id c2) d1 d2 ->
  same_file (node_in (w_fs w) (r_version repo) (Some d1) path) (node_in (w_fs w) (r_version repo) (Some d2) path).
Proof.
  intros Ha Hb Hpol Hne Ht Hr Hg Hpath Hplain Hrepo Hc1 Hc2 Hcm.
  apply phase_b_spec in Hb as [_ [[? _]|(_ & _ & _ & _ & _ & (schema & Hchk) & _)]]; [lia|].
  apply phase_a_passes in Ha as (has & schema' & _ & Hprep & _).
  destruct (prepare_changes _ _ _ _ _ _ _ _ _ _ Hprep Hpol Hne) as (repo' & c1' & c2' & r & E1 & E2 & E3 & Hd & Hr0).
  assert (repo' = repo) as -> by congruence. assert (c1' = c1) as -> by congruence.
  assert (c2' = c2) as -> by congruence.
  apply no_change_same_file. intros s e n Hc.
  destruct (changed_path_reported _ _ _ _ _ _ _ _ _ _ _ _ Hcm Hd Hc) as (delta & Hdelta & Hname).
  destruct (check_no_touch _ _ _ _ _ _ _ _ _ _ _ _ Hchk Hpol Ht Hr Hg Hdelta) as [N1 N2].
  pose proof (path_touches_itself path Hpath Hplain) as Htouch. destruct Hname as [Hname|[Hname _]].
  - rewrite Hname in N1. congruence.
  - rewrite Hname in N2. congruence.
Qed.

(** ** The proof of the access rules *)

Lemma split_at_nul l1 : forall l2 t1 t2,
  Forall (fun b => b <> 0) l1 -> Forall (fun b => b <> 0) l2 ->
  l1 ++ 0 :: t1 = l2 ++ 0 :: t2 -> l1 = l2 /\ t1 = t2.
Proof.
  induction l1 as [|x l1 IH]; intros [|y l2] t1 t2 F1 F2 E; cbn in E.
  - by injection E.
  - injection E as <- _. by apply Forall_cons in F2 as [? _].
  - injection E as -> _. by apply Forall_cons in F1 as [? _].
  - injection E as -> E. apply Forall_cons in F1 as [_ F1], F2 as [_ F2].
    by destruct (IH _ _ _ F1 F2 E) as [-> ->].
Qed.

Lemma nul_terminated_inj s1 s2 t1 t2 :
  no_nul s1 -> no_nul s2 -> nul_terminated s1 ++ t1 = nul_terminated s2 ++ t2 -> s1 = s2 /\ t1 = t2.
Proof.
  unfold nul_terminated. rewrite <- !app_assoc. intros H1 H2 E.
  destruct (split_at_nul _ _ _ _ H1 H2 E) as [Hb Ht]. split; [|done].
  by rewrite <- (string_of_bytes_of_string s1), Hb, string_of_bytes_of_string.
Qed.

(** A row of the table: six columns of text, the first the hash of a path, which
    is not as long as a library id. *)
Definition row_ok (r : list (option string)) : Prop :=
  length r = 6%nat /\ (forall v, Some v ∈ r -> no_nul v) /\
  match r with Some v :: _ => String.length v <> 36%nat | _ => True end.

Lemma proof_row_inj r1 : forall r2 b1 b2 t1 t2,
  proof_row r1 = Some b1 -> proof_row r2 = Some b2 -> length r1 = length r2 ->
  (forall v, Some v ∈ r1 -> no_nul v) -> (forall v, Some v ∈ r2 -> no_nul v) ->
  b1 ++ t1 = b2 ++ t2 -> r1 = r2 /\ t1 = t2.
Proof.
  induction r1 as [|[v1|] r1 IH]; intros [|[v2|] r2] b1 b2 t1 t2 E1 E2 Hl N1 N2 E; try done;
    cbn [proof_row] in E1, E2.
  - injection E1 as <-. injection E2 as <-. done.
  - destruct (proof_row r1) as [c1|]; [|done]. destruct (proof_row r2) as [c2|] eqn:Er2; [|done].
    injection E1 as <-. injection E2 as <-. rewrite <- !app_assoc in E. injection Hl as Hl.
    apply nul_terminated_inj in E as [-> E]; [|apply N1; by left|apply N2; by left].
    destruct (IH r2 c1 c2 t1 t2 eq_refl Er2 Hl) as [-> ->]; [| |done|done];
      intros v Hv; [apply N1|apply N2]; by right.
Qed.

(** The rows end where there is no text left or a library id follows. *)
Definition ends (t : list Z) : Prop :=
  t = [] \/ exists s u, no_nul s /\ String.length s = 36%nat /\ t = nul_terminated s ++ u.

Lemma ends_not_row t r b u : ends t -> row_ok r -> proof_row r = Some b -> t <> b ++ u.
Proof.
  intros Hend (Hl & Hn & H0) E Ht. destruct r as [|[v|] r]; [done| |done]. cbn [proof_row] in E.
  destruct (proof_row r) as [c|]; [|done]. injection E as <-. rewrite <- app_assoc in Ht.
  destruct Hend as [->|(s & u' & Hs & Hlen & ->)].
  - unfold nul_terminated in Ht. by destruct (bytes_of_string v).
  - apply nul_terminated_inj in Ht as [-> _]; [done|done|apply Hn; by left].
Qed.

Lemma proof_rows_inj rows1 : forall rows2 b1 b2 t1 t2,
  proof_rows rows1 = Some b1 -> proof_rows rows2 = Some b2 -> Forall row_ok rows1 -> Forall row_ok rows2 ->
  ends t1 -> ends t2 -> b1 ++ t1 = b2 ++ t2 -> rows1 = rows2 /\ t1 = t2.
Proof.
  induction rows1 as [|r1 rows1 IH]; intros [|r2 rows2] b1 b2 t1 t2 E1 E2 F1 F2 H1 H2 E;
    cbn [proof_rows] in E1, E2.
  - injection E1 as <-. injection E2 as <-. done.
  - exfalso. apply Forall_cons in F2 as [R2 _]. injection E1 as <-.
    destruct (proof_row r2) as [c|] eqn:Er; [|done]. destruct (proof_rows rows2) as [d|]; [|done].
    injection E2 as <-. rewrite <- app_assoc in E. by apply (ends_not_row t1 r2 c (d ++ t2)).
  - exfalso. apply Forall_cons in F1 as [R1 _]. injection E2 as <-.
    destruct (proof_row r1) as [c|] eqn:Er; [|done]. destruct (proof_rows rows1) as [d|]; [|done].
    injection E1 as <-. rewrite <- app_assoc in E. symmetry in E. by apply (ends_not_row t2 r1 c (d ++ t1)).
  - apply Forall_cons in F1 as [R1 F1], F2 as [R2 F2].
    destruct (proof_row r1) as [c1|] eqn:Er1; [|done]. destruct (proof_rows rows1) as [d1|] eqn:Ed1; [|done].
    destruct (proof_row r2) as [c2|] eqn:Er2; [|done]. destruct (proof_rows rows2) as [d2|] eqn:Ed2; [|done].
    injection E1 as <-. injection E2 as <-. rewrite <- !app_assoc in E.
    destruct R1 as (L1 & N1 & _), R2 as (L2 & N2 & _).
    apply (proof_row_inj r1 r2 c1 c2) in E as [-> E]; try done; [|congruence].
    by destruct (IH rows2 d1 d2 t1 t2 eq_refl Ed2 F1 F2 H1 H2 E) as [-> ->].
Qed.

(** The rules that apply to a library: its own, and those of the library it is a
    part of. *)
Definition acl_rows (db : Db) (rid : string) : list (list (option string)) :=
  acl_columns <$> default [] (t_cf_dir_acl db !! rid).
Definition rules (db : Db) (rid : string) :=
  (acl_rows db rid, (fun v => (v_origin_repo_id v, acl_rows db (v_origin_repo_id v))) <$> t_VirtualRepo db !! rid).

Definition rules_ok (db : Db) (rid : string) : Prop :=
  Forall row_ok (acl_rows db rid) /\
  forall v, t_VirtualRepo db !! rid = Some v ->
    no_nul (v_origin_repo_id v) /\ Forall row_ok (acl_rows db (v_origin_repo_id v)).

Lemma acl_proof_text o trans db rid acl has :
  cf_v2_acl_proof sha256 se o trans db rid = Some (acl, has) ->
  exists b t, acl = sha256 (nul_terminated rid ++ b ++ t) /\ proof_rows (acl_rows db rid) = Some b /\
    match t_VirtualRepo db !! rid with
    | None => t = []
    | Some v => String.length (v_origin_repo_id v) = 36%nat /\
        exists b', proof_rows (acl_rows db (v_origin_repo_id v)) = Some b' /\
          t = nul_terminated (v_origin_repo_id v) ++ b'
    end.
Proof.
  unfold cf_v2_acl_proof, proof_repo. destruct (_ || _); [done|]. destruct (o_fails o (QAcl trans rid)); [done|].
  fold (acl_rows db rid). destruct (4096 <? _); [done|].
  destruct (proof_rows (acl_rows db rid)) as [b|]; [|done]. cbn [mbind option_bind].
  destruct (o_fails o (QOrigin trans)); [done|]. destruct (t_VirtualRepo db !! rid) as [v|].
  - destruct (Nat.eqb_spec (String.length (v_origin_repo_id v)) 36) as [Hl|]; cbn [negb orb]; [|done].
    destruct (strcmp _ _ =? 0); [done|]. destruct (o_fails o _); [done|].
    fold (acl_rows db (v_origin_repo_id v)). destruct (4096 <? _); [done|].
    destruct (proof_rows (acl_rows db (v_origin_repo_id v))) as [b'|]; [|done]. cbn [mbind option_bind].
    intros [= <- _]. exists b, (nul_terminated (v_origin_repo_id v) ++ b'). rewrite <- !app_assoc. eauto 10.
  - intros [= <- _]. exists b, []. by rewrite app_nil_r.
Qed.

Lemma acl_proof_rules o o' trans trans' db db' rid acl has has' :
  (forall x y, sha256 x = sha256 y -> x = y) -> rules_ok db rid -> rules_ok db' rid ->
  cf_v2_acl_proof sha256 se o trans db rid = Some (acl, has) ->
  cf_v2_acl_proof sha256 se o' trans' db' rid = Some (acl, has') ->
  rules db rid = rules db' rid.
Proof.
  intros Hinj [F1 V1] [F2 V2] E1 E2.
  apply acl_proof_text in E1 as (b1 & t1 & -> & P1 & T1), E2 as (b2 & t2 & Eh & P2 & T2).
  apply Hinj, app_inv_head in Eh.
  assert (He : forall db t, rules_ok db rid ->
    match t_VirtualRepo db !! rid with
    | None => t = []
    | Some v => String.length (v_origin_repo_id v) = 36%nat /\
        exists b', proof_rows (acl_rows db (v_origin_repo_id v)) = Some b' /\
          t = nul_terminated (v_origin_repo_id v) ++ b'
    end -> ends t).
  { intros d t [_ V]. destruct (t_VirtualRepo d !! rid) as [v|]; [|by left]. intros (Hl & b' & _ & ->). right.
    exists (v_origin_repo_id v), b'. split; [by apply V|done]. }
  destruct (proof_rows_inj _ _ _ _ _ _ P1 P2 F1 F2 (He db t1 (conj F1 V1) T1) (He db' t2 (conj F2 V2) T2) Eh)
    as [Hrows Ht]. unfold rules. rewrite Hrows. f_equal.
  destruct (t_VirtualRepo db !! rid) as [v1|], (t_VirtualRepo db' !! rid) as [v2|]; [| | |done].
  - destruct T1 as (L1 & c1 & Q1 & ->), T2 as (L2 & c2 & Q2 & ->).
    destruct (V1 v1 eq_refl) as [N1 G1], (V2 v2 eq_refl) as [N2 G2].
    apply nul_terminated_inj in Ht as [Ho Ht]; [|done|done]. cbn. rewrite Ho in *.
    destruct (proof_rows_inj _ _ c1 c2 [] [] Q1 Q2 G1 G2) as [-> _]; [by left|by left|by rewrite !app_nil_r|done].
  - exfalso. destruct T1 as (L1 & c1 & _ & ->). rewrite T2 in Ht. unfold nul_terminated in Ht.
    by destruct (bytes_of_string (v_origin_repo_id v1)).
  - exfalso. destruct T2 as (L2 & c2 & _ & ->). rewrite T1 in Ht. unfold nul_terminated in Ht.
    by destruct (bytes_of_string (v_origin_repo_id v2)).
Qed.

(** a publication holds under the conditions it was prepared for: at the
    transaction the head is the one the new tree was made for, the collector has
    not run since the mark was read, and the access rules are the very rules the
    change was authorized against. *)
Theorem publication_conditions o w b old acl p w1 o' w' check_gc last_gc origin gc w2 :
  (forall x y, sha256 x = sha256 y -> x = y) ->
  rules_ok (w_db w) (b_repo_id b) -> rules_ok (w_db w') (b_repo_id b) ->
  phase_a sha256 fuel se g_utf8_validate o w b old = Some (Some (acl, p), w1) ->
  phase_b sha256 se g_utf8_validate o' w' b old check_gc last_gc origin acl p = (0, gc, w2) ->
  (exists h, t_Branch (w_db w') !! (b_name b, b_repo_id b) = Some h /\ string_take 40 h = old) /\
  (check_gc = true -> t_GCID (w_db w') !! default (b_repo_id b) origin = last_gc) /\
  rules (w_db w) (b_repo_id b) = rules (w_db w') (b_repo_id b) /\
  t_Branch (w_db w2) = <[(b_name b, b_repo_id b) := b_commit_id b]> (t_Branch (w_db w')).
Proof.
  intros Hinj R1 R2 Ha Hb.
  apply phase_b_spec in Hb as [_ [[? _]|(_ & _ & Hgc & (h & Hh & Hold) & (has & Hacl) & _ & Hbr)]]; [lia|].
  apply phase_a_passes in Ha as (pr & schema & Ep & _).
  split_and!; [by exists h| |by eapply acl_proof_rules|done]. intros Hg. by rewrite Hgc.
Qed.

(** ** The Hub's answer to a change of a protected library *)

#[global] Instance entry_kind_eq_dec : EqDecision entry_kind.
Proof. solve_decision. Defined.
#[global] Instance acl_action_eq_dec : EqDecision acl_action.
Proof. solve_decision. Defined.
#[global] Instance acl_check_eq_dec : EqDecision acl_check.
Proof. solve_decision. Defined.

Lemma acl_proof_protected o trans db rid acl has :
  cf_v2_acl_proof sha256 se o trans db rid = Some (acl, has) -> acl_rows db rid <> [] -> has = true.
Proof.
  unfold cf_v2_acl_proof, proof_repo. intros E Hne. destruct (_ || _); [done|].
  destruct (o_fails o (QAcl trans rid)); [done|]. fold (acl_rows db rid) in E. destruct (4096 <? _); [done|].
  destruct (proof_rows (acl_rows db rid)); [|done]. cbn [mbind option_bind] in E.
  destruct (acl_rows db rid) as [|row rows]; [done|]. cbn [length Nat.eqb negb orb] in E.
  repeat case_match; by simplify_option_eq.
Qed.

(** The kind the Hub is told for a change: a directory for the directories. *)
Definition changed_kind (s : diff_status) : entry_kind :=
  match s with
  | DIFF_STATUS_DIR_ADDED | DIFF_STATUS_DIR_DELETED | DIFF_STATUS_DIR_RENAMED => KindDir
  | _ => KindFile
  end.

Lemma plain_join path : path <> [] -> Forall plain_name path -> join path <> EmptyString.
Proof.
  intros Hne Hp. destruct path as [|n path]; [done|]. apply Forall_cons in Hp as [[Hn' _] _].
  destruct n as [|c n]; [done|]. by destruct path.
Qed.

(** The checks of an entry, and of the two sides of a rename. *)
Lemma asked_plain e c :
  renamed_to e = None ->
  asked e c <-> c = mkCheck (String slash (de_name e)) (changed_kind (de_status e)) ActionWrite.
Proof.
  intros Hr. unfold asked. rewrite Hr.
  assert (Hk : (if scoped_entry_is_dir e then KindDir else KindFile) = changed_kind (de_status e))
    by (unfold scoped_entry_is_dir; by destruct (de_status e)).
  rewrite Hk. naive_solver.
Qed.

Lemma asked_rename del add c :
  same_content_kind del add ->
  (asked (rename_of del add) c ->
   c = mkCheck (String slash (de_name del)) (changed_kind (de_status del)) ActionWrite \/
   c = mkCheck (String slash (de_name add)) (changed_kind (de_status add)) ActionWrite) /\
  asked (rename_of del add) (mkCheck (String slash (de_name del)) (changed_kind (de_status del)) ActionWrite) /\
  (de_name add <> EmptyString ->
   asked (rename_of del add) (mkCheck (String slash (de_name add)) (changed_kind (de_status add)) ActionWrite)).
Proof.
  unfold asked, rename_of, renamed_to, scoped_entry_is_dir, same_content_kind, has_status.
  intros [_ [[Hd Ha]|[Hd Ha]]]; rewrite Hd, Ha; cbn; (split; [|split]).
  - intros (n & [-> | Hn] & ->); [by left|right]. by destruct (de_name add); [|injection Hn as ->].
  - eexists. split; [by left|done].
  - intros Hne. exists (de_name add). split; [right; by destruct (de_name add)|done].
  - intros (n & [-> | Hn] & ->); [by left|right]. by destruct (de_name add); [|injection Hn as ->].
  - eexists. split; [by left|done].
  - intros Hne. exists (de_name add). split; [right; by destruct (de_name add)|done].
Qed.

(** The check of a change at a path. *)
Definition path_check (path : list string) (s : diff_status) : acl_check :=
  mkCheck (String slash (join path)) (changed_kind s) ActionWrite.

(** The request of a comparison asks for the changes of the two trees and for
    nothing else. *)
Lemma checks_exact st version root1 root2 d1 d2 r changes checks :
  comparable st version root1 root2 d1 d2 ->
  diff_commit_roots st version fuel root1 root2 [] false = Some (r, changes) ->
  scoped_checks g_utf8_validate changes [] = Some checks ->
  let changed path s := exists e n,
    change (node_in st version (Some d1) path) (node_in st version (Some d2) path) s e n in
  (forall path s, path <> [] -> Forall plain_name path -> changed path s -> path_check path s ∈ checks) /\
  (forall c, c ∈ checks -> exists path s, changed path s /\ c = path_check path s).
Proof.
  intros [T (rank & R & F1 & F2) H1 H2] Hd Hk changed.
  destruct (diff_trees_twoway st version rank fuel root1 root2 d1 d2 [] T R H1 H2 F1 F2) as (new & Hnew & Hin).
  unfold diff_commit_roots in Hd. rewrite Hnew in Hd. cbn [Z.ltb Z.compare] in Hd. injection Hd as _ Hch.
  rewrite app_nil_r in Hch. subst changes.
  destruct (resolve_renames_entries new) as [Hto Hfrom].
  assert (Hnone : forall path s e n, renamed_to (report path s e n) = None)
    by (intros path s e n; unfold renamed_to, report; cbn; by destruct s).
  assert (Hrep : forall e, e ∈ new -> exists path s, changed path s /\ renamed_to e = None /\
    mkCheck (String slash (de_name e)) (changed_kind (de_status e)) ActionWrite = path_check path s).
  { intros e (path & s & x & o & Hc & ->)%Hin. exists path, s. split; [by exists x, o|]. by rewrite Hnone. }
  split.
  - intros path s Hpath Hplain (e & n & Hc). apply (scoped_checks_spec _ _ _ _ Hk). right.
    assert (He : report (join path) s e n ∈ new) by (apply Hin; by exists path, s, e, n).
    destruct (Hto _ He) as [Hr|(del & add & Hr & Hkind & Hside)].
    + exists (report (join path) s e n). split; [done|]. by apply (asked_plain _ _ (Hnone _ _ _ _)).
    + exists (rename_of del add). split; [done|]. destruct (asked_rename del add (path_check path s) Hkind) as (_ & Hdel & Hadd).
      destruct Hside as [<-|<-]; [exact Hdel|]. apply Hadd. by apply plain_join.
  - intros c [?%not_elem_of_nil|(delta & Hdelta & Hask)]%(scoped_checks_spec _ _ _ _ Hk); [done|].
    destruct (Hfrom _ Hdelta) as [Hold|(del & add & -> & Hkind & Hdel & Hadd)].
    + destruct (Hrep _ Hold) as (path & s & Hc & Hr & Ec). exists path, s. split; [done|].
      rewrite <- Ec. by apply (asked_plain _ _ Hr).
    + destruct (proj1 (asked_rename del add c Hkind) Hask) as [-> | ->].
      * destruct (Hrep _ Hdel) as (path & s & Hc & _ & Ec). by exists path, s.
      * destruct (Hrep _ Hadd) as (path & s & Hc & _ & Ec). by exists path, s.
Qed.

(** C5: in a library with access rules nothing is published that the Hub did not
    authorize: when the compare-and-swap succeeds, the Hub has answered positively
    to one request of the author of the commit for write checks, and the checks of
    that request are exactly the changes between the tree of the old head and the
    published tree, each with its kind: every path where a file was added, deleted
    or modified, an empty directory added, or a directory deleted (a directory
    added with contents shows in its contents; a rename counts as its two sides).
    The rules at the transaction are the rules before the request. *)
Theorem protected_changes_authorized o w b old acl p w1 o' w' check_gc last_gc origin gc w2
    repo c1 c2 d1 d2 :
  (forall x y, sha256 x = sha256 y -> x = y) ->
  rules_ok (w_db w) (b_repo_id b) -> rules_ok (w_db w') (b_repo_id b) ->
  phase_a sha256 fuel se g_utf8_validate o w b old = Some (Some (acl, p), w1) ->
  phase_b sha256 se g_utf8_validate o' w' b old check_gc last_gc origin acl p = (0, gc, w2) ->
  acl_rows (w_db w) (b_repo_id b) <> [] ->
  seaf_repo_manager_get_repo (w_db w) (w_commits w) (b_repo_id b) = Some repo ->
  seaf_commit_manager_get_commit (w_commits w) old = Some c1 ->
  seaf_commit_manager_get_commit (w_commits w) (b_commit_id b) = Some c2 ->
  comparable (w_fs w) (r_version repo) (root_id c1) (root_id c2) d1 d2 ->
  let changed path s := exists e n,
    change (node_in (w_fs w) (r_version repo) (Some d1) path)
           (node_in (w_fs w) (r_version repo) (Some d2) path) s e n in
  rules (w_db w) (b_repo_id b) = rules (w_db w') (b_repo_id b) /\
  exists checks,
    authorize_change (o_hub o (mkRequest (b_repo_id b) (text (creator_name c2)) false checks)) = true /\
    (forall path s, path <> [] -> Forall plain_name path -> changed path s ->
       path_check path s ∈ checks) /\
    (forall c, c ∈ checks -> exists path s, changed path s /\ c = path_check path s) /\
    (forall path, path <> [] -> Forall plain_name path ->
       same_file (node_in (w_fs w) (r_version repo) (Some d1) path)
                 (node_in (w_fs w) (r_version repo) (Some d2) path) \/
       exists s, path_check path s ∈ checks).
Proof.
  intros Hinj R1 R2 Ha Hb Hne Hrepo Hc1 Hc2 Hcm changed.
  apply phase_b_spec in Hb as [_ [[? _]|(_ & _ & _ & _ & (has' & Hacl) & _)]]; [lia|].
  apply phase_a_passes in Ha as (has & schema & Ep & _ & Hpre). split; [by eapply acl_proof_rules|].
  destruct (Hpre (acl_proof_protected _ _ _ _ _ _ Ep Hne)) as (actor & r & Hr & Hpf & Hact).
  rewrite (Hact c2 Hc2) in Hpf.
  apply preflight_allowed in Hpf as (_ & repo' & old' & next & ret & changes & checks & E1 & _ & E2 & E3 & Hd & _ & Hk & Hauth);
    [|done].
  assert (repo' = repo) as -> by congruence. assert (old' = c1) as -> by congruence.
  assert (next = c2) as -> by congruence. exists checks. split; [done|].
  destruct (checks_exact _ _ _ _ _ _ _ _ _ Hcm Hd Hk) as [Hto Hfrom]. split_and!; [done..|].
  intros path Hpath Hplain.
  destruct (decide (path_check path DIFF_STATUS_ADDED ∈ checks)) as [|N1]; [by right; eexists|].
  destruct (decide (path_check path DIFF_STATUS_DIR_ADDED ∈ checks)) as [|N2]; [by right; eexists|].
  left. apply no_change_same_file. intros s e n Hc.
  pose proof (Hto path s Hpath Hplain (ex_intro _ e (ex_intro _ n Hc))) as Hin.
  by destruct s.
Qed.

(** ** A call that is alone *)

Fixpoint gnc_run (n : nat) (o : Oracle) (a : gnc_args) (pc : gnc_pc) (w : World) : option (gnc_pc * World) :=
  match n with
  | O => Some (pc, w)
  | S n => '(pc, w) ← step_of o a pc w; gnc_run n o a pc w
  end.

(** The commit a call makes. *)
Definition new_commit_of (o : Oracle) (a : gnc_args) (repo : SeafRepo) : SeafCommit :=
  let c := seaf_commit_new sha1 (o_now o) None (r_id repo) (ga_new_root a) (ga_user a) EMPTY_SHA1 (ga_desc a) 0 in
  seaf_repo_to_commit repo (set_parents c (Some (commit_id (ga_base a))) (second_parent_id c)).

(** Nothing fails, the library has no access rules and no reservations, its head
    is the base of the call, and the collector has not run. *)
Record calm (o : Oracle) (a : gnc_args) (w : World) (repo : SeafRepo) (acl : string) : Prop := {
  ca_fails : forall q, o_fails o q = false;
  ca_write : o_commit_write o = true;
  ca_acl : forall t, cf_v2_acl_proof sha256 se o t (w_db w) (ga_repo_id a) = Some (acl, false);
  ca_policy : cf_v2_edit_repo_checkout se (ga_repo_id a) = 0;
  ca_repo : seaf_repo_manager_get_repo (w_db w) (w_commits w) (ga_repo_id a) = Some repo;
  ca_head : head_of w (ga_repo_id a) = Some (commit_id (ga_base a));
  ca_base : stored_commit (w_commits w) (ga_base a);
  ca_gc : ga_check_gc a = true -> ga_last_gc_id a = t_GCID (w_db w) !! r_store_id repo;
  ca_id : String.length (commit_id (new_commit_of o a repo)) = 40%nat
}.

Lemma get_repo_head db cs rid repo :
  seaf_repo_manager_get_repo db cs rid = Some repo ->
  exists h, t_Branch db !! ("master", rid) = Some h /\ b_commit_id (r_head repo) = string_take 40 h.
Proof.
  unfold seaf_repo_manager_get_repo, create_repo. destruct (37 <=? String.length rid)%nat; [done|].
  case_bool_decide; [|done]. destruct (t_Branch db !! _) as [h|]; [|done]. cbn [mbind option_bind].
  destruct (seaf_commit_manager_get_commit cs _) as [c|]; [|done]. cbn [mbind option_bind]. intros [= <-].
  by exists h.
Qed.

Lemma calm_run o a w repo acl :
  calm o a w repo acl ->
  let new := new_commit_of o a repo in
  exists w', gnc_run 4 o a GncStart w = Some (GncDone (inr (commit_id new)), w') /\
    head_of w' (ga_repo_id a) = Some (commit_id new) /\
    w_commits w' = match w_commits w !! commit_id new with
                   | Some _ => w_commits w
                   | None => <[commit_id new := new]> (w_commits w)
                   end.
Proof.
  intros [Hf Hw Hacl Hpol Hrepo Hhead Hbase Hgc Hid] new.
  destruct (get_repo_head _ _ _ _ Hrepo) as (h & Hh & Hrh). unfold head_of in Hhead. rewrite Hh in Hhead.
  injection Hhead as ->. rewrite string_take_length in Hrh by (rewrite (stored_commit_length _ _ Hbase); lia).
  destruct (get_repo_of _ _ _ _ Hrepo) as [Hname Hrid].
  set (cs' := match w_commits w !! commit_id new with
              | Some _ => w_commits w | None => <[commit_id new := new]> (w_commits w) end).
  assert (Hadd : seaf_commit_manager_add_commit (o_commit_write o) (w_commits w) new = (0, cs')).
  { unfold seaf_commit_manager_add_commit, save_commit, cs'. rewrite Hw. by destruct (w_commits w !! commit_id new). }
  assert (Hsub : w_commits w ⊆ cs') by by eapply add_commit_grows.
  set (w1 := set_commits w cs').
  assert (E1 : step_of o a GncStart w = Some (GncRetry repo new 0, w1)).
  { cbn [gnc_step]. unfold gnc_start. rewrite Hrepo. fold (new_commit_of o a repo). fold new. by rewrite Hadd. }
  assert (E2 : step_of o a (GncRetry repo new 0) w1 = Some (GncPhaseA repo new (ga_base a) new 0, w1)).
  { cbn [gnc_step]. unfold gnc_retry. rewrite Hrh.
    assert (seaf_commit_manager_get_commit (w_commits w1) (commit_id (ga_base a)) = Some (ga_base a)) as ->
      by by apply (get_commit_mono (w_commits w)).
    by rewrite strcmp_refl. }
  assert (Hbid : b_commit_id (gnc_branch repo new) = commit_id new).
  { cbn [gnc_branch seaf_branch_set_commit b_commit_id]. apply string_take_length. unfold new. lia. }
  assert (Hbr : b_repo_id (gnc_branch repo new) = ga_repo_id a) by exact Hrid.
  assert (Hbn : b_name (gnc_branch repo new) = "master") by exact Hname.
  set (p := mkPrepared (ga_repo_id a) (commit_id (ga_base a)) (commit_id new) []).
  assert (E3 : step_of o a (GncPhaseA repo new (ga_base a) new 0) w1
    = Some (GncPhaseB repo new (ga_base a) new 0 acl p, w1)).
  { cbn [gnc_step]. unfold gnc_phase_a, phase_a. rewrite Hbr. cbn [w1 set_commits w_db]. rewrite Hacl.
    cbn [andb]. unfold cf_v2_edit_prepare_unscoped_branch. rewrite Hpol. cbn [Z.ltb Z.eqb orb Z.compare].
    by rewrite Hbid. }
  assert (E4 : exists w', step_of o a (GncPhaseB repo new (ga_base a) new 0 acl p) w1
    = Some (GncDone (inr (commit_id new)), w') /\ head_of w' (ga_repo_id a) = Some (commit_id new) /\
      w_commits w' = cs').
  { cbn [gnc_step]. unfold gnc_phase_b, phase_b. rewrite !Hf, Hbr, Hbn, Hbid, !andb_false_r.
    cbn [w1 set_commits w_db]. rewrite Hh, Hacl.
    rewrite string_take_length by (rewrite (stored_commit_length _ _ Hbase); lia). rewrite !strcmp_refl. cbn [negb].
    assert (gnc_check_gc se a && negb (same_text (ga_last_gc_id a)
      (t_GCID (w_db w) !! default (ga_repo_id a) (Some (r_store_id repo)))) = false) as ->.
    { unfold gnc_check_gc. destruct (bool_decide (se_db_type se = SEAF_DB_TYPE_SQLITE)); [done|].
      destruct (ga_check_gc a) eqn:Eg; [|done]. cbn [default andb]. rewrite Hgc by done. unfold same_text.
      by rewrite bool_decide_true. }
    unfold cf_v2_edit_check_unscoped_branch. rewrite Hpol, !strcmp_refl. cbn [negb orb Z.leb Z.ltb Z.compare].
    eexists. split; [done|]. split.
    - case_match; [rewrite head_on_branch_updated|]; unfold head_of; cbn; by rewrite lookup_insert_eq.
    - case_match; [by rewrite commits_on_branch_updated|done]. }
  destruct E4 as (w' & E4 & H4). exists w'. split; [|done]. cbn [gnc_run].
  rewrite E1. cbn [mbind option_bind]. rewrite E2. cbn [mbind option_bind]. rewrite E3. cbn [mbind option_bind].
  rewrite E4. done.
Qed.


(** the parents are not part of a commit's id, so a commit made in the same
    second by the same user with the same tree and description has the id of the
    first; publishing it makes the old commit the head again, and what was
    published in between is no longer in the history. *)
Theorem reused_id_rewinds_head o a w repo acl c_old :
  calm o a w repo acl -> w_commits w !! commit_id (new_commit_of o a repo) = Some c_old ->
  ~ ancestor (w_commits w) (commit_id (new_commit_of o a repo)) (ga_base a) ->
  in_history w (ga_repo_id a) (ga_base a) /\
  exists w' id, gnc_run 4 o a GncStart w = Some (GncDone (inr id), w') /\
    ~ in_history w' (ga_repo_id a) (ga_base a).
Proof.
  intros Hc Hold Hnot. destruct (calm_run o a w repo acl Hc) as (w' & E & Hh & Hcs). rewrite Hold in Hcs.
  split.
  - exists (commit_id (ga_base a)). split; [apply Hc|]. apply anc_self. apply Hc.
  - exists w', (commit_id (new_commit_of o a repo)). split; [done|]. intros (h & Eh & Ha).
    rewrite Hh in Eh. injection Eh as <-. rewrite Hcs in Ha. done.
Qed.

End steps.

(** ** Witnesses: a library with one commit, and what happens to it *)

Definition toy_rid : string := "12345678-1234-1234-1234-123456789abc".
Definition toy_sha1 (l : list Z) : list Z :=
  replicate 19 0 ++ [foldl (fun a b => (a * 31 + b) mod 251) 7 l].
Definition toy_sha256 (l : list Z) : string := foldr (fun z t => delim (number z) t) EmptyString l.

Lemma toy_sha256_inj x : forall y, toy_sha256 x = toy_sha256 y -> x = y.
Proof.
  assert (Hne : forall z t, delim (number z) t <> EmptyString) by (intros z t; by destruct (number z)).
  induction x as [|a x IH]; intros [|b y] E; cbn in E; [done|..].
  - by symmetry in E; apply Hne in E.
  - by apply Hne in E.
  - apply delim_inj in E as [Ea%number_inj E]. by rewrite Ea, (IH _ E).
Qed.

Definition toy_session : Session := mkSession SEAF_DB_TYPE_MYSQL KeyMissing None false.
Definition toy_oracle : Oracle :=
  mkOracle 100 true (fun _ => true) (fun _ => false) (fun _ => (200, None)) toy_conflict toy_conflict.
Definition toy_db (head : string) : Db :=
  mkDb {[toy_rid]} {[("master", toy_rid) := head]} ∅ ∅ ∅ ∅ (Some ∅).
Definition toy_base : SeafCommit := toy_commit c_1 10 None None.
Definition toy_world : World := mkWorld (toy_db c_1) {[c_1 := toy_base]} ∅ [] 0.
Definition toy_args (base : SeafCommit) : gnc_args :=
  mkArgs toy_rid base c_4 (Some "me") "Added" false true None.
Abbreviation toy_step := (gnc_step toy_sha1 toy_sha256 toy_hash 5 toy_session (fun _ => true)).
Definition toy_system : system := mkSystem toy_world ∅.

Lemma toy_system_ok : system_ok toy_rid toy_system.
Proof.
  split; [|apply map_Forall_empty]. exists c_1, toy_base. by split; vm_compute.
Qed.

Section cons.
Context (sha1 : list Z -> list Z) (sha256 : list Z -> string) (dir_hash : Z -> list SeafDirent -> string).
Context (fuel : nat) (se : Session) (g_utf8_validate : string -> bool).
Abbreviation steps := (steps sha1 sha256 dir_hash fuel se g_utf8_validate).
Abbreviation step := (step sha1 sha256 dir_hash fuel se g_utf8_validate).

Lemma steps_cons rid s1 s2 s3 : step rid s1 s2 -> steps rid s2 s3 -> steps rid s1 s3.
Proof. intros H1. induction 1 as [|x y z _ IH]; [eapply steps_trans; [constructor|done]|]. by eapply steps_trans; [apply IH|]. Qed.

Definition storedb (w : World) (c : SeafCommit) : bool :=
  bool_decide (seaf_commit_manager_get_commit (w_commits w) (commit_id c) = Some c).
Definition ids_uniqueb (pc : gnc_pc) (w : World) : bool :=
  match pc with
  | GncRetry _ new _ | GncSleep new _ => storedb w new
  | GncPhaseA _ new _ merged _ | GncPhaseB _ new _ merged _ _ _ => storedb w new && storedb w merged
  | _ => true
  end.

Lemma ids_uniqueb_sound pc w : ids_uniqueb pc w = true -> ids_unique pc w.
Proof.
  unfold ids_uniqueb, storedb. destruct pc; cbn [ids_unique]; try done;
    rewrite ?andb_true_iff, ?bool_decide_eq_true; done.
Qed.

(** The states of a call that runs alone. *)
Lemma run_steps rid i a n o : forall pc w calls pc' w',
  calls !! i = Some (a, pc) -> gnc_run sha1 sha256 dir_hash fuel se g_utf8_validate n o a pc w = Some (pc', w') ->
  (forall k, (k <= n)%nat ->
     match gnc_run sha1 sha256 dir_hash fuel se g_utf8_validate k o a pc w with
     | Some (pc1, w1) => ids_uniqueb pc1 w1 | None => true end = true) ->
  exists calls', calls' !! i = Some (a, pc') /\ steps rid (mkSystem w calls) (mkSystem w' calls').
Proof.
  induction n as [|n IH]; intros pc w calls pc' w' Hi E Hids; cbn [gnc_run] in E.
  - injection E as -> ->. exists calls. split; [done|constructor].
  - destruct (gnc_step sha1 sha256 dir_hash fuel se g_utf8_validate o a pc w) as [[pc1 w1]|] eqn:E1; [|done].
    cbn [mbind option_bind] in E.
    destruct (IH pc1 w1 (<[i := (a, pc1)]> calls) pc' w') as (calls' & Hc & Hs); [by rewrite lookup_insert_eq|done| |].
    { intros k Hk. specialize (Hids (S k) ltac:(lia)). cbn [gnc_run] in Hids. by rewrite E1 in Hids. }
    exists calls'. split; [done|]. eapply steps_cons; [|exact Hs]. eapply step_proc; [done|exact E1|].
    specialize (Hids 1%nat ltac:(lia)). cbn [gnc_run] in Hids. rewrite E1 in Hids. by apply ids_uniqueb_sound.
Qed.
End cons.

Definition toy_id : string := commit_id (new_commit_of toy_sha1 toy_oracle (toy_args toy_base)
  (mkRepo toy_rid toy_rid None (mkBranch "master" toy_rid c_1) EmptyString None None None 0 false 0
     EmptyString EmptyString EmptyString EmptyString None None false false 0 0)).

Lemma toy_run :
  exists w' calls', head_of w' toy_rid = Some toy_id /\
    calls' !! 0%nat = Some (toy_args toy_base, GncDone (inr toy_id)) /\
    steps toy_sha1 toy_sha256 toy_hash 5 toy_session (fun _ => true) toy_rid toy_system (mkSystem w' calls').
Proof.
  pose (r := gnc_run toy_sha1 toy_sha256 toy_hash 5 toy_session (fun _ => true) 4 toy_oracle (toy_args toy_base)
               GncStart toy_world).
  assert (Hr : exists w', r = Some (GncDone (inr toy_id), w') /\ head_of w' toy_rid = Some toy_id).
  { assert (Hb : match r with
                 | Some (GncDone (inr id), w') =>
                     bool_decide (id = toy_id) && bool_decide (head_of w' toy_rid = Some toy_id)
                 | _ => false
                 end = true) by (vm_compute; reflexivity).
    destruct r as [[[|?|?|?|?|[?|id]] w']|]; try done. apply andb_true_iff in Hb as [H1 H2].
    apply bool_decide_eq_true in H1 as ->, H2. by exists w'. }
  destruct Hr as (w' & Er & Hh).
  destruct (run_steps toy_sha1 toy_sha256 toy_hash 5 toy_session (fun _ => true) toy_rid 0 (toy_args toy_base) 4
    toy_oracle GncStart toy_world {[0%nat := (toy_args toy_base, GncStart)]} (GncDone (inr toy_id)) w')
    as (calls' & Hc & Hs); [by rewrite lookup_singleton_eq|exact Er| |].
  - intros k Hk. destruct k as [|[|[|[|[|k]]]]]; [vm_compute; reflexivity..|lia].
  - exists w', calls'. split; [done|]. split; [done|]. eapply steps_cons; [|exact Hs].
    apply (step_call _ _ _ _ _ _ toy_rid toy_world ∅ 0%nat); done.
Qed.

Lemma history_only_grows_witness :
  exists w' calls', head_of w' toy_rid = Some toy_id /\ in_history w' toy_rid toy_base /\
    steps toy_sha1 toy_sha256 toy_hash 5 toy_session (fun _ => true) toy_rid toy_system (mkSystem w' calls').
Proof.
  destruct toy_run as (w' & calls' & Hh & _ & Hs). exists w', calls'. split; [exact Hh|]. split; [|exact Hs].
  apply (history_only_grows toy_sha1 toy_sha256 toy_hash 5 toy_session (fun _ => true) toy_rid toy_system
    (mkSystem w' calls') toy_base).
  - exact toy_system_ok.
  - exact Hs.
  - exists c_1. split; [vm_compute; reflexivity|]. apply anc_self. vm_compute. reflexivity.
Defined.

Lemma success_is_published_witness :
  exists w' new, root_id new = string_take 40 c_4 /\ parent_id new = Some c_1 /\ in_history w' toy_rid new.
Proof.
  destruct toy_run as (w' & calls' & _ & Hc & Hs). exists w'.
  destruct (success_is_published toy_sha1 toy_sha256 toy_hash 5 toy_session (fun _ => true) toy_rid toy_system
    (mkSystem w' calls') 0%nat (toy_args toy_base) toy_id toy_system_ok Hs Hc) as [_ (new & H1 & H2 & H3)].
  exists new. split; [exact H1|]. split; [exact H2|exact H3].
Defined.

Lemma gen_new_commit_bounded_witness :
  exists pc, call_steps toy_sha1 toy_sha256 toy_hash 5 toy_session (fun _ => true) (toy_args toy_base) 1 GncStart pc /\
    (1 <= 44)%nat.
Proof.
  eexists. assert (H : call_steps toy_sha1 toy_sha256 toy_hash 5 toy_session (fun _ => true) (toy_args toy_base) 1
    GncStart (fst (gnc_start toy_sha1 toy_oracle (toy_args toy_base) toy_world))).
  { eapply (call_more _ _ _ _ _ _ _ 0 GncStart toy_oracle toy_world _
      (snd (gnc_start toy_sha1 toy_oracle (toy_args toy_base) toy_world))); [|constructor].
    cbn [gnc_step]. by rewrite <- surjective_pairing. }
  split; [exact H|]. apply (gen_new_commit_bounded _ _ _ _ _ _ _ _ _ H).
Defined.

Definition toy_repo (w : World) : SeafRepo :=
  default (mkRepo EmptyString EmptyString None (mkBranch EmptyString EmptyString EmptyString) EmptyString None None None
    0 false 0 EmptyString EmptyString EmptyString EmptyString None None false false 0 0)
    (seaf_repo_manager_get_repo (w_db w) (w_commits w) toy_rid).

Lemma toy_calm w base :
  forall acl, cf_v2_acl_proof toy_sha256 toy_session toy_oracle false (w_db w) toy_rid = Some (acl, false) ->
  cf_v2_acl_proof toy_sha256 toy_session toy_oracle true (w_db w) toy_rid = Some (acl, false) ->
  is_Some (seaf_repo_manager_get_repo (w_db w) (w_commits w) toy_rid) ->
  head_of w toy_rid = Some (commit_id base) -> stored_commit (w_commits w) base ->
  t_GCID (w_db w) !! r_store_id (toy_repo w) = None ->
  String.length (commit_id (new_commit_of toy_sha1 toy_oracle (toy_args base) (toy_repo w))) = 40%nat ->
  calm toy_sha1 toy_sha256 toy_session toy_oracle (toy_args base) w (toy_repo w) acl.
Proof.
  intros acl H1 H2 [repo H3] H4 H5 H6 H7.
  assert (Hrepo : seaf_repo_manager_get_repo (w_db w) (w_commits w) toy_rid = Some (toy_repo w)).
  { unfold toy_repo. by rewrite H3. }
  split; [by intros q|done|by intros []|done|exact Hrepo|exact H4|exact H5|by intros _|exact H7].
Qed.


(** The commit [c_2] follows one that has the id the next commit will have. *)
Definition later_base : SeafCommit := toy_commit c_2 20 (Some toy_id) None.
Definition rewind_world : World :=
  mkWorld (toy_db c_2) {[c_2 := later_base; toy_id := toy_commit toy_id 15 None None]} ∅ [] 0.

Lemma rewind_ancestors c : ancestor (w_commits rewind_world) toy_id c -> c = toy_commit toy_id 15 None None.
Proof.
  induction 1 as [c E|c p c' _ IH Hp E]; [by vm_compute in E; injection E|].
  subst c. by vm_compute in Hp; apply not_elem_of_nil in Hp.
Qed.

Lemma reused_id_rewinds_head_witness :
  in_history rewind_world toy_rid later_base /\
  exists w' id, gnc_run toy_sha1 toy_sha256 toy_hash 5 toy_session (fun _ => true) 4 toy_oracle (toy_args later_base)
    GncStart rewind_world = Some (GncDone (inr id), w') /\ ~ in_history w' toy_rid later_base.
Proof.
  apply (reused_id_rewinds_head toy_sha1 toy_sha256 toy_hash 5 toy_session (fun _ => true) toy_oracle
    (toy_args later_base) rewind_world (toy_repo rewind_world) (toy_sha256 (nul_terminated toy_rid))
    (toy_commit toy_id 15 None None)).
  - apply toy_calm; vm_compute; by eauto.
  - vm_compute. reflexivity.
  - intros H. assert (Hid : commit_id (new_commit_of toy_sha1 toy_oracle (toy_args later_base) (toy_repo rewind_world)) = toy_id)
      by (vm_compute; reflexivity).
    rewrite Hid in H. apply rewind_ancestors, (f_equal commit_id) in H. vm_compute in H. discriminate H.
Defined.

(** A library with a reservation: a file is added beside the reserved one. *)
Definition root_ab : list SeafDirent := [toy_dirent 0x8000 "y" "b"; toy_dirent 0x8000 "x" "a"].
Definition guard_store : fs_store :=
  <[toy_hash 1 root_a := ODir (mkDir 1 (toy_hash 1 root_a) root_a)]>
  (<[toy_hash 1 root_ab := ODir (mkDir 1 (toy_hash 1 root_ab) root_ab)]> ∅).
Definition tree_commit (id root : string) (parent : option string) : SeafCommit :=
  mkCommit id toy_rid root "d" (Some "me") EMPTY_SHA1 5 parent None (Some "lib") None None None None false 0
    None None None None None None false 1 false false false.
Definition guard_session : Session := mkSession SEAF_DB_TYPE_MYSQL (KeyBool true) (Some toy_rid) false.
Definition guard_db : Db :=
  mkDb {[toy_rid]} {[("master", toy_rid) := c_1]} ∅ ∅ ∅ ∅ (Some {[toy_rid := [Some "/a"]]}).
Definition guard_c1 : SeafCommit := tree_commit c_1 (toy_hash 1 root_a) None.
Definition guard_c2 : SeafCommit := tree_commit c_2 (toy_hash 1 root_ab) (Some c_1).
Definition guard_world : World :=
  mkWorld guard_db {[c_1 := guard_c1; c_2 := guard_c2]} guard_store [] 0.
Definition guard_branch : SeafBranch := mkBranch "master" toy_rid c_2.

(** The parts of what the first phase gives. *)
Definition prepared_acl (a : option (option (string * CfV2EditPrepared) * World)) : string :=
  match a with Some (Some (acl, _), _) => acl | _ => EmptyString end.
Definition prepared_changes (a : option (option (string * CfV2EditPrepared) * World)) : CfV2EditPrepared :=
  match a with Some (Some (_, p), _) => p | _ => mkPrepared EmptyString EmptyString EmptyString [] end.
Definition prepared_world (w : World) (a : option (option (string * CfV2EditPrepared) * World)) : World :=
  match a with Some (_, w) => w | None => w end.

Lemma prepared_parts w a :
  match a with Some (Some _, _) => true | _ => false end = true ->
  a = Some (Some (prepared_acl a, prepared_changes a), prepared_world w a).
Proof. by destruct a as [[[[]|] ?]|]. Qed.

Lemma published_parts (b : Z * bool * World) :
  (let '(r, gc, _) := b in (r =? 0) && negb gc) = true -> b = (0, false, snd b).
Proof. destruct b as [[r []] w]; rewrite ?andb_false_r; [done|]. intros [->%Z.eqb_eq _]%andb_true_iff. done. Qed.

Definition guard_a : option (option (string * CfV2EditPrepared) * World) :=
  phase_a toy_sha256 5 guard_session (fun _ => true) toy_oracle guard_world guard_branch c_1.
Definition guard_acl : string := prepared_acl guard_a.
Definition guard_p : CfV2EditPrepared := prepared_changes guard_a.
Definition guard_w1 : World := prepared_world guard_world guard_a.
Definition guard_b : Z * bool * World :=
  phase_b toy_sha256 guard_session (fun _ => true) toy_oracle guard_w1 guard_branch c_1 true None None guard_acl guard_p.

Lemma guard_a_eq :
  phase_a toy_sha256 5 guard_session (fun _ => true) toy_oracle guard_world guard_branch c_1 = Some (Some (guard_acl, guard_p), guard_w1).
Proof. apply (prepared_parts guard_world guard_a). vm_compute. reflexivity. Qed.

Lemma guard_b_eq :
  phase_b toy_sha256 guard_session (fun _ => true) toy_oracle guard_w1 guard_branch c_1 true None None guard_acl guard_p
  = (0, false, snd guard_b).
Proof. apply (published_parts guard_b). vm_compute. reflexivity. Qed.

Lemma guard_comparable :
  comparable 5 guard_store 1 (toy_hash 1 root_a) (toy_hash 1 root_ab)
    (mkDir 1 (toy_hash 1 root_a) root_a) (mkDir 1 (toy_hash 1 root_ab) root_ab).
Proof.
  destruct (check_store_sound guard_store 1 (fun _ => 0%nat)) as [T R]; [vm_compute; reflexivity|].
  split; [exact T| |vm_compute; reflexivity|vm_compute; reflexivity]. exists (fun _ => 0%nat). split; [exact R|]. lia.
Qed.

Lemma reserved_files_unchanged_witness :
  length (p_changes guard_p) = 1%nat /\
  same_file (node_in guard_store 1 (Some (mkDir 1 (toy_hash 1 root_a) root_a)) ["a"])
    (node_in guard_store 1 (Some (mkDir 1 (toy_hash 1 root_ab) root_ab)) ["a"]).
Proof.
  split; [vm_compute; reflexivity|].
  apply (reserved_files_unchanged toy_sha256 5 guard_session (fun _ => true) toy_oracle guard_world guard_branch c_1
    guard_acl guard_p guard_w1 toy_oracle guard_w1 true None None false (snd guard_b)
    (toy_repo guard_world) guard_c1 guard_c2 (mkDir 1 (toy_hash 1 root_a) root_a)
    (mkDir 1 (toy_hash 1 root_ab) root_ab) {[toy_rid := [Some "/a"]]} [Some "/a"] ["a"]).
  - exact guard_a_eq.
  - exact guard_b_eq.
  - vm_compute. reflexivity.
  - discriminate.
  - vm_compute. reflexivity.
  - vm_compute. reflexivity.
  - by left.
  - discriminate.
  - repeat constructor. discriminate.
  - vm_compute. reflexivity.
  - vm_compute. reflexivity.
  - vm_compute. reflexivity.
  - exact guard_comparable.
Defined.

Lemma guard_rules_ok w : w_db w = guard_db -> rules_ok (w_db w) toy_rid.
Proof. intros ->. split; [constructor|]. intros v Hv. by vm_compute in Hv. Qed.

Lemma publication_conditions_witness :
  t_Branch (w_db (snd guard_b)) = <[("master", toy_rid) := c_2]> (t_Branch guard_db) /\
  rules guard_db toy_rid = rules (w_db guard_w1) toy_rid.
Proof.
  destruct (publication_conditions toy_sha256 5 guard_session (fun _ => true) toy_oracle guard_world guard_branch c_1
    guard_acl guard_p guard_w1 toy_oracle guard_w1 true None None false (snd guard_b)) as (_ & _ & Hr & Hb).
  - intros x y. apply toy_sha256_inj.
  - apply guard_rules_ok. reflexivity.
  - apply guard_rules_ok. vm_compute. reflexivity.
  - exact guard_a_eq.
  - exact guard_b_eq.
  - split; [exact Hb|exact Hr].
Defined.

(** The same library with an access rule: the Hub lets its author write [/b] only. *)
Definition strict_hub (r : acl_request) : hub_answer :=
  (200, Some (JObject [("allowed", JBool (forallb (fun c => strcmp (ck_path c) "/b" =? 0) (rq_checks r)
                                          && (strcmp (rq_username r) "me" =? 0)));
                       ("contract", JString "cf-acl-v1")])).
Definition rule_oracle : Oracle :=
  mkOracle 100 true (fun _ => true) (fun _ => false) strict_hub toy_conflict toy_conflict.
Definition rule_row : AclRow :=
  mkAclRow "/b" [Some "00ff"; Some "user"; Some "p"; Some "n"; Some "id"; Some "rev"].
Definition rule_db : Db :=
  mkDb {[toy_rid]} {[("master", toy_rid) := c_1]} ∅ ∅ ∅ {[toy_rid := [rule_row]]} (Some ∅).
Definition rule_world : World :=
  mkWorld rule_db {[c_1 := guard_c1; c_2 := guard_c2]} guard_store [] 0.
Definition rule_a : option (option (string * CfV2EditPrepared) * World) :=
  phase_a toy_sha256 5 guard_session (fun _ => true) rule_oracle rule_world guard_branch c_1.
Definition rule_acl : string := prepared_acl rule_a.
Definition rule_p : CfV2EditPrepared := prepared_changes rule_a.
Definition rule_w1 : World := prepared_world rule_world rule_a.
Definition rule_b : Z * bool * World :=
  phase_b toy_sha256 guard_session (fun _ => true) rule_oracle rule_w1 guard_branch c_1 true None None rule_acl rule_p.

Lemma rule_a_eq :
  phase_a toy_sha256 5 guard_session (fun _ => true) rule_oracle rule_world guard_branch c_1
  = Some (Some (rule_acl, rule_p), rule_w1).
Proof. apply (prepared_parts rule_world rule_a). vm_compute. reflexivity. Qed.

Lemma rule_b_eq :
  phase_b toy_sha256 guard_session (fun _ => true) rule_oracle rule_w1 guard_branch c_1 true None None rule_acl rule_p
  = (0, false, snd rule_b).
Proof. apply (published_parts rule_b). vm_compute. reflexivity. Qed.

Lemma rule_rules_ok w : w_db w = rule_db -> rules_ok (w_db w) toy_rid.
Proof.
  intros ->. split; [|intros v Hv; by vm_compute in Hv].
  assert (E : acl_rows rule_db toy_rid = [acl_columns rule_row]) by (vm_compute; reflexivity). rewrite E.
  constructor; [|constructor]. split; [reflexivity|]. split; [|discriminate].
  intros v Hv. unfold rule_row, acl_columns in Hv. repeat (apply elem_of_cons in Hv as [[= ->]|Hv]; [repeat constructor; discriminate|]).
  by apply elem_of_nil in Hv.
Qed.

Lemma protected_changes_authorized_witness :
  exists checks, authorize_change (strict_hub (mkRequest toy_rid "me" false checks)) = true /\
    mkCheck "/b" KindFile ActionWrite ∈ checks.
Proof.
  destruct (protected_changes_authorized toy_sha256 5 guard_session (fun _ => true) rule_oracle rule_world guard_branch c_1
    rule_acl rule_p rule_w1 rule_oracle rule_w1 true None None false (snd rule_b)
    (toy_repo rule_world) guard_c1 guard_c2 (mkDir 1 (toy_hash 1 root_a) root_a)
    (mkDir 1 (toy_hash 1 root_ab) root_ab)) as [_ (checks & Hauth & Hall & _ & _)].
  - intros x y. apply toy_sha256_inj.
  - apply rule_rules_ok. reflexivity.
  - apply rule_rules_ok. vm_compute. reflexivity.
  - exact rule_a_eq.
  - exact rule_b_eq.
  - vm_compute. discriminate.
  - vm_compute. reflexivity.
  - vm_compute. reflexivity.
  - vm_compute. reflexivity.
  - exact guard_comparable.
  - exists checks. split; [exact Hauth|].
    apply (Hall ["b"] DIFF_STATUS_ADDED); [discriminate|repeat constructor; discriminate|].
    exists (toy_dirent 0x8000 "y" "b"), 0. apply ch_added.
    + split; vm_compute; reflexivity.
    + intros x [Hx _]. vm_compute in Hx. discriminate Hx.
Defined.
