(* ===== verification/CfLock.v ===== *)
(** * The write barrier of reserved paths ([common/cf-lock.c])

    A provider of the write lifecycle: an operation is refused when a path it
    writes, or a path below it, is reserved by an active row of [cf_edit_guard].
    The barrier asks the database with [LIKE]; the fence of
    [common/cf-v2-edit-fence.c] compares the changed paths itself.  Both test the
    same relation on components, [at_or_below]. *)

From S2P Require Import Prelude Hex Paths Sql CfPath FsObj FsMgr Diff Merge CommitMgr Repo Publish CfFileop.

(** The escaping loop of the pattern is [like_escape]. *)
Definition like_descendant_pattern (path : string) : string :=
  if strcmp path "/" =? 0 then "/%" else like_escape path +:+ "/%".

Inductive lock_query := LExact (repo_id path : string) | LDescendant (repo_id path : string).

Section lock.
Context (sha256 : list Z -> string) (se : Session).
(** The database, and the queries that fail. *)
Context (db : Db) (fails : lock_query -> bool).

(** Rows selected with [LIMIT 1], or -1; without the table the query fails. *)
Definition select_guard (q : lock_query) (repo_id : string) (cond : string -> bool) : Z :=
  if fails q then -1
  else match t_cf_edit_guard db with
       | None => -1
       | Some tbl =>
           if existsb (fun row => match row with Some g => cond g | None => false end)
                (default [] (tbl !! repo_id)) then 1 else 0
       end.

(** The column [path_hash] of a row holds the digest of its path. *)
Definition load_exact (repo_id path : string) : Z :=
  let hash p := sha256 (bytes_of_string p) in
  select_guard (LExact repo_id path) repo_id (fun g => (strcmp (hash g) (hash path) =? 0) && sql_eq g path).

Definition load_descendant (repo_id path : string) : Z :=
  select_guard (LDescendant repo_id path) repo_id (sql_like (like_descendant_pattern path)).

Definition unavailable : gerror := mkErr SEAF_ERR_GENERAL "CloudFile lock barrier unavailable".
Definition locked (path : string) : gerror := mkErr CF_ERR_FILE_LOCKED ("File " +:+ path +:+ " is locked").

(** [None]: allowed. *)
Definition check_path (repo_id path : string) : option gerror :=
  let policy := cf_v2_edit_repo_checkout se repo_id in
  if policy =? 0 then None
  else if policy <? 0 then Some unavailable
  else
    let n := load_exact repo_id path in
    if n <? 0 then Some unavailable
    else if 0 <? n then Some (locked path)
    else
      let n := load_descendant repo_id path in
      if n <? 0 then Some unavailable
      else if 0 <? n then Some (locked path)
      else None.

(** The loops stop at the first refusal. *)
Fixpoint check_paths (l : list (string * string)) : option gerror :=
  match l with
  | [] => None
  | (repo_id, path) :: l => match check_path repo_id path with Some e => Some e | None => check_paths l end
  end.

Definition cf_lock_prepare (lock_on : bool) (fop : CfFileOp) : option gerror :=
  if negb lock_on || cf_fileop_op_pathless (fo_op fop) then None
  else match fo_repo_id fop with
       | None => None
       | Some repo_id =>
           let source_repo := default repo_id (fo_src_repo_id fop) in
           let dest := cf_v2_edit_repo_checkout se repo_id in
           let source := cf_v2_edit_repo_checkout se source_repo in
           if (dest <? 0) || (source <? 0)
           then Some (mkErr SEAF_ERR_GENERAL "CloudFile per-repo Checkout policy invalid")
           else if (dest =? 0) && (source =? 0) then None
           else check_paths (map (pair repo_id) (cf_fileop_subject_paths fop) ++
                             map (pair source_repo) (cf_fileop_source_paths fop))
       end.
End lock.

(** ** Reserved paths *)

(** A reserved path as the Hub writes it. *)
Definition guard_path (g : string) : Prop := exists l, Forall is_component l /\ l <> [] /\ g = absolute l.

Lemma like_descendant_spec l g :
  Forall is_component l -> guard_path g ->
  sql_like (like_descendant_pattern (absolute l)) g = true <->
  l `prefix_of` components g /\ (l = [] \/ l <> components g).
Proof.
  intros Hl (k & Hk & Hne & ->). rewrite components_absolute by done. unfold like_descendant_pattern.
  destruct l as [|x l].
  - change (strcmp (absolute []) "/" =? 0) with true. rewrite like_slash_any.
    split; [intros _; split; [apply prefix_nil|by left]|]. intros _. destruct k as [|c k]; [done|]. by eexists.
  - destruct (strcmp (absolute (x :: l)) "/" =? 0) eqn:E.
    { apply Z.eqb_eq, strcmp_eq in E. change "/" with (absolute []) in E. by apply absolute_inj in E. }
    rewrite like_below. pose proof (at_or_below_text (x :: l) k Hl Hk ltac:(done) Hne) as T. split.
    + intros (r & Er). split; [apply T; by eauto|]. right. intros <-.
      assert (String.length (absolute (x :: l)) = String.length (absolute (x :: l) +:+ String slash r)) as Hlen
        by (by rewrite <- Er). rewrite string_length_app in Hlen. simpl in Hlen. lia.
    + intros [Hp [?|Hneq]]; [done|]. apply T in Hp as [E'|?]; [|done].
      by apply absolute_inj in E'; [|done|done].
Qed.

Lemma guard_path_components g l : guard_path g -> Forall is_component l -> components g = l -> g = absolute l.
Proof. intros (k & Hk & _ & ->) Hl <-. by rewrite components_absolute. Qed.

(** The fence's test of a changed path, relative as the diff names it. *)
Lemma path_touches_prefix l g :
  Forall is_component l -> l <> [] -> guard_path g ->
  path_touches (Some (absolute l)) g = true <-> l `prefix_of` components g.
Proof.
  intros Hl Hne (k & Hk & Hke & ->). rewrite components_absolute by done.
  rewrite <- at_or_below_text by done. destruct l as [|x l]; [done|].
  change (absolute (x :: l)) with (String slash (x +:+ spell l)). cbn [path_touches].
  change (is_slash slash) with true. cbv iota. rewrite orb_true_iff, Z.eqb_eq, strcmp_eq.
  set (p := String slash (x +:+ spell l)). split.
  - intros [E|E]; [by left|]. right. clear -E. revert E. generalize (absolute k). induction p as [|c p IH]; intros t E.
    + destruct t as [|y t]; [done|]. change (String.prefix ("" +:+ "/") (String y t)) with
        (if Ascii.ascii_dec slash y then String.prefix "" t else false) in E.
      destruct (Ascii.ascii_dec slash y) as [<-|]; [|done]. by exists t.
    + destruct t as [|y t]; [done|]. change (String.prefix (String c p +:+ "/") (String y t)) with
        (if Ascii.ascii_dec c y then String.prefix (p +:+ "/") t else false) in E.
      destruct (Ascii.ascii_dec c y) as [<-|]; [|done]. apply IH in E as [r ->]. by exists r.
  - intros [->|[r ->]]; [by left|right]. change (String slash r) with ("/" +:+ r).
    rewrite <- string_app_assoc. apply string_prefix_app.
Qed.

Section barrier.
Context (sha256 : list Z -> string) (se : Session) (db : Db) (fails : lock_query -> bool).

(** The active reservations of a library. *)
Definition guards (repo_id : string) : list string :=
  match t_cf_edit_guard db with Some tbl => omap id (default [] (tbl !! repo_id)) | None => [] end.

Definition guards_ok : Prop := forall repo_id g, g ∈ guards repo_id -> guard_path g.

Lemma select_guard_rows q repo_id cond :
  let n := select_guard db fails q repo_id cond in
  if n <? 0 then fails q = true \/ t_cf_edit_guard db = None
  else if 0 <? n then exists g, g ∈ guards repo_id /\ cond g = true
  else forall g, g ∈ guards repo_id -> cond g = false.
Proof.
  unfold select_guard, guards. destruct (fails q); [by left|].
  destruct (t_cf_edit_guard db) as [tbl|]; [|by right].
  destruct (existsb _ _) eqn:E; simpl.
  - apply existsb_exists in E as ([g|] & Hin & Hc); [|done]. exists g. split; [|done].
    apply list_elem_of_omap. exists (Some g). split; [by apply list_elem_of_In|done].
  - intros g (row & Hin & Hr)%list_elem_of_omap. destruct row as [g'|]; simpl in Hr; [|done]. injection Hr as ->.
    apply not_true_iff_false. intros Hc. apply not_true_iff_false in E. apply E, existsb_exists.
    exists (Some g). by split; [apply list_elem_of_In|].
Qed.

Lemma exact_rows repo_id path :
  if load_exact sha256 db fails repo_id path <? 0 then fails (LExact repo_id path) = true \/ t_cf_edit_guard db = None
  else if 0 <? load_exact sha256 db fails repo_id path
  then exists g, g ∈ guards repo_id /\
         (strcmp (sha256 (bytes_of_string g)) (sha256 (bytes_of_string path)) =? 0) && sql_eq g path = true
  else forall g, g ∈ guards repo_id ->
         (strcmp (sha256 (bytes_of_string g)) (sha256 (bytes_of_string path)) =? 0) && sql_eq g path = false.
Proof. apply (select_guard_rows (LExact repo_id path)). Qed.

Lemma descendant_rows repo_id path :
  if load_descendant db fails repo_id path <? 0 then fails (LDescendant repo_id path) = true \/ t_cf_edit_guard db = None
  else if 0 <? load_descendant db fails repo_id path
  then exists g, g ∈ guards repo_id /\ sql_like (like_descendant_pattern path) g = true
  else forall g, g ∈ guards repo_id -> sql_like (like_descendant_pattern path) g = false.
Proof. apply (select_guard_rows (LDescendant repo_id path)). Qed.

(** Whether the barrier applies to the library, and a reservation stands at or
    below the path. *)
Definition reserved (repo_id path : string) : Prop :=
  (exists ids, checkout_policy se = Some ids /\ repo_id ∈ ids) /\ exists g, g ∈ guards repo_id /\ at_or_below path g.

(** No two different paths at hand share a digest. *)
Definition digests_distinct (path : string) : Prop :=
  forall repo_id g, g ∈ guards repo_id -> sha256 (bytes_of_string g) = sha256 (bytes_of_string path) -> g = path.

Lemma check_path_allows repo_id l :
  guards_ok -> Forall is_component l ->
  check_path sha256 se db fails repo_id (absolute l) = None -> ~ reserved repo_id (absolute l).
Proof.
  intros Hok Hl E ((ids & Hids & Hr) & g & Hg & Hb). unfold at_or_below in Hb. rewrite components_absolute in Hb by done.
  unfold check_path in E.
  assert (Hpol : cf_v2_edit_repo_checkout se repo_id = 1)
    by (unfold cf_v2_edit_repo_checkout; rewrite Hids; by rewrite bool_decide_true).
  rewrite Hpol in E. simpl in E. pose proof (Hok _ _ Hg) as Hgp.
  pose proof (exact_rows repo_id (absolute l)) as He. pose proof (descendant_rows repo_id (absolute l)) as Hd.
  destruct (load_exact sha256 db fails repo_id (absolute l) <? 0); [done|].
  destruct (0 <? load_exact sha256 db fails repo_id (absolute l)); [done|].
  destruct (load_descendant db fails repo_id (absolute l) <? 0); [done|].
  destruct (0 <? load_descendant db fails repo_id (absolute l)); [done|].
  specialize (He g Hg). specialize (Hd g Hg). apply not_true_iff_false in Hd. apply Hd.
  apply like_descendant_spec; [done|done|]. split; [done|].
  destruct (decide (l = components g)) as [El|]; [|by right]. exfalso.
  rewrite (guard_path_components g l Hgp Hl (eq_sym El)), sql_eq_refl, andb_true_r in He.
  apply Z.eqb_neq in He. by apply He, strcmp_eq.
Qed.

Lemma check_path_refuses repo_id l e :
  guards_ok -> Forall is_component l -> (forall q, fails q = false) -> t_cf_edit_guard db <> None ->
  checkout_policy se <> None -> digests_distinct (absolute l) ->
  check_path sha256 se db fails repo_id (absolute l) = Some e ->
  reserved repo_id (absolute l) /\ e = locked (absolute l).
Proof.
  intros Hok Hl Hf Ht Hpol Hd E. unfold check_path, cf_v2_edit_repo_checkout in E.
  destruct (checkout_policy se) as [ids|] eqn:Ep; [|done].
  case_bool_decide as Hr; [|done]. simpl in E.
  assert (Hres : forall g, g ∈ guards repo_id -> l `prefix_of` components g -> reserved repo_id (absolute l)).
  { intros g Hg Hp. split; [by exists ids|]. exists g. split; [done|]. unfold at_or_below. by rewrite components_absolute. }
  pose proof (exact_rows repo_id (absolute l)) as He. pose proof (descendant_rows repo_id (absolute l)) as Hdn.
  rewrite !Hf in He. rewrite !Hf in Hdn.
  destruct (load_exact sha256 db fails repo_id (absolute l) <? 0); [by destruct He|].
  destruct (0 <? load_exact sha256 db fails repo_id (absolute l)).
  { destruct He as (g & Hg & [Hh _]%andb_true_iff). injection E as <-. split; [|done].
    apply Z.eqb_eq, strcmp_eq in Hh. apply (Hd _ _ Hg) in Hh as ->. apply (Hres _ Hg).
    by rewrite components_absolute. }
  destruct (load_descendant db fails repo_id (absolute l) <? 0); [by destruct Hdn|].
  destruct (0 <? load_descendant db fails repo_id (absolute l)); [|done].
  destruct Hdn as (g & Hg & Hlk). injection E as <-. split; [|done].
  apply like_descendant_spec in Hlk as [Hp _]; [by apply (Hres g)|done|by apply Hok with repo_id].
Qed.

Lemma check_paths_allows l :
  check_paths sha256 se db fails l = None <->
  Forall (fun rp => check_path sha256 se db fails rp.1 rp.2 = None) l.
Proof.
  induction l as [|[r p] l IH]; [done|]. simpl. rewrite Forall_cons. simpl.
  destruct (check_path _ _ _ _ r p); [split; [done|by intros []]|]. rewrite IH. naive_solver.
Qed.

Lemma check_paths_refuses l e :
  check_paths sha256 se db fails l = Some e ->
  exists r p, (r, p) ∈ l /\ check_path sha256 se db fails r p = Some e.
Proof.
  induction l as [|[r p] l IH]; [done|]. simpl. destruct (check_path _ _ _ _ r p) eqn:E.
  - intros [= ->]. exists r, p. by split; [left|].
  - intros (r' & p' & Hin & H)%IH. exists r', p'. by split; [right|].
Qed.

Lemma policy_cases repo_id :
  match checkout_policy se with
  | None => cf_v2_edit_repo_checkout se repo_id = -1
  | Some ids => cf_v2_edit_repo_checkout se repo_id = if bool_decide (repo_id ∈ ids) then 1 else 0
  end.
Proof. unfold cf_v2_edit_repo_checkout. by destruct (checkout_policy se). Qed.

(** C16: The write barrier is exact and fails closed.  An operation it allows writes
    no path at or above an active reservation of a library under checkout, source
    paths of moves and renames included, whatever queries fail.  When the
    configuration is valid and no query fails, it refuses only such operations, and
    says that the file is locked. *)
Theorem lock_barrier_exact fop repo_id :
  guards_ok -> fo_repo_id fop = Some repo_id -> cf_fileop_op_pathless (fo_op fop) = false ->
  (cf_lock_prepare sha256 se db fails true fop = None ->
   forall r p, (r, p) ∈ touched fop repo_id -> ~ reserved r p) /\
  (checkout_policy se <> None -> (forall q, fails q = false) -> t_cf_edit_guard db <> None ->
   (forall r p, (r, p) ∈ touched fop repo_id -> digests_distinct p) ->
   forall e, cf_lock_prepare sha256 se db fails true fop = Some e ->
   exists r p, (r, p) ∈ touched fop repo_id /\ reserved r p /\ e = locked p).
Proof.
  intros Hok Hrepo Hp. unfold cf_lock_prepare. rewrite Hrepo, Hp. simpl.
  pose proof (policy_cases repo_id) as H1. pose proof (policy_cases (default repo_id (fo_src_repo_id fop))) as H2.
  destruct (checkout_policy se) as [ids|] eqn:Epol; rewrite H1, H2; [|by split].
  fold (touched fop repo_id). split.
  - intros E r p Hin. destruct (touched_normal _ _ _ _ Hin) as (l & Hl & ->).
    destruct (bool_decide (repo_id ∈ ids) || bool_decide (default repo_id (fo_src_repo_id fop) ∈ ids)) eqn:Eb.
    + apply check_path_allows; [done|done|]. assert (check_paths sha256 se db fails (touched fop repo_id) = None) as Ec.
      { destruct (bool_decide _), (bool_decide _); done. }
      rewrite check_paths_allows, Forall_forall in Ec. apply (Ec _ Hin).
    + apply orb_false_iff in Eb as [Eb1%bool_decide_eq_false Eb2%bool_decide_eq_false].
      intros ((ids' & Hids & Hr) & _). rewrite Epol in Hids. injection Hids as <-. unfold touched in Hin.
      apply elem_of_app in Hin as [Hin|Hin]; apply list_elem_of_fmap in Hin as (q & [= -> _] & _); done.
  - intros _ Hf Ht Hd e E.
    assert (check_paths sha256 se db fails (touched fop repo_id) = Some e) as Ec.
    { destruct (bool_decide _), (bool_decide _); done. }
    apply check_paths_refuses in Ec as (r & p & Hin & Ec). exists r, p. split; [done|].
    destruct (touched_normal _ _ _ _ Hin) as (l & Hl & ->).
    apply check_path_refuses in Ec; try done; [by rewrite Epol|by apply (Hd r)].
Qed.

(** The barrier and the fence draw the same line: below the root, the barrier
    lets a path of a library under checkout pass exactly when the fence's test of
    that path against every reservation is negative, as long as no query fails. *)
Theorem barrier_agrees_with_fence repo_id l :
  guards_ok -> Forall is_component l -> l <> [] -> (forall q, fails q = false) -> t_cf_edit_guard db <> None ->
  cf_v2_edit_repo_checkout se repo_id = 1 -> digests_distinct (absolute l) ->
  check_path sha256 se db fails repo_id (absolute l) = None <->
  existsb (path_touches (Some (absolute l))) (guards repo_id) = false.
Proof.
  intros Hok Hl Hne Hf Ht Hpol Hd. pose proof (policy_cases repo_id) as Hc.
  destruct (checkout_policy se) as [ids|] eqn:Ep; [|by rewrite Hpol in Hc].
  rewrite Hpol in Hc. case_bool_decide as Hr; [|done].
  assert (Hres : reserved repo_id (absolute l) <-> existsb (path_touches (Some (absolute l))) (guards repo_id) = true).
  { rewrite existsb_exists. unfold reserved, at_or_below. rewrite components_absolute by done. split.
    - intros (_ & g & Hg & Hb). exists g. split; [by apply list_elem_of_In|].
      apply path_touches_prefix; try done. by apply Hok with repo_id.
    - intros (g & Hg%list_elem_of_In & Hb). split; [by exists ids|]. exists g. split; [done|].
      apply path_touches_prefix in Hb; try done. by apply Hok with repo_id. }
  rewrite <- not_true_iff_false, <- Hres. split; [by apply check_path_allows|].
  intros Hn. destruct (check_path sha256 se db fails repo_id (absolute l)) as [e|] eqn:E; [|done].
  destruct Hn. apply (check_path_refuses repo_id l e); try done. by rewrite Ep.
Qed.
End barrier.

(** ** A library under checkout with a reservation *)

Definition lock_repo : string := "0123abcd-0123-4567-89ab-0123456789ab".

Definition lock_session : Session :=
  mkSession SEAF_DB_TYPE_MYSQL (KeyBool true) (Some lock_repo) false.

Definition lock_db : Db :=
  mkDb ∅ ∅ ∅ ∅ ∅ ∅ (Some {[ lock_repo := [Some "/plans/50%_off/site.txt"] ]}).

Definition lock_rename : CfFileOp :=
  mkFop CF_FILEOP_PHASE_PREPARE (Some "rename") (Some lock_repo) (Some "/") (Some "old") [] None (Some "/plans")
    (Some "/50%_off/") [] (Some "u") None None None.

Definition lock_mkdir : CfFileOp :=
  mkFop CF_FILEOP_PHASE_PREPARE (Some "mkdir") (Some lock_repo) (Some "/plans") (Some "50xxoff") [] None None
    None [] (Some "u") None None None.

Definition hex_digest (b : list Z) : string := string_of_bytes b.

Lemma lock_guards repo_id g : g ∈ guards lock_db repo_id -> g = "/plans/50%_off/site.txt".
Proof.
  unfold guards, lock_db. cbn [t_cf_edit_guard]. destruct (decide (repo_id = lock_repo)) as [->|Hne].
  - rewrite lookup_singleton. simpl. by intros ?%list_elem_of_singleton.
  - rewrite lookup_singleton_ne by done. simpl. by intros ?%elem_of_nil.
Qed.

Lemma lock_guards_ok : guards_ok lock_db.
Proof.
  intros repo_id g ->%lock_guards. exists ["plans"; "50%_off"; "site.txt"]. by repeat constructor.
Qed.

Lemma lock_digests path : digests_distinct hex_digest lock_db path.
Proof.
  intros repo_id g _ E. unfold hex_digest in E. by rewrite !string_of_bytes_of_string in E.
Qed.

Lemma lock_barrier_exact_witness :
  cf_lock_prepare hex_digest lock_session lock_db (fun _ => false) true lock_rename =
    Some (locked "/plans/50%_off") /\
  cf_lock_prepare hex_digest lock_session lock_db (fun _ => false) true lock_mkdir = None /\
  (exists r p, (r, p) ∈ touched lock_rename lock_repo /\ reserved lock_session lock_db r p) /\
  (forall r p, (r, p) ∈ touched lock_mkdir lock_repo -> ~ reserved lock_session lock_db r p).
Proof.
  assert (H1 : cf_lock_prepare hex_digest lock_session lock_db (fun _ => false) true lock_rename =
    Some (locked "/plans/50%_off")) by (vm_compute; reflexivity).
  assert (H2 : cf_lock_prepare hex_digest lock_session lock_db (fun _ => false) true lock_mkdir = None)
    by (vm_compute; reflexivity).
  split; [exact H1|]. split; [exact H2|]. split.
  - destruct (lock_barrier_exact hex_digest lock_session lock_db (fun _ => false) lock_rename lock_repo
                lock_guards_ok eq_refl eq_refl) as [_ H].
    destruct (H ltac:(vm_compute; discriminate) ltac:(done) ltac:(done) ltac:(intros; apply lock_digests) _ H1)
      as (r & p & Hin & Hr & _). exists r, p. by split.
  - exact (proj1 (lock_barrier_exact hex_digest lock_session lock_db (fun _ => false) lock_mkdir lock_repo
                lock_guards_ok eq_refl eq_refl) H2).
Defined.

Lemma barrier_agrees_with_fence_witness :
  check_path hex_digest lock_session lock_db (fun _ => false) lock_repo "/plans/50xxoff" = None /\
  existsb (path_touches (Some "/plans/50xxoff")) (guards lock_db lock_repo) = false.
Proof.
  assert (H : check_path hex_digest lock_session lock_db (fun _ => false) lock_repo "/plans/50xxoff" = None)
    by (vm_compute; reflexivity).
  split; [exact H|].
  apply (barrier_agrees_with_fence hex_digest lock_session lock_db (fun _ => false) lock_repo ["plans"; "50xxoff"]);
    [exact lock_guards_ok|by repeat constructor|discriminate|reflexivity|discriminate|vm_compute; reflexivity
    |apply lock_digests|exact H].
Defined.
