(* ===== verification/Handlers.v ===== *)
(** * Request handlers of online operations ([server/repo-op.c])

    A handler reads the library and its head, checks the request, asks the
    providers of the write lifecycle, changes the tree of the head, publishes the
    new tree with [gen_new_commit], and reports to the providers what happened.
    The handlers that do not merge with a concurrent change start over with the new
    head.  [OnlineOp] is what the handlers differ in after the checks; [op_step] is
    the part they share, from the label [retry] to the end. *)

From stdpp Require Import pretty.
From S2P Require Import Prelude Hex Paths Sql CfPath FsObj FsMgr Walk Diff Merge CommitMgr RepoOp Repo CfV2Acl Publish CfFileop.

#[local] Arguments string_take : simpl never.

(** ** Names *)

Definition SEAF_DIR_NAME_LEN : nat := 256.

Definition should_ignore_file (g_utf8_validate : string -> bool) (filename : string) : bool :=
  existsb (fun part => strcmp part ".." =? 0) (pieces filename)
  || negb (g_utf8_validate filename)
  || (SEAF_DIR_NAME_LEN <=? String.length filename)%nat
  || has_slash filename.

(** [check_files_with_same_name]: a name has no free numbered variant. *)
Definition check_files_with_same_name (version : Z) (st : fs_store) (root_id canon_path : string)
    (filenames : list string) : bool :=
  match seaf_fs_manager_get_seafdir_by_path st version root_id canon_path with
  | inl _ => false
  | inr dir => existsb (fun name => match generate_unique_filename name (entries dir) with None => true | Some _ => false end)
                 filenames
  end.

(** ** From [retry] to the end *)

(** What an operation makes of the tree of the head: it fails, it changes nothing,
    or it gives a new root, with the description of the commit and the names that
    were given to the entries. *)
Inductive tree_result :=
| TreeFails
| TreeSame
| TreeNew (root desc : string) (names : list string).

Record OnlineOp := mkOp {
  op_repo_id : string;
  op_user : option string;
  op_concurrent : bool;
  op_retries : bool;
  op_sizes : bool;
  op_merges : list string;
  op_check_gc : bool;
  op_gc_id : option string;
  op_tree : SeafRepo -> SeafCommit -> Oracle -> fs_store -> tree_result * fs_store;
  op_commit : list string -> CfFileOp;
  op_abort : CfFileOp
}.

(** Where a handler is: at [retry], in [gen_new_commit], asleep before it starts
    over, done with its return value.  [names] is [name_list], which the attempts
    append to. *)
Inductive op_pc :=
| OpTry (repo : SeafRepo) (head : SeafCommit) (names : list string)
| OpCommit (names : list string) (a : gnc_args) (pc : gnc_pc)
| OpSleep (names : list string)
| OpDone (ret : Z) (names : list string) (commit : option string).

Definition set_commit_id (f : CfFileOp) (id : string) : CfFileOp :=
  mkFop (fo_phase f) (fo_op f) (fo_repo_id f) (fo_dir f) (fo_name f) (fo_names f) (fo_src_repo_id f) (fo_src_dir f)
    (fo_src_name f) (fo_src_names f) (fo_user f) (fo_expect_commit_id f) (Some id) (fo_file_id f).

Section handlers.
Context (sha1 : list Z -> list Z) (sha256 : list Z -> string).
Context (dir_hash : Z -> list SeafDirent -> string).
Context (fuel : nat) (se : Session) (g_utf8_validate : string -> bool).
(** The providers and their state. *)
Context {S : Type} (providers : list (Provider S)).

Definition commit_args (op : OnlineOp) (head : SeafCommit) (root desc : string) : gnc_args :=
  mkArgs (op_repo_id op) head root (op_user op) desc (op_concurrent op) (op_check_gc op) (op_gc_id op).

(** [update_repo_size], for the operations that call it on success. *)
Definition update_size (op : OnlineOp) (w : World) : World :=
  if op_sizes op then emit w (EvUpdateRepoSize (op_repo_id op)) else w.

(** After the commit: [seaf_repo_manager_merge_virtual_repo] and the size. *)
Definition after_commit (op : OnlineOp) (w : World) : World :=
  update_size op (foldl (fun w id => emit w (EvMergeVirtualRepo id)) w (op_merges op)).

Definition op_step (o : Oracle) (op : OnlineOp) (pc : op_pc) (w : World) (s : S) : option (op_pc * World * S) :=
  match pc with
  | OpTry repo head names =>
      let '(r, st) := op_tree op repo head o (w_fs w) in
      let w := set_fs w st in
      Some (match r with
            | TreeFails => (OpDone (-1) names None, w, cf_fileop_aborted providers (op_abort op) s)
            | TreeSame => (OpDone 0 names None, update_size op w, cf_fileop_aborted providers (op_abort op) s)
            | TreeNew root desc new => (OpCommit (names ++ new) (commit_args op head root desc) GncStart, w, s)
            end)
  | OpCommit names a (GncDone (inr id)) =>
      Some (OpDone 0 names (Some id), after_commit op w,
            cf_fileop_committed providers (set_commit_id (op_commit op names) id) s)
  | OpCommit names a (GncDone (inl e)) =>
      Some (match e, op_retries op with
            | CE_CONCURRENT_UPLOAD, true => (OpSleep names, w, s)
            | _, _ => (OpDone (-1) names None, w, cf_fileop_aborted providers (op_abort op) s)
            end)
  | OpCommit names a pc =>
      '(pc, w) ← gnc_step sha1 sha256 dir_hash fuel se g_utf8_validate o a pc w; Some (OpCommit names a pc, w, s)
  | OpSleep names =>
      Some (match seaf_repo_manager_get_repo (w_db w) (w_commits w) (op_repo_id op) with
            | Some repo =>
                match seaf_commit_manager_get_commit (w_commits w) (b_commit_id (r_head repo)) with
                | Some head => (OpTry repo head names, w, s)
                | None => (OpDone (-1) names None, w, cf_fileop_aborted providers (op_abort op) s)
                end
            | None => (OpDone (-1) names None, w, cf_fileop_aborted providers (op_abort op) s)
            end)
  | OpDone _ _ _ => None
  end.

(** ** The operations on the tree *)

Definition quote : string := String (Ascii.ascii_of_nat 34) EmptyString.
Definition quoted (s : string) : string := quote +:+ s +:+ quote.

(** [snprintf (buf, SEAF_PATH_MAX, ...)] with [SEAF_PATH_MAX] 4096. *)
Definition snprintf_path (s : string) : string := string_take 4095 s.

(** The result of a rewriting, its description and its names. *)
Definition of_rewritten {A} (desc : A -> string) (names : A -> list string)
    (r : option (rewritten A) * fs_store) : tree_result * fs_store :=
  (match r.1 with None => TreeFails | Some x => TreeNew (rw_id x) (desc (rw_answer x)) (names (rw_answer x)) end, r.2).

Definition post_tree (canon_path desc : string) (dent : SeafDirent)
    (repo : SeafRepo) (head : SeafCommit) (o : Oracle) (st : fs_store) : tree_result * fs_store :=
  of_rewritten (fun _ => desc) (fun name => [name])
    (do_post_file dir_hash (o_dir_write o) (r_version repo) (o_now o) (root_id head) canon_path dent st).

Definition post_multi_desc (filenames : list string) : string :=
  match filenames with
  | [] => EmptyString
  | [f] => "Added " +:+ quoted f +:+ "."
  | f :: l => "Added " +:+ quoted f +:+ " and " +:+ pretty (Z.of_nat (length l)) +:+ " more files."
  end.

Definition post_multi_tree (canon_path : string) (filenames ids : list string) (sizes : list Z) (user : string)
    (replace_existed : bool) (mtime : Z)
    (repo : SeafRepo) (head : SeafCommit) (o : Oracle) (st : fs_store) : tree_result * fs_store :=
  of_rewritten (fun _ => post_multi_desc filenames) (fun names => names)
    (do_post_multi_files dir_hash (o_dir_write o) (r_version repo) (o_now o) (root_id head) canon_path filenames ids
       sizes user replace_existed mtime st).

Definition rename_tree (canon_path oldname newname desc : string)
    (repo : SeafRepo) (head : SeafCommit) (o : Oracle) (st : fs_store) : tree_result * fs_store :=
  of_rewritten (fun _ => desc) (fun _ => [])
    (do_rename_file dir_hash (o_dir_write o) (r_version repo) (o_now o) (root_id head) canon_path oldname newname st).

Definition del_desc (a : del_answer) : string :=
  let f := quoted (text (desc_file a)) in
  snprintf_path
    (if 1 <? deleted_num a then "Deleted " +:+ f +:+ " and " +:+ pretty (deleted_num a - 1) +:+ " more files"
     else if S_ISDIR (default 0 (del_mode a)) then "Removed directory " +:+ f else "Deleted " +:+ f).

Definition del_tree (canon_path : string) (names : list string)
    (repo : SeafRepo) (head : SeafCommit) (o : Oracle) (st : fs_store) : tree_result * fs_store :=
  let '(r, st) := do_del_file dir_hash (o_dir_write o) (r_version repo) (o_now o) (root_id head) canon_path names st in
  (match r with
   | None => TreeFails
   | Some x => if deleted_num (rw_answer x) =? 0 then TreeSame else TreeNew (rw_id x) (del_desc (rw_answer x)) []
   end, st).

(** ** The beginnings of the handlers *)

(** A request that is refused, with the state and that of the providers; or an operation at
    its label [retry]. *)
Inductive started :=
| Refused (w : World) (s : S)
| Running (op : OnlineOp) (repo : SeafRepo) (head : SeafCommit) (w : World) (s : S).

(** [GET_REPO_OR_FAIL], [GET_COMMIT_OR_FAIL] *)
Definition repo_and_head (w : World) (repo_id : string) : option (SeafRepo * SeafCommit) :=
  repo ← seaf_repo_manager_get_repo (w_db w) (w_commits w) repo_id;
  head ← seaf_commit_manager_get_commit (w_commits w) (b_commit_id (r_head repo));
  Some (repo, head).

Definition base_fop (op repo_id dir : string) (name : option string) (names : list string) (user : option string)
    (file_id : option string) : CfFileOp :=
  mkFop CF_FILEOP_PHASE_PREPARE (Some op) (Some repo_id) (Some dir) name names None None None [] user None None file_id.

(** The password of an encrypted library, and the indexing of a file: its id and
    size, and the store with its blocks and object. *)
Context (passwd_set : string -> option string -> bool).
Context (index_blocks : World -> string -> option (string * Z) * World).

Definition crypt_ok (repo : SeafRepo) (repo_id : string) (user : option string) : bool :=
  negb (r_encrypted repo) || passwd_set repo_id user.

Definition seaf_repo_manager_post_file (o : Oracle) (temp_readable : bool)
    (repo_id temp_file_path parent_dir file_name : string) (user : option string) (w : World) (s : S) : started :=
  if negb temp_readable then Refused w s
  else match repo_and_head w repo_id with
       | None => Refused w s
       | Some (repo, head) =>
           let canon_path := get_canonical_path parent_dir in
           if should_ignore_file g_utf8_validate file_name || has_double_slash parent_dir then Refused w s
           else
             let fop file_id := base_fop "create-file" repo_id canon_path (Some file_name) [] user file_id in
             let '(prepared, _, s) := cf_fileop_prepare providers (fop None) s in
             if prepared <? 0 then Refused w s
             else if negb (crypt_ok repo repo_id user) then Refused w (cf_fileop_aborted providers (fop None) s)
             else
               let gc_id := seaf_repo_get_current_gc_id (se_db_type se) (w_db w) repo in
               match index_blocks w temp_file_path with
               | (None, w) => Refused w (cf_fileop_aborted providers (fop None) s)
               | (Some (hex, size), w) =>
                   let dent := seaf_dirent_new (dir_version_from_repo_version (r_version repo)) hex STD_FILE_MODE
                                 file_name (o_now o) user size in
                   Running (mkOp repo_id user false true true [repo_id] true gc_id
                              (post_tree canon_path (snprintf_path ("Added " +:+ quoted file_name)) dent)
                              (fun _ => fop (Some hex)) (fop None)) repo head w s
               end
       end.

Definition post_entry (kind op : string) (sizes : bool) (o : Oracle) (mk : SeafRepo -> SeafDirent)
    (repo_id parent_dir name : string) (user : option string) (w : World) (s : S) : started :=
  match repo_and_head w repo_id with
  | None => Refused w s
  | Some (repo, head) =>
      let canon_path := get_canonical_path parent_dir in
      if should_ignore_file g_utf8_validate name
         || negb (is_none (check_file_exists (r_version repo) (w_fs w) (root_id head) canon_path name))
      then Refused w s
      else
        let fop := base_fop op repo_id canon_path (Some name) [] user None in
        let '(prepared, _, s) := cf_fileop_prepare providers fop s in
        if prepared <? 0 then Refused w s
        else Running (mkOp repo_id user true false sizes [repo_id] true
                        (seaf_repo_get_current_gc_id (se_db_type se) (w_db w) repo)
                        (post_tree canon_path (snprintf_path (kind +:+ quoted name)) (mk repo))
                        (fun _ => fop) fop) repo head w s
  end.

Definition seaf_repo_manager_post_dir (o : Oracle) (repo_id parent_dir new_dir_name : string)
    (user : option string) : World -> S -> started :=
  post_entry "Added directory " "mkdir" false o
    (fun repo => seaf_dirent_new (dir_version_from_repo_version (r_version repo)) EMPTY_SHA1 S_IFDIR new_dir_name
                   (o_now o) None (-1)) repo_id parent_dir new_dir_name user.

Definition seaf_repo_manager_post_empty_file (o : Oracle) (repo_id parent_dir new_file_name : string)
    (user : option string) : World -> S -> started :=
  post_entry "Added " "create-file" true o
    (fun repo => seaf_dirent_new (dir_version_from_repo_version (r_version repo)) EMPTY_SHA1 STD_FILE_MODE new_file_name
                   (o_now o) user 0) repo_id parent_dir new_file_name user.

Definition seaf_repo_manager_rename_file (repo_id parent_dir oldname newname : string) (user : option string)
    (w : World) (s : S) : option started :=
  if strcmp oldname newname =? 0 then None
  else Some
    match repo_and_head w repo_id with
    | None => Refused w s
    | Some (repo, head) =>
        let canon_path := get_canonical_path parent_dir in
        if should_ignore_file g_utf8_validate newname then Refused w s
        else match check_file_exists (r_version repo) (w_fs w) (root_id head) canon_path oldname with
             | None => Refused w s
             | Some mode =>
                 if negb (is_none (check_file_exists (r_version repo) (w_fs w) (root_id head) canon_path newname))
                 then Refused w s
                 else
                   let fop := mkFop CF_FILEOP_PHASE_PREPARE (Some "rename") (Some repo_id) (Some canon_path)
                                (Some newname) [] (Some repo_id) (Some canon_path) (Some oldname) [] user None None None in
                   let '(prepared, _, s) := cf_fileop_prepare providers fop s in
                   if prepared <? 0 then Refused w s
                   else
                     let kind := if S_ISDIR mode then "Renamed directory " else "Renamed " in
                     Running (mkOp repo_id user true false false [repo_id] true
                                (seaf_repo_get_current_gc_id (se_db_type se) (w_db w) repo)
                                (rename_tree canon_path oldname newname (snprintf_path (kind +:+ quoted oldname)))
                                (fun _ => fop) fop) repo head w s
             end
    end.

(** [names] is the decoded list; an unreadable one is empty. *)
Definition seaf_repo_manager_del_file (repo_id parent_dir : string) (names : list string) (user : option string)
    (w : World) (s : S) : started :=
  match repo_and_head w repo_id with
  | None => Refused w s
  | Some (repo, head) =>
      let canon_path := get_canonical_path parent_dir in
      match seaf_fs_manager_get_seafdir_by_path (w_fs w) (r_version repo) (root_id head) canon_path with
      | inl _ => Refused w s
      | inr _ =>
          let fop := base_fop "delete" repo_id canon_path None names user None in
          let '(prepared, _, s) := cf_fileop_prepare providers fop s in
          if prepared <? 0 then Refused w s
          else Running (mkOp repo_id user true false true [repo_id] true
                          (seaf_repo_get_current_gc_id (se_db_type se) (w_db w) repo)
                          (del_tree canon_path names) (fun _ => fop) fop) repo head w s
      end
  end.

(** [post_files_and_gen_commit] up to [retry]; when the library or its head is not
    there, the request is refused after the abort is reported. *)
Definition post_files_and_gen_commit (filenames : list string) (repo_id : string) (user : string)
    (replace_existed : bool) (canon_path : string) (ids : list string) (sizes : list Z) (mtime : Z)
    (last_gc_id : option string) (w : World) (s : S) : started :=
  let fop names := base_fop "create-file" repo_id canon_path None names (Some user) None in
  match repo_and_head w repo_id with
  | None => Refused w (cf_fileop_aborted providers (fop filenames) s)
  | Some (repo, head) =>
      Running (mkOp repo_id (Some user) replace_existed true true [repo_id] true last_gc_id
                 (post_multi_tree canon_path filenames ids sizes user replace_existed mtime)
                 fop (fop filenames)) repo head w s
  end.

(** The files are indexed one after the other. *)
Fixpoint index_all (w : World) (paths : list string) : option (list string * list Z) * World :=
  match paths with
  | [] => (Some ([], []), w)
  | path :: paths =>
      match index_blocks w path with
      | (None, w) => (None, w)
      | (Some (hex, size), w) =>
          let '(r, w) := index_all w paths in
          ((fun '(ids, sizes) => (hex :: ids, size :: sizes)) <$> r, w)
      end
  end.

(** Without a task id: the files are indexed within the call. *)
Definition seaf_repo_manager_post_multi_files (repo_id parent_dir : string) (filenames paths : list string)
    (user : string) (replace_existed : bool) (mtime : Z) (w : World) (s : S) : started :=
  match seaf_repo_manager_get_repo (w_db w) (w_commits w) repo_id with
  | None => Refused w s
  | Some repo =>
      let canon_path := get_canonical_path parent_dir in
      match filenames, paths with
      | [], _ | _, [] => Refused w s
      | _, _ =>
          let same := match seaf_commit_manager_get_commit (w_commits w) (b_commit_id (r_head repo)) with
                      | None => false
                      | Some commit => check_files_with_same_name (r_version repo) (w_fs w) (root_id commit) canon_path
                                         filenames
                      end in
          if (negb replace_existed && same) || existsb (should_ignore_file g_utf8_validate) filenames
             || has_double_slash parent_dir then Refused w s
          else
            let fop := base_fop "create-file" repo_id canon_path None filenames (Some user) None in
            let '(prepared, _, s) := cf_fileop_prepare providers fop s in
            if prepared <? 0 then Refused w s
            else if negb (crypt_ok repo repo_id (Some user)) then Refused w (cf_fileop_aborted providers fop s)
            else
              let gc_id := seaf_repo_get_current_gc_id (se_db_type se) (w_db w) repo in
              match index_all w paths with
              | (None, w) => Refused w (cf_fileop_aborted providers fop s)
              | (Some (ids, sizes), w) =>
                  post_files_and_gen_commit filenames (r_id repo) user replace_existed canon_path ids sizes mtime
                    gc_id w s
              end
      end
  end.

(** What the caller is told: the names with their ids and sizes. *)
Fixpoint format_json_ret (names ids : list string) (sizes : list Z) : list (string * string * Z) :=
  match names, ids, sizes with
  | name :: names, id :: ids, size :: sizes => (name, id, size) :: format_json_ret names ids sizes
  | _, _, _ => []
  end.
End handlers.
