(* ===== verification/HandlersProof.v ===== *)
(** * What the request handlers promise

    A handler runs among other processes that change the shared state between its
    steps.  [op_run] records its own transitions.  A handler that reports a commit
    has moved the head of its library exactly once, and one that reports none has
    not moved it; the providers of the write lifecycle are told which of the two
    happened, once. *)

From S2P Require Import Prelude Hex Paths Sql CfPath FsObj FsMgr Walk Diff Merge CommitMgr RepoOp RepoOpProof Repo CfV2Acl Publish PublishProof CfFileop Handlers.

#[local] Arguments string_take : simpl never.

(** ** The objects of a call that does not merge *)

Section fs.
Context (sha1 : list Z -> list Z) (sha256 : list Z -> string).
Context (dir_hash : Z -> list SeafDirent -> string).
Context (fuel : nat) (se : Session) (g_utf8_validate : string -> bool).

Lemma phase_a_fs o w b old r w' :
  phase_a sha256 fuel se g_utf8_validate o w b old = Some (r, w') -> w_fs w' = w_fs w.
Proof. unfold phase_a. intros E. repeat case_match; by simplify_eq. Qed.

Lemma phase_b_fs o w b old check_gc last_gc origin acl changes r gc w' :
  phase_b sha256 se g_utf8_validate o w b old check_gc last_gc origin acl changes = (r, gc, w') -> w_fs w' = w_fs w.
Proof.
  assert (Hup : forall w, w_fs (on_branch_updated se o w b) = w_fs w).
  { intros w0. unfold on_branch_updated. destruct (se_is_repair se); [done|]. by destruct (t_VirtualRepo _ !! _). }
  unfold phase_b. intros E. repeat case_match; simplify_eq; try done. by rewrite Hup.
Qed.

Lemma gnc_step_fs o a pc w pc' w' :
  ga_handle_concurrent_update a = false ->
  gnc_step sha1 sha256 dir_hash fuel se g_utf8_validate o a pc w = Some (pc', w') -> w_fs w' = w_fs w.
Proof.
  intros Hno E. destruct pc as [|repo new n|repo new head merged n|repo new head merged n acl ch|new n|]; cbn [gnc_step] in E;
    [injection E as E| | |injection E as E|injection E as E|done].
  - unfold gnc_start in E. repeat case_match; by simplify_eq.
  - unfold gnc_retry in E. rewrite Hno in E. cbn [negb] in E. repeat case_match; by simplify_eq.
  - unfold gnc_phase_a in E. destruct (phase_a _ _ _ _ _ _ _) as [[[[acl ch]|] w1]|] eqn:E1; [..|done];
      apply phase_a_fs in E1; by simplify_eq.
  - unfold gnc_phase_b in E. destruct (phase_b _ _ _ _ _ _ _ _ _ _ _ _) as [[r gc] w1] eqn:E1.
    apply phase_b_fs in E1. by simplify_eq.
  - unfold gnc_wake in E. case_match; by simplify_eq.
Qed.
End fs.

(** ** Runs of a handler *)

(** One attempt: what the operation was given and what it made of the tree. *)
Record attempt := mkAttempt {
  at_repo : SeafRepo;
  at_head : SeafCommit;
  at_oracle : Oracle;
  at_before : fs_store;
  at_root : string;
  at_desc : string;
  at_names : list string;
  at_after : fs_store
}.

Section runs.
Context (sha1 : list Z -> list Z) (sha256 : list Z -> string).
Context (dir_hash : Z -> list SeafDirent -> string).
Context (fuel : nat) (se : Session) (g_utf8_validate : string -> bool).
Context {S : Type} (providers : list (Provider S)) (op : OnlineOp).
(** The library and the head the handler was started with. *)
Context (repo0 : SeafRepo) (head0 : SeafCommit).
Abbreviation step_op := (op_step sha1 sha256 dir_hash fuel se g_utf8_validate providers).
Abbreviation rid := (op_repo_id op).

Definition op_ids_unique (pc : op_pc) (w : World) : Prop :=
  match pc with OpCommit _ _ pc => ids_unique pc w | _ => True end.

(** The handler takes a step, or other processes add commits and objects and change
    the tables, the head among them. *)
Inductive op_run (pc0 : op_pc) (w0 : World) (s0 : S) : list (World * World) -> op_pc -> World -> S -> Prop :=
| run_start : op_run pc0 w0 s0 [] pc0 w0 s0
| run_own tr pc w s o pc' w' s' :
    op_run pc0 w0 s0 tr pc w s -> step_op o op pc w s = Some (pc', w', s') -> op_ids_unique pc' w' ->
    op_run pc0 w0 s0 (tr ++ [(w, w')]) pc' w' s'
| run_others tr pc w s w' :
    op_run pc0 w0 s0 tr pc w s -> w_commits w ⊆ w_commits w' -> w_fs w ⊆ w_fs w' ->
    op_run pc0 w0 s0 tr pc w' s.

Definition keeps_head (t : World * World) : Prop := head_of t.2 rid = head_of t.1 rid.

Definition attempted (t : attempt) : Prop :=
  op_tree op (at_repo t) (at_head t) (at_oracle t) (at_before t) = (TreeNew (at_root t) (at_desc t) (at_names t), at_after t).

(** An operation that does not start over has one attempt, on the head it was given. *)
Definition first_attempt (repo : SeafRepo) (head : SeafCommit) : Prop :=
  op_retries op = false -> repo = repo0 /\ head = head0.

Definition attempt_args (t : attempt) : gnc_args := commit_args op (at_head t) (at_root t) (at_desc t).

(** The transitions of a handler of which one published the tree of attempt [t]. *)
Record landed (tr : list (World * World)) (names : list string) (id : string) (t : attempt) (new merged : SeafCommit)
    (w1 w2 : World) : Prop := {
  la_once : exists tr1 tr2, tr = tr1 ++ (w1, w2) :: tr2 /\ Forall keeps_head (tr1 ++ tr2);
  la_attempt : attempted t;
  la_first : first_attempt (at_repo t) (at_head t);
  la_names : exists prior, names = prior ++ at_names t;
  la_id : id = commit_id merged;
  la_moves : exists head, publishes rid (attempt_args t) new head merged w1 w2;
  la_objects : op_concurrent op = false -> at_after t ⊆ w_fs w2
}.

(** What holds while a handler runs. *)
Definition running (tr : list (World * World)) (s0 : S) (pc : op_pc) (w : World) (s : S) : Prop :=
  match pc with
  | OpTry repo head _ => (Forall keeps_head tr /\ s = s0) /\ first_attempt repo head
  | OpSleep _ => (Forall keeps_head tr /\ s = s0) /\ op_retries op = true
  | OpCommit names a pc =>
      s = s0 /\ exists t, attempted t /\ first_attempt (at_repo t) (at_head t) /\ a = attempt_args t /\ working rid w a pc /\
        (op_concurrent op = false -> at_after t ⊆ w_fs w) /\ (exists prior, names = prior ++ at_names t) /\
        match pc with
        | GncDone (inr id) => exists new merged w1 w2, landed tr names id t new merged w1 w2
        | _ => Forall keeps_head tr
        end
  | OpDone ret names None =>
      Forall keeps_head tr /\ s = cf_fileop_aborted providers (op_abort op) s0
  | OpDone ret names (Some id) =>
      ret = 0 /\ s = cf_fileop_committed providers (set_commit_id (op_commit op names) id) s0 /\
      exists t new merged w1 w2, landed tr names id t new merged w1 w2
  end.

Lemma running_others tr s0 pc w s w' :
  running tr s0 pc w s -> w_commits w ⊆ w_commits w' -> w_fs w ⊆ w_fs w' -> running tr s0 pc w' s.
Proof.
  intros H Hc Hf. destruct pc as [|names a pc| |]; try done.
  destruct H as (-> & t & Ht & H1 & -> & Hw & Hfs & Hn & Hpc). split; [done|]. exists t. split_and!; try done.
  - by eapply working_mono.
  - intros Hno. by trans (w_fs w); [apply Hfs|].
Qed.

Lemma db_update_size w : w_db (update_size op w) = w_db w.
Proof. unfold update_size. by destruct (op_sizes op). Qed.

Lemma db_after_commit w : w_db (after_commit op w) = w_db w.
Proof.
  unfold after_commit. rewrite db_update_size. generalize (op_merges op). intros l. revert w.
  induction l as [|id l IH]; intros w; [done|]. cbn [foldl]. by rewrite IH.
Qed.

Lemma keeps_same tr w w' : Forall keeps_head tr -> w_db w' = w_db w -> Forall keeps_head (tr ++ [(w, w')]).
Proof.
  intros H E. apply Forall_app. split; [done|]. apply Forall_singleton. unfold keeps_head, head_of. cbn. by rewrite E.
Qed.

Lemma landed_more tr names id t new merged w1 w2 w w' :
  landed tr names id t new merged w1 w2 -> w_db w' = w_db w -> landed (tr ++ [(w, w')]) names id t new merged w1 w2.
Proof.
  intros [(tr1 & tr2 & -> & Hk) H2 H2' H3 H4 H5 H6] E. split; try done. exists tr1, (tr2 ++ [(w, w')]).
  rewrite <- app_assoc. split; [done|]. rewrite app_assoc. by apply keeps_same.
Qed.

(** A step of [gen_new_commit]. *)
Lemma running_gnc tr s0 names a pc w s o pc' w' :
  running tr s0 (OpCommit names a pc) w s -> (forall r, pc <> GncDone r) ->
  gnc_step sha1 sha256 dir_hash fuel se g_utf8_validate o a pc w = Some (pc', w') -> ids_unique pc' w' ->
  running (tr ++ [(w, w')]) s0 (OpCommit names a pc') w' s.
Proof.
  intros (-> & t & Ht & Hf & -> & Hw & Hfs & [prior ->] & Hpc) Hnd E Hids.
  assert (Hk : Forall keeps_head tr) by (destruct pc as [| | | | |r]; try done; by destruct (Hnd r)).
  assert (Hfs' : op_concurrent op = false -> at_after t ⊆ w_fs w').
  { intros Hno. rewrite (gnc_step_fs _ _ _ _ _ _ _ (attempt_args t) _ _ _ _ Hno E). by apply Hfs. }
  split; [done|]. exists t. split_and!; try done; [by eapply working_step|by exists prior|].
  destruct (step_publishes _ _ _ _ _ _ _ _ _ _ _ _ _ Hw E) as [[Hh Hne]|(new & head & merged & -> & Hp)].
  - assert (Forall keeps_head (tr ++ [(w, w')])) by (apply Forall_app; by split; [|apply Forall_singleton]).
    destruct pc' as [| | | | |[|id]]; try done. by destruct (Hne id).
  - exists new, merged, w, w'. split; try done; [|by exists prior|by exists head].
    exists tr, []. by rewrite app_nil_r.
Qed.

Lemma running_own tr s0 pc w s o pc' w' s' :
  running tr s0 pc w s -> step_op o op pc w s = Some (pc', w', s') -> op_ids_unique pc' w' ->
  running (tr ++ [(w, w')]) s0 pc' w' s'.
Proof.
  intros H E Hids. destruct pc as [repo head names|names a pc|names|]; cbn [op_step] in E; [| | |done].
  - destruct H as [[Hk ->] Hf]. destruct (op_tree op repo head o (w_fs w)) as [[| |root desc new] st] eqn:Et;
      injection E as <- <- <-; try (by split; [apply keeps_same; [done|rewrite ?db_update_size]|]).
    split; [done|]. exists (mkAttempt repo head o (w_fs w) root desc new st).
    split_and!; try done; [by exists names|by apply keeps_same].
  - assert (Hd : (exists r, pc = GncDone r) \/ forall r, pc <> GncDone r) by (destruct pc; by eauto).
    destruct Hd as [[r ->]|Hnd].
    + destruct H as (-> & t & Ht & _ & -> & _ & _ & Hn & Hpc). destruct r as [e|id].
      * assert (Hk : Forall keeps_head tr) by exact Hpc.
        destruct e, (op_retries op) eqn:Er; injection E as <- <- <-; repeat split; try done; by apply keeps_same.
      * injection E as <- <- <-. split; [done|]. split; [done|]. destruct Hpc as (new & merged & w1 & w2 & Hl).
        exists t, new, merged, w1, w2. by apply landed_more; [|apply db_after_commit].
    + assert (E' : ('(pc, w) ← gnc_step sha1 sha256 dir_hash fuel se g_utf8_validate o a pc w;
        Some (OpCommit names a pc, w, s)) = Some (pc', w', s')) by (destruct pc; try done; by destruct (Hnd r)).
      apply bind_Some in E' as ([pc1 w1] & Eg & [= <- <- <-]). by eapply running_gnc.
  - destruct H as [[Hk ->] Hr]. repeat case_match; simplify_eq; try (by split; [by apply keeps_same|]).
    split; [by split; [by apply keeps_same|]|]. intros Hno. by rewrite Hr in Hno.
Qed.

Lemma run_running pc0 w0 s0 tr pc w s : running [] s0 pc0 w0 s0 -> op_run pc0 w0 s0 tr pc w s -> running tr s0 pc w s.
Proof.
  intros H0. induction 1 as [|tr pc w s o pc' w' s' _ IH E Hids|tr pc w s w' _ IH Hc Hf]; [done| |].
  - by eapply running_own.
  - by eapply running_others.
Qed.

(** C6: a handler that ends, whatever other processes do to the state between its
    steps, with or without starting over: when it reports a commit, exactly one of
    its transitions moved the head of the library, by putting the commit it reports
    on top of the head that was there, and the tree of the commit made for the
    request is what the operation made of the head it was last given (of the head it
    was started with, if it does not start over); the providers
    are told of the commit, once, with the names given to the entries.  When it
    reports no commit, none of its transitions moved the head, and the providers are
    told, once, that the operation was aborted. *)
Theorem handler_publishes_once w0 s0 tr ret names commit w s :
  op_run (OpTry repo0 head0 []) w0 s0 tr (OpDone ret names commit) w s ->
  match commit with
  | Some id =>
      ret = 0 /\ s = cf_fileop_committed providers (set_commit_id (op_commit op names) id) s0 /\
      exists t new merged w1 w2, landed tr names id t new merged w1 w2
  | None => Forall keeps_head tr /\ s = cf_fileop_aborted providers (op_abort op) s0
  end.
Proof.
  intros H. apply run_running in H; [|by split]. by destruct commit.
Qed.

(** A handler that never merges publishes the commit it made, on the head it was
    given. *)
Lemma landed_alone tr names id t new merged w1 w2 :
  op_concurrent op = false -> landed tr names id t new merged w1 w2 ->
  merged = new /\ commit_id new = id /\ parent_id new = Some (commit_id (at_head t)) /\
  root_id new = string_take 40 (at_root t) /\ stored_commit (w_commits w2) new /\ at_after t ⊆ w_fs w2 /\
  (exists h, head_of w1 rid = Some h /\ commit_id (at_head t) = string_take 40 h) /\
  head_of w2 rid = Some id.
Proof.
  intros Hno [_ _ _ _ -> (head & (Hst & Hroot & Hpar) & (_ & _ & _ & Hsame & _) & Ec & Hh1 & Hh2) Hfs].
  destruct (Hsame Hno) as [-> Hid]. cbn in Hid. rewrite <- Hid, Ec. split_and!; try done; [|by apply Hfs].
  by rewrite Hid.
Qed.
End runs.

(** ** Uploading a file *)

Lemma view_root_mono version st st' root path :
  st ⊆ st' -> closed st version -> is_Some (seaf_fs_manager_get_seafdir st version root) ->
  view_root version st' root path = view_root version st root path.
Proof.
  intros Hs Hc [dir Hd]. rewrite !(view_root_dir _ _ _ dir); [|done|by eapply get_seafdir_mono].
  apply view_mono; [done|done|]. intros e He. by apply (Hc _ _ _ Hd).
Qed.

Section upload.
Context (sha1 : list Z -> list Z) (sha256 : list Z -> string).
Context (dir_hash : Z -> list SeafDirent -> string) (Hcf : forall v, collision_free dir_hash v).
Context (fuel : nat) (se : Session) (g_utf8_validate : string -> bool).
Context {S : Type} (providers : list (Provider S)).
Context (passwd_set : string -> option string -> bool).
Context (index_blocks : World -> string -> option (string * Z) * World).

(** What the handler goes through before [retry]. *)
Lemma post_file_running o readable repo_id temp parent_dir file_name user w0 s0 op repo head w1 s1 :
  seaf_repo_manager_post_file dir_hash se g_utf8_validate providers passwd_set index_blocks o readable repo_id temp parent_dir
    file_name user w0 s0 = Running op repo head w1 s1 ->
  exists hex size, index_blocks w0 temp = (Some (hex, size), w1) /\
    op_repo_id op = repo_id /\ op_concurrent op = false /\
    op_tree op = post_tree dir_hash (get_canonical_path parent_dir) (snprintf_path ("Added " +:+ quoted file_name))
      (seaf_dirent_new (dir_version_from_repo_version (r_version repo)) hex STD_FILE_MODE file_name (o_now o) user size).
Proof.
  unfold seaf_repo_manager_post_file. destruct readable; [|done]. cbn [negb].
  destruct (repo_and_head w0 repo_id) as [[repo' head']|]; [|done]. destruct (_ || _); [done|].
  destruct (cf_fileop_prepare _ _ _) as [[r e] s2]. destruct (r <? 0); [done|]. destruct (negb _); [done|].
  destruct (index_blocks w0 temp) as [[[hex size]|] w2] eqn:Ei; [|done]. intros [= <- <- <- <- <-].
  by exists hex, size.
Qed.

(** The tree an attempt made. *)
Lemma post_tree_view canon_path desc e repo head o st root d names st' l :
  post_tree dir_hash canon_path desc e repo head o st = (TreeNew root d names, st') ->
  at_dir dir_hash (r_version repo) st (root_id head) canon_path l -> S_ISDIR (d_mode e) = false ->
  exists u, generate_unique_filename (d_name e) l = Some u /\ names = [u] /\ library_ok dir_hash (r_version repo) st' /\
    is_Some (seaf_fs_manager_get_seafdir st' (r_version repo) root) /\
    forall path, view_root (r_version repo) st' root path =
      put_entry (r_version repo) st (view_root (r_version repo) st (root_id head)) (strchr_parts (skip_slash canon_path))
        (posted e u) path.
Proof.
  unfold post_tree, of_rewritten. intros E Hat Hdir.
  assert (Hst : storable (r_version repo) st e) by (unfold storable; by rewrite Hdir).
  destruct (proj2 (rewrite_path_fails dir_hash (r_version repo) (o_now o) true (post_target false e) (o_dir_write o)
    (strchr_parts (skip_slash canon_path)) (root_id head) st)) as [Hr|Hr];
    change (rewrite_path dir_hash ?wr ?v ?now true ?t ?p ?id st)
      with (do_post_file dir_hash wr v now id canon_path e st) in Hr; rewrite Hr in E; [done|]. clear Hr.
  destruct (generate_unique_filename (d_name e) l) as [u|] eqn:Eu.
  - destruct (post_file_outcome dir_hash (r_version repo) (o_now o) (Hcf _) st (root_id head) canon_path l e u Hat Hst Eu)
      as (root' & st1 & Ep & Hsub & Hlib & Hview).
    rewrite Ep in E. cbn in E. injection E as <- _ <- <-. exists u. split_and!; try done.
    specialize (Hview (strchr_parts (skip_slash canon_path) ++ [u])). revert Hview. unfold view_root, put_entry.
    rewrite (proj2 (below_Some _ _ [u]) eq_refl). unfold posted at 1. rewrite d_name_dirent_new, String.eqb_refl.
    cbn [view]. rewrite lookup_name_cons. unfold posted at 1. rewrite d_name_dirent_new, String.eqb_refl.
    cbn [mbind option_bind]. destruct (seaf_fs_manager_get_seafdir st1 _ root'); [by eauto|done].
  - exfalso. revert E. unfold do_post_file, do_post_file_replace, rewrite_at. destruct Hat as [Hl He].
    rewrite (rewrite_path_refused dir_hash (r_version repo) (o_now o) _ _ _ _ _ _ l); [done..|].
    unfold post_target. cbn [andb]. by rewrite Eu.
Qed.

End upload.

(** ** Names that are reported again *)

Lemma format_json_prefix names more : forall ids sizes,
  length names = length ids -> format_json_ret (names ++ more) ids sizes = format_json_ret names ids sizes.
Proof.
  induction names as [|n names IH]; intros [|i ids] [|z sizes] H; try done; [by destruct more|by destruct more|].
  cbn [app format_json_ret]. f_equal. apply IH. by injection H.
Qed.

(** An upload of several files that starts over, because the head moved, appends the
    names of the new attempt to the names of the first; the client is told the names
    of the first attempt. *)
Lemma retry_reports_old_names sha1 sha256 dir_hash fuel se g_utf8_validate S (providers : list (Provider S)) op
    ids sizes o repo head names w1 s1 names' a pc w' s' :
  length names = length ids ->
  op_step sha1 sha256 dir_hash fuel se g_utf8_validate providers o op (OpTry repo head names) w1 s1
    = Some (OpCommit names' a pc, w', s') ->
  exists new, names' = names ++ new /\ format_json_ret names' ids sizes = format_json_ret names ids sizes.
Proof.
  intros Hlen. cbn [op_step]. destruct (op_tree op repo head o (w_fs w1)) as [[| |root desc new] st]; [done|done|].
  intros [= <- _ _ _ _]. exists new. split; [done|]. by apply format_json_prefix.
Qed.

(** ** Runs that can be computed *)

Section exec.
Context (sha1 : list Z -> list Z) (sha256 : list Z -> string).
Context (dir_hash : Z -> list SeafDirent -> string).
Context (fuel : nat) (se : Session) (g_utf8_validate : string -> bool).
Context {S : Type} (providers : list (Provider S)) (op : OnlineOp) (o : Oracle).

Fixpoint op_exec (n : nat) (tr : list (World * World)) (pc : op_pc) (w : World) (s : S)
  : option (list (World * World) * op_pc * World * S) :=
  match n with
  | O => Some (tr, pc, w, s)
  | Datatypes.S n =>
      match op_step sha1 sha256 dir_hash fuel se g_utf8_validate providers o op pc w s with
      | Some (pc', w', s') =>
          if match pc' with OpCommit _ _ g => ids_uniqueb g w' | _ => true end
          then op_exec n (tr ++ [(w, w')]) pc' w' s' else None
      | None => None
      end
  end.

Lemma op_exec_run n pc0 w0 s0 : forall tr pc w s tr' pc' w' s',
  op_run sha1 sha256 dir_hash fuel se g_utf8_validate providers op pc0 w0 s0 tr pc w s ->
  op_exec n tr pc w s = Some (tr', pc', w', s') ->
  op_run sha1 sha256 dir_hash fuel se g_utf8_validate providers op pc0 w0 s0 tr' pc' w' s'.
Proof.
  induction n as [|n IH]; intros tr pc w s tr' pc' w' s' Hr E; cbn [op_exec] in E.
  - by injection E as <- <- <- <-.
  - destruct (op_step _ _ _ _ _ _ _ _ _ _ _ _) as [[[pc1 w1] s1]|] eqn:E1; [|done].
    destruct (match pc1 with OpCommit _ _ g => ids_uniqueb g w1 | _ => true end) eqn:Hids; [|done].
    eapply IH; [|exact E]. eapply run_own; [exact Hr|exact E1|].
    destruct pc1; try done. by apply ids_uniqueb_sound.
Qed.
End exec.

(** A library of version 1 with a file [sub/f.txt], and a provider that counts. *)
Definition counting : Provider (list string) :=
  mkProvider "count" (Some (fun _ e s => (0, e, s))) (Some (fun f s => s ++ ["committed"])) (Some (fun f s => s ++ ["aborted"])).
Definition up_head : SeafCommit := tree_commit c_1 op_root None.
Definition up_world : World := mkWorld (toy_db c_1) {[c_1 := up_head]} op_store [] 0.
Definition up_index (w : World) (path : string) : option (string * Z) * World := (Some (id_1, 12), w).
Definition up_start : started (S := list string) :=
  seaf_repo_manager_post_file toy_hash toy_session (fun _ => true) [counting] (fun _ _ => true) up_index toy_oracle true
    toy_rid "/tmp/x" "/sub" "f.txt" (Some "me") up_world [].
Definition up_check (tr : list (World * World)) (pc : op_pc) (s : list string) : bool :=
  match pc with
  | OpDone 0 names (Some _) => bool_decide (names = ["f (1).txt"]) && bool_decide (s = ["committed"])
  | _ => false
  end.
Definition up_runs : bool :=
  match up_start with
  | Running op repo head w s =>
      match op_exec toy_sha1 toy_sha256 toy_hash 5 toy_session (fun _ => true) [counting] op toy_oracle 6 []
              (OpTry repo head []) w s with
      | Some (tr, pc, w', s') => up_check tr pc s'
      | None => false
      end
  | Refused _ _ => false
  end.

Lemma up_runs_true : up_runs = true.
Proof. vm_compute. reflexivity. Qed.

(** The upload of [f.txt] beside an existing [f.txt] runs to its end. *)
Lemma up_run :
  exists op repo head w s tr id w',
    up_start = Running (S := list string) op repo head w s /\
    op_run toy_sha1 toy_sha256 toy_hash 5 toy_session (fun _ => true) [counting] op (OpTry repo head [])
      w s tr (OpDone 0 ["f (1).txt"] (Some id)) w' ["committed"].
Proof.
  pose proof up_runs_true as H. unfold up_runs in H.
  destruct up_start as [|op repo head w s] eqn:Es; [done|].
  destruct (op_exec _ _ _ _ _ _ _ _ _ _ _ _ _ _) as [[[[tr pc] w'] s']|] eqn:E; [|done].
  unfold up_check in H. destruct pc as [| | |code names [id|]]; try done; destruct code; try done.
  apply andb_prop in H as [->%bool_decide_eq_true ->%bool_decide_eq_true].
  exists op, repo, head, w, s, tr, id, w'. split; [done|].
  eapply (op_exec_run _ _ _ _ _ _ _ _ toy_oracle 6); [apply run_start|exact E].
Qed.

Lemma handler_publishes_once_witness :
  exists op repo head tr id t new merged w1 w2, landed op repo head tr ["f (1).txt"] id t new merged w1 w2.
Proof.
  destruct up_run as (op & repo & head & w & s & tr & id & w' & _ & Hr).
  destruct (handler_publishes_once toy_sha1 toy_sha256 toy_hash 5 toy_session (fun _ => true) [counting] op
    repo head w s tr 0 ["f (1).txt"] (Some id) w' ["committed"]) as (_ & _ & t & new & m & w1 & w2 & H); [exact Hr|].
  exists op, repo, head, tr, id, t, new, m, w1, w2. exact H.
Defined.


(** Two attempts to upload [g.txt], between which another process uploads the same
    name: the second attempt stores [g (1).txt], the client is told [g.txt]. *)
Definition twice_op : OnlineOp :=
  mkOp toy_rid (Some "me") false true true [toy_rid] true None (post_multi_tree toy_hash "sub" ["g.txt"] [id_1] [12] "me" false 0)
    (fun _ => mkdir_fop) mkdir_fop.
Definition twice_other : option (rewritten string) * fs_store :=
  do_post_file toy_hash (fun _ => true) 1 7 op_root "sub" (toy_dirent 0x8000 id_2 "g.txt") op_store.
Definition twice_head : SeafCommit :=
  tree_commit c_2 (match twice_other.1 with Some x => rw_id x | None => EmptyString end) (Some c_1).
Definition twice_world : World := mkWorld (toy_db c_2) {[c_1 := up_head; c_2 := twice_head]} twice_other.2 [] 0.
Definition names_of (r : option (op_pc * World * list string)) : list string :=
  match r with Some (OpCommit names _ _, _, _) => names | _ => [] end.
Definition twice_step (head : SeafCommit) (names : list string) (w : World) : option (op_pc * World * list string) :=
  op_step toy_sha1 toy_sha256 toy_hash 5 toy_session (fun _ => true) [counting] toy_oracle twice_op
    (OpTry (toy_repo up_world) head names) w [].

Example retry_reports_first_attempt :
  let first := names_of (twice_step up_head [] up_world) in
  let second := names_of (twice_step twice_head first twice_world) in
  first = ["g.txt"] /\ second = ["g.txt"; "g (1).txt"] /\ format_json_ret second [id_1] [12] = [("g.txt", id_1, 12)].
Proof. vm_compute. done. Qed.
