(* ===== verification/ChangeSet.v ===== *)
(** * Change sets and batch deletion ([server/change-set.c], [do_batch_del_files] and
    [seaf_repo_manager_batch_del_files] of [server/repo-op.c])

    A change set is a directory tree in memory.  The directories on the way to a
    deleted path are loaded on demand; the others stay references to stored objects.
    Committing writes the loaded directories bottom up. *)

From S2P Require Import Prelude Hex Paths FsObj FsMgr Walk Merge CommitMgr RepoOp RepoOpProof Repo CfV2Acl Publish CfFileop Handlers.

(** ** Data *)

(** The fields of a [ChangeSetDirent] but the sub-directory. *)
Record cs_fields := mkFields {
  cd_mode : Z;
  cd_id : string;
  cd_name : string;
  cd_mtime : Z;
  cd_modifier : option string;
  cd_size : Z
}.

(** The hash table of entries is a list without repeated names, in the order of
    its iteration. *)
Inductive ChangeSetDir := mkCsDir {
  cs_version : Z;
  cs_dir_id : string;
  cs_dents : list (cs_fields * option ChangeSetDir)
}.
Abbreviation ChangeSetDirent := (cs_fields * option ChangeSetDir)%type.

Definition cs_name (d : ChangeSetDirent) : string := cd_name (fst d).

(** ** Entries and directories *)

Definition seaf_dirent_to_changeset_dirent (d : SeafDirent) : ChangeSetDirent :=
  (mkFields (d_mode d) (d_id d) (d_name d) (d_mtime d) (d_modifier d) (d_size d), None).

Definition changeset_dirent_to_seaf_dirent (version : Z) (d : cs_fields) : SeafDirent :=
  seaf_dirent_new version (cd_id d) (cd_mode d) (cd_name d) (cd_mtime d) (cd_modifier d) (cd_size d).

(** [g_hash_table_lookup] *)
Definition cs_lookup (name : string) (l : list ChangeSetDirent) : option ChangeSetDirent :=
  List.find (fun d => String.eqb name (cs_name d)) l.

(** [g_hash_table_insert]: the value of a key that is there is replaced. *)
Fixpoint add_dent_to_dir (l : list ChangeSetDirent) (d : ChangeSetDirent) : list ChangeSetDirent :=
  match l with
  | [] => [d]
  | d' :: l => if String.eqb (cs_name d) (cs_name d') then d :: l else d' :: add_dent_to_dir l d
  end.

Definition remove_dent_from_dir (l : list ChangeSetDirent) (dname : string) : list ChangeSetDirent :=
  filter (fun d => cs_name d <> dname) l.

Definition changeset_dir_new (version : Z) (id : string) (dirents : list SeafDirent) : ChangeSetDir :=
  mkCsDir version id (foldl add_dent_to_dir [] (seaf_dirent_to_changeset_dirent <$> dirents)).

Definition seaf_dir_to_changeset_dir (dir : SeafDir) : ChangeSetDir :=
  changeset_dir_new (dir_version dir) (FsObj.dir_id dir) (entries dir).

Definition changeset_dir_to_seaf_dir (dir_hash : Z -> list SeafDirent -> string) (version : Z) (l : list cs_fields)
  : SeafDir :=
  seaf_dir_new dir_hash (sort_dirents (reverse (changeset_dirent_to_seaf_dirent version <$> l))) version.

Definition set_dents (dir : ChangeSetDir) (l : list ChangeSetDirent) : ChangeSetDir :=
  mkCsDir (cs_version dir) (cs_dir_id dir) l.

Definition set_cd_mtime (d : cs_fields) (mtime : Z) : cs_fields :=
  mkFields (cd_mode d) (cd_id d) (cd_name d) mtime (cd_modifier d) (cd_size d).

Definition set_cd_id (d : cs_fields) (id : string) : cs_fields :=
  mkFields (cd_mode d) id (cd_name d) (cd_mtime d) (cd_modifier d) (cd_size d).

(** [g_strsplit (path, "/", 0)] *)
Definition split_path (path : string) : list string :=
  match path with EmptyString => [] | _ => pieces path end.

(** ** Deleting *)

(** What a deletion leaves: the directory, the entry taken out, whether the directory
    it was taken from is empty now, and whether that is this directory (then the
    entry of this directory gets a new time). *)
Record deleted := mkDeleted {
  dl_dir : ChangeSetDir;
  dl_dent : option ChangeSetDirent;
  dl_parent_empty : bool;
  dl_here : bool
}.

Definition nothing (dir : ChangeSetDir) : deleted := mkDeleted dir None false false.

Definition delete_here (dir : ChangeSetDir) (dname : string) (dent : ChangeSetDirent) : deleted :=
  let l := remove_dent_from_dir (cs_dents dir) dname in
  mkDeleted (set_dents dir l) (Some dent) (length l =? 0)%nat true.

Section changeset.
(** The store the change set reads and writes, the version of its root, the clock. *)
Context (st : fs_store) (root_version now : Z).

(** The sub-directory of an entry, loaded when it is not. *)
Definition load_subdir (dent : ChangeSetDirent) : option ChangeSetDir :=
  match snd dent with
  | Some sub => Some sub
  | None => seaf_dir_to_changeset_dir <$> seaf_fs_manager_get_seafdir st root_version (cd_id (fst dent))
  end.

Fixpoint delete_from_tree (dir : ChangeSetDir) (parts : list string) : deleted :=
  match parts with
  | [] => nothing dir
  | dname :: rest =>
      match cs_lookup dname (cs_dents dir) with
      | None => nothing dir
      | Some dent =>
          if S_ISDIR (cd_mode (fst dent)) then
            match rest with
            | [] => delete_here dir dname dent
            | _ =>
                match load_subdir dent with
                | None => nothing dir
                | Some sub =>
                    let r := delete_from_tree sub rest in
                    let d := if dl_here r then set_cd_mtime (fst dent) now else fst dent in
                    mkDeleted (set_dents dir (add_dent_to_dir (cs_dents dir) (d, Some (dl_dir r)))) (dl_dent r)
                      (dl_parent_empty r) false
                end
            end
          else if S_ISREG (cd_mode (fst dent)) then
            match rest with
            | [] => delete_here dir dname dent
            | _ => delete_from_tree dir rest
            end
          else delete_from_tree dir rest
      end
  end.

(** The mode is that of the last entry that was taken out. *)
Fixpoint remove_from_changeset_recursive (fuel : nat) (root : ChangeSetDir) (path : string) (remove_parent : bool)
    (top_dir : string) (mode : option Z) : ChangeSetDir * option Z :=
  let r := delete_from_tree root (split_path path) in
  let mode := match dl_dent r with Some dent => Some (cd_mode (fst dent)) | None => mode end in
  match fuel with
  | O => (dl_dir r, mode)
  | S fuel =>
      if remove_parent && dl_parent_empty r then
        match split_last path with
        | Some (parent, _) =>
            if (String.length top_dir <=? String.length parent)%nat
            then remove_from_changeset_recursive fuel (dl_dir r) parent remove_parent top_dir mode
            else (dl_dir r, mode)
        | None => (dl_dir r, mode)
        end
      else (dl_dir r, mode)
  end.

(** Every round shortens the path. *)
Definition remove_from_changeset (root : ChangeSetDir) (path : string) (remove_parent : bool) (top_dir : string)
    (mode : option Z) : ChangeSetDir * option Z :=
  remove_from_changeset_recursive (String.length path) root path remove_parent top_dir mode.

Definition batch_del_step (acc : ChangeSetDir * del_answer) (name : string) : ChangeSetDir * del_answer :=
  let '(root, a) := acc in
  match name with
  | EmptyString => (root, a)
  | _ =>
      let canon_path := get_canonical_path name in
      let '(root, mode) := remove_from_changeset root (skip_slash canon_path) false EmptyString (del_mode a) in
      (root, mkDel (deleted_num a + 1) mode
               (match desc_file a with None => Some (g_path_get_basename canon_path) | d => d end))
  end.

Definition do_batch_del_files (root : ChangeSetDir) (names : list string) : ChangeSetDir * del_answer :=
  foldl batch_del_step (root, mkDel 0 None None) names.
End changeset.

(** ** Committing *)

Section commit.
Context (dir_hash : Z -> list SeafDirent -> string) (write_ok : string -> bool).

Definition seaf_fs_manager_object_exists (st : fs_store) (id : string) : bool :=
  String.eqb id EMPTY_SHA1 || match st !! id with Some _ => true | None => false end.

(** The loop over the entries: the loaded sub-directories get new ids. *)
Definition commit_dents (commit : ChangeSetDir -> fs_store -> option string * fs_store) :=
  fix go (l : list ChangeSetDirent) (st : fs_store) : option (list cs_fields) * fs_store :=
    match l with
    | [] => (Some [], st)
    | (d, None) :: l => let '(r, st) := go l st in (cons d <$> r, st)
    | (d, Some sub) :: l =>
        match commit sub st with
        | (None, st) => (None, st)
        | (Some new_id, st) => let '(r, st) := go l st in (cons (set_cd_id d new_id) <$> r, st)
        end
    end.

Fixpoint commit_tree_recursive (dir : ChangeSetDir) (st : fs_store) : option string * fs_store :=
  match dir with
  | mkCsDir version _ dents =>
      match commit_dents commit_tree_recursive dents st with
      | (None, st) => (None, st)
      | (Some l, st) =>
          let seaf_dir := changeset_dir_to_seaf_dir dir_hash version l in
          if seaf_fs_manager_object_exists st (FsObj.dir_id seaf_dir) then (Some (FsObj.dir_id seaf_dir), st)
          else
            let '(ret, st) := seaf_dir_save write_ok st seaf_dir in
            (if ret <? 0 then None else Some (FsObj.dir_id seaf_dir), st)
      end
  end.
End commit.

(** ** The handler *)

Section handler.
Context (dir_hash : Z -> list SeafDirent -> string) (se : Session).
Context {S : Type} (providers : list (Provider S)).

(** The root is read from the store of the library, the change set works on the
    store of the library's own id: [own_store] when that is another one. *)
Definition batch_del_tree (own_store : fs_store) (names : list string) (dir : SeafDir)
    (repo : SeafRepo) (head : SeafCommit) (o : Oracle) (st : fs_store) : tree_result * fs_store :=
  let same := String.eqb (r_store_id repo) (r_id repo) in
  let cs_store := if same then st else own_store in
  let changeset := seaf_dir_to_changeset_dir dir in
  let '(root, a) := do_batch_del_files cs_store (cs_version changeset) (o_now o) changeset names in
  if deleted_num a =? 0 then (TreeSame, st)
  else
    let '(r, cs_store) := commit_tree_recursive dir_hash (o_dir_write o) root cs_store in
    (match r with None => TreeFails | Some root_id => TreeNew root_id (del_desc a) [] end,
     if same then cs_store else st).

Definition seaf_repo_manager_batch_del_files (own_store : fs_store) (repo_id : string) (names : list string)
    (user : option string) (w : World) (s : S) : started (S := S) :=
  match repo_and_head w repo_id with
  | None => Refused w s
  | Some (repo, head) =>
      match seaf_fs_manager_get_seafdir_sorted (w_fs w) (r_version repo) (root_id head) with
      | None => Refused w s
      | Some dir =>
          let fop := base_fop "delete" repo_id "/" None names user None in
          let '(prepared, _, s) := cf_fileop_prepare providers fop s in
          if prepared <? 0 then Refused w s
          else Running (mkOp repo_id user true false true [repo_id] true
                          (seaf_repo_get_current_gc_id (se_db_type se) (w_db w) repo)
                          (batch_del_tree own_store names dir) (fun _ => fop) fop) repo head w s
      end
  end.
End handler.
