(* ===== verification/ChangeSetProof.v ===== *)
(** * Batch deletion deletes what it is asked to ([server/change-set.c])

    A change set is seen as a map from paths to entries, like a stored tree: loading
    keeps the map, deleting removes a path with everything below it, and committing
    stores a tree with that map. *)

From S2P Require Import Prelude Hex Paths FsObj FsMgr Walk Diff Merge CommitMgr RepoOp RepoOpProof LibView Repo CfV2Acl Publish PublishProof CfFileop Handlers HandlersProof ChangeSet.

(** ** Induction over the loaded directories *)

Section cs_dir_ind.
Context (P : ChangeSetDir -> Prop).
Context (Hdir : forall version id dents,
  Forall (fun d : ChangeSetDirent => match snd d with Some sub => P sub | None => True end) dents ->
  P (mkCsDir version id dents)).

Fixpoint cs_dir_ind (dir : ChangeSetDir) : P dir :=
  match dir with
  | mkCsDir version id dents =>
      Hdir version id dents
        ((fix go (l : list ChangeSetDirent)
           : Forall (fun d : ChangeSetDirent => match snd d with Some sub => P sub | None => True end) l :=
            match l with
            | [] => List.Forall_nil _
            | (d, None) :: l => List.Forall_cons _ (d, None) l I (go l)
            | (d, Some sub) :: l => List.Forall_cons _ (d, Some sub) l (cs_dir_ind sub) (go l)
            end) dents)
  end.
End cs_dir_ind.

(** ** The hash table of entries *)

Lemma cs_lookup_cons nm d l :
  cs_lookup nm (d :: l) = if String.eqb nm (cs_name d) then Some d else cs_lookup nm l.
Proof. done. Qed.

Lemma cs_lookup_Some nm l d : cs_lookup nm l = Some d -> d ∈ l /\ cs_name d = nm.
Proof.
  intros [H1 H2]%List.find_some. split; [by apply list_elem_of_In|]. by apply String.eqb_eq in H2.
Qed.

Lemma cs_lookup_add nm l d :
  cs_lookup nm (add_dent_to_dir l d) = if String.eqb nm (cs_name d) then Some d else cs_lookup nm l.
Proof.
  induction l as [|d' l IH]; cbn [add_dent_to_dir]; [by rewrite cs_lookup_cons|].
  destruct (String.eqb_spec (cs_name d) (cs_name d')) as [E|Hne]; rewrite !cs_lookup_cons.
  - rewrite <- E. by destruct (String.eqb nm (cs_name d)).
  - rewrite IH. destruct (String.eqb_spec nm (cs_name d')) as [->|]; [|done].
    by rewrite (proj2 (String.eqb_neq _ _) (not_eq_sym Hne)).
Qed.

Lemma cs_lookup_remove nm l x :
  cs_lookup nm (remove_dent_from_dir l x) = if String.eqb nm x then None else cs_lookup nm l.
Proof.
  unfold remove_dent_from_dir. induction l as [|d l IH]; [by destruct (String.eqb nm x)|].
  rewrite filter_cons, cs_lookup_cons. case_decide as Hd.
  - rewrite cs_lookup_cons, IH. destruct (String.eqb_spec nm (cs_name d)) as [->|]; [|done].
    by rewrite (proj2 (String.eqb_neq _ _) Hd).
  - rewrite IH. subst. by destruct (String.eqb nm (cs_name d)).
Qed.

Lemma add_elem l d e : e ∈ add_dent_to_dir l d -> e = d \/ e ∈ l.
Proof.
  induction l as [|d' l IH]; cbn [add_dent_to_dir]; [intros ->%list_elem_of_singleton; by left|].
  destruct (String.eqb (cs_name d) (cs_name d')); rewrite !elem_of_cons; [tauto|]. intros [->|He]; [tauto|].
  destruct (IH He); tauto.
Qed.

Lemma add_names l d :
  cs_name <$> add_dent_to_dir l d = if bool_decide (cs_name d ∈ cs_name <$> l) then cs_name <$> l else (cs_name <$> l) ++ [cs_name d].
Proof.
  induction l as [|d' l IH]; [done|]. cbn [add_dent_to_dir fmap list_fmap].
  destruct (String.eqb_spec (cs_name d) (cs_name d')) as [E|Hne].
  - rewrite bool_decide_eq_true_2 by (rewrite E; by left). cbn. by rewrite E.
  - cbn [fmap list_fmap]. rewrite IH. rewrite (bool_decide_ext (cs_name d ∈ cs_name d' :: (cs_name <$> l)) (cs_name d ∈ cs_name <$> l)).
    + by case_bool_decide.
    + rewrite elem_of_cons. tauto.
Qed.

Lemma add_NoDup l d : NoDup (cs_name <$> l) -> NoDup (cs_name <$> add_dent_to_dir l d).
Proof.
  intros H. rewrite add_names. case_bool_decide; [done|]. apply NoDup_app. split; [done|]. split; [|apply NoDup_singleton].
  intros x Hx ->%list_elem_of_singleton. done.
Qed.

Lemma remove_NoDup l x : NoDup (cs_name <$> l) -> NoDup (cs_name <$> remove_dent_from_dir l x).
Proof.
  unfold remove_dent_from_dir. induction l as [|d l IH]; [done|]. cbn [fmap list_fmap]. intros [Hd Hl]%NoDup_cons.
  rewrite filter_cons. case_decide; [|by apply IH]. cbn [fmap list_fmap]. constructor; [|by apply IH].
  intros (e & E & [_ He]%list_elem_of_filter)%list_elem_of_fmap. apply Hd. rewrite E. by apply list_elem_of_fmap_2.
Qed.

Lemma foldl_add l : forall acc,
  NoDup (cs_name <$> acc ++ l) -> foldl add_dent_to_dir acc l = acc ++ l.
Proof.
  induction l as [|d l IH]; intros acc H; cbn [foldl]; [by rewrite app_nil_r|].
  assert (Ha : add_dent_to_dir acc d = acc ++ [d]).
  { assert (Hd : cs_name d ∉ cs_name <$> acc).
    { rewrite fmap_app in H. apply NoDup_app in H as (_ & H & _). intros Hin. apply (H _ Hin). by left. }
    clear -Hd. induction acc as [|d' acc IH]; [done|]. cbn [add_dent_to_dir].
    rewrite (proj2 (String.eqb_neq _ _)); [by rewrite IH; [|set_solver]|]. intros E. apply Hd. rewrite E. by left. }
  rewrite Ha, IH; by rewrite <- app_assoc.
Qed.

Lemma cs_lookup_entries nm l :
  cs_lookup nm (seaf_dirent_to_changeset_dirent <$> l) = seaf_dirent_to_changeset_dirent <$> lookup_name nm l.
Proof.
  induction l as [|d l IH]; [done|]. cbn [fmap list_fmap]. rewrite cs_lookup_cons, IH, lookup_name_cons. cbn [cs_name fst cd_name seaf_dirent_to_changeset_dirent].
  by destruct (String.eqb nm (d_name d)).
Qed.

Lemma names_entries (l : list SeafDirent) : cs_name <$> (seaf_dirent_to_changeset_dirent <$> l) = d_name <$> l.
Proof. by rewrite <- list_fmap_compose. Qed.

Lemma sorted_NoDup l : sorted_entries l -> NoDup (d_name <$> l).
Proof.
  induction 1 as [|d l _ IH Hall]; [constructor|]. cbn. constructor; [|done]. intros (e & E & He)%list_elem_of_fmap.
  rewrite Forall_forall in Hall. specialize (Hall e He). rewrite E in Hall. by apply gt_name_irrefl in Hall.
Qed.

(** ** Change sets as maps from paths *)

Section view.
Context (dir_hash : Z -> list SeafDirent -> string) (version : Z).
Context (Hv : dir_version_from_repo_version version = version) (Hcf : collision_free dir_hash version).
Abbreviation to_dirent := (changeset_dirent_to_seaf_dirent version).

Fixpoint cs_view (st : fs_store) (l : list ChangeSetDirent) (path : list string) : option SeafDirent :=
  match path with
  | [] => None
  | name :: rest =>
      d ← cs_lookup name l;
      match rest with
      | [] => Some (attr (to_dirent (fst d)))
      | _ =>
          if S_ISDIR (cd_mode (fst d)) then
            match snd d with
            | Some sub => cs_view st (cs_dents sub) rest
            | None =>
                dir ← seaf_fs_manager_get_seafdir st version (cd_id (fst d));
                view version st (entries dir) rest
            end
          else None
      end
  end.

(** An entry that making it anew does not change. *)
Definition normal_dirent (e : SeafDirent) : Prop := to_dirent (fst (seaf_dirent_to_changeset_dirent e)) = e.

(** A library whose objects have its version and normal entries. *)
Record normal_library (st : fs_store) : Prop := {
  nl_library : library_ok dir_hash version st;
  nl_version : forall id dir, seaf_fs_manager_get_seafdir st version id = Some dir -> dir_version dir = version;
  nl_normal : forall id dir e, seaf_fs_manager_get_seafdir st version id = Some dir -> e ∈ entries dir -> normal_dirent e
}.

(** Directories of the version of the library, names unique, sub-directories readable
    or loaded. *)
Inductive cs_wf (st : fs_store) : ChangeSetDir -> Prop :=
| wf_dir id dents :
    NoDup (cs_name <$> dents) ->
    (forall d, (d, None) ∈ dents -> S_ISDIR (cd_mode d) = true ->
       is_Some (seaf_fs_manager_get_seafdir st version (cd_id d))) ->
    (forall d sub, (d, Some sub) ∈ dents -> S_ISDIR (cd_mode d) = true) ->
    (forall d sub, (d, Some sub) ∈ dents -> cs_wf st sub) ->
    cs_wf st (mkCsDir version id dents).

Lemma view_loaded st l path :
  (forall e, e ∈ l -> normal_dirent e) -> cs_view st (seaf_dirent_to_changeset_dirent <$> l) path = view version st l path.
Proof.
  intros Hn. destruct path as [|name rest]; [done|]. cbn [cs_view view]. rewrite cs_lookup_entries.
  destruct (lookup_name name l) as [d|] eqn:E; [|done]. cbn [fmap option_fmap option_map mbind option_bind].
  apply lookup_name_Some in E as [Hd _]. rewrite (Hn d Hd). by destruct rest.
Qed.

Lemma dir_new_dents st id dir :
  normal_library st -> seaf_fs_manager_get_seafdir st version id = Some dir ->
  cs_dents (seaf_dir_to_changeset_dir dir) = seaf_dirent_to_changeset_dirent <$> entries dir.
Proof.
  intros [Hl _ _] Hd. unfold seaf_dir_to_changeset_dir, changeset_dir_new. cbn [cs_dents].
  rewrite (foldl_add _ []); [done|]. cbn [app]. rewrite names_entries. apply sorted_NoDup.
  by apply (tidy_sorted _ _ (lib_tidy _ _ _ Hl) id).
Qed.

(** Loading keeps the map. *)
Lemma loaded_view st id dir path :
  normal_library st -> seaf_fs_manager_get_seafdir st version id = Some dir ->
  cs_view st (cs_dents (seaf_dir_to_changeset_dir dir)) path = view version st (entries dir) path.
Proof.
  intros Hn Hd. rewrite (dir_new_dents _ _ _ Hn Hd). apply view_loaded. intros e. by apply (nl_normal _ Hn id).
Qed.

Lemma loaded_wf st id dir :
  normal_library st -> seaf_fs_manager_get_seafdir st version id = Some dir -> cs_wf st (seaf_dir_to_changeset_dir dir).
Proof.
  intros Hn Hd. pose proof (dir_new_dents _ _ _ Hn Hd) as E. pose proof (nl_version _ Hn _ _ Hd) as Ev.
  destruct (seaf_dir_to_changeset_dir dir) as [v i dents] eqn:Ec. cbn [cs_dents] in E.
  assert (v = version) as -> by (by injection Ec as <- _ _). subst dents. destruct Hn as [Hl _ _].
  assert (Hnone : forall d sub, (d, sub) ∈ seaf_dirent_to_changeset_dirent <$> entries dir ->
    exists e, e ∈ entries dir /\ sub = None /\ cd_mode d = d_mode e /\ cd_id d = d_id e).
  { intros d sub (e & [= -> ->] & He)%list_elem_of_fmap. by exists e. }
  constructor.
  - rewrite names_entries. by apply sorted_NoDup, (tidy_sorted _ _ (lib_tidy _ _ _ Hl) id).
  - intros d (e & He & _ & -> & ->)%Hnone. by apply (tidy_closed _ _ (lib_tidy _ _ _ Hl) id dir).
  - by intros d sub (e & _ & ? & _)%Hnone.
  - by intros d sub (e & _ & ? & _)%Hnone.
Qed.

Lemma to_dirent_dir f : S_ISDIR (d_mode (to_dirent f)) = S_ISDIR (cd_mode f).
Proof. apply S_ISDIR_dirent_new. Qed.

Lemma to_dirent_name f : d_name (to_dirent f) = cd_name f.
Proof. apply d_name_dirent_new. Qed.

(** The time and the id of a directory are not part of the map. *)
Lemma attr_same f g :
  S_ISDIR (cd_mode f) = true -> cd_mode g = cd_mode f -> cd_name g = cd_name f ->
  attr (to_dirent g) = attr (to_dirent f).
Proof.
  intros Hd Hm Hn. unfold attr. rewrite !to_dirent_dir, Hm, Hd. unfold changeset_dirent_to_seaf_dirent, seaf_dirent_new.
  assert (Hr : S_ISREG (cd_mode f) = false).
  { revert Hd. unfold S_ISDIR, S_ISREG. by intros ->%Z.eqb_eq. }
  rewrite Hm, Hn, Hr. by destruct (0 <? version).
Qed.

(** ** Deleting *)

(** Every entry on the way to a path is a directory, and its end a directory or a
    file. *)
Definition deletable (v : list string -> option SeafDirent) (parts : list string) : Prop :=
  forall q r d, parts = q ++ r -> q <> [] -> v q = Some d ->
    S_ISDIR (d_mode d) = true \/ (r = [] /\ S_ISREG (d_mode d) = true).

Definition without (parts : list string) (v : list string -> option SeafDirent) (p : list string) : option SeafDirent :=
  if bool_decide (parts `prefix_of` p) then None else v p.

Lemma wf_remove st dir x : cs_wf st dir -> cs_wf st (set_dents dir (remove_dent_from_dir (cs_dents dir) x)).
Proof.
  destruct 1 as [id dents Hd H1 H2 H3]. cbn [set_dents cs_version cs_dir_id cs_dents].
  assert (Hin : forall e, e ∈ remove_dent_from_dir dents x -> e ∈ dents) by (by intros e [_ ?]%list_elem_of_filter).
  constructor; [by apply remove_NoDup|..]; eauto.
Qed.

Lemma wf_add st dir d sub :
  cs_wf st dir -> S_ISDIR (cd_mode d) = true -> cs_wf st sub ->
  cs_wf st (set_dents dir (add_dent_to_dir (cs_dents dir) (d, Some sub))).
Proof.
  destruct 1 as [id dents Hd H1 H2 H3]. intros Hm Hs. cbn [set_dents cs_version cs_dir_id cs_dents].
  constructor; [by apply add_NoDup|..].
  - intros e [|]%add_elem; [done|]. by apply H1.
  - intros e s [[= -> ->]|]%add_elem; [done|]. by eapply H2.
  - intros e s [[= -> ->]|]%add_elem; [done|]. by eapply H3.
Qed.

Lemma view_remove st l x p : cs_view st (remove_dent_from_dir l x) p = without [x] (cs_view st l) p.
Proof.
  unfold without. destruct p as [|nm rest]; [by case_bool_decide|]. cbn [cs_view]. rewrite cs_lookup_remove.
  destruct (String.eqb_spec nm x) as [->|Hne].
  - rewrite bool_decide_eq_true_2; [done|]. by exists rest.
  - rewrite bool_decide_eq_false_2; [done|]. intros [k E]. injection E as -> _. done.
Qed.

(** An entry is replaced by one with a changed sub-directory. *)
Lemma view_add st l dent d sub sub' rest p :
  cs_lookup (cs_name dent) l = Some dent -> S_ISDIR (cd_mode (fst dent)) = true ->
  cd_mode d = cd_mode (fst dent) -> cd_name d = cs_name dent -> rest <> [] ->
  (forall q, q <> [] -> cs_view st l (cs_name dent :: q) = cs_view st (cs_dents sub) q) ->
  (forall q, cs_view st (cs_dents sub') q = without rest (cs_view st (cs_dents sub)) q) ->
  cs_view st (add_dent_to_dir l (d, Some sub')) p = without (cs_name dent :: rest) (cs_view st l) p.
Proof.
  intros Hlk Hm Hdm Hdn Hr Hsub Hsub'. unfold without. destruct p as [|nm q]; [by case_bool_decide|].
  destruct (String.eqb_spec nm (cs_name dent)) as [->|Hne].
  - assert (Hadd : cs_lookup (cs_name dent) (add_dent_to_dir l (d, Some sub')) = Some (d, Some sub')).
    { rewrite cs_lookup_add. unfold cs_name at 2. cbn [fst]. by rewrite Hdn, String.eqb_refl. }
    rewrite (bool_decide_ext _ (rest `prefix_of` q)).
    2: { split; [by apply prefix_cons_inv_2|by apply prefix_cons]. }
    destruct q as [|y q].
    + rewrite bool_decide_eq_false_2 by (intros ->%prefix_nil_inv; done). cbn [cs_view]. rewrite Hadd, Hlk.
      cbn [mbind option_bind fst]. f_equal. by apply attr_same.
    + rewrite Hsub by done. change (if bool_decide (rest `prefix_of` (y :: q)) then None else cs_view st (cs_dents sub) (y :: q))
        with (without rest (cs_view st (cs_dents sub)) (y :: q)). rewrite <- Hsub'. cbn [cs_view]. rewrite Hadd.
      cbn [mbind option_bind fst snd]. by rewrite Hdm, Hm.
  - rewrite bool_decide_eq_false_2 by (intros [k E]; injection E as -> _; done). cbn [cs_view].
    rewrite cs_lookup_add. unfold cs_name at 1. cbn [fst]. rewrite Hdn. by rewrite (proj2 (String.eqb_neq _ _) Hne).
Qed.

(** The sub-directory of an entry of a change set, loaded. *)
Lemma load_subdir_ok st dir dent :
  normal_library st -> cs_wf st dir -> dent ∈ cs_dents dir -> cs_lookup (cs_name dent) (cs_dents dir) = Some dent ->
  S_ISDIR (cd_mode (fst dent)) = true ->
  exists sub, load_subdir st version dent = Some sub /\ cs_wf st sub /\
    forall q, q <> [] -> cs_view st (cs_dents dir) (cs_name dent :: q) = cs_view st (cs_dents sub) q.
Proof.
  intros Hn Hwf Hin Hlk Hm. destruct Hwf as [id dents Hd H1 H2 H3]. cbn [cs_dents] in *.
  assert (Hview : forall q, q <> [] -> cs_view st dents (cs_name dent :: q) =
    match snd dent with
    | Some sub => cs_view st (cs_dents sub) q
    | None => dir ← seaf_fs_manager_get_seafdir st version (cd_id (fst dent)); view version st (entries dir) q
    end).
  { intros q Hq. cbn [cs_view]. rewrite Hlk. cbn [mbind option_bind]. rewrite Hm. by destruct q. }
  unfold load_subdir. destruct dent as [d [sub|]]; cbn [fst snd] in *.
  - exists sub. split; [done|]. split; [by eapply H3|done].
  - destruct (H1 d Hin Hm) as [sd Hsd]. rewrite Hsd in *. eexists. split; [done|]. split; [by eapply loaded_wf|].
    intros q Hq. rewrite Hview by done. cbn [mbind option_bind]. symmetry. by apply (loaded_view _ (cd_id d)).
Qed.

Lemma delete_view st now parts : forall dir,
  normal_library st -> cs_wf st dir -> parts <> [] -> deletable (cs_view st (cs_dents dir)) parts ->
  let r := delete_from_tree st version now dir parts in
  cs_wf st (dl_dir r) /\ forall p, cs_view st (cs_dents (dl_dir r)) p = without parts (cs_view st (cs_dents dir)) p.
Proof.
  induction parts as [|dname rest IH]; intros dir Hn Hwf Hne Hdel; [done|]. cbv zeta. cbn [delete_from_tree].
  assert (Hgone : cs_lookup dname (cs_dents dir) = None -> forall p, cs_view st (cs_dents dir) p =
    without (dname :: rest) (cs_view st (cs_dents dir)) p).
  { intros E p. unfold without. case_bool_decide as Hp; [|done]. destruct Hp as [k ->]. cbn [cs_view app]. by rewrite E. }
  destruct (cs_lookup dname (cs_dents dir)) as [dent|] eqn:El; [|by split; [|apply Hgone]].
  pose proof (cs_lookup_Some _ _ _ El) as [Hin Hname].
  assert (Hhead : cs_view st (cs_dents dir) [dname] = Some (attr (to_dirent (fst dent)))) by (cbn [cs_view]; by rewrite El).
  assert (Hkind := Hdel [dname] rest _ eq_refl ltac:(done) Hhead). rewrite attr_mode, to_dirent_dir in Hkind.
  destruct (S_ISDIR (cd_mode (fst dent))) eqn:Hm.
  - destruct rest as [|y rest]; [by split; [apply wf_remove|intros p; apply view_remove]|].
    subst dname. destruct (load_subdir_ok st dir dent Hn Hwf Hin El Hm) as (sub & Hload & Hsub & Hview). rewrite Hload.
    destruct (IH sub Hn Hsub ltac:(done)) as [Hwf' Hview'].
    { intros q r d E Hq Hd. apply (Hdel (cs_name dent :: q) r d); [by rewrite E|done|]. by rewrite Hview. }
    set (r := delete_from_tree st version now sub (y :: rest)) in *. cbn [dl_dir].
    set (d := if dl_here r then set_cd_mtime (fst dent) now else fst dent).
    assert (Hdm : cd_mode d = cd_mode (fst dent)) by (subst d; by destruct (dl_here r)).
    assert (Hdn : cd_name d = cs_name dent) by (subst d; by destruct (dl_here r)).
    split; [apply wf_add; [done|by rewrite Hdm|done]|]. intros p. by eapply view_add.
  - destruct Hkind as [|[-> Hreg]]; [done|].
    assert (Hr : S_ISREG (cd_mode (fst dent)) = true).
    { revert Hreg. unfold changeset_dirent_to_seaf_dirent, seaf_dirent_new.
      destruct (S_ISREG (cd_mode (fst dent))) eqn:E; [done|]. by destruct (0 <? version); cbn; rewrite E. }
    rewrite Hr. by split; [apply wf_remove|intros p; apply view_remove].
Qed.

(** ** Committing *)

Lemma sort_strict l : NoDup (d_name <$> l) -> sorted_entries (sort_dirents l).
Proof.
  intros Hnd. assert (Hn : NoDup (d_name <$> sort_dirents l)) by (by rewrite sort_dirents_perm).
  pose proof (sort_dirents_sorted l) as Hs. revert Hn. induction Hs as [|d k _ IH Hall]; [constructor|].
  cbn [fmap list_fmap]. intros [Hd Hk]%NoDup_cons. constructor; [by apply IH|]. rewrite Forall_forall in Hall |- *.
  intros e He. destruct (gt_name_total (d_name d) (d_name e)) as [E|[|Hgt]]; [|done|by destruct (Hall e He)].
  destruct Hd. rewrite E. by apply list_elem_of_fmap_2.
Qed.

Lemma lookup_name_perm nm l l' : NoDup (d_name <$> l) -> l ≡ₚ l' -> lookup_name nm l = lookup_name nm l'.
Proof.
  intros Hnd Hp. assert (Huniq : forall e e', e ∈ l -> e' ∈ l -> d_name e = d_name e' -> e = e').
  { intros e e' He He' E. apply list_elem_of_lookup in He as [i Hi], He' as [j Hj].
    assert (i = j) as ->; [|congruence]. eapply (NoDup_lookup _ _ _ (d_name e) Hnd); rewrite list_lookup_fmap; [by rewrite Hi|].
    rewrite Hj, E. done. }
  destruct (lookup_name nm l) as [d|] eqn:E, (lookup_name nm l') as [d'|] eqn:E'; [| | |done].
  - apply lookup_name_Some in E as [H1 H2], E' as [H3 H4]. rewrite <- Hp in H3. f_equal. apply Huniq; congruence.
  - apply lookup_name_Some in E as [H1 H2]. rewrite Hp in H1. rewrite lookup_name_None in E'. by destruct (E' d H1).
  - apply lookup_name_Some in E' as [H1 H2]. rewrite <- Hp in H1. rewrite lookup_name_None in E. by destruct (E d' H1).
Qed.

(** What is below an entry in a store. *)
Definition below_entry (st : fs_store) (id : string) (rest : list string) : option SeafDirent :=
  dir ← seaf_fs_manager_get_seafdir st version id; view version st (entries dir) rest.

Lemma below_entry_mono st st' id rest :
  st ⊆ st' -> library_ok dir_hash version st -> is_Some (seaf_fs_manager_get_seafdir st version id) ->
  below_entry st' id rest = below_entry st id rest.
Proof.
  intros Hs Hl Hsome. apply (view_root_mono version st st' id rest Hs); [|done].
  intros i d e. apply (tidy_closed _ _ (lib_tidy _ _ _ Hl)).
Qed.

(** An entry of a change set over [st] and its fields after the commit to [st']. *)
Definition committed (st st' : fs_store) (dent : ChangeSetDirent) (f : cs_fields) : Prop :=
  cd_name f = cs_name dent /\ cd_mode f = cd_mode (fst dent) /\ attr (to_dirent f) = attr (to_dirent (fst dent)) /\
  (S_ISDIR (cd_mode f) = true -> is_Some (seaf_fs_manager_get_seafdir st' version (cd_id f)) /\
     forall rest, below_entry st' (cd_id f) rest =
       match snd dent with
       | Some sub => cs_view st (cs_dents sub) rest
       | None => below_entry st (cd_id (fst dent)) rest
       end).

Lemma committed_mono st st1 st2 dent f :
  st1 ⊆ st2 -> library_ok dir_hash version st1 -> committed st st1 dent f -> committed st st2 dent f.
Proof.
  intros Hs Hl (H1 & H2 & H3 & H4). split_and!; try done. intros Hd. destruct (H4 Hd) as [[x Hx] Hb]. split.
  - exists x. by eapply get_seafdir_mono.
  - intros rest. rewrite <- Hb. apply below_entry_mono; [done|done|by exists x].
Qed.

Abbreviation always := (fun _ : string => true).
Abbreviation commit := (commit_tree_recursive dir_hash always).

(** What committing a directory gives. *)
Definition commits (st : fs_store) (dir : ChangeSetDir) (st1 : fs_store) : Prop :=
  exists id' st', commit dir st1 = (Some id', st') /\ st1 ⊆ st' /\ library_ok dir_hash version st' /\
    is_Some (seaf_fs_manager_get_seafdir st' version id') /\
    forall path, below_entry st' id' path = cs_view st (cs_dents dir) path.

Lemma commit_dents_none c d l st :
  commit_dents c ((d, None) :: l) st = (let '(r, st) := commit_dents c l st in (cons d <$> r, st)).
Proof. done. Qed.

Lemma commit_dents_some c d sub l st :
  commit_dents c ((d, Some sub) :: l) st =
  match c sub st with
  | (None, st) => (None, st)
  | (Some new_id, st) => let '(r, st) := commit_dents c l st in (cons (set_cd_id d new_id) <$> r, st)
  end.
Proof. done. Qed.

Lemma commit_dents_ok st l : forall st1,
  library_ok dir_hash version st -> st ⊆ st1 -> library_ok dir_hash version st1 ->
  (forall d, (d, None) ∈ l -> S_ISDIR (cd_mode d) = true -> is_Some (seaf_fs_manager_get_seafdir st version (cd_id d))) ->
  (forall d sub, (d, Some sub) ∈ l -> S_ISDIR (cd_mode d) = true) ->
  (forall d sub, (d, Some sub) ∈ l -> forall st1, st ⊆ st1 -> library_ok dir_hash version st1 -> commits st sub st1) ->
  exists ds st', commit_dents commit l st1 = (Some ds, st') /\ st1 ⊆ st' /\ library_ok dir_hash version st' /\
    Forall2 (committed st st') l ds.
Proof.
  induction l as [|[d [sub|]] l IH]; intros st1 Hl0 Hs Hl1 H1 H2 H3.
  - exists [], st1. split_and!; try done.
  - destruct (H3 d sub ltac:(by left) st1 Hs Hl1) as (id' & st2 & E & Hs2 & Hl2 & Hsome & Hview).
    destruct (IH st2 Hl0 ltac:(by trans st1) Hl2) as (ds & st' & E' & Hs' & Hl' & Hall).
    { intros e He. apply H1. by right. } { intros e s He. apply (H2 e s). by right. }
    { intros e s He. apply (H3 e s). by right. }
    rewrite commit_dents_some, E, E'. cbn [fmap option_fmap option_map].
    eexists _, st'. split_and!; [done|by trans st2|done|]. constructor; [|done].
    apply (committed_mono _ st2); [done|done|]. split_and!; [done|done|by apply attr_same; [by eapply H2; left|..]|].
    intros _. by split.
  - destruct (IH st1 Hl0 Hs Hl1) as (ds & st' & E' & Hs' & Hl' & Hall).
    { intros e He. apply H1. by right. } { intros e s He. apply (H2 e s). by right. }
    { intros e s He. apply (H3 e s). by right. }
    rewrite commit_dents_none, E'. cbn [fmap option_fmap option_map].
    eexists _, st'. split_and!; [done|done|done|]. constructor; [|done]. split_and!; [done|done|done|].
    intros Hd. destruct (H1 d ltac:(by left) Hd) as [x Hx]. cbn [fst snd]. split.
    + exists x. eapply get_seafdir_mono; [|exact Hx]. by trans st1.
    + intros rest. apply below_entry_mono; [by trans st1|done|by exists x].
Qed.

Lemma committed_lookup st st' nm l ds :
  Forall2 (committed st st') l ds ->
  match cs_lookup nm l with
  | Some dent => exists f, lookup_name nm (to_dirent <$> ds) = Some (to_dirent f) /\ committed st st' dent f
  | None => lookup_name nm (to_dirent <$> ds) = None
  end.
Proof.
  induction 1 as [|dent f l ds Hc _ IH]; [done|]. cbn [fmap list_fmap]. rewrite cs_lookup_cons, lookup_name_cons, to_dirent_name.
  pose proof Hc as (Hn & _). rewrite Hn.
  destruct (String.eqb nm (cs_name dent)); [by exists f|done].
Qed.

Lemma committed_names st st' l ds : Forall2 (committed st st') l ds -> d_name <$> (to_dirent <$> ds) = cs_name <$> l.
Proof.
  induction 1 as [|dent f l ds (Hn & _) _ IH]; [done|]. cbn [fmap list_fmap]. f_equal; [|done]. by rewrite to_dirent_name.
Qed.

(** Saving at the end of the loop is saving a new directory. *)
Lemma commit_saves dents ds st1 st2 id :
  commit_dents commit dents st1 = (Some ds, st2) ->
  commit (mkCsDir version id dents) st1 =
    save_new_dir dir_hash always version st2 (sort_dirents (reverse (to_dirent <$> ds))).
Proof.
  intros E. cbn [commit_tree_recursive]. rewrite E. unfold save_new_dir, changeset_dir_to_seaf_dir. rewrite Hv.
  set (dir := seaf_dir_new dir_hash _ version). unfold seaf_fs_manager_object_exists, seaf_dir_save.
  destruct (String.eqb (FsObj.dir_id dir) EMPTY_SHA1); [done|]. by destruct (st2 !! FsObj.dir_id dir).
Qed.

Lemma commit_ok st dir :
  library_ok dir_hash version st -> cs_wf st dir ->
  forall st1, st ⊆ st1 -> library_ok dir_hash version st1 -> commits st dir st1.
Proof.
  intros Hl0. induction 1 as [id dents Hnd H1 H2 _ IH]. intros st1 Hs Hl1.
  destruct (commit_dents_ok st dents st1 Hl0 Hs Hl1 H1 H2 IH) as (ds & st2 & E & Hs2 & Hl2 & Hall).
  pose proof (committed_names _ _ _ _ Hall) as Hnames. set (l := sort_dirents (reverse (to_dirent <$> ds))).
  assert (Hperm : l ≡ₚ to_dirent <$> ds) by (unfold l; by rewrite sort_dirents_perm, reverse_Permutation).
  assert (Hsort : sorted_entries l).
  { apply sort_strict. rewrite reverse_Permutation, Hnames. done. }
  assert (Hread : readable_list st2 version l).
  { intros e He Hd. rewrite Hperm in He. apply list_elem_of_fmap in He as (f & -> & Hf).
    rewrite to_dirent_dir in Hd. apply list_elem_of_lookup in Hf as [i Hi].
    destruct (Forall2_lookup_r _ _ _ _ _ Hall Hi) as (dent & _ & (_ & _ & _ & Hok)).
    unfold changeset_dirent_to_seaf_dirent. rewrite d_id_dirent_new. by apply Hok. }
  destruct (save_new_dir_ok dir_hash version Hcf st2 l Hl2 Hsort Hread) as (id' & st' & m & Esave & Hs' & Hl' & Hm & Hent).
  exists id', st'. rewrite (commit_saves _ _ _ _ _ E). fold l. split_and!; [done|by trans st2|done|by exists m|].
  intros path. unfold below_entry. rewrite Hm. cbn [mbind option_bind]. rewrite Hent.
  rewrite (view_mono version st2 st' path l Hs'); [| |done].
  2: { intros i d e. apply (tidy_closed _ _ (lib_tidy _ _ _ Hl2)). }
  destruct path as [|nm rest]; [done|]. cbn [view cs_view cs_dents].
  rewrite (lookup_name_perm nm l (to_dirent <$> ds)); [|by rewrite Hperm, Hnames|done].
  pose proof (committed_lookup st st2 nm dents ds Hall) as Hlk.
  destruct (cs_lookup nm dents) as [dent|]; [|by rewrite Hlk]. destruct Hlk as (f & -> & _ & Hm' & Ha & Hok).
  cbn [mbind option_bind]. destruct rest as [|y rest]; [by rewrite Ha|].
  rewrite to_dirent_dir, <- Hm'. destruct (S_ISDIR (cd_mode f)) eqn:Hd; [|done].
  destruct (Hok eq_refl) as [_ Hb]. unfold changeset_dirent_to_seaf_dirent. rewrite d_id_dirent_new. exact (Hb (y :: rest)).
Qed.

(** ** Batches *)

(** The paths a batch names. *)
Definition batch_parts (name : string) : list string := split_path (skip_slash (get_canonical_path name)).

(** The map without the named paths and everything below them. *)
Definition without_all (names : list string) (v : list string -> option SeafDirent) (p : list string) : option SeafDirent :=
  if existsb (fun name => bool_decide (batch_parts name <> []) && bool_decide (batch_parts name `prefix_of` p)) names
  then None else v p.

Lemma deletable_ext v v' parts : (forall p, v' p = v p \/ v' p = None) -> deletable v parts -> deletable v' parts.
Proof.
  intros H Hd q r d E Hq Hv'. destruct (H q) as [E'|E']; rewrite E' in Hv'; [|done]. by apply (Hd q r d).
Qed.

Lemma remove_no_parent st now root path mode :
  (remove_from_changeset st version now root path false EmptyString mode).1 =
  dl_dir (delete_from_tree st version now root (split_path path)).
Proof. unfold remove_from_changeset. by destruct (String.length path). Qed.

Lemma batch_step_view st now root a name :
  normal_library st -> cs_wf st root -> deletable (cs_view st (cs_dents root)) (batch_parts name) ->
  let r := batch_del_step st version now (root, a) name in
  cs_wf st r.1 /\ deleted_num r.2 = deleted_num a + (if bool_decide (name = EmptyString) then 0 else 1) /\
  forall p, cs_view st (cs_dents r.1) p = without_all [name] (cs_view st (cs_dents root)) p.
Proof.
  intros Hn Hwf Hdel. unfold batch_del_step. destruct name as [|c name].
  - cbv zeta. rewrite bool_decide_eq_true_2 by done. split; [done|]. split; [cbn; lia|]. done.
  - cbv zeta. set (nm := String c name) in *. rewrite (bool_decide_eq_false_2 (nm = EmptyString)) by done.
    pose proof (remove_no_parent st now root (skip_slash (get_canonical_path nm)) (del_mode a)) as E.
    destruct (remove_from_changeset _ _ _ _ _ _ _ _) as [root' mode]. cbn [fst snd deleted_num] in E |- *. subst root'.
    fold (batch_parts nm). destruct (decide (batch_parts nm = [])) as [Hnil|Hne].
    + unfold without_all. cbn [existsb]. rewrite Hnil. cbn [delete_from_tree nothing dl_dir]. by split_and!.
    + destruct (delete_view st now (batch_parts nm) root Hn Hwf Hne Hdel) as [H1 H2]. split_and!; [done|done|].
      intros p. rewrite H2. unfold without_all, without. cbn [existsb].
      rewrite (bool_decide_eq_true_2 _ Hne). cbn [andb]. by rewrite orb_false_r.
Qed.

Lemma batch_view st now names : forall root a,
  normal_library st -> cs_wf st root -> Forall (fun name => deletable (cs_view st (cs_dents root)) (batch_parts name)) names ->
  let r := foldl (batch_del_step st version now) (root, a) names in
  cs_wf st r.1 /\ deleted_num r.2 = deleted_num a + Z.of_nat (length (filter (fun n => n <> EmptyString) names)) /\
  forall p, cs_view st (cs_dents r.1) p = without_all names (cs_view st (cs_dents root)) p.
Proof.
  induction names as [|name names IH]; intros root a Hn Hwf Hall; cbv zeta; [split; [done|]; split; [cbn; lia|done]|].
  apply Forall_cons in Hall as [Hd Hall]. cbn [foldl].
  destruct (batch_step_view st now root a name Hn Hwf Hd) as (Hwf1 & Hnum1 & Hv1).
  destruct (batch_del_step st version now (root, a) name) as [root1 a1]. cbn [fst snd] in *.
  destruct (IH root1 a1 Hn Hwf1) as (Hwf2 & Hnum2 & Hv2).
  { eapply Forall_impl; [exact Hall|]. intros n. apply deletable_ext. intros p. rewrite Hv1. unfold without_all.
    destruct (existsb _ _); auto. }
  split_and!; [done| |].
  - rewrite Hnum2, Hnum1, filter_cons. case_bool_decide as H0; case_decide; try done; cbn [length]; lia.
  - intros p. rewrite Hv2. unfold without_all. rewrite Hv1. unfold without_all. cbn [existsb].
    rewrite orb_false_r. by destruct (_ && _), (existsb _ names).
Qed.

(** Whatever writes fail, a batch fails only if one does, and otherwise does what it
    does when none fails. *)
Lemma commit_fails write_ok dir : forall st1,
  st1 ⊆ (commit_tree_recursive dir_hash write_ok dir st1).2 /\
  ((commit_tree_recursive dir_hash write_ok dir st1).1 = None /\ (exists id, write_ok id = false) \/
   commit_tree_recursive dir_hash write_ok dir st1 = commit dir st1).
Proof.
  induction dir as [v id dents IH] using cs_dir_ind; intros st1. cbn [commit_tree_recursive].
  assert (Hd : forall st1,
    st1 ⊆ (commit_dents (commit_tree_recursive dir_hash write_ok) dents st1).2 /\
    ((commit_dents (commit_tree_recursive dir_hash write_ok) dents st1).1 = None /\ (exists id, write_ok id = false) \/
     commit_dents (commit_tree_recursive dir_hash write_ok) dents st1 = commit_dents commit dents st1)).
  { clear -IH. induction dents as [|[d [sub|]] l IHl]; intros st1; [by split; [|right]| |].
    - apply Forall_cons in IH as [Hsub Hl]. rewrite !commit_dents_some. destruct (Hsub st1) as [Hs [[H1 H2]|H1]].
      + destruct (commit_tree_recursive dir_hash write_ok sub st1) as [o st2]. cbn in H1, Hs. subst o. by split; [|left].
      + rewrite H1 in *. destruct (commit sub st1) as [[new|] st2]; [|by split; [|right]]. cbn in Hs.
        destruct (IHl Hl st2) as [Hs2 [[H2 H3]|H2]];
          [|rewrite H2 in *]; destruct (commit_dents _ l st2) as [o st3]; cbn in *; (split; [by trans st2|]); [|by right].
        subst o. by left.
    - apply Forall_cons in IH as [_ Hl]. rewrite !commit_dents_none. destruct (IHl Hl st1) as [Hs2 [[H2 H3]|H2]];
        [|rewrite H2 in *]; destruct (commit_dents _ l st1) as [o st3]; cbn in *; (split; [done|]); [|by right].
      subst o. by left. }
  destruct (Hd st1) as [Hs [[H1 H2]|H1]].
  - destruct (commit_dents _ dents st1) as [o st2]. cbn in H1, Hs. subst o. by split; [|left].
  - rewrite H1 in *. destruct (commit_dents commit dents st1) as [[l|] st2]; [|by split; [|right]]. cbn in Hs.
    set (sd := changeset_dir_to_seaf_dir dir_hash v l). destruct (seaf_fs_manager_object_exists st2 _); [by split; [|right]|].
    unfold seaf_dir_save. destruct (String.eqb _ _); [by split; [|right]|]. destruct (st2 !! _) eqn:Eo; [by split; [|right]|].
    destruct (write_ok (FsObj.dir_id sd)) eqn:Ew; cbn; [|split; [done|left; by eauto]].
    split; [trans st2; [done|by apply insert_subseteq]|by right].
Qed.

(** C17: a batch deletion on a library that keeps its own objects fails only when a
    write fails, does nothing only when no path is named, and otherwise makes a tree
    in which exactly the named paths are gone, with everything below them, although
    only the directories on the way are loaded and rewritten; the named paths must
    not lead through files. *)
Theorem batch_del_refines own names repo head o st dir :
  normal_library st -> r_version repo = version -> r_store_id repo = r_id repo ->
  seaf_fs_manager_get_seafdir_sorted st version (root_id head) = Some dir ->
  Forall (fun name => deletable (view_root version st (root_id head)) (batch_parts name)) names ->
  let '(r, st') := batch_del_tree dir_hash own names dir repo head o st in
  st ⊆ st' /\
  match r with
  | TreeFails => exists id, o_dir_write o id = false
  | TreeSame => Forall (fun name => name = EmptyString) names
  | TreeNew root' _ _ =>
      library_ok dir_hash version st' /\
      forall p, view_root version st' root' p = without_all names (view_root version st (root_id head)) p
  end.
Proof.
  intros Hn Hver Hst Hdir Hall. pose proof (nl_library _ Hn) as Hl. rewrite get_sorted in Hdir by apply Hl.
  unfold batch_del_tree. rewrite Hst, String.eqb_refl.
  assert (Hcv : cs_version (seaf_dir_to_changeset_dir dir) = version) by apply (nl_version _ Hn _ _ Hdir). rewrite Hcv.
  assert (Hroot : forall p, cs_view st (cs_dents (seaf_dir_to_changeset_dir dir)) p = view_root version st (root_id head) p).
  { intros p. rewrite (loaded_view _ _ _ _ Hn Hdir). by rewrite (view_root_dir _ _ _ _ _ Hdir). }
  destruct (batch_view st (o_now o) names (seaf_dir_to_changeset_dir dir) (mkDel 0 None None) Hn (loaded_wf _ _ _ Hn Hdir))
    as (Hwf & Hnum & Hview).
  { eapply Forall_impl; [exact Hall|]. intros name. apply deletable_ext. intros p. left. apply Hroot. }
  unfold do_batch_del_files. destruct (foldl _ _ names) as [root a]. cbn [fst snd deleted_num] in Hwf, Hnum, Hview.
  destruct (Z.eqb_spec (deleted_num a) 0) as [H0|H0].
  - split; [done|]. apply Forall_forall. intros name Hin. destruct (decide (name = EmptyString)) as [|Hne]; [done|].
    assert (Hf : name ∈ filter (fun n => n <> EmptyString) names) by (by apply list_elem_of_filter).
    destruct (filter (fun n => n <> EmptyString) names); [by apply elem_of_nil in Hf|]. cbn [length] in Hnum. lia.
  - destruct (commit_fails (o_dir_write o) root st) as [Hs [[H1 H2]|H1]].
    + destruct (commit_tree_recursive _ _ root st) as [x st']. cbn in H1, Hs. subst x. done.
    + rewrite H1. destruct (commit_ok st root Hl Hwf st ltac:(done) Hl) as (id' & st' & -> & Hs' & Hl' & _ & Hv').
      split; [done|]. split; [done|]. intros p. etransitivity; [exact (Hv' p)|]. rewrite Hview. unfold without_all.
      by rewrite Hroot.
Qed.
End view.

(** ** A virtual library *)

(** The new root is not written to the store the library is read from. *)
Lemma virtual_batch_writes_elsewhere dir_hash own names dir repo head o st r st' :
  r_store_id repo <> r_id repo -> batch_del_tree dir_hash own names dir repo head o st = (r, st') -> st' = st.
Proof.
  intros Hne. unfold batch_del_tree. rewrite (proj2 (String.eqb_neq _ _) Hne).
  destruct (do_batch_del_files _ _ _ _ _) as [root a]. destruct (deleted_num a =? 0); [by intros [= _ <-]|].
  destruct (commit_tree_recursive _ _ _ _) as [x s]. by intros [= _ <-].
Qed.

(** ** Instances *)

Definition batch_sub : list SeafDirent := [toy_dirent 0x81A4 id_1 "g.txt"; toy_dirent 0x81A4 EMPTY_SHA1 "f.txt"].
Definition batch_root : list SeafDirent :=
  [toy_dirent 0x4000 (toy_hash 1 batch_sub) "sub"; toy_dirent 0x81A4 id_2 "b"; toy_dirent 0x81A4 id_1 "a"].
Definition batch_store : fs_store :=
  <[toy_hash 1 batch_root := ODir (mkDir 1 (toy_hash 1 batch_root) batch_root)]>
  (<[toy_hash 1 batch_sub := ODir (mkDir 1 (toy_hash 1 batch_sub) batch_sub)]> ∅).
Definition batch_head : SeafCommit := tree_commit c_1 (toy_hash 1 batch_root) None.
Definition batch_world : World := mkWorld (toy_db c_1) {[c_1 := batch_head]} batch_store [] 0.
Definition batch_repo : SeafRepo := toy_repo batch_world.
Definition batch_dir : SeafDir := mkDir 1 (toy_hash 1 batch_root) batch_root.
Definition batch_result (names : list string) : tree_result * fs_store :=
  batch_del_tree toy_hash ∅ names batch_dir batch_repo batch_head toy_oracle batch_store.

Lemma batch_get id dir :
  seaf_fs_manager_get_seafdir batch_store 1 id = Some dir ->
  dir_version dir = 1 /\ forall e, e ∈ entries dir -> normal_dirent 1 e.
Proof.
  assert (H : forall l, l = batch_root \/ l = batch_sub -> forall e, e ∈ l -> normal_dirent 1 e).
  { intros l [-> | ->] e He; unfold batch_root, batch_sub in He;
      repeat (apply elem_of_cons in He as [->|He]; [vm_compute; reflexivity|]); by apply elem_of_nil in He. }
  unfold seaf_fs_manager_get_seafdir. destruct (String.eqb id EMPTY_SHA1).
  - intros [= <-]. split; [done|]. by intros e ?%elem_of_nil.
  - destruct (batch_store !! id) as [[d|f]|] eqn:E; [|done|done]. intros [= <-]. cbn [dir_version entries].
    unfold batch_store in E. rewrite !lookup_insert_Some, lookup_empty in E.
    destruct E as [[_ [= <-]]|[_ [[_ [= <-]]|[_ [=]]]]]; (split; [done|]); apply H; auto.
Qed.

Lemma batch_normal : normal_library toy_hash 1 batch_store.
Proof.
  split; [|by intros id dir [? _]%batch_get|by intros id dir e [_ ?]%batch_get; auto]. split.
  - split; intros id; unfold batch_store.
    + intros d. rewrite !lookup_insert_Some, lookup_empty. by intros [[<- [= <-]]|[_ [[<- [= <-]]|[_ [=]]]]].
    + intros f l. rewrite !lookup_insert_Some, lookup_empty. by intros [[_ [=]]|[_ [[_ [=]]|[_ [=]]]]].
  - apply (check_store_sound batch_store 1 (fun id => if String.eqb id (toy_hash 1 batch_root) then 1%nat else 0%nat)).
    vm_compute. reflexivity.
Qed.

(** Deleting [sub/f.txt] and [b]. *)
Lemma batch_del_refines_witness :
  match batch_result ["/sub/f.txt"; "b"] with
  | (TreeNew root' desc _, st') =>
      desc = "Deleted " +:+ quoted "f.txt" +:+ " and 1 more files" /\
      view_root 1 st' root' ["sub"; "f.txt"] = None /\ view_root 1 st' root' ["b"] = None /\
      is_Some (view_root 1 st' root' ["sub"; "g.txt"]) /\ is_Some (view_root 1 st' root' ["a"])
  | _ => False
  end.
Proof.
  assert (Hdel : Forall (fun name => deletable (view_root 1 batch_store (root_id batch_head)) (batch_parts name))
    ["/sub/f.txt"; "b"]).
  { apply Forall_cons; split; [|apply Forall_cons; split; [|by apply Forall_nil]]; intros q r d E Hq Hd.
    - change (batch_parts "/sub/f.txt") with ["sub"; "f.txt"] in E.
      destruct q as [|x [|y [|z q]]]; [done| | |discriminate E].
      + injection E as <- <-. vm_compute in Hd. injection Hd as <-. by left.
      + injection E as <- <- <-. vm_compute in Hd. injection Hd as <-. by right.
    - change (batch_parts "b") with ["b"] in E. destruct q as [|x [|y q]]; [done| |discriminate E].
      injection E as <- <-. vm_compute in Hd. injection Hd as <-. by right. }
  pose proof (batch_del_refines toy_hash 1 eq_refl (toy_hash_collision_free 1) ∅ ["/sub/f.txt"; "b"] batch_repo batch_head
    toy_oracle batch_store batch_dir batch_normal ltac:(vm_compute; reflexivity) ltac:(vm_compute; reflexivity)
    ltac:(vm_compute; reflexivity) Hdel) as H.
  fold (batch_result ["/sub/f.txt"; "b"]) in H.
  assert (Hd : match batch_result ["/sub/f.txt"; "b"] with (TreeNew _ desc _, _) => desc | _ => EmptyString end
    = "Deleted " +:+ quoted "f.txt" +:+ " and 1 more files") by (vm_compute; reflexivity).
  destruct (batch_result ["/sub/f.txt"; "b"]) as [[| |root' desc names] st']; [discriminate Hd|discriminate Hd|].
  destruct H as (_ & _ & Hv). split; [exact Hd|]. rewrite !Hv.
  split; [vm_compute; reflexivity|]. split; [vm_compute; reflexivity|]. split; vm_compute; eexists; reflexivity.
Defined.

(** A path through the file [a] deletes the file [b] beside it. *)
Example batch_del_through_file :
  match batch_result ["a/b"] with
  | (TreeNew root' _ _, st') => view_root 1 st' root' ["b"] = None /\ is_Some (view_root 1 st' root' ["a"])
  | _ => False
  end /\ is_Some (view_root 1 batch_store (root_id batch_head) ["b"]).
Proof. vm_compute. eauto. Qed.

(** The root of a virtual library is not readable after a batch deletion. *)
Example batch_del_virtual :
  let repo := mkRepo "v" "origin" None (mkBranch "master" "v" c_1) EmptyString None None None 0 false 0 EmptyString EmptyString
                EmptyString EmptyString None None false true 1 0 in
  match batch_del_tree toy_hash ∅ ["b"] batch_dir repo batch_head toy_oracle batch_store with
  | (TreeNew root' _ _, st') => seaf_fs_manager_get_seafdir st' 1 root' = None
  | _ => False
  end.
Proof. vm_compute. reflexivity. Qed.
