(* ===== verification/RepoPerm.v ===== *)
(** * Permissions of libraries and pages of directories ([server/repo-perm.c],
    [common/cf-dir-page.c], the share tables of [server/share-mgr.c])

    The native permission of a user on a library, the listing of a directory with
    it, and the pages a client reads one after the other. *)

From S2P Require Import Prelude Hex Paths Sql CfPath FsObj FsMgr Walk Merge CommitMgr RepoOp Repo CfV2Acl CfAcl.

(** ** The tables of shares *)

(** [SharedRepo] (library, user, permission) and [RepoGroup] (library, group,
    permission) in the order of their rows, the owners, the public libraries, the
    groups of a user with the groups above them, the administrators. *)
Record Shares := mkShares {
  t_RepoOwner : gmap string string;
  t_SharedRepo : list (string * string * string);
  t_RepoGroup : list (string * Z * string);
  t_InnerPubRepo : gmap string string;
  groups_by_user : string -> list Z;
  is_global_library_admin : string -> bool;
  cloud_mode : bool
}.

Inductive perm_query := PPersonal | PGroup | PInner | PUserDirs | PGroupDirs | POwner | PSubDirs.

Section perm.
Context (db : Db) (sh : Shares) (fails : perm_query -> bool).

Definition seaf_repo_manager_get_repo_owner (repo_id : string) : option string :=
  if fails POwner then None else t_RepoOwner sh !! repo_id.

Definition seaf_repo_manager_get_inner_pub_repo_perm (repo_id : string) : option string :=
  if fails PInner then None else t_InnerPubRepo sh !! repo_id.

(** The first row. *)
Definition seaf_share_manager_check_permission (repo_id email : string) : option string :=
  if fails PPersonal then None
  else snd <$> List.find (fun row => String.eqb row.1.1 repo_id && String.eqb row.1.2 email) (t_SharedRepo sh).

(** [check_repo_share_perm_cb] over the rows, until one is [rw]. *)
Fixpoint check_repo_share_perm_cb (rows : list string) (orig_perm : option string) : option string :=
  match rows with
  | [] => orig_perm
  | perm :: rows =>
      if String.eqb perm "rw" then Some perm
      else if String.eqb perm "r" && match orig_perm with None => true | Some _ => false end
      then check_repo_share_perm_cb rows (Some perm)
      else check_repo_share_perm_cb rows orig_perm
  end.

Definition group_rows (repo_id : string) (groups : list Z) : list string :=
  snd <$> filter (fun row => row.1.1 = repo_id /\ row.1.2 ∈ groups) (t_RepoGroup sh).

(** A query that fails gives no rows. *)
Definition check_group_permission_by_user (repo_id user_name : string) : option string :=
  match groups_by_user sh user_name with
  | [] => None
  | groups => if fails PGroup then None else check_repo_share_perm_cb (group_rows repo_id groups) None
  end.

Definition check_repo_share_permission (repo_id user_name : string) : option string :=
  match seaf_share_manager_check_permission repo_id user_name with
  | Some permission => Some permission
  | None =>
      match check_group_permission_by_user repo_id user_name with
      | Some permission => Some permission
      | None => if negb (cloud_mode sh) then seaf_repo_manager_get_inner_pub_repo_perm repo_id else None
      end
  end.

(** ** Shared directories of a library *)

(** The shared sub-libraries of a library: their paths and permissions. *)
Definition dir_rows {A} (origin : string) (rows : list (string * A * string)) (P : A -> bool) : list (string * string) :=
  omap (fun '(repo, who, perm) =>
          v ← t_VirtualRepo db !! repo;
          if String.eqb (v_origin_repo_id v) origin && P who then Some (v_path v, perm) else None) rows.

Definition seaf_share_manager_get_shared_dirs_to_user (orig_repo_id to_email : string) : option (gmap string string) :=
  if fails PUserDirs then None
  else Some (foldl (fun dirs '(path, perm) => <[path := perm]> dirs) ∅
               (dir_rows orig_repo_id (t_SharedRepo sh) (String.eqb to_email))).

(** A later row replaces [r]. *)
Definition get_shared_dirs_to_group (dirs : gmap string string) (row : string * string) : gmap string string :=
  let '(path, perm) := row in
  match dirs !! path with
  | None => <[path := perm]> dirs
  | Some prev_perm =>
      if negb (String.eqb perm prev_perm) && String.eqb prev_perm "r" then <[path := perm]> dirs else dirs
  end.

Definition seaf_share_manager_get_shared_dirs_to_group (orig_repo_id : string) (groups : list Z) : option (gmap string string) :=
  if fails PGroupDirs then None
  else Some (foldl get_shared_dirs_to_group ∅
               (dir_rows orig_repo_id (t_RepoGroup sh) (fun g => bool_decide (g ∈ groups)))).

(** [None]: there is no slash to cut at.  Every round shortens the path. *)
Fixpoint get_dir_perm_from (fuel : nat) (perms : gmap string string) (tmp : string) : option (option string) :=
  match tmp with
  | EmptyString => Some None
  | _ =>
      match perms !! tmp with
      | Some perm => Some (Some perm)
      | None =>
          match fuel, split_last tmp with
          | S fuel, Some (above, _) => get_dir_perm_from fuel perms above
          | _, _ => None
          end
      end
  end.

Definition get_dir_perm (perms : gmap string string) (path : string) : option (option string) :=
  get_dir_perm_from (String.length path) perms path.

(** The outer [option]: [get_dir_perm] met a path without a slash. *)
Definition check_perm_on_parent_repo (origin_repo_id user vpath : string) : option (option string) :=
  match seaf_share_manager_get_shared_dirs_to_user origin_repo_id user with
  | None => Some None
  | Some user_perms =>
      user_perm ← (if (0 <? size user_perms)%nat then get_dir_perm user_perms vpath else Some None);
      match user_perm with
      | Some perm => Some (Some perm)
      | None =>
          match groups_by_user sh user with
          | [] => Some None
          | groups =>
              match seaf_share_manager_get_shared_dirs_to_group origin_repo_id groups with
              | None => Some None
              | Some group_perms => if (0 <? size group_perms)%nat then get_dir_perm group_perms vpath else Some None
              end
          end
      end
  end.

Definition check_virtual_repo_permission (origin_repo_id user vpath : string) : option (option string) :=
  if bool_decide (seaf_repo_manager_get_repo_owner origin_repo_id = Some user) || is_global_library_admin sh user
  then Some (Some "rw")
  else
    permission ← check_perm_on_parent_repo origin_repo_id user vpath;
    match permission with
    | Some permission => Some (Some permission)
    | None => Some (check_repo_share_permission origin_repo_id user)
    end.

Definition seaf_repo_manager_check_permission (repo_id user : string) : option (option string) :=
  match t_VirtualRepo db !! repo_id with
  | Some vinfo => check_virtual_repo_permission (v_origin_repo_id vinfo) user (v_path vinfo)
  | None =>
      Some match seaf_repo_manager_get_repo_owner repo_id with
           | None => None
           | Some owner =>
               if String.eqb owner user || is_global_library_admin sh user then Some "rw"
               else check_repo_share_permission repo_id user
           end
  end.

(** ** Listing a directory *)

(** [strcasecmp] of the C locale. *)
Definition tolower (c : Ascii.ascii) : Ascii.ascii :=
  let n := Ascii.nat_of_ascii c in
  if ((65 <=? n) && (n <=? 90))%nat then Ascii.ascii_of_nat (n + 32) else c.

Fixpoint lower (s : string) : string :=
  match s with EmptyString => EmptyString | String c s => String (tolower c) (lower s) end.

Definition strcasecmp (a b : string) : Z := strcmp (lower a) (lower b).

(** Directories before files, then by name. *)
Definition comp_dirent_func (a b : SeafDirent) : Z :=
  if S_ISDIR (d_mode a) && S_ISREG (d_mode b) then -1
  else if S_ISREG (d_mode a) && S_ISDIR (d_mode b) then 1
  else strcasecmp (d_name a) (d_name b).

(** [g_list_sort], stable. *)
Fixpoint insert_by (d : SeafDirent) (l : list SeafDirent) : list SeafDirent :=
  match l with
  | [] => [d]
  | d' :: l' => if comp_dirent_func d d' <=? 0 then d :: l else d' :: insert_by d l'
  end.

Definition list_sort (l : list SeafDirent) : list SeafDirent := foldr insert_by [] l.

(** [seaf_share_manager_get_shared_sub_dirs] *)
Definition seaf_share_manager_get_shared_sub_dirs (repo_id path : string) : option (gset string) :=
  if fails PSubDirs then None
  else
    let pattern := if strcmp path "/" =? 0 then path +:+ "%" else path +:+ "/%" in
    let paths {A} (rows : list (string * A * string)) := fst <$> dir_rows repo_id rows (fun _ => true) in
    Some (list_to_set (filter (fun p => sql_like pattern p = true) (paths (t_SharedRepo sh) ++ paths (t_RepoGroup sh)))).

Record CfDirScan := mkScan { scanned_count : Z; scan_exhausted : bool }.

(** The loop over the sorted entries: those of the window with a valid id. *)
Fixpoint page_loop (offset limit index : Z) (entries : list SeafDirent) : list SeafDirent * CfDirScan :=
  match entries with
  | [] => ([], mkScan 0 true)
  | dent :: entries =>
      if index <? offset then page_loop offset limit (index + 1) entries
      else if (0 <? limit) && (limit <=? index - offset) then ([], mkScan 0 false)
      else
        let '(res, scan) := page_loop offset limit (index + 1) entries in
        (if is_object_id_valid (Some (d_id dent)) then dent :: res else res,
         mkScan (scanned_count scan + 1) (scan_exhausted scan))
  end.

Inductive list_error := ListDenied | ListBadRepo | ListBadDir.

Definition child_path (dir_path name : string) : string :=
  if strcmp dir_path "/" =? 0 then dir_path +:+ name else dir_path +:+ "/" +:+ name.

Definition dirent_item (perm : string) (dir_path : string) (shared_sub_dirs : option (gset string)) (d : SeafDirent) : item :=
  mkItem (d_name d) (d_mode d) (Some perm) (d_id d) (d_version d) (d_mtime d) (d_size d) (d_modifier d)
    (match shared_sub_dirs with
     | Some dirs => S_ISDIR (d_mode d) && bool_decide (child_path dir_path (d_name d) ∈ dirs)
     | None => false
     end).

Definition shared_sub_dirs_of (repo : SeafRepo) (repo_id dir_path user : string) : option (gset string) :=
  match r_virtual repo with
  | Some _ => None
  | None =>
      match seaf_repo_manager_get_repo_owner repo_id with
      | Some repo_owner =>
          if String.eqb user repo_owner then seaf_share_manager_get_shared_sub_dirs (r_store_id repo) dir_path else None
      | None => None
      end
  end.

Context (cs : commit_store) (st : fs_store).

Definition seaf_repo_manager_list_dir_with_perm_page (repo_id dir_path dir_id user : string) (offset limit : Z)
  : option (list_error + (list item * CfDirScan)) :=
  perm ← seaf_repo_manager_check_permission repo_id user;
  Some match perm with
       | None => inl ListDenied
       | Some perm =>
           match seaf_repo_manager_get_repo db cs repo_id with
           | None => inl ListBadRepo
           | Some repo =>
               match seaf_fs_manager_get_seafdir st (r_version repo) dir_id with
               | None => inl ListBadDir
               | Some dir =>
                   let '(l, scan) := page_loop (Z.max 0 offset) limit 0 (list_sort (entries dir)) in
                   inr (dirent_item perm dir_path (shared_sub_dirs_of repo repo_id dir_path user) <$> l, scan)
               end
           end
       end.

(** ** Pages ([cf_list_dir_page_json]) *)

Record page_request := mkPage {
  pg_repo_id : string; pg_path : string; pg_user : string; pg_expected : string; pg_start : Z; pg_limit : Z
}.

Definition G_MAXINT : Z := 2 ^ 31 - 1.

(** [uuid_parse] of libuuid succeeds. *)
Context (is_uuid_valid : string -> bool).

Definition json_integer_of (v : option json) : option Z := match v with Some (JInt z) => Some z | _ => None end.

Definition parse_page (request : option json) : option page_request :=
  repo_id ← json_string_value (json_object_get request "repo_id");
  raw_path ← json_string_value (json_object_get request "path");
  user ← json_string_value (json_object_get request "user");
  expected ← json_string_value (json_object_get request "dir_revision");
  start ← json_integer_of (json_object_get request "start");
  limit ← json_integer_of (json_object_get request "limit");
  if negb (is_uuid_valid repo_id) || negb (match raw_path with String c _ => is_slash c | EmptyString => false end)
     || (4096 <? Z.of_nat (String.length raw_path)) || String.eqb user EmptyString
     || negb (is_object_id_valid (Some expected)) || (limit <? 1) || (500 <? limit) || (start <? 0)
     || (G_MAXINT - limit <? start)
  then None
  else Some (mkPage repo_id raw_path user expected start limit).

Definition seafile_get_dir_id_by_path (repo_id path : string) : option string :=
  if negb (is_uuid_valid repo_id) then None
  else
    repo ← seaf_repo_manager_get_repo db cs repo_id;
    commit ← seaf_commit_manager_get_commit cs (b_commit_id (r_head repo));
    match seaf_fs_manager_path_to_obj_id st (r_version repo) (root_id commit) (format_dir_path path) with
    | inr (Some (id, mode)) => if S_ISDIR mode then Some id else None
    | _ => None
    end.

Inductive page_error := PageInvalid | PageDenied | PageNoFolder | PageList (e : list_error).

(** The folder changed, or a page: the revision, what was scanned, the entries shown
    and where to go on. *)
Inductive page_reply :=
| PageChanged
| Page (revision : string) (scan : CfDirScan) (items : list item) (next : option Z).

Context (perm_providers : list (option CfPermFunc)) (filters : list (option CfDirentFilterFunc)).

Definition cf_list_dir_page_json (request : option json) : option (page_error + page_reply) :=
  match parse_page request with
  | None => Some (inl PageInvalid)
  | Some r =>
      let path := format_dir_path (pg_path r) in
      native_perm ← seaf_repo_manager_check_permission (pg_repo_id r) (pg_user r);
      match native_perm with
      | None => Some (inl PageDenied)
      | Some native_perm =>
          match (cf_ext_check_permission perm_providers (pg_repo_id r) path (Some (pg_user r)) (Some native_perm)).1 with
          | None => Some (inl PageDenied)
          | Some _ =>
              match seafile_get_dir_id_by_path (pg_repo_id r) path with
              | None => Some (inl PageNoFolder)
              | Some revision =>
                  if negb (strcmp revision (pg_expected r) =? 0) then Some (inr PageChanged)
                  else
                    listed ← seaf_repo_manager_list_dir_with_perm_page (pg_repo_id r) path revision (pg_user r)
                               (pg_start r) (pg_limit r);
                    Some match listed with
                         | inl e => inl (PageList e)
                         | inr (entries, scan) =>
                             inr (Page revision scan (cf_ext_filter_dirents filters (pg_repo_id r) path (pg_user r) entries)
                                    (if scan_exhausted scan then None else Some (pg_start r + scanned_count scan)))
                         end
              end
          end
      end
  end.
End perm.

(** ** The nearest shared directory *)

Lemma split_last_app a b : has_slash b = false -> split_last (a +:+ String slash b) = Some (a, b).
Proof.
  intros Hb. induction a as [|c a IH].
  - change (split_last (String slash b) = Some (EmptyString, b)). cbn [split_last].
    pose proof (split_last_spec b) as H. destruct (split_last b) as [[x y]|]; [|done]. exfalso. destruct H as [-> _].
    clear -Hb. induction x as [|c x IH]; [done|]. apply IH. by apply orb_false_iff in Hb as [_ Hb].
  - change (split_last (String c (a +:+ String slash b)) = Some (String c a, b)). cbn [split_last]. by rewrite IH.
Qed.

(** The permissions on the directories at and above a path, the nearest first. *)
Fixpoint perms_above (perms : gmap string string) (rev_path : list string) : list string :=
  match rev_path with
  | [] => []
  | _ :: above => option_list (perms !! spell (reverse rev_path)) ++ perms_above perms above
  end.

Lemma get_dir_perm_nearest perms rl : forall fuel,
  Forall is_component rl -> (length rl <= fuel)%nat ->
  get_dir_perm_from fuel perms (spell (reverse rl)) = Some (head (perms_above perms rl)).
Proof.
  induction rl as [|c rl IH]; intros fuel Hc Hf; [by destruct fuel|]. apply Forall_cons in Hc as [[_ Hc] Hrl].
  rewrite reverse_cons, spell_app. change (spell [c]) with (String slash c +:+ EmptyString). rewrite string_nil_r.
  assert (Hne : exists x s, spell (reverse rl) +:+ String slash c = String x s).
  { destruct (spell (reverse rl)) as [|x s]; [by exists slash, c|by eexists x, _]. }
  destruct fuel as [|fuel]; [cbn in Hf; lia|]. destruct Hne as (x & s & Ex). cbn [get_dir_perm_from]. rewrite Ex, <- Ex.
  cbn [perms_above]. rewrite reverse_cons, spell_app. change (spell [c]) with (String slash c +:+ EmptyString). rewrite string_nil_r.
  destruct (perms !! _) as [perm|]; [done|]. cbn [option_list app]. rewrite split_last_app by done.
  apply IH; [done|]. cbn in Hf. lia.
Qed.

Lemma perms_above_empty rl : perms_above ∅ rl = [].
Proof. induction rl as [|c rl IH]; [done|]. cbn [perms_above]. by rewrite lookup_empty. Qed.

Lemma get_dir_perm_spell perms rl :
  Forall is_component rl ->
  (if (0 <? size perms)%nat then get_dir_perm perms (spell (reverse rl)) else Some None) = Some (head (perms_above perms rl)).
Proof.
  intros Hc. destruct (Nat.ltb_spec 0 (size perms)) as [|H0].
  - apply get_dir_perm_nearest; [done|]. clear -Hc. rewrite <- (length_reverse rl).
    assert (Hc' : Forall is_component (reverse rl)) by (by rewrite Forall_reverse). revert Hc'. clear Hc.
    generalize (reverse rl) as l. induction l as [|c l IH]; [done|]. intros [_ Hl]%Forall_cons.
    change (spell (c :: l)) with (String slash (c +:+ spell l)). cbn [length String.length].
    rewrite string_length_app. specialize (IH Hl). lia.
  - assert (perms = ∅) as -> by (apply map_size_empty_iff; lia). by rewrite perms_above_empty.
Qed.

(** A group share gives the best of the permissions of the groups. *)
Lemma share_perm_best rows orig :
  check_repo_share_perm_cb rows orig =
    if bool_decide ("rw" ∈ rows) then Some "rw"
    else match orig with Some p => Some p | None => if bool_decide ("r" ∈ rows) then Some "r" else None end.
Proof.
  revert orig. induction rows as [|p rows IH]; intros orig; [by destruct orig|]. cbn [check_repo_share_perm_cb].
  destruct (String.eqb_spec p "rw") as [->|Hrw]; [by rewrite bool_decide_eq_true_2 by (by left)|].
  rewrite (bool_decide_ext ("rw" ∈ p :: rows) ("rw" ∈ rows)) by (rewrite elem_of_cons; naive_solver).
  destruct (String.eqb_spec p "r") as [->|Hr]; cbn [andb].
  - destruct orig as [q|]; rewrite IH; [done|]. by rewrite (bool_decide_eq_true_2 ("r" ∈ "r" :: rows)) by (by left).
  - rewrite IH, (bool_decide_ext ("r" ∈ p :: rows) ("r" ∈ rows)) by (rewrite elem_of_cons; naive_solver). done.
Qed.

(** The permission on a sub-library, of a user who neither owns the origin nor is an
    administrator, when no query fails: the share of the nearest directory at or above
    it that is shared with the user, else of the nearest one shared with a group of the
    user, else the share of the origin as a whole. *)
Theorem virtual_permission_nearest db sh fails repo_id user v rl :
  (forall q, fails q = false) -> t_VirtualRepo db !! repo_id = Some v ->
  v_path v = spell (reverse rl) -> Forall is_component rl ->
  t_RepoOwner sh !! v_origin_repo_id v <> Some user -> is_global_library_admin sh user = false ->
  let origin := v_origin_repo_id v in
  seaf_repo_manager_check_permission db sh fails repo_id user =
    Some (match head (perms_above (foldl (fun dirs '(path, perm) => <[path := perm]> dirs) ∅
                        (dir_rows db origin (t_SharedRepo sh) (String.eqb user))) rl) with
          | Some perm => Some perm
          | None =>
              match head (perms_above (foldl get_shared_dirs_to_group ∅
                        (dir_rows db origin (t_RepoGroup sh) (fun g => bool_decide (g ∈ groups_by_user sh user)))) rl) with
              | Some perm => Some perm
              | None => check_repo_share_permission sh fails origin user
              end
          end).
Proof.
  intros Hq Hv Hp Hc Ho Ha origin. unfold seaf_repo_manager_check_permission. rewrite Hv.
  unfold check_virtual_repo_permission, seaf_repo_manager_get_repo_owner. rewrite Hq, Ha, bool_decide_eq_false_2 by done.
  cbn [orb]. unfold check_perm_on_parent_repo, seaf_share_manager_get_shared_dirs_to_user. rewrite Hq, Hp. fold origin.
  rewrite get_dir_perm_spell by done. cbn [mbind option_bind].
  destruct (head (perms_above _ rl)) as [perm|] eqn:Eu; [done|].
  unfold seaf_share_manager_get_shared_dirs_to_group. rewrite Hq.
  destruct (groups_by_user sh user) as [|g gs] eqn:Eg.
  - cbn [mbind option_bind].
    assert (Hnone : dir_rows db origin (t_RepoGroup sh) (fun g => bool_decide (g ∈ [])) = []).
    { unfold dir_rows. induction (t_RepoGroup sh) as [|[[r w] p] rows IH]; [done|]. cbn [omap list_omap].
      rewrite IH. destruct (t_VirtualRepo db !! r) as [x|]; [|done]. cbn [mbind option_bind].
      rewrite bool_decide_eq_false_2 by apply not_elem_of_nil. by rewrite andb_false_r. }
    rewrite Hnone. cbn [foldl]. by rewrite perms_above_empty.
  - rewrite get_dir_perm_spell by done. cbn [mbind option_bind]. clear Eu. by destruct (head _).
Qed.

(** ** Pages *)

Definition valid_entry (d : SeafDirent) : Prop := is_object_id_valid (Some (d_id d)) = true.

Lemma insert_by_perm d l : insert_by d l ≡ₚ d :: l.
Proof.
  induction l as [|d' l IH]; [done|]. cbn [insert_by]. destruct (_ <=? 0); [done|]. rewrite IH. constructor.
Qed.

Lemma list_sort_perm l : list_sort l ≡ₚ l.
Proof. induction l as [|d l IH]; [done|]. cbn [list_sort foldr]. by rewrite insert_by_perm, IH. Qed.

Lemma page_window offset limit l : forall index r,
  0 < limit -> offset <= index -> Z.of_nat r = limit - (index - offset) ->
  page_loop offset limit index l =
    (filter valid_entry (take r l), mkScan (Z.of_nat (length (take r l))) (length l <=? r)%nat).
Proof.
  induction l as [|d l IH]; intros index r Hlim Hi Hr; [by destruct r|]. cbn [page_loop].
  destruct (Z.ltb_spec index offset); [lia|]. destruct (Z.ltb_spec 0 limit); [|lia]. cbn [andb].
  destruct r as [|r].
  - destruct (Z.leb_spec limit (index - offset)); [done|lia].
  - destruct (Z.leb_spec limit (index - offset)); [lia|]. rewrite (IH (index + 1) r) by lia.
    cbn [take length scanned_count scan_exhausted]. f_equal.
    + rewrite filter_cons. case_decide as Hd; unfold valid_entry in Hd; [by rewrite Hd|].
      by destruct (is_object_id_valid (Some (d_id d))).
    + f_equal. lia.
Qed.

Lemma page_loop_spec offset limit l : forall index,
  0 < limit -> index <= offset ->
  let w := take (Z.to_nat limit) (drop (Z.to_nat (offset - index)) l) in
  page_loop offset limit index l =
    (filter valid_entry w, mkScan (Z.of_nat (length w)) (length l <=? Z.to_nat (offset - index + limit))%nat).
Proof.
  induction l as [|d l IH]; intros index Hlim Hi; cbv zeta.
  - rewrite drop_nil, take_nil. done.
  - destruct (decide (index = offset)) as [->|Hne].
    + replace (offset - offset) with 0 by lia. cbn [drop Z.to_nat]. apply page_window; lia.
    + cbn [page_loop]. destruct (Z.ltb_spec index offset); [|lia]. rewrite (IH (index + 1)) by lia.
      replace (Z.to_nat (offset - index)) with (S (Z.to_nat (offset - (index + 1)))) by lia. cbn [drop length].
      f_equal. f_equal. replace (Z.to_nat (offset - index + limit)) with (S (Z.to_nat (offset - (index + 1) + limit))) by lia.
      done.
Qed.

Definition named_ok (i : item) : Prop := entry_name_ok (it_name i) = true.

(** A filter that looks at one entry at a time, on entries with proper names, which
    it keeps. *)
Class PerEntry (repo_id dir user : string) (f : CfDirentFilterFunc) : Prop :=
  per_entry : exists h, (forall l, Forall named_ok l -> f repo_id dir user l = omap h l) /\
    forall i j, h i = Some j -> it_name j = it_name i.

Definition filters_ok (repo_id dir user : string) (filters : list (option CfDirentFilterFunc)) : Prop :=
  Forall (fun f => match f with Some f => PerEntry repo_id dir user f | None => True end) filters.

(** The filter that asks the Hub is one, when the Hub answers. *)
Lemma acl_filter_per_entry hub dbt db fails repo dir user perm_of :
  cf_v2_acl_unscoped dbt db fails repo = -2 -> user <> EmptyString -> answers_for hub repo user perm_of ->
  PerEntry repo dir user (fun repo dir user => cf_acl_filter_dirents hub dbt db fails repo (Some dir) (Some user)).
Proof.
  intros H1 H2 H3. exists (shown perm_of dir). split; [intros l Hl; by apply filter_dirents_omap|].
  intros i j. unfold shown. destruct (_ || _); [|done]. destruct (perm_of _); by intros [= <-].
Qed.

Lemma filter_dirents_per_entry filters repo_id dir user :
  filters_ok repo_id dir user filters ->
  exists h, forall l, Forall named_ok l -> cf_ext_filter_dirents filters repo_id dir user l = omap h l.
Proof.
  unfold cf_ext_filter_dirents.
  enough (H : filters_ok repo_id dir user filters ->
    forall g, (forall i j, g i = Some j -> it_name j = it_name i) -> exists h, forall l : list item, Forall named_ok l ->
      foldl (fun dirents f => match f with
      | Some f => f repo_id dir user dirents | None => dirents end) (omap g l) filters = omap h l).
  { intros Hf. destruct (H Hf Some) as [h Hh]; [by intros i j [= ->]|]. exists h. intros l Hl. rewrite <- Hh by done. f_equal.
    clear. induction l as [|x l IH]; [done|]. cbn. by f_equal. }
  induction filters as [|f filters IH]; intros Hf g Hg; [by exists g|]. apply Forall_cons in Hf as [Hf Hfs]. cbn [foldl].
  destruct f as [f|]; [|by apply IH]. destruct Hf as (h & Hh & Hname).
  destruct (IH Hfs (fun x => y ← g x; h y)) as [k Hk].
  { intros i j (y & Hy & Hj)%bind_Some. by rewrite (Hname _ _ Hj), (Hg _ _ Hy). }
  exists k. intros l Hl. rewrite <- Hk by done. rewrite Hh.
  - f_equal. clear. induction l as [|x l IH]; [done|]. cbn. destruct (g x) as [y|]; cbn; [|done].
    destruct (h y); by rewrite IH.
  - apply Forall_forall. intros j (i & Hi & Hij)%list_elem_of_omap. unfold named_ok. rewrite (Hg _ _ Hij).
    rewrite Forall_forall in Hl. by apply Hl.
Qed.

Lemma in_take {A} k (l : list A) x : x ∈ take k l -> x ∈ l.
Proof. intros H. rewrite <- (take_drop k l). apply elem_of_app. by left. Qed.

Lemma in_drop {A} k (l : list A) x : x ∈ drop k l -> x ∈ l.
Proof. intros H. rewrite <- (take_drop k l). apply elem_of_app. by right. Qed.

Section pages.
Context (db : Db) (sh : Shares) (fails : perm_query -> bool) (cs : commit_store) (st : fs_store).
Context (is_uuid_valid : string -> bool).
Context (perm_providers : list (option CfPermFunc)) (filters : list (option CfDirentFilterFunc)).
Context (repo_id path user revision : string) (limit : Z).
Abbreviation list_page := (cf_list_dir_page_json db sh fails cs st is_uuid_valid perm_providers filters).

Definition page_json (start : Z) : option json :=
  Some (JObject [("repo_id", JString repo_id); ("path", JString path); ("user", JString user);
                 ("dir_revision", JString revision); ("start", JInt start); ("limit", JInt limit)]).

(** A client reads page after page, from where the last one says to go on. *)
Fixpoint read_pages (fuel : nat) (start : Z) : option (list item) :=
  match fuel with
  | O => None
  | S fuel =>
      match list_page (page_json start) with
      | Some (inr (Page _ _ items None)) => Some items
      | Some (inr (Page _ _ items (Some next))) => app items <$> read_pages fuel next
      | _ => None
      end
  end.

(** The request is well formed, the user may read the directory, and it is the one
    that was asked for. *)
Record readable_dir (repo : SeafRepo) (perm : string) (dir : SeafDir) : Prop := {
  rd_repo_id : is_uuid_valid repo_id = true;
  rd_path : exists s, path = String slash s /\ Z.of_nat (String.length path) <= 4096;
  rd_user : user <> EmptyString;
  rd_revision : is_object_id_valid (Some revision) = true;
  rd_limit : 1 <= limit <= 500;
  rd_native : seaf_repo_manager_check_permission db sh fails repo_id user = Some (Some perm);
  rd_perm : is_Some (cf_ext_check_permission perm_providers repo_id (format_dir_path path) (Some user) (Some perm)).1;
  rd_current : seafile_get_dir_id_by_path db cs st is_uuid_valid repo_id (format_dir_path path) = Some revision;
  rd_repo : seaf_repo_manager_get_repo db cs repo_id = Some repo;
  rd_dir : seaf_fs_manager_get_seafdir st (r_version repo) revision = Some dir;
  rd_small : Z.of_nat (length (entries dir)) <= G_MAXINT - limit;
  rd_names : Forall (fun d => entry_name_ok (d_name d) = true) (entries dir)
}.

Definition items_of (repo : SeafRepo) (perm : string) (l : list SeafDirent) : list item :=
  dirent_item perm (format_dir_path path) (shared_sub_dirs_of db sh fails repo repo_id (format_dir_path path) user)
    <$> filter valid_entry l.

Lemma one_page repo perm dir start :
  readable_dir repo perm dir -> 0 <= start <= Z.of_nat (length (entries dir)) ->
  let l := list_sort (entries dir) in
  let w := take (Z.to_nat limit) (drop (Z.to_nat start) l) in
  let exhausted := (length l <=? Z.to_nat (start + limit))%nat in
  list_page (page_json start) = Some (inr (Page revision (mkScan (Z.of_nat (length w)) exhausted)
    (cf_ext_filter_dirents filters repo_id (format_dir_path path) user (items_of repo perm w))
    (if exhausted then None else Some (start + Z.of_nat (length w))))).
Proof.
  intros [Hid (s & Hp & Hlen) Hu Hrev Hlim Hnat [p' Hperm] Hcur Hrepo Hdir Hsmall _] Hs l w exhausted.
  assert (Hparse : parse_page is_uuid_valid (page_json start) = Some (mkPage repo_id path user revision start limit)).
  { unfold parse_page, page_json.
    change (json_object_get _ "repo_id") with (Some (JString repo_id)). change (json_object_get _ "path") with (Some (JString path)).
    change (json_object_get _ "user") with (Some (JString user)).
    change (json_object_get _ "dir_revision") with (Some (JString revision)).
    change (json_object_get _ "start") with (Some (JInt start)). change (json_object_get _ "limit") with (Some (JInt limit)).
    cbn [json_string_value json_integer_of mbind option_bind]. rewrite Hid, Hrev, (proj2 (String.eqb_neq _ _) Hu).
    replace (match path with String c _ => is_slash c | EmptyString => false end) with true by (by rewrite Hp).
    cbn [negb orb]. destruct (Z.ltb_spec 4096 (Z.of_nat (String.length path))); [lia|].
    destruct (Z.ltb_spec limit 1); [lia|]. destruct (Z.ltb_spec 500 limit); [lia|]. destruct (Z.ltb_spec start 0); [lia|].
    destruct (Z.ltb_spec (G_MAXINT - limit) start); [lia|]. done. }
  unfold cf_list_dir_page_json. rewrite Hparse. cbn [pg_repo_id pg_path pg_user pg_expected pg_start pg_limit].
  rewrite Hnat. cbn [mbind option_bind]. rewrite Hperm, Hcur. rewrite (proj2 (Z.eqb_eq _ _) (proj2 (strcmp_eq _ _) eq_refl)).
  cbn [negb]. unfold seaf_repo_manager_list_dir_with_perm_page. rewrite Hnat. cbn [mbind option_bind]. rewrite Hrepo, Hdir.
  replace (Z.max 0 start) with start by lia. rewrite (page_loop_spec start limit _ 0) by lia.
  replace (start - 0) with start by lia. done.
Qed.

(** C26: reading a directory page by page gives the whole directory: as long as it
    does not change, a client that follows the positions of the replies comes to the
    end after at most one page more than the entries fill, and the entries it was
    shown are, in order and without repetition, those of one filtered listing of the
    whole directory, although each page is filtered on its own and entries with
    malformed ids are skipped. *)
Theorem pages_cover_directory repo perm dir :
  readable_dir repo perm dir ->
  filters_ok repo_id (format_dir_path path) user filters ->
  read_pages (S (length (entries dir) / Z.to_nat limit)) 0 =
    Some (cf_ext_filter_dirents filters repo_id (format_dir_path path) user (items_of repo perm (list_sort (entries dir)))) /\
  list_sort (entries dir) ≡ₚ entries dir.
Proof.
  intros Hrd Hf. split; [|apply list_sort_perm]. pose proof (rd_limit _ _ _ Hrd) as Hlim.
  destruct (filter_dirents_per_entry filters repo_id (format_dir_path path) user Hf) as [h Hh].
  assert (Hnamed : forall l', (forall d, d ∈ l' -> d ∈ list_sort (entries dir)) -> Forall named_ok (items_of repo perm l')).
  { intros l' Hl'. apply Forall_forall. intros i (d & -> & [_ Hd]%list_elem_of_filter)%list_elem_of_fmap.
    pose proof (rd_names _ _ _ Hrd) as Hn. rewrite Forall_forall in Hn. apply Hn. rewrite <- list_sort_perm. by apply Hl'. }
  set (n := length (entries dir)). set (k := Z.to_nat limit).
  assert (Hlen : length (list_sort (entries dir)) = n) by (by rewrite list_sort_perm).
  enough (H : forall fuel start, (start <= n)%nat -> (n < start + fuel * k)%nat \/ (start = n /\ 0 < fuel)%nat ->
    read_pages fuel (Z.of_nat start) =
      Some (cf_ext_filter_dirents filters repo_id (format_dir_path path) user
              (items_of repo perm (drop start (list_sort (entries dir)))))).
  { apply (H _ 0%nat); [lia|]. left. pose proof (Nat.mod_upper_bound n k ltac:(lia)). pose proof (Nat.div_mod_eq n k).
    cbn [Nat.mul]. nia. }
  induction fuel as [|fuel IH]; intros start Hs Hfuel; [lia|]. cbn [read_pages].
  rewrite (one_page repo perm dir (Z.of_nat start) Hrd ltac:(lia)). rewrite Hlen, Nat2Z.id.
  replace (Z.to_nat (Z.of_nat start + limit)) with (start + k)%nat by lia. fold k.
  destruct (Nat.leb_spec n (start + k)) as [Hend|Hmore].
  - rewrite take_ge by (rewrite length_drop; lia). done.
  - assert (Hw : length (take k (drop start (list_sort (entries dir)))) = k) by (rewrite length_take, length_drop; lia).
    rewrite Hw. rewrite <- Nat2Z.inj_add. rewrite (IH (start + k)%nat) by lia. cbn [fmap option_fmap option_map]. f_equal.
    rewrite !Hh.
    2-4: apply Hnamed; intros d Hd; eauto using in_take, in_drop.
    rewrite <- omap_app. unfold items_of. rewrite <- fmap_app, <- filter_app, <- drop_drop, take_drop. done.
Qed.
End pages.

(** ** Instances *)

(** A library with an access rule; its root has four entries, one with a malformed
    id and one the Hub hides. *)
Definition page_entries : list SeafDirent :=
  [toy_dirent 0x4000 id_2 "public"; toy_dirent 0x4000 id_3 "private"; toy_dirent 0x8000 "bad" "old"; toy_dirent 0x8000 id_2 "A"].
Definition page_dir : SeafDir := mkDir 1 id_1 page_entries.
Definition page_store : fs_store := {[ id_1 := ODir page_dir ]}.
Definition page_commit : SeafCommit :=
  mkCommit c_1 ext_repo id_1 "d" (Some "me") EMPTY_SHA1 5 None None (Some "lib") None None None None false 0
    None None None None None None false 1 false false false.
Definition page_db : Db :=
  mkDb {[ext_repo]} {[("master", ext_repo) := c_1]} ∅ ∅ ∅ {[ ext_repo := [mkAclRow "/private" []] ]} None.
Definition page_shares : Shares :=
  mkShares {[ext_repo := "owner"]} [] [(ext_repo, 4, "r"); (ext_repo, 7, "rw")] ∅ (fun _ => [7; 4]) (fun _ => false) false.
Definition page_filter : CfDirentFilterFunc :=
  fun repo dir user => cf_acl_filter_dirents ext_hub SEAF_DB_TYPE_MYSQL page_db (fun _ => false) repo (Some dir) (Some user).
Definition page_repo : SeafRepo :=
  default (mkRepo EmptyString EmptyString None (mkBranch EmptyString EmptyString EmptyString) EmptyString None None None
    0 false 0 EmptyString EmptyString EmptyString EmptyString None None false false 0 0)
    (seaf_repo_manager_get_repo page_db {[c_1 := page_commit]} ext_repo).

Lemma page_readable :
  readable_dir page_db page_shares (fun _ => false) {[c_1 := page_commit]} page_store (fun _ => true) []
    ext_repo "/" "u" id_1 2 page_repo "rw" page_dir.
Proof.
  split; try (vm_compute; reflexivity).
  - exists EmptyString. split; [reflexivity|]. vm_compute. discriminate.
  - discriminate.
  - lia.
  - vm_compute. eauto.
  - vm_compute. discriminate.
  - repeat constructor.
Qed.

Lemma pages_cover_directory_witness :
  read_pages page_db page_shares (fun _ => false) {[c_1 := page_commit]} page_store (fun _ => true) [] [None; Some page_filter]
    ext_repo "/" "u" id_1 2 3 0 =
  Some [mkItem "public" 0x4000 (Some "rw") id_2 1 0 0 None false; mkItem "A" 0x8000 (Some "rw") id_2 1 0 0 None false].
Proof.
  destruct (pages_cover_directory page_db page_shares (fun _ => false) {[c_1 := page_commit]} page_store (fun _ => true) []
    [None; Some page_filter] ext_repo "/" "u" id_1 2 page_repo "rw" page_dir page_readable) as [H _].
  - repeat constructor. apply (acl_filter_per_entry _ _ _ _ _ _ _ ext_perm); [vm_compute; reflexivity|discriminate|apply ext_answers].
  - etransitivity; [exact H|]. vm_compute. reflexivity.
Defined.

(** A sub-library at [/a/b] of a library whose directory [/a] is shared with a group
    of the user, for reading and for writing. *)
Definition sub_db : Db :=
  mkDb ∅ ∅ {[ "v" := mkVirt ext_repo "/a/b" c_1; "s" := mkVirt ext_repo "/a" c_1 ]} ∅ ∅ ∅ None.
Definition sub_shares : Shares :=
  mkShares {[ext_repo := "owner"]} [("s", "other", "rw")] [("s", 4, "r"); ("s", 7, "rw")] ∅ (fun _ => [7; 4]) (fun _ => false) false.

Lemma virtual_permission_nearest_witness :
  seaf_repo_manager_check_permission sub_db sub_shares (fun _ => false) "v" "u" = Some (Some "rw").
Proof.
  etransitivity.
  - apply (virtual_permission_nearest sub_db sub_shares (fun _ => false) "v" "u" (mkVirt ext_repo "/a/b" c_1) ["b"; "a"]).
    + intros q. reflexivity.
    + vm_compute. reflexivity.
    + vm_compute. reflexivity.
    + repeat constructor; discriminate.
    + vm_compute. discriminate.
    + reflexivity.
  - vm_compute. reflexivity.
Defined.
