(* ===== verification/PutFile.v ===== *)
(** * Replacing files and directories, directories with their parents ([server/repo-op.c])

    [put_file_with_condition] replaces a file; with [strict_head] only while the head
    is the one the caller names.  [seaf_repo_manager_update_dir] replaces a directory
    or the root, [seaf_repo_manager_mkdir_with_parents] creates the missing
    directories of a path in one commit.  After the checks they run as [op_step]. *)

From S2P Require Import Prelude Hex Paths Sql CfPath FsObj FsMgr Walk Diff Merge CommitMgr RepoOp Repo CfV2Acl Publish CfFileop Handlers.

#[local] Arguments string_take : simpl never.

Definition REPO_STATUS_NORMAL : Z := 0.

Section handlers.
Context (sha1 : list Z -> list Z) (sha256 : list Z -> string).
Context (dir_hash : Z -> list SeafDirent -> string).
Context (fuel : nat) (se : Session) (g_utf8_validate : string -> bool).
Context {S : Type} (providers : list (Provider S)).
Context (passwd_set : string -> option string -> bool).
Context (index_blocks : World -> string -> option (string * Z) * World).

Definition set_expected (f : CfFileOp) (head_id : option string) : CfFileOp :=
  mkFop (fo_phase f) (fo_op f) (fo_repo_id f) (fo_dir f) (fo_name f) (fo_names f) (fo_src_repo_id f) (fo_src_dir f)
    (fo_src_name f) (fo_src_names f) (fo_user f) head_id (fo_commit_id f) (fo_file_id f).

(** ** Replacing a file *)

Definition put_tree (canon_path desc : string) (dent : SeafDirent)
    (repo : SeafRepo) (head : SeafCommit) (o : Oracle) (st : fs_store) : tree_result * fs_store :=
  of_rewritten (fun _ => desc) (fun _ => [])
    (do_put_file dir_hash (o_dir_write o) (r_version repo) (o_now o) (root_id head) canon_path dent st).

(** The request is refused; the file has the new contents already; so it has, and the
    head is still to be compared ([strict_head]); or the tree is to be changed. *)
Inductive put_started :=
| PutRefused (w : World) (s : S)
| PutSame (file_id : string) (w : World) (s : S)
| PutCheck (file_id : string) (a : gnc_args) (repo : SeafRepo) (head : SeafCommit) (fop : CfFileOp) (w : World) (s : S)
| PutRunning (op : OnlineOp) (repo : SeafRepo) (head : SeafCommit) (w : World) (s : S).

(** [is_object_id_valid] of the caller's head. *)
Definition put_file_with_condition (o : Oracle) (temp_readable : bool)
    (repo_id temp_file_path parent_dir file_name : string) (user head_id : option string) (mtime : Z)
    (strict_head : bool) (w : World) (s : S) : put_started :=
  if strict_head && negb (is_object_id_valid head_id) then PutRefused w s
  else if negb temp_readable then PutRefused w s
  else match seaf_repo_manager_get_repo (w_db w) (w_commits w) repo_id with
  | None => PutRefused w s
  | Some repo =>
  match seaf_commit_manager_get_commit (w_commits w) (default (b_commit_id (r_head repo)) head_id) with
  | None => PutRefused w s
  | Some head =>
      if strict_head && (negb (is_none (r_virtual repo)) || negb (r_status repo =? REPO_STATUS_NORMAL))
      then PutRefused w s
      else if strict_head && negb (strcmp (text head_id) (b_commit_id (r_head repo)) =? 0) then PutRefused w s
      else
        let canon_path := get_canonical_path parent_dir in
        if should_ignore_file g_utf8_validate file_name || has_double_slash parent_dir
           || is_none (check_file_exists (r_version repo) (w_fs w) (root_id head) canon_path file_name)
        then PutRefused w s
        else
          let fop file_id := base_fop "update-file" repo_id canon_path (Some file_name) [] user file_id in
          let '(prepared, _, s) := cf_fileop_prepare providers (set_expected (fop None) head_id) s in
          if prepared <? 0 then PutRefused w s
          else if negb (crypt_ok passwd_set repo repo_id user) then PutRefused w (cf_fileop_aborted providers (fop None) s)
          else
            let gc_id := seaf_repo_get_current_gc_id (se_db_type se) (w_db w) repo in
            match index_blocks w temp_file_path with
            | (None, w) => PutRefused w (cf_fileop_aborted providers (fop None) s)
            | (Some (hex, size), w) =>
                let dent := seaf_dirent_new (dir_version_from_repo_version (r_version repo)) hex STD_FILE_MODE
                              file_name (if mtime <=? 0 then o_now o else mtime) user size in
                let same :=
                  match seaf_fs_manager_path_to_obj_id (w_fs w) (r_version repo) (root_id head)
                          (g_build_filename parent_dir file_name) with
                  | inr (Some (old_file_id, _)) => strcmp old_file_id (d_id dent) =? 0
                  | _ => false
                  end in
                if same then
                  if strict_head then
                    PutCheck (d_id dent)
                      (mkArgs repo_id head (root_id head) user EmptyString false true gc_id) repo head (fop None) w s
                  else PutSame (d_id dent) (emit w (EvUpdateRepoSize repo_id)) (cf_fileop_aborted providers (fop None) s)
                else
                  PutRunning (mkOp repo_id user (negb strict_head) false true [repo_id] true gc_id
                                (put_tree canon_path (snprintf_path ("Modified " +:+ quoted file_name)) dent)
                                (fun _ => set_expected (fop (Some hex)) head_id) (fop None)) repo head w s
            end
  end
  end.

Definition seaf_repo_manager_put_file (o : Oracle) (temp_readable : bool) (repo_id temp_file_path parent_dir file_name : string)
    (user head_id : option string) (mtime : Z) : World -> S -> put_started :=
  put_file_with_condition o temp_readable repo_id temp_file_path parent_dir file_name user head_id mtime false.

Definition seaf_repo_manager_put_file_if_head (o : Oracle) (temp_readable : bool)
    (repo_id temp_file_path parent_dir file_name : string) (user head_id : option string) (mtime : Z)
  : World -> S -> put_started :=
  put_file_with_condition o temp_readable repo_id temp_file_path parent_dir file_name user head_id mtime true.

(** The comparison of a replacement that changes nothing: the branch is set to the
    commit it is expected to have.  Its two transactions, and what the caller is told. *)
Inductive check_pc :=
| CheckA
| CheckB (acl_before : string) (guard_changes : CfV2EditPrepared)
| CheckDone (r : commit_error + string).

Definition check_step (o : Oracle) (file_id : string) (a : gnc_args) (repo : SeafRepo) (head : SeafCommit) (fop : CfFileOp)
    (pc : check_pc) (w : World) (s : S) : option (check_pc * World * S) :=
  let failed e w := (CheckDone (inl e), w, cf_fileop_aborted providers fop s) in
  match pc with
  | CheckA =>
      match phase_a sha256 fuel se g_utf8_validate o w (gnc_branch repo head) (commit_id head) with
      | None => None
      | Some (None, w) => Some (failed CE_GENERAL w)
      | Some (Some (acl_before, changes), w) => Some (CheckB acl_before changes, w, s)
      end
  | CheckB acl_before changes =>
      let '(published, gc_conflict, w) :=
        phase_b sha256 se g_utf8_validate o w (gnc_branch repo head) (commit_id head)
          (negb (bool_decide (se_db_type se = SEAF_DB_TYPE_SQLITE))) (ga_last_gc_id a) (Some (r_store_id repo))
          acl_before changes in
      Some (if published <? 0 then
              failed (if gc_conflict then CE_GC_CONFLICT
                      else if published =? SEAF_BRANCH_UPDATE_HEAD_CONFLICT then CE_CONCURRENT_UPLOAD
                      else CE_GENERAL) w
            else (CheckDone (inr file_id), emit w (EvUpdateRepoSize (ga_repo_id a)), cf_fileop_aborted providers fop s))
  | CheckDone _ => None
  end.

(** ** Replacing a directory *)

(** [None]: out of fuel. *)
Definition gen_commit_description (st : fs_store) (version : Z) (root parent_root : string) : option string :=
  match diff_commit_roots st version fuel parent_root root [] true with
  | None => None
  | Some (_, results) => Some (default AUTO_MERGE (diff_results_to_description results))
  end.

Definition described (version : Z) (parent_root root : string) (st : fs_store) : tree_result * fs_store :=
  (match gen_commit_description st version root parent_root with
   | None => TreeFails
   | Some desc => TreeNew root desc []
   end, st).

Definition update_root_tree (new_dir_id : string) (repo : SeafRepo) (head : SeafCommit) (o : Oracle) (st : fs_store)
  : tree_result * fs_store :=
  described (r_version repo) (root_id head) new_dir_id st.

Definition update_dir_tree (canon_path : string) (dent : SeafDirent) (repo : SeafRepo) (head : SeafCommit) (o : Oracle)
    (st : fs_store) : tree_result * fs_store :=
  match do_put_file dir_hash (o_dir_write o) (r_version repo) (o_now o) (root_id head) canon_path dent st with
  | (None, st) => (TreeFails, st)
  | (Some r, st) => described (r_version repo) (root_id head) (rw_id r) st
  end.

Definition seaf_repo_manager_update_dir (o : Oracle) (repo_id dir_path new_dir_id : string) (user head_id : option string)
    (w : World) (s : S) : started (S := S) :=
  match seaf_repo_manager_get_repo (w_db w) (w_commits w) repo_id with
  | None => Refused w s
  | Some repo =>
  match seaf_commit_manager_get_commit (w_commits w) (default (b_commit_id (r_head repo)) head_id) with
  | None => Refused w s
  | Some head =>
      let fop := set_expected (base_fop "update-dir" repo_id dir_path None [] user None) head_id in
      let '(prepared, _, s) := cf_fileop_prepare providers fop s in
      if prepared <? 0 then Refused w s
      else if strcmp dir_path "/" =? 0 then
        Running (mkOp repo_id user true false true [] false None (update_root_tree new_dir_id) (fun _ => fop) fop)
          repo head w s
      else
        let canon_path := get_canonical_path (g_path_get_dirname dir_path) in
        let dirname := g_path_get_basename dir_path in
        if is_none (check_file_exists (r_version repo) (w_fs w) (root_id head) canon_path dirname)
        then Refused w (cf_fileop_aborted providers fop s)
        else
          let dent := seaf_dirent_new (dir_version_from_repo_version (r_version repo)) new_dir_id S_IFDIR dirname
                        (o_now o) None (-1) in
          Running (mkOp repo_id user true false true [] true
                     (seaf_repo_get_current_gc_id (se_db_type se) (w_db w) repo)
                     (update_dir_tree canon_path dent) (fun _ => fop) fop) repo head w s
  end
  end.

(** ** Directories with their parents *)

(** From the last folder of the path to the first: the path down to the deepest one
    that exists, and those to create. *)
Fixpoint mkdir_scan (exists_at : string -> string -> bool) (sub_folders : list string) (abs_path : string)
    (uncre_dir_list : list string) : string * list string :=
  match sub_folders with
  | [] => (abs_path, uncre_dir_list)
  | EmptyString :: sub_folders => mkdir_scan exists_at sub_folders abs_path uncre_dir_list
  | folder :: sub_folders =>
      let abs_path := string_take (String.length abs_path - (String.length folder + 1)) abs_path in
      if exists_at abs_path folder then (abs_path +:+ "/" +:+ folder, uncre_dir_list)
      else mkdir_scan exists_at sub_folders abs_path (folder :: uncre_dir_list)
  end.

Definition new_dir_dent (version now : Z) (name : string) : SeafDirent :=
  seaf_dirent_new (dir_version_from_repo_version version) EMPTY_SHA1 S_IFDIR name now None (-1).

Fixpoint mkdir_posts (write_ok : string -> bool) (version now : Z) (uncre_dir_list : list string)
    (root_id abs_path : string) (st : fs_store) : option string * fs_store :=
  match uncre_dir_list with
  | [] => (Some root_id, st)
  | dir :: dirs =>
      match do_post_file dir_hash write_ok version now root_id abs_path (new_dir_dent version now dir) st with
      | (None, st) => (None, st)
      | (Some r, st) => mkdir_posts write_ok version now dirs (rw_id r) (abs_path +:+ "/" +:+ dir) st
      end
  end.

Definition mkdir_tree (relative_dir_can abs_path : string) (repo : SeafRepo) (head : SeafCommit) (o : Oracle)
    (st : fs_store) : tree_result * fs_store :=
  let exists_at dir name := negb (is_none (check_file_exists (r_version repo) st (root_id head) dir name)) in
  match mkdir_scan exists_at (reverse (pieces relative_dir_can)) abs_path [] with
  | (_, []) => (TreeSame, st)
  | (abs_path, dirs) =>
      match mkdir_posts (o_dir_write o) (r_version repo) (o_now o) dirs (root_id head) abs_path st with
      | (None, st) => (TreeFails, st)
      | (Some root, st) => (TreeNew root (snprintf_path ("Added directory " +:+ quoted relative_dir_can)) [], st)
      end
  end.

Definition starts_with_separator (path : string) : bool :=
  match path with String c _ => is_slash c || Ascii.eqb c backslash | EmptyString => false end.

Definition is_root (path : string) : bool :=
  (strcmp path "/" =? 0) || (strcmp path (String backslash EmptyString) =? 0).

Definition seaf_repo_manager_mkdir_with_parents (repo_id parent_dir new_dir_path : string) (user : option string)
    (w : World) (s : S) : started (S := S) :=
  if starts_with_separator new_dir_path then Refused w s
  else match repo_and_head w repo_id with
  | None => Refused w s
  | Some (repo, head) =>
      let relative_dir_can := get_canonical_path new_dir_path in
      if existsb (fun f => negb (strcmp f EmptyString =? 0) && should_ignore_file g_utf8_validate f) (pieces relative_dir_can)
      then Refused w s
      else
        let parent_dir_can := if is_root parent_dir then "/" else get_canonical_path parent_dir in
        let abs_path := if is_root parent_dir then "/" +:+ relative_dir_can
                        else parent_dir_can +:+ "/" +:+ relative_dir_can in
        let fop := base_fop "mkdir" repo_id parent_dir_can (Some relative_dir_can) [] user None in
        let '(prepared, _, s) := cf_fileop_prepare providers fop s in
        if prepared <? 0 then Refused w s
        else Running (mkOp repo_id user true false false [repo_id] true
                        (seaf_repo_get_current_gc_id (se_db_type se) (w_db w) repo)
                        (mkdir_tree relative_dir_can abs_path) (fun _ => fop) fop) repo head w s
  end.
End handlers.
