(* ===== verification/CopyMove.v ===== *)
(** * Copying and moving entries ([server/repo-op.c])

    Within a library, or between a library and a virtual library of it, the objects
    are shared and an entry is copied by its id; a move then deletes the source.
    Between other libraries the objects and blocks are copied from store to store.
    The names of several files are the decoded lists. *)

From stdpp Require Import pretty.
From S2P Require Import Prelude Hex Paths Sql CfPath FsObj FsMgr Walk Diff Merge CommitMgr RepoOp Repo CfV2Acl Publish CfFileop Handlers.

#[local] Arguments string_take : simpl never.

(** ** Paths *)

Fixpoint join_slash (l : list string) : string :=
  match l with
  | [] => EmptyString
  | [s] => s
  | s :: l => s +:+ String slash (join_slash l)
  end.

Fixpoint leading_slashes (s : string) : nat :=
  match s with String c s => if is_slash c then S (leading_slashes s) else O | EmptyString => O end.

Definition trailing_slashes (s : string) : nat := String.length s - String.length (strip_slashes s).

Definition nonempty (s : string) : bool := match s with EmptyString => false | String _ _ => true end.

(** [g_build_path ("/", ...)]: one slash between the elements, those at the front of
    the first and at the end of the last are kept. *)
Definition g_build_path (elements : list string) : string :=
  let elements := List.filter nonempty elements in
  let bodies := List.filter nonempty ((fun e => strip_slashes (skip_run e)) <$> elements) in
  match elements with
  | [] => EmptyString
  | [e] => match bodies with
           | [] => e
           | _ => slashes (leading_slashes e) +:+ join_slash bodies +:+ slashes (trailing_slashes e)
           end
  | e :: _ => slashes (leading_slashes e) +:+ join_slash bodies
              +:+ slashes (trailing_slashes (default EmptyString (last elements)))
  end.

Definition under_virtual (repo : SeafRepo) (elements : list string) : list string :=
  match r_virtual repo with Some v => v_path v :: elements | None => elements end.

(** [check_move]: whether no source is above the destination. *)
Definition check_move (src_repo dst_repo : SeafRepo) (src_path dst_path : string) (src_names : list string) : bool :=
  let dst_dirent_path := match r_virtual dst_repo with
                         | Some v => g_build_path [v_path v; dst_path]
                         | None => dst_path
                         end in
  negb (existsb (fun name => String.prefix (g_build_path (under_virtual src_repo [src_path; name; "/"])) dst_dirent_path)
          src_names).

Definition is_virtual_repo_and_origin (repo1 repo2 : SeafRepo) : bool :=
  match r_virtual repo1 with Some v => strcmp (v_origin_repo_id v) (r_id repo2) =? 0 | None => false end
  || match r_virtual repo2 with Some v => strcmp (v_origin_repo_id v) (r_id repo1) =? 0 | None => false end.

(** [get_sub_dirents_hash_map] and a lookup in it: of equal names the last counts. *)
Definition get_sub_dirents_hash_map (st : fs_store) (repo : SeafRepo) (parent_dir : string)
  : option (string -> option SeafDirent) :=
  match seaf_fs_manager_get_seafdir_by_path st (r_version repo) (r_root_id repo) parent_dir with
  | inl _ => None
  | inr dir => Some (fun name => find_dirent (fun d => strcmp (d_name d) name =? 0) (reverse (entries dir)))
  end.

(** The sources of the names; [None]: one is empty or missing. *)
Fixpoint src_dirents (lookup : string -> option SeafDirent) (names : list string) : option (list SeafDirent) :=
  match names with
  | [] => Some []
  | name :: names =>
      if strcmp name EmptyString =? 0 then None
      else d ← lookup name; ds ← src_dirents lookup names; Some (d :: ds)
  end.

(** [seaf_dirent_new] of a source under a new name. *)
Definition dup_dirent (version : Z) (user : string) (src : SeafDirent) (name : string) : SeafDirent :=
  seaf_dirent_new (dir_version_from_repo_version version) (d_id src) (d_mode src) name (d_mtime src) (Some user)
    (if 0 <? d_version src then d_size src else -1).

Fixpoint dst_dirents (version : Z) (user : string) (srcs : list SeafDirent) (names : list string)
  : option (list SeafDirent) :=
  match srcs, names with
  | src :: srcs, name :: names =>
      if strcmp name EmptyString =? 0 then None
      else ds ← dst_dirents version user srcs names; Some (dup_dirent version user src name :: ds)
  | _, _ => Some []
  end.

Definition batch_desc (verb dir_verb : string) (dents : list SeafDirent) : string :=
  match dents with
  | [] => EmptyString
  | [d] => snprintf_path ((if S_ISDIR (d_mode d) then dir_verb else verb) +:+ quoted (d_name d))
  | d :: ds => snprintf_path (verb +:+ quoted (d_name d) +:+ " and " +:+ pretty (Z.of_nat (length ds)) +:+ " more files")
  end.

Section handlers.
Context (sha1 : list Z -> list Z) (sha256 : list Z -> string).
Context (dir_hash : Z -> list SeafDirent -> string).
Context (fuel : nat) (se : Session) (g_utf8_validate : string -> bool).
Context {S : Type} (providers : list (Provider S)).

(** ** The trees *)

(** [put_dirent_and_commit] up to the commit. *)
Definition put_dirent_tree (path : string) (dents : list SeafDirent) (replace : bool) (user : string)
    (repo : SeafRepo) (head : SeafCommit) (o : Oracle) (st : fs_store) : tree_result * fs_store :=
  of_rewritten (fun _ => batch_desc "Added " "Added directory " dents) (fun _ => [])
    (post_multi_files dir_hash (o_dir_write o) (r_version repo) (o_now o) (root_id head) path user replace dents st).

Definition put_dirent_and_commit (dst_repo : SeafRepo) (path : string) (dents : list SeafDirent) (replace : bool)
    (user : string) (sizes : bool) (merges : list string) (check_gc : bool) (last_gc_id : option string) (fop : CfFileOp)
  : OnlineOp :=
  mkOp (r_id dst_repo) (Some user) true false sizes merges check_gc last_gc_id
    (put_dirent_tree path dents replace user) (fun _ => fop) fop.

(** [move_file_same_repo]: the entries are put, then the sources deleted. *)
Definition move_tree (src_names : list string) (src_path : string) (src_dents : list SeafDirent) (dst_path : string)
    (dst_dents : list SeafDirent) (replace : bool) (user : string)
    (repo : SeafRepo) (head : SeafCommit) (o : Oracle) (st : fs_store) : tree_result * fs_store :=
  match post_multi_files dir_hash (o_dir_write o) (r_version repo) (o_now o) (root_id head) dst_path user replace
          dst_dents st with
  | (None, st) => (TreeFails, st)
  | (Some put, st) =>
      of_rewritten (fun _ => batch_desc "Moved " "Moved directory " src_dents) (fun _ => [])
        (do_del_file dir_hash (o_dir_write o) (r_version repo) (o_now o) (rw_id put) src_path src_names st)
  end.

(** ** The handlers up to the commit *)

(** A request is refused; it runs as one operation, on the library and head it has
    read or after reading them again; the entries are put into one library and then
    deleted from the other; or a task copies between stores. *)
Inductive copy_started :=
| CopyRefused (w : World) (s : S)
| CopyRunning (op : OnlineOp) (repo : SeafRepo) (head : SeafCommit) (w : World) (s : S)
| CopyReread (op : OnlineOp) (w : World) (s : S)
| CopyThenDelete (op : OnlineOp) (repo : SeafRepo) (head : SeafCommit) (fop : CfFileOp) (w : World) (s : S)
| CopyAcross (fop : CfFileOp) (w : World) (s : S).

Definition src_fop (op dst_repo_id dst_dir : string) (name : option string) (names : list string)
    (src_repo_id src_dir : string) (src_name : option string) (src_names : list string) (user : string) : CfFileOp :=
  mkFop CF_FILEOP_PHASE_PREPARE (Some op) (Some dst_repo_id) (Some dst_dir) name names (Some src_repo_id) (Some src_dir)
    src_name src_names (Some user) None None None.

(** The two libraries and the head of the destination. *)
Definition both_repos (w : World) (src_repo_id dst_repo_id : string) : option (SeafRepo * SeafRepo * SeafCommit) :=
  src_repo ← seaf_repo_manager_get_repo (w_db w) (w_commits w) src_repo_id;
  dst_repo ← (if strcmp src_repo_id dst_repo_id =? 0 then Some src_repo
              else seaf_repo_manager_get_repo (w_db w) (w_commits w) dst_repo_id);
  head ← seaf_commit_manager_get_commit (w_commits w) (b_commit_id (r_head dst_repo));
  Some (src_repo, dst_repo, head).

Definition seaf_repo_manager_copy_file (src_repo_id src_path src_filename dst_repo_id dst_path dst_filename user : string)
    (w : World) (s : S) : copy_started :=
  match both_repos w src_repo_id dst_repo_id with
  | None => CopyRefused w s
  | Some (src_repo, dst_repo, head) =>
      let same := strcmp src_repo_id dst_repo_id =? 0 in
      if negb same && (r_encrypted src_repo || r_encrypted dst_repo) then CopyRefused w s
      else
        let src_canon_path := get_canonical_path src_path in
        let dst_canon_path := get_canonical_path dst_path in
        let fop := src_fop "copy" dst_repo_id dst_canon_path (Some dst_filename) [] src_repo_id src_canon_path
                     (Some src_filename) [] user in
        let '(prepared, _, s) := cf_fileop_prepare providers fop s in
        if prepared <? 0 then CopyRefused w s
        else if same || is_virtual_repo_and_origin src_repo dst_repo then
          match (src_head ← seaf_commit_manager_get_commit (w_commits w) (b_commit_id (r_head src_repo));
                 get_dirent_by_path (r_version src_repo) (w_fs w) (root_id src_head) src_canon_path src_filename) with
          | None => CopyRefused w (cf_fileop_aborted providers fop s)
          | Some src_dent =>
              CopyRunning (put_dirent_and_commit dst_repo dst_canon_path
                             [dup_dirent (r_version dst_repo) user src_dent dst_filename] false user true [dst_repo_id]
                             false None fop) dst_repo head w s
          end
        else CopyAcross fop w s
  end.

(** The entries to put, for a copy or move that shares the objects. *)
Definition batch_dirents (w : World) (src_repo dst_repo : SeafRepo) (src_path : string) (src_names dst_names : list string)
    (user : string) : option (list SeafDirent * list SeafDirent) :=
  lookup ← get_sub_dirents_hash_map (w_fs w) src_repo src_path;
  src_dents ← src_dirents lookup src_names;
  dst_dents ← dst_dirents (r_version dst_repo) user src_dents dst_names;
  Some (src_dents, dst_dents).

Definition bad_names (src_names dst_names : list string) : bool :=
  match src_names, dst_names with
  | [], _ | _, [] => true
  | _, _ => negb (length src_names =? length dst_names)%nat
  end.

Definition seaf_repo_manager_copy_multiple_files (src_repo_id src_path : string) (src_names : list string)
    (dst_repo_id dst_path : string) (dst_names : list string) (user : string) (w : World) (s : S) : copy_started :=
  match both_repos w src_repo_id dst_repo_id with
  | None => CopyRefused w s
  | Some (src_repo, dst_repo, head) =>
      if bad_names src_names dst_names then CopyRefused w s
      else
        let dst_canon_path := get_canonical_path dst_path in
        let fop := src_fop "copy" dst_repo_id dst_canon_path None dst_names src_repo_id (get_canonical_path src_path)
                     None [] user in
        let '(prepared, _, s) := cf_fileop_prepare providers fop s in
        if prepared <? 0 then CopyRefused w s
        else if (strcmp src_repo_id dst_repo_id =? 0) || is_virtual_repo_and_origin src_repo dst_repo then
          if negb (check_move src_repo dst_repo src_path dst_path src_names)
          then CopyRefused w (cf_fileop_aborted providers fop s)
          else match batch_dirents w src_repo dst_repo src_path src_names dst_names user with
               | None => CopyRefused w (cf_fileop_aborted providers fop s)
               | Some (_, dst_dents) =>
                   CopyRunning (put_dirent_and_commit dst_repo dst_canon_path dst_dents false user true [src_repo_id]
                                  false None fop) dst_repo head w s
               end
        else CopyAcross fop w s
  end.

(** The operation of [move_file_same_repo], and its start: the library is read again,
    its collector's mark with it. *)
Definition move_op (repo_id : string) (src_names : list string) (src_path : string) (src_dents : list SeafDirent)
    (dst_path : string) (dst_dents : list SeafDirent) (replace : bool) (user : string) (fop : CfFileOp) : OnlineOp :=
  mkOp repo_id (Some user) true false true [repo_id] true None
    (move_tree src_names src_path src_dents dst_path dst_dents replace user) (fun _ => fop) fop.

Definition set_gc_id (op : OnlineOp) (gc_id : option string) : OnlineOp :=
  mkOp (op_repo_id op) (op_user op) (op_concurrent op) (op_retries op) (op_sizes op) (op_merges op) (op_check_gc op) gc_id
    (op_tree op) (op_commit op) (op_abort op).

Definition move_file_same_repo (op : OnlineOp) (w : World) (s : S) : copy_started :=
  match repo_and_head w (op_repo_id op) with
  | None => CopyRefused w (cf_fileop_aborted providers (op_abort op) s)
  | Some (repo, head) =>
      CopyRunning (set_gc_id op (seaf_repo_get_current_gc_id (se_db_type se) (w_db w) repo)) repo head w s
  end.

Definition seaf_repo_manager_move_multiple_files (src_repo_id src_path : string) (src_names : list string)
    (dst_repo_id dst_path : string) (dst_names : list string) (replace : bool) (user : string) (w : World) (s : S)
  : copy_started :=
  match both_repos w src_repo_id dst_repo_id with
  | None => CopyRefused w s
  | Some (src_repo, dst_repo, head) =>
      if bad_names src_names dst_names then CopyRefused w s
      else
        let src_canon_path := get_canonical_path src_path in
        let dst_canon_path := get_canonical_path dst_path in
        let fop := src_fop "move" dst_repo_id dst_canon_path None dst_names src_repo_id src_canon_path None src_names user in
        let '(prepared, _, s) := cf_fileop_prepare providers fop s in
        if prepared <? 0 then CopyRefused w s
        else
          let same := strcmp src_repo_id dst_repo_id =? 0 in
          if same || is_virtual_repo_and_origin src_repo dst_repo then
            if negb (check_move src_repo dst_repo src_path dst_path src_names)
            then CopyRefused w (cf_fileop_aborted providers fop s)
            else match batch_dirents w src_repo dst_repo src_path src_names dst_names user with
                 | None => CopyRefused w (cf_fileop_aborted providers fop s)
                 | Some (src_dents, dst_dents) =>
                     if same then
                       CopyReread (move_op src_repo_id src_names src_canon_path src_dents dst_canon_path dst_dents replace
                                     user fop) w s
                     else
                       CopyThenDelete (put_dirent_and_commit dst_repo dst_path dst_dents replace user false
                                         [r_id dst_repo] false None fop) dst_repo head fop w s
                 end
          else CopyAcross fop w s
  end.

(** ** A move between a library and its virtual library

    The entries are put into the destination by a commit of its own, which is not
    reported to the providers; then the request handler of deletions runs on the
    source; then the move is reported. *)

Inductive move_pc :=
| MovePut (pc : op_pc)
| MoveDel (put_id : string) (op : OnlineOp) (pc : op_pc)
| MoveDone (ret : Z).

Definition move_step (o : Oracle) (fop : CfFileOp) (src_repo_id src_path : string) (src_names : list string)
    (user : string) (dst_repo_id : string) (put : OnlineOp) (pc : move_pc) (w : World) (s : S) : option (move_pc * World * S) :=
  match pc with
  | MovePut (OpDone _ _ (Some put_id)) =>
      Some (match seaf_repo_manager_del_file dir_hash se providers src_repo_id src_path src_names (Some user) w s with
            | Refused w s => (MoveDone (-1), w, cf_fileop_aborted providers fop s)
            | Running op repo head w s => (MoveDel put_id op (OpTry repo head []), w, s)
            end)
  | MovePut (OpDone _ _ None) => Some (MoveDone (-1), w, cf_fileop_aborted providers fop s)
  | MovePut pc =>
      '(pc, w, _) ← op_step sha1 sha256 dir_hash fuel se g_utf8_validate [] o put pc w tt; Some (MovePut pc, w, s)
  | MoveDel put_id op (OpDone ret _ _) =>
      Some (if ret <? 0 then (MoveDone (-1), w, cf_fileop_aborted providers fop s)
            else (MoveDone 0, emit (emit w (EvMergeVirtualRepo src_repo_id)) (EvUpdateRepoSize dst_repo_id),
                  cf_fileop_committed providers (set_commit_id fop put_id) s))
  | MoveDel put_id op pc =>
      '(pc, w, s) ← op_step sha1 sha256 dir_hash fuel se g_utf8_validate providers o op pc w s; Some (MoveDel put_id op pc, w, s)
  | MoveDone _ => None
  end.
End handlers.
