(* ===== verification/CopyMoveProof.v ===== *)
(** * What copies and moves within a library do

    A move puts the sources under the first free names into the destination and deletes them
    from the source directory: with all that is below them they are then at the
    destination and nowhere else, and no other path changes, as long as the
    destination is not inside a source.  The test of the code for this misses one
    case. *)

From S2P Require Import Prelude Hex Paths Sql CfPath FsObj FsMgr Walk Diff Merge CommitMgr RepoOp RepoOpProof LibView Repo CfV2Acl Publish PublishProof CfFileop Handlers HandlersProof CopyMove.

#[local] Arguments string_take : simpl never.

(** ** Sources and the entries made of them *)

Lemma zip_new_entry_names version user dents : forall names,
  length names = length dents -> d_name <$> zip_with (new_entry version user) dents names = names.
Proof.
  induction dents as [|d dents IH]; intros [|u names] H; try done. cbn [zip_with fmap list_fmap].
  unfold new_entry at 1. rewrite d_name_dirent_new. f_equal. apply IH. by injection H.
Qed.

(** The sources, as they are looked up in their directory. *)
Lemma src_dirents_Forall2 lookup names : forall dents,
  src_dirents lookup names = Some dents -> Forall2 (fun n d => lookup n = Some d) names dents.
Proof.
  induction names as [|n names IH]; intros dents E; cbn [src_dirents] in E; [injection E as <-; constructor|].
  destruct (strcmp n EmptyString =? 0); [done|]. destruct (lookup n) as [d|] eqn:Ed; [|done]. cbn [mbind option_bind] in E.
  destruct (src_dirents lookup names) as [ds|]; [|done]. injection E as <-. constructor; [done|by apply IH].
Qed.

(** The entry of a source under a new name: id, mode, time and size of the source, the user
    of the request as its modifier. *)
Definition moved_entry (version : Z) (user : string) (src : SeafDirent) (u : string) : SeafDirent :=
  seaf_dirent_new (dir_version_from_repo_version version) (d_id src) (d_mode src) u (d_mtime src) (Some user)
    (if 0 <? d_version src then d_size src else -1).

(** Copying the entry twice gives the same as copying it once. *)
Lemma new_entry_dup version user src name u :
  new_entry version user (dup_dirent version user src name) u = moved_entry version user src u.
Proof.
  unfold new_entry, dup_dirent, moved_entry, seaf_dirent_new.
  destruct (0 <? dir_version_from_repo_version version); cbn [d_id d_mode d_mtime d_size];
    destruct (S_ISREG (d_mode src)) eqn:E; rewrite ?E; try done;
    rewrite (S_ISREG_perm _ E), <- Z.lor_assoc; done.
Qed.

Lemma dst_dirents_Forall2 version user srcs : forall names dents,
  dst_dirents version user srcs names = Some dents -> length names = length srcs ->
  d_name <$> dents = names /\
  Forall2 (fun d s => d_id d = d_id s /\ S_ISDIR (d_mode d) = S_ISDIR (d_mode s) /\
    forall u, new_entry version user d u = moved_entry version user s u) dents srcs.
Proof.
  induction srcs as [|s srcs IH]; intros [|n names] dents E Hlen; try done; cbn [dst_dirents] in E.
  - injection E as <-. split; [done|constructor].
  - destruct (strcmp n EmptyString =? 0); [done|].
    destruct (dst_dirents version user srcs names) as [ds|] eqn:Eds; [|done]. injection E as <-.
    destruct (IH names ds Eds ltac:(by injection Hlen)) as [<- HF]. split.
    + cbn [fmap list_fmap]. f_equal. unfold dup_dirent. apply d_name_dirent_new.
    + constructor; [|done]. split_and!; [apply d_id_dirent_new|apply S_ISDIR_dirent_new|].
      intros u. apply new_entry_dup.
Qed.

(** ** Moving within a library *)

Lemma cons_ne_nil {A} (x : A) l : x :: l <> [].
Proof. done. Qed.

Section move.
Context (dir_hash : Z -> list SeafDirent -> string) (version : Z) (Hcf : collision_free dir_hash version).
Abbreviation parts_of path := (strchr_parts (skip_slash path)).

(** A directory that is there before entries are put under free names is there
    afterwards. *)
Lemma is_dir_put st st' root root' dst ld es src :
  at_dir dir_hash version st root dst ld -> is_dir_at version st root (parts_of src) -> library_ok dir_hash version st' ->
  is_Some (seaf_fs_manager_get_seafdir st' version root') ->
  (forall path, view_root version st' root' path =
     foldl (fun v e => put_entry version st v (parts_of dst) e) (view_root version st root) es path) ->
  Forall (fun u => lookup_name u ld = None) (d_name <$> es) ->
  is_dir_at version st' root' (parts_of src).
Proof.
  intros Hat [_ Hd] Hl Hr Hv Hf. split; [done|]. destruct (parts_of src) as [|x ps] eqn:Ep; [done|].
  destruct Hd as (e & He & Hde). exists e. split; [|done]. rewrite Hv, <- He. apply put_all_outside.
  intros u rest E Hu. rewrite E in He. rewrite (view_dir_parts _ _ _ _ ld) in He by apply Hat.
  rewrite Forall_forall in Hf. by rewrite view_absent in He by by apply Hf.
Qed.

(** Entries that were put are there under free names. *)
Lemma post_multi_done now write_ok st root dst ld user dents r st' :
  at_dir dir_hash version st root dst ld -> Forall (storable version st) dents ->
  post_multi_files dir_hash write_ok version now root dst user false dents st = (Some r, st') ->
  exists names, length names = length dents /\
    (forall i d u, dents !! i = Some d -> names !! i = Some u -> first_free ld (take i names) (d_name d) u) /\
    st ⊆ st' /\ library_ok dir_hash version st' /\
    forall path, view_root version st' (rw_id r) path =
      foldl (fun v e => put_entry version st v (parts_of dst) e) (view_root version st root)
        (zip_with (new_entry version user) dents names) path.
Proof.
  intros Hd Hst E. apply rewrite_at_done in E. pose proof (at_sorted _ _ _ _ _ _ Hd) as [Hs _].
  destruct (add_new_entries version user false dents ld []) as [[l' names]|] eqn:Ha.
  - destruct (post_multi_files_refines dir_hash version now Hcf st root dst ld user false dents l' names Hd Hst Ha)
      as (Hlen & root1 & st1 & E1 & Hsub & Hlib & Hv).
    unfold post_multi_files in E1. rewrite E in E1. injection E1 as -> ->. cbn [rw_id].
    destruct (add_new_entries_free _ _ _ _ _ _ _ Ha Hs) as (added & -> & Hf). cbn [app] in *.
    exists added. by split_and!.
  - exfalso. revert E. unfold rewrite_at. destruct Hd as [Hl He].
    pose proof (rewrite_path_refused dir_hash version now true (post_multi_target version user false dents)
      (fun _ => true) (parts_of dst) root st ld Hl He) as Hn.
    intros E. rewrite E in Hn. unfold post_multi_target in Hn. rewrite Ha in Hn. by discriminate Hn.
Qed.

Lemma put_root_readable st st' root' dst v es :
  (forall path, view_root version st' root' path = foldl (fun v e => put_entry version st v (parts_of dst) e) v es path) ->
  NoDup (d_name <$> es) -> es <> [] -> is_Some (seaf_fs_manager_get_seafdir st' version root').
Proof.
  intros Hv Hnd Hne. destruct es as [|e es]; [done|]. specialize (Hv (parts_of dst ++ [d_name e])).
  rewrite (put_all_at version st (parts_of dst) (e :: es) v e []) in Hv; [|done|by left].
  cbn [view] in Hv. rewrite lookup_name_cons, String.eqb_refl in Hv. unfold view_root in Hv. cbn in Hv.
  by destruct (seaf_fs_manager_get_seafdir st' version root').
Qed.

(** Entries put from sources can be stored. *)
Lemma dst_storable st root src ls src_names srcs dst_names dst_dents user :
  at_dir dir_hash version st root src ls -> src_dirents (fun n => lookup_name n ls) src_names = Some srcs ->
  dst_dirents version user srcs dst_names = Some dst_dents -> length dst_names = length srcs ->
  Forall (storable version st) dst_dents.
Proof.
  intros Hs Hsrc2%src_dirents_Forall2 Hdst Hlen. destruct (dst_dirents_Forall2 _ _ _ _ _ Hdst Hlen) as [_ Hdst2].
  apply Forall_lookup. intros i d Hi. destruct (Forall2_lookup_l _ _ _ _ _ Hdst2 Hi) as (s & Hsi & Hid & Hmode & _).
  destruct (Forall2_lookup_r _ _ _ _ _ Hsrc2 Hsi) as (n & _ & Hn). unfold storable. rewrite Hid, Hmode. intros Hdir.
  apply lookup_name_Some in Hn as [Hn _]. by apply (proj2 (at_sorted _ _ _ _ _ _ Hs)).
Qed.

(** The tree a move makes: the sources put under free names, then removed. *)
Lemma move_tree_view st dst ld src ls src_names src_dents dst_dents user repo head o root' desc nm st' :
  r_version repo = version ->
  at_dir dir_hash version st (root_id head) dst ld -> at_dir dir_hash version st (root_id head) src ls ->
  Forall (storable version st) dst_dents -> dst_dents <> [] -> src_names <> [] ->
  move_tree dir_hash src_names src src_dents dst dst_dents false user repo head o st = (TreeNew root' desc nm, st') ->
  exists names, length names = length dst_dents /\
    (forall i d u, dst_dents !! i = Some d -> names !! i = Some u -> first_free ld (take i names) (d_name d) u) /\
    NoDup names /\ Forall (fun u => lookup_name u ld = None) names /\ st ⊆ st' /\ library_ok dir_hash version st' /\
    forall path, view_root version st' root' path =
      remove_names (foldl (fun v e => put_entry version st v (parts_of dst) e) (view_root version st (root_id head))
        (zip_with (new_entry version user) dst_dents names)) (parts_of src) src_names path.
Proof.
  intros Hrv Hd Hs Hst Hdne Hne. unfold move_tree. rewrite Hrv.
  destruct (post_multi_files _ _ _ _ _ _ _ _ _ _) as [[put|] st1] eqn:E1; [|done].
  destruct (post_multi_done _ _ _ _ _ _ _ _ _ _ Hd Hst E1) as (names & Hlen & Hfirst & Hsub1 & Hlib1 & Hv1).
  destruct (first_free_fresh ld names (d_name <$> dst_dents)) as [Hnd Hf]; [by rewrite length_fmap| |].
  { intros i w u Hw Hu. rewrite list_lookup_fmap in Hw. destruct (dst_dents !! i) as [d|] eqn:Ed; [|done].
    injection Hw as <-. by apply Hfirst. }
  pose proof (zip_new_entry_names version user dst_dents names Hlen) as Hnames.
  assert (Hdir : is_dir_at version st1 (rw_id put) (parts_of src)).
  { eapply is_dir_put; [exact Hd| |done| |exact Hv1|by rewrite Hnames].
    - apply entries_at_is_dir; [apply Hs|]. eexists. apply Hs.
    - apply (put_root_readable _ _ _ _ _ _ Hv1); [by rewrite Hnames|].
      intros Ez. rewrite Ez in Hnames. subst names. by destruct dst_dents. }
  apply entries_at_is_dir in Hdir as [ls1 Hls1]; [|apply Hlib1].
  unfold of_rewritten. destruct (do_del_file _ _ _ _ _ _ _ _) as [[r|] st2] eqn:E2; [|done]. intros [= <- <- <- <-].
  destruct (del_file_view dir_hash version Hcf (o_now o) st1 (rw_id put) src ls1 src_names) as (r2 & st3 & E3 & Hsub2 & Hlib2 & Hv2);
    [by split|done|]. apply rewrite_at_done in E2. unfold do_del_file in E3. rewrite E2 in E3. injection E3 as -> ->.
  exists names. split_and!; try done; [by trans st1|]. intros path. rewrite Hv2. unfold remove_names.
  destruct (below _ path) as [[|]|]; try apply Hv1. case_bool_decide; [done|apply Hv1].
Qed.

(** An entry put from a source shows what the source shows. *)
Lemma view_put_source st l n s e rest :
  lookup_name n l = Some s -> d_id e = d_id s -> S_ISDIR (d_mode e) = S_ISDIR (d_mode s) -> rest <> [] ->
  view version st [e] (d_name e :: rest) = view version st l (n :: rest).
Proof.
  intros Hl Hid Hm Hr. cbn [view]. rewrite lookup_name_cons, String.eqb_refl, Hl. cbn [mbind option_bind].
  rewrite Hm, Hid. by destruct rest.
Qed.

End move.

(** ** The test for moves into a source *)

Lemma strip_slashes_component c s : has_slash c = false -> c <> EmptyString -> strip_slashes (s +:+ c) = s +:+ c.
Proof.
  intros Hc Hne. induction s as [|x s IH].
  - change ("" +:+ c) with c. clear -Hc Hne. induction c as [|x c IH]; [done|]. cbn in Hc |- *.
    apply orb_false_iff in Hc as [Hx Hc]. destruct c as [|y c]; [by rewrite Hx|]. by rewrite IH.
  - change (String x s +:+ c) with (String x (s +:+ c)). cbn [strip_slashes]. rewrite IH.
    destruct (s +:+ c) eqn:E; [|done]. apply (f_equal String.length) in E. rewrite string_length_app in E.
    destruct c; [done|]. cbn in E. lia.
Qed.

Lemma skip_run_component c s : is_component c -> skip_run (c +:+ s) = c +:+ s.
Proof.
  intros [Hne Hs]. destruct c as [|x c]; [done|]. cbn in Hs. apply orb_false_iff in Hs as [Hx _].
  change (String x c +:+ s) with (String x (c +:+ s)). cbn [skip_run]. by rewrite Hx.
Qed.

(** The spelling of a path without its first slash. *)
Lemma spell_body l c : Forall is_component l -> is_component c ->
  exists s, spell (l ++ [c]) = String slash s /\ skip_run s = s /\ strip_slashes s = s /\ s <> EmptyString /\
    leading_slashes s = O.
Proof.
  intros Hl Hc.
  assert (Hhead : forall x s, is_component x -> skip_run (x +:+ s) = x +:+ s /\ x +:+ s <> EmptyString /\ leading_slashes (x +:+ s) = O).
  { intros x s Hx. split; [by apply skip_run_component|]. destruct Hx as [Hne Hx]. destruct x as [|a x]; [done|].
    cbn in Hx. apply orb_false_iff in Hx as [Ha _]. split; [done|]. 
    change (leading_slashes (String a x +:+ s)) with (if is_slash a then S (leading_slashes (x +:+ s)) else O). by rewrite Ha. }
  destruct l as [|x l].
  - exists c. cbn [app spell]. rewrite string_nil_r. destruct (Hhead c EmptyString Hc) as (H1 & H2 & H3).
    rewrite string_nil_r in H1, H2, H3. split_and!; try done. destruct Hc. by apply (strip_slashes_component c EmptyString).
  - apply Forall_cons in Hl as [Hx Hl]. exists (x +:+ spell (l ++ [c])). destruct (Hhead x (spell (l ++ [c])) Hx) as (H1 & H2 & H3).
    split_and!; try done. rewrite spell_app. cbn [spell]. rewrite string_nil_r.
    replace (x +:+ spell l +:+ String slash c) with ((x +:+ spell l +:+ "/") +:+ c) by (by rewrite !string_app_assoc).
    destruct Hc. by apply strip_slashes_component.
Qed.

Lemma build_source ps name :
  Forall is_component ps -> is_component name -> g_build_path [absolute ps; name; "/"] = spell (ps ++ [name]) +:+ "/".
Proof.
  intros Hps Hn. pose proof Hn as [Hne Hns]. unfold g_build_path.
  assert (Hn1 : strip_slashes (skip_run name) = name).
  { rewrite <- (string_nil_r name), (skip_run_component name EmptyString Hn), string_nil_r.
    by apply (strip_slashes_component name EmptyString). }
  assert (Hf : forall s l, s <> EmptyString -> List.filter nonempty (s :: l) = s :: List.filter nonempty l)
    by (intros [|a s] l H; done).
  destruct ps as [|p ps _] using rev_ind.
  - cbn [absolute app]. rewrite !Hf by done. change (List.filter nonempty []) with (@nil string). cbn [fmap list_fmap]. rewrite Hn1.
    change (strip_slashes (skip_run "/")) with "". change (List.filter nonempty ("" :: ?l)) with (List.filter nonempty l).
    rewrite Hf by done. cbn [List.filter nonempty].
    cbn [spell]. by rewrite !string_nil_r.
  - apply Forall_app in Hps as [Hps Hp]. rewrite Forall_singleton in Hp. destruct (spell_body ps p Hps Hp) as (s & Hs & H1 & H2 & H3 & H4).
    assert (Ha : absolute (ps ++ [p]) = String slash s) by (unfold absolute; rewrite <- Hs; by destruct ps).
    rewrite Ha, spell_app, Hs. rewrite !Hf by done. change (List.filter nonempty []) with (@nil string). cbn [fmap list_fmap].
    change (skip_run (String slash s)) with (skip_run s). rewrite H1, H2, Hn1.
    change (strip_slashes (skip_run "/")) with "". rewrite !Hf by done. cbn [List.filter nonempty].
    change (leading_slashes (String slash s)) with (S (leading_slashes s)). rewrite H4.
    cbn [join_slash last default slashes spell]. rewrite !string_nil_r.
    change (slashes (trailing_slashes "/")) with "/".
    change (String slash EmptyString +:+ ?x) with (String slash x).
    change (String slash s +:+ ?x) with (String slash (s +:+ x)).
    change (String slash (s +:+ ?x) +:+ ?y) with (String slash ((s +:+ x) +:+ y)).
    by rewrite !string_app_assoc.
Qed.

(** What the test refuses: destinations strictly below a source. *)
Lemma check_move_spec src_repo dst_repo ps ds names :
  r_virtual src_repo = None -> r_virtual dst_repo = None ->
  Forall is_component ps -> Forall is_component ds -> Forall is_component names ->
  check_move src_repo dst_repo (absolute ps) (absolute ds) names = true <->
  forall n, n ∈ names -> ~ (ps ++ [n] `prefix_of` ds /\ ds <> ps ++ [n]).
Proof.
  intros Hsv Hdv Hps Hds Hns. unfold check_move, under_virtual. rewrite Hsv, Hdv.
  assert (Heach : forall n, n ∈ names ->
    String.prefix (g_build_path [absolute ps; n; "/"]) (absolute ds) = true <-> (ps ++ [n] `prefix_of` ds /\ ds <> ps ++ [n])).
  { intros n Hn. rewrite Forall_forall in Hns. specialize (Hns n Hn). rewrite build_source, string_prefix_iff by done.
    assert (Hl : Forall is_component (ps ++ [n])) by (apply Forall_app; by split; [|apply Forall_singleton]).
    assert (Ha : absolute (ps ++ [n]) = spell (ps ++ [n])) by (unfold absolute; by destruct (ps ++ [n]) eqn:E; [destruct ps|]).
    destruct ds as [|d0 ds0].
    { split; [|intros [H _]; apply prefix_nil_inv in H; by destruct ps]. intros [r Hr].
      apply (f_equal String.length) in Hr. rewrite spell_app, !string_length_app in Hr. destruct Hns as [Hne _].
      destruct n; [done|]. cbn in Hr. rewrite string_length_app in Hr. cbn in Hr. lia. }
    pose proof (at_or_below_text (ps ++ [n]) (d0 :: ds0) Hl Hds ltac:(by destruct ps) ltac:(done)) as Htext.
    rewrite Ha in Htext. split.
    - intros [r Hr]. rewrite string_app_assoc in Hr. split; [apply Htext; right; by exists r|]. intros Heq.
      rewrite Heq, Ha in Hr. apply (f_equal String.length) in Hr. rewrite !string_length_app in Hr. cbn in Hr. lia.
    - intros [H Hne]. apply Htext in H as [H|[r Hr]]; [|exists r; by rewrite string_app_assoc].
      rewrite <- Ha in H. by apply absolute_inj in H. }
  rewrite negb_true_iff, <- not_true_iff_false, existsb_exists. split.
  - intros H n Hn Hb. apply H. exists n. split; [by apply list_elem_of_In|]. by apply Heach.
  - intros H (n & Hn & Hp). apply list_elem_of_In in Hn. apply (H n Hn). by apply Heach.
Qed.

(** ** A move of a directory into itself

    The paths of a request have no trailing slash ([format_dir_path]), so a directory
    is not strictly below itself, and the test lets the move pass.  The directory is
    put into itself and then deleted: nothing of it is at any path of the new tree. *)
Lemma move_into_itself_loses dir_hash version (Hcf : collision_free dir_hash version)
    st dst ld src ls name srcs dst_names dst_dents user repo head o root' desc nm st' :
  r_version repo = version ->
  at_dir dir_hash version st (root_id head) dst ld -> at_dir dir_hash version st (root_id head) src ls ->
  src_dirents (fun n => lookup_name n ls) [name] = Some srcs ->
  dst_dirents version user srcs dst_names = Some dst_dents -> length dst_names = 1%nat ->
  strchr_parts (skip_slash dst) = strchr_parts (skip_slash src) ++ [name] ->
  move_tree dir_hash [name] src srcs dst dst_dents false user repo head o st = (TreeNew root' desc nm, st') ->
  (forall rest, view_root version st' root' (strchr_parts (skip_slash src) ++ name :: rest) = None) /\
  (forall path, (forall rest, path <> strchr_parts (skip_slash src) ++ name :: rest) ->
     view_root version st' root' path = view_root version st (root_id head) path).
Proof.
  intros Hrv Hd Hs Hsrc Hdst Hlen Hin Hm.
  pose proof (src_dirents_Forall2 _ _ _ Hsrc) as Hsrc2. pose proof (Forall2_length _ _ _ Hsrc2) as Hls. cbn in Hls.
  destruct (dst_dirents_Forall2 _ _ _ _ _ Hdst ltac:(lia)) as [_ Hdst2]. pose proof (Forall2_length _ _ _ Hdst2) as Hlds.
  pose proof (dst_storable _ _ _ _ _ _ _ _ _ _ _ Hs Hsrc Hdst ltac:(lia)) as Hst.
  assert (Hdne : dst_dents <> []) by (intros ->; by destruct srcs).
  destruct (move_tree_view _ _ Hcf _ _ _ _ _ _ _ _ _ _ _ _ _ _ _ _ Hrv Hd Hs Hst Hdne (cons_ne_nil name []) Hm)
    as (names & Hln & _ & Hnd & Hf & _ & Hlib & Hv).
  split.
  - intros rest. rewrite Hv. unfold remove_names. rewrite (proj2 (below_Some _ _ (name :: rest)) eq_refl).
    rewrite bool_decide_true; [done|by left].
  - intros path Hp. rewrite Hv. unfold remove_names.
    rewrite put_all_outside.
    + destruct (below _ path) as [[|n rest]|] eqn:E; try done. case_bool_decide as Hn; [|done].
      apply list_elem_of_singleton in Hn as ->. apply below_Some in E. by destruct (Hp rest).
    + intros u rest ->. rewrite Hin, <- app_assoc in Hp. by destruct (Hp (u :: rest)).
Qed.

(** The library of [op_store]: [a] moves into [sub]. *)
Definition mv_head : SeafCommit := tree_commit c_1 op_root None.
Definition mv_world : World := mkWorld (toy_db c_1) {[c_1 := mv_head]} op_store [] 0.
Definition mv_repo : SeafRepo := toy_repo mv_world.
Definition mv_srcs : list SeafDirent := [toy_dirent 0x8000 EMPTY_SHA1 "a"].
Definition mv_dsts : list SeafDirent := [dup_dirent 1 "me" (toy_dirent 0x8000 EMPTY_SHA1 "a") "b"].
Definition mv_result : tree_result * fs_store :=
  move_tree toy_hash ["a"] "/" mv_srcs "/sub" mv_dsts false "me" mv_repo mv_head toy_oracle op_store.

Lemma op_at_root : at_dir toy_hash 1 op_store op_root "/" root_entries.
Proof. split; [apply op_library|vm_compute; reflexivity]. Qed.

Lemma mv_new : match mv_result.1 with TreeNew _ _ _ => true | _ => false end = true.
Proof. vm_compute. reflexivity. Qed.


(** The handler accepts the move of [/sub] into [/sub], and in the tree it makes there is
    neither the directory nor its file.  The ids of this library spell its trees. *)
Definition name_hash (v : Z) (l : list SeafDirent) : string :=
  foldr (fun d s => "(" +:+ d_name d +:+ (if S_ISDIR (d_mode d) then d_id d else EmptyString) +:+ ")" +:+ s) EmptyString l.
Definition self_sub : list SeafDirent := [toy_dirent 0x8000 EMPTY_SHA1 "f.txt"].
Definition self_root : list SeafDirent :=
  [toy_dirent 0x4000 (name_hash 1 self_sub) "sub"; toy_dirent 0x8000 EMPTY_SHA1 "a"].
Definition self_store : fs_store :=
  {[ name_hash 1 self_root := ODir (mkDir 1 (name_hash 1 self_root) self_root);
     name_hash 1 self_sub := ODir (mkDir 1 (name_hash 1 self_sub) self_sub) ]}.
Definition self_head : SeafCommit := tree_commit c_1 (name_hash 1 self_root) None.
Definition self_world : World := mkWorld (toy_db c_1) {[c_1 := self_head]} self_store [] 0.

Definition self_move (src_path name dst_path : string) (replace : bool) : option (tree_result * fs_store) :=
  match seaf_repo_manager_move_multiple_files name_hash ([] : list (Provider unit)) toy_rid (format_dir_path src_path)
          [name] toy_rid (format_dir_path dst_path) [name] replace "me" self_world tt with
  | CopyReread op w s => Some (op_tree op (toy_repo self_world) self_head toy_oracle self_store)
  | _ => None
  end.

Definition self_has (r : option (tree_result * fs_store)) (path : list string) : option bool :=
  match r with
  | Some (TreeNew root _ _, st) => Some (negb (is_none (view_root 1 st root path)))
  | _ => None
  end.

Example move_sub_into_itself :
  is_none (view_root 1 self_store (name_hash 1 self_root) ["sub"; "f.txt"]) = false /\
  self_has (self_move "/" "sub" "/sub/" false) ["a"] = Some true /\
  self_has (self_move "/" "sub" "/sub/" false) ["sub"] = Some false /\
  self_has (self_move "/" "sub" "/sub/" false) ["sub"; "sub"; "f.txt"] = Some false.
Proof. vm_compute. done. Qed.

(** A move with [replace] to the place where the entry is already deletes it. *)
Example move_onto_itself_deletes :
  is_none (view_root 1 self_store (name_hash 1 self_root) ["sub"; "f.txt"]) = false /\
  self_has (self_move "/sub" "f.txt" "/sub" true) ["sub"] = Some true /\
  self_has (self_move "/sub" "f.txt" "/sub" true) ["sub"; "f.txt"] = Some false.
Proof. vm_compute. done. Qed.
