(* ===== verification/PutFileProof.v ===== *)
(** * What replacing files and creating directories do

    A conditional replacement publishes only on the head the caller names.  Creating a
    directory with its parents adds the missing directories, empty, and nothing else. *)

From S2P Require Import Prelude Hex Paths Sql CfPath FsObj FsMgr Walk Diff Merge CommitMgr RepoOp RepoOpProof LibView Repo CfV2Acl Publish PublishProof CfFileop Handlers HandlersProof PutFile.

#[local] Arguments string_take : simpl never.

(** ** Replacing a file while the head is the expected one *)

Section put.
Context (sha1 : list Z -> list Z) (sha256 : list Z -> string).
Context (dir_hash : Z -> list SeafDirent -> string) (Hcf : forall v, collision_free dir_hash v).
Context (fuel : nat) (se : Session) (g_utf8_validate : string -> bool).
Context {S : Type} (providers : list (Provider S)).
Context (passwd_set : string -> option string -> bool).
Context (index_blocks : World -> string -> option (string * Z) * World).

(** What a strict request goes through before [gen_new_commit]: the head it starts from is
    the one the caller names. *)
Definition expected (w : World) (repo_id : string) (head_id : option string) (repo : SeafRepo) (head : SeafCommit) : Prop :=
  seaf_repo_manager_get_repo (w_db w) (w_commits w) repo_id = Some repo /\
  seaf_commit_manager_get_commit (w_commits w) (text head_id) = Some head /\ commit_id head = text head_id /\
  r_virtual repo = None.

Lemma put_if_head_started o readable repo_id temp parent_dir file_name user head_id mtime w0 s0 :
  match seaf_repo_manager_put_file_if_head dir_hash se g_utf8_validate providers passwd_set index_blocks o readable repo_id
          temp parent_dir file_name user head_id mtime w0 s0 with
  | PutRefused _ _ => True
  | PutSame _ _ _ => False
  | PutCheck file_id a repo head fop w1 s1 => expected w0 repo_id head_id repo head /\ ga_repo_id a = repo_id
  | PutRunning op repo head w1 s1 =>
      expected w0 repo_id head_id repo head /\ op_repo_id op = repo_id /\ op_concurrent op = false /\ op_retries op = false /\
      exists hex size, index_blocks w0 temp = (Some (hex, size), w1) /\
        op_tree op = put_tree dir_hash (get_canonical_path parent_dir) (snprintf_path ("Modified " +:+ quoted file_name))
          (seaf_dirent_new (dir_version_from_repo_version (r_version repo)) hex STD_FILE_MODE file_name
             (if mtime <=? 0 then o_now o else mtime) user size)
  end.
Proof.
  unfold seaf_repo_manager_put_file_if_head, put_file_with_condition. cbn [andb].
  destruct (is_object_id_valid head_id) eqn:Hv; [|exact I]. destruct readable; [|exact I]. cbn [negb].
  destruct (seaf_repo_manager_get_repo _ _ repo_id) as [repo|] eqn:Er; [|exact I].
  destruct head_id as [h|]; [|done]. cbn [text]. change (default (b_commit_id (r_head repo)) (Some h)) with h.
  destruct (seaf_commit_manager_get_commit (w_commits w0) h) as [head|] eqn:Eh; [|exact I].
  destruct (is_none (r_virtual repo)) eqn:Evr; [|exact I]. cbn [negb orb]. destruct (negb (r_status repo =? _)); [exact I|].
  destruct (negb (strcmp h _ =? 0)); [exact I|]. destruct (_ || _); [exact I|].
  destruct (cf_fileop_prepare _ _ _) as [[r e] s2]. destruct (r <? 0); [exact I|]. destruct (negb (crypt_ok _ _ _ _)); [exact I|].
  assert (Hexp : expected w0 repo_id (Some h) repo head).
  { split_and!; try done; [|by destruct (r_virtual repo)]. cbn. unfold seaf_commit_manager_get_commit in Eh.
    destruct (negb _); [done|]. destruct (w_commits w0 !! h); [|done]. by injection Eh as <-. }
  destruct (index_blocks w0 temp) as [[[hex size]|] w2]; [|exact I]. destruct (match _ with inl _ => false | inr _ => _ end).
  - by split.
  - split_and!; try done. by exists hex, size.
Qed.

(** The tree an attempt made. *)
Lemma put_tree_view canon_path desc e repo head o st root d names st' l x :
  put_tree dir_hash canon_path desc e repo head o st = (TreeNew root d names, st') ->
  at_dir dir_hash (r_version repo) st (root_id head) canon_path l -> lookup_name (d_name e) l = Some x ->
  storable (r_version repo) st e ->
  library_ok dir_hash (r_version repo) st' /\ is_Some (seaf_fs_manager_get_seafdir st' (r_version repo) root) /\
  forall path, view_root (r_version repo) st' root path =
    put_entry (r_version repo) st (view_root (r_version repo) st (root_id head)) (strchr_parts (skip_slash canon_path)) e path.
Proof.
  unfold put_tree, of_rewritten. intros E Hat Hx Hst.
  destruct (do_put_file dir_hash (o_dir_write o) _ _ _ _ _ _) as [[r|] st1] eqn:Ep; [|done].
  injection E as <- _ _ <-. apply rewrite_at_done in Ep.
  destruct (put_file_refines dir_hash (r_version repo) (o_now o) (Hcf _) st (root_id head) canon_path l e x Hat Hst Hx)
    as (root' & st2 & E2 & Hsub & Hlib & Hview).
  unfold do_put_file in E2. rewrite Ep in E2. injection E2 as -> ->. cbn [rw_id]. split_and!; try done.
  specialize (Hview (strchr_parts (skip_slash canon_path) ++ [d_name e])). revert Hview. unfold view_root, put_entry.
  rewrite (proj2 (below_Some _ _ [d_name e]) eq_refl), String.eqb_refl. cbn [view].
  rewrite lookup_name_cons, String.eqb_refl. cbn [mbind option_bind].
  destruct (seaf_fs_manager_get_seafdir st2 _ root'); [by eauto|done].
Qed.

(** C11: a replacement of a file under the condition that the head is [head_id], whatever
    other processes do meanwhile.  If it reports a commit, the one transition that moved
    the head found it at [head_id]; the new head has [head_id] as its parent and a tree
    that differs from that of [head_id] by the replaced file only.  If the contents were
    the same, success is reported only after a transaction that found the head at
    [head_id] and left it there. *)
Theorem conditional_put_linearizes o readable repo_id temp parent_dir file_name user head_id mtime w0 s0 :
  match seaf_repo_manager_put_file_if_head dir_hash se g_utf8_validate providers passwd_set index_blocks o readable repo_id
          temp parent_dir file_name user head_id mtime w0 s0 with
  | PutRefused _ _ => True
  | PutSame _ _ _ => False
  | PutCheck file_id a repo head fop w1 s1 =>
      forall o acl changes w s r w' s',
        check_step sha256 fuel se g_utf8_validate providers o file_id a repo head fop (CheckB acl changes) w s
          = Some (CheckDone r, w', s') ->
        match r with
        | inr id => id = file_id /\ head_of w' repo_id = Some (text head_id) /\
                    exists h, head_of w repo_id = Some h /\ string_take 40 h = text head_id
        | inl _ => head_of w' repo_id = head_of w repo_id
        end
  | PutRunning op repo head w1 s1 =>
      forall tr ret names id w s,
        op_run sha1 sha256 dir_hash fuel se g_utf8_validate providers op (OpTry repo head []) w1 s1 tr
          (OpDone ret names (Some id)) w s ->
        exists hex size t new tr1 wa wb tr2, index_blocks w0 temp = (Some (hex, size), w1) /\
          tr = tr1 ++ (wa, wb) :: tr2 /\ Forall (keeps_head op) (tr1 ++ tr2) /\
          (exists h, head_of wa repo_id = Some h /\ string_take 40 h = text head_id) /\ head_of wb repo_id = Some id /\
          stored_commit (w_commits wb) new /\ commit_id new = id /\ parent_id new = Some (text head_id) /\
          root_id new = string_take 40 (at_root t) /\
          forall l x, at_dir dir_hash (r_version repo) (at_before t) (root_id head) (get_canonical_path parent_dir) l ->
            lookup_name file_name l = Some x ->
            forall path, view_root (r_version repo) (w_fs wb) (at_root t) path =
              put_entry (r_version repo) (at_before t) (view_root (r_version repo) (at_before t) (root_id head))
                (strchr_parts (skip_slash (get_canonical_path parent_dir)))
                (seaf_dirent_new (dir_version_from_repo_version (r_version repo)) hex STD_FILE_MODE file_name
                   (if mtime <=? 0 then o_now o else mtime) user size) path
  end.
Proof.
  pose proof (put_if_head_started o readable repo_id temp parent_dir file_name user head_id mtime w0 s0) as H.
  destruct (seaf_repo_manager_put_file_if_head _ _ _ _ _ _ _ _ _ _ _ _ _ _ _ _ _)
    as [| |file_id a repo head fop w1 s1|op repo head w1 s1]; [done|done| |].
  - destruct H as ((Hrepo & Hhead & Hid & _) & _). intros o' acl changes w s r w' s'. cbn [check_step].
    destruct (get_repo_of _ _ _ _ Hrepo) as [Hname Hrid].
    destruct (phase_b _ _ _ _ _ _ _ _ _ _ _ _) as [[published gc] w2] eqn:E. intros [= E1].
    apply phase_b_spec in E as [_ [[Hneg Hdb]|(-> & _ & _ & (h & Hh & Hold) & _ & _ & Hb)]].
    + destruct (Z.ltb_spec published 0); [|lia]. injection E1 as <- <- _. unfold head_of. by rewrite Hdb.
    + injection E1 as <- <- _. unfold gnc_branch, seaf_branch_set_commit in Hb, Hh. cbn in Hb, Hh.
      rewrite Hname, Hrid in Hb, Hh. unfold head_of. cbn. rewrite Hb, lookup_insert_eq.
      split; [done|]. split; [|exists h; by rewrite <- Hold].
      f_equal. rewrite Hid. assert (Hlen : String.length (text head_id) = 40%nat).
      { rewrite <- Hid. eapply stored_commit_length. by eapply get_commit_stored. }
      by rewrite <- Hlen, string_take_id.
  - destruct H as ((Hrepo & _ & Hid & _) & <- & Hno & Hnr & hex & size & Hi & Htree). intros tr ret names id w s Hrun.
    eapply (run_running _ _ _ _ _ _ _ _ repo head) in Hrun as (_ & _ & t & new & merged & wa & wb & Hl); [|by split].
    destruct (landed_alone _ _ _ _ _ _ _ _ _ _ _ Hno Hl) as (-> & Hnid & Hpar & Hroot & Hst & Hfs & Hh1 & Hh2).
    destruct Hl as [(tr1 & tr2 & Htr & Hk) Hat Hfirst _ _ _ _]. destruct (Hfirst Hnr) as [Hr1 Hr2].
    rewrite Hr2, Hid in Hpar, Hh1. exists hex, size, t, new, tr1, wa, wb, tr2. split_and!; try done.
    { destruct Hh1 as (h & Hh & ->). by exists h. }
    intros l x Hdir Hx path. unfold attempted in Hat. rewrite Htree, Hr1, Hr2 in Hat.
    destruct (put_tree_view _ _ _ _ _ _ _ _ _ _ _ l x Hat Hdir) as (Hlib & Hsome & Hview).
    { by rewrite d_name_dirent_new. }
    { unfold storable. rewrite S_ISDIR_dirent_new. vm_compute. done. }
    rewrite <- Hview. apply view_root_mono; [done| |done]. intros i dir e0. apply (tidy_closed _ _ (lib_tidy _ _ _ Hlib)).
Qed.
End put.

(** ** Paths spelled with single slashes *)

(** With or without a leading slash. *)
Definition spells (path : string) (ps : list string) : Prop :=
  Forall is_component ps /\
  (path = spell ps \/ match ps with c :: ps => path = c +:+ spell ps | [] => False end).

Lemma strchr_parts_spell c ps : is_component c -> Forall is_component ps -> strchr_parts (c +:+ spell ps) = c :: ps.
Proof.
  revert c. induction ps as [|d ps IH]; intros c [Hne Hc] Hps.
  - cbn [spell]. rewrite string_nil_r. clear -Hne Hc. induction c as [|x c IH]; [done|]. cbn in Hc.
    apply orb_false_iff in Hc as [Hx Hc]. cbn [strchr_parts]. rewrite Hx. destruct c as [|y c]; [done|]. by rewrite IH.
  - apply Forall_cons in Hps as [Hd Hps]. cbn [spell]. specialize (IH d Hd Hps). clear -Hne Hc IH.
    induction c as [|x c IHc]; [done|]. cbn in Hc. apply orb_false_iff in Hc as [Hx Hc].
    change (String x c +:+ ?s) with (String x (c +:+ s)). cbn [strchr_parts]. rewrite Hx.
    destruct c as [|y c].
    + change ("" +:+ ?s) with s. change (String slash d +:+ ?s) with (String slash (d +:+ s)).
      cbn [strchr_parts]. change (is_slash slash) with true. cbv iota. by rewrite IH.
    + by rewrite IHc.
Qed.

Lemma skip_slash_component c s : is_component c -> skip_slash (c +:+ s) = c +:+ s.
Proof.
  intros [Hne Hc]. destruct c as [|x c]; [done|]. cbn in Hc. apply orb_false_iff in Hc as [Hx _].
  change (String x c +:+ s) with (String x (c +:+ s)). cbn [skip_slash]. by rewrite Hx.
Qed.

Lemma spells_parts path ps : spells path ps -> strchr_parts (skip_slash path) = ps.
Proof.
  intros [Hps [->|H]].
  - destruct ps as [|c ps]; [done|]. apply Forall_cons in Hps as [Hc Hps]. cbn [spell].
    change (String slash c +:+ ?s) with (String slash (c +:+ s)). cbn [skip_slash]. change (is_slash slash) with true. cbv iota.
    by apply strchr_parts_spell.
  - destruct ps as [|c ps]; [done|]. subst path. apply Forall_cons in Hps as [Hc Hps].
    rewrite skip_slash_component by done. by apply strchr_parts_spell.
Qed.

Lemma spells_components path ps : spells path ps -> components path = ps.
Proof.
  intros [Hps [->|H]]; [by apply components_spell|]. destruct ps as [|c ps]; [done|]. subst path.
  rewrite <- components_rooted. change (String slash (c +:+ spell ps)) with (spell (c :: ps)). by apply components_spell.
Qed.

Lemma spells_snoc path ps c : spells path ps -> is_component c -> spells (path +:+ "/" +:+ c) (ps ++ [c]).
Proof.
  intros [Hps H] Hc. split; [apply Forall_app; by split; [|apply Forall_singleton]|].
  assert (Hs : spell [c] = "/" +:+ c) by (cbn [spell]; by rewrite string_nil_r).
  destruct H as [->|H]; [left; by rewrite spell_app, Hs|]. destruct ps as [|x ps]; [done|]. right. subst path.
  cbn [app]. by rewrite spell_app, Hs, string_app_assoc.
Qed.

Lemma string_take_app a b : string_take (String.length a) (a +:+ b) = a.
Proof.
  induction a as [|x a IH]; [done|].
  change (String x (string_take (String.length a) (a +:+ b)) = String x a). by rewrite IH.
Qed.

(** The last component is cut off. *)
Lemma spells_cut path ps c :
  spells path (ps ++ [c]) -> spells (string_take (String.length path - (String.length c + 1)) path) ps.
Proof.
  intros [Hps H]. apply Forall_app in Hps as [Hps Hc]. rewrite Forall_singleton in Hc.
  assert (Hs : spell [c] = "/" +:+ c) by (cbn [spell]; by rewrite string_nil_r).
  assert (Hcut : forall t, string_take (String.length (t +:+ "/" +:+ c) - (String.length c + 1)) (t +:+ "/" +:+ c) = t).
  { intros t. rewrite !string_length_app. change (String.length "/") with 1%nat.
    replace (String.length t + (1 + String.length c) - (String.length c + 1))%nat with (String.length t) by lia.
    apply string_take_app. }
  split; [done|]. destruct H as [->|H].
  - left. by rewrite spell_app, Hs, Hcut.
  - destruct ps as [|x ps]; cbn [app] in H.
    + left. subst path. cbn [spell]. rewrite string_nil_r.
      replace (String.length c - (String.length c + 1))%nat with 0%nat by lia. by destruct c.
    + right. subst path. rewrite spell_app, Hs, <- string_app_assoc. by rewrite Hcut.
Qed.

(** ** Creating the missing directories *)

(** The scan stops below the deepest folder that exists. *)
Lemma mkdir_scan_spec exists_at (known : list string -> bool) ps :
  (forall t q f, spells t q -> exists_at t f = known (q ++ [f])) ->
  forall fs abs_path uncre, Forall is_component fs -> spells abs_path (ps ++ fs) ->
  exists pre dirs abs', mkdir_scan exists_at (reverse fs) abs_path uncre = (abs', dirs ++ uncre) /\ fs = pre ++ dirs /\
    spells abs' (ps ++ pre) /\ (pre <> [] -> known (ps ++ pre) = true) /\
    (forall d ds, dirs = d :: ds -> known (ps ++ pre ++ [d]) = false).
Proof.
  intros Hk. induction fs as [|f fs IH] using rev_ind; intros abs_path uncre Hfs Hs.
  - exists [], [], abs_path. by split_and!.
  - apply Forall_app in Hfs as [Hfs Hf]. rewrite Forall_singleton in Hf. rewrite reverse_snoc.
    destruct f as [|c f]; [by destruct Hf|]. cbn [mkdir_scan].
    rewrite app_assoc in Hs. pose proof (spells_cut _ _ _ Hs) as Hcut.
    rewrite (Hk _ _ _ Hcut). destruct (known ((ps ++ fs) ++ [String c f])) eqn:Ek.
    + exists (fs ++ [String c f]), [], (string_take (String.length abs_path - (String.length (String c f) + 1)) abs_path +:+ "/" +:+ String c f).
      split_and!; try done; [by rewrite app_nil_r|rewrite app_assoc; by apply spells_snoc|by rewrite app_assoc].
    + destruct (IH _ (String c f :: uncre) Hfs Hcut) as (pre & dirs & abs' & -> & -> & H1 & H2 & H3).
      exists pre, (dirs ++ [String c f]), abs'. split_and!; try done; [by rewrite <- app_assoc|by rewrite app_assoc|].
      intros d ds E. destruct dirs as [|d' dirs]; cbn in E; injection E as <- _; [|by apply (H3 d' dirs)].
      by rewrite <- app_assoc, app_nil_r in Ek.
Qed.

Section mkdir.
Context (dir_hash : Z -> list SeafDirent -> string) (version : Z) (Hcf : collision_free dir_hash version).

(** The view with empty directories [dirs] inside each other below [parts]. *)
Definition with_dirs (v : list string -> option SeafDirent) (parts dirs path : list string) : option SeafDirent :=
  match below parts path with
  | Some (name :: rest) =>
      if bool_decide (head dirs = Some name) then
        if bool_decide (name :: rest `prefix_of` dirs)
        then Some (attr (new_dir_dent version 0 (List.last (name :: rest) name)))
        else None
      else v path
  | _ => v path
  end.

Lemma attr_posted now d u : attr (posted (new_dir_dent version now d) u) = attr (new_dir_dent version 0 u).
Proof.
  unfold posted, new_dir_dent, attr. rewrite !S_ISDIR_dirent_new. change (S_ISDIR S_IFDIR) with true. cbv iota.
  unfold seaf_dirent_new. change (S_ISREG S_IFDIR) with false. cbv iota.
  destruct (0 <? dir_version_from_repo_version version) eqn:E; cbn [d_version d_id d_mode d_mtime d_modifier d_size];
    change (S_ISREG S_IFDIR) with false; cbv iota; by rewrite E.
Qed.

(** An empty directory that was put is there and empty. *)
Lemma put_dir_view st v parts now d path :
  put_entry version st v parts (posted (new_dir_dent version now d) d) path = with_dirs v parts [d] path.
Proof.
  unfold put_entry, with_dirs. destruct (below parts path) as [[|name rest]|]; try done.
  unfold posted at 1. rewrite d_name_dirent_new. cbn [head].
  destruct (String.eqb_spec name d) as [->|Hne]; [|by rewrite bool_decide_false by congruence].
  rewrite bool_decide_true by done. cbn [view]. rewrite lookup_name_cons. unfold posted at 1. rewrite d_name_dirent_new.
  rewrite String.eqb_refl. cbn [mbind option_bind]. destruct rest as [|y rest].
  - rewrite bool_decide_true by done. by rewrite attr_posted.
  - rewrite bool_decide_false by (intros [k [=]]; done). unfold posted, new_dir_dent.
    rewrite S_ISDIR_dirent_new, S_ISDIR_dirent_new. change (S_ISDIR S_IFDIR) with true. cbv iota.
    rewrite !d_id_dirent_new. unfold seaf_fs_manager_get_seafdir. by rewrite String.eqb_refl.
Qed.

Lemma below_app parts x path : below (parts ++ [x]) path =
  match below parts path with Some (y :: rest) => if String.eqb x y then Some rest else None | _ => None end.
Proof.
  revert path. induction parts as [|p parts IH]; intros path; cbn [app below].
  - destruct path as [|y path]; [done|]. by destruct (String.eqb x y).
  - destruct path as [|y path]; [done|]. destruct (String.eqb p y); [apply IH|done].
Qed.

Lemma with_dirs_ext v v' parts dirs path : (forall p, v p = v' p) -> with_dirs v parts dirs path = with_dirs v' parts dirs path.
Proof. intros H. unfold with_dirs. by rewrite H. Qed.

Lemma last_default (x : string) l : forall d d', List.last (x :: l) d = List.last (x :: l) d'.
Proof. revert x. induction l as [|y l IH]; intros x d d'; [done|]. exact (IH y d d'). Qed.

Lemma with_dirs_compose v parts d d2 ds path :
  with_dirs (with_dirs v parts [d]) (parts ++ [d]) (d2 :: ds) path = with_dirs v parts (d :: d2 :: ds) path.
Proof.
  unfold with_dirs at 1. rewrite below_app.
  assert (Hother : below parts path = Some [] \/ below parts path = None \/
    (exists y rest, below parts path = Some (y :: rest) /\ y <> d) \/ (exists rest, below parts path = Some (d :: rest))).
  { destruct (below parts path) as [[|y rest]|]; [by auto| |by auto]. right. right.
    destruct (decide (y = d)) as [->|]; eauto. }
  unfold with_dirs. destruct Hother as [->|[->|[(y & rest & -> & Hy)|(rest & ->)]]]; try done.
  - rewrite (proj2 (String.eqb_neq d y)) by congruence. cbn [head].
    rewrite !(bool_decide_false (Some d = Some y)) by congruence. done.
  - rewrite String.eqb_refl. cbn [head]. rewrite !(bool_decide_true (Some d = Some d)) by done.
    destruct rest as [|z rest].
    + rewrite !bool_decide_true by (by eexists). done.
    + destruct (decide (d2 = z)) as [->|Hz].
      * rewrite (bool_decide_true (Some z = Some z)) by done.
        rewrite (bool_decide_ext (d :: z :: rest `prefix_of` d :: z :: ds) (z :: rest `prefix_of` z :: ds)).
        { change (List.last (d :: z :: rest) d) with (List.last (z :: rest) d). by rewrite (last_default z rest d z). }
        split; [apply prefix_cons_inv_2|apply prefix_cons].
      * rewrite (bool_decide_false (Some d2 = Some z)) by congruence.
        rewrite (bool_decide_false (d :: z :: rest `prefix_of` [d])) by (intros [k [=]]).
        rewrite bool_decide_false; [done|]. intros [k [= E _]]. congruence.
Qed.

Lemma mkdir_posts_view write_ok now dirs : forall d ps abs root st l root' st',
  spells abs ps -> Forall is_component (d :: dirs) -> at_dir dir_hash version st root abs l -> lookup_name d l = None ->
  mkdir_posts dir_hash write_ok version now (d :: dirs) root abs st = (Some root', st') ->
  library_ok dir_hash version st' /\
  forall path, view_root version st' root' path = with_dirs (view_root version st root) ps (d :: dirs) path.
Proof.
  induction dirs as [|d2 dirs IH]; intros d ps abs root st l root' st' Hs Hc Hat Hn E;
    cbn [mkdir_posts] in E; apply Forall_cons in Hc as [Hd Hc].
  all: destruct (do_post_file _ _ _ _ _ _ _ _) as [[r|] st1] eqn:E1; [|done]; apply rewrite_at_done in E1;
    destruct (post_file_outcome dir_hash version now Hcf st root abs l (new_dir_dent version now d) d Hat)
      as (root1 & st2 & E2 & Hsub & Hlib & Hv);
    [intros _; unfold new_dir_dent; rewrite d_id_dirent_new; unfold seaf_fs_manager_get_seafdir; rewrite String.eqb_refl; by eauto
    |unfold new_dir_dent; rewrite d_name_dirent_new; by apply unique_filename_free|];
    unfold do_post_file, do_post_file_replace in E2; rewrite E1 in E2; injection E2 as -> ->; cbn [rw_id] in E;
    rewrite (spells_parts _ _ Hs) in Hv;
    assert (Hv1 : forall path, view_root version st2 root1 path = with_dirs (view_root version st root) ps [d] path)
      by (intros path; by rewrite Hv, put_dir_view).
  - injection E as <- <-. by split.
  - assert (Hdir : is_dir_at version st2 root1 (ps ++ [d])).
    { assert (Hself : view_root version st2 root1 (ps ++ [d]) = Some (attr (new_dir_dent version 0 d))).
      { rewrite Hv1. unfold with_dirs. rewrite (proj2 (below_Some _ _ [d]) eq_refl). cbn [head List.last].
        by rewrite !bool_decide_true by done. }
      split; [|destruct (ps ++ [d]) eqn:Eps; [by destruct ps|]; eexists; split; [exact Hself|];
        rewrite attr_mode; unfold new_dir_dent; rewrite S_ISDIR_dirent_new; done].
      unfold view_root in Hself. destruct (seaf_fs_manager_get_seafdir st2 version root1); [by eauto|done]. }
    apply entries_at_is_dir in Hdir as [l1 Hl1]; [|apply Hlib].
    assert (l1 = []) as ->.
    { destruct l1 as [|x l1]; [done|]. exfalso.
      pose proof (view_dir_parts version st2 root1 (ps ++ [d]) _ (d_name x) [] Hl1) as Hx.
      cbn [view] in Hx. rewrite lookup_name_cons, String.eqb_refl in Hx. cbn in Hx. rewrite Hv1 in Hx.
      unfold with_dirs in Hx. rewrite <- app_assoc in Hx. rewrite (proj2 (below_Some _ _ [d; d_name x]) eq_refl) in Hx.
      cbn [head] in Hx. rewrite bool_decide_true in Hx by done. rewrite bool_decide_false in Hx by (intros [k [=]]). done. }
    pose proof (spells_snoc _ _ _ Hs Hd) as Hs1.
    assert (Hat1 : at_dir dir_hash version st2 root1 (abs +:+ "/" +:+ d) []) by (split; [done|]; by rewrite (spells_parts _ _ Hs1)).
    destruct (IH d2 _ _ _ _ _ _ _ Hs1 Hc Hat1 eq_refl E) as [Hlib' Hv'].
    split; [done|]. intros path. rewrite Hv', <- with_dirs_compose. by apply with_dirs_ext.
Qed.

(** creating a directory with its parents, with any writes failing and no file in its
    way: it fails; or the whole path is there already and nothing is written; or the new
    tree has, below the deepest directory of the path that exists, the missing
    directories inside each other, empty, and every other path as it was. *)
Theorem mkdir_adds_missing st ps relative abs_path repo head o r st' :
  r_version repo = version -> library_ok dir_hash version st -> is_dir_at version st (root_id head) ps ->
  Forall is_component (pieces relative) -> spells abs_path (ps ++ pieces relative) ->
  (forall pre e, pre `prefix_of` pieces relative -> pre <> [] -> view_root version st (root_id head) (ps ++ pre) = Some e ->
     S_ISDIR (d_mode e) = true) ->
  mkdir_tree dir_hash relative abs_path repo head o st = (r, st') ->
  match r with
  | TreeFails => True
  | TreeSame => st' = st /\ is_dir_at version st (root_id head) (ps ++ pieces relative)
  | TreeNew root' desc names => names = [] /\ library_ok dir_hash version st' /\
      exists pre d ds, pieces relative = pre ++ d :: ds /\ is_dir_at version st (root_id head) (ps ++ pre) /\
        view_root version st (root_id head) (ps ++ pre ++ [d]) = None /\
        forall path, view_root version st' root' path =
          with_dirs (view_root version st (root_id head)) (ps ++ pre) (d :: ds) path
  end.
Proof.
  intros Hrv Hlib Hps Hrel Habs Hdirs. unfold mkdir_tree. rewrite Hrv.
  set (known := fun q => negb (is_none (view_root version st (root_id head) q))).
  assert (Hk : forall t q f, spells t q ->
    negb (is_none (check_file_exists version st (root_id head) t f)) = known (q ++ [f])).
  { intros t q f Ht. unfold known. rewrite check_file_exists_view by apply Hlib. rewrite (spells_components _ _ Ht).
    by destruct (view_root _ _ _ _). }
  destruct (mkdir_scan_spec (fun dir name => negb (is_none (check_file_exists version st (root_id head) dir name))) known ps
    Hk _ _ [] Hrel Habs) as (pre & dirs & abs' & -> & Hfs & Hs & Hpre & Hmiss).
  rewrite app_nil_r.
  assert (Hdir : is_dir_at version st (root_id head) (ps ++ pre)).
  { destruct (decide (pre = [])) as [->|Hne]; [by rewrite app_nil_r|]. specialize (Hpre Hne). unfold known in Hpre.
    destruct (view_root version st (root_id head) (ps ++ pre)) as [e|] eqn:Ee; [|done].
    split; [apply Hps|]. destruct (ps ++ pre) eqn:Ep; [done|]. exists e. split; [done|].
    apply (Hdirs pre); [by exists dirs|done|]. by rewrite Ep. }
  destruct dirs as [|d ds].
  - intros [= <- <-]. split; [done|]. by rewrite Hfs, app_nil_r.
  - pose proof Hdir as Hdir'. apply entries_at_is_dir in Hdir' as [l Hl]; [|apply Hlib].
    assert (Hnone : view_root version st (root_id head) (ps ++ pre ++ [d]) = None).
    { specialize (Hmiss d ds eq_refl). unfold known in Hmiss. by destruct (view_root _ _ _ _). }
    destruct (mkdir_posts _ _ _ _ _ _ _ _) as [[root|] st1] eqn:E; intros [= <- <-]; [|done].
    rewrite Hfs in Hrel. apply Forall_app in Hrel as [_ Hrel].
    assert (Hat : at_dir dir_hash version st (root_id head) abs' l) by (split; [done|]; by rewrite (spells_parts _ _ Hs)).
    assert (Hfree : lookup_name d l = None).
    { rewrite app_assoc, (view_dir_parts _ _ _ _ l) in Hnone by done. cbn [view] in Hnone. by destruct (lookup_name d l). }
    destruct (mkdir_posts_view _ _ ds d (ps ++ pre) abs' _ _ l _ _ Hs Hrel Hat Hfree E) as [Hlib' Hv].
    split_and!; try done. exists pre, d, ds. by split_and!.
Qed.
End mkdir.

(** ** Witnesses *)

Definition cput_start : put_started (S := list string) :=
  seaf_repo_manager_put_file_if_head toy_hash toy_session (fun _ => true) [counting] (fun _ _ => true) up_index toy_oracle
    true toy_rid "/tmp/x" "/sub" "f.txt" (Some "me") (Some c_1) 0 up_world [].

Definition cput_runs : bool :=
  match cput_start with
  | PutRunning op repo head w s =>
      match op_exec toy_sha1 toy_sha256 toy_hash 5 toy_session (fun _ => true) [counting] op toy_oracle 6 []
              (OpTry repo head []) w s with
      | Some (_, OpDone 0 [] (Some _), _, _) => true
      | _ => false
      end
  | _ => false
  end.

Lemma cput_runs_true : cput_runs = true.
Proof. vm_compute. reflexivity. Qed.

Lemma conditional_put_linearizes_witness :
  exists wa wb h id new, head_of wa toy_rid = Some h /\ string_take 40 h = c_1 /\ head_of wb toy_rid = Some id /\
    commit_id new = id /\ parent_id new = Some c_1.
Proof.
  pose proof (conditional_put_linearizes toy_sha1 toy_sha256 toy_hash toy_hash_collision_free 5 toy_session (fun _ => true)
    [counting] (fun _ _ => true) up_index toy_oracle true toy_rid "/tmp/x" "/sub" "f.txt" (Some "me") (Some c_1) 0 up_world [])
    as H.
  pose proof cput_runs_true as Hr. unfold cput_runs in Hr. fold cput_start in H. revert H Hr.
  destruct cput_start as [| | |op repo head w s]; [discriminate 2|discriminate 2|discriminate 2|]. intros H Hr.
  destruct (op_exec _ _ _ _ _ _ _ _ _ _ _ _ _ _) as [[[[tr pc] w'] s']|] eqn:E; [|discriminate Hr].
  destruct pc as [| | |code names [id|]]; try discriminate Hr; destruct code; try discriminate Hr;
    destruct names; try discriminate Hr.
  destruct (H tr 0 [] id w' s') as (hex & size & t & new & tr1 & wa & wb & tr2 & _ & _ & _ & (h & Hh & Ht) & Hb & _ & Hid & Hp & _).
  - eapply (op_exec_run _ _ _ _ _ _ _ _ toy_oracle 6); [apply run_start|exact E].
  - exists wa, wb, h, id, new. split; [exact Hh|]. split; [exact Ht|]. split; [exact Hb|]. split; [exact Hid|exact Hp].
Defined.

Definition mk_head : SeafCommit := tree_commit c_1 op_root None.
Definition mk_repo : SeafRepo := toy_repo (mkWorld (toy_db c_1) {[c_1 := mk_head]} op_store [] 0).
Definition mk_result : tree_result * fs_store := mkdir_tree toy_hash "sub/x/y" "/sub/x/y" mk_repo mk_head toy_oracle op_store.

Lemma mk_new : match mk_result.1 with TreeNew _ _ _ => true | _ => false end = true.
Proof. vm_compute. reflexivity. Qed.

Lemma mkdir_adds_missing_witness :
  exists root' st' pre d ds, pieces "sub/x/y" = pre ++ d :: ds /\
    view_root 1 st' root' (pre ++ [d]) = Some (attr (new_dir_dent 1 0 d)).
Proof.
  pose proof mk_new as H. revert H. destruct mk_result as [[| |root desc nm] st'] eqn:E; intros H;
    [discriminate H|discriminate H|].
  destruct (mkdir_adds_missing toy_hash 1 (toy_hash_collision_free 1) op_store [] "sub/x/y" "/sub/x/y" mk_repo mk_head
    toy_oracle (TreeNew root desc nm) st') as (_ & _ & pre & d & ds & Hp & _ & _ & Hv).
  - vm_compute. reflexivity.
  - exact op_library.
  - split; [vm_compute; eauto|exact I].
  - vm_compute. repeat constructor; discriminate.
  - split; [vm_compute; repeat constructor; discriminate|left; vm_compute; reflexivity].
  - intros pre e [k Hk] Hne He. destruct pre as [|a pre]; [done|]. injection Hk as <- Hk.
    destruct pre as [|b pre]; [vm_compute in He; injection He as <-; vm_compute; reflexivity|].
    injection Hk as <- Hk. destruct pre as [|c pre]; [vm_compute in He; discriminate He|].
    injection Hk as <- Hk. destruct pre; [vm_compute in He; discriminate He|discriminate Hk].
  - exact E.
  - exists root, st', pre, d, ds. split; [exact Hp|]. rewrite Hv. cbn [app]. unfold with_dirs.
    rewrite (proj2 (below_Some _ _ [d]) eq_refl). cbn [head List.last]. rewrite bool_decide_true; [|done].
    rewrite bool_decide_true; [done|by exists ds].
Defined.
