(* ===== verification/MergeSched.v ===== *)
(** * The scheduler of merges ([server/virtual-repo.c], [lib/job-mgr.c])

    A change of a library or of one of its virtual libraries queues a merge.  A timer
    starts queued merges in the threads of a pool, at most [MAX_RUNNING_TASKS] at a
    time and never two of the same virtual library; the main loop hears of the end of
    each.  The state and the three events that change it, and what they guarantee:
    a request is never lost, and it is served while the pool has room. *)

From S2P Require Import Prelude Hex CommitMgr.

Definition MAX_RUNNING_TASKS : nat := 5.

#[local] Arguments Nat.leb : simpl never.
#[local] Arguments Nat.ltb : simpl never.

Record MergeScheduler := mkSched {
  ms_queue : list string;
  ms_running : gset string
}.

(** [seaf_repo_manager_init_merge_scheduler] *)
Definition seaf_repo_manager_init_merge_scheduler : MergeScheduler := mkSched [] ∅.

(** [add_merge_task]: a task that is queued already is dropped. *)
Definition add_merge_task (repo_id : string) (s : MergeScheduler) : MergeScheduler :=
  let task := string_take 36 repo_id in
  if bool_decide (task ∈ ms_queue s) then s else mkSched (ms_queue s ++ [task]) (ms_running s).

(** The loop of [schedule_merge_tasks] with [slots] threads left; [pipe_ok]: the job of
    the task can be created ([ccnet_job_manager_schedule_job]).  The tasks started. *)
Fixpoint schedule_loop (pipe_ok : string -> bool) (slots : nat) (queue : list string) (running : gset string)
  : MergeScheduler * list string :=
  match slots, queue with
  | O, _ | _, [] => (mkSched queue running, [])
  | S slots, task :: queue =>
      if bool_decide (task ∈ running) || negb (pipe_ok task) then (mkSched (queue ++ [task]) running, [])
      else let '(s, started) := schedule_loop pipe_ok slots queue ({[task]} ∪ running) in (s, task :: started)
  end.

Definition schedule_merge_tasks (pipe_ok : string -> bool) (s : MergeScheduler) : MergeScheduler * list string :=
  let n_running := size (ms_running s) in
  if (MAX_RUNNING_TASKS <=? n_running)%nat then (s, [])
  else schedule_loop pipe_ok (MAX_RUNNING_TASKS - n_running) (ms_queue s) (ms_running s).

(** [merge_virtual_repo_done] *)
Definition merge_virtual_repo_done (repo_id : string) (s : MergeScheduler) : MergeScheduler :=
  mkSched (ms_queue s) (ms_running s ∖ {[repo_id]}).

(** ** Executions *)

(** What happens to the scheduler: a request, the timer, the end of a task. *)
Inductive sched_event :=
| Request (repo_id : string)
| Tick (pipe_ok : string -> bool)
| TaskEnds (repo_id : string).

(** What an event makes visible: a merge starts, a merge ends. *)
Inductive merge_mark := Started (repo_id : string) | Ended (repo_id : string).
#[global] Instance merge_mark_eq_dec : EqDecision merge_mark.
Proof. solve_decision. Defined.

(** Only a running task ends. *)
Definition sched_step (e : sched_event) (s : MergeScheduler) : MergeScheduler * list merge_mark :=
  match e with
  | Request id => (add_merge_task id s, [])
  | Tick pipe_ok => let '(s, started) := schedule_merge_tasks pipe_ok s in (s, Started <$> started)
  | TaskEnds id => if bool_decide (id ∈ ms_running s) then (merge_virtual_repo_done id s, [Ended id]) else (s, [])
  end.

Fixpoint sched_run (es : list sched_event) (s : MergeScheduler) : MergeScheduler * list merge_mark :=
  match es with
  | [] => (s, [])
  | e :: es => let '(s, l) := sched_step e s in let '(s, l') := sched_run es s in (s, l ++ l')
  end.

(** ** Every start follows an end: no two merges of one library at a time *)

(** Reading the marks with the set of merges under way: [None] when one starts twice
    or ends without having started, or more than [MAX_RUNNING_TASKS] are under way. *)
Fixpoint marks_ok (l : list merge_mark) (running : gset string) : option (gset string) :=
  match l with
  | [] => Some running
  | Started id :: l =>
      if bool_decide (id ∈ running) || (MAX_RUNNING_TASKS <=? size running)%nat then None
      else marks_ok l ({[id]} ∪ running)
  | Ended id :: l => if bool_decide (id ∈ running) then marks_ok l (running ∖ {[id]}) else None
  end.

Lemma marks_ok_app l l' r r' : marks_ok l r = Some r' -> marks_ok (l ++ l') r = marks_ok l' r'.
Proof.
  revert r. induction l as [|[id|id] l IH]; intros r; cbn; [by intros [= ->]| |]; case_match; try done; apply IH.
Qed.

Record sched_ok (s : MergeScheduler) : Prop := {
  so_queue : NoDup (ms_queue s);
  so_running : (size (ms_running s) <= MAX_RUNNING_TASKS)%nat
}.

(** What a round of the timer does: it starts a prefix of the queue and may move the
    task after it to the end, when its merge is running or its job cannot be created. *)
Inductive round (pipe_ok : string -> bool) (running : gset string) (started : list string) : list string -> list string -> Prop :=
| round_starts q : round pipe_ok running started (started ++ q) q
| round_turns task q :
    task ∈ started \/ task ∈ running \/ pipe_ok task = false ->
    round pipe_ok running started (started ++ task :: q) (q ++ [task]).

Lemma schedule_loop_spec pipe_ok slots q running s started :
  schedule_loop pipe_ok slots q running = (s, started) ->
  round pipe_ok running started q (ms_queue s) /\ ms_running s = list_to_set started ∪ running /\
  (size running + slots = MAX_RUNNING_TASKS ->
   marks_ok (Started <$> started) running = Some (ms_running s) /\ size (ms_running s) <= MAX_RUNNING_TASKS)%nat /\
  Forall (fun id => pipe_ok id = true) started.
Proof.
  revert q running s started. induction slots as [|slots IH]; intros q running s started; cbn.
  { intros [= <- <-]. cbn. split_and!; [apply (round_starts _ _ [])|set_solver|intros; split; [done|lia]|constructor]. }
  destruct q as [|task q].
  { intros [= <- <-]. cbn. split_and!; [apply (round_starts _ _ [] [])|set_solver|intros; split; [done|lia]|constructor]. }
  destruct (bool_decide (task ∈ running) || negb (pipe_ok task)) eqn:E.
  { intros [= <- <-]. cbn. split_and!; [apply (round_turns _ _ []); rewrite orb_true_iff, bool_decide_eq_true, negb_true_iff in E; tauto|set_solver|intros; split; [done|lia]|constructor]. }
  apply orb_false_iff in E as [En Ep]. apply bool_decide_eq_false in En. apply negb_false_iff in Ep.
  destruct (schedule_loop _ _ _ _) as [s' started'] eqn:El. intros [= <- <-].
  destruct (IH _ _ _ _ El) as (Hr & Hs & Hm & Hp). split_and!.
  - inversion Hr; subst; [apply (round_starts _ _ (_ :: _))|apply (round_turns _ _ (_ :: _)); set_unfold; tauto].
  - rewrite Hs. cbn. set_solver.
  - intros Hn.
    assert (Hsz : size ({[task]} ∪ running) = S (size running)) by (rewrite size_union, size_singleton; [done|set_solver]).
    rewrite Hsz in Hm. destruct (Hm ltac:(lia)) as [Hm' ?]. split; [|done]. cbn [fmap list_fmap marks_ok].
    rewrite bool_decide_eq_false_2 by done.
    destruct (Nat.leb_spec MAX_RUNNING_TASKS (size running)); [lia|done].
  - by constructor.
Qed.

(** A round of the timer as a whole. *)
Lemma schedule_merge_tasks_spec pipe_ok s s' started :
  sched_ok s -> schedule_merge_tasks pipe_ok s = (s', started) ->
  round pipe_ok (ms_running s) started (ms_queue s) (ms_queue s') /\ ms_running s' = list_to_set started ∪ ms_running s /\
  marks_ok (Started <$> started) (ms_running s) = Some (ms_running s') /\
  (size (ms_running s') <= MAX_RUNNING_TASKS)%nat.
Proof.
  intros [Hq Hr]. unfold schedule_merge_tasks. destruct (Nat.leb_spec MAX_RUNNING_TASKS (size (ms_running s))).
  - intros [= <- <-]. split_and!; [apply (round_starts _ _ [])|set_solver|done|lia].
  - intros El. destruct (schedule_loop_spec _ _ _ _ _ _ El) as (? & ? & Hm & _).
    destruct Hm as [??]; [lia|]. done.
Qed.

Lemma round_nodup pipe_ok running started q q' : round pipe_ok running started q q' -> NoDup q -> NoDup q'.
Proof.
  destruct 1 as [q|task q _]; intros H.
  - by apply NoDup_app in H as (_ & _ & ?).
  - apply NoDup_app in H as (_ & _ & H). apply NoDup_cons in H as [Hn H].
    apply NoDup_app. split_and!; [done| |apply NoDup_singleton]. intros x Hx ->%list_elem_of_singleton. done.
Qed.

Lemma round_member pipe_ok running started q q' id : round pipe_ok running started q q' -> id ∈ q -> id ∈ q' \/ id ∈ started.
Proof. destruct 1; rewrite !elem_of_app, ?elem_of_cons; naive_solver set_solver. Qed.

Lemma sched_step_ok e s s' l :
  sched_ok s -> sched_step e s = (s', l) -> sched_ok s' /\ marks_ok l (ms_running s) = Some (ms_running s').
Proof.
  intros Hok. pose proof Hok as [Hq Hr]. destruct e as [id|pipe_ok|id]; cbn.
  - intros [= <- <-]. unfold add_merge_task. case_bool_decide as Hi; [done|]. split; [|done]. split; [|done]. cbn.
    apply NoDup_app. split_and!; [done| |apply NoDup_singleton]. intros x Hx ->%list_elem_of_singleton. done.
  - destruct (schedule_merge_tasks _ _) as [s1 started] eqn:E. intros [= <- <-].
    destruct (schedule_merge_tasks_spec _ _ _ _ Hok E) as (Hround & _ & ? & ?).
    split; [|done]. split; [eapply round_nodup; eauto|done].
  - case_bool_decide as Hi; intros [= <- <-]; [|done]. split.
    + split; [done|]. cbn. etransitivity; [|done]. apply subseteq_size. set_solver.
    + cbn. by rewrite bool_decide_eq_true_2.
Qed.

Lemma sched_run_ok es s s' l :
  sched_ok s -> sched_run es s = (s', l) -> sched_ok s' /\ marks_ok l (ms_running s) = Some (ms_running s').
Proof.
  revert s l. induction es as [|e es IH]; intros s l Hok; cbn; [intros [= <- <-]; done|].
  destruct (sched_step e s) as [s1 l1] eqn:E1. destruct (sched_run es s1) as [s2 l2] eqn:E2. intros [= <- <-].
  destruct (sched_step_ok _ _ _ _ Hok E1) as [Hok1 H1]. destruct (IH _ _ Hok1 E2) as [Hok2 H2].
  split; [done|]. by rewrite (marks_ok_app _ _ _ _ H1).
Qed.

Lemma init_ok : sched_ok seaf_repo_manager_init_merge_scheduler.
Proof. split; [constructor|cbn; rewrite size_empty; lia]. Qed.

(** C33: from the start of the server, whatever requests arrive and whenever threads
    end, the merges of one virtual library never overlap, at most five run at a time,
    and no library is queued twice. *)
Theorem merges_never_overlap es s l :
  sched_run es seaf_repo_manager_init_merge_scheduler = (s, l) ->
  marks_ok l ∅ = Some (ms_running s) /\ NoDup (ms_queue s) /\ (size (ms_running s) <= MAX_RUNNING_TASKS)%nat.
Proof.
  intros H. destruct (sched_run_ok _ _ _ _ init_ok H) as [[??] Hm]. done.
Qed.

(** ** Every request is served *)

Lemma sched_step_member e s s' l id :
  sched_ok s -> sched_step e s = (s', l) -> id ∈ ms_queue s -> id ∈ ms_queue s' \/ Started id ∈ l.
Proof.
  intros Hok. destruct e as [id'|pipe_ok|id']; cbn.
  - intros [= <- <-]. unfold add_merge_task. case_bool_decide; cbn; set_solver.
  - destruct (schedule_merge_tasks _ _) as [s1 started] eqn:E. intros [= <- <-] Hi.
    destruct (schedule_merge_tasks_spec _ _ _ _ Hok E) as (Hround & _).
    destruct (round_member _ _ _ _ _ _ Hround Hi); [by left|right]. by apply list_elem_of_fmap_2.
  - case_bool_decide; intros [= <- <-]; auto.
Qed.

(** A tick that finds a free thread. *)
Definition useful (e : sched_event) (s : MergeScheduler) : bool :=
  match e with Tick _ => (size (ms_running s) <? MAX_RUNNING_TASKS)%nat | _ => false end.

(** The number of useful ticks of an execution. *)
Fixpoint useful_ticks (es : list sched_event) (s : MergeScheduler) : nat :=
  match es with
  | [] => 0
  | e :: es => (if useful e s then 1 else 0) + useful_ticks es (sched_step e s).1
  end.

(** The job of [id] can be created at the tick. *)
Definition creates (id : string) (e : sched_event) : Prop :=
  match e with Tick pipe_ok => pipe_ok id = true | _ => True end.

Lemma app_lookup_before {A} (l l' : list A) x k :
  (l ++ l') !! k = Some x -> x ∉ l -> (length l <= k)%nat /\ l' !! (k - length l)%nat = Some x.
Proof.
  intros Hk Hx. destruct (decide (k < length l)%nat) as [Hlt|Hge].
  - rewrite lookup_app_l in Hk by done. apply list_elem_of_lookup_2 in Hk. done.
  - rewrite lookup_app_r in Hk by lia. split; [lia|done].
Qed.

(** A task whose merge neither runs nor can be started keeps its place at most. *)
Lemma round_progress pipe_ok running started q q' id k :
  round pipe_ok running started q q' -> q !! k = Some id -> id ∉ started -> id ∉ running -> pipe_ok id = true ->
  exists k', (k' <= k - length started)%nat /\ (length started <= k)%nat /\ q' !! k' = Some id.
Proof.
  intros Hr Hk Hst Hrun Hpipe.
  destruct Hr as [q|task q Ht]; destruct (app_lookup_before _ _ _ _ Hk Hst) as [Hle Hq1].
  - exists (k - length started)%nat. split_and!; auto.
  - destruct (k - length started)%nat as [|k'] eqn:Ek; cbn in Hq1.
    + injection Hq1 as ->. destruct Ht as [|[|]]; congruence.
    + exists k'. split_and!; [lia|lia|by apply lookup_app_l_Some].
Qed.

(** A queued task moves forward at every useful tick until its merge starts. *)
Lemma tick_progress pipe_ok s s' started id k :
  schedule_merge_tasks pipe_ok s = (s', started) ->
  ms_queue s !! k = Some id -> id ∉ ms_running s -> id ∉ started ->
  (size (ms_running s) < MAX_RUNNING_TASKS)%nat -> pipe_ok id = true ->
  exists k', (k' < k)%nat /\ ms_queue s' !! k' = Some id.
Proof.
  intros E Hk Hrun Hst Hsize Hpipe. unfold schedule_merge_tasks in E.
  destruct (Nat.leb_spec MAX_RUNNING_TASKS (size (ms_running s))); [lia|].
  destruct (MAX_RUNNING_TASKS - size (ms_running s))%nat as [|slots] eqn:En; [lia|].
  cbn in E. destruct (ms_queue s) as [|task q]; [done|].
  destruct (bool_decide (task ∈ ms_running s) || negb (pipe_ok task)) eqn:Et.
  - injection E as <- <-. destruct k as [|k]; cbn in Hk.
    { injection Hk as ->. rewrite bool_decide_eq_false_2, Hpipe in Et by done. done. }
    exists k. split; [lia|]. cbn. by apply lookup_app_l_Some.
  - destruct (schedule_loop _ _ _ _) as [s1 started1] eqn:El. injection E as <- <-.
    apply not_elem_of_cons in Hst as [Hne Hst]. destruct k as [|k]; cbn in Hk; [by injection Hk as ->|].
    pose proof (schedule_loop_spec _ _ _ _ _ _ El) as (Hr & _).
    destruct (round_progress _ _ _ _ _ _ _ Hr Hk Hst ltac:(set_solver) Hpipe) as (k' & ? & ? & ?).
    exists k'. split; [lia|done].
Qed.

Lemma sched_step_progress e s s' l id k :
  sched_ok s -> sched_step e s = (s', l) -> creates id e ->
  ms_queue s !! k = Some id -> id ∉ ms_running s -> Started id ∉ l ->
  id ∉ ms_running s' /\ exists k', (k' + (if useful e s then 1 else 0) <= k)%nat /\ ms_queue s' !! k' = Some id.
Proof.
  intros Hok. destruct e as [id'|pipe_ok|id']; cbn.
  - intros [= <- <-] _ Hk Hr _. unfold add_merge_task. case_bool_decide; cbn; (split; [done|]); exists k;
      (split; [lia|]); [done|by apply lookup_app_l_Some].
  - destruct (schedule_merge_tasks _ _) as [s1 started] eqn:E. intros [= <- <-] Hp Hk Hr Hst.
    assert (Hst' : id ∉ started) by (intros Hi; apply Hst; by apply list_elem_of_fmap_2).
    destruct (schedule_merge_tasks_spec _ _ _ _ Hok E) as (Hround & Hrun & _).
    split; [rewrite Hrun; set_solver|].
    destruct (Nat.ltb_spec (size (ms_running s)) MAX_RUNNING_TASKS) as [Hs|Hs].
    + destruct (tick_progress _ _ _ _ _ _ E Hk Hr Hst' Hs Hp) as (k' & ? & ?). exists k'. split; [lia|done].
    + destruct (round_progress _ _ _ _ _ _ _ Hround Hk Hst' Hr Hp) as (k' & ? & ? & ?). exists k'. split; [lia|done].
  - case_bool_decide; intros [= <- <-] _ Hk Hr _; cbn; (split; [set_solver|exists k; split; [lia|done]]).
Qed.

Lemma sched_run_progress es s s' l id k :
  sched_ok s -> sched_run es s = (s', l) -> Forall (creates id) es ->
  ms_queue s !! k = Some id -> id ∉ ms_running s -> Started id ∉ l -> (useful_ticks es s <= k)%nat.
Proof.
  revert s l k. induction es as [|e es IH]; intros s l k Hok; cbn; [intros; lia|].
  destruct (sched_step e s) as [s1 l1] eqn:E1. destruct (sched_run es s1) as [s2 l2] eqn:E2.
  intros [= <- <-] [Hc Hcs]%Forall_cons Hk Hr Hst. apply not_elem_of_app in Hst as [Hst1 Hst2].
  destruct (sched_step_ok _ _ _ _ Hok E1) as [Hok1 _].
  destruct (sched_step_progress _ _ _ _ _ _ Hok E1 Hc Hk Hr Hst1) as [Hr1 (k' & Hle & Hk')].
  specialize (IH _ _ _ Hok1 E2 Hcs Hk' Hr1 Hst2). cbn. lia.
Qed.

Lemma sched_run_member es s s' l id :
  sched_ok s -> sched_run es s = (s', l) -> id ∈ ms_queue s -> id ∈ ms_queue s' \/ Started id ∈ l.
Proof.
  revert s l. induction es as [|e es IH]; intros s l Hok; cbn; [intros [= <- <-]; auto|].
  destruct (sched_step e s) as [s1 l1] eqn:E1. destruct (sched_run es s1) as [s2 l2] eqn:E2. intros [= <- <-] Hi.
  destruct (sched_step_ok _ _ _ _ Hok E1) as [Hok1 _].
  destruct (sched_step_member _ _ _ _ _ Hok E1 Hi) as [Hi1|?]; [|right; set_solver].
  destruct (IH _ _ Hok1 E2 Hi1); [auto|right; set_solver].
Qed.

Lemma add_merge_task_queued id s : String.length id = 36%nat -> id ∈ ms_queue (add_merge_task id s).
Proof.
  intros H. unfold add_merge_task. rewrite <- H, string_take_id. case_bool_decide; cbn; set_solver.
Qed.

Lemma reached_ok es s l : sched_run es seaf_repo_manager_init_merge_scheduler = (s, l) -> sched_ok s.
Proof. intros H. by destruct (sched_run_ok _ _ _ _ init_ok H). Qed.

(** C34: a request for a merge is never lost: however the server goes on, the library
    stays queued until a merge of it starts after the request; and if no merge of it is
    running, that merge starts at the latest when the timer has found a free thread once
    more than there are tasks before it. *)
Theorem requested_merge_starts es0 s0 l0 id es s l :
  sched_run es0 seaf_repo_manager_init_merge_scheduler = (s0, l0) -> String.length id = 36%nat ->
  sched_run es (add_merge_task id s0) = (s, l) ->
  (id ∈ ms_queue s \/ Started id ∈ l) /\
  (Forall (creates id) es -> id ∉ ms_running s0 ->
   (length (ms_queue (add_merge_task id s0)) <= useful_ticks es (add_merge_task id s0))%nat -> Started id ∈ l).
Proof.
  intros H0 Hid H. pose proof (reached_ok _ _ _ H0) as Hok.
  assert (Hok1 : sched_ok (add_merge_task id s0)) by (apply (sched_step_ok (Request id) s0 _ []); done).
  pose proof (add_merge_task_queued id s0 Hid) as Hq. split; [by eapply sched_run_member|].
  intros Hc Hr Hn. destruct (decide (Started id ∈ l)) as [|Hst]; [done|exfalso].
  apply list_elem_of_lookup in Hq as [k Hk].
  assert (Hr1 : id ∉ ms_running (add_merge_task id s0)) by (unfold add_merge_task; by case_bool_decide).
  pose proof (sched_run_progress _ _ _ _ _ _ Hok1 H Hc Hk Hr1 Hst).
  apply lookup_lt_Some in Hk. lia.
Qed.

(** Six libraries: five merges run, the sixth waits for a thread; the first is asked for
    again while it runs and starts a second time after its end. *)
Definition lib_id (c : nat) : string := string_of_bytes (replicate 36 (Z.of_nat (48 + c))).

Definition busy_day : list sched_event :=
  (Request ∘ lib_id <$> seq 0 6) ++ [Tick (fun _ => true); Request (lib_id 0); Tick (fun _ => true);
  TaskEnds (lib_id 0); Tick (fun _ => true); TaskEnds (lib_id 2); Tick (fun _ => true)].

Example busy_day_marks :
  (sched_run busy_day seaf_repo_manager_init_merge_scheduler).2
  = (Started ∘ lib_id <$> seq 0 5) ++ [Ended (lib_id 0); Started (lib_id 5); Ended (lib_id 2); Started (lib_id 0)].
Proof. vm_compute. reflexivity. Qed.

Lemma merges_never_overlap_witness :
  let '(s, l) := sched_run busy_day seaf_repo_manager_init_merge_scheduler in
  marks_ok l ∅ = Some (ms_running s) /\ NoDup (ms_queue s) /\ (size (ms_running s) <= MAX_RUNNING_TASKS)%nat.
Proof.
  destruct (sched_run busy_day _) as [s l] eqn:E. exact (merges_never_overlap _ _ _ E).
Defined.

Lemma requested_merge_starts_witness :
  let s0 := (sched_run (take 7 busy_day) seaf_repo_manager_init_merge_scheduler).1 in
  Started (lib_id 7) ∈ (sched_run (drop 7 busy_day) (add_merge_task (lib_id 7) s0)).2.
Proof.
  cbv zeta.
  destruct (sched_run (take 7 busy_day) seaf_repo_manager_init_merge_scheduler) as [s0 l0] eqn:E0. cbn [fst].
  destruct (sched_run (drop 7 busy_day) (add_merge_task (lib_id 7) s0)) as [s l] eqn:E.
  cbn [snd]. refine (proj2 (requested_merge_starts _ _ _ (lib_id 7) _ _ _ E0 eq_refl E) _ _ _).
  - by repeat constructor.
  - assert (Hs : s0 = (sched_run (take 7 busy_day) seaf_repo_manager_init_merge_scheduler).1) by by rewrite E0.
    rewrite Hs. apply (bool_decide_eq_false_1 (lib_id 7 ∈ _)). vm_compute. reflexivity.
  - assert (Hs : s0 = (sched_run (take 7 busy_day) seaf_repo_manager_init_merge_scheduler).1) by by rewrite E0.
    rewrite Hs. apply Nat.leb_le. vm_compute. reflexivity.
Defined.
