(* ===== verification/VirtualRepo.v ===== *)
(** * Virtual libraries ([server/virtual-repo.c], with the operations of [server/repo-mgr.c] it calls)

    A virtual library presents a directory of another library, its origin, as a library
    of its own: it has commits and a head, and shares the objects of the origin.  Its
    row of [VirtualRepo] names the origin, the path and the commit of the origin it was
    last brought together with (its base).  The creation, the merge task that brings
    both sides together again, and what happens to a virtual library whose directory
    was renamed or deleted.  The queries on the table succeed; the tables of owners,
    shares, tokens and sizes are not part of the state. *)

From S2P Require Import Prelude Hex Paths Sql CfPath FsObj FsMgr Walk Diff Merge CommitMgr RepoOp Repo CfV2Acl Publish CfFileop Handlers PutFile MergeSched.

#[local] Arguments string_take : simpl never.

(** ** The rows *)

Definition set_virtual (db : Db) (t : gmap string SeafVirtRepo) : Db :=
  mkDb (t_Repo db) (t_Branch db) t (t_GCID db) (t_RepoInfo db) (t_cf_dir_acl db) (t_cf_edit_guard db).

(** [load_virtual_info] *)
Definition load_virtual_info (v : SeafVirtRepo) : SeafVirtRepo :=
  mkVirt (string_take 36 (v_origin_repo_id v)) (v_path v) (string_take 40 (v_base_commit v)).

Definition seaf_repo_manager_get_virtual_repo_info (db : Db) (repo_id : string) : option SeafVirtRepo :=
  load_virtual_info <$> t_VirtualRepo db !! repo_id.

Definition seaf_repo_manager_is_virtual_repo (db : Db) (repo_id : string) : bool :=
  match t_VirtualRepo db !! repo_id with Some _ => true | None => false end.

Definition rows_by_origin (db : Db) (origin_repo : string) : list (string * SeafVirtRepo) :=
  filter (fun row => v_origin_repo_id row.2 = origin_repo) (map_to_list (t_VirtualRepo db)).

Definition seaf_repo_manager_get_virtual_repo_ids_by_origin (db : Db) (origin_repo : string) : list string :=
  fst <$> rows_by_origin db origin_repo.

Definition seaf_repo_manager_get_virtual_info_by_origin (db : Db) (origin_repo : string) : list (string * SeafVirtRepo) :=
  prod_map (string_take 36) load_virtual_info <$> rows_by_origin db origin_repo.

(** The first row; paths are compared as the database does. *)
Definition get_existing_virtual_repo (db : Db) (origin_repo_id path : string) : option string :=
  fst <$> List.find (fun row => sql_eq (v_path row.2) path) (rows_by_origin db origin_repo_id).

(** [INSERT]: refused when there is a row of that id. *)
Definition save_virtual_repo_info (db : Db) (repo_id origin_repo_id path base_commit : string) : option Db :=
  match t_VirtualRepo db !! repo_id with
  | Some _ => None
  | None => Some (set_virtual db (<[repo_id := mkVirt origin_repo_id path base_commit]> (t_VirtualRepo db)))
  end.

(** [UPDATE]: nothing happens when there is no row. *)
Definition set_virtual_repo_base_commit_path (vrepo_id base_commit_id new_path : string) (db : Db) : Db :=
  match t_VirtualRepo db !! vrepo_id with
  | None => db
  | Some v => set_virtual db (<[vrepo_id := mkVirt (v_origin_repo_id v) new_path base_commit_id]> (t_VirtualRepo db))
  end.

(** ** Requests for merges *)

(** [seaf_repo_manager_merge_virtual_repo]: a virtual library asks for its own merge, a
    library for those of its virtual libraries, [exclude_repo] apart. *)
Definition seaf_repo_manager_merge_virtual_repo (db : Db) (repo_id : string) (exclude_repo : option string)
    (s : MergeScheduler) : MergeScheduler :=
  if seaf_repo_manager_is_virtual_repo db repo_id then add_merge_task repo_id s
  else foldl (fun s vrepo_id => if bool_decide (exclude_repo = Some vrepo_id) then s else add_merge_task vrepo_id s) s
         (seaf_repo_manager_get_virtual_repo_ids_by_origin db repo_id).

(** ** Creation *)

(** [canonical_vrepo_path]: a slash in front, none at the end. *)
Definition canonical_vrepo_path (path : string) : string := strip_slashes (with_slash path).

Section branches.
Context (se : Session) (fails : acl_query -> bool).

(** On MySQL a branch row is added or deleted only while no access rule applies. *)
Definition branch_writable (db : Db) (repo_id : string) : bool :=
  if bool_decide (se_db_type se = SEAF_DB_TYPE_MYSQL) then CfV2Acl.check (se_db_type se) db fails repo_id =? 0 else true.

Definition seaf_branch_manager_add_branch (db : Db) (branch : SeafBranch) : option Db :=
  if branch_writable db (b_repo_id branch) then Some (set_branch db (b_name branch) (b_repo_id branch) (b_commit_id branch))
  else None.

Definition set_tables (db : Db) (repos : gset string) (branches : gmap (string * string) string) (infos : gmap string RepoInfo) : Db :=
  mkDb repos branches (t_VirtualRepo db) (t_GCID db) infos (t_cf_dir_acl db) (t_cf_edit_guard db).

(** [remove_virtual_repo_ondisk]: the result of deleting the branches is not looked at. *)
Definition remove_virtual_repo_ondisk (db : Db) (repo_id : string) : Db :=
  let db := set_tables db (t_Repo db ∖ {[repo_id]}) (t_Branch db) (t_RepoInfo db) in
  set_tables db (t_Repo db)
    (if branch_writable db repo_id then filter (fun kv => kv.1.2 <> repo_id) (t_Branch db) else t_Branch db)
    (delete repo_id (t_RepoInfo db)).

Definition seaf_repo_manager_del_virtual_repo (db : Db) (repo_id : string) : Db :=
  let db := remove_virtual_repo_ondisk db repo_id in set_virtual db (delete repo_id (t_VirtualRepo db)).
End branches.

Section create.
Context (sha1 : list Z -> list Z) (se : Session) (fails : acl_query -> bool).
(** The verification of a password against a library, the magic and the password hash of a
    new one (of version, id, password and salt, the hash of algorithm and parameters too),
    OpenSSL's work. *)
Context (verify_repo_passwd : SeafRepo -> string -> bool).
Context (generate_magic : Z -> string -> string -> string -> string).
Context (generate_pwd_hash : Z -> string -> string -> string -> option string -> option string -> string).

(** [do_create_virtual_repo]: the library before its first commit. *)
Definition new_virtual_repo (origin_repo : SeafRepo) (repo_id : string) (repo_name repo_desc passwd : option string) : SeafRepo :=
  let enc := match passwd with Some (String _ _) => true | _ => false end in
  let v := r_enc_version origin_repo in
  let salt := if enc && (3 <=? v) then r_salt origin_repo else EmptyString in
  let algo := if enc then r_pwd_hash_algo origin_repo else None in
  let hash := if enc && negb (is_none algo) then generate_pwd_hash v repo_id (text passwd) salt algo (r_pwd_hash_params origin_repo) else EmptyString in
  mkRepo (string_take 36 repo_id) (string_take 36 (r_id origin_repo)) None (mkBranch EmptyString EmptyString EmptyString)
    EmptyString repo_name repo_desc None 0 enc (if enc then v else 0)
    (if enc then if is_none algo then generate_magic v repo_id (text passwd) salt else string_take 32 hash else EmptyString)
    (if enc && (2 <=? v) then r_random_key origin_repo else EmptyString)
    salt hash algo (if enc then r_pwd_hash_params origin_repo else None) true false (r_version origin_repo) 0.

(** [None]: the creation fails; the rows written until then stay. *)
Definition do_create_virtual_repo (o : Oracle) (origin_repo : SeafRepo) (repo_id : string)
    (repo_name repo_desc : option string) (root_id : string) (user passwd : option string) (w : World)
  : option unit * World :=
  let repo := new_virtual_repo origin_repo repo_id repo_name repo_desc passwd in
  let commit := seaf_repo_to_commit repo
                  (seaf_commit_new sha1 (o_now o) None (r_id repo) root_id user EMPTY_SHA1 (text repo_desc) 0) in
  let '(ret, cs) := seaf_commit_manager_add_commit (o_commit_write o) (w_commits w) commit in
  let w := set_commits w cs in
  if ret <? 0 then (None, w)
  else
    let master := seaf_branch_new "master" (r_id repo) (commit_id commit) in
    match seaf_branch_manager_add_branch se fails (w_db w) master with
    | None => (None, w)
    | Some db =>
        if bool_decide (r_id repo ∈ t_Repo db) then (None, set_db w db)
        else
          let db := set_tables db ({[r_id repo]} ∪ t_Repo db) (t_Branch db) (t_RepoInfo db) in
          let db := set_repo_commit_to_db db (o_now o) repo_id
                      (mkRepoInfo repo_name (ctime commit) (r_version repo) (r_encrypted repo) user 0) in
          (Some tt, set_db w db)
    end.

(** [uuid]: the id [gen_uuid] gives. *)
Definition create_virtual_repo_common (o : Oracle) (uuid : string) (origin_repo_id path : string)
    (repo_name repo_desc owner passwd : option string) (w : World) : option string * World :=
  match seaf_repo_manager_get_repo (w_db w) (w_commits w) origin_repo_id with
  | None => (None, w)
  | Some origin_repo =>
      if negb (r_status origin_repo =? REPO_STATUS_NORMAL) then (None, w)
      else if r_encrypted origin_repo &&
              ((r_enc_version origin_repo <? 2)
               || match passwd with Some (String _ _ as p) => negb (verify_repo_passwd origin_repo p) | _ => true end)
      then (None, w)
      else match seaf_commit_manager_get_commit (w_commits w) (b_commit_id (r_head origin_repo)) with
      | None => (None, w)
      | Some origin_head =>
          match seaf_fs_manager_get_seafdir_id_by_path (w_fs w) (r_version origin_repo) (root_id origin_head) path with
          | inl _ | inr None => (None, w)
          | inr (Some dir_id) =>
              match save_virtual_repo_info (w_db w) uuid origin_repo_id path (commit_id origin_head) with
              | None => (None, w)
              | Some db =>
                  match do_create_virtual_repo o origin_repo uuid repo_name repo_desc dir_id owner passwd (set_db w db) with
                  | (None, w) => (None, w)
                  | (Some _, w) => (Some uuid, emit w (EvUpdateRepoSize uuid))
                  end
              end
          end
      end
  end.

(** [owner]: the owner of a library, [set_owner]: whether the owner of the new one can be
    written. *)
Definition seaf_repo_manager_create_virtual_repo (o : Oracle) (uuid : string) (owner : string -> option string)
    (set_owner : bool) (origin_repo_id path : string) (repo_name repo_desc passwd : option string) (w : World)
  : option string * World :=
  if strcmp path "/" =? 0 then (None, w)
  else
    let canon_path := canonical_vrepo_path path in
    let '(r_origin_repo_id, r_path) :=
      match seaf_repo_manager_get_virtual_repo_info (w_db w) origin_repo_id with
      | Some vrepo => (v_origin_repo_id vrepo, v_path vrepo +:+ canon_path)
      | None => (origin_repo_id, canon_path)
      end in
    match get_existing_virtual_repo (w_db w) r_origin_repo_id r_path with
    | Some repo_id => (Some repo_id, w)
    | None =>
        match create_virtual_repo_common o uuid r_origin_repo_id r_path repo_name repo_desc (owner r_origin_repo_id) passwd w with
        | (None, w) => (None, w)
        | (Some repo_id, w) => (if set_owner then Some repo_id else None, w)
        end
    end.
End create.

(** ** Changing the name or the description of a library ([seaf_repo_manager_edit_repo]) *)

Definition set_names (c : SeafCommit) (name desc : option string) : SeafCommit :=
  mkCommit (commit_id c) (repo_id c) (root_id c) (CommitMgr.desc c) (creator_name c) (creator_id c) (ctime c) (parent_id c)
    (second_parent_id c) name desc (repo_category c) (device_name c) (client_version c) (encrypted c) (enc_version c)
    (magic c) (random_key c) (salt c) (pwd_hash c) (pwd_hash_algo c) (pwd_hash_params c) (no_local_history c)
    (CommitMgr.version c) (new_merge c) (CommitMgr.conflict c) (repaired c).

Record edit_args := mkEdit {
  ed_repo_id : string;
  ed_name : option string;
  ed_description : option string;
  ed_user : option string
}.

(** At [retry]; before each phase of the compare-and-swap; done. *)
Inductive edit_pc :=
| EditRetry (retry_cnt : nat)
| EditPhaseA (repo : SeafRepo) (parent commit : SeafCommit) (retry_cnt : nat)
| EditPhaseB (repo : SeafRepo) (parent commit : SeafCommit) (retry_cnt : nat) (acl_before : string) (changes : CfV2EditPrepared)
| EditDone (ret : Z).

Section tasks.
Context (sha1 : list Z -> list Z) (sha256 : list Z -> string).
Context (dir_hash : Z -> list SeafDirent -> string).
Context (fuel : nat) (se : Session) (g_utf8_validate : string -> bool).
Context (is_uuid_valid : string -> bool) (fails : acl_query -> bool).
Context {S : Type} (providers : list (Provider S)).

Definition seaf_repo_manager_edit_repo (e : edit_args) : edit_pc :=
  if is_none (ed_name e) && is_none (ed_description e) then EditDone (-1)
  else if negb (is_uuid_valid (ed_repo_id e)) then EditDone (-1)
  else EditRetry 0.

Definition or_else (a b : option string) : option string := match a with Some _ => a | None => b end.

Definition edit_step (o : Oracle) (e : edit_args) (pc : edit_pc) (w : World) : option (edit_pc * World) :=
  match pc with
  | EditRetry n => Some
      match seaf_repo_manager_get_repo (w_db w) (w_commits w) (ed_repo_id e) with
      | None => (EditDone (-1), w)
      | Some repo =>
          let effective_name := or_else (ed_name e) (r_name repo) in
          let effective_description := or_else (ed_description e) (r_desc repo) in
          match seaf_commit_manager_get_commit (w_commits w) (b_commit_id (r_head repo)) with
          | None => (EditDone (-1), w)
          | Some parent =>
              if same_text (repo_name parent) effective_name && same_text (repo_desc parent) effective_description
              then (EditDone 0, w)
              else
                let commit := seaf_commit_new sha1 (o_now o) None (r_id repo) (root_id parent)
                                (or_else (ed_user e) (creator_name parent)) EMPTY_SHA1
                                "Changed library name or description" 0 in
                let commit := set_parents commit (Some (commit_id parent)) (second_parent_id commit) in
                let commit := set_names (seaf_repo_to_commit repo commit) effective_name effective_description in
                let '(ret, cs) := seaf_commit_manager_add_commit (o_commit_write o) (w_commits w) commit in
                (if ret <? 0 then EditDone (-1) else EditPhaseA repo parent commit n, set_commits w cs)
          end
      end
  | EditPhaseA repo parent commit n =>
      match phase_a sha256 fuel se g_utf8_validate o w (gnc_branch repo commit) (commit_id parent) with
      | None => None
      | Some (None, w) => Some (EditDone (-1), w)
      | Some (Some (acl_before, changes), w) => Some (EditPhaseB repo parent commit n acl_before changes, w)
      end
  | EditPhaseB repo parent commit n acl_before changes =>
      let '(published, _, w) :=
        phase_b sha256 se g_utf8_validate o w (gnc_branch repo commit) (commit_id parent) false None None acl_before changes in
      Some (if published <? 0 then
              (if (published =? SEAF_BRANCH_UPDATE_HEAD_CONFLICT) && (n <? 3)%nat then EditRetry (Datatypes.S n)
               else EditDone (-1), w)
            else (EditDone 0, set_db w (seaf_repo_manager_update_repo_info (w_db w) (w_commits w) (o_now o) (ed_repo_id e)
                                          (b_commit_id (gnc_branch repo commit)))))
  | EditDone _ => None
  end.

(** ** A virtual library whose path is gone *)

(** The path and the paths above it, the root apart, each with the rest below it. *)
Fixpoint cut_points (n : nat) (par_path : string) (sub_path : option string) : list (string * option string) :=
  (par_path, sub_path) ::
  match n, split_last par_path with
  | Datatypes.S n, Some (String c a, b) =>
      cut_points n (String c a) (Some (match sub_path with None => b | Some sub => b +:+ "/" +:+ sub end))
  | _, _ => []
  end.

(** The first rename of a directory with the given id. *)
Definition find_rename (diff_res : list DiffEntry) (old_dir_id : string) : option string :=
  de ← List.find (fun de => bool_decide (de_status de = DIFF_STATUS_DIR_RENAMED)
                            && (strcmp (rawdata_to_hex (de_sha1 de)) old_dir_id =? 0)) diff_res;
  de_new_name de.

(** What the loop over the cut points decides. *)
Inductive missing :=
| MissingKept
| MissingDeleted
| MissingRenamed (new_path : string) (itself : bool).

Fixpoint missing_loop (st : fs_store) (version : Z) (parent_root : string) (diff_res : list DiffEntry)
    (cuts : list (string * option string)) : missing :=
  match cuts with
  | [] => MissingDeleted
  | (par_path, sub_path) :: cuts =>
      match seaf_fs_manager_get_seafdir_id_by_path st version parent_root par_path with
      | inl SEAF_ERR_PATH_NO_EXIST => MissingDeleted
      | inl _ | inr None => MissingKept
      | inr (Some old_dir_id) =>
          match find_rename diff_res old_dir_id with
          | Some new_name =>
              MissingRenamed ("/" +:+ new_name +:+ match sub_path with Some sub => "/" +:+ sub | None => EmptyString end)
                (is_none sub_path)
          | None => missing_loop st version parent_root diff_res cuts
          end
      end
  end.

(** The outcome and, when the directory itself was renamed, the change of the name of the
    library that follows.  [None]: the diff ran out of fuel. *)
Definition handle_missing_virtual_repo (repo : SeafRepo) (head : SeafCommit) (vrepo_id : string) (vinfo : SeafVirtRepo)
    (w : World) : option (missing * option edit_args * World) :=
  match parent ← parent_id head; seaf_commit_manager_get_commit (w_commits w) parent with
  | None => Some (MissingKept, None, w)
  | Some parent =>
      match diff_commits (w_fs w) (r_version <$> seaf_repo_manager_get_repo (w_db w) (w_commits w) (repo_id parent)) fuel
              (root_id parent) (root_id head) [] true with
      | None => None
      | Some (rc, diff_res) =>
          if rc <? 0 then Some (MissingKept, None, w)
          else
            let m := missing_loop (w_fs w) (r_version repo) (root_id parent) diff_res
                       (cut_points (String.length (v_path vinfo)) (v_path vinfo) None) in
            Some match m with
                 | MissingKept => (m, None, w)
                 | MissingDeleted => (m, None, set_db w (seaf_repo_manager_del_virtual_repo se fails (w_db w) vrepo_id))
                 | MissingRenamed new_path itself =>
                     (m, if itself then Some (mkEdit vrepo_id (Some (g_path_get_basename new_path)) (Some "Changed library name") None)
                         else None,
                      set_db w (set_virtual_repo_base_commit_path vrepo_id (commit_id head) new_path (w_db w)))
                 end
      end
  end.

(** ** Looking after the virtual libraries of a library ([seaf_repo_manager_cleanup_virtual_repos]) *)

(** At its start; at the next row, with the library and the head it read; renaming a
    library; done. *)
Inductive cleanup_pc :=
| CleanupStart
| CleanupRows (repo : SeafRepo) (head : SeafCommit) (vinfo_list : list (string * SeafVirtRepo))
| CleanupEdit (repo : SeafRepo) (head : SeafCommit) (vinfo_list : list (string * SeafVirtRepo)) (e : edit_args) (pc : edit_pc)
| CleanupDone.

Definition cleanup_step (o : Oracle) (origin_repo_id : string) (pc : cleanup_pc) (w : World) : option (cleanup_pc * World) :=
  match pc with
  | CleanupStart => Some
      (match repo_and_head w origin_repo_id with
       | None => CleanupDone
       | Some (repo, head) => CleanupRows repo head (seaf_repo_manager_get_virtual_info_by_origin (w_db w) origin_repo_id)
       end, w)
  | CleanupRows repo head [] => Some (CleanupDone, w)
  | CleanupRows repo head ((vrepo_id, vinfo) :: rest) =>
      match seaf_fs_manager_get_seafdir_by_path (w_fs w) (r_version repo) (root_id head) (v_path vinfo) with
      | inl SEAF_ERR_PATH_NO_EXIST =>
          '(_, e, w) ← handle_missing_virtual_repo repo head vrepo_id vinfo w;
          Some (match e with
                | Some e => CleanupEdit repo head rest e (seaf_repo_manager_edit_repo e)
                | None => CleanupRows repo head rest
                end, w)
      | _ => Some (CleanupRows repo head rest, w)
      end
  | CleanupEdit repo head rest e (EditDone _) => Some (CleanupRows repo head rest, w)
  | CleanupEdit repo head rest e pc => '(pc, w) ← edit_step o e pc w; Some (CleanupEdit repo head rest e pc, w)
  | CleanupDone => None
  end.

(** ** The merge task ([merge_virtual_repo]) *)

(** What the task has read: the two libraries and their heads, the row. *)
Record vm_ctx := mkVm {
  vc_repo : SeafRepo;
  vc_vinfo : SeafVirtRepo;
  vc_orig_repo : SeafRepo;
  vc_head : SeafCommit;
  vc_orig_head : SeafCommit
}.

(** How it ends: with an error, because the directory is gone, with nothing to do, with
    the directory of the origin taken over, or with the origin updated too. *)
Inductive vm_result := VmFailed | VmGone | VmNothing | VmTaken | VmMerged.

(** After each access to the database: the virtual library is read, its directory is
    searched, the virtual library is renamed, the directories are compared, the virtual
    library and then its origin are updated ([merged_root]: the tree of a merge, which
    goes to the origin too), the other virtual libraries are looked after. *)
Inductive vm_pc :=
| VmStart
| VmOrigin (repo : SeafRepo) (vinfo : SeafVirtRepo)
| VmRename (c : vm_ctx) (new_path : string) (e : edit_args) (pc : edit_pc)
| VmRoots (c : vm_ctx) (orig_root : string)
| VmVirtual (c : vm_ctx) (merged_root : option string) (op : OnlineOp) (pc : op_pc)
| VmOriginDir (c : vm_ctx) (op : OnlineOp) (pc : op_pc)
| VmCleanup (c : vm_ctx) (pc : cleanup_pc)
| VmDone (r : vm_result).

Abbreviation updates_dir := (seaf_repo_manager_update_dir dir_hash fuel se providers).

(** The beginning of an update: it may be refused. *)
Definition begin_update (k : OnlineOp -> op_pc -> vm_pc) (st : started (S := S)) : vm_pc * World * S :=
  match st with
  | Refused w s => (VmDone VmFailed, w, s)
  | Running op repo head w s => (k op (OpTry repo head []), w, s)
  end.

Definition vrepo_id (c : vm_ctx) : string := r_id (vc_repo c).
Definition orig_id (c : vm_ctx) : string := v_origin_repo_id (vc_vinfo c).

(** The update of the root of the virtual library, the update of the directory of the
    origin. *)
Definition update_virtual (o : Oracle) (c : vm_ctx) (merged_root : option string) (root : string) (w : World) (s : S)
  : vm_pc * World * S :=
  begin_update (VmVirtual c merged_root)
    (updates_dir o (vrepo_id c) "/" root (creator_name (vc_orig_head c)) (Some (commit_id (vc_head c))) w s).

Definition update_origin (o : Oracle) (c : vm_ctx) (root : string) (w : World) (s : S) : vm_pc * World * S :=
  begin_update (VmOriginDir c)
    (updates_dir o (orig_id c) (v_path (vc_vinfo c)) root (creator_name (vc_head c)) (Some (commit_id (vc_orig_head c))) w s).

Definition dir_of (w : World) (repo : SeafRepo) (commit : SeafCommit) (path : string) : option string :=
  match seaf_fs_manager_get_seafdir_id_by_path (w_fs w) (r_version repo) (root_id commit) path with
  | inr id => id
  | inl _ => None
  end.

(** The comparison of the three directories: the root of the virtual library, the
    directory of the origin, and that of the base. *)
Definition compare_roots (o : Oracle) (c : vm_ctx) (orig_root : string) (w : World) (s : S) : option (vm_pc * World * S) :=
  match seaf_commit_manager_get_commit (w_commits w) (v_base_commit (vc_vinfo c)) with
  | None => Some (VmDone VmFailed, w, s)
  | Some base =>
      let root := root_id (vc_head c) in
      match dir_of w (vc_orig_repo c) base (v_path (vc_vinfo c)) with
      | None => Some (VmDone VmFailed, w, s)
      | Some base_root =>
          if strcmp root orig_root =? 0 then Some (VmDone VmNothing, w, s)
          else if strcmp base_root root =? 0 then Some (update_virtual o c None orig_root w s)
          else if strcmp base_root orig_root =? 0 then Some (update_origin o c root w s)
          else
            '(ret, ms) ← seaf_merge_trees (o_conflict_filename o) (o_conflict_dirname o) dir_hash (o_dir_write o)
                           (r_version (vc_orig_repo c)) fuel [base_root; orig_root; root] (mkMS (w_fs w) EmptyString 0 false);
            let w := set_fs w (ms_store ms) in
            Some (if ret <? 0 then (VmDone VmFailed, w, s)
                  else update_virtual o c (Some (merged_tree_root ms)) (merged_tree_root ms) w s)
      end
  end.

(** The directory of the origin is searched; if it is not there, it was renamed or deleted. *)
Definition find_orig_root (c : vm_ctx) (w : World) : option (vm_pc * World) :=
  match seaf_fs_manager_get_seafdir_id_by_path (w_fs w) (r_version (vc_orig_repo c)) (root_id (vc_orig_head c))
          (v_path (vc_vinfo c)) with
  | inr (Some orig_root) => Some (VmRoots c orig_root, w)
  | inl SEAF_ERR_PATH_NO_EXIST | inr None =>
      '(m, e, w) ← handle_missing_virtual_repo (vc_orig_repo c) (vc_orig_head c) (vrepo_id c) (vc_vinfo c) w;
      Some (match m, e with
            | MissingRenamed new_path _, Some e => VmRename c new_path e (seaf_repo_manager_edit_repo e)
            | MissingRenamed new_path _, None =>
                match dir_of w (vc_orig_repo c) (vc_orig_head c) new_path with
                | Some orig_root => VmRoots c orig_root
                | None => VmDone VmGone
                end
            | _, _ => VmDone VmGone
            end, w)
  | inl _ => Some (VmDone VmFailed, w)
  end.

Definition set_base (c : vm_ctx) (base : string) (w : World) : World :=
  set_db w (set_virtual_repo_base_commit_path (vrepo_id c) base (v_path (vc_vinfo c)) (w_db w)).

(** The state of the scheduler changes at the end, when the merges of the other virtual
    libraries are requested. *)
Definition merge_virtual_repo (o : Oracle) (repo_id : string) (pc : vm_pc) (w : World) (s : S) (q : MergeScheduler)
  : option (vm_pc * World * S * MergeScheduler) :=
  match pc with
  | VmStart => Some
      (match seaf_repo_manager_get_repo (w_db w) (w_commits w) repo_id with
       | Some repo => match r_virtual repo with Some vinfo => VmOrigin repo vinfo | None => VmDone VmFailed end
       | None => VmDone VmFailed
       end, w, s, q)
  | VmOrigin repo vinfo =>
      match seaf_repo_manager_get_repo (w_db w) (w_commits w) (v_origin_repo_id vinfo) with
      | None => Some (VmDone VmFailed, w, s, q)
      | Some orig_repo =>
          match seaf_commit_manager_get_commit (w_commits w) (b_commit_id (r_head repo)),
                seaf_commit_manager_get_commit (w_commits w) (b_commit_id (r_head orig_repo)) with
          | Some head, Some orig_head =>
              '(pc, w) ← find_orig_root (mkVm repo vinfo orig_repo head orig_head) w; Some (pc, w, s, q)
          | _, _ => Some (VmDone VmFailed, w, s, q)
          end
      end
  | VmRename c new_path e (EditDone _) => Some
      (match dir_of w (vc_orig_repo c) (vc_orig_head c) new_path with
       | Some orig_root => VmRoots c orig_root
       | None => VmDone VmGone
       end, w, s, q)
  | VmRename c new_path e pc => '(pc, w) ← edit_step o e pc w; Some (VmRename c new_path e pc, w, s, q)
  | VmRoots c orig_root => '(pc, w, s) ← compare_roots o c orig_root w s; Some (pc, w, s, q)
  | VmVirtual c merged_root op (OpDone ret _ _) =>
      if ret <? 0 then Some (VmDone VmFailed, w, s, q)
      else match merged_root with
           | None => Some (VmDone VmTaken, set_base c (b_commit_id (r_head (vc_orig_repo c))) w, s, q)
           | Some root => let '(pc, w, s) := update_origin o c root w s in Some (pc, w, s, q)
           end
  | VmVirtual c merged_root op pc =>
      '(pc, w, s) ← op_step sha1 sha256 dir_hash fuel se g_utf8_validate providers o op pc w s;
      Some (VmVirtual c merged_root op pc, w, s, q)
  | VmOriginDir c op (OpDone ret _ commit) =>
      if ret <? 0 then Some (VmDone VmFailed, w, s, q)
      else Some (VmCleanup c CleanupStart, set_base c (text commit) w, s, q)
  | VmOriginDir c op pc =>
      '(pc, w, s) ← op_step sha1 sha256 dir_hash fuel se g_utf8_validate providers o op pc w s;
      Some (VmOriginDir c op pc, w, s, q)
  | VmCleanup c CleanupDone =>
      Some (VmDone VmMerged, w, s, seaf_repo_manager_merge_virtual_repo (w_db w) (orig_id c) (Some (vrepo_id c)) q)
  | VmCleanup c pc => '(pc, w) ← cleanup_step o (orig_id c) pc w; Some (VmCleanup c pc, w, s, q)
  | VmDone _ => None
  end.

(** ** The repair of a virtual library ([seaf_repo_manager_repair_virtual_repo]) *)

(** Both sides are merged without a base and updated with the result. *)
Inductive repair_pc :=
| RepairStart
| RepairVirtual (c : vm_ctx) (root : string) (op : OnlineOp) (pc : op_pc)
| RepairOrigin (c : vm_ctx) (op : OnlineOp) (pc : op_pc)
| RepairDone (ret : Z).

Definition begin_repair (k : OnlineOp -> op_pc -> repair_pc) (st : started (S := S)) : repair_pc * World * S :=
  match st with
  | Refused w s => (RepairDone (-1), w, s)
  | Running op repo head w s => (k op (OpTry repo head []), w, s)
  end.

Definition repair_roots (o : Oracle) (c : vm_ctx) (orig_root : string) (w : World) (s : S) : option (repair_pc * World * S) :=
  '(ret, ms) ← seaf_merge_trees (o_conflict_filename o) (o_conflict_dirname o) dir_hash (o_dir_write o)
                 (r_version (vc_orig_repo c)) fuel [orig_root; root_id (vc_head c)] (mkMS (w_fs w) EmptyString 0 false);
  let w := set_fs w (ms_store ms) in
  Some (if ret <? 0 then (RepairDone (-1), w, s)
        else begin_repair (RepairVirtual c (merged_tree_root ms))
               (updates_dir o (vrepo_id c) "/" (merged_tree_root ms) (creator_name (vc_orig_head c))
                  (Some (commit_id (vc_head c))) w s)).

Definition seaf_repo_manager_repair_virtual_repo (o : Oracle) (repo_id : string) (pc : repair_pc) (w : World) (s : S)
  : option (repair_pc * World * S) :=
  match pc with
  | RepairStart =>
      match repo_and_head w repo_id with
      | None => Some (RepairDone (-1), w, s)
      | Some (repo, head) =>
          match r_virtual repo, seaf_repo_manager_get_virtual_repo_info (w_db w) repo_id with
          | Some _, Some vinfo =>
              match repo_and_head w (v_origin_repo_id vinfo) with
              | None => Some (RepairDone (-1), w, s)
              | Some (orig_repo, orig_head) =>
                  match seaf_fs_manager_get_seafdir_id_by_path (w_fs w) (r_version orig_repo) (root_id orig_head) (v_path vinfo) with
                  | inr (Some orig_root) => repair_roots o (mkVm repo vinfo orig_repo head orig_head) orig_root w s
                  | inl SEAF_ERR_PATH_NO_EXIST | inr None => Some (RepairDone 0, w, s)
                  | inl _ => Some (RepairDone (-1), w, s)
                  end
              end
          | _, _ => Some (RepairDone (-1), w, s)
          end
      end
  | RepairVirtual c root op (OpDone ret _ _) =>
      Some (if ret <? 0 then (RepairDone ret, w, s)
            else begin_repair (RepairOrigin c)
                   (updates_dir o (orig_id c) (v_path (vc_vinfo c)) root (creator_name (vc_head c))
                      (Some (commit_id (vc_orig_head c))) w s))
  | RepairVirtual c root op pc =>
      '(pc, w, s) ← op_step sha1 sha256 dir_hash fuel se g_utf8_validate providers o op pc w s;
      Some (RepairVirtual c root op pc, w, s)
  | RepairOrigin c op (OpDone ret _ commit) =>
      Some (RepairDone ret, if ret <? 0 then w else set_base c (text commit) w, s)
  | RepairOrigin c op pc =>
      '(pc, w, s) ← op_step sha1 sha256 dir_hash fuel se g_utf8_validate providers o op pc w s;
      Some (RepairOrigin c op pc, w, s)
  | RepairDone _ => None
  end.
End tasks.
