(* ===== verification/VirtualRepoProof.v ===== *)
(** * What the merge of a virtual library with its origin promises

    When nothing else moves the two heads meanwhile, a merge task that succeeds leaves, to its end,
    the directory of the origin and the root of the virtual library the same tree, the
    result of reconciling the three directories it compared, and records the commit.
    Creating a virtual library, and what can go wrong with renamed directories. *)

From S2P Require Import Prelude Hex Paths Sql CfPath FsObj FsMgr Walk Diff Merge CommitMgr RepoOp RepoOpProof LibView Repo CfV2Acl Publish PublishProof CfFileop Handlers HandlersProof PutFile MergeSched VirtualRepo.

#[local] Arguments string_take : simpl never.

(** ** Merges only add objects *)

Section store.
Context (conflict_filename conflict_dirname : string -> string -> option string).
Context (dir_hash : Z -> list SeafDirent -> string) (write_ok : string -> bool) (version : Z).

Lemma walk_fuel_inv {St} (body : list (option SeafDirent) -> Z -> St -> option (Z * St)) (R : St -> St -> Prop) `{!PreOrder R} :
  (forall dents ret st ret' st', body dents ret st = Some (ret', st') -> R st st') ->
  forall n ptrs ret st ret' st', walk_fuel body n ptrs ret st = Some (ret', st') -> R st st'.
Proof.
  intros Hb. induction n as [|n IH]; intros ptrs ret st ret' st'; cbn [walk_fuel].
  - intros E. repeat case_match; by simplify_eq.
  - destruct (first_name ptrs); [|by intros [= _ <-]].
    destruct (body _ _ _) as [[r1 st1]|] eqn:E1; [|done]. apply Hb in E1.
    destruct (r1 <? 0); [by intros [= _ <-]|]. intros E2%IH. by etrans.
Qed.

Definition adds (a b : list SeafDirent * merge_state) : Prop := ms_store a.2 ⊆ ms_store b.2.
#[local] Instance adds_preorder : PreOrder adds.
Proof. split; unfold adds; [intros a; reflexivity|intros a b c; apply transitivity]. Qed.

Lemma merge_entries_store dents basedir out ms ret dents' out' ms' :
  merge_entries conflict_filename conflict_dirname dents basedir out ms = (ret, dents', out', ms') -> ms_store ms' = ms_store ms.
Proof.
  unfold merge_entries, twoway_merge, threeway_merge. intros E. repeat case_match; by simplify_eq.
Qed.

Lemma visit_sub_dirs_store dents : forall ms dirs ms', visit_sub_dirs version dents ms = (dirs, ms') -> ms_store ms' = ms_store ms.
Proof.
  induction dents as [|od dents IH]; intros ms dirs ms'; cbn [visit_sub_dirs]; [by intros [= _ <-]|].
  intros E. repeat case_match; simplify_eq; try done;
    match goal with H : visit_sub_dirs _ _ _ = _ |- _ => by rewrite (IH _ _ _ H) end.
Qed.

Lemma finish_tree_adds trees l ret ms ret' ms' :
  finish_tree dir_hash write_ok version trees l ret ms = (ret', ms') -> ms_store ms ⊆ ms_store ms'.
Proof.
  assert (Hsave : forall ms d r st, seaf_dir_save write_ok (ms_store ms) d = (r, st) -> ms_store ms ⊆ st).
  { intros ms0 d r st. unfold seaf_dir_save. destruct (String.eqb _ _); [by intros [= _ <-]|].
    destruct (ms_store ms0 !! dir_id d) eqn:E; [by intros [= _ <-]|].
    destruct (write_ok _); intros [= _ <-]; [by apply insert_subseteq|done]. }
  unfold finish_tree. intros E. repeat case_match; simplify_eq; try done;
    match goal with H : seaf_dir_save _ _ _ = _ |- _ => exact (Hsave _ _ _ _ H) end.
Qed.

Lemma merge_row_adds rec basedir dents ret acc ret' acc' :
  (forall dirs b ms r ms', rec dirs b ms = Some (r, ms') -> ms_store ms ⊆ ms_store ms') ->
  merge_row conflict_filename conflict_dirname version rec basedir dents ret acc = Some (ret', acc') -> adds acc acc'.
Proof.
  intros IH. destruct acc as [l0 ms0], acc' as [l' ms2]. unfold merge_row, adds. cbn [snd].
  destruct (if has_kind S_ISREG dents then _ else _) as [[[r3 d3] l3] ms3] eqn:E3.
  assert (Hs3 : ms_store ms3 = ms_store ms0).
  { destruct (has_kind S_ISREG dents); [by eapply merge_entries_store|by simplify_eq]. }
  destruct (r3 <? 0); [intros [= _ _ <-]; by rewrite Hs3|].
  destruct (has_kind S_ISDIR d3); [|intros [= _ _ <-]; by rewrite Hs3].
  unfold merge_directories. destruct (decide_directories d3); [intros [= _ _ <-]; by rewrite Hs3|].
  destruct (visit_sub_dirs version d3 ms3) as [[dirs|] ms4] eqn:E4; apply visit_sub_dirs_store in E4.
  - destruct (rec _ _ _) as [[r5 ms5]|] eqn:E5; [|done]. intros [= _ _ <-]. rewrite <- Hs3, <- E4. by eapply IH.
  - intros [= _ _ <-]. by rewrite E4, Hs3.
Qed.

Lemma merge_trees_adds n : forall trees basedir ms ret ms',
  merge_trees_recursive conflict_filename conflict_dirname dir_hash write_ok version n trees basedir ms = Some (ret, ms') ->
  ms_store ms ⊆ ms_store ms'.
Proof.
  induction n as [|n IH]; intros trees basedir ms ret ms'; cbn [merge_trees_recursive]; [done|].
  destruct (walk _ _ _ _) as [[r1 [out ms1]]|] eqn:E; [|done].
  apply (walk_fuel_inv _ adds) in E.
  - unfold adds in E. cbn in E. destruct (r1 <? 0); [by intros [= _ <-]|].
    destruct (finish_tree _ _ _ _ _ _ _) as [r2 ms2] eqn:Ef. intros [= _ <-]. etrans; [exact E|]. by eapply finish_tree_adds.
  - intros dents r0 a0 r' a'. by apply merge_row_adds.
Qed.

Lemma seaf_merge_trees_adds n roots ms ret ms' :
  seaf_merge_trees conflict_filename conflict_dirname dir_hash write_ok version n roots ms = Some (ret, ms') ->
  ms_store ms ⊆ ms_store ms'.
Proof.
  unfold seaf_merge_trees. destruct (negb _); [by intros [= _ <-]|]. destruct (load_roots _ _ _); [|by intros [= _ <-]].
  apply merge_trees_adds.
Qed.

(** The tree of a merge that succeeds can be read. *)
Lemma finish_tree_stored b h r l ret ms ret' ms' :
  collision_free dir_hash version -> addressed dir_hash version (ms_store ms') ->
  from_store version (ms_store ms) h -> from_store version (ms_store ms) r ->
  finish_tree dir_hash write_ok version [b; h; r] l ret ms = (ret', ms') -> 0 <= ret' ->
  is_Some (seaf_fs_manager_get_seafdir (ms_store ms') version (merged_tree_root ms')).
Proof.
  intros Hcf Had Hh Hr E Hret. pose proof (finish_tree_adds _ _ _ _ _ _ E) as Hsub. unfold finish_tree in E.
  destruct (_ || _) eqn:Ho.
  - injection E as _ <-. cbn in *.
    assert (Ht : forall id od, from_store version (ms_store ms) od ->
      match od with Some t => strcmp (dir_id t) id =? 0 | None => false end = true ->
      is_Some (seaf_fs_manager_get_seafdir (ms_store ms) version id)).
    { intros id [t|] Hf; [|done]. intros <-%Z.eqb_eq%strcmp_eq. destruct (Hf t eq_refl) as [id Hid].
      rewrite (get_seafdir_id _ _ _ _ Hid). by exists t. }
    apply orb_true_iff in Ho as [Ho|Ho]; [exact (Ht _ h Hh Ho)|exact (Ht _ r Hr Ho)].
  - destruct (seaf_dir_save _ _ _) as [r1 st1] eqn:Es. injection E as -> <-. cbn in *. revert Es. unfold seaf_dir_save.
    cbn [dir_id seaf_dir_new]. set (id := match sort_dirents l with [] => _ | _ => _ end). unfold seaf_fs_manager_get_seafdir.
    destruct (String.eqb id EMPTY_SHA1) eqn:Ee; [by intros _; eexists|].
    destruct (ms_store ms !! id) as [x|] eqn:Ex.
    + intros [= _ <-]. rewrite Ex. destruct x as [d|f]; [by eexists|].
      exfalso. destruct (sort_dirents l) eqn:El; [done|]. by apply (ad_file _ _ _ Had _ _ (s :: l0)) in Ex.
    + destruct (write_ok id); intros [= <- <-]; [|lia]. rewrite lookup_insert_eq. by eexists.
Qed.

Lemma merge_root_stored n base head remote ms ret ms' :
  collision_free dir_hash version -> addressed dir_hash version (ms_store ms') ->
  seaf_merge_trees conflict_filename conflict_dirname dir_hash write_ok version n [base; head; remote] ms = Some (ret, ms') ->
  0 <= ret -> is_Some (seaf_fs_manager_get_seafdir (ms_store ms') version (merged_tree_root ms')).
Proof.
  intros Hcf Had E Hret. unfold seaf_merge_trees in E. cbn [length Nat.eqb orb negb load_roots] in E.
  destruct (seaf_fs_manager_get_seafdir _ _ base) as [b|]; [|injection E as <- _; lia].
  destruct (seaf_fs_manager_get_seafdir _ _ head) as [h|] eqn:Eh; [|injection E as <- _; lia].
  destruct (seaf_fs_manager_get_seafdir _ _ remote) as [r|] eqn:Er; [|injection E as <- _; lia].
  cbn [mbind option_bind] in E. destruct n as [|n]; [done|]. cbn [merge_trees_recursive] in E.
  destruct (walk _ _ _ _) as [[r1 [out ms1]]|] eqn:Ew; [|done].
  assert (Hsub : ms_store ms ⊆ ms_store ms1).
  { apply (walk_fuel_inv _ adds) in Ew; [exact Ew|]. intros dents r0 a0 r2 a2. apply merge_row_adds. apply merge_trees_adds. }
  destruct (Z.ltb_spec r1 0); [injection E as <- _; lia|].
  destruct (finish_tree _ _ _ _ _ _ _) as [r2 ms2] eqn:Ef. injection E as <- <-.
  eapply (finish_tree_stored (Some b) (Some h) (Some r)); [done|done|..|exact Ef|done]; intros d [= <-];
    eexists; by eapply get_seafdir_mono.
Qed.
End store.

(** ** The id of a directory by its path *)

Section paths.
Context (version : Z).

Lemma dir_at_mono st st' dir names base : st ⊆ st' -> dir_at st version dir names base -> dir_at st' version dir names base.
Proof. intros Hs. induction 1; econstructor; eauto using get_seafdir_mono. Qed.

Lemma seafdir_id_mono st st' root path id :
  st ⊆ st' -> seaf_fs_manager_get_seafdir_id_by_path st version root path = inr (Some id) ->
  seaf_fs_manager_get_seafdir_id_by_path st' version root path = inr (Some id).
Proof.
  intros Hs. unfold seaf_fs_manager_get_seafdir_id_by_path.
  destruct (seaf_fs_manager_path_to_obj_id st version root path) as [|[[i m]|]] eqn:E; try done.
  apply path_to_obj_id_denotes in E.
  assert (E' : path_denotes st' version root (components path) i m).
  { inversion E as [|names name r base dent Hr Hd Hn]; [constructor|]. econstructor; eauto using get_seafdir_mono, dir_at_mono. }
  apply path_to_obj_id_denotes in E'. by rewrite E'.
Qed.

Lemma dir_at_entries st names : forall root dir,
  tidy st version -> seaf_fs_manager_get_seafdir st version root = Some dir ->
  (forall base, dir_at st version dir names base -> entries_at version st root names = Some (entries base) /\ sorted_entries (entries base)) /\
  (forall l, entries_at version st root names = Some l -> exists base, dir_at st version dir names base /\ entries base = l /\ sorted_entries l).
Proof.
  induction names as [|x names IH]; intros root dir Ht Hd; pose proof (tidy_sorted _ _ Ht _ _ Hd) as Hs; cbn [entries_at];
    rewrite Hd; cbn [mbind option_bind].
  - split; [intros base Hb; inversion Hb; by subst|]. intros l [= <-]. exists dir. split; [constructor|done].
  - split.
    + inversion 1 as [|? ? ? dent sub ? Hf Hg Hr]; subst. rewrite find_dir_lookup in Hf by done.
      destruct (lookup_name x (entries dir)) as [d|]; [|done]. cbn [mbind option_bind].
      destruct (S_ISDIR (d_mode d)); [|done]. injection Hf as ->. by apply (IH _ _ Ht Hg).
    + intros l. destruct (lookup_name x (entries dir)) as [d|] eqn:El; [|done]. cbn [mbind option_bind].
      destruct (S_ISDIR (d_mode d)) eqn:Em; [|done]. intros He.
      assert (Hg : is_Some (seaf_fs_manager_get_seafdir st version (d_id d))).
      { apply lookup_name_Some in El as [Hin _]. by eapply tidy_closed. }
      destruct Hg as [sub Hg]. destruct (proj2 (IH _ _ Ht Hg) l He) as (base & Hb & Hl).
      exists base. split; [|done]. econstructor; [|done|done]. rewrite find_dir_lookup by done. by rewrite El, Em.
Qed.

Lemma scan_name_lookup n l d :
  sorted_entries l -> scan_name n l = Some d <-> lookup_name n l = Some d /\ is_object_id_valid (Some (d_id d)) = true.
Proof.
  induction 1 as [|e l Hs IH Hall]; [by split; [|intros []]|].
  unfold scan_name, find_dirent in *. cbn [List.find]. rewrite lookup_name_cons, strcmp_name.
  destruct (String.eqb_spec n (d_name e)) as [->|Hne]; [|by rewrite andb_false_r].
  rewrite andb_true_r. destruct (is_object_id_valid (Some (d_id e))) eqn:Ev; [naive_solver|]. rewrite IH.
  assert (Hn : lookup_name (d_name e) l = None).
  { apply lookup_name_None. intros x Hx Ex. rewrite Forall_forall in Hall. specialize (Hall x Hx). rewrite Ex in Hall.
    by apply gt_name_irrefl in Hall. }
  rewrite Hn. split; [by intros []|]. intros [[= ->] ?]. congruence.
Qed.

(** The path of a directory that is not the root. *)
Lemma seafdir_id_entries st root path parts n id :
  tidy st version -> components path = parts ++ [n] ->
  seaf_fs_manager_get_seafdir_id_by_path st version root path = inr (Some id) <->
  exists l d, entries_at version st root parts = Some l /\ lookup_name n l = Some d /\ S_ISDIR (d_mode d) = true /\
              d_id d = id /\ is_object_id_valid (Some id) = true.
Proof.
  intros Ht Hc. unfold seaf_fs_manager_get_seafdir_id_by_path. split.
  - destruct (seaf_fs_manager_path_to_obj_id st version root path) as [|[[i m]|]] eqn:E; [done| |done].
    destruct (S_ISDIR m) eqn:Em; [|done]. intros [= <-]. apply path_to_obj_id_denotes in E. rewrite Hc in E.
    inversion E as [Hnil|names name r base dent Hr Hd Hn Hnm]; [by destruct parts|]. subst.
    apply app_inj_tail in Hnm as [-> ->]. destruct (proj1 (dir_at_entries _ _ _ _ Ht Hr) _ Hd) as [He Hs].
    apply scan_name_lookup in Hn as [Hl Hv]; [|done]. by exists (entries base), dent.
  - intros (l & d & He & Hl & Hd & <- & Hv).
    assert (Hr : is_Some (seaf_fs_manager_get_seafdir st version root)).
    { destruct parts; cbn [entries_at] in He; by destruct (seaf_fs_manager_get_seafdir st version root). }
    destruct Hr as [r Hr]. destruct (proj2 (dir_at_entries _ _ _ _ Ht Hr) l He) as (base & Hb & <- & Hs).
    assert (E : path_denotes st version root (components path) (d_id d) (d_mode d)).
    { rewrite Hc. econstructor; [done|done|]. by apply scan_name_lookup. }
    apply path_to_obj_id_denotes in E. by rewrite E, Hd.
Qed.
End paths.

(** ** Operations whose library nothing else changes *)

Record head_is (w : World) (rid : string) (c : SeafCommit) : Prop := {
  hi_stored : stored_commit (w_commits w) c;
  hi_head : exists h, head_of w rid = Some h /\ string_take 40 h = commit_id c
}.

Lemma head_is_mono w w' rid c :
  w_commits w ⊆ w_commits w' -> head_of w' rid = head_of w rid -> head_is w rid c -> head_is w' rid c.
Proof. intros Hs Hh [Hc (h & Hw & Ht)]. split; [by eapply stored_commit_mono|]. exists h. by rewrite Hh. Qed.

Lemma get_repo_head_is w rid repo c :
  seaf_repo_manager_get_repo (w_db w) (w_commits w) rid = Some repo -> head_is w rid c ->
  b_commit_id (r_head repo) = commit_id c /\ r_version repo = CommitMgr.version c /\ repo_of rid repo.
Proof.
  intros E [Hc (h & Hh & Ht)]. pose proof (get_repo_of _ _ _ _ E) as Hof. revert E.
  unfold seaf_repo_manager_get_repo, create_repo. destruct (37 <=? String.length rid)%nat; [done|].
  case_bool_decide; [|done]. unfold head_of in Hh. rewrite Hh. cbn [mbind option_bind].
  cbn [r_head seaf_branch_new b_commit_id]. rewrite Ht, Hc. cbn [mbind option_bind]. intros [= <-]. cbn.
  by split_and!.
Qed.

Lemma get_repo_get_head w rid repo c :
  seaf_repo_manager_get_repo (w_db w) (w_commits w) rid = Some repo -> head_is w rid c ->
  seaf_commit_manager_get_commit (w_commits w) (b_commit_id (r_head repo)) = Some c.
Proof. intros E H. destruct (get_repo_head_is _ _ _ _ E H) as [-> _]. apply (hi_stored _ _ _ H). Qed.

Section quiet.
Context (sha1 : list Z -> list Z) (sha256 : list Z -> string).
Context (dir_hash : Z -> list SeafDirent -> string).
Context (fuel : nat) (se : Session) (g_utf8_validate : string -> bool).

(** What a step of an operation on [rid] leaves alone. *)
Record frames (rid : string) (w w' : World) : Prop := {
  fr_commits : w_commits w ⊆ w_commits w';
  fr_fs : w_fs w ⊆ w_fs w';
  fr_virtual : t_VirtualRepo (w_db w') = t_VirtualRepo (w_db w);
  fr_heads : forall r, r <> rid -> head_of w' r = head_of w r
}.

Lemma frames_same rid w w' : w_commits w ⊆ w_commits w' -> w_fs w ⊆ w_fs w' -> w_db w' = w_db w -> frames rid w w'.
Proof. intros Hc Hf Hd. split; [done|done|by rewrite Hd|]. intros r _. unfold head_of. by rewrite Hd. Qed.

Lemma phase_b_frames o w b old check_gc last_gc origin acl changes r gc w' :
  phase_b sha256 se g_utf8_validate o w b old check_gc last_gc origin acl changes = (r, gc, w') ->
  b_name b = "master" -> frames (b_repo_id b) w w'.
Proof.
  intros E Hn. pose proof (phase_b_fs _ _ _ _ _ _ _ _ _ _ _ _ _ _ _ E) as Hfs.
  pose proof (phase_b_spec _ _ _ _ _ _ _ _ _ _ _ _ _ _ _ E) as [Hc Hdb].
  assert (Hv : t_VirtualRepo (w_db w') = t_VirtualRepo (w_db w)).
  { assert (Hup : forall db cs now r h, t_VirtualRepo (seaf_repo_manager_update_repo_info db cs now r h) = t_VirtualRepo db).
    { intros. unfold seaf_repo_manager_update_repo_info. by destruct (seaf_commit_manager_get_commit _ _). }
    assert (Hob : forall w0, t_VirtualRepo (w_db (on_branch_updated se o w0 b)) = t_VirtualRepo (w_db w0)).
    { intros w0. unfold on_branch_updated. destruct (se_is_repair se); [done|].
      destruct (t_VirtualRepo _ !! b_repo_id b); cbn; by rewrite Hup. }
    destruct Hdb as [[_ ->]|(-> & _)]; [done|]. revert E. unfold phase_b. intros E.
    repeat case_match; simplify_eq; try done. by rewrite Hob. }
  split; [by rewrite Hc|by rewrite Hfs|done|]. intros r' Hr. destruct Hdb as [[_ Hd]|(_ & _ & _ & _ & _ & _ & Hb)].
  - unfold head_of. by rewrite Hd.
  - unfold head_of. rewrite Hb, Hn. rewrite lookup_insert_ne; [done|]. intros [= Hx]. congruence.
Qed.

Context {S : Type} (providers : list (Provider S)) (op : OnlineOp) (repo0 : SeafRepo) (base : SeafCommit).
(** What is known of the new tree, of a store. *)
Context (R : fs_store -> string -> Prop) (HR : forall st st' root, st ⊆ st' -> R st root -> R st' root).
Abbreviation rid := (op_repo_id op).

Definition published (w : World) (id : string) : Prop :=
  head_of w rid = Some id /\
  exists new root, stored_commit (w_commits w) new /\ commit_id new = id /\ R (w_fs w) root /\ root_id new = string_take 40 root.

Definition gnc_quiet (a : gnc_args) (g : gnc_pc) (w : World) : Prop :=
  ga_repo_id a = rid /\ ga_base a = base /\ R (w_fs w) (ga_new_root a) /\ working rid w a g /\
  match g with
  | GncDone (inr id) => published w id
  | GncRetry repo _ _ => head_is w rid base /\ b_commit_id (r_head repo) = commit_id base
  | _ => head_is w rid base
  end.

(** While an operation that does not start over runs: the head is the one it was given,
    until its own commit is the head. *)
Definition op_quiet (pc : op_pc) (w : World) : Prop :=
  match pc with
  | OpTry repo head _ => repo = repo0 /\ head = base /\ head_is w rid base
  | OpCommit _ a g => gnc_quiet a g w
  | OpSleep _ => False
  | OpDone ret _ None => ret < 0
  | OpDone ret _ (Some id) => ret = 0 /\ published w id
  end.

Lemma published_mono w w' id :
  w_commits w ⊆ w_commits w' -> w_fs w ⊆ w_fs w' -> head_of w' rid = head_of w rid -> published w id -> published w' id.
Proof.
  intros Hc Hf Hh (Hw & new & root & Hn & Hi & Hr & Hroot). split; [by rewrite Hh|].
  exists new, root. split_and!; try done; [by eapply stored_commit_mono|by eapply HR].
Qed.

Lemma op_quiet_mono pc w w' :
  w_commits w ⊆ w_commits w' -> w_fs w ⊆ w_fs w' -> head_of w' rid = head_of w rid -> op_quiet pc w -> op_quiet pc w'.
Proof.
  intros Hc Hf Hh. destruct pc as [repo head names|names a g|names|ret names [id|]]; cbn; try done.
  - intros (? & ? & ?). split_and!; try done. by eapply head_is_mono.
  - intros (? & ? & HRa & Hw & Hg). split_and!; try done; [by eapply HR|by eapply working_mono|].
    destruct g as [| | | | |[|]]; cbn in *; try (by eapply head_is_mono); [|by eapply published_mono].
    destruct Hg. split; [by eapply head_is_mono|done].
  - intros [-> Hp]. split; [done|]. by eapply published_mono.
Qed.

Lemma gnc_quiet_step o a g w g' w' :
  gnc_step sha1 sha256 dir_hash fuel se g_utf8_validate o a g w = Some (g', w') -> ids_unique g' w' ->
  gnc_quiet a g w -> gnc_quiet a g' w' /\ frames rid w w'.
Proof.
  intros E Hids (Ha & Hb & HRa & Hw & Hg).
  pose proof (working_step _ _ _ _ _ _ _ _ _ _ _ _ _ Ha Hw E Hids) as Hw'.
  pose proof (step_publishes _ _ _ _ _ _ _ _ _ _ _ _ _ Hw E) as Hpub.
  destruct (gnc_step_frame _ _ _ _ _ _ _ _ _ _ _ _ E) as [Hc _].
  assert (Hsame : w_db w' = w_db w -> w_fs w' = w_fs w ->
    (match g' with GncDone (inr _) => False | GncRetry repo _ _ => b_commit_id (r_head repo) = commit_id base | _ => True end) ->
    head_is w rid base -> gnc_quiet a g' w' /\ frames rid w w').
  { intros Hd Hf Hg' Hh. split; [|by apply frames_same; [done|rewrite Hf|]].
    assert (head_is w' rid base) by (apply (head_is_mono w); [done|unfold head_of; by rewrite Hd|done]).
    split_and!; try done; [by rewrite Hf|]. destruct g' as [| | | | |[|]]; (done || by split). }
  destruct g as [|repo new n|repo new head merged n|repo new head merged n acl ch|new n|]; cbn [gnc_step] in E; [| | | | |done].
  - injection E as E. unfold gnc_start in E. destruct (seaf_repo_manager_get_repo _ _ _) as [repo|] eqn:Er;
      [|simplify_eq; by apply Hsame].
    destruct (seaf_commit_manager_add_commit _ _ _) as [ret cs]. destruct (ret <? 0); simplify_eq; apply Hsame; try done.
    rewrite Ha in Er. by apply (get_repo_head_is _ _ _ _ Er).
  - destruct Hg as [Hh Hb']. unfold gnc_retry in E. rewrite Hb', (hi_stored _ _ _ Hh), Hb, strcmp_refl in E. cbn [negb] in E.
    injection E as <- <-. by apply Hsame.
  - unfold gnc_phase_a in E. destruct (phase_a _ _ _ _ _ _ _) as [[[[acl ch]|] w1]|] eqn:E1; [..|done];
      pose proof (phase_a_fs _ _ _ _ _ _ _ _ _ _ E1); apply phase_a_frame in E1 as [_ Hd]; simplify_eq; by apply Hsame.
  - injection E as E.
    unfold gnc_phase_b in E. destruct (phase_b _ _ _ _ _ _ _ _ _ _ _ _) as [[r gc] w1] eqn:E1.
    destruct Hw as ([Hn Hrid] & Hown & Hready).
    assert (Hfr : frames rid w w1).
    { pose proof (phase_b_frames _ _ _ _ _ _ _ _ _ _ _ _ E1) as H. cbn in H. rewrite Hrid in H. by apply H. }
    pose proof (phase_b_fs _ _ _ _ _ _ _ _ _ _ _ _ _ _ _ E1) as Hfs. injection E as Eg <-.
    split; [|done]. split_and!; try done; [by rewrite Hfs|].
    destruct Hpub as [[Hhd Hnd]|(new' & head' & merged' & Eg' & Hp)].
    + assert (head_is w1 rid base) by by eapply head_is_mono.
      destruct g' as [| | | | |[|id]]; try done; [|by destruct (Hnd id)].
      exfalso. revert Eg. clear. repeat case_match; done.
    + rewrite Eg'. destruct Hp as ([Hst [Hroot _]] & (Hsm & _ & _ & _ & Hmb) & Hcs & (h & Hhw & Hhc) & Hh2).
      destruct Hg as [Hbs (h' & Hh' & Ht')]. rewrite Hhw in Hh'. injection Hh' as <-.
      assert (merged' = new') as -> by (apply Hmb; rewrite Hb; congruence).
      split; [done|]. exists new', (ga_new_root a). rewrite Hcs, Hfs. by split_and!.
  - injection E as E. unfold gnc_wake in E. destruct (seaf_repo_manager_get_repo _ _ _) as [repo|] eqn:Er;
      simplify_eq; apply Hsame; try done. rewrite Ha in Er. by apply (get_repo_head_is _ _ _ _ Er).
Qed.

Context (Q : fs_store -> Prop) (Hnr : op_retries op = false).
Context (Htree : forall o st r st', op_tree op repo0 base o st = (r, st') ->
  st ⊆ st' /\ (Q st -> match r with TreeNew root _ _ => R st' root | TreeSame => False | TreeFails => True end)).

Lemma after_commit_same w : w_commits (after_commit op w) = w_commits w /\ w_fs (after_commit op w) = w_fs w.
Proof.
  unfold after_commit, update_size. assert (H : forall l w0, w_commits (foldl (fun w id => emit w (EvMergeVirtualRepo id)) w0 l) = w_commits w0
    /\ w_fs (foldl (fun w id => emit w (EvMergeVirtualRepo id)) w0 l) = w_fs w0).
  { induction l as [|id l IH]; intros w0; [done|]. cbn [foldl]. destruct (IH (emit w0 (EvMergeVirtualRepo id))) as [-> ->]. done. }
  destruct (op_sizes op); cbn; apply H.
Qed.

Lemma op_quiet_step o pc w s pc' w' s' :
  op_step sha1 sha256 dir_hash fuel se g_utf8_validate providers o op pc w s = Some (pc', w', s') -> op_ids_unique pc' w' ->
  Q (w_fs w) -> op_quiet pc w -> op_quiet pc' w' /\ frames rid w w'.
Proof.
  intros E Hids HQ H. destruct pc as [repo head names|names a g|names|]; cbn [op_step] in E; [| |done|done].
  - destruct H as (-> & -> & Hh). destruct (op_tree op repo0 base o (w_fs w)) as [r st] eqn:Et.
    destruct (Htree _ _ _ _ Et) as [Hsub Hr]. specialize (Hr HQ).
    destruct r as [| |root desc new]; injection E as <- <- <-; [|done|].
    + split; [cbn; lia|]. by apply frames_same.
    + split; [|by apply frames_same]. split_and!; try done. by apply (head_is_mono w).
  - assert (Hd : (exists r, g = GncDone r) \/ forall r, g <> GncDone r) by (destruct g; by eauto).
    destruct Hd as [[r ->]|Hnd].
    + destruct H as (_ & _ & _ & _ & Hg). destruct r as [e|id].
      * rewrite Hnr in E. destruct e; injection E as <- <- <-; (split; [cbn; lia|by apply frames_same]).
      * injection E as <- <- <-. destruct (after_commit_same w) as [Hc Hf].
        split; [|apply frames_same; [by rewrite Hc|by rewrite Hf|apply db_after_commit]]. split; [done|].
        apply (published_mono w); [by rewrite Hc|by rewrite Hf|unfold head_of; by rewrite db_after_commit|done].
    + assert (E' : ('(pc, w) ← gnc_step sha1 sha256 dir_hash fuel se g_utf8_validate o a g w;
        Some (OpCommit names a pc, w, s)) = Some (pc', w', s')) by (destruct g; try done; by destruct (Hnd r)).
      apply bind_Some in E' as ([g1 w1] & Eg & [= <- <- <-]). by eapply gnc_quiet_step.
Qed.
End quiet.

(** ** The two updates of a merge *)

(** The path of a directory: the components of the directory above it, its name. *)
Record dir_path (path : string) (parts : list string) (n : string) : Prop := {
  dp_components : components path = parts ++ [n];
  dp_parent : strchr_parts (skip_slash (get_canonical_path (g_path_get_dirname path))) = parts;
  dp_name : g_path_get_basename path = n;
  dp_root : strcmp path "/" <> 0
}.

Section updates.
Context (dir_hash : Z -> list SeafDirent -> string) (fuel : nat) (se : Session).
Context {S : Type} (providers : list (Provider S)).

Lemma update_root_running o repo_id root user head w0 s0 op repo head' w1 s1 :
  seaf_repo_manager_update_dir dir_hash fuel se providers o repo_id "/" root user (Some (commit_id head)) w0 s0
    = Running op repo head' w1 s1 ->
  stored_commit (w_commits w0) head ->
  w1 = w0 /\ head' = head /\ op_repo_id op = repo_id /\ op_retries op = false /\ op_tree op = update_root_tree fuel root /\
  seaf_repo_manager_get_repo (w_db w0) (w_commits w0) repo_id = Some repo.
Proof.
  unfold seaf_repo_manager_update_dir. intros E Hh.
  destruct (seaf_repo_manager_get_repo _ _ _) as [r|]; [|done]. cbn [default] in E. rewrite Hh in E.
  destruct (cf_fileop_prepare _ _ _) as [[ret e] s2]. destruct (ret <? 0); [done|].
  change (strcmp "/" "/" =? 0) with true in E. cbv iota in E. by injection E as <- <- <- <- <-.
Qed.

Lemma update_dir_running o repo_id path parts n root user head w0 s0 op repo head' w1 s1 :
  dir_path path parts n ->
  seaf_repo_manager_update_dir dir_hash fuel se providers o repo_id path root user (Some (commit_id head)) w0 s0
    = Running op repo head' w1 s1 ->
  stored_commit (w_commits w0) head ->
  w1 = w0 /\ head' = head /\ op_repo_id op = repo_id /\ op_retries op = false /\
  op_tree op = update_dir_tree dir_hash fuel (get_canonical_path (g_path_get_dirname path))
    (seaf_dirent_new (dir_version_from_repo_version (r_version repo)) root S_IFDIR n (o_now o) None (-1)) /\
  seaf_repo_manager_get_repo (w_db w0) (w_commits w0) repo_id = Some repo.
Proof.
  intros [_ _ Hn Hr]. unfold seaf_repo_manager_update_dir. intros E Hh.
  destruct (seaf_repo_manager_get_repo _ _ _) as [r|]; [|done]. cbn [default] in E. rewrite Hh in E.
  destruct (cf_fileop_prepare _ _ _) as [[ret e] s2]. destruct (ret <? 0); [done|].
  rewrite (proj2 (Z.eqb_neq _ _) Hr), Hn in E. destruct (is_none _); [done|]. by injection E as <- <- <- <- <-.
Qed.
End updates.

(** A store that is a library and whose directories have ids of 40 hexadecimal digits. *)
Record sound (dir_hash : Z -> list SeafDirent -> string) (version : Z) (st : fs_store) : Prop := {
  so_library : library_ok dir_hash version st;
  so_ids : forall id, is_Some (seaf_fs_manager_get_seafdir st version id) -> is_object_id_valid (Some id) = true
}.

Section trees.
Context (dir_hash : Z -> list SeafDirent -> string) (fuel : nat).

Lemma update_root_adds root repo head o st r st' :
  update_root_tree fuel root repo head o st = (r, st') ->
  st' = st /\ match r with TreeNew x _ _ => x = root | TreeSame => False | TreeFails => True end.
Proof.
  unfold update_root_tree, described. destruct (gen_commit_description _ _ _ _ _); by intros [= <- <-].
Qed.

(** The directory at the path is the new one. *)
Lemma update_dir_sets version path parts n root repo head o now st r st' id0 :
  collision_free dir_hash version -> dir_path path parts n -> r_version repo = version ->
  update_dir_tree dir_hash fuel (get_canonical_path (g_path_get_dirname path))
    (seaf_dirent_new (dir_version_from_repo_version version) root S_IFDIR n now None (-1)) repo head o st = (r, st') ->
  st ⊆ st' /\
  (library_ok dir_hash version st -> is_Some (seaf_fs_manager_get_seafdir st version root) ->
   is_object_id_valid (Some root) = true ->
   seaf_fs_manager_get_seafdir_id_by_path st version (root_id head) path = inr (Some id0) ->
   match r with
   | TreeNew x _ _ => seaf_fs_manager_get_seafdir_id_by_path st' version x path = inr (Some root)
   | TreeSame => False
   | TreeFails => True
   end).
Proof.
  intros Hcf [Hc Hp Hn _] Hv. subst version. unfold update_dir_tree.
  set (e := seaf_dirent_new _ _ _ _ _ _ _).
  destruct (do_put_file dir_hash (o_dir_write o) _ _ _ _ _ _) as [res st1] eqn:Ed.
  assert (Hsub : st ⊆ st1).
  { unfold do_put_file, rewrite_at in Ed.
    match type of Ed with rewrite_path _ ?wr ?v ?now ?t ?tg ?p ?id _ = _ =>
      pose proof (proj1 (rewrite_path_fails dir_hash v now t tg wr p id st)) as H end.
    by rewrite Ed in H. }
  destruct res as [x|]; [|by intros [= <- <-]].
  unfold described. destruct (gen_commit_description _ _ _ _ _) as [desc|]; intros [= <- <-]; (split; [done|]); [|done].
  intros Hlib Hroot Hvalid Hold. apply (seafdir_id_entries _ _ _ _ parts n) in Hold as (l & d & Hl & Hd & _); [|apply Hlib|done].
  apply rewrite_at_done in Ed. unfold do_put_file, rewrite_at in Ed. rewrite Hp in Ed.
  assert (Hname : d_name e = n) by apply d_name_dirent_new.
  assert (Hat : at_dir dir_hash (r_version repo) st (root_id head) (get_canonical_path (g_path_get_dirname path)) l)
    by (split; [done|by rewrite Hp]).
  destruct (at_sorted _ _ _ _ _ _ Hat) as [Hs Hr].
  assert (Hlk : lookup_name n (replace_dent e l) = Some e).
  { rewrite lookup_replace_dent, Hname, String.eqb_refl. by rewrite Hd. }
  assert (Hed : d_id e = root /\ S_ISDIR (d_mode e) = true).
  { split; [apply d_id_dirent_new|]. unfold e. rewrite S_ISDIR_dirent_new. done. }
  destruct (rewrite_path_new dir_hash (r_version repo) (o_now o) Hcf true (put_target e) parts (root_id head) st l
    (replace_dent e l) tt Hlib Hl) as (id' & st2 & E2 & Hrw); [done|..].
  - by apply (sorted_same_names l); [rewrite replace_dent_names|].
  - intros y (z & -> & Hz)%list_elem_of_fmap. case_match; [|by apply Hr]. intros _. by destruct Hed as [-> _].
  - rewrite E2 in Ed. injection Ed as <- <-. cbn [rw_id].
    apply (seafdir_id_entries _ _ _ _ parts n); [apply Hrw|done|]. exists (replace_dent e l), e.
    destruct Hed as [-> ->]. split_and!; try done. apply Hrw.
Qed.
End trees.

(** ** The merge task *)

Section merge.
Context (sha1 : list Z -> list Z) (sha256 : list Z -> string).
Context (dir_hash : Z -> list SeafDirent -> string) (version : Z) (Hcf : collision_free dir_hash version).
Context (fuel : nat) (se : Session) (g_utf8_validate : string -> bool).
Context (is_uuid_valid : string -> bool) (fails : acl_query -> bool).
Context {S : Type} (providers : list (Provider S)).
(** The virtual library, its origin, the path of the directory. *)
Context (vid oid path : string) (parts : list string) (n : string) (Hpath : dir_path path parts n) (Hne : vid <> oid).
Abbreviation vm_step := (merge_virtual_repo sha1 sha256 dir_hash fuel se g_utf8_validate is_uuid_valid fails providers).

Definition vm_ids_unique (pc : vm_pc) (w : World) : Prop :=
  match pc with VmVirtual _ _ _ pc | VmOriginDir _ _ pc => op_ids_unique pc w | _ => True end.

(** The two heads and the rows of the two libraries are the same. *)
Definition same_sides (w w' : World) : Prop :=
  head_of w' vid = head_of w vid /\ head_of w' oid = head_of w oid /\
  t_VirtualRepo (w_db w') !! vid = t_VirtualRepo (w_db w) !! vid /\
  t_VirtualRepo (w_db w') !! oid = t_VirtualRepo (w_db w) !! oid.

(** The store is sound, and the ids of virtual libraries fit their column, a [CHAR(36)]. *)
Record world_ok (w : World) : Prop := {
  wo_sound : sound dir_hash version (w_fs w);
  wo_ids : forall id, is_Some (t_VirtualRepo (w_db w) !! id) -> (String.length id <= 36)%nat
}.

(** The task takes a step, or other processes do something that leaves the two heads and
    the rows alone.  The trace has the task's own steps: what the environment answered, the
    state before and the state after. *)
Inductive vm_run (w0 : World) (s0 : S) (q0 : MergeScheduler)
  : list (Oracle * World * World) -> vm_pc -> World -> S -> MergeScheduler -> Prop :=
| vm_start : world_ok w0 -> vm_run w0 s0 q0 [] VmStart w0 s0 q0
| vm_own tr pc w s q o pc' w' s' q' :
    vm_run w0 s0 q0 tr pc w s q -> vm_step o vid pc w s q = Some (pc', w', s', q') -> vm_ids_unique pc' w' ->
    world_ok w' -> vm_run w0 s0 q0 (tr ++ [(o, w, w')]) pc' w' s' q'
| vm_others tr pc w s q w' q' :
    vm_run w0 s0 q0 tr pc w s q -> w_commits w ⊆ w_commits w' -> w_fs w ⊆ w_fs w' -> same_sides w w' ->
    world_ok w' -> vm_run w0 s0 q0 tr pc w' s q'.

(** What the two directories and their base become: the one that changed, or the three-way
    merge of the three that one step of the task made, in the store of that step, which has
    all of the store at the start. *)
Inductive reconciled (st0 : fs_store) (tr : list (Oracle * World * World)) (base_root orig_root root : string) : string -> Prop :=
| rec_same : root = orig_root -> reconciled st0 tr base_root orig_root root root
| rec_origin : base_root = root -> reconciled st0 tr base_root orig_root root orig_root
| rec_virtual : base_root = orig_root -> reconciled st0 tr base_root orig_root root root
| rec_merge o wa wb ret ms :
    (o, wa, wb) ∈ tr -> st0 ⊆ w_fs wa ->
    seaf_merge_trees (o_conflict_filename o) (o_conflict_dirname o) dir_hash (o_dir_write o) version fuel
      [base_root; orig_root; root] (mkMS (w_fs wa) EmptyString 0 false) = Some (ret, ms) -> 0 <= ret ->
    w_fs wb = ms_store ms ->
    reconciled st0 tr base_root orig_root root (merged_tree_root ms).

(** The root of the virtual library is the directory of the origin. *)
Definition together (w : World) (result : string) (oh : SeafCommit) : Prop :=
  exists vh, head_is w vid vh /\ root_id vh = result /\ head_is w oid oh /\
    seaf_fs_manager_get_seafdir_id_by_path (w_fs w) version (root_id oh) path = inr (Some result).

(** The row, the heads and the directories at the start. *)
Context (v0 : SeafVirtRepo) (cv co : SeafCommit) (base_root orig_root : string) (Hversion : CommitMgr.version co = version).
Context (Hv0 : string_take 36 (v_origin_repo_id v0) = oid /\ v_path v0 = path).

(** The row of the virtual library; the origin is not a virtual library. *)
Definition rows (w : World) (v : SeafVirtRepo) : Prop :=
  t_VirtualRepo (w_db w) !! vid = Some v /\ t_VirtualRepo (w_db w) !! oid = None.

Record before (st0 : fs_store) (w : World) : Prop := {
  be_store : st0 ⊆ w_fs w;
  be_row : rows w v0;
  be_virtual : head_is w vid cv;
  be_origin : head_is w oid co;
  be_root : is_Some (seaf_fs_manager_get_seafdir (w_fs w) version (root_id cv));
  be_dir : seaf_fs_manager_get_seafdir_id_by_path (w_fs w) version (root_id co) path = inr (Some orig_root);
  be_base : exists b, seaf_commit_manager_get_commit (w_commits w) (string_take 40 (v_base_commit v0)) = Some b /\
    seaf_fs_manager_get_seafdir_id_by_path (w_fs w) version (root_id b) path = inr (Some base_root)
}.

(** What the task has read. *)
Record ctx_ok (c : vm_ctx) : Prop := {
  cx_id : r_id (vc_repo c) = vid;
  cx_info : vc_vinfo c = load_virtual_info v0;
  cx_head : vc_head c = cv;
  cx_orig_head : vc_orig_head c = co;
  cx_orig_commit : b_commit_id (r_head (vc_orig_repo c)) = commit_id co;
  cx_version : r_version (vc_orig_repo c) = version
}.

Record rec_ok (st0 : fs_store) (tr : list (Oracle * World * World)) (w : World) (result : string) : Prop := {
  rc_result : reconciled st0 tr base_root orig_root (root_id cv) result;
  rc_valid : is_object_id_valid (Some result) = true;
  rc_stored : is_Some (seaf_fs_manager_get_seafdir (w_fs w) version result)
}.

(** The rows that are looked after at the end: the origin is not among them, and the row of
    the virtual library has its path. *)
Definition list_ok (l : list (string * SeafVirtRepo)) : Prop :=
  Forall (fun row => row.1 <> oid /\ (row.1 = vid -> v_path row.2 = path)) l.

Definition edit_ok (e : edit_args) (pc : edit_pc) : Prop :=
  ed_repo_id e <> vid /\ ed_repo_id e <> oid /\
  match pc with EditPhaseA repo _ _ _ | EditPhaseB repo _ _ _ _ _ => repo_of (ed_repo_id e) repo | _ => True end.

Definition cleanup_ok (oh : SeafCommit) (pc : cleanup_pc) : Prop :=
  match pc with
  | CleanupStart | CleanupDone => True
  | CleanupRows _ head l => head = oh /\ list_ok l
  | CleanupEdit _ head l e pc => head = oh /\ list_ok l /\ edit_ok e pc
  end.

Section merge_inv.
Context (st0 : fs_store).

(** Both libraries are through. *)
Record through (tr : list (Oracle * World * World)) (w : World) (result : string) (oh : SeafCommit) : Prop := {
  th_rec : rec_ok st0 tr w result;
  th_together : together w result oh;
  th_rows : rows w (mkVirt (v_origin_repo_id v0) path (commit_id oh))
}.

(** What holds at each point of the task. *)
Definition vm_inv (tr : list (Oracle * World * World)) (pc : vm_pc) (w : World) : Prop :=
  match pc with
  | VmStart => before st0 w
  | VmOrigin repo vinfo =>
      before st0 w /\ r_id repo = vid /\ vinfo = load_virtual_info v0 /\ b_commit_id (r_head repo) = commit_id cv
  | VmRename _ _ _ _ | VmDone VmGone => False
  | VmRoots c root => before st0 w /\ ctx_ok c /\ root = orig_root
  | VmVirtual c merged_root op pc =>
      ctx_ok c /\ rows w v0 /\ head_is w oid co /\
      seaf_fs_manager_get_seafdir_id_by_path (w_fs w) version (root_id co) path = inr (Some orig_root) /\
      exists result repo0, rec_ok st0 tr w result /\ result = default orig_root merged_root /\
        op_repo_id op = vid /\ op_retries op = false /\ op_tree op = update_root_tree fuel result /\
        op_quiet op repo0 cv (fun _ root => root = result) pc w
  | VmOriginDir c op pc =>
      ctx_ok c /\ rows w v0 /\
      seaf_fs_manager_get_seafdir_id_by_path (w_fs w) version (root_id co) path = inr (Some orig_root) /\
      exists result repo0 now vh, rec_ok st0 tr w result /\ head_is w vid vh /\ root_id vh = result /\
        op_repo_id op = oid /\ op_retries op = false /\ r_version repo0 = version /\
        op_tree op = update_dir_tree dir_hash fuel (get_canonical_path (g_path_get_dirname path))
          (seaf_dirent_new (dir_version_from_repo_version version) result S_IFDIR n now None (-1)) /\
        op_quiet op repo0 co (fun st root => seaf_fs_manager_get_seafdir_id_by_path st version root path = inr (Some result)) pc w
  | VmCleanup c pc => ctx_ok c /\ exists result oh, through tr w result oh /\ cleanup_ok oh pc
  | VmDone VmTaken | VmDone VmMerged => exists result oh, through tr w result oh
  | VmDone VmNothing => exists result, rec_ok st0 tr w result /\ together w result co
  | _ => True
  end.

Lemma rows_same w w' v : same_sides w w' -> rows w v -> rows w' v.
Proof. intros (_ & _ & H3 & H4) [R1 R2]. split; congruence. Qed.

Lemma before_mono w w' : w_commits w ⊆ w_commits w' -> w_fs w ⊆ w_fs w' -> same_sides w w' -> before st0 w -> before st0 w'.
Proof.
  intros Hc Hf Hss [T R V O (d & Hd) D (b & Hb & Hr)]. pose proof Hss as (H1 & H2 & _). split.
  - by trans (w_fs w).
  - by eapply rows_same.
  - by eapply head_is_mono.
  - by eapply head_is_mono.
  - exists d. by eapply get_seafdir_mono.
  - by eapply seafdir_id_mono.
  - exists b. split; [by eapply get_commit_mono|by eapply seafdir_id_mono].
Qed.

Lemma rec_ok_mono tr w w' result : w_fs w ⊆ w_fs w' -> rec_ok st0 tr w result -> rec_ok st0 tr w' result.
Proof. intros Hf [? ? (d & Hd)]. split; try done. exists d. by eapply get_seafdir_mono. Qed.

Lemma rec_ok_trace tr tr' w result : rec_ok st0 tr w result -> rec_ok st0 (tr ++ tr') w result.
Proof.
  intros [Hr ? ?]. split; try done. destruct Hr as [| | |o wa wb ret ms Hin]; [by apply rec_same|by apply rec_origin|by apply rec_virtual|].
  eapply rec_merge; try done. apply elem_of_app. by left.
Qed.

Lemma together_mono w w' result oh :
  w_commits w ⊆ w_commits w' -> w_fs w ⊆ w_fs w' -> head_of w' vid = head_of w vid -> head_of w' oid = head_of w oid ->
  together w result oh -> together w' result oh.
Proof.
  intros Hc Hf Hv Ho (vh & H1 & H2 & H3 & H4). exists vh.
  split_and!; [by eapply head_is_mono|done|by eapply head_is_mono|by eapply seafdir_id_mono].
Qed.

Lemma through_mono tr w w' result oh :
  w_commits w ⊆ w_commits w' -> w_fs w ⊆ w_fs w' -> same_sides w w' -> through tr w result oh -> through tr w' result oh.
Proof.
  intros Hc Hf Hss [H1 H2 H3]. pose proof Hss as (Hv & Ho & _).
  split; [by eapply rec_ok_mono|by eapply together_mono|by eapply rows_same].
Qed.

Lemma through_trace tr tr' w result oh : through tr w result oh -> through (tr ++ tr') w result oh.
Proof. intros [H1 H2 H3]. split; [by apply rec_ok_trace|done..]. Qed.

Lemma vm_inv_trace tr tr' pc w : vm_inv tr pc w -> vm_inv (tr ++ tr') pc w.
Proof.
  destruct pc as [|repo vinfo|c np e pc|c root|c mr op pc|c op pc|c pc|[]]; cbn; try done.
  - intros (Hx & Hr & Ho & Hd & result & repo0 & Hrec & H). split_and!; try done.
    exists result, repo0. split; [by apply rec_ok_trace|done].
  - intros (Hx & Hr & Hd & result & repo0 & now & vh & Hrec & H). split_and!; try done.
    exists result, repo0, now, vh. split; [by apply rec_ok_trace|done].
  - intros (Hx & result & oh & Ht & H). split; [done|]. exists result, oh. split; [by apply through_trace|done].
  - intros (result & Hrec & H). exists result. split; [by apply rec_ok_trace|done].
  - intros (result & oh & Ht). exists result, oh. by apply through_trace.
  - intros (result & oh & Ht). exists result, oh. by apply through_trace.
Qed.

Lemma vm_inv_others tr pc w w' :
  w_commits w ⊆ w_commits w' -> w_fs w ⊆ w_fs w' -> same_sides w w' -> vm_inv tr pc w -> vm_inv tr pc w'.
Proof.
  intros Hc Hf Hs. pose proof Hs as (H1 & H2 & _).
  destruct pc as [|repo vinfo|c np e pc|c root|c mr op pc|c op pc|c pc|[]]; cbn; try done.
  - by apply before_mono.
  - intros (Hb & ?). split; [by eapply before_mono|done].
  - intros (Hb & ?). split; [by eapply before_mono|done].
  - intros (Hx & Hr & Ho & Hd & result & repo0 & Hrec & Hres & Hid & Hnr & Ht & Hq).
    split_and!; [done|by eapply rows_same|by eapply head_is_mono|by eapply seafdir_id_mono|].
    exists result, repo0. split_and!; try done; [by eapply rec_ok_mono|].
    eapply (op_quiet_mono g_utf8_validate); [|done|done| |done]; [done|by rewrite Hid].
  - intros (Hx & Hr & Hd & result & repo0 & now & vh & Hrec & Hv & Hvr & Hid & Hnr & Hver & Ht & Hq).
    split_and!; [done|by eapply rows_same|by eapply seafdir_id_mono|].
    exists result, repo0, now, vh. split_and!; try done; [by eapply rec_ok_mono|by eapply head_is_mono|].
    eapply (op_quiet_mono g_utf8_validate); [|done|done| |done]; [intros st st' root; by apply seafdir_id_mono|by rewrite Hid].
  - intros (Hx & result & oh & Ht & H). split; [done|]. exists result, oh. split; [by eapply through_mono|done].
  - intros (result & Hrec & Ht). exists result. split; [by eapply rec_ok_mono|by eapply together_mono].
  - intros (result & oh & Ht). exists result, oh. by eapply through_mono.
  - intros (result & oh & Ht). exists result, oh. by eapply through_mono.
Qed.

Lemma valid_take id : is_object_id_valid (Some id) = true -> string_take 40 id = id.
Proof. intros [H _]%is_object_id_valid_spec. apply string_take_length. lia. Qed.

(** The commit an operation published is the head. *)
Lemma published_head op R w id : published op R w id ->
  exists new root, head_is w (op_repo_id op) new /\ commit_id new = id /\ R (w_fs w) root /\ root_id new = string_take 40 root.
Proof.
  intros (Hh & new & root & Hst & Hid & Hr & Hroot). exists new, root. split_and!; try done. split; [done|].
  exists id. split; [done|]. rewrite <- Hid. apply string_take_length. rewrite (stored_commit_length _ _ Hst). lia.
Qed.

(** The beginning of the update of the virtual library. *)
Lemma update_virtual_inv tr o c merged_root result w s pc' w' s' :
  ctx_ok c -> rows w v0 -> head_is w vid cv -> head_is w oid co ->
  seaf_fs_manager_get_seafdir_id_by_path (w_fs w) version (root_id co) path = inr (Some orig_root) ->
  rec_ok st0 tr w result -> result = default orig_root merged_root ->
  update_virtual dir_hash fuel se providers o c merged_root result w s = (pc', w', s') -> vm_inv tr pc' w'.
Proof.
  intros Hx Hr Hv Ho Hd Hrec Hres. unfold update_virtual, begin_update, vrepo_id.
  rewrite (cx_id _ Hx), (cx_head _ Hx). destruct (seaf_repo_manager_update_dir _ _ _ _ _ _ _ _ _ _ _ _) eqn:E; intros [= <- <- <-]; [done|].
  destruct (update_root_running _ _ _ _ _ _ _ _ _ _ _ _ _ _ _ _ E (hi_stored _ _ _ Hv)) as (-> & -> & Hid & Hnr & Ht & Hrepo).
  cbn. split_and!; try done. exists result, repo. split_and!; try done. by rewrite Hid.
Qed.

(** The beginning of the update of the origin. *)
Lemma update_origin_inv tr o c result vh w s pc' w' s' :
  ctx_ok c -> rows w v0 -> head_is w vid vh -> root_id vh = result -> head_is w oid co ->
  seaf_fs_manager_get_seafdir_id_by_path (w_fs w) version (root_id co) path = inr (Some orig_root) -> rec_ok st0 tr w result ->
  update_origin dir_hash fuel se providers o c result w s = (pc', w', s') -> vm_inv tr pc' w'.
Proof.
  intros Hx Hr Hv Hvr Ho Hd Hrec. unfold update_origin, begin_update, orig_id.
  rewrite (cx_info _ Hx), (cx_orig_head _ Hx). cbn [load_virtual_info v_origin_repo_id v_path].
  destruct Hv0 as [-> ->]. destruct (seaf_repo_manager_update_dir _ _ _ _ _ _ _ _ _ _ _ _) eqn:E; intros [= <- <- <-]; [done|].
  destruct (update_dir_running _ _ _ _ _ _ _ _ _ _ _ _ _ _ _ _ _ _ _ Hpath E (hi_stored _ _ _ Ho)) as (-> & -> & Hid & Hnr & Ht & Hrepo).
  destruct (get_repo_head_is _ _ _ _ Hrepo Ho) as (_ & Hver & _). rewrite Hversion in Hver.
  cbn. split_and!; try done. exists result, repo, (o_now o), vh. split_and!; try done; [by rewrite <- Hver at 1|by rewrite Hid].
Qed.

(** Comparing the directories. *)
Lemma compare_roots_inv tr o c w s pc' w' s' :
  before st0 w -> (o, w, w') ∈ tr -> ctx_ok c -> sound dir_hash version (w_fs w) -> sound dir_hash version (w_fs w') ->
  compare_roots dir_hash fuel se providers o c orig_root w s = Some (pc', w', s') -> vm_inv tr pc' w'.
Proof.
  intros Hb Htr Hx Hs Hs'. pose proof Hb as [T R V O Rt D (b & Hbc & Hbr)].
  assert (Hdv : is_object_id_valid (Some orig_root) = true /\ is_Some (seaf_fs_manager_get_seafdir (w_fs w) version orig_root)).
  { apply (seafdir_id_entries _ _ _ _ parts n) in D as (l & d & Hl & Hd & Hm & <- & Hv); [|apply Hs|apply Hpath].
    split; [done|]. destruct (entries_at_dir _ _ _ _ _ Hl) as (i & dir & Hg & <-). apply lookup_name_Some in Hd as [Hin _].
    eapply tidy_closed; [apply Hs|done..]. }
  unfold compare_roots. rewrite (cx_info _ Hx), (cx_head _ Hx). cbn [load_virtual_info v_base_commit v_path].
  rewrite Hbc. unfold dir_of. rewrite (cx_version _ Hx). destruct Hv0 as [_ ->]. rewrite Hbr.
  destruct (strcmp (root_id cv) orig_root =? 0) eqn:E1.
  { apply Z.eqb_eq, strcmp_eq in E1. intros [= <- <- <-]. exists (root_id cv). split.
    - split; [by apply rec_same|rewrite E1; apply Hdv|done].
    - exists cv. split_and!; try done. by rewrite D, E1. }
  destruct (strcmp base_root (root_id cv) =? 0) eqn:E2.
  { apply Z.eqb_eq, strcmp_eq in E2. intros [= E]. eapply update_virtual_inv; [..|exact E]; try done.
    split; [by apply rec_origin|apply Hdv..]. }
  destruct (strcmp base_root orig_root =? 0) eqn:E3.
  { apply Z.eqb_eq, strcmp_eq in E3. intros [= E]. eapply update_origin_inv; [..|exact E]; try done.
    split; [by apply rec_virtual|by apply Hs|done]. }
  intros E. apply bind_Some in E as ([ret ms] & Em & E). injection E as E.
  pose proof (seaf_merge_trees_adds _ _ _ _ _ _ _ _ _ _ Em) as Hadd. cbn in Hadd.
  destruct (Z.ltb_spec ret 0); [by injection E as <- <- <-|].
  assert (Hw' : w_fs w' = ms_store ms).
  { revert E. unfold update_virtual, begin_update. destruct (seaf_repo_manager_update_dir _ _ _ _ _ _ _ _ _ _ _ _) eqn:Eu.
    - revert Eu. unfold seaf_repo_manager_update_dir. intros Eu. repeat case_match; simplify_eq; by intros [= _ <- _].
    - destruct (update_root_running _ _ _ _ _ _ _ _ _ _ _ _ _ _ _ _ Eu) as (-> & _); [rewrite (cx_head _ Hx); apply V|].
      by intros [= _ <- _]. }
  eapply update_virtual_inv; [..|exact E]; try done.
  - by apply (head_is_mono w).
  - by apply (head_is_mono w).
  - by eapply seafdir_id_mono.
  - rewrite Hw' in Hs'. assert (Hst : is_Some (seaf_fs_manager_get_seafdir (ms_store ms) version (merged_tree_root ms))).
    { eapply merge_root_stored; [done|apply Hs'|exact Em|done]. }
    split; [by eapply (rec_merge _ _ _ _ _ o w w')|by apply Hs'|done].
Qed.

Lemma set_base_row c base w : ctx_ok c -> rows w v0 ->
  rows (set_base c base w) (mkVirt (v_origin_repo_id v0) path base) /\
  forall r, head_of (set_base c base w) r = head_of w r.
Proof.
  intros Hx [Hr Ho]. unfold set_base, vrepo_id, set_virtual_repo_base_commit_path, rows.
  rewrite (cx_id _ Hx), (cx_info _ Hx), Hr. cbn. destruct Hv0 as [_ ->]. by rewrite lookup_insert_eq, lookup_insert_ne.
Qed.

Lemma get_repo_row db cs id repo :
  seaf_repo_manager_get_repo db cs id = Some repo ->
  r_id repo = id /\ r_virtual repo = load_virtual_info <$> t_VirtualRepo db !! id.
Proof.
  unfold seaf_repo_manager_get_repo, create_repo. destruct (Nat.leb_spec 37 (String.length id)); [done|].
  case_bool_decide; [|done]. destruct (t_Branch db !! _); [|done]. cbn [mbind option_bind].
  destruct (seaf_commit_manager_get_commit cs _); [|done]. cbn [mbind option_bind]. intros [= <-]. cbn.
  rewrite string_take_length by lia. split; [done|]. by destruct (t_VirtualRepo db !! id).
Qed.

(** The update of the virtual library goes on. *)
Lemma virtual_step_inv tr o c mr op pc w s pc' w' s' :
  vm_inv tr (VmVirtual c mr op pc) w ->
  op_step sha1 sha256 dir_hash fuel se g_utf8_validate providers o op pc w s = Some (pc', w', s') -> op_ids_unique pc' w' ->
  vm_inv tr (VmVirtual c mr op pc') w'.
Proof.
  intros (Hx & Hr & Ho & Hd & result & repo0 & Hrec & Hres & Hid & Hnr & Ht & Hq) E Hids.
  assert (Htr : forall o st r st', op_tree op repo0 cv o st = (r, st') ->
    st ⊆ st' /\ (True -> match r with TreeNew root _ _ => root = result | TreeSame => False | TreeFails => True end)).
  { intros o0 st r st' Et. rewrite Ht in Et. by apply update_root_adds in Et as [-> Hr']. }
  destruct (op_quiet_step sha1 sha256 dir_hash fuel se g_utf8_validate providers op repo0 cv (fun _ root => root = result)
    ltac:(done) (fun _ => True) Hnr Htr _ _ _ _ _ _ _ E Hids I Hq) as [Hq' [F1 F2 F3 F4]].
  rewrite Hid in F4. cbn. split_and!; [done|unfold rows; by rewrite F3| |by eapply seafdir_id_mono|].
  - apply (head_is_mono w); [done|by apply F4|done].
  - exists result, repo0. split_and!; try done. by eapply rec_ok_mono.
Qed.

(** The update of the origin goes on. *)
Lemma origin_step_inv tr o c op pc w s pc' w' s' :
  sound dir_hash version (w_fs w) -> vm_inv tr (VmOriginDir c op pc) w ->
  op_step sha1 sha256 dir_hash fuel se g_utf8_validate providers o op pc w s = Some (pc', w', s') -> op_ids_unique pc' w' ->
  vm_inv tr (VmOriginDir c op pc') w'.
Proof.
  intros Hs (Hx & Hr & Hd & result & repo0 & now & vh & Hrec & Hv & Hvr & Hid & Hnr & Hver & Ht & Hq) E Hids.
  set (R := fun st root => seaf_fs_manager_get_seafdir_id_by_path st version root path = inr (Some result)) in *.
  set (Q := fun st => library_ok dir_hash version st /\ is_Some (seaf_fs_manager_get_seafdir st version result) /\
       seaf_fs_manager_get_seafdir_id_by_path st version (root_id co) path = inr (Some orig_root)).
  assert (Htr : forall o st r st', op_tree op repo0 co o st = (r, st') ->
    st ⊆ st' /\ (Q st -> match r with TreeNew root _ _ => R st' root | TreeSame => False | TreeFails => True end)).
  { intros o0 st r st' Et. rewrite Ht in Et. eapply update_dir_sets in Et as [Hsub Hset]; [|done|done|done].
    split; [done|]. intros (Hl & Hst & Hd0). apply Hset; [done|done|apply Hrec|done]. }
  assert (HQ : Q (w_fs w)) by (split_and!; [apply Hs|apply Hrec|done]).
  destruct (op_quiet_step sha1 sha256 dir_hash fuel se g_utf8_validate providers op repo0 co R
    ltac:(intros st st' root; apply seafdir_id_mono) Q Hnr Htr _ _ _ _ _ _ _ E Hids HQ Hq) as [Hq' [F1 F2 F3 F4]].
  rewrite Hid in F4. cbn. split_and!; [done|unfold rows; by rewrite F3|by eapply seafdir_id_mono|].
  exists result, repo0, now, vh. split_and!; try done; [by eapply rec_ok_mono|].
  apply (head_is_mono w); [done|by apply F4|done].
Qed.

(** The virtual library is updated. *)
Lemma virtual_done_inv tr o c mr op ret names commit w s q pc' w' s' q' :
  vm_inv tr (VmVirtual c mr op (OpDone ret names commit)) w ->
  vm_step o vid (VmVirtual c mr op (OpDone ret names commit)) w s q = Some (pc', w', s', q') -> vm_inv tr pc' w'.
Proof.
  intros (Hx & Hr & Ho & Hd & result & repo0 & Hrec & Hres & Hid & Hnr & Ht & Hq). cbn [merge_virtual_repo].
  destruct (Z.ltb_spec ret 0); [by intros [= <- <- <- <-]|].
  destruct commit as [id|]; cbn in Hq; [|lia]. destruct Hq as [_ Hp].
  destruct (published_head _ _ _ _ Hp) as (new & root & Hh & _ & -> & Hroot). rewrite Hid in Hh.
  rewrite (valid_take _ (rc_valid _ _ _ _ Hrec)) in Hroot. destruct mr as [m|]; cbn in Hres; subst result.
  - destruct (update_origin _ _ _ _ _ _ _ _ _) as [[pc1 w1] s1] eqn:Eu. intros [= <- <- <- <-].
    by eapply update_origin_inv.
  - intros [= <- <- <- <-]. rewrite (cx_orig_commit _ Hx).
    destruct (set_base_row c (commit_id co) w Hx Hr) as [Hrow Hheads]. exists orig_root, co. split; [..|done].
    + by apply (rec_ok_mono _ w).
    + exists new. split_and!; try done; by apply (head_is_mono w).
Qed.

(** The origin is updated. *)
Lemma origin_done_inv tr o c op ret names commit w s q pc' w' s' q' :
  sound dir_hash version (w_fs w) -> vm_inv tr (VmOriginDir c op (OpDone ret names commit)) w ->
  vm_step o vid (VmOriginDir c op (OpDone ret names commit)) w s q = Some (pc', w', s', q') -> vm_inv tr pc' w'.
Proof.
  intros Hs (Hx & Hr & Hd & result & repo0 & now & vh & Hrec & Hv & Hvr & Hid & Hnr & Hver & Ht & Hq). cbn [merge_virtual_repo].
  destruct (Z.ltb_spec ret 0); [by intros [= <- <- <- <-]|].
  destruct commit as [id|]; cbn in Hq; [|lia]. destruct Hq as [_ Hp].
  destruct (published_head _ _ _ _ Hp) as (new & root & Hh & <- & HR & Hroot). rewrite Hid in Hh.
  rewrite valid_take in Hroot.
  2: { apply Hs. apply (seafdir_id_entries _ _ _ _ parts n) in HR as (l & d & Hl & _); [|apply Hs|apply Hpath].
       destruct parts; cbn [entries_at] in Hl; by destruct (seaf_fs_manager_get_seafdir (w_fs w) version root). }
  intros [= <- <- <- <-]. cbn [text]. destruct (set_base_row c (commit_id new) w Hx Hr) as [Hrow Hheads].
  split; [done|]. exists result, new. split; [|done]. split; [..|done].
  - by apply (rec_ok_mono _ w).
  - exists vh. split_and!; [by apply (head_is_mono w)|done|by apply (head_is_mono w)|by rewrite Hroot].
Qed.

(** The directory of the origin is found. *)
Lemma origin_found_inv tr repo vinfo o w s q pc' w' s' q' :
  vm_inv tr (VmOrigin repo vinfo) w -> vm_step o vid (VmOrigin repo vinfo) w s q = Some (pc', w', s', q') -> vm_inv tr pc' w'.
Proof.
  intros (Hb & Hid & -> & Hc). pose proof Hb as [T R V O Rt D B]. cbn [merge_virtual_repo load_virtual_info v_origin_repo_id].
  destruct Hv0 as [Ho Hp]. rewrite Ho.
  destruct (seaf_repo_manager_get_repo (w_db w) (w_commits w) oid) as [orig_repo|] eqn:Er; [|by intros [= <- <- <- <-]].
  rewrite Hc, (hi_stored _ _ _ V), (get_repo_get_head _ _ _ _ Er O).
  destruct (get_repo_head_is _ _ _ _ Er O) as (Hoc & Hov & _).
  unfold find_orig_root. cbn [vc_vinfo vc_orig_repo vc_orig_head load_virtual_info v_path]. rewrite Hp, Hov, Hversion, D.
  cbn [mbind option_bind]. intros [= <- <- <- <-]. split; [done|]. split; [|done].
  split; cbn; try done. by rewrite Hov.
Qed.

Lemma op_done_or (pc : op_pc) : (exists r names c, pc = OpDone r names c) \/ forall r names c, pc <> OpDone r names c.
Proof. destruct pc; by eauto. Qed.

(** *** Looking after the other virtual libraries *)

(** What a step on the library [id] leaves alone. *)
Record elsewhere (id : string) (w w' : World) : Prop := {
  el_commits : w_commits w ⊆ w_commits w';
  el_fs : w_fs w' = w_fs w;
  el_heads : forall r, r <> id -> head_of w' r = head_of w r;
  el_rows : forall r, r <> id -> t_VirtualRepo (w_db w') !! r = t_VirtualRepo (w_db w) !! r
}.

Lemma elsewhere_sides id w w' : elsewhere id w w' -> id <> vid -> id <> oid -> same_sides w w'.
Proof. intros [_ _ Hh Hr] H1 H2. split_and!; [by apply Hh|by apply Hh|by apply Hr|by apply Hr]. Qed.

Lemma elsewhere_same id w w' : w_commits w ⊆ w_commits w' -> w_fs w' = w_fs w -> w_db w' = w_db w -> elsewhere id w w'.
Proof. intros Hc Hf Hd. split; [done|done|..]; intros x _; unfold head_of; by rewrite Hd. Qed.

Lemma update_repo_info_tables db cs now id h :
  t_VirtualRepo (seaf_repo_manager_update_repo_info db cs now id h) = t_VirtualRepo db /\
  t_Branch (seaf_repo_manager_update_repo_info db cs now id h) = t_Branch db.
Proof. unfold seaf_repo_manager_update_repo_info. by destruct (seaf_commit_manager_get_commit _ _). Qed.

Lemma edit_step_elsewhere o e pc w pc' w' :
  edit_ok e pc -> edit_step sha1 sha256 fuel se g_utf8_validate o e pc w = Some (pc', w') ->
  edit_ok e pc' /\ elsewhere (ed_repo_id e) w w'.
Proof.
  intros (H1 & H2 & Hp). destruct pc as [k|repo parent commit k|repo parent commit k acl ch|ret]; cbn [edit_step]; [| | |done].
  - intros [= E]. destruct (seaf_repo_manager_get_repo _ _ _) as [repo|] eqn:Er; [|injection E as <- <-; by split; [|apply elsewhere_same]].
    destruct (seaf_commit_manager_get_commit _ _) as [parent|]; [|injection E as <- <-; by split; [|apply elsewhere_same]].
    destruct (same_text _ _ && _); [injection E as <- <-; by split; [|apply elsewhere_same]|].
    destruct (seaf_commit_manager_add_commit _ _ _) as [ret cs] eqn:Ec. apply add_commit_grows in Ec. injection E as <- <-.
    split; [|by apply elsewhere_same]. destruct (ret <? 0); [done|]. split_and!; [done..|]. by eapply get_repo_of.
  - destruct (phase_a _ _ _ _ _ _ _) as [[[[acl ch]|] w1]|] eqn:Ea; [..|done]; pose proof (phase_a_fs _ _ _ _ _ _ _ _ _ _ Ea);
      apply phase_a_frame in Ea as [Hc Hd]; intros [= <- <-]; (split; [done|apply elsewhere_same; [by rewrite Hc|done|done]]).
  - destruct (phase_b _ _ _ _ _ _ _ _ _ _ _ _) as [[ret gc] w1] eqn:Eb. destruct Hp as [Hn Hid].
    pose proof (phase_b_fs _ _ _ _ _ _ _ _ _ _ _ _ _ _ _ Eb) as Hf.
    destruct (phase_b_frames _ _ _ _ _ _ _ _ _ _ _ _ _ _ _ Eb) as [F1 _ F3 F4]; [done|].
    change (b_repo_id (gnc_branch repo commit)) with (b_repo_id (r_head repo)) in F4. rewrite Hid in F4.
    intros [= E]. assert (Hel : elsewhere (ed_repo_id e) w w1) by (split; [done|done|done|by rewrite F3]).
    destruct (ret <? 0); injection E as <- <-; [split; [by destruct (_ && _)|done]|].
    split; [done|]. split; [done|done|..]; intros x Hx; unfold head_of; cbn;
      (edestruct update_repo_info_tables as [Hv Hb]; rewrite ?Hv, ?Hb); [by apply F4|by rewrite F3].
Qed.

Lemma del_virtual_elsewhere w id : elsewhere id w (set_db w (seaf_repo_manager_del_virtual_repo se fails (w_db w) id)).
Proof.
  split; [done|done|..]; intros x Hx; [unfold head_of|]; cbn.
  - destruct (branch_writable _ _ _ _); [|done]. destruct (t_Branch (w_db w) !! ("master", x)) as [h|] eqn:E.
    + by apply map_lookup_filter_Some.
    + apply map_lookup_filter_None. by left.
  - by rewrite lookup_delete_ne.
Qed.

Lemma missing_elsewhere repo head id vinfo w m e w' :
  handle_missing_virtual_repo fuel se fails repo head id vinfo w = Some (m, e, w') ->
  elsewhere id w w' /\ (forall e', e = Some e' -> ed_repo_id e' = id).
Proof.
  assert (Hsame : elsewhere id w w) by by apply elsewhere_same.
  unfold handle_missing_virtual_repo. destruct (_ ≫= _) as [parent|]; [|intros [= _ <- <-]; by split].
  destruct (diff_commits _ _ _ _ _ _ _) as [[rc diff]|]; [|done]. destruct (rc <? 0); [intros [= _ <- <-]; by split|].
  destruct (missing_loop _ _ _ _ _) as [| |new_path itself]; intros [= _ <- <-]; [by split|..].
  - split; [apply del_virtual_elsewhere|done].
  - split; [|destruct itself; [by intros e' [= <-]|done]].
    unfold set_virtual_repo_base_commit_path. destruct (t_VirtualRepo (w_db w) !! id) eqn:Er; [|by apply elsewhere_same].
    split; [done|done|done|]. intros x Hx. cbn. by rewrite lookup_insert_ne.
Qed.

(** Whether a path is there does not depend on the version that is passed along. *)
Lemma walk_path_version st v1 v2 names : forall d1 d2, entries d1 = entries d2 ->
  match walk_path st v1 d1 names, walk_path st v2 d2 names with
  | inl e1, inl e2 => e1 = e2 | inr a, inr b => entries a = entries b | _, _ => False end.
Proof.
  induction names as [|x names IH]; intros d1 d2 He; cbn [walk_path]; [done|]. rewrite He.
  destruct (find_dirent _ (entries d2)) as [d|]; [|done]. unfold seaf_fs_manager_get_seafdir.
  destruct (String.eqb (d_id d) EMPTY_SHA1); [by apply IH|]. destruct (st !! d_id d) as [[]|]; try done. by apply IH.
Qed.

Lemma seafdir_by_path_version st v1 v2 root p e :
  seaf_fs_manager_get_seafdir_by_path st v1 root p = inl e -> seaf_fs_manager_get_seafdir_by_path st v2 root p = inl e.
Proof.
  unfold seaf_fs_manager_get_seafdir_by_path, seaf_fs_manager_get_seafdir. destruct (String.eqb root EMPTY_SHA1).
  - pose proof (walk_path_version st v1 v2 (components p) (mkDir v1 EMPTY_SHA1 []) (mkDir v2 EMPTY_SHA1 []) eq_refl) as H.
    intros E. rewrite E in H. destruct (walk_path _ v2 _ _); [by subst|done].
  - destruct (st !! root) as [[d|]|]; try done.
    pose proof (walk_path_version st v1 v2 (components p) (mkDir (dir_version d) root (entries d)) _ eq_refl) as H.
    intros E. rewrite E in H. destruct (walk_path _ v2 _ _); [by subst|done].
Qed.

Lemma dir_at_snoc st v dir names name base dent sub :
  dir_at st v dir names base ->
  find_dirent (fun d => (strcmp (d_name d) name =? 0) && S_ISDIR (d_mode d)) (entries base) = Some dent ->
  seaf_fs_manager_get_seafdir st v (d_id dent) = Some sub -> dir_at st v dir (names ++ [name]) sub.
Proof. intros H Hf Hg. induction H; cbn [app]; econstructor; eauto using dir_at_nil. Qed.

(** The directory of the origin is there for every reader. *)
Lemma together_present tr w result oh v :
  sound dir_hash version (w_fs w) -> through tr w result oh ->
  seaf_fs_manager_get_seafdir_by_path (w_fs w) v (root_id oh) path <> inl SEAF_ERR_PATH_NO_EXIST.
Proof.
  intros Hs [Hrec (vh & _ & _ & _ & Hd) _] E. apply (seafdir_by_path_version _ _ version) in E.
  pose proof (lib_tidy _ _ _ (so_library _ _ _ Hs)) as Ht.
  apply (seafdir_id_entries _ _ _ _ parts n) in Hd as (l & d & Hl & Hn & Hm & Hid & _); [|done|apply Hpath].
  unfold seaf_fs_manager_get_seafdir_by_path in E. rewrite (dp_components _ _ _ Hpath) in E.
  destruct (seaf_fs_manager_get_seafdir (w_fs w) version (root_id oh)) as [dir|] eqn:Eg; [|done].
  destruct (proj2 (dir_at_entries _ _ _ _ _ Ht Eg) l Hl) as (base & Hb & <- & Hsort).
  destruct (rc_stored _ _ _ _ Hrec) as [sub Hsub]. rewrite <- Hid in Hsub.
  assert (Hf : find_dirent (fun d => (strcmp (d_name d) n =? 0) && S_ISDIR (d_mode d)) (entries base) = Some d)
    by (rewrite find_dir_lookup by done; by rewrite Hn, Hm).
  pose proof (proj2 (walk_path_dir_at _ _ _ _ _) (dir_at_snoc _ _ _ _ _ _ _ _ Hb Hf Hsub)) as Hw. congruence.
Qed.

Lemma rows_list_ok w v :
  world_ok w -> rows w v -> v_path v = path -> list_ok (seaf_repo_manager_get_virtual_info_by_origin (w_db w) oid).
Proof.
  intros Hw [R1 R2] Hp. apply Forall_forall. intros row (row0 & -> & Hin)%list_elem_of_fmap.
  unfold rows_by_origin in Hin. apply list_elem_of_filter in Hin as [_ Hin]. destruct row0 as [id v1].
  apply elem_of_map_to_list in Hin. cbn. rewrite string_take_length by (apply (wo_ids _ Hw); by eexists).
  split; [intros ->; congruence|]. intros ->. rewrite R1 in Hin. injection Hin as <-. exact Hp.
Qed.

(** The two libraries stay through while the others are looked after. *)
Lemma cleanup_step_inv tr o pc w result oh pc' w' :
  world_ok w -> through tr w result oh -> cleanup_ok oh pc ->
  cleanup_step sha1 sha256 fuel se g_utf8_validate is_uuid_valid fails o oid pc w = Some (pc', w') ->
  through tr w' result oh /\ cleanup_ok oh pc'.
Proof.
  intros Hw Ht Hok E.
  assert (Hmove : forall id w1, elsewhere id w w1 -> id <> vid -> id <> oid -> through tr w1 result oh).
  { intros id w1 He H1 H2. eapply through_mono; [apply He|by rewrite (el_fs _ _ _ He)|by eapply elsewhere_sides|done]. }
  destruct pc as [|repo head [|[id v] rest]|repo head rest e pc|]; cbn [cleanup_step] in E; [| | | |done].
  - injection E as <- <-. split; [done|]. unfold repo_and_head.
    destruct (seaf_repo_manager_get_repo _ _ oid) as [repo|] eqn:Er; [|done]. cbn [mbind option_bind].
    destruct (th_together _ _ _ _ Ht) as (vh & _ & _ & Ho & _). rewrite (get_repo_get_head _ _ _ _ Er Ho).
    split; [done|]. by eapply rows_list_ok; [|apply Ht|].
  - by injection E as <- <-.
  - destruct Hok as [-> [[Hid Hv] Hrest]%Forall_cons]. cbn in Hid, Hv.
    destruct (seaf_fs_manager_get_seafdir_by_path _ _ _ _) as [[]|] eqn:Ep; try (injection E as <- <-; by split_and!).
    destruct (decide (id = vid)) as [->|Hne'].
    { rewrite (Hv eq_refl) in Ep. by apply (together_present _ _ _ _ _ (wo_sound _ Hw) Ht) in Ep. }
    apply bind_Some in E as ([[m e] w1] & Em & E). injection E as <- <-.
    apply missing_elsewhere in Em as [Hel Hed]. split; [by eapply Hmove|].
    destruct e as [e'|]; [|done]. specialize (Hed e' eq_refl). split_and!; [done..|]. unfold edit_ok. rewrite Hed.
    split_and!; [done..|]. unfold seaf_repo_manager_edit_repo. by repeat case_match.
  - destruct Hok as (-> & Hrest & He).
    assert (Hd : (exists ret, pc = EditDone ret) \/ forall ret, pc <> EditDone ret) by (destruct pc; by eauto).
    destruct Hd as [[ret ->]|Hnd]; [by injection E as <- <-|].
    assert (E' : ('(pc, w) ← edit_step sha1 sha256 fuel se g_utf8_validate o e pc w; Some (CleanupEdit repo oh rest e pc, w))
      = Some (pc', w')) by (destruct pc; try done; by destruct (Hnd ret)).
    apply bind_Some in E' as ([pc1 w1] & E1 & [= <- <-]). apply edit_step_elsewhere in E1 as [He' Hel]; [|done].
    split; [|done]. destruct He as (H1 & H2 & _). by eapply Hmove.
Qed.

Lemma vm_inv_own tr o pc w s q pc' w' s' q' :
  vm_inv tr pc w -> vm_step o vid pc w s q = Some (pc', w', s', q') -> vm_ids_unique pc' w' ->
  world_ok w -> world_ok w' -> vm_inv (tr ++ [(o, w, w')]) pc' w'.
Proof.
  intros H E Hids Hw Hw'. pose proof (wo_sound _ Hw) as Hs. pose proof (wo_sound _ Hw') as Hs'.
  apply (vm_inv_trace _ [(o, w, w')]) in H. set (tr' := tr ++ [(o, w, w')]) in *.
  assert (Hin : (o, w, w') ∈ tr') by (apply elem_of_app; right; by apply list_elem_of_singleton).
  destruct pc as [|repo vinfo|c np e pc|c root|c mr op pc|c op pc|c pc|r].
  - injection E as E <- <- <-. pose proof H as [T [R R'] V _ _ _ _].
    destruct (seaf_repo_manager_get_repo _ _ _) as [repo|] eqn:Er; [|by subst].
    destruct (get_repo_row _ _ _ _ Er) as [Hid Hrow]. rewrite R in Hrow. rewrite Hrow in E. cbn in E. subst pc'.
    cbn. split_and!; try done. apply (get_repo_head_is _ _ _ _ Er V).
  - by eapply origin_found_inv.
  - done.
  - destruct H as (Hb & Hx & ->). cbn [merge_virtual_repo] in E.
    apply bind_Some in E as ([[pc1 w1] s1] & E & [= <- <- <- <-]). by eapply compare_roots_inv.
  - destruct (op_done_or pc) as [(r & names & commit & ->)|Hnd]; [by eapply virtual_done_inv|].
    assert (E' : ('(pc, w, s) ← op_step sha1 sha256 dir_hash fuel se g_utf8_validate providers o op pc w s;
      Some (VmVirtual c mr op pc, w, s, q)) = Some (pc', w', s', q')) by (destruct pc; [exact E..|by destruct (Hnd ret names commit)]).
    apply bind_Some in E' as ([[pc1 w1] s1] & E1 & [= <- <- <- <-]). exact (virtual_step_inv _ _ _ _ _ _ _ _ _ _ _ H E1 Hids).
  - destruct (op_done_or pc) as [(r & names & commit & ->)|Hnd]; [exact (origin_done_inv _ _ _ _ _ _ _ _ _ _ _ _ _ _ Hs H E)|].
    assert (E' : ('(pc, w, s) ← op_step sha1 sha256 dir_hash fuel se g_utf8_validate providers o op pc w s;
      Some (VmOriginDir c op pc, w, s, q)) = Some (pc', w', s', q')) by (destruct pc; [exact E..|by destruct (Hnd ret names commit)]).
    apply bind_Some in E' as ([[pc1 w1] s1] & E1 & [= <- <- <- <-]). exact (origin_step_inv _ _ _ _ _ _ _ _ _ _ Hs H E1 Hids).
  - destruct H as (Hx & result & oh & Ht & Hok).
    assert (Hd : pc = CleanupDone \/ pc <> CleanupDone) by (destruct pc; auto). destruct Hd as [->|Hnd].
    { injection E as <- <- <- <-. by exists result, oh. }
    assert (E' : ('(pc, w) ← cleanup_step sha1 sha256 fuel se g_utf8_validate is_uuid_valid fails o (orig_id c) pc w;
      Some (VmCleanup c pc, w, s, q)) = Some (pc', w', s', q')) by (by destruct pc).
    apply bind_Some in E' as ([pc1 w1] & E1 & [= <- <- <- <-]). unfold orig_id in E1. rewrite (cx_info _ Hx) in E1.
    cbn [load_virtual_info v_origin_repo_id] in E1. destruct Hv0 as [Ho _]. rewrite Ho in E1.
    apply (cleanup_step_inv tr' _ _ _ result oh) in E1 as [Ht' Hok']; [|done..]. split; [done|]. by exists result, oh.
  - done.
Qed.
End merge_inv.

(** C9: a merge task of a virtual library whose origin is not virtual itself, among other
    processes that leave the two heads and the row of the library alone, over stores that
    are sound, where new commits get fresh ids, while the directory of the origin and that
    of the base can be found.  When the task ends without an error, and from the moment on
    when it is through with the two libraries, the root of the virtual library and the
    directory of the origin are the same tree.  It is what the directory of the origin,
    the root of the virtual library and their common base were reconciled to: the one that
    changed, or the three-way merge of these trees that one of the steps of the task made in
    the store it found.  Unless there was nothing to do, the row records the head of the
    origin as the new base. *)
Theorem merge_brings_together w0 s0 q0 tr pc w s q :
  before (w_fs w0) w0 -> vm_run w0 s0 q0 tr pc w s q ->
  match pc with
  | VmDone VmNothing =>
      exists result, reconciled (w_fs w0) tr base_root orig_root (root_id cv) result /\ together w result co
  | VmDone VmTaken | VmDone VmMerged | VmCleanup _ _ =>
      exists result oh, reconciled (w_fs w0) tr base_root orig_root (root_id cv) result /\ together w result oh /\
        t_VirtualRepo (w_db w) !! vid = Some (mkVirt (v_origin_repo_id v0) path (commit_id oh))
  | VmDone VmGone => False
  | _ => True
  end.
Proof.
  intros Hb Hrun. assert (H : vm_inv (w_fs w0) tr pc w /\ world_ok w).
  { induction Hrun as [|tr pc w s q o pc' w' s' q' _ [IH IHs] E Hids Hs|tr pc w s q w' q' _ [IH IHs] Hc Hf Hss Hs]; [done| |].
    - split; [|done]. by eapply vm_inv_own.
    - split; [|done]. by eapply vm_inv_others. }
  destruct H as [H _]. destruct pc as [|repo vinfo|c np e pc|c root|c mr op pc|c op pc|c pc|[]]; try done.
  - destruct H as (_ & result & oh & [Hrec ? [? _]] & _). exists result, oh. split; [apply Hrec|done].
  - destruct H as (result & Hrec & ?). exists result. split; [apply Hrec|done].
  - destruct H as (result & oh & [Hrec ? [? _]]). exists result, oh. split; [apply Hrec|done].
  - destruct H as (result & oh & [Hrec ? [? _]]). exists result, oh. split; [apply Hrec|done].
Qed.
End merge.

(** ** Examples *)

(** Directories with labels as their ids, the others with those of [toy_hash]. *)
Definition label_hash (labels : list (list SeafDirent * string)) (v : Z) (l : list SeafDirent) : string :=
  match List.find (fun p => bool_decide (p.1 = l)) labels with Some p => p.2 | None => toy_hash v l end.

Definition labels_ok (labels : list (list SeafDirent * string)) : bool :=
  bool_decide (NoDup (snd <$> labels)) &&
  forallb (fun p => negb (String.eqb p.2 EMPTY_SHA1) && match p.2 with String c _ => negb (is_slash c) | _ => false end) labels.

Lemma label_hash_cf labels version : labels_ok labels = true -> collision_free (label_hash labels) version.
Proof.
  unfold labels_ok. rewrite andb_true_iff, bool_decide_eq_true, forallb_forall. intros [Hnd Hall].
  assert (Hf : forall l p, List.find (fun p => bool_decide (p.1 = l)) labels = Some p -> p.1 = l /\ p ∈ labels).
  { intros l p [Hin Hp]%find_some. apply bool_decide_eq_true in Hp. by rewrite list_elem_of_In. }
  assert (Hlab : forall p v l, p ∈ labels -> p.2 <> toy_hash v l /\ p.2 <> EMPTY_SHA1).
  { intros p v l [H1 H2]%list_elem_of_In%Hall%andb_true_iff. apply negb_true_iff, String.eqb_neq in H1. split; [|done].
    intros E. rewrite E in H2. done. }
  split.
  - intros l1 l2. unfold label_hash. destruct (List.find _ labels) as [p1|] eqn:E1.
    + apply Hf in E1 as [<- Hp1]. destruct (List.find (fun p => bool_decide (p.1 = l2)) labels) as [p2|] eqn:E2.
      * apply Hf in E2 as [<- Hp2]. intros E. apply list_elem_of_lookup in Hp1 as [i Hi], Hp2 as [j Hj].
        assert (i = j) as ->; [|congruence]. eapply NoDup_lookup; [exact Hnd|..]; rewrite list_lookup_fmap; [by rewrite Hi|by rewrite Hj, E].
      * intros E. by destruct (Hlab p1 (dir_version_from_repo_version version) l2 Hp1).
    + destruct (List.find (fun p => bool_decide (p.1 = l2)) labels) as [p2|] eqn:E2.
      * apply Hf in E2 as [_ Hp2]. intros E. by destruct (Hlab p2 (dir_version_from_repo_version version) l1 Hp2).
      * apply (cf_inj _ _ (toy_hash_collision_free version)).
  - intros l. unfold label_hash. destruct (List.find _ labels) as [p|] eqn:E.
    + apply Hf in E as [_ Hp]. by apply (Hlab p 0 []).
    + apply (cf_empty _ _ (toy_hash_collision_free version)).
Qed.

(** A store of labelled directories. *)
Definition label_store (labels : list (list SeafDirent * string)) : fs_store :=
  list_to_map ((fun p => (p.2, ODir (mkDir 1 p.2 p.1))) <$> labels).

Definition soundb (labels : list (list SeafDirent * string)) (st : fs_store) (rank : string -> nat) : bool :=
  check_store st 1 rank &&
  forallb (fun p => match p.2 with
                    | ODir d => String.eqb p.1 (label_hash labels 1 (entries d)) && negb (bool_decide (entries d = []))
                                && is_object_id_valid (Some p.1)
                    | OFile _ => false
                    end) (map_to_list st).

Lemma soundb_sound labels st rank : soundb labels st rank = true -> sound (label_hash labels) 1 st.
Proof.
  unfold soundb. rewrite andb_true_iff, forallb_forall. intros [Hc Hall].
  assert (Hd : forall id x, st !! id = Some x -> exists d, x = ODir d /\ id = label_hash labels 1 (entries d) /\ entries d <> []
    /\ is_object_id_valid (Some id) = true).
  { intros id x Hx. apply elem_of_map_to_list, list_elem_of_In, Hall in Hx. cbn in Hx. destruct x as [d|]; [|done]. exists d.
    rewrite !andb_true_iff in Hx. destruct Hx as [[H1 H2] H3]. apply String.eqb_eq in H1.
    apply negb_true_iff, bool_decide_eq_false in H2. done. }
  split.
  - split; [|by apply (check_store_sound _ _ rank)]. split.
    + intros id d Hx. destruct (Hd _ _ Hx) as (d' & [= <-] & ? & ? & _). done.
    + intros id f l Hx. by destruct (Hd _ _ Hx) as (d' & ? & _).
  - intros id [d Hg]. unfold seaf_fs_manager_get_seafdir in Hg. destruct (String.eqb_spec id EMPTY_SHA1) as [->|]; [done|].
    destruct (st !! id) as [x|] eqn:Hx; [|done]. by destruct (Hd _ _ Hx) as (? & _ & _ & _ & ?).
Qed.


(** The directory [/a] of a library as a virtual library. *)
Definition vr_id : string := "abcdef01-1234-1234-1234-123456789abc".
Definition vr_file : list SeafDirent := [toy_dirent 0x8000 EMPTY_SHA1 "f"].
Definition vr_root (a : string) (name : string) : list SeafDirent := [toy_dirent 0x4000 a name].
Definition vr_labels : list (list SeafDirent * string) :=
  [(vr_file, id_1); (vr_root EMPTY_SHA1 "a", id_2); (vr_root id_1 "a", id_3); (vr_root id_1 "b", c_4)].
Definition vr_hash : Z -> list SeafDirent -> string := label_hash vr_labels.
Definition vr_store : fs_store := label_store vr_labels.
Definition vr_rank (id : string) : nat := if String.eqb id id_1 then 1 else if String.eqb id EMPTY_SHA1 then 0 else 2.
Definition c_5 : string := "5555555555555555555555555555555555555555".

(** The origin has the commits [orig], the last one its head; the virtual library was made
    of the empty directory of [c_1] and not changed. *)
Definition vr_world (orig : list SeafCommit) (head : string) : World :=
  mkWorld (mkDb {[toy_rid; vr_id]} {[("master", toy_rid) := head; ("master", vr_id) := c_5]}
             {[vr_id := mkVirt toy_rid "/a" c_1]} ∅ ∅ ∅ (Some ∅))
    (list_to_map ((fun c => (commit_id c, c)) <$> tree_commit c_5 EMPTY_SHA1 None :: orig)) vr_store [] 0.

Abbreviation vr_step := (merge_virtual_repo toy_sha1 toy_sha256 vr_hash 5 toy_session (fun _ => true) (fun _ => true) (fun _ => false) ([] : list (Provider unit))).

Definition ids_fitb (db : Db) : bool := forallb (fun kv => (String.length kv.1 <=? 36)%nat) (map_to_list (t_VirtualRepo db)).

Lemma vr_world_ok w :
  soundb vr_labels (w_fs w) vr_rank = true -> ids_fitb (w_db w) = true -> world_ok vr_hash 1 w.
Proof.
  intros Hs Hi. split; [by eapply soundb_sound|]. intros id [v Hv].
  apply elem_of_map_to_list, list_elem_of_In in Hv. unfold ids_fitb in Hi. rewrite forallb_forall in Hi.
  apply Hi in Hv. by apply Nat.leb_le in Hv.
Qed.

(** What the task ran through, from a start. *)
Fixpoint vm_exec (k : nat) (tr : list (Oracle * World * World)) (pc : vm_pc) (w : World) (s : unit) (q : MergeScheduler)
  : option (list (Oracle * World * World) * vm_pc * World * unit * MergeScheduler) :=
  match k with
  | O => Some (tr, pc, w, s, q)
  | Datatypes.S k =>
      match vr_step toy_oracle vr_id pc w s q with
      | Some (pc', w', s', q') =>
          if match pc' with VmVirtual _ _ _ (OpCommit _ _ g) | VmOriginDir _ _ (OpCommit _ _ g) => ids_uniqueb g w' | _ => true end
             && soundb vr_labels (w_fs w') vr_rank && ids_fitb (w_db w')
          then vm_exec k (tr ++ [(toy_oracle, w, w')]) pc' w' s' q' else None
      | None => None
      end
  end.

Lemma vm_exec_run k w0 s0 q0 : forall tr pc w s q tr' pc' w' s' q',
  vm_run toy_sha1 toy_sha256 vr_hash 1 5 toy_session (fun _ => true) (fun _ => true) (fun _ => false) [] vr_id toy_rid
    w0 s0 q0 tr pc w s q ->
  vm_exec k tr pc w s q = Some (tr', pc', w', s', q') ->
  vm_run toy_sha1 toy_sha256 vr_hash 1 5 toy_session (fun _ => true) (fun _ => true) (fun _ => false) [] vr_id toy_rid
    w0 s0 q0 tr' pc' w' s' q'.
Proof.
  induction k as [|k IH]; intros tr pc w s q tr' pc' w' s' q' Hr E; cbn [vm_exec] in E; [by injection E as <- <- <- <- <-|].
  destruct (merge_virtual_repo _ _ _ _ _ _ _ _ _ _ _ _ _ _ _) as [[[[pc1 w1] s1] q1]|] eqn:E1; [|done].
  destruct (_ && _) eqn:Hc; [|done]. rewrite !andb_true_iff in Hc. destruct Hc as [[Hids Hs] Hi].
  eapply IH; [|exact E]. eapply vm_own; [exact Hr|exact E1| |by apply vr_world_ok].
  destruct pc1 as [| | | |c mr op pc1|c op pc1| |]; try exact I; destruct pc1; try exact I; by apply ids_uniqueb_sound.
Qed.

(** The origin got a file in [/a]; the task brings it to the virtual library. *)
Definition vr_changed : World := vr_world [tree_commit c_1 id_2 None; tree_commit c_2 id_3 (Some c_1)] c_2.


Definition vr_check (r : option (list (Oracle * World * World) * vm_pc * World * unit * MergeScheduler)) : bool :=
  match r with Some (_, VmDone VmTaken, _, _, _) => true | _ => false end.

Lemma vr_changed_runs : vr_check (vm_exec 10 [] VmStart vr_changed tt (mkSched [] ∅)) = true.
Proof. vm_compute. reflexivity. Qed.

Lemma vr_check_taken r : vr_check r = true -> exists tr w s q, r = Some (tr, VmDone VmTaken, w, s, q).
Proof. destruct r as [[[[[tr [| | | | | | |[]]] w] s] q]|]; try discriminate. eauto. Qed.

Lemma vr_labels_ok : labels_ok vr_labels = true.
Proof. vm_compute. reflexivity. Qed.

Lemma vr_id_new : vr_id <> toy_rid.
Proof. discriminate. Qed.

Lemma vr_dir_path : dir_path "/a" [] "a".
Proof. split; vm_compute; done. Qed.

Lemma vr_before :
  before 1 vr_id toy_rid "/a" (mkVirt toy_rid "/a" c_1) (tree_commit c_5 EMPTY_SHA1 None) (tree_commit c_2 id_3 (Some c_1))
    EMPTY_SHA1 id_1 (w_fs vr_changed) vr_changed.
Proof.
  split.
  - reflexivity.
  - split; vm_compute; reflexivity.
  - split; [vm_compute; reflexivity|]. exists c_5. by vm_compute.
  - split; [vm_compute; reflexivity|]. exists c_2. by vm_compute.
  - vm_compute. by eexists.
  - vm_compute. reflexivity.
  - exists (tree_commit c_1 id_2 None). by vm_compute.
Qed.

Lemma merge_brings_together_witness :
  exists w result oh, together 1 vr_id toy_rid "/a" w result oh /\
    t_VirtualRepo (w_db w) !! vr_id = Some (mkVirt toy_rid "/a" (commit_id oh)).
Proof.
  destruct (vr_check_taken _ vr_changed_runs) as (tr & w & s & q & E).
  destruct (merge_brings_together toy_sha1 toy_sha256 vr_hash 1 (label_hash_cf _ _ vr_labels_ok) 5 toy_session (fun _ => true)
    (fun _ => true) (fun _ => false) ([] : list (Provider unit)) vr_id toy_rid "/a" [] "a" vr_dir_path
    vr_id_new (mkVirt toy_rid "/a" c_1) (tree_commit c_5 EMPTY_SHA1 None) (tree_commit c_2 id_3 (Some c_1))
    EMPTY_SHA1 id_1 eq_refl (conj eq_refl eq_refl) vr_changed tt (mkSched [] ∅) tr (VmDone VmTaken) w s q) as (result & oh & _ & Ht & Hr).
  - exact vr_before.
  - eapply (vm_exec_run 10); [apply vm_start|exact E]. apply vr_world_ok; vm_compute; reflexivity.
  - exists w, result, oh. split; [exact Ht|exact Hr].
Defined.

(** *** A renamed directory *)

(** The task reads the path [/a] of the row, finds that the directory is [/b] now and
    writes that to the row; then it brings the change over and writes the path it read at
    first back to the row, although the origin has no directory of that name. *)
Definition vr_renamed : World :=
  vr_world [tree_commit c_1 id_2 None; tree_commit c_2 id_3 (Some c_1); tree_commit c_3 c_4 (Some c_2)] c_3.

(** After [k] steps: the outcome, the path of the row, the directory the head of the origin
    has there. *)
Fixpoint vm_path (k : nat) (pc : vm_pc) (w : World) (q : MergeScheduler) : option (option vm_result * option string * option string) :=
  let path := v_path <$> t_VirtualRepo (w_db w) !! vr_id in
  match k with
  | O => Some (match pc with VmDone r => Some r | _ => None end, path,
               dir_of w (toy_repo w) (tree_commit c_3 c_4 (Some c_2)) (text path))
  | Datatypes.S k => '(pc, w, _, q) ← vr_step toy_oracle vr_id pc w tt q; vm_path k pc w q
  end.

Lemma rename_undone :
  vm_path 3 VmStart vr_renamed (mkSched [] ∅) = Some (None, Some "/b", Some id_1) /\
  vm_path 14 VmStart vr_renamed (mkSched [] ∅) = Some (Some VmTaken, Some "/a", None).
Proof. split; vm_compute; reflexivity. Qed.

(** *** A directory that was deleted some time ago *)

(** The directory is in neither of the last two commits, the directory above it (the root)
    in both.  The look-up of the path then gives no id and no error, and the library is
    neither renamed nor deleted. *)
Definition vr_deleted : World :=
  vr_world [tree_commit c_1 id_2 None; tree_commit c_2 c_4 (Some c_1); tree_commit c_3 c_4 (Some c_2)] c_3.

Lemma deleted_directory_kept :
  handle_missing_virtual_repo 5 toy_session (fun _ => false) (toy_repo vr_deleted) (tree_commit c_3 c_4 (Some c_2)) vr_id
    (mkVirt toy_rid "/a" c_1) vr_deleted = Some (MissingKept, None, vr_deleted).
Proof. vm_compute. reflexivity. Qed.
