(* ===== verification/VirtualRepoCreate.v ===== *)
(** * The creation of virtual libraries

    A virtual library starts in sync with the directory it presents, and asking for it
    again gives the same library.  What a creation that fails leaves behind, and the paths
    of the root that pass the check. *)

From S2P Require Import Prelude Hex Paths Sql FsObj FsMgr Walk Merge CommitMgr RepoOp RepoOpProof Repo CfV2Acl Publish PublishProof VirtualRepo VirtualRepoProof.

#[local] Arguments string_take : simpl never.

Lemma rawdata_to_hex_length raw : String.length (rawdata_to_hex raw) = (2 * length raw)%nat.
Proof. induction raw as [|b raw IH]; cbn [rawdata_to_hex String.length length]; lia. Qed.

(** A commit added to a store can be read back; it is the one added when the id was new. *)
Lemma add_commit_stored ok cs c cs' :
  seaf_commit_manager_add_commit ok cs c = (0, cs') -> String.length (commit_id c) = 40%nat ->
  exists c', stored_commit cs' c' /\ commit_id c' = commit_id c /\ (cs !! commit_id c = None -> c' = c).
Proof.
  unfold seaf_commit_manager_add_commit, save_commit, stored_commit, seaf_commit_manager_get_commit. intros E Hl.
  destruct (cs !! commit_id c) as [c0|] eqn:E0.
  - injection E as <-. exists (set_commit_id c0 (commit_id c)). destruct c0. cbn. rewrite Hl, E0. by cbn.
  - destruct ok; [|done]. injection E as <-. exists c. rewrite Hl, lookup_insert_eq. by destruct c.
Qed.

(** The rows of an origin after a new one is added. *)
Lemma existing_new db id origin path base :
  get_existing_virtual_repo db origin path = None -> t_VirtualRepo db !! id = None ->
  get_existing_virtual_repo (set_virtual db (<[id := mkVirt origin path base]> (t_VirtualRepo db))) origin path = Some id.
Proof.
  intros Hn Hi. unfold get_existing_virtual_repo at 1. unfold rows_by_origin. cbn [set_virtual t_VirtualRepo].
  destruct (List.find _ _) as [[id' v]|] eqn:E; cbn.
  - apply List.find_some in E as [Hin Hp]. cbn in Hp.
    apply list_elem_of_In, list_elem_of_filter in Hin as [Ho Hin%elem_of_map_to_list]. cbn in Ho.
    apply lookup_insert_Some in Hin as [[-> _]|[_ Hv]]; [done|]. exfalso. revert Hn. unfold get_existing_virtual_repo, rows_by_origin.
    destruct (List.find _ _) as [[id'' v'']|] eqn:E1; [done|]. intros _.
    enough (sql_eq (v_path v) path = false) by congruence. apply (List.find_none _ _ E1 (id', v)).
    apply list_elem_of_In, list_elem_of_filter. split; [done|]. by apply elem_of_map_to_list.
  - exfalso. enough (sql_eq path path = false) by (by rewrite sql_eq_refl in *).
    apply (List.find_none _ _ E (id, mkVirt origin path base)).
    apply list_elem_of_In, list_elem_of_filter. split; [done|]. apply elem_of_map_to_list, lookup_insert_eq.
Qed.

Section creation.
Context (sha1 : list Z -> list Z) (Hsha1 : forall m, length (sha1 m) = 20%nat) (se : Session) (fails : acl_query -> bool).
Context (verify_repo_passwd : SeafRepo -> string -> bool).
Context (generate_magic : Z -> string -> string -> string -> string).
Context (generate_pwd_hash : Z -> string -> string -> string -> option string -> option string -> string).

Abbreviation creates := (seaf_repo_manager_create_virtual_repo sha1 se fails verify_repo_passwd generate_magic generate_pwd_hash).
Abbreviation does_create := (do_create_virtual_repo sha1 se fails generate_magic generate_pwd_hash).
Abbreviation creates_common := (create_virtual_repo_common sha1 se fails verify_repo_passwd generate_magic generate_pwd_hash).

(** The library and the path a request stands for: a directory of a virtual library is one
    of its origin. *)
Definition target (db : Db) (origin_repo_id path : string) : string * string :=
  match seaf_repo_manager_get_virtual_repo_info db origin_repo_id with
  | Some v => (v_origin_repo_id v, v_path v +:+ canonical_vrepo_path path)
  | None => (origin_repo_id, canonical_vrepo_path path)
  end.

(** The library [vid] has a first commit with the tree [dir], and the row says so. *)
Record in_sync (w w' : World) (vid origin path : string) (oh : SeafCommit) (dir : string) : Prop := {
  is_row : t_VirtualRepo (w_db w') !! vid = Some (mkVirt origin path (commit_id oh));
  is_repo : vid ∈ t_Repo (w_db w');
  is_head : exists c, head_is w' vid c /\ (w_commits w !! commit_id c = None -> root_id c = string_take 40 dir /\ parent_id c = None);
  is_rest : w_commits w ⊆ w_commits w' /\ w_fs w' = w_fs w /\ forall r, r <> vid -> head_of w' r = head_of w r
}.

Lemma do_create_in_sync o repo vid name desc dir user passwd w w' :
  String.length vid = 36%nat -> does_create o repo vid name desc dir user passwd w = (Some tt, w') ->
  t_VirtualRepo (w_db w') = t_VirtualRepo (w_db w) /\ vid ∈ t_Repo (w_db w') /\
  (exists c, head_is w' vid c /\ (w_commits w !! commit_id c = None -> root_id c = string_take 40 dir /\ parent_id c = None)) /\
  w_commits w ⊆ w_commits w' /\ w_fs w' = w_fs w /\ forall r, r <> vid -> head_of w' r = head_of w r.
Proof.
  intros Hv. unfold do_create_virtual_repo. set (repo' := new_virtual_repo _ _ _ _ _ _ _).
  assert (Hid : r_id repo' = vid) by (unfold repo'; cbn; rewrite <- Hv; apply string_take_id).
  set (c := seaf_repo_to_commit _ _). clearbody repo'.
  assert (Hl : String.length (commit_id c) = 40%nat).
  { subst c. cbn. unfold compute_commit_id. by rewrite rawdata_to_hex_length, Hsha1. }
  destruct (seaf_commit_manager_add_commit _ _ _) as [ret cs] eqn:E. destruct (Z.ltb_spec ret 0); [done|].
  assert (ret = 0) as ->.
  { revert E. unfold seaf_commit_manager_add_commit. destruct (save_commit _ _ _) as [r0 ?]. intros [= <- _]. destruct (r0 <? 0); lia. }
  destruct (add_commit_stored _ _ _ _ E Hl) as (c' & Hs & Hc' & Hnew). pose proof (add_commit_grows _ _ _ _ _ E) as Hg.
  unfold seaf_branch_manager_add_branch. destruct (branch_writable _ _ _ _); [|done].
  cbn [w_db w_commits w_fs set_commits seaf_branch_new b_name b_repo_id b_commit_id].
  case_bool_decide; [done|]. intros [= <-]. cbn. rewrite Hid.
  assert (Ht : string_take 36 vid = vid) by (rewrite <- Hv; apply string_take_id). rewrite !Ht.
  split_and!; [done|set_solver| |done|done|].
  - exists c'. split.
    + split; [exact Hs|]. unfold head_of. cbn. rewrite lookup_insert_eq. eexists. split; [done|]. rewrite Hc'.
      change (string_take 40 (string_take 40 (commit_id c)) = commit_id c). rewrite <- Hl at 1 2. by rewrite !string_take_id.
    + rewrite Hc'. intros Hn. by rewrite (Hnew Hn).
  - intros r Hr. unfold head_of. cbn. rewrite lookup_insert_ne; [done|]. congruence.
Qed.

Lemma creates_target o uuid owner set_owner oid path name desc passwd w :
  creates o uuid owner set_owner oid path name desc passwd w =
  if strcmp path "/" =? 0 then (None, w)
  else let '(origin, p) := target (w_db w) oid path in
       match get_existing_virtual_repo (w_db w) origin p with
       | Some vid => (Some vid, w)
       | None => match creates_common o uuid origin p name desc (owner origin) passwd w with
                 | (None, w) => (None, w)
                 | (Some vid, w) => (if set_owner then Some vid else None, w)
                 end
       end.
Proof. done. Qed.

Lemma create_common_in_sync o uuid origin path name desc owner passwd w vid w' :
  String.length uuid = 36%nat -> creates_common o uuid origin path name desc owner passwd w = (Some vid, w') ->
  vid = uuid /\ t_VirtualRepo (w_db w) !! uuid = None /\
  t_VirtualRepo (w_db w') = <[uuid := default (mkVirt origin path EmptyString) (t_VirtualRepo (w_db w') !! uuid)]> (t_VirtualRepo (w_db w)) /\
  exists repo oh dir,
    seaf_repo_manager_get_repo (w_db w) (w_commits w) origin = Some repo /\
    seaf_commit_manager_get_commit (w_commits w) (b_commit_id (r_head repo)) = Some oh /\
    seaf_fs_manager_get_seafdir_id_by_path (w_fs w) (r_version repo) (root_id oh) path = inr (Some dir) /\
    in_sync w w' uuid origin path oh dir.
Proof.
  intros Hu. unfold create_virtual_repo_common.
  destruct (seaf_repo_manager_get_repo _ _ origin) as [repo|] eqn:Er; [|done].
  destruct (negb _); [done|]. destruct (_ && _); [done|].
  destruct (seaf_commit_manager_get_commit _ _) as [oh|] eqn:Eo; [|done].
  destruct (seaf_fs_manager_get_seafdir_id_by_path _ _ _ _) as [|[dir|]] eqn:Ed; [done| |done].
  unfold save_virtual_repo_info. destruct (t_VirtualRepo (w_db w) !! uuid) eqn:Ev; [done|].
  destruct (do_create_virtual_repo _ _ _ _ _ _ _ _ _ _ _ _ _ _) as [[[]|] w1] eqn:E; [|done]. intros [= <- <-].
  apply do_create_in_sync in E as (Hv & Hr & Hh & Hc & Hf & Ho); [|done]. cbn in Hv, Hh, Hc, Hf, Ho |- *.
  rewrite Hv, lookup_insert_eq. split_and!; [done|done|done|]. exists repo, oh, dir. split_and!; [done|done|done|].
  split; cbn; [by rewrite Hv, lookup_insert_eq|done| |done].
  destruct Hh as (c & [H1 H2] & H3). exists c. split; [by split|done].
Qed.

(** When the creation of a virtual library gives an id, then it is either that of the
    library the directory had already, with nothing changed, or the new one: then the path
    is a directory of the head of the origin, the new library is listed, its head is a first
    commit with exactly the tree of that directory (unless the id of the commit was taken),
    its row names the origin, the path and that head as its base, and no head of another
    library, commit or object changed.  Either way the same request after that, whatever the
    next id is, gives the same library and changes nothing.  (SHA-1 gives 20 bytes; the new
    id has 36 characters and is not the one of the origin.) *)
Theorem creation_starts_in_sync o uuid owner set_owner oid path name desc passwd w vid w' :
  String.length uuid = 36%nat -> uuid <> oid ->
  creates o uuid owner set_owner oid path name desc passwd w = (Some vid, w') ->
  let '(origin, p) := target (w_db w) oid path in
  ((w' = w /\ get_existing_virtual_repo (w_db w) origin p = Some vid) \/
   (vid = uuid /\ exists repo oh dir,
      seaf_repo_manager_get_repo (w_db w) (w_commits w) origin = Some repo /\
      seaf_commit_manager_get_commit (w_commits w) (b_commit_id (r_head repo)) = Some oh /\
      seaf_fs_manager_get_seafdir_id_by_path (w_fs w) (r_version repo) (root_id oh) p = inr (Some dir) /\
      in_sync w w' uuid origin p oh dir)) /\
  forall o' uuid' owner' set_owner' name' desc' passwd',
    creates o' uuid' owner' set_owner' oid path name' desc' passwd' w' = (Some vid, w').
Proof.
  intros Hu Hne. rewrite creates_target. destruct (strcmp path "/" =? 0) eqn:Hp; [done|].
  destruct (target (w_db w) oid path) as [origin p] eqn:Et.
  destruct (get_existing_virtual_repo (w_db w) origin p) as [old|] eqn:Ee.
  { intros [= <- <-]. split; [by left|]. intros. by rewrite creates_target, Hp, Et, Ee. }
  destruct (create_virtual_repo_common _ _ _ _ _ _ _ _ _ _ _ _ _ _ _) as [[vid'|] w1] eqn:E; [|done].
  destruct set_owner; [|done]. intros [= <- <-].
  apply create_common_in_sync in E as (-> & Hn & Hv & repo & oh & dir & Hr & Ho & Hd & Hs); [|done].
  split; [right; split; [done|]; by exists repo, oh, dir|].
  rewrite (is_row _ _ _ _ _ _ _ Hs) in Hv. cbn in Hv. intros. rewrite creates_target, Hp.
  assert (target (w_db w1) oid path = (origin, p)) as ->.
  { rewrite <- Et. unfold target, seaf_repo_manager_get_virtual_repo_info. by rewrite Hv, lookup_insert_ne. }
  assert (get_existing_virtual_repo (w_db w1) origin p = Some uuid) as ->; [|done].
  rewrite <- (existing_new (w_db w) uuid origin p (commit_id oh) Ee Hn).
  unfold get_existing_virtual_repo, rows_by_origin. by rewrite Hv.
Qed.
End creation.

(** ** Examples *)

(** A library with the directory [a] and no virtual library. *)
Definition plain_world : World :=
  mkWorld (toy_db c_1) {[c_1 := tree_commit c_1 id_3 None]} vr_store [] 0.

Abbreviation toy_creates o uuid path :=
  (seaf_repo_manager_create_virtual_repo toy_sha1 toy_session (fun _ => false) (fun _ _ => true) (fun _ _ _ _ => EmptyString)
     (fun _ _ _ _ _ _ => EmptyString) o uuid (fun _ => Some "me") true toy_rid path (Some "a") None None).

Lemma toy_sha1_length m : length (toy_sha1 m) = 20%nat.
Proof. unfold toy_sha1. by rewrite length_app, length_replicate. Qed.

Definition gives (r : option string * World) (id : string) : bool := bool_decide (fst r = Some id).

Lemma gives_id r id : gives r id = true -> r = (Some id, snd r).
Proof. unfold gives. case_bool_decide as H; [|done]. intros _. by destruct r as [o w]; cbn in H |- *; rewrite H. Qed.

Lemma toy_created : gives (toy_creates toy_oracle vr_id "a/" plain_world) vr_id = true.
Proof. vm_compute. reflexivity. Qed.

Lemma creation_starts_in_sync_witness :
  let w' := snd (toy_creates toy_oracle vr_id "a/" plain_world) in
  toy_creates toy_oracle c_2 "/a" w' = toy_creates toy_oracle c_2 "a/" w' /\
  toy_creates toy_oracle c_2 "a/" w' = (Some vr_id, w').
Proof.
  cbn zeta. split; [reflexivity|].
  pose proof (creation_starts_in_sync toy_sha1 toy_sha1_length toy_session (fun _ => false) (fun _ _ => true)
    (fun _ _ _ _ => EmptyString) (fun _ _ _ _ _ _ => EmptyString) toy_oracle vr_id (fun _ => Some "me") true toy_rid "a/"
    (Some "a") None None plain_world vr_id _ eq_refl vr_id_new (gives_id _ _ toy_created)) as H.
  destruct (target _ _ _). apply (proj2 H).
Defined.

(** A creation whose commit cannot be written fails, but its row stays: the next request
    for the directory is answered with the id of a library that does not exist. *)
Definition no_write : Oracle := mkOracle 100 false (fun _ => true) (fun _ => false) (fun _ => (200, None)) toy_conflict toy_conflict.

Lemma failed_creation_leaves_row :
  let '(r, w') := toy_creates no_write vr_id "/a" plain_world in
  r = None /\ fst (toy_creates toy_oracle c_2 "/a" w') = Some vr_id /\
  seaf_repo_manager_get_repo (w_db w') (w_commits w') vr_id = None.
Proof. vm_compute. split_and!; reflexivity. Qed.

(** The path of the root is refused only as ["/"]; written with two slashes or as nothing it
    makes a virtual library of the whole library. *)
Lemma root_as_virtual_library :
  fst (toy_creates toy_oracle vr_id "/" plain_world) = None /\
  fst (toy_creates toy_oracle vr_id "//" plain_world) = Some vr_id /\
  fst (toy_creates toy_oracle vr_id "" plain_world) = Some vr_id.
Proof. split_and!; vm_compute; reflexivity. Qed.
