(* ===== verification/Revert.v ===== *)
(** * Restoring old versions ([server/repo-op.c])

    [seaf_repo_manager_revert_file] and [seaf_repo_manager_revert_dir] put an entry of an old
    commit back into the current tree, after they created the directories above it where
    these are gone; [seaf_repo_manager_revert_on_server] publishes the tree of an old commit
    as the new head.  After its checks a restoration of an entry runs as [op_step]; one
    whose parent is gone waits for the handler that creates directories. *)

From stdpp Require Import pretty.
From S2P Require Import Prelude Hex Paths Sql CfPath FsObj FsMgr Walk Diff Merge CommitMgr RepoOp Repo CfV2Acl Publish CfFileop Handlers PutFile.

#[local] Arguments string_take : simpl never.

(** ** Names *)

(** The extension has its dot; [None] is NULL. *)
Definition filename_splitext (filename : string) : string * option string :=
  match split_last_char dot filename with
  | Some (base, ext) => (base, Some ("." +:+ ext))
  | None => (filename, None)
  end.

(** [snprintf] prints a NULL extension as [(null)]. *)
Definition printed (s : option string) : string := default "(null)" s.

Definition numbered_file (base : string) (ext : option string) (i : nat) : string :=
  snprintf_path (base +:+ " (" +:+ pretty (Z.of_nat i) +:+ ")" +:+ printed ext).

Definition numbered_dir (name : string) (i : nat) : string :=
  snprintf_path (name +:+ " (" +:+ pretty (Z.of_nat i) +:+ ")").

(** Nothing to do, the entry is there; the file of this name is replaced; an entry of this
    name is added. *)
Inductive revert_choice := RevertSkip | RevertOver (name : string) | RevertNew (name : string).

(** One round of the loop over the names; [None]: the entry of this name is in the way. *)
Definition file_round (l : list SeafDirent) (old_id name : string) : option revert_choice :=
  match find_dirent (fun d => (strcmp (d_name d) name =? 0) && (S_ISREG (d_mode d) || S_ISDIR (d_mode d))) l with
  | None => Some (RevertNew name)
  | Some d =>
      if S_ISREG (d_mode d) then Some (if strcmp (d_id d) old_id =? 0 then RevertSkip else RevertOver name)
      else None
  end.

Definition dir_round (l : list SeafDirent) (old_id name : string) : option revert_choice :=
  match find_dirent (fun d => strcmp (d_name d) name =? 0) l with
  | None => Some (RevertNew name)
  | Some d => if S_ISDIR (d_mode d) && (strcmp (d_id d) old_id =? 0) then Some RevertSkip else None
  end.

(** The loop; [None]: it does not come to an end within the fuel. *)
Fixpoint revert_loop (fuel : nat) (round : string -> option revert_choice) (numbered : nat -> string) (name : string) (i : nat)
  : option revert_choice :=
  match fuel with
  | O => None
  | S fuel =>
      match round name with
      | Some c => Some c
      | None => revert_loop fuel round numbered (numbered i) (S i)
      end
  end.

(** More names than entries. *)
Definition revert_fuel (l : list SeafDirent) : nat := S (S (length l)).

Definition file_choice (l : list SeafDirent) (old : SeafDirent) : option revert_choice :=
  let '(base, ext) := filename_splitext (d_name old) in
  revert_loop (revert_fuel l) (file_round l (d_id old)) (numbered_file base ext) (snprintf_path (d_name old)) 1.

Definition dir_choice (l : list SeafDirent) (old : SeafDirent) : option revert_choice :=
  revert_loop (revert_fuel l) (dir_round l (d_id old)) (numbered_dir (d_name old)) (snprintf_path (d_name old)) 1.

Section revert.
Context (sha1 : list Z -> list Z) (sha256 : list Z -> string).
Context (dir_hash : Z -> list SeafDirent -> string).
Context (fuel : nat) (se : Session) (g_utf8_validate : string -> bool).
Context {S : Type} (providers : list (Provider S)).
(** [strftime] of the time of the old commit. *)
Context (time_str : Z -> string).

(** ** The tree *)

(** A choice over the entries of the directory, and the tree that follows from it. *)
Definition revert_tree (choose : list SeafDirent -> option revert_choice) (newdent : string -> SeafDirent)
    (parent_dir desc : string) (repo : SeafRepo) (head : SeafCommit) (o : Oracle) (st : fs_store) : tree_result * fs_store :=
  match seaf_fs_manager_get_seafdir_by_path st (r_version repo) (root_id head) parent_dir with
  | inl _ => (TreeFails, st)
  | inr dir =>
      match choose (entries dir) with
      | None => (TreeFails, st)
      | Some RevertSkip => (TreeSame, st)
      | Some (RevertOver name) =>
          of_rewritten (fun _ => desc) (fun _ => [])
            (do_put_file dir_hash (o_dir_write o) (r_version repo) (o_now o) (root_id head) parent_dir (newdent name) st)
      | Some (RevertNew name) =>
          of_rewritten (fun _ => desc) (fun _ => [])
            (do_post_file dir_hash (o_dir_write o) (r_version repo) (o_now o) (root_id head) parent_dir (newdent name) st)
      end
  end.

Definition restored_file (old : SeafDirent) (name : string) : SeafDirent :=
  seaf_dirent_new (d_version old) (d_id old) STD_FILE_MODE name (d_mtime old) (d_modifier old) (d_size old).

Definition restored_dir (old : SeafDirent) (name : string) : SeafDirent :=
  seaf_dirent_new (d_version old) (d_id old) S_IFDIR name (d_mtime old) None (-1).

Definition revert_file_to_parent_dir (parent_dir : string) (old : SeafDirent) (desc : string)
  : SeafRepo -> SeafCommit -> Oracle -> fs_store -> tree_result * fs_store :=
  revert_tree (fun l => file_choice l old) (restored_file old) parent_dir desc.

Definition revert_dir (parent_dir : string) (old : SeafDirent) (desc : string)
  : SeafRepo -> SeafCommit -> Oracle -> fs_store -> tree_result * fs_store :=
  revert_tree (fun l => dir_choice l old) (restored_dir old) parent_dir desc.

(** ** The handlers *)

(** The path is there; it is not; another error. *)
Definition detect_path_exist (st : fs_store) (version : Z) (root_id path : string) : option bool :=
  match seaf_fs_manager_get_seafdir_by_path st version root_id path with
  | inr _ => Some true
  | inl SEAF_ERR_PATH_NO_EXIST => Some false
  | inl _ => None
  end.

(** Refused; nothing to do, the commit is the head; the directories above are created first;
    running. *)
Inductive revert_started :=
| RevertRefused (w : World) (s : S)
| RevertHead (w : World) (s : S)
| RevertParents (op : OnlineOp) (mkdir : OnlineOp) (repo : SeafRepo) (head : SeafCommit) (w : World) (s : S)
| RevertRunning (op : OnlineOp) (repo : SeafRepo) (head : SeafCommit) (w : World) (s : S).

(** What the two handlers share: [wrong] is the kind of entry that is refused, [tree] and
    [desc] what they differ in. *)
Definition revert_entry (op : string) (bad_path : string -> bool) (wrong : Z -> bool)
    (tree : string -> SeafDirent -> string -> SeafRepo -> SeafCommit -> Oracle -> fs_store -> tree_result * fs_store)
    (desc : string -> SeafCommit -> string)
    (repo_id old_commit_id path : string) (user : option string) (w : World) (s : S) : revert_started :=
  match repo_and_head w repo_id with
  | None => RevertRefused w s
  | Some (repo, head) =>
      if strcmp (b_commit_id (r_head repo)) old_commit_id =? 0 then RevertHead (emit w (EvUpdateRepoSize repo_id)) s
      else match seaf_commit_manager_get_commit (w_commits w) old_commit_id with
      | None => RevertRefused w s
      | Some old_commit =>
          if negb (strcmp (CommitMgr.repo_id old_commit) repo_id =? 0) then RevertRefused w s
          else
            let canon_path := get_canonical_path path in
            if bad_path canon_path then RevertRefused w s
            else
              let parent_dir := g_path_get_dirname canon_path in
              let filename := g_path_get_basename canon_path in
              match get_dirent_by_path (r_version repo) (w_fs w) (root_id old_commit) parent_dir filename with
              | None => RevertRefused w s
              | Some old_dent =>
                  if wrong (d_mode old_dent) then RevertRefused w s
                  else match detect_path_exist (w_fs w) (r_version repo) (root_id head) parent_dir with
                  | None => RevertRefused w s
                  | Some parent_dir_exist =>
                      let fop := base_fop op repo_id canon_path None [] user None in
                      let '(prepared, _, s) := cf_fileop_prepare providers fop s in
                      if prepared <? 0 then RevertRefused w s
                      else
                        let revert := mkOp repo_id user true false true [repo_id] true
                                        (seaf_repo_get_current_gc_id (se_db_type se) (w_db w) repo)
                                        (tree parent_dir old_dent (desc filename old_commit)) (fun _ => fop) fop in
                        if parent_dir_exist then RevertRunning revert repo head w s
                        else
                          match seaf_repo_manager_mkdir_with_parents dir_hash se g_utf8_validate providers repo_id "/"
                                  (skip_slash parent_dir) user w s with
                          | Refused w s => RevertRefused w (cf_fileop_aborted providers fop s)
                          | Running mkdir repo head w s => RevertParents revert mkdir repo head w s
                          end
                  end
              end
      end
  end.

(** The handler that creates the directories has returned [ret]: the library is read anew. *)
Definition revert_resume (op : OnlineOp) (ret : Z) (w : World) (s : S) : revert_started :=
  if ret <? 0 then RevertRefused w (cf_fileop_aborted providers (op_abort op) s)
  else match repo_and_head w (op_repo_id op) with
       | None => RevertRefused w (cf_fileop_aborted providers (op_abort op) s)
       | Some (repo, head) => RevertRunning op repo head w s
       end.

Definition seaf_repo_manager_revert_file (repo_id old_commit_id file_path : string) (user : option string)
  : World -> S -> revert_started :=
  revert_entry "revert-file" ends_with_slash S_ISDIR revert_file_to_parent_dir
    (fun filename old => snprintf_path ("Reverted file " +:+ quoted filename +:+ " to status at " +:+ time_str (ctime old)))
    repo_id old_commit_id file_path user.

Definition seaf_repo_manager_revert_dir (repo_id old_commit_id dir_path : string) (user : option string)
  : World -> S -> revert_started :=
  revert_entry "revert-dir" (fun _ => false) S_ISREG revert_dir
    (fun dirname _ => snprintf_path ("Recovered deleted directory " +:+ quoted dirname))
    repo_id old_commit_id dir_path user.

(** ** The whole library *)

(** At [retry], before each phase of the compare-and-swap, asleep, done with the return
    value and the new commit. *)
Inductive rewind_pc :=
| RwTry (retry_cnt : nat)
| RwPhaseA (repo : SeafRepo) (new_commit : SeafCommit) (retry_cnt : nat)
| RwPhaseB (repo : SeafRepo) (new_commit : SeafCommit) (retry_cnt : nat) (acl_before : string) (guard_changes : CfV2EditPrepared)
| RwSleep (retry_cnt : nat)
| RwDone (ret : Z) (commit : option string).

Definition REWIND_RETRIES : nat := 3.

(** [strftime (desc, 512, ...)] *)
Definition rewind_desc (c : SeafCommit) : string := "Reverted repo to status at " +:+ time_str (ctime c) +:+ ".".

Definition rewind_fop (repo_id commit_id : string) (user : option string) : CfFileOp :=
  set_expected (base_fop "revert-repo" repo_id "/" None [] user None) (Some commit_id).

(** [None]: refused by a provider. *)
Definition rewind_start (repo_id commit_id : string) (user : option string) (s : S) : option rewind_pc * S :=
  let '(prepared, _, s) := cf_fileop_prepare providers (rewind_fop repo_id commit_id user) s in
  (if prepared <? 0 then None else Some (RwTry 0), s).

Definition rewind_commit (o : Oracle) (repo : SeafRepo) (commit : SeafCommit) (user : option string) : SeafCommit :=
  let new := seaf_commit_new sha1 (o_now o) None (r_id repo) (root_id commit) user EMPTY_SHA1 (rewind_desc commit) 0 in
  seaf_repo_to_commit repo (set_parents new (Some (b_commit_id (r_head repo))) (second_parent_id new)).

Definition rewind_step (o : Oracle) (repo_id commit_id : string) (user : option string) (pc : rewind_pc) (w : World) (s : S)
  : option (rewind_pc * World * S) :=
  let fop := rewind_fop repo_id commit_id user in
  let failed w := (RwDone (-1) None, w, cf_fileop_aborted providers fop s) in
  match pc with
  | RwTry n =>
      Some match seaf_repo_manager_get_repo (w_db w) (w_commits w) repo_id with
           | None => failed w
           | Some repo =>
               match seaf_commit_manager_get_commit (w_commits w) commit_id with
               | None => failed w
               | Some commit =>
                   let new := rewind_commit o repo commit user in
                   let '(ret, cs) := seaf_commit_manager_add_commit (o_commit_write o) (w_commits w) new in
                   let w := set_commits w cs in
                   if ret <? 0 then failed w else (RwPhaseA repo new n, w, s)
               end
           end
  | RwPhaseA repo new n =>
      match phase_a sha256 fuel se g_utf8_validate o w (gnc_branch repo new) (b_commit_id (r_head repo)) with
      | None => None
      | Some (None, w) => Some (failed w)
      | Some (Some (acl_before, changes), w) => Some (RwPhaseB repo new n acl_before changes, w, s)
      end
  | RwPhaseB repo new n acl_before changes =>
      let '(published, _, w) :=
        phase_b sha256 se g_utf8_validate o w (gnc_branch repo new) (b_commit_id (r_head repo)) false None None
          acl_before changes in
      Some (if published <? 0 then
              if (published =? SEAF_BRANCH_UPDATE_HEAD_CONFLICT) && (n <? REWIND_RETRIES)%nat
              then (RwSleep (n + 1), w, s) else failed w
            else (RwDone 0 (Some (CommitMgr.commit_id new)), emit (emit w (EvMergeVirtualRepo repo_id)) (EvUpdateRepoSize repo_id),
                  cf_fileop_committed providers (set_commit_id fop (CommitMgr.commit_id new)) s))
  | RwSleep n => Some (RwTry n, w, s)
  | RwDone _ _ => None
  end.
End revert.
