(* ===== verification/RevertProof.v ===== *)
(** * What restoring old versions does

    A restored file or directory shows what it showed in the old commit, under a name at which
    nothing is lost, and nothing else changes.  Rewinding a library puts the tree of the old
    commit on top of the head that was there. *)

From stdpp Require Import pretty.
From S2P Require Import Prelude Hex Paths Sql CfPath FsObj FsMgr Walk Diff Merge CommitMgr RepoOp RepoOpProof LibView Repo CfV2Acl Publish PublishProof CfFileop Handlers HandlersProof PutFile PutFileProof VirtualRepo VirtualRepoProof Revert.

#[local] Arguments string_take : simpl never.

(** ** The names that are tried *)

Lemma pretty_N_go_length n : forall x s, (x < 10 ^ N.of_nat n)%N -> (String.length (pretty_N_go x s) <= n + String.length s)%nat.
Proof.
  induction n as [|n IH]; intros x s Hx.
  - assert (x = 0%N) as -> by lia. rewrite pretty_N_go_0. lia.
  - destruct (decide (x = 0)%N) as [->|Hne]; [rewrite pretty_N_go_0; lia|].
    rewrite pretty_N_go_step by lia. etrans; [apply IH|cbn [String.length]; lia].
    apply N.Div0.div_lt_upper_bound. replace (N.of_nat (S n)) with (N.succ (N.of_nat n)) in Hx by lia.
    by rewrite N.pow_succ_r' in Hx.
Qed.

Lemma pretty_nat_length i : Z.of_nat i < 10 ^ 10 -> (0 < i)%nat -> (String.length (pretty (Z.of_nat i)) <= 10)%nat.
Proof.
  intros Hi H0. destruct (Z.of_nat i) as [|p|p] eqn:E; [lia| |lia].
  change (pretty (Z.pos p)) with (if decide (N.pos p = 0)%N then "0" else pretty_N_go (N.pos p) EmptyString).
  rewrite decide_False by done. etrans; [apply (pretty_N_go_length 10)|cbn; lia].
  change (10 ^ N.of_nat 10)%N with 10000000000%N. change (10 ^ 10) with 10000000000 in Hi. lia.
Qed.

(** The [k]-th name of a loop. *)
Definition tried (numbered : nat -> string) (name : string) (i k : nat) : string :=
  match k with O => name | S k => numbered (i + k)%nat end.

Lemma revert_loop_spec round numbered fuel : forall name i,
  match revert_loop fuel round numbered name i with
  | Some c => exists k, (k < fuel)%nat /\ round (tried numbered name i k) = Some c
  | None => forall k, (k < fuel)%nat -> round (tried numbered name i k) = None
  end.
Proof.
  induction fuel as [|fuel IH]; intros name i; cbn [revert_loop]; [lia|].
  destruct (round name) as [c|] eqn:Er; [by exists 0%nat; split; [lia|]|].
  specialize (IH (numbered i) (S i)).
  assert (Ht : forall k, tried numbered (numbered i) (S i) k = tried numbered name i (S k)).
  { intros [|k]; cbn [tried]; [by rewrite Nat.add_0_r|]. f_equal. lia. }
  destruct (revert_loop fuel round numbered (numbered i) (S i)) as [c|].
  - destruct IH as (k & Hk & Hc). exists (S k). split; [lia|]. by rewrite <- Ht.
  - intros [|k] Hk; [done|]. rewrite <- Ht. apply IH. lia.
Qed.

(** More names than entries: the loop ends. *)
Lemma revert_loop_ends (l : list SeafDirent) round numbered name i :
  (forall n, round n = None -> n ∈ d_name <$> l) ->
  (forall j k, (j < revert_fuel l)%nat -> (k < revert_fuel l)%nat ->
     tried numbered name i j = tried numbered name i k -> j = k) ->
  is_Some (revert_loop (revert_fuel l) round numbered name i).
Proof.
  intros Hr Hinj. pose proof (revert_loop_spec round numbered (revert_fuel l) name i) as H.
  destruct (revert_loop _ _ _ _ _) as [c|]; [by eauto|]. exfalso.
  set (names := tried numbered name i <$> seq 0 (revert_fuel l)).
  assert (Hnd : NoDup names).
  { apply NoDup_fmap_2_strong; [|apply NoDup_seq]. intros j k Hj Hk. apply elem_of_seq in Hj, Hk.
    apply Hinj; lia. }
  assert (Hsub : names ⊆ d_name <$> l).
  { intros n (k & -> & Hk)%list_elem_of_fmap. apply elem_of_seq in Hk. apply Hr, H. lia. }
  pose proof (submseteq_length _ _ (NoDup_submseteq _ _ Hnd Hsub)) as Hlen.
  subst names. rewrite !length_fmap, length_seq in Hlen. unfold revert_fuel in Hlen. lia.
Qed.

(** ** Rounds over sorted entries *)

Lemma find_named_lookup (Q : SeafDirent -> bool) name l :
  sorted_entries l ->
  find_dirent (fun d => (strcmp (d_name d) name =? 0) && Q d) l =
  match lookup_name name l with Some d => if Q d then Some d else None | None => None end.
Proof.
  induction 1 as [|d l Hs IH Hall]; [done|]. unfold find_dirent in *. cbn [List.find]. rewrite lookup_name_cons, strcmp_name.
  destruct (String.eqb_spec name (d_name d)) as [->|Hne]; cbn [andb]; [|done].
  destruct (Q d); [done|]. rewrite IH.
  assert (Hn : lookup_name (d_name d) l = None); [|by rewrite Hn].
  apply lookup_name_None. intros x Hx Ex. rewrite Forall_forall in Hall. specialize (Hall x Hx). rewrite Ex in Hall.
  by apply gt_name_irrefl in Hall.
Qed.

(** What a choice over the entries [l] promises; [keeps d]: the entry [d] may be replaced. *)
Definition choice_ok (l : list SeafDirent) (same : SeafDirent -> Prop) (over : SeafDirent -> Prop) (new : string -> Prop)
    (c : revert_choice) : Prop :=
  match c with
  | RevertSkip => exists d, d ∈ l /\ same d
  | RevertOver u => exists d, lookup_name u l = Some d /\ over d
  | RevertNew u => new u
  end.

Lemma file_round_spec l old_id name c :
  sorted_entries l -> file_round l old_id name = Some c ->
  choice_ok l (fun d => S_ISREG (d_mode d) = true /\ d_id d = old_id) (fun d => S_ISREG (d_mode d) = true /\ d_id d <> old_id)
    (fun u => forall d, lookup_name u l = Some d -> S_ISREG (d_mode d) || S_ISDIR (d_mode d) = false) c.
Proof.
  intros Hs. unfold file_round. rewrite (find_named_lookup (fun d => S_ISREG (d_mode d) || S_ISDIR (d_mode d))) by done.
  destruct (lookup_name name l) as [d|] eqn:El.
  - destruct (S_ISREG (d_mode d)) eqn:Hr; cbn [orb].
    + rewrite Hr. destruct (strcmp (d_id d) old_id =? 0) eqn:Ei; intros [= <-]; cbn [choice_ok].
      * exists d. apply lookup_name_Some in El as [? _]. apply Z.eqb_eq, strcmp_eq in Ei. eauto.
      * exists d. split_and!; try done. intros Hx. by rewrite Hx, strcmp_refl in Ei.
    + destruct (S_ISDIR (d_mode d)) eqn:Hd; [by rewrite Hr|]. intros [= <-] d' Hd'. rewrite El in Hd'. injection Hd' as <-.
      by rewrite Hr, Hd.
  - intros [= <-] d' Hd'. congruence.
Qed.

Lemma dir_round_spec l old_id name c :
  sorted_entries l -> dir_round l old_id name = Some c ->
  choice_ok l (fun d => S_ISDIR (d_mode d) = true /\ d_id d = old_id) (fun _ => False) (fun u => lookup_name u l = None) c.
Proof.
  intros Hs. unfold dir_round. rewrite find_dirent_lookup. destruct (lookup_name name l) as [d|] eqn:El.
  - destruct (S_ISDIR (d_mode d)) eqn:Hd; cbn [andb]; [|done]. destruct (strcmp (d_id d) old_id =? 0) eqn:Ei; [|done].
    intros [= <-]. exists d. apply lookup_name_Some in El as [? _]. apply Z.eqb_eq, strcmp_eq in Ei. eauto.
  - by intros [= <-].
Qed.

Lemma lookup_name_named l n d : lookup_name n l = Some d -> n ∈ d_name <$> l.
Proof. intros [H <-]%lookup_name_Some. by apply list_elem_of_fmap_2. Qed.

Lemma file_round_none l old_id n : sorted_entries l -> file_round l old_id n = None -> n ∈ d_name <$> l.
Proof.
  intros Hs. unfold file_round. rewrite (find_named_lookup (fun d => S_ISREG (d_mode d) || S_ISDIR (d_mode d))) by done.
  destruct (lookup_name n l) as [d|] eqn:E; [|done]. intros _. by eapply lookup_name_named.
Qed.

Lemma dir_round_none l old_id n : dir_round l old_id n = None -> n ∈ d_name <$> l.
Proof.
  unfold dir_round. rewrite find_dirent_lookup. destruct (lookup_name n l) as [d|] eqn:E; [|done].
  intros _. by eapply lookup_name_named.
Qed.

(** ** The names differ *)

Lemma string_app_inj_r s : forall a b, a +:+ s = b +:+ s -> a = b.
Proof.
  assert (H : forall a b, String.length a = String.length b -> a +:+ s = b +:+ s -> a = b).
  { induction a as [|x a IH]; intros [|y b] Hl E; try done.
    change (String x (a +:+ s) = String y (b +:+ s)) in E. injection E as -> E. f_equal. apply IH; [|done]. by injection Hl. }
  intros a b E. apply H; [|done]. apply (f_equal String.length) in E. rewrite !string_length_app in E. lia.
Qed.

Lemma split_last_char_app c s : forall a b, split_last_char c s = Some (a, b) -> s = a +:+ String c b.
Proof.
  induction s as [|x s IH]; intros a b; [done|]. cbn [split_last_char].
  destruct (split_last_char c s) as [[a' b']|]; [intros [= <- <-]; by rewrite (IH a' b')|].
  destruct (Ascii.eqb_spec x c) as [->|]; [|done]. by intros [= <- <-].
Qed.

Lemma splitext_length name base ext :
  filename_splitext name = (base, ext) ->
  (String.length base <= String.length name /\ String.length base + String.length (printed ext) <= String.length name + 6 /\
   String.length name <= String.length base + String.length (printed ext))%nat.
Proof.
  unfold filename_splitext. destruct (split_last_char dot name) as [[a b]|] eqn:E; intros [= <- <-].
  - apply split_last_char_app in E as ->. change (printed (Some ("." +:+ b))) with (String dot b).
    rewrite !string_length_app. cbn [String.length]. lia.
  - cbn. lia.
Qed.

(** A name before a number, and what comes after it. *)
Definition spelled (a b : string) (i : nat) : string := a +:+ " (" +:+ pretty (Z.of_nat i) +:+ ")" +:+ b.

Lemma spelled_length a b i : String.length (spelled a b i) = (String.length a + 3 + String.length (pretty (Z.of_nat i)) + String.length b)%nat.
Proof. unfold spelled. rewrite !string_length_app. cbn. lia. Qed.

Lemma spelled_inj a b i j : spelled a b i = spelled a b j -> i = j.
Proof.
  unfold spelled. intros E%(inj (String.append a))%(inj (String.append " ("))%string_app_inj_r%(inj pretty). lia.
Qed.

Lemma tried_inj name a b n :
  (String.length name <= 4000)%nat -> Z.of_nat n < 2 ^ 31 ->
  (String.length a + String.length b <= String.length name + 6)%nat -> (String.length name <= String.length a + String.length b)%nat ->
  forall j k, (j < n)%nat -> (k < n)%nat ->
    tried (fun i => snprintf_path (spelled a b i)) (snprintf_path name) 1 j =
    tried (fun i => snprintf_path (spelled a b i)) (snprintf_path name) 1 k -> j = k.
Proof.
  intros Hn Hl H1 H2.
  assert (Hp : forall i, (i < n)%nat -> (String.length (pretty (Z.of_nat (1 + i))) <= 10)%nat).
  { intros i Hi. apply pretty_nat_length; lia. }
  assert (Hs : forall i, (i < n)%nat -> snprintf_path (spelled a b (1 + i)) = spelled a b (1 + i)).
  { intros i Hi. apply string_take_length. rewrite spelled_length. specialize (Hp i Hi). lia. }
  assert (H0 : forall i, (i < n)%nat -> snprintf_path name <> snprintf_path (spelled a b (1 + i))).
  { intros i Hi E. rewrite Hs in E by done. unfold snprintf_path in E. rewrite string_take_length in E by lia.
    apply (f_equal String.length) in E. rewrite spelled_length in E. lia. }
  intros [|j] [|k] Hj Hk E; cbn [tried] in E; [done| | |].
  - exfalso. by apply (H0 k ltac:(lia)).
  - exfalso. by apply (H0 j ltac:(lia)).
  - rewrite !Hs in E by lia. apply spelled_inj in E. lia.
Qed.

Section choices.
Context (l : list SeafDirent) (old : SeafDirent) (Hs : sorted_entries l).

Lemma file_choice_spec c :
  file_choice l old = Some c ->
  choice_ok l (fun d => S_ISREG (d_mode d) = true /\ d_id d = d_id old)
    (fun d => S_ISREG (d_mode d) = true /\ d_id d <> d_id old)
    (fun u => forall d, lookup_name u l = Some d -> S_ISREG (d_mode d) || S_ISDIR (d_mode d) = false) c.
Proof.
  unfold file_choice. destruct (filename_splitext (d_name old)) as [base ext]. intros E.
  match type of E with revert_loop ?f ?r ?n ?m ?i = _ => pose proof (revert_loop_spec r n f m i) as H end.
  rewrite E in H. destruct H as (k & _ & H). by eapply file_round_spec.
Qed.

Lemma dir_choice_spec c :
  dir_choice l old = Some c ->
  choice_ok l (fun d => S_ISDIR (d_mode d) = true /\ d_id d = d_id old) (fun _ => False) (fun u => lookup_name u l = None) c.
Proof.
  unfold dir_choice. intros E.
  match type of E with revert_loop ?f ?r ?n ?m ?i = _ => pose proof (revert_loop_spec r n f m i) as H end.
  rewrite E in H. destruct H as (k & _ & H). by eapply dir_round_spec.
Qed.

Context (Hname : (String.length (d_name old) <= 4000)%nat) (Hmany : Z.of_nat (revert_fuel l) < 2 ^ 31).

Lemma file_choice_ends : is_Some (file_choice l old).
Proof.
  unfold file_choice. destruct (filename_splitext (d_name old)) as [base ext] eqn:E.
  destruct (splitext_length _ _ _ E) as (H1 & H2 & H3). apply revert_loop_ends; [intros n; by apply file_round_none|].
  by apply (tried_inj (d_name old) base (printed ext)).
Qed.

Lemma dir_choice_ends : is_Some (dir_choice l old).
Proof.
  unfold dir_choice. apply revert_loop_ends; [intros n; by apply dir_round_none|].
  intros j k Hj Hk Ht. apply (tried_inj (d_name old) (d_name old) EmptyString (revert_fuel l)); try done; try (cbn; lia).
Qed.
End choices.

(** ** Directories by their path *)

(** A path that is read with [strtok] and one that is read with [strchr] name one directory:
    it has no empty components. *)
Definition names_dir (path : string) (parts : list string) : Prop :=
  components path = parts /\ strchr_parts (skip_slash path) = parts.

Lemma spells_names path parts : spells path parts -> names_dir path parts.
Proof. split; [by apply spells_components|by apply spells_parts]. Qed.

Section tree.
Context (dir_hash : Z -> list SeafDirent -> string) (Hcf : forall v, collision_free dir_hash v).

Lemma by_path_entries version st root path parts l :
  tidy st version -> components path = parts -> entries_at version st root parts = Some l ->
  exists dir, seaf_fs_manager_get_seafdir_by_path st version root path = inr dir /\ entries dir = l.
Proof.
  intros Ht Hc He. unfold seaf_fs_manager_get_seafdir_by_path. rewrite Hc.
  destruct (seaf_fs_manager_get_seafdir st version root) as [r|] eqn:Hr.
  - destruct (proj2 (dir_at_entries version st parts root r Ht Hr) l He) as (base & Hb & <- & _).
    apply walk_path_dir_at in Hb. by exists base.
  - exfalso. destruct parts; cbn [entries_at] in He; by rewrite Hr in He.
Qed.

(** An entry that is read by its path is one of the entries there. *)
Lemma dirent_by_path_entry version st root path name parts old :
  tidy st version -> components path = parts -> get_dirent_by_path version st root path name = Some old ->
  exists l, entries_at version st root parts = Some l /\ lookup_name name l = Some old /\ d_name old = name.
Proof.
  intros Ht Hc. unfold get_dirent_by_path, seaf_fs_manager_get_seafdir_by_path. rewrite Hc.
  destruct (seaf_fs_manager_get_seafdir st version root) as [r|] eqn:Hr; [|done].
  destruct (walk_path st version r parts) as [|dir] eqn:Hw; [done|]. apply walk_path_dir_at in Hw.
  destruct (proj1 (dir_at_entries version st parts root r Ht Hr) dir Hw) as [He _].
  rewrite find_dirent_lookup. intros Hl. exists (entries dir). by pose proof (lookup_name_Some _ _ _ Hl) as [_ Hn].
Qed.

(** Entries of one kind with one id show the same below them. *)
Lemma view_same_below version st (d e : SeafDirent) x rest :
  S_ISDIR (d_mode d) = S_ISDIR (d_mode e) -> d_id d = d_id e ->
  view version st [d] (d_name d :: x :: rest) = view version st [e] (d_name e :: x :: rest).
Proof. intros Hm Hi. cbn [view]. rewrite !lookup_name_cons, !String.eqb_refl. cbn [mbind option_bind]. by rewrite Hm, Hi. Qed.

(** ** The tree of a restoration *)

Lemma posted_restored_file old u n : posted (restored_file old u) n = restored_file old n.
Proof. unfold posted, restored_file, seaf_dirent_new. by destruct (0 <? d_version old) eqn:E; cbn; rewrite ?E. Qed.

Lemma posted_restored_dir old u n : posted (restored_dir old u) n = restored_dir old n.
Proof. unfold posted, restored_dir, seaf_dirent_new. by destruct (0 <? d_version old) eqn:E; cbn; rewrite ?E. Qed.

(** The restored entry [newdent u] is the only change of the tree. *)
Definition puts_back (version : Z) (st : fs_store) (head_root : string) (parts : list string) (e : SeafDirent)
    (root : string) (st' : fs_store) : Prop :=
  library_ok dir_hash version st' /\ st ⊆ st' /\
  forall path, view_root version st' root path = put_entry version st (view_root version st head_root) parts e path.

Lemma revert_tree_spec choose newdent parent_dir parts desc repo head o st l same over :
  at_dir dir_hash (r_version repo) st (root_id head) parent_dir l -> names_dir parent_dir parts ->
  (forall u n, posted (newdent u) n = newdent n) -> (forall u, d_name (newdent u) = u) ->
  (forall u, storable (r_version repo) st (newdent u)) ->
  (forall c, choose l = Some c -> choice_ok l same over (fun u => lookup_name u l = None) c) ->
  match revert_tree dir_hash choose newdent parent_dir desc repo head o st with
  | (TreeNew root _ _, st') =>
      exists u, (lookup_name u l = None \/ exists d, lookup_name u l = Some d /\ over d) /\
        puts_back (r_version repo) st (root_id head) parts (newdent u) root st'
  | (TreeSame, st') => st' = st /\ exists d, d ∈ l /\ same d
  | (TreeFails, _) => is_Some (choose l) -> o_dir_write o = (fun _ => true) -> False
  end.
Proof.
  intros Hat Hsp Hpost Hnm Hst Hch. unfold revert_tree.
  destruct (by_path_entries (r_version repo) st (root_id head) parent_dir parts l) as (dir & -> & ->).
  { destruct Hat as [Hl _]. apply (lib_tidy _ _ _ Hl). } { by destruct Hsp. }
  { rewrite <- (proj2 Hsp). by destruct Hat. }
  destruct (choose l) as [c|]; [|by intros [? ?]]. specialize (Hch c eq_refl).
  destruct c as [|u|u]; cbn [choice_ok] in Hch; [done| |].
  - destruct Hch as (d & Hd & Ho). unfold of_rewritten.
    assert (Hd' : lookup_name (d_name (newdent u)) l = Some d) by by rewrite Hnm.
    destruct (put_file_refines dir_hash (r_version repo) (o_now o) (Hcf _) st (root_id head) parent_dir l (newdent u) d Hat (Hst u) Hd')
      as (root' & st2 & E2 & Hsub & Hlib & Hview).
    destruct (do_put_file dir_hash (o_dir_write o) _ _ _ _ _ _) as [[r|] st1] eqn:Ep; cbn [fst snd].
    + apply rewrite_at_done in Ep. unfold do_put_file in E2. rewrite Ep in E2. injection E2 as -> ->. cbn [rw_id].
      exists u. split; [by right; exists d|]. split_and!; try done. by rewrite <- (proj2 Hsp).
    + intros _ Hw. rewrite Hw in Ep. by rewrite Ep in E2.
  - unfold of_rewritten.
    assert (Hu : generate_unique_filename (d_name (newdent u)) l = Some u) by (rewrite Hnm; by apply unique_filename_free).
    destruct (post_file_outcome dir_hash (r_version repo) (o_now o) (Hcf _) st (root_id head) parent_dir l (newdent u) u Hat (Hst u) Hu)
      as (root' & st2 & E2 & Hsub & Hlib & Hview).
    destruct (do_post_file dir_hash (o_dir_write o) _ _ _ _ _ _) as [[r|] st1] eqn:Ep; cbn [fst snd].
    + apply rewrite_at_done in Ep. unfold do_post_file, do_post_file_replace in E2. rewrite Ep in E2. injection E2 as -> ->. cbn [rw_id].
      exists u. split; [by left|]. rewrite Hpost in Hview. split_and!; try done. by rewrite <- (proj2 Hsp).
    + intros _ Hw. rewrite Hw in Ep. by rewrite Ep in E2.
Qed.

(** ** What a restoration promises *)

(** A path of one tree shows what a path of another shows: an entry of the same kind and
    contents, and the same below it. *)
Definition same_at (version : Z) (st : fs_store) (root : string) (p : list string) (st0 : fs_store) (root0 : string) (p0 : list string) : Prop :=
  (exists e e0, view_root version st root p = Some e /\ view_root version st0 root0 p0 = Some e0 /\
     d_id e = d_id e0 /\ S_ISDIR (d_mode e) = S_ISDIR (d_mode e0)) /\
  (forall x rest, view_root version st root (p ++ x :: rest) = view_root version st0 root0 (p0 ++ x :: rest)).

Definition restores (version : Z) (over : SeafDirent -> Prop) (st0 : fs_store) (old_root : string) (parts : list string) (name : string)
    (st : fs_store) (head_root : string) (l : list SeafDirent) (o : Oracle) (r : tree_result * fs_store) : Prop :=
  match r with
  | (TreeNew root _ _, st') =>
      exists u, (lookup_name u l = None \/ exists d, lookup_name u l = Some d /\ over d) /\
        library_ok dir_hash version st' /\
        same_at version st' root (parts ++ [u]) st0 old_root (parts ++ [name]) /\
        (forall path, (forall rest, path <> parts ++ u :: rest) -> view_root version st' root path = view_root version st head_root path)
  | (TreeSame, st') =>
      st' = st /\ exists d, d ∈ l /\ same_at version st head_root (parts ++ [d_name d]) st0 old_root (parts ++ [name])
  | (TreeFails, _) => o_dir_write o <> (fun _ => true)
  end.

(** Every entry is a file or a directory. *)
Definition plain (st : fs_store) (version : Z) : Prop :=
  forall id dir e, seaf_fs_manager_get_seafdir st version id = Some dir -> e ∈ entries dir ->
    S_ISREG (d_mode e) || S_ISDIR (d_mode e) = true.

Lemma attr_id_kind (d e : SeafDirent) :
  S_ISDIR (d_mode d) = S_ISDIR (d_mode e) -> d_id d = d_id e -> d_id (attr d) = d_id (attr e).
Proof. unfold attr. intros <- Hi. by destruct (S_ISDIR (d_mode d)). Qed.

(** Entries of one kind with one id, at two paths. *)
Lemma same_at_entries version st root p st0 root0 p0 (d e : SeafDirent) :
  (forall rest, view_root version st root (p ++ rest) = view version st0 [d] (d_name d :: rest)) ->
  (forall rest, view_root version st0 root0 (p0 ++ rest) = view version st0 [e] (d_name e :: rest)) ->
  S_ISDIR (d_mode d) = S_ISDIR (d_mode e) -> d_id d = d_id e -> same_at version st root p st0 root0 p0.
Proof.
  intros H1 H2 Hm Hi. split.
  - exists (attr d), (attr e). specialize (H1 []). specialize (H2 []). rewrite app_nil_r in H1, H2.
    rewrite H1, H2. cbn [view]. rewrite !lookup_name_cons, !String.eqb_refl. cbn [mbind option_bind].
    rewrite !attr_mode. split_and!; [done|done|by apply attr_id_kind|done].
  - intros x rest. rewrite H1, H2. by apply view_same_below.
Qed.

Section restored.
Context (repo : SeafRepo) (head : SeafCommit) (o : Oracle) (st0 st : fs_store) (old_root parent_dir name : string).
Context (parts : list string) (l : list SeafDirent) (old : SeafDirent).
Abbreviation v := (r_version repo).
Context (Hlib : library_ok dir_hash v st0) (Hsub : st0 ⊆ st).
Context (Hat : at_dir dir_hash v st (root_id head) parent_dir l) (Hsp : names_dir parent_dir parts).
Context (Hold : get_dirent_by_path v st0 old_root parent_dir name = Some old).

Lemma old_readable : storable v st0 old.
Proof.
  destruct (dirent_by_path_entry v st0 old_root parent_dir name parts old) as (lo & He & Hl & _);
    [apply (lib_tidy _ _ _ Hlib)|by destruct Hsp|done|].
  rewrite <- (proj2 Hsp) in He. apply lookup_name_Some in Hl as [Hin _].
  exact (proj2 (at_sorted dir_hash v st0 old_root parent_dir lo (Build_at_dir _ _ _ _ _ _ Hlib He)) old Hin).
Qed.

Lemma old_view rest : view_root v st0 old_root ((parts ++ [name]) ++ rest) = view v st0 [old] (d_name old :: rest).
Proof.
  destruct (dirent_by_path_entry v st0 old_root parent_dir name parts old) as (lo & He & Hl & Hn);
    [apply (lib_tidy _ _ _ Hlib)|by destruct Hsp|done|].
  rewrite <- app_assoc. cbn [app]. rewrite (view_dir_parts _ _ _ _ _ _ _ He), Hn. apply view_lookup.
  by rewrite lookup_name_cons, Hn, String.eqb_refl.
Qed.

(** An entry like the old one shows the same in the later store. *)
Lemma view_later (d : SeafDirent) rest :
  S_ISDIR (d_mode d) = S_ISDIR (d_mode old) -> d_id d = d_id old -> view v st [d] (d_name d :: rest) = view v st0 [d] (d_name d :: rest).
Proof.
  intros Hm Hi. apply view_mono; [done|intros i dir e0; apply (tidy_closed _ _ (lib_tidy _ _ _ Hlib))|].
  intros e [->|[]%elem_of_nil]%elem_of_cons Hd. rewrite Hm in Hd. rewrite Hi. by apply old_readable.
Qed.

Lemma storable_later (d : SeafDirent) :
  S_ISDIR (d_mode d) = S_ISDIR (d_mode old) -> d_id d = d_id old -> storable v st d.
Proof.
  intros Hm Hi Hd. rewrite Hm in Hd. destruct (old_readable Hd) as [x Hx]. exists x. rewrite Hi. by eapply get_seafdir_mono.
Qed.

Lemma same_old st1 root p (d : SeafDirent) :
  (forall rest, view_root v st1 root (p ++ rest) = view v st [d] (d_name d :: rest)) ->
  S_ISDIR (d_mode d) = S_ISDIR (d_mode old) -> d_id d = d_id old -> same_at v st1 root p st0 old_root (parts ++ [name]).
Proof.
  intros H Hm Hi. apply (same_at_entries _ _ _ _ _ _ _ d old); [|apply old_view|done|done].
  intros rest. rewrite H. by apply view_later.
Qed.

Lemma revert_tree_restores choose newdent desc over :
  (forall u n, posted (newdent u) n = newdent n) -> (forall u, d_name (newdent u) = u) ->
  (forall u, S_ISDIR (d_mode (newdent u)) = S_ISDIR (d_mode old) /\ d_id (newdent u) = d_id old) ->
  is_Some (choose l) ->
  (forall c, choose l = Some c ->
     choice_ok l (fun d => S_ISDIR (d_mode d) = S_ISDIR (d_mode old) /\ d_id d = d_id old) over (fun u => lookup_name u l = None) c) ->
  restores v over st0 old_root parts name st (root_id head) l o (revert_tree dir_hash choose newdent parent_dir desc repo head o st).
Proof.
  intros Hpost Hnm Hkind Hsome Hch.
  pose proof (revert_tree_spec choose newdent parent_dir parts desc repo head o st l _ over Hat Hsp Hpost Hnm
    (fun u => storable_later _ (proj1 (Hkind u)) (proj2 (Hkind u))) Hch) as H.
  destruct (revert_tree _ _ _ _ _ _ _ _ _) as [[| |root d names] st'] eqn:E; cbn [restores].
  - intros Hw. by apply H.
  - destruct H as (-> & d & Hd & Hm & Hi). split; [done|]. exists d. split; [done|].
    pose proof (at_sorted _ _ _ _ _ _ Hat) as [Hs _]. apply (same_old _ _ _ d); [|done|done].
    intros rest. rewrite <- app_assoc. cbn [app].
    rewrite (view_dir_parts _ _ _ _ l) by (rewrite <- (proj2 Hsp); by destruct Hat).
    apply view_lookup. rewrite lookup_name_cons, String.eqb_refl. by apply lookup_name_sorted.
  - destruct H as (u & Hu & Hl & _ & Hview). destruct (Hkind u) as [Hm Hi]. exists u. split_and!; [done|done| |].
    + apply (same_old _ _ _ (newdent u)); [|done|done]. intros rest. rewrite Hview, <- app_assoc. cbn [app].
      unfold put_entry. rewrite (proj2 (below_Some _ _ (u :: rest)) eq_refl), Hnm, String.eqb_refl. done.
    + intros path Hp. rewrite Hview. unfold put_entry. destruct (below parts path) as [[|n rest]|] eqn:Eb; try done.
      apply below_Some in Eb as ->. rewrite Hnm. destruct (String.eqb_spec n u) as [->|]; [|done]. by destruct (Hp rest).
Qed.
End restored.
End tree.

(** ** The handlers *)

Section handlers.
Context (dir_hash : Z -> list SeafDirent -> string) (Hcf : forall v, collision_free dir_hash v).
Context (se : Session) (g_utf8_validate : string -> bool) {S : Type} (providers : list (Provider S)) (time_str : Z -> string).

(** The operation that a handler starts, at once or after the directories above. *)
Definition begun (r : revert_started (S := S)) (op : OnlineOp) : Prop :=
  match r with
  | RevertRunning op' _ _ _ _ | RevertParents op' _ _ _ _ _ => op = op'
  | _ => False
  end.

Lemma revert_entry_begun opname bad_path wrong tree desc repo_id old_commit_id path user w0 s0 op repo0 head0 :
  repo_and_head w0 repo_id = Some (repo0, head0) ->
  begun (revert_entry dir_hash se g_utf8_validate providers opname bad_path wrong tree desc repo_id old_commit_id path user w0 s0) op ->
  exists old_commit old d, seaf_commit_manager_get_commit (w_commits w0) old_commit_id = Some old_commit /\
    get_dirent_by_path (r_version repo0) (w_fs w0) (root_id old_commit) (g_path_get_dirname (get_canonical_path path))
      (g_path_get_basename (get_canonical_path path)) = Some old /\
    wrong (d_mode old) = false /\ op_tree op = tree (g_path_get_dirname (get_canonical_path path)) old d.
Proof.
  unfold revert_entry. intros ->. destruct (strcmp _ old_commit_id =? 0); [done|].
  destruct (seaf_commit_manager_get_commit (w_commits w0) old_commit_id) as [c|]; [|done].
  destruct (negb _); [done|]. destruct (bad_path _); [done|].
  destruct (get_dirent_by_path _ _ _ _ _) as [old|] eqn:Eo; [|done]. destruct (wrong (d_mode old)) eqn:Ew; [done|].
  destruct (detect_path_exist _ _ _ _) as [ex|]; [|done]. destruct (cf_fileop_prepare _ _ _) as [[r e] s1].
  destruct (r <? 0); [done|]. destruct ex.
  - intros H. cbn [begun] in H. subst op. exists c, old. eexists. by split_and!.
  - destruct (seaf_repo_manager_mkdir_with_parents _ _ _ _ _ _ _ _ _ _) as [w1 s2|mk r1 h1 w1 s2]; [done|].
    intros H. cbn [begun] in H. subst op. exists c, old. eexists. by split_and!.
Qed.

End handlers.

(** ** Rewinding a library *)

Section rewind.
Context (sha1 : list Z -> list Z) (sha256 : list Z -> string).
Context (fuel : nat) (se : Session) (g_utf8_validate : string -> bool).
Context {S : Type} (providers : list (Provider S)) (time_str : Z -> string).
Context (rid target : string) (user : option string).
Abbreviation rw_step := (rewind_step sha1 sha256 fuel se g_utf8_validate providers time_str).

(** The commit that was made is stored as it was made. *)
Definition rw_ids_unique (pc : rewind_pc) (w : World) : Prop :=
  match pc with RwPhaseA _ new _ | RwPhaseB _ new _ _ _ => stored_commit (w_commits w) new | _ => True end.

(** The call takes a step, or other processes add commits and change the tables. *)
Inductive rewind_run (w0 : World) (s0 : S) : list (World * World) -> rewind_pc -> World -> S -> Prop :=
| rw_start : rewind_run w0 s0 [] (RwTry 0) w0 s0
| rw_own tr pc w s o pc' w' s' :
    rewind_run w0 s0 tr pc w s -> rw_step o rid target user pc w s = Some (pc', w', s') -> rw_ids_unique pc' w' ->
    rewind_run w0 s0 (tr ++ [(w, w')]) pc' w' s'
| rw_others tr pc w s w' :
    rewind_run w0 s0 tr pc w s -> w_commits w ⊆ w_commits w' -> rewind_run w0 s0 tr pc w' s.

Definition keeps (t : World * World) : Prop := head_of t.2 rid = head_of t.1 rid.

(** A commit with the tree of the target, on the head that was read. *)
Definition rewinding (w : World) (repo : SeafRepo) (new : SeafCommit) : Prop :=
  repo_of rid repo /\ stored_commit (w_commits w) new /\ parent_id new = Some (b_commit_id (r_head repo)) /\
  exists old, seaf_commit_manager_get_commit (w_commits w) target = Some old /\ root_id new = string_take 40 (root_id old).

(** Steps that are left, for the count of the trace. *)
Definition rw_used (pc : rewind_pc) : nat :=
  match pc with
  | RwTry n => 4 * n | RwPhaseA _ _ n => 4 * n + 1 | RwPhaseB _ _ n _ _ => 4 * n + 2 | RwSleep n => 4 * n - 1 | RwDone _ _ => 15
  end.

Definition rw_count (pc : rewind_pc) : Prop :=
  match pc with
  | RwTry n | RwPhaseA _ _ n | RwPhaseB _ _ n _ _ => (n <= REWIND_RETRIES)%nat
  | RwSleep n => (0 < n <= REWIND_RETRIES)%nat
  | RwDone _ _ => True
  end.

Record rewound (tr : list (World * World)) (id : string) (wa wb : World) (new : SeafCommit) : Prop := {
  rd_once : exists tr1 tr2, tr = tr1 ++ (wa, wb) :: tr2 /\ Forall keeps (tr1 ++ tr2);
  rd_on : exists h, head_of wa rid = Some h /\ parent_id new = Some (string_take 40 h);
  rd_head : head_of wb rid = Some id;
  rd_id : commit_id new = id;
  rd_stored : stored_commit (w_commits wb) new;
  rd_tree : exists old, seaf_commit_manager_get_commit (w_commits wb) target = Some old /\ root_id new = string_take 40 (root_id old)
}.

Definition rw_inv (tr : list (World * World)) (s0 : S) (pc : rewind_pc) (w : World) (s : S) : Prop :=
  (length tr <= rw_used pc)%nat /\ rw_count pc /\
  match pc with
  | RwTry _ | RwSleep _ => Forall keeps tr /\ s = s0
  | RwPhaseA repo new _ | RwPhaseB repo new _ _ _ => Forall keeps tr /\ s = s0 /\ rewinding w repo new
  | RwDone ret None =>
      ret = -1 /\ Forall keeps tr /\ s = cf_fileop_aborted providers (rewind_fop rid target user) s0
  | RwDone ret (Some id) =>
      ret = 0 /\ s = cf_fileop_committed providers (set_commit_id (rewind_fop rid target user) id) s0 /\
      exists wa wb new, rewound tr id wa wb new
  end.

Lemma rewinding_mono w w' repo new : w_commits w ⊆ w_commits w' -> rewinding w repo new -> rewinding w' repo new.
Proof.
  intros Hc (Hr & Hs & Hp & old & Ho & Ht). split_and!; [done|by eapply stored_commit_mono|done|].
  exists old. split; [by eapply get_commit_mono|done].
Qed.

Lemma rewind_keeps_snoc tr w w' : Forall keeps tr -> head_of w' rid = head_of w rid -> Forall keeps (tr ++ [(w, w')]).
Proof. intros H E. apply Forall_app. split; [done|]. by apply Forall_singleton. Qed.

Lemma rw_failed tr s0 w w' n :
  Forall keeps tr -> head_of w' rid = head_of w rid -> (length tr <= 4 * n + 2)%nat -> (n <= REWIND_RETRIES)%nat ->
  rw_inv (tr ++ [(w, w')]) s0 (RwDone (-1) None) w' (cf_fileop_aborted providers (rewind_fop rid target user) s0).
Proof.
  unfold REWIND_RETRIES. intros Hk Hh Hl Hn. split_and!; try done; [|by apply rewind_keeps_snoc].
  rewrite length_app. cbn. lia.
Qed.

Lemma rw_try_inv tr s0 n w o pc' w' s' :
  rw_inv tr s0 (RwTry n) w s0 -> rw_step o rid target user (RwTry n) w s0 = Some (pc', w', s') -> rw_ids_unique pc' w' ->
  rw_inv (tr ++ [(w, w')]) s0 pc' w' s'.
Proof.
  intros (Hl & Hc & Hk & _) E Hids. cbn [rewind_step rw_used rw_count] in *.
  destruct (seaf_repo_manager_get_repo _ _ rid) as [repo|] eqn:Er; [|injection E as <- <- <-; apply (rw_failed _ _ _ _ n); (done || lia)].
  destruct (seaf_commit_manager_get_commit _ target) as [c|] eqn:Ec; [|injection E as <- <- <-; apply (rw_failed _ _ _ _ n); (done || lia)].
  destruct (seaf_commit_manager_add_commit _ _ _) as [ret cs] eqn:Ea. pose proof (add_commit_grows _ _ _ _ _ Ea) as Hg.
  destruct (ret <? 0); injection E as <- <- <-; [apply (rw_failed _ _ _ _ n); (done || lia)|].
  split_and!; [rewrite length_app; cbn; lia|done|by apply rewind_keeps_snoc|done|].
  split_and!; [by eapply get_repo_of|done|done|]. exists c. split; [by eapply get_commit_mono|done].
Qed.

Lemma rw_phase_a_inv tr s0 repo new n w o pc' w' s' :
  rw_inv tr s0 (RwPhaseA repo new n) w s0 -> rw_step o rid target user (RwPhaseA repo new n) w s0 = Some (pc', w', s') ->
  rw_inv (tr ++ [(w, w')]) s0 pc' w' s'.
Proof.
  intros (Hl & Hc & Hk & _ & Hw) E. cbn [rewind_step rw_used rw_count] in *.
  destruct (phase_a _ _ _ _ _ _ _ _) as [[r w1]|] eqn:Ea; [|done]. destruct (phase_a_frame _ _ _ _ _ _ _ _ _ _ Ea) as [Hcs Hdb].
  assert (Hh : head_of w1 rid = head_of w rid) by (unfold head_of; by rewrite Hdb).
  destruct r as [[acl ch]|]; injection E as <- <- <-; [|apply (rw_failed _ _ _ _ n); (done || lia)].
  split_and!; [rewrite length_app; cbn; lia|done|by apply rewind_keeps_snoc|done|]. eapply rewinding_mono; [|done]. by rewrite Hcs.
Qed.

Lemma rw_phase_b_inv tr s0 repo new n acl ch w o pc' w' s' :
  rw_inv tr s0 (RwPhaseB repo new n acl ch) w s0 -> rw_step o rid target user (RwPhaseB repo new n acl ch) w s0 = Some (pc', w', s') ->
  rw_inv (tr ++ [(w, w')]) s0 pc' w' s'.
Proof.
  intros (Hl & Hc & Hk & _ & (Hn & Hr) & Hst & Hp & Ht) E. cbn [rewind_step rw_used rw_count] in *.
  destruct (phase_b _ _ _ _ _ _ _ _ _ _ _ _) as [[r gc] w1] eqn:Eb.
  apply phase_b_spec in Eb as [Hcs [[Hneg Hd]|(-> & _ & _ & (h & Hh & Hold) & _ & _ & Hb)]].
  - assert (Hh : head_of w1 rid = head_of w rid) by (unfold head_of; by rewrite Hd).
    destruct (Z.ltb_spec r 0); [|lia]. destruct (_ && _) eqn:Eret; injection E as <- <- <-.
    + apply andb_prop in Eret as [_ Hlt%Nat.ltb_lt].
      split_and!; [rewrite length_app; cbn; lia|cbn; lia|by apply rewind_keeps_snoc|done].
    + apply (rw_failed _ _ _ _ n); (done || lia).
  - injection E as <- <- <-. unfold REWIND_RETRIES in Hc. split_and!; [rewrite length_app; cbn; lia|done|done|done|].
    cbn [gnc_branch seaf_branch_set_commit b_name b_repo_id] in Hh, Hb. rewrite Hn, Hr in Hh, Hb.
    exists w, (emit (emit w1 (EvMergeVirtualRepo rid)) (EvUpdateRepoSize rid)), new. split.
    + exists tr, []. by rewrite app_nil_r.
    + exists h. split; [done|]. by rewrite Hp, Hold.
    + unfold head_of. cbn. rewrite Hb, lookup_insert_eq. f_equal. by eapply head_taken.
    + done.
    + cbn. by rewrite Hcs.
    + cbn. by rewrite Hcs.
Qed.

Lemma rewind_run_inv w0 s0 tr pc w s : rewind_run w0 s0 tr pc w s -> rw_inv tr s0 pc w s.
Proof.
  induction 1 as [|tr pc w s o pc' w' s' _ IH E Hids|tr pc w s w' _ IH Hc].
  - split_and!; cbn; (done || lia).
  - destruct pc as [n|repo new n|repo new n acl ch|n|ret c].
    + pose proof IH as (_ & _ & _ & ->). by eapply rw_try_inv.
    + pose proof IH as (_ & _ & _ & -> & _). by eapply rw_phase_a_inv.
    + pose proof IH as (_ & _ & _ & -> & _). by eapply rw_phase_b_inv.
    + destruct IH as (Hl & [H0 Hn] & Hk & ->). injection E as <- <- <-.
      split_and!; [rewrite length_app; cbn in *; lia|done|by apply rewind_keeps_snoc|done].
    + done.
  - destruct IH as (Hl & Hn & Hx). split_and!; [done|done|]. destruct pc as [n|repo new n|repo new n acl ch|n|ret c]; try done;
      destruct Hx as (Hk & -> & Hr); split_and!; try done; by eapply rewinding_mono.
Qed.

End rewind.

(** ** Witnesses *)

(** A library whose directory [sub] was deleted: the head is empty. *)
Definition rv_head : SeafCommit := tree_commit c_2 EMPTY_SHA1 (Some c_1).
Definition rv_world : World := mkWorld (toy_db c_2) {[c_1 := up_head; c_2 := rv_head]} op_store [] 0.
Definition rv_start : revert_started (S := list string) :=
  seaf_repo_manager_revert_dir toy_hash toy_session (fun _ => true) [counting] toy_rid c_1 "/sub" (Some "me") rv_world [].
Definition rv_op : OnlineOp :=
  match rv_start with RevertRunning op _ _ _ _ => op | _ => twice_op end.

Lemma rv_begun : begun rv_start rv_op.
Proof.
  assert (H : match rv_start with RevertRunning _ _ _ _ _ => true | _ => false end = true) by (vm_compute; reflexivity).
  unfold rv_op. destruct rv_start; (done || exact eq_refl).
Qed.

Lemma op_store_plain : plain op_store 1.
Proof.
  intros id dir e. unfold seaf_fs_manager_get_seafdir. destruct (String.eqb id EMPTY_SHA1); [intros [= <-] []%elem_of_nil|].
  destruct (op_store !! id) as [[d|f]|] eqn:E; [|done|done]. unfold op_store in E.
  intros [= <-]. cbn [entries]. rewrite !lookup_insert_Some, lookup_empty in E.
  destruct E as [[_ [= <-]]|[_ [[_ [= <-]]|[_ [=]]]]]; cbn [entries]; intros He;
    repeat (apply elem_of_cons in He as [->|He]; [vm_compute; reflexivity|]); by apply elem_of_nil in He.
Qed.

Lemma rv_at : at_dir toy_hash 1 op_store (root_id rv_head) "/" [].
Proof. split; [apply op_library|vm_compute; reflexivity]. Qed.

Lemma rv_names : names_dir "/" [].
Proof. by split. Qed.


(** The directory is there again, with its file. *)
Lemma rv_result :
  match op_tree rv_op (toy_repo rv_world) rv_head toy_oracle op_store with
  | (TreeNew root _ _, st) => is_Some (view_root 1 st root ["sub"; "f.txt"])
  | _ => False
  end.
Proof. vm_compute. by eexists. Qed.

Definition rw_ids_uniqueb (pc : rewind_pc) (w : World) : bool :=
  match pc with RwPhaseA _ new _ | RwPhaseB _ new _ _ _ => storedb w new | _ => true end.

Fixpoint rw_exec (n : nat) (tr : list (World * World)) (pc : rewind_pc) (w : World) (s : list string)
  : option (list (World * World) * rewind_pc * World * list string) :=
  match n with
  | O => Some (tr, pc, w, s)
  | S n =>
      match rewind_step toy_sha1 toy_sha256 5 toy_session (fun _ => true) [counting] (fun _ => "t") toy_oracle toy_rid c_1 (Some "me") pc w s with
      | Some (pc', w', s') => if rw_ids_uniqueb pc' w' then rw_exec n (tr ++ [(w, w')]) pc' w' s' else None
      | None => None
      end
  end.

Abbreviation demo_rewind := (rewind_run toy_sha1 toy_sha256 5 toy_session (fun _ => true) [counting] (fun _ => "t") toy_rid c_1 (Some "me")).

Lemma rw_exec_run n : forall tr pc w s tr' pc' w' s',
  demo_rewind rv_world [] tr pc w s -> rw_exec n tr pc w s = Some (tr', pc', w', s') -> demo_rewind rv_world [] tr' pc' w' s'.
Proof.
  induction n as [|n IH]; intros tr pc w s tr' pc' w' s' H E; cbn [rw_exec] in E; [by simplify_eq|].
  destruct (rewind_step _ _ _ _ _ _ _ _ _ _ _ _ _ _) as [[[pc1 w1] s1]|] eqn:Es; [|done].
  destruct (rw_ids_uniqueb pc1 w1) eqn:Eu; [|done]. eapply IH; [|done]. eapply rw_own; [done|done|].
  destruct pc1; cbn in *; try done; by apply bool_decide_eq_true in Eu.
Qed.

Definition rw_done (r : option (list (World * World) * rewind_pc * World * list string)) : bool :=
  match r with Some (_, RwDone 0 (Some _), _, _) => true | _ => false end.

Lemma rw_done_true : rw_done (rw_exec 3 [] (RwTry 0) rv_world []) = true.
Proof. vm_compute. reflexivity. Qed.


(** A file without extension whose name a directory has is restored under a name with the text
    of a null pointer in it. *)
Lemma no_extension_null :
  file_choice [toy_dirent 0x4000 EMPTY_SHA1 "notes"] (toy_dirent 0x8000 id_1 "notes") = Some (RevertNew "notes (1)(null)").
Proof. vm_compute. reflexivity. Qed.
