(* ===== verification/Multipart.v ===== *)
(** * Receiving uploads ([server/upload-file.c])

    The body of an upload arrives in pieces; a state machine cuts it into lines, reads the
    headers of each part of the form, keeps the values of fields and writes the contents of
    files to temporary files. *)

From S2P Require Import Prelude Paths.
From Stdlib Require Import Ascii.

(** Bytes; a C string ends before the first NUL. *)
Abbreviation bytes := (list ascii).
Definition lit (s : string) : bytes := String.list_ascii_of_string s.
Definition NUL : ascii := ascii_of_nat 0.
Definition CR : ascii := ascii_of_nat 13.
Definition LF : ascii := ascii_of_nat 10.
Definition CRLF : bytes := [CR; LF].

Fixpoint c_str (l : bytes) : bytes :=
  match l with
  | [] => []
  | c :: l => if Ascii.eqb c NUL then [] else c :: c_str l
  end.

(** ** The functions of the C library, GLib and libevent *)

Fixpoint starts_with (p l : bytes) : bool :=
  match p, l with
  | [], _ => true
  | a :: p, b :: l => Ascii.eqb a b && starts_with p l
  | _ :: _, [] => false
  end.

(** [evbuffer_search]; [strstr] of the C strings is [contains b (c_str l)]. *)
Fixpoint contains (b l : bytes) : bool :=
  starts_with b l || match l with [] => false | _ :: l => contains b l end.

Definition strstr (l b : bytes) : bool := contains b (c_str l).

Fixpoint strchr (c : ascii) (l : bytes) : option (bytes * bytes) :=
  match l with
  | [] => None
  | d :: l => if Ascii.eqb d c then Some ([], l)
              else match strchr c l with Some (a, b) => Some (d :: a, b) | None => None end
  end.

(** [strrchr]: what is before the last occurrence and what is after it. *)
Definition strrchr (c : ascii) (l : bytes) : option (bytes * bytes) :=
  match strchr c (reverse l) with Some (b, a) => Some (reverse a, reverse b) | None => None end.

(** [evbuffer_readln] with [EVBUFFER_EOL_CRLF_STRICT]: the first line, without its end, and
    what is left. *)
Fixpoint readln (buf : bytes) : option (bytes * bytes) :=
  match buf with
  | [] => None
  | c :: rest =>
      match rest with
      | d :: rest' =>
          if Ascii.eqb c CR && Ascii.eqb d LF then Some ([], rest')
          else match readln rest with Some (line, buf) => Some (c :: line, buf) | None => None end
      | [] => None
      end
  end.

Definition lower (c : ascii) : ascii :=
  let n := nat_of_ascii c in if ((65 <=? n) && (n <=? 90))%nat then ascii_of_nat (n + 32) else c.

Definition strcasecmp (a b : bytes) : bool := bool_decide (lower <$> a = lower <$> b).
(** [strncasecmp] with the length of [p]. *)
Definition has_prefix_case (l p : bytes) : bool := starts_with (lower <$> p) (lower <$> l).

(** The vertical tab is not one of GLib's spaces. *)
Definition g_ascii_isspace (c : ascii) : bool :=
  let n := nat_of_ascii c in ((n =? 32) || ((9 <=? n) && (n <=? 13) && negb (n =? 11)))%nat.

Fixpoint g_strchug (l : bytes) : bytes :=
  match l with c :: t => if g_ascii_isspace c then g_strchug t else l | [] => [] end.
Definition g_strstrip (l : bytes) : bytes := reverse (g_strchug (reverse (g_strchug l))).

(** The pieces between semicolons, at most [n] more after the first. *)
Fixpoint split_at (n : nat) (l : bytes) : list bytes :=
  match n with
  | O => [l]
  | S n => match strchr ";"%char l with Some (a, b) => a :: split_at n b | None => [l] end
  end.

(** [g_strsplit (l, ";", max)]; without a limit at most as many pieces as there are bytes. *)
Definition g_strsplit (l : bytes) (max : nat) : list bytes :=
  match l with
  | [] => []
  | _ => split_at (match max with O => length l | S n => n end) l
  end.

(** ** The state *)

Inductive recv_state := RECV_INIT | RECV_HEADERS | RECV_CONTENT | RECV_ERROR.

(** The temporary files are numbered as they are created; [disk] has their contents.
    [uploaded]: the progress, when it is asked for. *)
Record RecvFSM := mkFsm {
  state : recv_state;
  boundary : bytes;
  input_name : option bytes;
  line : bytes;
  form_kvs : gmap string string;
  filenames : list string;
  files : list nat;
  recved_crlf : bool;
  file_name : option string;
  tmp_file : option nat;
  uploaded : option Z;
  rstart : Z;
  disk : list bytes
}.

Definition set_state (f : RecvFSM) (s : recv_state) : RecvFSM :=
  mkFsm s (boundary f) (input_name f) (line f) (form_kvs f) (filenames f) (files f) (recved_crlf f) (file_name f)
    (tmp_file f) (uploaded f) (rstart f) (disk f).
Definition set_line (f : RecvFSM) (l : bytes) : RecvFSM :=
  mkFsm (state f) (boundary f) (input_name f) l (form_kvs f) (filenames f) (files f) (recved_crlf f) (file_name f)
    (tmp_file f) (uploaded f) (rstart f) (disk f).
Definition set_input (f : RecvFSM) (n : option bytes) (file : option string) : RecvFSM :=
  mkFsm (state f) (boundary f) n (line f) (form_kvs f) (filenames f) (files f) (recved_crlf f) file
    (tmp_file f) (uploaded f) (rstart f) (disk f).
Definition add_field (f : RecvFSM) (k v : string) : RecvFSM :=
  mkFsm (state f) (boundary f) (input_name f) (line f) (<[k := v]> (form_kvs f)) (filenames f) (files f) (recved_crlf f)
    (file_name f) (tmp_file f) (uploaded f) (rstart f) (disk f).
Definition set_crlf (f : RecvFSM) (b : bool) : RecvFSM :=
  mkFsm (state f) (boundary f) (input_name f) (line f) (form_kvs f) (filenames f) (files f) b (file_name f)
    (tmp_file f) (uploaded f) (rstart f) (disk f).
Definition set_uploaded (f : RecvFSM) (u : option Z) : RecvFSM :=
  mkFsm (state f) (boundary f) (input_name f) (line f) (form_kvs f) (filenames f) (files f) (recved_crlf f) (file_name f)
    (tmp_file f) u (rstart f) (disk f).

Inductive evhtp_res := EVHTP_RES_OK | EVHTP_RES_BADREQ | EVHTP_RES_SERVERR.

(** [get_basename]: what is after the last slash or backslash. *)
Fixpoint after_separator (path : string) : option string :=
  match path with
  | EmptyString => None
  | String c rest =>
      match after_separator rest with
      | Some base => Some base
      | None => if is_slash c || Ascii.eqb c backslash then Some rest else None
      end
  end.
Definition get_basename (path : string) : string := default path (after_separator path).

Section machine.
(** [normalize_utf8_path], [g_uri_unescape_string]. *)
Context (normalize_utf8_path : string -> option string) (g_uri_unescape_string : string -> option string).
(** The header [Content-Disposition] of the request itself. *)
Context (disposition : option bytes).
(** Whether the next creation of, write to and closing of a temporary file succeed. *)
Context (open_ok write_ok close_ok : RecvFSM -> bool).

(** ** Headers of a part *)

Definition quote : ascii := ascii_of_nat 34.

Definition get_mime_header_param_value (param : bytes) : option bytes :=
  match strchr quote param with
  | None => Some param
  | Some (_, rest) => match strrchr quote rest with Some (value, _) => Some value | None => None end
  end.

Definition parse_file_name_from_header : option string :=
  match disposition with
  | None => None
  | Some dispose =>
      match g_strstrip <$> g_strsplit dispose 2 with
      | [kind; param] =>
          if strcasecmp kind (lit "attachment") && has_prefix_case param (lit "filename") then
            match get_mime_header_param_value param with
            | Some name => g_uri_unescape_string (String.string_of_list_ascii name)
            | None => None
            end
          else None
      | _ => None
      end
  end.

(** The name of the file in the parameters of a header. *)
Definition header_file_name (f : RecvFSM) (params : list bytes) : option string :=
  match List.find (fun p => has_prefix_case p (lit "filename")) params with
  | None => file_name f
  | Some p =>
      match (if 0 <=? rstart f then parse_file_name_from_header
             else String.string_of_list_ascii <$> get_mime_header_param_value p) with
      | Some name => normalize_utf8_path name
      | None => file_name f
      end
  end.

(** [None]: the header is refused; what was set until then does not matter any more. *)
Definition parse_mime_header (header : bytes) (f : RecvFSM) : option RecvFSM :=
  match strchr ":"%char (c_str header) with
  | None => None
  | Some (name, value) =>
      if negb (strcasecmp name (lit "Content-Disposition")) then Some f
      else
        let params := g_strstrip <$> g_strsplit value 3 in
        match params with
        | kind :: _ :: _ =>
            if negb (strcasecmp kind (lit "form-data")) then None
            else
              let input := match List.find (fun p => has_prefix_case p (lit "name")) params with
                           | Some p => get_mime_header_param_value p
                           | None => input_name f
                           end in
              match input with
              | None => None
              | Some n =>
                  if bool_decide (n = lit "file") then
                    match header_file_name f params with
                    | None => None
                    | Some name => Some (set_input f input (Some name))
                    end
                  else Some (set_input f input (file_name f))
              end
        | _ => None
        end
  end.

(** ** Temporary files *)

(** [open_temp_file]; for a resumable upload the file is not listed. *)
Definition open_temp_file (f : RecvFSM) : option RecvFSM :=
  if open_ok f then
    let n := length (disk f) in
    Some (mkFsm (state f) (boundary f) (input_name f) (line f) (form_kvs f) (filenames f)
            (if rstart f <? 0 then n :: files f else files f) (recved_crlf f) (file_name f) (Some n) (uploaded f) (rstart f)
            (disk f ++ [[]]))
  else None.

Definition writen (f : RecvFSM) (data : bytes) : option RecvFSM :=
  if write_ok f then
    Some (mkFsm (state f) (boundary f) (input_name f) (line f) (form_kvs f) (filenames f) (files f) (recved_crlf f)
            (file_name f) (tmp_file f) (uploaded f) (rstart f)
            (match tmp_file f with Some n => alter (fun c => c ++ data) n (disk f) | None => disk f end))
  else None.

(** [add_uploaded_file]: [None] when the file cannot be closed. *)
Definition add_uploaded_file (f : RecvFSM) : option RecvFSM :=
  if (rstart f <? 0) && negb (close_ok f) then None
  else
    Some (mkFsm (state f) (boundary f) (input_name f) (line f) (form_kvs f)
            (get_basename (default EmptyString (file_name f)) :: filenames f) (files f) false None
            (if rstart f <? 0 then None else tmp_file f) (uploaded f) (rstart f) (disk f)).

(** The end of a part. *)
Definition part_ends (f : RecvFSM) : RecvFSM := set_state (set_input f None (file_name f)) RECV_HEADERS.

(** ** The contents of a part *)

(** The result, whether there is no line left, and the state. *)
Definition recv_form_field (f : RecvFSM) : evhtp_res * bool * RecvFSM :=
  match readln (line f) with
  | Some (l, rest) =>
      let f := set_line f rest in
      (EVHTP_RES_OK, false,
       if strstr l (boundary f) then part_ends f
       else match normalize_utf8_path (String.string_of_list_ascii (c_str l)) with
            | Some v => add_field f (String.string_of_list_ascii (default [] (input_name f))) v
            | None => f
            end)
  | None =>
      (EVHTP_RES_OK, true,
       if (length (boundary f) + 4 <=? length (line f))%nat && contains (boundary f) (line f)
       then part_ends (set_line f []) else f)
  end.

(** The data after the line end that was held back.  After a failure the upload is given up
    and its files are removed. *)
Definition write_data (f : RecvFSM) (data : bytes) : option RecvFSM :=
  f ← (if recved_crlf f then writen f CRLF else Some f); writen f data.

Definition file_ends (no_line : bool) (f : RecvFSM) : evhtp_res * bool * RecvFSM :=
  match add_uploaded_file f with
  | Some f => (EVHTP_RES_OK, no_line, part_ends f)
  | None => (EVHTP_RES_SERVERR, no_line, f)
  end.

Definition data_written (no_line crlf : bool) (data : bytes) (f : RecvFSM) : evhtp_res * bool * RecvFSM :=
  match write_data f data with
  | Some f => (EVHTP_RES_OK, no_line, set_crlf f crlf)
  | None => (EVHTP_RES_SERVERR, no_line, f)
  end.

Definition recv_file_data (f : RecvFSM) : evhtp_res * bool * RecvFSM :=
  match readln (line f) with
  | None =>
      if (length (boundary f) + 4 <=? length (line f))%nat then
        let buf := line f in
        let f := set_line f [] in
        if strstr buf (boundary f) then file_ends true f else data_written true false buf f
      else (EVHTP_RES_OK, true, f)
  | Some (l, rest) =>
      let f := set_line f rest in
      if strstr l (boundary f) then file_ends false f else data_written false true l f
  end.

(** ** The machine *)

(** One turn of the loop of [upload_read_cb]. *)
Definition read_turn (f : RecvFSM) : evhtp_res * bool * RecvFSM :=
  match state f with
  | RECV_INIT =>
      match readln (line f) with
      | Some (l, rest) =>
          if strstr l (boundary f) then (EVHTP_RES_OK, false, set_state (set_line f rest) RECV_HEADERS)
          else (EVHTP_RES_BADREQ, false, set_line f rest)
      | None => (EVHTP_RES_OK, true, f)
      end
  | RECV_HEADERS =>
      match readln (line f) with
      | Some ([], rest) =>
          let f := set_line f rest in
          match input_name f with
          | None => (EVHTP_RES_BADREQ, false, f)
          | Some n =>
              if bool_decide (n = lit "file") then
                match open_temp_file f with
                | None => (EVHTP_RES_SERVERR, false, f)
                | Some f => (EVHTP_RES_OK, false, set_state f RECV_CONTENT)
                end
              else (EVHTP_RES_OK, false, set_state f RECV_CONTENT)
          end
      | Some (l, rest) =>
          let f := set_line f rest in
          match parse_mime_header l f with
          | None => (EVHTP_RES_BADREQ, false, f)
          | Some f => (EVHTP_RES_OK, false, f)
          end
      | None => (EVHTP_RES_OK, true, f)
      end
  | RECV_CONTENT =>
      if bool_decide (input_name f = Some (lit "file")) then recv_file_data f else recv_form_field f
  | RECV_ERROR => (EVHTP_RES_OK, false, f)
  end.

(** The loop; [None]: out of fuel. *)
Fixpoint read_loop (fuel : nat) (f : RecvFSM) : option (evhtp_res * RecvFSM) :=
  match fuel with
  | O => None
  | S fuel =>
      match read_turn f with
      | (EVHTP_RES_OK, false, f) => read_loop fuel f
      | (EVHTP_RES_OK, true, f) => Some (EVHTP_RES_OK, f)
      | (res, _, f) => Some (res, set_state f RECV_ERROR)
      end
  end.

(** The reply that is sent, if any, and the state.  A turn that is not the last one takes at
    least a line end from the buffer. *)
Definition upload_read_cb (buf : bytes) (f : RecvFSM) : option (evhtp_res * RecvFSM) :=
  match state f with
  | RECV_ERROR => Some (EVHTP_RES_OK, f)
  | _ =>
      let f := set_uploaded f ((fun u => s64 (u + Z.of_nat (length buf))) <$> uploaded f) in
      let f := set_line f (line f ++ buf) in
      read_loop (S (length (line f))) f
  end.

(** The pieces of a body, one after the other: the first error that is reported. *)
Fixpoint upload_body (pieces : list bytes) (f : RecvFSM) : option (evhtp_res * RecvFSM) :=
  match pieces with
  | [] => Some (EVHTP_RES_OK, f)
  | buf :: pieces =>
      match upload_read_cb buf f with
      | Some (EVHTP_RES_OK, f) => upload_body pieces f
      | r => r
      end
  end.
End machine.

(** ** The headers of the request *)

(** [get_http_header_param_value]: what is after the first equals sign. *)
Definition get_http_header_param_value (param : bytes) : option bytes :=
  match strchr "="%char param with Some (_, value) => Some value | None => None end.

(** [get_boundary], from the header [Content-Type]. *)
Definition get_boundary (content_type : option bytes) : option bytes :=
  match content_type with
  | None => None
  | Some content_type =>
      match g_strstrip <$> g_strsplit content_type 0 with
      | (kind :: _ :: _) as params =>
          if negb (strcasecmp kind (lit "multipart/form-data")) then None
          else match List.find (fun p => has_prefix_case p (lit "boundary")) params with
               | Some p => get_http_header_param_value p
               | None => None
               end
      | _ => None
      end
  end.

Definition isspace (c : ascii) : bool := let n := nat_of_ascii c in ((n =? 32) || ((9 <=? n) && (n <=? 13)))%nat.
Definition digit (c : ascii) : option Z :=
  let n := nat_of_ascii c in if ((48 <=? n) && (n <=? 57))%nat then Some (Z.of_nat n - 48) else None.

Fixpoint drop_while (f : ascii -> bool) (l : bytes) : bytes :=
  match l with c :: t => if f c then drop_while f t else l | [] => [] end.

(** The digits at the front: their value, how many there are, and the rest. *)
Fixpoint digits (acc : Z) (n : nat) (l : bytes) : Z * nat * bytes :=
  match l with
  | c :: t => match digit c with Some d => digits (acc * 10 + d) (S n) t | None => (acc, n, l) end
  | [] => (acc, n, [])
  end.

(** [strtoll] with base 10: the value, saturated, and where it ends. *)
Definition strtoll (l : bytes) : Z * bytes :=
  let body := drop_while isspace l in
  let '(sign, body) := match body with
                       | c :: t => if Ascii.eqb c "-"%char then (-1, t) else if Ascii.eqb c "+"%char then (1, t) else (1, body)
                       | [] => (1, [])
                       end in
  match digits 0 0 body with
  | (_, O, _) => (0, l)
  | (v, _, rest) => (Z.max (- 2 ^ 63) (Z.min (2 ^ 63 - 1) (sign * v)), rest)
  end.

(** A number that is there and is followed by [stop]. *)
Definition range_number (l : bytes) (stop : option ascii) : option (Z * bytes) :=
  let '(v, next) := strtoll l in
  if (v =? 0) && (length next =? length l)%nat then None
  else match next, stop with
       | c :: rest, Some s => if Ascii.eqb c s then Some (v, rest) else None
       | [], None => Some (v, [])
       | _, _ => None
       end.

(** [parse_range_val], from the header [Content-Range]: the first and the last byte and the
    size of the file; [None]: the header is refused; without one they are all [-1]. *)
Definition parse_range_val (content_range : option bytes) : option (Z * Z * Z) :=
  match content_range with
  | None => Some (-1, -1, -1)
  | Some tmp =>
      if negb (starts_with (lit "bytes") tmp) then None
      else
        '(start, tmp) ← range_number (drop_while (fun c => Ascii.eqb c " "%char) (drop 5 tmp)) (Some "-"%char);
        '(last, tmp) ← range_number tmp (Some "/"%char);
        '(fsize, _) ← range_number tmp None;
        if (last <? start) || (fsize <=? last) then None else Some (start, last, fsize)
  end.
