(* ===== verification/MultipartProof.v ===== *)
(** * Uploads are received as they were sent

    A form is encoded as RFC 7578 says; whatever the pieces are in which it arrives, as long
    as no piece ends between a CR and its LF or before the last line end, the machine ends
    with the fields and files of the form.  Where the pieces are cut otherwise it does not. *)

From S2P Require Import Prelude Paths Multipart.
From Stdlib Require Import Ascii Btauto.

(** ** Searching in bytes *)

Lemma starts_with_spec p l : starts_with p l = true <-> exists y, l = p ++ y.
Proof.
  revert l. induction p as [|a p IH]; intros l; cbn [starts_with].
  - split; [by exists l|done].
  - destruct l as [|c l]; [by split; [|intros [y [=]]]|]. rewrite andb_true_iff, Ascii.eqb_eq, IH. split.
    + intros [-> [y ->]]. by exists y.
    + intros [y [= -> ->]]. eauto.
Qed.

Lemma contains_spec b l : contains b l = true <-> exists x y, l = x ++ b ++ y.
Proof.
  induction l as [|c l IH]; cbn [contains]; rewrite orb_true_iff, starts_with_spec.
  - split; [intros [[y Hy]|]; [by exists [], y|done]|]. intros (x & y & E). left. exists y. by destruct x.
  - rewrite IH. split.
    + intros [[y Hy]|(x & y & ->)]; [by exists [], y|by exists (c :: x), y].
    + intros ([|d x] & y & E); [left; by exists y|right]. exists x, y. by injection E.
Qed.

Lemma contains_infix b x l y : contains b (x ++ l ++ y) = false -> contains b l = false.
Proof.
  intros H. apply not_true_iff_false. intros (x' & y' & ->)%contains_spec. apply not_true_iff_false in H. apply H.
  apply contains_spec. exists (x ++ x'), (y' ++ y). by rewrite <- !app_assoc.
Qed.

Lemma contains_prefix b l y : contains b (l ++ y) = false -> contains b l = false.
Proof. apply (contains_infix b []). Qed.

Lemma contains_suffix b x l : contains b (x ++ l) = false -> contains b l = false.
Proof. intros H. apply (contains_infix b x l []). by rewrite app_nil_r. Qed.

Definition no_nul (l : bytes) : bool := forallb (fun c => negb (Ascii.eqb c NUL)) l.
Definition no_cr (l : bytes) : bool := forallb (fun c => negb (Ascii.eqb c CR)) l.

Lemma c_str_app a l : no_nul a = true -> c_str (a ++ l) = a ++ c_str l.
Proof.
  induction a as [|c a IH]; [done|]. cbn. intros [Hc%negb_true_iff Ha]%andb_true_iff. by rewrite Hc, IH.
Qed.

Lemma c_str_id a : no_nul a = true -> c_str a = a.
Proof. intros H. rewrite <- (app_nil_r a) at 1. by rewrite c_str_app, app_nil_r. Qed.

Lemma c_str_prefix l : exists y, l = c_str l ++ y.
Proof.
  induction l as [|c l [y IH]]; [by exists []|]. cbn [c_str]. destruct (Ascii.eqb c NUL); [by exists (c :: l)|].
  exists y. cbn [app]. by rewrite <- IH.
Qed.

Lemma strstr_false b l : contains b l = false -> strstr l b = false.
Proof. unfold strstr. destruct (c_str_prefix l) as [y Hy]. rewrite Hy at 1. apply contains_prefix. Qed.

Lemma strstr_delim b l : no_nul b = true -> strstr (lit "--" ++ b ++ l) b = true.
Proof.
  intros Hb. unfold strstr. rewrite c_str_app by done. rewrite c_str_app by done.
  apply contains_spec. by eexists _, _.
Qed.

Lemma strchr_first c a l : forallb (fun d => negb (Ascii.eqb d c)) a = true -> strchr c (a ++ c :: l) = Some (a, l).
Proof.
  induction a as [|d a IH]; cbn; [by rewrite Ascii.eqb_refl|]. intros [Hd%negb_true_iff Ha]%andb_true_iff. by rewrite Hd, IH.
Qed.

Lemma strchr_none c a : forallb (fun d => negb (Ascii.eqb d c)) a = true -> strchr c a = None.
Proof. induction a as [|d a IH]; [done|]. cbn. intros [Hd%negb_true_iff Ha]%andb_true_iff. by rewrite Hd, IH. Qed.

Lemma strrchr_last c a : strrchr c (a ++ [c]) = Some (a, []).
Proof. unfold strrchr. rewrite reverse_app. cbn. by rewrite Ascii.eqb_refl, reverse_involutive. Qed.

Lemma forallb_impl' {A} (f g : A -> bool) l : (forall x, f x = true -> g x = true) -> forallb f l = true -> forallb g l = true.
Proof. intros H. rewrite !forallb_forall. eauto. Qed.

(** ** Lines *)

Lemma readln_app l a rest r : readln l = Some (a, rest) -> readln (l ++ r) = Some (a, rest ++ r).
Proof.
  revert a. induction l as [|c l IH]; intros a; [done|]. cbn [readln app]. destruct l as [|d l]; [done|]. cbn [app].
  destruct (_ && _); [by intros [= <- <-]|]. change (d :: l ++ r) with ((d :: l) ++ r).
  destruct (readln (d :: l)) as [[a' rest']|] eqn:E; [|done]. intros [= <- <-]. by rewrite (IH _ eq_refl).
Qed.

Lemma readln_crlf c D : readln c = None -> readln (c ++ CRLF ++ D) = Some (c, D).
Proof.
  induction c as [|x c IH]; [done|]. cbn [readln app]. destruct c as [|y c].
  - intros _. cbn. by rewrite andb_false_r.
  - cbn [app]. destruct (_ && _); [done|]. change (y :: c ++ CRLF ++ D) with ((y :: c) ++ CRLF ++ D).
    destruct (readln (y :: c)) as [[]|] eqn:E; [done|]. intros _. by rewrite (IH eq_refl).
Qed.

Lemma readln_spec l a rest : readln l = Some (a, rest) -> l = a ++ CRLF ++ rest.
Proof.
  revert a. induction l as [|c l IH]; intros a; [done|]. cbn [readln]. destruct l as [|d l]; [done|].
  destruct (_ && _) eqn:Ec.
  - intros [= <- <-]. apply andb_true_iff in Ec as [->%Ascii.eqb_eq ->%Ascii.eqb_eq]. done.
  - destruct (readln (d :: l)) as [[a' rest']|]; [|done]. intros [= <- <-]. cbn. by rewrite (IH _ eq_refl).
Qed.

Lemma readln_no_cr l : no_cr l = true -> readln l = None.
Proof.
  induction l as [|c l IH]; [done|]. cbn [no_cr forallb]. intros [Hc%negb_true_iff Hl]%andb_true_iff. cbn [readln].
  destruct l as [|d l]; [done|]. rewrite Hc. cbn [andb]. by rewrite IH.
Qed.

(** A line of a stream is the next line of what is left of it. *)
Lemma readln_stream l r a rest c D :
  readln l = Some (a, rest) -> l ++ r = c ++ CRLF ++ D ->
  (a = c /\ rest ++ r = D) \/ (exists c', c = a ++ CRLF ++ c' /\ rest ++ r = c' ++ CRLF ++ D).
Proof.
  intros E Hs. apply (readln_app _ _ _ r) in E. rewrite Hs in E. destruct (readln c) as [[a' c']|] eqn:Ec.
  - apply (readln_app _ _ _ (CRLF ++ D)) in Ec as E'. rewrite E in E'. injection E' as -> ->. right. exists c'.
    split; [by apply readln_spec|done].
  - rewrite readln_crlf in E by done. injection E as -> ->. by left.
Qed.

(** A cut that separates no CR from its LF and does not leave the last line end alone. *)
Definition good_cut (l r : bytes) : Prop := (forall a b, l = a ++ [CR] -> r = LF :: b -> False) /\ r <> CRLF.

Lemma good_cut_suffix l l' r : good_cut l r -> l' `suffix_of` l -> good_cut l' r.
Proof. intros [H1 H2] [k ->]. split; [|done]. intros a b -> ->. by apply (H1 (k ++ a) b); [rewrite app_assoc|]. Qed.

Lemma readln_wait l r c D :
  readln l = None -> l ++ r = c ++ CRLF ++ D -> good_cut l r -> exists k, c = l ++ k /\ r = k ++ CRLF ++ D.
Proof.
  intros E Hs [Hg _]. apply app_eq_app in Hs as [k [[-> Hk]|[-> ->]]]; [|by exists k].
  destruct k as [|x k]; [exists []; by rewrite !app_nil_r|]. injection Hk as <- Hk. exfalso.
  destruct k as [|y k]; [by apply (Hg c D eq_refl)|]. injection Hk as <- Hk.
  change (CR :: LF :: k) with (CRLF ++ k) in E. destruct (readln c) as [[a c']|] eqn:Ec.
  - by rewrite (readln_app _ _ _ _ Ec) in E.
  - by rewrite readln_crlf in E.
Qed.

(** ** Forms *)

(** A part: a field or a file, with the other headers it has. *)
Inductive part :=
| Field (name : bytes) (headers : list bytes) (value : bytes)
| File (name : bytes) (headers : list bytes) (content : bytes).

Definition q : bytes := [quote].

Definition part_disposition (p : part) : bytes :=
  lit "Content-Disposition: form-data; name=" ++ q ++
  match p with
  | Field n _ _ => n ++ q
  | File n _ _ => lit "file" ++ q ++ lit "; filename=" ++ q ++ n ++ q
  end.
Definition part_headers (p : part) : list bytes := match p with Field _ hs _ | File _ hs _ => hs end.
Definition part_body (p : part) : bytes := match p with Field _ _ v => v | File _ _ c => c end.

Definition lines (l : list bytes) : bytes := concat ((fun h => h ++ CRLF) <$> l).

(** The end of a form is followed by [tail]. *)
Fixpoint encode (b tail : bytes) (parts : list part) : bytes :=
  lit "--" ++ b ++
  match parts with
  | [] => lit "--" ++ tail
  | p :: parts => CRLF ++ lines (part_disposition p :: part_headers p) ++ CRLF ++ part_body p ++ CRLF ++ encode b tail parts
  end.

(** A header that is not the disposition. *)
Definition other_header (h : bytes) : bool :=
  no_cr h && match strchr ":"%char (c_str h) with
             | Some (n, _) => negb (strcasecmp n (lit "Content-Disposition"))
             | None => false
             end.

Definition plain_name (n : bytes) : bool := no_nul n && no_cr n.

Section forms.
Context (normalize_utf8_path : string -> option string) (g_uri_unescape_string : string -> option string).
Context (disposition : option bytes).
Context (open_ok write_ok close_ok : RecvFSM -> bool).
Context (Hopen : forall f, open_ok f = true) (Hwrite : forall f, write_ok f = true) (Hclose : forall f, close_ok f = true).
Context (b tail : bytes) (Hb : plain_name b = true) (Htail : tail = [] \/ tail = CRLF).

Abbreviation str := String.string_of_list_ascii.
Abbreviation turn := (read_turn normalize_utf8_path g_uri_unescape_string disposition open_ok write_ok close_ok).

(** What a part must be: names and headers are lines, a value is one line, and neither a
    value nor a content has the boundary in it. *)
Definition part_ok (p : part) : bool :=
  forallb other_header (part_headers p) && negb (contains b (part_body p)) &&
  match p with
  | Field n _ v => plain_name n && forallb (fun c => negb (Ascii.eqb c quote) && negb (Ascii.eqb c ";"%char)) n
                   && negb (bool_decide (n = lit "file")) && match readln v with None => true | Some _ => false end
  | File n _ _ => plain_name n && match normalize_utf8_path (str n) with Some _ => true | None => false end
  end.

Definition add_kv (kvs : gmap string string) (p : part) : gmap string string :=
  match p with
  | Field n _ v => match normalize_utf8_path (str (c_str v)) with Some x => <[str n := x]> kvs | None => kvs end
  | File _ _ _ => kvs
  end.
Definition form_fields : list part -> gmap string string := foldl add_kv ∅.
Definition part_file_name (p : part) : option string :=
  match p with File n _ _ => normalize_utf8_path (str n) | Field _ _ _ => None end.
Definition form_names (ps : list part) : list string := omap (fun p => get_basename <$> part_file_name p) ps.
Definition form_contents (ps : list part) : list bytes :=
  omap (fun p => match p with File _ _ c => Some c | Field _ _ _ => None end) ps.

Definition part_input (p : part) : bytes := match p with Field n _ _ => n | File _ _ _ => lit "file" end.

(** ** The headers *)

Lemma plain_app a l : plain_name (a ++ l) = plain_name a && plain_name l.
Proof. unfold plain_name, no_nul, no_cr. rewrite !forallb_app. destruct (forallb _ a), (forallb _ l), (forallb _ a); cbn; btauto. Qed.

Lemma disposition_plain p : part_ok p = true -> plain_name (part_disposition p) = true.
Proof.
  unfold part_ok, part_disposition. rewrite !andb_true_iff. intros [_ H]. rewrite !plain_app. destruct p as [n ? ?|n ? ?].
  - rewrite !andb_true_iff in H. destruct H as [[[H _] _] _]. rewrite plain_app, H. vm_compute. reflexivity.
  - rewrite !andb_true_iff in H. destruct H as [H _]. rewrite !plain_app, H. vm_compute. reflexivity.
Qed.

Lemma param_value p n : forallb (fun c => negb (Ascii.eqb c quote)) p = true ->
  get_mime_header_param_value (p ++ q ++ n ++ q) = Some n.
Proof.
  intros Hp. unfold get_mime_header_param_value. change (q ++ n ++ q) with (quote :: n ++ q).
  by rewrite strchr_first, strrchr_last.
Qed.

Lemma strip_param p n : match p with c :: _ => g_ascii_isspace c | [] => true end = false ->
  g_strstrip (" "%char :: p ++ q ++ n ++ q) = p ++ q ++ n ++ q.
Proof.
  intros Hp. unfold g_strstrip.
  assert (g_strchug (" "%char :: p ++ q ++ n ++ q) = p ++ q ++ n ++ q) as ->.
  { destruct p as [|c p]; [done|]. cbn [g_strchug app]. change (g_ascii_isspace " ") with true. cbn. by rewrite Hp. }
  assert (reverse (p ++ q ++ n ++ q) = quote :: reverse (p ++ q ++ n)) as ->.
  { unfold q. rewrite !app_assoc, reverse_app. done. }
  cbn [g_strchug]. change (g_ascii_isspace quote) with false. cbn [reverse]. cbn iota.
  change (quote :: reverse (p ++ q ++ n)) with ([quote] ++ reverse (p ++ q ++ n)).
  rewrite reverse_app, reverse_involutive, <- !app_assoc. done.
Qed.

Abbreviation parses := (parse_mime_header normalize_utf8_path g_uri_unescape_string disposition).

Lemma disposition_params p : part_ok p = true ->
  strchr ":"%char (part_disposition p) = Some (lit "Content-Disposition", drop 20 (part_disposition p)) /\
  g_strstrip <$> g_strsplit (drop 20 (part_disposition p)) 3 =
  lit "form-data" :: (lit "name=" ++ q ++ part_input p ++ q) ::
  match p with Field _ _ _ => [] | File n _ _ => [lit "filename=" ++ q ++ n ++ q] end.
Proof.
  intros Hp. split; [reflexivity|]. unfold part_ok in Hp. rewrite !andb_true_iff in Hp. destruct Hp as [_ Hp].
  assert (Hs : forall m r, g_strsplit (lit " form-data;" ++ m ++ r) 3 = lit " form-data" :: split_at 1 (m ++ r)) by done.
  destruct p as [n hs v|n hs c]; cbn [part_input].
  - rewrite !andb_true_iff in Hp. destruct Hp as [[[_ Hn] _] _].
    change (drop 20 _) with (lit " form-data;" ++ lit " name=" ++ q ++ n ++ q). rewrite Hs. cbn [split_at].
    rewrite strchr_none.
    + cbn [fmap list_fmap]. f_equal. f_equal. apply (strip_param (lit "name=")). done.
    + rewrite !forallb_app. cbn [forallb q]. change (forallb _ (lit " name=")) with true.
      change (negb (quote =? ";")%char) with true. cbn [andb]. rewrite andb_true_r.
      eapply forallb_impl'; [|exact Hn]. by intros x [_ ?]%andb_true_iff.
  - change (drop 20 _) with (lit " form-data;" ++ lit " name=" ++ q ++ lit "file" ++ q ++ lit "; filename=" ++ q ++ n ++ q).
    rewrite Hs. cbn [split_at].
    change (lit " name=" ++ q ++ lit "file" ++ q ++ lit "; filename=" ++ q ++ n ++ q)
      with ((lit " name=" ++ q ++ lit "file" ++ q) ++ ";"%char :: (" "%char :: lit "filename=" ++ q ++ n ++ q)).
    rewrite strchr_first by done. cbn [fmap list_fmap]. f_equal. f_equal. f_equal. by apply (strip_param (lit "filename=")).
Qed.

Lemma parse_disposition p f : part_ok p = true -> rstart f < 0 -> file_name f = None ->
  parses (part_disposition p) f = Some (set_input f (Some (part_input p)) (part_file_name p)).
Proof.
  intros Hp Hr Hf. unfold parse_mime_header.
  pose proof (disposition_plain p Hp) as Hd. unfold plain_name in Hd. apply andb_true_iff in Hd as [Hd _].
  destruct (disposition_params p Hp) as [H1 H2]. rewrite c_str_id, H1, H2 by done.
  change (negb (strcasecmp (lit "Content-Disposition") (lit "Content-Disposition"))) with false. cbn iota.
  change (negb (strcasecmp (lit "form-data") (lit "form-data"))) with false. cbn iota.
  assert (Hfind : forall l, List.find (fun x => has_prefix_case x (lit "name")) (lit "form-data" :: (lit "name=" ++ q ++ part_input p ++ q) :: l)
    = Some (lit "name=" ++ q ++ part_input p ++ q)) by reflexivity.
  rewrite Hfind, param_value by done. unfold part_ok in Hp. rewrite !andb_true_iff in Hp. destruct Hp as [_ Hp].
  destruct p as [n hs v|n hs c]; cbn [part_input part_file_name].
  - rewrite !andb_true_iff in Hp. destruct Hp as [[_ Hn] _]. apply negb_true_iff in Hn. by rewrite Hn, Hf.
  - rewrite bool_decide_eq_true_2 by done. apply andb_true_iff in Hp as [_ Hn].
    unfold header_file_name. change (List.find _ _) with (Some (lit "filename=" ++ q ++ n ++ q)).
    destruct (Z.leb_spec 0 (rstart f)); [lia|]. rewrite param_value by done. cbn [fmap option_fmap option_map].
    by destruct (normalize_utf8_path (str n)).
Qed.

Lemma parse_other h f : other_header h = true -> parses h f = Some f.
Proof.
  unfold other_header, parse_mime_header. intros [_ H]%andb_true_iff. destruct (strchr _ _) as [[]|]; [|done]. by rewrite H.
Qed.

(** ** The phases of the reception *)

Context (rs : Z) (Hrs : rs < 0) (all : list part) (Hall : forallb part_ok all = true).

(** The state when the parts [ds] are received, and [extra] of a file. *)
Definition mk (ds : list part) (st : recv_state) (inp : option bytes) (fn : option string) (crlf : bool) (extra : list bytes)
    (up : option Z) (l : bytes) : RecvFSM :=
  mkFsm st b inp l (form_fields ds) (reverse (form_names ds)) (reverse (seq 0 (length (form_contents ds) + length extra))) crlf fn
    (match extra with [] => None | _ => Some (length (form_contents ds)) end) up rs (form_contents ds ++ extra).

Lemma fields_snoc ds p : form_fields (ds ++ [p]) = add_kv (form_fields ds) p.
Proof. apply foldl_snoc. Qed.
Lemma names_snoc ds p :
  form_names (ds ++ [p]) = form_names ds ++ match part_file_name p with Some n => [get_basename n] | None => [] end.
Proof. unfold form_names. rewrite omap_app. f_equal. cbn. by destruct (part_file_name p). Qed.
Lemma contents_snoc ds p :
  form_contents (ds ++ [p]) = form_contents ds ++ match p with File _ _ c => [c] | Field _ _ _ => [] end.
Proof. unfold form_contents. rewrite omap_app. f_equal. by destruct p. Qed.

Definition after_headers (p : part) (ps : list part) : bytes := CRLF ++ part_body p ++ CRLF ++ encode b tail ps.

(** Where the machine is in the stream of its buffer and what is to come. *)
Inductive at_phase (r : bytes) : RecvFSM -> Prop :=
| AtInit up l : all <> [] -> l ++ r = encode b tail all -> at_phase r (mk [] RECV_INIT None None false [] up l)
| AtStart ds p ps up l : ds ++ p :: ps = all ->
    l ++ r = lines (part_disposition p :: part_headers p) ++ after_headers p ps ->
    at_phase r (mk ds RECV_HEADERS None None false [] up l)
| AtHeaders ds p ps hs up l : ds ++ p :: ps = all -> forallb other_header hs = true ->
    l ++ r = lines hs ++ after_headers p ps ->
    at_phase r (mk ds RECV_HEADERS (Some (part_input p)) (part_file_name p) false [] up l)
| AtField ds n hs v ps up l : ds ++ Field n hs v :: ps = all ->
    l ++ r = v ++ CRLF ++ encode b tail ps ->
    at_phase r (mk ds RECV_CONTENT (Some n) None false [] up l)
| AtFieldEnd ds n hs v ps up l : ds ++ Field n hs v :: ps = all ->
    l ++ r = encode b tail ps ->
    at_phase r (mk (ds ++ [Field n hs v]) RECV_CONTENT (Some n) None false [] up l)
| AtFile ds n hs (w c : bytes) (crlf : bool) ps up l :
    ds ++ File n hs (w ++ (if crlf then CRLF else []) ++ c) :: ps = all ->
    l ++ r = c ++ CRLF ++ encode b tail ps ->
    at_phase r (mk ds RECV_CONTENT (Some (lit "file")) (normalize_utf8_path (str n)) crlf [w] up l)
| AtFileEnd ds n hs c ps up l : ds ++ File n hs c :: ps = all ->
    l ++ r = encode b tail ps ->
    at_phase r (mk ds RECV_CONTENT (Some (lit "file")) (normalize_utf8_path (str n)) true [c] up l)
| AtEnd up l : l ++ r = [] -> at_phase r (mk all RECV_HEADERS None None false [] up l).

(** ** The delimiter of parts *)

Lemma b_no_cr : no_cr b = true.
Proof. unfold plain_name in Hb. by apply andb_true_iff in Hb as [_ ->]. Qed.
Lemma b_no_nul : no_nul b = true.
Proof. unfold plain_name in Hb. by apply andb_true_iff in Hb as [-> _]. Qed.

Lemma delim_line s : no_cr s = true -> readln (lit "--" ++ b ++ s) = None.
Proof. intros H. apply readln_no_cr. unfold no_cr in *. rewrite !forallb_app, H. pose proof b_no_cr as H1. unfold no_cr in H1. by rewrite H1. Qed.

(** The phase after the delimiter that ends the parts [ds]. *)
Lemma phase_next ds ps r l up :
  ds ++ ps = all ->
  match ps with
  | [] => l ++ r = []
  | p :: ps => l ++ r = lines (part_disposition p :: part_headers p) ++ after_headers p ps
  end -> at_phase r (mk ds RECV_HEADERS None None false [] up l).
Proof.
  intros Ha Hs. destruct ps as [|p ps].
  - rewrite app_nil_r in Ha. subst ds. by apply AtEnd.
  - by eapply AtStart.
Qed.

Lemma encode_line ds ps l r a rest :
  ds ++ ps = all -> l ++ r = encode b tail ps -> readln l = Some (a, rest) ->
  strstr a b = true /\ forall up, at_phase r (mk ds RECV_HEADERS None None false [] up rest).
Proof.
  intros Ha Hs E. destruct ps as [|p ps].
  - assert (Ht : tail = CRLF).
    { destruct Htail as [Ht|]; [|done]. exfalso. apply (readln_app _ _ _ r) in E. rewrite Hs in E. cbn [encode] in E.
      rewrite Ht, app_nil_r, delim_line in E; done. }
    assert (Hs' : l ++ r = (lit "--" ++ b ++ lit "--") ++ CRLF ++ []) by (rewrite Hs; cbn [encode]; by rewrite Ht, <- !app_assoc).
    destruct (readln_stream _ _ _ _ _ _ E Hs') as [[-> Hr]|(c' & Hc & _)].
    + split; [by apply strstr_delim, b_no_nul|]. intros up. by apply (phase_next ds []).
    + exfalso. pose proof (delim_line (lit "--") eq_refl) as Hn. rewrite Hc in Hn. destruct (readln a) as [[]|] eqn:Ea.
      * by rewrite (readln_app _ _ _ _ Ea) in Hn.
      * by rewrite readln_crlf in Hn.
  - assert (Hs' : l ++ r = (lit "--" ++ b) ++ CRLF ++ lines (part_disposition p :: part_headers p) ++ after_headers p ps)
      by (rewrite Hs; cbn [encode]; unfold after_headers; by rewrite <- !app_assoc).
    destruct (readln_stream _ _ _ _ _ _ E Hs') as [[-> Hr]|(c' & Hc & _)].
    + split; [rewrite <- (app_nil_r b) at 1; by apply strstr_delim, b_no_nul|]. intros up. by apply (phase_next ds (p :: ps)).
    + exfalso. pose proof (delim_line [] eq_refl) as Hn. rewrite app_nil_r, Hc in Hn. destruct (readln a) as [[]|] eqn:Ea.
      * by rewrite (readln_app _ _ _ _ Ea) in Hn.
      * by rewrite readln_crlf in Hn.
Qed.

Lemma encode_wait ps l r :
  l ++ r = encode b tail ps -> readln l = None -> good_cut l r ->
  (length l < length b + 4)%nat \/ (ps = [] /\ l = lit "--" ++ b ++ lit "--" /\ r = []).
Proof.
  intros Hs E Hg. destruct ps as [|p ps].
  - cbn [encode] in Hs. destruct Htail as [Ht|Ht]; rewrite Ht in Hs.
    + rewrite app_nil_r in Hs. destruct (decide (r = [])) as [->|Hr]; [right; by rewrite app_nil_r in Hs|left].
      apply (f_equal length) in Hs. rewrite !length_app in Hs. cbn in Hs. destruct r; [done|]. cbn in Hs. lia.
    + left. assert (Hs' : l ++ r = (lit "--" ++ b ++ lit "--") ++ CRLF ++ []) by (by rewrite Hs, <- !app_assoc).
      destruct (readln_wait _ _ _ _ E Hs' Hg) as (k & Hk & ->). destruct k as [|x k]; [by destruct Hg as [_ []]|].
      apply (f_equal length) in Hk. rewrite !length_app in Hk. cbn in Hk. lia.
  - left. assert (Hs' : l ++ r = (lit "--" ++ b) ++ CRLF ++ lines (part_disposition p :: part_headers p) ++ after_headers p ps)
      by (rewrite Hs; cbn [encode]; unfold after_headers; by rewrite <- !app_assoc).
    destruct (readln_wait _ _ _ _ E Hs' Hg) as (k & Hk & _). apply (f_equal length) in Hk. rewrite !length_app in Hk. cbn in Hk. lia.
Qed.

(** What is left is long enough for the delimiter. *)
Lemma encode_short ps l : l ++ [] = encode b tail ps -> (length l < length b + 4)%nat -> readln l = None -> False.
Proof.
  intros Hs Hl E. rewrite app_nil_r in Hs. subst l. destruct ps as [|p ps]; cbn [encode] in *.
  - rewrite !length_app in Hl. cbn in Hl. lia.
  - assert (readln ((lit "--" ++ b) ++ CRLF ++ lines (part_disposition p :: part_headers p) ++ CRLF ++ part_body p ++ CRLF ++ encode b tail ps) = None)
      as Hn by (by rewrite <- app_assoc).
    rewrite readln_crlf in Hn; [done|]. rewrite <- (app_nil_r b). by apply delim_line.
Qed.

(** ** A turn *)

(** The fields of a state of the form [mk]. *)
Ltac mk_simp :=
  cbn zeta; unfold set_line;
  repeat change (line (mk ?x1 ?x2 ?x3 ?x4 ?x5 ?x6 ?x7 ?x)) with x;
  repeat change (boundary (mk ?x1 ?x2 ?x3 ?x4 ?x5 ?x6 ?x7 ?x)) with b.

(** The end of the form. *)
Definition finished (f : RecvFSM) : Prop := exists up, f = mk all RECV_HEADERS None None false [] up [].

(** A turn stays on the way; unless it is the last one it takes something; after the last one
    more is to come, or the form is finished. *)
Definition good_turn (r : bytes) (f : RecvFSM) (res : evhtp_res * bool * RecvFSM) : Prop :=
  let '(e, no_line, f') := res in
  e = EVHTP_RES_OK /\ at_phase r f' /\ line f' `suffix_of` line f /\ (no_line = false -> (length (line f') < length (line f))%nat) /\
  (no_line = true -> r = [] -> finished f').

(** While there is no line, more is to come. *)
Lemma more_to_come l r c D : readln l = None -> l ++ r = c ++ CRLF ++ D -> r <> [].
Proof.
  intros E Hs ->. rewrite app_nil_r in Hs. subst l. destruct (readln c) as [[]|] eqn:Ec.
  - by rewrite (readln_app _ _ _ _ Ec) in E.
  - by rewrite readln_crlf in E.
Qed.

Lemma taken l a rest : readln l = Some (a, rest) -> rest `suffix_of` l /\ (length rest < length l)%nat.
Proof.
  intros ->%readln_spec. split; [by exists (a ++ CRLF); rewrite <- app_assoc|]. rewrite !length_app. cbn. lia.
Qed.

Lemma good_next r f a rest f' :
  readln (line f) = Some (a, rest) -> line f' = rest -> at_phase r f' -> good_turn r f (EVHTP_RES_OK, false, f').
Proof. intros E <- Hp. apply taken in E as [E1 E2]. by split_and!. Qed.

Lemma good_stay r f : at_phase r f -> (r = [] -> finished f) -> good_turn r f (EVHTP_RES_OK, true, f).
Proof. by intros; split_and!. Qed.

Lemma good_drained r f f' : line f' = [] -> at_phase r f' -> (r = [] -> finished f') -> good_turn r f (EVHTP_RES_OK, true, f').
Proof. intros E Hp Hf. split_and!; [done|done| |done|done]. rewrite E. by exists (line f); rewrite app_nil_r. Qed.

Lemma part_in ds p ps : ds ++ p :: ps = all -> part_ok p = true.
Proof. intros E. rewrite <- E in Hall. rewrite forallb_app in Hall. cbn in Hall. by rewrite !andb_true_iff in Hall; destruct Hall as (_ & ? & _). Qed.

Lemma turn_init r up l : all <> [] -> l ++ r = encode b tail all ->
  good_turn r (mk [] RECV_INIT None None false [] up l) (turn (mk [] RECV_INIT None None false [] up l)).
Proof.
  intros Hne Hs. unfold read_turn. cbn [mk state line]. destruct (readln l) as [[a rest]|] eqn:E.
  - destruct (encode_line [] all l r a rest eq_refl Hs E) as [Hstr Hph]. cbn [mk boundary]. rewrite Hstr.
    by eapply good_next; [exact E| |apply Hph].
  - apply good_stay; [by apply AtInit|]. intros Hr. exfalso. revert Hr. destruct all as [|p ps]; [done|].
    eapply (more_to_come l r (lit "--" ++ b)); [done|]. rewrite Hs. cbn [encode]. by rewrite <- app_assoc.
Qed.

Lemma turn_start r ds p ps up l : ds ++ p :: ps = all ->
  l ++ r = lines (part_disposition p :: part_headers p) ++ after_headers p ps ->
  good_turn r (mk ds RECV_HEADERS None None false [] up l) (turn (mk ds RECV_HEADERS None None false [] up l)).
Proof.
  intros Ha Hs. unfold read_turn. cbn [mk state line]. destruct (readln l) as [[a rest]|] eqn:E.
  2:{ apply good_stay; [by eapply AtStart|]. intros Hr. exfalso. revert Hr. eapply more_to_come; [done|].
      rewrite Hs. unfold after_headers. done. }
  pose proof (part_in _ _ _ Ha) as Hp. pose proof (disposition_plain _ Hp) as Hd. unfold plain_name in Hd.
  apply andb_true_iff in Hd as [_ Hd%readln_no_cr].
  assert (Hs' : l ++ r = part_disposition p ++ CRLF ++ lines (part_headers p) ++ after_headers p ps)
    by (rewrite Hs; unfold lines; cbn [fmap list_fmap concat]; by rewrite <- !app_assoc).
  apply (readln_app _ _ _ r) in E as E'. rewrite Hs', readln_crlf in E' by done. injection E' as <- Hr.
  destruct (part_disposition p) as [|x d] eqn:Ed; [by destruct p|]. rewrite <- Ed.
  rewrite parse_disposition; [|done|done|done].
  eapply good_next; [exact E|done|]. apply (AtHeaders r ds p ps (part_headers p)); [done| |exact (eq_sym Hr)].
  unfold part_ok in Hp. by rewrite !andb_true_iff in Hp; destruct Hp as [[? _] _].
Qed.

Lemma turn_headers r ds p ps hs up l : ds ++ p :: ps = all -> forallb other_header hs = true ->
  l ++ r = lines hs ++ after_headers p ps ->
  let f := mk ds RECV_HEADERS (Some (part_input p)) (part_file_name p) false [] up l in good_turn r f (turn f).
Proof.
  intros Ha Hh Hs f. unfold read_turn. subst f. cbn [mk state line]. destruct (readln l) as [[a rest]|] eqn:E.
  2:{ apply good_stay; [by eapply AtHeaders|]. intros Hr. exfalso. revert Hr. eapply more_to_come; [done|].
      rewrite Hs. unfold after_headers. done. }
  apply (readln_app _ _ _ r) in E as E'. rewrite Hs in E'. destruct hs as [|h hs].
  - cbn in E'. injection E' as <- Hr. cbn [set_line mk input_name].
    pose proof (part_in _ _ _ Ha) as Hp. unfold part_ok in Hp. rewrite !andb_true_iff in Hp. destruct Hp as [_ Hp].
    destruct p as [n hs v|n hs c]; cbn [part_input part_file_name part_body] in *.
    + rewrite !andb_true_iff in Hp. destruct Hp as [[_ Hn%negb_true_iff] _]. rewrite Hn.
      eapply good_next; [exact E|done|]. by eapply (AtField r ds n hs v ps).
    + rewrite bool_decide_eq_true_2 by done. unfold open_temp_file. rewrite Hopen.
      eapply good_next; [exact E|done|].
      assert (Hf : forall up', at_phase r (mk ds RECV_CONTENT (Some (lit "file")) (normalize_utf8_path (str n)) false [[]] up' rest))
        by (intros up'; by eapply (AtFile r ds n hs [] c false ps)).
      specialize (Hf up). unfold mk in Hf. cbn [length] in Hf. rewrite Nat.add_1_r, seq_S, reverse_snoc in Hf.
      unfold set_state. cbn. rewrite Nat.add_0_r, app_nil_r.
      destruct (Z.ltb_spec rs 0); [|lia]. exact Hf.
  - cbn [forallb] in Hh. apply andb_true_iff in Hh as [Hh Hhs]. unfold other_header in Hh. apply andb_true_iff in Hh as [Hcr Hc].
    assert (Hs' : lines (h :: hs) ++ after_headers p ps = h ++ CRLF ++ lines hs ++ after_headers p ps)
      by (unfold lines; cbn [fmap list_fmap concat]; by rewrite <- !app_assoc).
    rewrite Hs', readln_crlf in E' by (by apply readln_no_cr). injection E' as <- Hr.
    destruct h as [|x h]; [done|]. rewrite parse_other by (unfold other_header; by rewrite Hcr).
    eapply good_next; [exact E|done|]. by eapply (AtHeaders r ds p ps hs).
Qed.

Lemma not_file ds n hs v ps : ds ++ Field n hs v :: ps = all -> bool_decide (Some n = Some (lit "file")) = false.
Proof.
  intros Ha. pose proof (part_in _ _ _ Ha) as Hp. unfold part_ok in Hp. rewrite !andb_true_iff in Hp.
  destruct Hp as [_ [[_ Hn%negb_true_iff] _]]. apply bool_decide_eq_false in Hn. apply bool_decide_eq_false_2. congruence.
Qed.

Lemma turn_field r ds n hs v ps up l : ds ++ Field n hs v :: ps = all -> l ++ r = v ++ CRLF ++ encode b tail ps -> good_cut l r ->
  let f := mk ds RECV_CONTENT (Some n) None false [] up l in good_turn r f (turn f).
Proof.
  intros Ha Hs Hg f. unfold read_turn. subst f. cbn [mk state input_name]. rewrite (not_file _ _ _ _ _ Ha).
  pose proof (part_in _ _ _ Ha) as Hp. unfold part_ok in Hp. rewrite !andb_true_iff in Hp. cbn [part_body] in Hp.
  destruct Hp as [[_ Hv%negb_true_iff] [_ Hl]]. destruct (readln v) eqn:Ev; [done|].
  unfold recv_form_field. mk_simp. destruct (readln l) as [[a rest]|] eqn:E.
  - apply (readln_app _ _ _ r) in E as E'. rewrite Hs, readln_crlf in E' by done. injection E' as <- Hr.
    cbn [boundary]. rewrite strstr_false by done. eapply good_next; [exact E| |]; cbn [mk].
    + by destruct (normalize_utf8_path _).
    + assert (H : forall up, at_phase r (mk (ds ++ [Field n hs v]) RECV_CONTENT (Some n) None false [] up rest))
        by (intros; by eapply AtFieldEnd).
      specialize (H up). unfold mk in H. rewrite fields_snoc, names_snoc, contents_snoc in H. cbn [part_file_name add_kv] in H. rewrite (app_nil_r (form_names ds)), (app_nil_r (form_contents ds)) in H.
      destruct (normalize_utf8_path _); exact H.
  - destruct (readln_wait _ _ _ _ E Hs Hg) as (k & -> & ->).
    rewrite (contains_prefix _ _ _ Hv), andb_false_r. apply good_stay; [by eapply (AtField (k ++ CRLF ++ encode b tail ps) ds n hs)|].
    intros Hr. by destruct k.
Qed.

Lemma turn_field_end r ds n hs v ps up l : ds ++ Field n hs v :: ps = all -> l ++ r = encode b tail ps -> good_cut l r ->
  let f := mk (ds ++ [Field n hs v]) RECV_CONTENT (Some n) None false [] up l in good_turn r f (turn f).
Proof.
  intros Ha Hs Hg f. unfold read_turn. subst f. cbn [mk state input_name]. rewrite (not_file _ _ _ _ _ Ha).
  assert (Ha' : (ds ++ [Field n hs v]) ++ ps = all) by (by rewrite <- app_assoc).
  unfold recv_form_field. mk_simp. destruct (readln l) as [[a rest]|] eqn:E.
  - destruct (encode_line _ _ _ _ _ _ Ha' Hs E) as [Hstr Hph]. cbn [boundary]. rewrite Hstr.
    eapply good_next; [exact E|done|apply (Hph up)].
  - destruct (encode_wait _ _ _ Hs E Hg) as [Hl|(-> & -> & ->)].
    + destruct (Nat.leb_spec (length b + 4) (length l)); [lia|]. apply good_stay; [by eapply AtFieldEnd|].
      intros ->. by apply (encode_short ps l) in Hs.
    + assert (Hc : contains b (lit "--" ++ b ++ lit "--") = true) by (apply contains_spec; by eexists _, _).
      rewrite Hc, andb_true_r. destruct (Nat.leb_spec (length b + 4) (length (lit "--" ++ b ++ lit "--"))) as [_|Hl].
      * rewrite app_nil_r in Ha'. eapply good_drained; [done|by apply (phase_next (ds ++ [Field n hs v]) [] [] [] up); rewrite ?app_nil_r|].
        intros _. exists up. by rewrite <- Ha'.
      * rewrite !length_app in Hl. cbn in Hl. lia.
Qed.

(** The state while a file is received. *)
Abbreviation in_file ds n crlf w up l := (mk ds RECV_CONTENT (Some (lit "file")) (normalize_utf8_path (str n)) crlf [w] up l).

Lemma write_in_file ds n crlf w up l data no_line crlf' rest :
  data_written write_ok no_line crlf' data (set_line (in_file ds n crlf w up l) rest) =
  (EVHTP_RES_OK, no_line, in_file ds n crlf' (w ++ (if crlf then CRLF else []) ++ data) up rest).
Proof.
  assert (Ha : forall (d : list bytes) x y, alter (fun c => c ++ y) (length d) (d ++ [x]) = d ++ [x ++ y])
    by (intros d x y; rewrite alter_app_r_alt by lia; by rewrite Nat.sub_diag).
  unfold data_written, write_data, writen, set_line, mk, set_crlf.
  destruct crlf; cbn; rewrite !Hwrite; cbn; rewrite !Ha, ?Hwrite; cbn; [by rewrite <- app_assoc|done].
Qed.

Lemma file_ends_in_file ds n hs c up l no_line crlf rest : part_ok (File n hs c) = true ->
  file_ends close_ok no_line (set_line (in_file ds n crlf c up l) rest) =
  (EVHTP_RES_OK, no_line, mk (ds ++ [File n hs c]) RECV_HEADERS None None false [] up rest).
Proof.
  intros Hp. unfold part_ok in Hp. rewrite !andb_true_iff in Hp. destruct Hp as [_ [_ Hn]].
  unfold file_ends, add_uploaded_file, set_line, mk, part_ends, set_state, set_input. cbn.
  destruct (Z.ltb_spec rs 0); [|lia]. rewrite Hclose. cbn.
  rewrite fields_snoc, names_snoc, contents_snoc. cbn [part_file_name]. destruct (normalize_utf8_path (str n)) as [x|]; [|done].
  cbn. rewrite length_app, reverse_snoc, app_nil_r, Nat.add_0_r. done.
Qed.

Lemma turn_file r ds n hs (w c : bytes) (crlf : bool) ps up l :
  ds ++ File n hs (w ++ (if crlf then CRLF else []) ++ c) :: ps = all ->
  l ++ r = c ++ CRLF ++ encode b tail ps -> good_cut l r ->
  good_turn r (in_file ds n crlf w up l) (turn (in_file ds n crlf w up l)).
Proof.
  intros Ha Hs Hg. unfold read_turn. cbn [mk state input_name]. rewrite bool_decide_eq_true_2 by done.
  pose proof (part_in _ _ _ Ha) as Hp. unfold part_ok in Hp. rewrite !andb_true_iff in Hp. cbn [part_body] in Hp.
  destruct Hp as [[_ Hc%negb_true_iff] _]. rewrite app_assoc in Hc. apply contains_suffix in Hc.
  unfold recv_file_data. cbn zeta. change (line (in_file ds n crlf w up l)) with l.
  change (boundary (set_line (in_file ds n crlf w up l) ?x)) with b. change (boundary (in_file ds n crlf w up l)) with b.
  destruct (readln l) as [[a rest]|] eqn:E.
  - destruct (readln_stream _ _ _ _ _ _ E Hs) as [[-> Hr]|(c' & -> & Hr)].
    + rewrite strstr_false, write_in_file by done.
      eapply good_next; [exact E|done|]. by eapply AtFileEnd.
    + rewrite strstr_false, write_in_file by (by eapply contains_prefix).
      eapply good_next; [exact E|done|]. eapply (AtFile r ds n hs _ c' true); [|exact Hr].
      rewrite <- Ha. by rewrite <- !app_assoc.
  - destruct (Nat.leb_spec (length b + 4) (length l)).
    + destruct (readln_wait _ _ _ _ E Hs Hg) as (k & -> & ->).
      rewrite strstr_false, write_in_file by (by eapply contains_prefix).
      eapply good_drained; [done| |intros Hr; by destruct k]. eapply (AtFile _ ds n hs _ k false); [|done].
      rewrite <- Ha. by rewrite <- !app_assoc.
    + apply good_stay; [by eapply AtFile|]. intros Hr. exfalso. revert Hr. by eapply more_to_come.
Qed.

Lemma turn_file_end r ds n hs c ps up l :
  ds ++ File n hs c :: ps = all -> l ++ r = encode b tail ps -> good_cut l r ->
  good_turn r (in_file ds n true c up l) (turn (in_file ds n true c up l)).
Proof.
  intros Ha Hs Hg. unfold read_turn. cbn [mk state input_name]. rewrite bool_decide_eq_true_2 by done.
  assert (Ha' : (ds ++ [File n hs c]) ++ ps = all) by (by rewrite <- app_assoc). pose proof (part_in _ _ _ Ha) as Hp.
  unfold recv_file_data. cbn zeta. change (line (in_file ds n true c up l)) with l.
  change (boundary (set_line (in_file ds n true c up l) ?x)) with b. change (boundary (in_file ds n true c up l)) with b.
  destruct (readln l) as [[a rest]|] eqn:E.
  - destruct (encode_line _ _ _ _ _ _ Ha' Hs E) as [Hstr Hph]. rewrite Hstr, (file_ends_in_file _ _ hs) by done.
    eapply good_next; [exact E|done|apply Hph].
  - destruct (encode_wait _ _ _ Hs E Hg) as [Hl|(-> & -> & ->)].
    + destruct (Nat.leb_spec (length b + 4) (length l)); [lia|]. apply good_stay; [by eapply AtFileEnd|].
      intros ->. by apply (encode_short ps l) in Hs.
    + destruct (Nat.leb_spec (length b + 4) (length (lit "--" ++ b ++ lit "--"))) as [_|Hl].
      * rewrite strstr_delim, (file_ends_in_file _ _ hs) by (done || apply b_no_nul). rewrite app_nil_r in Ha'.
        eapply good_drained; [done|by apply (phase_next (ds ++ [File n hs c]) [] [] []); rewrite ?app_nil_r|].
        intros _. exists up. by rewrite <- Ha'.
      * rewrite !length_app in Hl. cbn in Hl. lia.
Qed.

Lemma turn_good r f : at_phase r f -> good_cut (line f) r -> good_turn r f (turn f).
Proof.
  intros Hp Hg. destruct Hp.
  - by apply turn_init.
  - by eapply turn_start.
  - by eapply turn_headers.
  - by eapply turn_field.
  - by eapply turn_field_end.
  - by eapply turn_file.
  - by eapply turn_file_end.
  - apply app_eq_nil in H as [-> ->]. apply good_stay; [by apply AtEnd|]. intros _. by exists up.
Qed.

(** ** The whole body *)

Abbreviation loop := (read_loop normalize_utf8_path g_uri_unescape_string disposition open_ok write_ok close_ok).
Abbreviation callback := (upload_read_cb normalize_utf8_path g_uri_unescape_string disposition open_ok write_ok close_ok).
Abbreviation uploads := (upload_body normalize_utf8_path g_uri_unescape_string disposition open_ok write_ok close_ok).

Lemma loop_good r fuel : forall f, at_phase r f -> good_cut (line f) r -> (length (line f) < fuel)%nat ->
  exists f', loop fuel f = Some (EVHTP_RES_OK, f') /\ at_phase r f' /\ line f' `suffix_of` line f /\ (r = [] -> finished f').
Proof.
  induction fuel as [|fuel IH]; intros f Hp Hg Hl; [lia|]. cbn [read_loop].
  pose proof (turn_good r f Hp Hg) as Ht. destruct (turn f) as [[e nl] f1]. destruct Ht as (-> & Hp1 & Hs & Hd & Hf). destruct nl.
  - exists f1. split_and!; [done|done|done|]. by apply Hf.
  - destruct (IH f1) as (f' & E & Hp' & Hs' & Hf'); [done|by eapply good_cut_suffix|specialize (Hd eq_refl); lia|].
    exists f'. split_and!; [done|done|by etrans|done].
Qed.

(** The cuts of the body are good. *)
Fixpoint cuts_good (before : bytes) (pieces : list bytes) : Prop :=
  match pieces with
  | [] => True
  | buf :: pieces => good_cut (before ++ buf) (concat pieces) /\ cuts_good (before ++ buf) pieces
  end.

Lemma set_line_phase f l up buf r :
  at_phase (buf ++ r) f -> line f ++ buf = l -> at_phase r (set_line (set_uploaded f up) l).
Proof.
  intros Hp <-. destruct Hp; unfold set_line, set_uploaded; cbn [mk state boundary input_name line form_kvs
    filenames files recved_crlf file_name tmp_file rstart disk uploaded].
  - apply (AtInit r up (l ++ buf)); by rewrite <- ?app_assoc.
  - eapply (AtStart r ds p ps up (l ++ buf)); by rewrite <- ?app_assoc.
  - eapply (AtHeaders r ds p ps hs up (l ++ buf)); by rewrite <- ?app_assoc.
  - eapply (AtField r ds n hs v ps up (l ++ buf)); by rewrite <- ?app_assoc.
  - eapply (AtFieldEnd r ds n hs v ps up (l ++ buf)); by rewrite <- ?app_assoc.
  - eapply (AtFile r ds n hs w c crlf ps up (l ++ buf)); [done|by rewrite <- app_assoc].
  - eapply (AtFileEnd r ds n hs c ps up (l ++ buf)); by rewrite <- ?app_assoc.
  - apply (AtEnd r up (l ++ buf)); by rewrite <- app_assoc.
Qed.

Lemma uploads_good pieces : forall before f, at_phase (concat pieces) f -> line f `suffix_of` before -> cuts_good before pieces ->
  pieces <> [] \/ finished f -> exists f', uploads pieces f = Some (EVHTP_RES_OK, f') /\ finished f'.
Proof.
  induction pieces as [|buf pieces IH]; intros before f Hp Hsuf Hc Hf; [exists f; by destruct Hf|]. cbn [concat cuts_good upload_body] in *.
  destruct Hc as [Hg Hc]. pose (l := line f ++ buf).
  assert (Hsuf' : l `suffix_of` before ++ buf) by (destruct Hsuf as [k ->]; exists k; subst l; by rewrite app_assoc).
  assert (Hcb : exists up, callback buf f = loop (S (length l)) (set_line (set_uploaded f up) l)).
  { exists ((fun u => s64 (u + Z.of_nat (length buf))) <$> uploaded f). destruct Hp; reflexivity. }
  destruct Hcb as [up ->]. pose proof (set_line_phase f l up buf _ Hp eq_refl) as Hp'.
  destruct (loop_good (concat pieces) (S (length l)) (set_line (set_uploaded f up) l)) as (f1 & -> & Hp1 & Hs1 & Hf1).
  - done.
  - cbn. by eapply good_cut_suffix.
  - cbn. lia.
  - apply (IH (before ++ buf) f1); [done|etrans; [exact Hs1|]; done|done|].
    destruct pieces as [|x pieces]; [right; by apply Hf1|by left].
Qed.

(** The machine as the headers of the request leave it. *)
Definition fresh (up : option Z) : RecvFSM := mkFsm RECV_INIT b None [] ∅ [] [] false None None up rs [].

(** C38: A form with at least one part is received as it was sent: the body, cut into pieces
    in any way that separates no CR from its LF and does not leave the last line end alone,
    is accepted without an error, and when all pieces have arrived the machine has the
    fields of the form (normalised, the last of equal names), the base names of its files in
    reverse order, one temporary file per file with exactly its contents, and nothing left
    in its buffer.  The parts have one-line values, no boundary inside values and contents,
    and the temporary files can be created and written; contents may have line ends, NULs and
    any other bytes. *)
Theorem form_received pieces up :
  all <> [] -> concat pieces = encode b tail all -> cuts_good [] pieces ->
  exists f, uploads pieces (fresh up) = Some (EVHTP_RES_OK, f) /\
    state f = RECV_HEADERS /\ line f = [] /\ form_kvs f = form_fields all /\ filenames f = reverse (form_names all) /\
    disk f = form_contents all /\ files f = reverse (seq 0 (length (form_contents all))).
Proof.
  intros Hne Hc Hcuts. destruct (uploads_good pieces [] (fresh up)) as (f & E & up' & ->).
  - rewrite Hc. by apply (AtInit (encode b tail all) up []).
  - done.
  - done.
  - left. intros ->. cbn in Hc. by destruct all.
  - eexists. split; [exact E|]. cbn. by rewrite Nat.add_0_r, app_nil_r.
Qed.
End forms.

(** ** Every piece is taken *)

Section total.
Context (normalize_utf8_path : string -> option string) (g_uri_unescape_string : string -> option string).
Context (disposition : option bytes) (open_ok write_ok close_ok : RecvFSM -> bool).
Abbreviation turn := (read_turn normalize_utf8_path g_uri_unescape_string disposition open_ok write_ok close_ok).

(** What a function on the state leaves alone. *)
Definition same_line (f f' : RecvFSM) : Prop := line f' = line f /\ (state f <> RECV_ERROR -> state f' <> RECV_ERROR).

Lemma same_line_line f f' : same_line f f' -> line f' = line f.
Proof. by intros []. Qed.

Lemma parse_same h f f' : parse_mime_header normalize_utf8_path g_uri_unescape_string disposition h f = Some f' -> same_line f f'.
Proof. unfold parse_mime_header. intros E. repeat (case_match; simplify_eq/=); by split. Qed.

Lemma writen_same f data f' : writen write_ok f data = Some f' -> same_line f f'.
Proof. unfold writen. destruct (write_ok f); [|done]. by intros [= <-]. Qed.

Lemma write_same no_line crlf data f e nl f' : data_written write_ok no_line crlf data f = (e, nl, f') -> same_line f f' /\ nl = no_line.
Proof.
  unfold data_written. destruct (write_data write_ok f data) as [f1|] eqn:E; [|by intros [= <- <- <-]].
  intros [= <- <- <-]. enough (same_line f f1) as [H1 H2] by (by repeat split). unfold write_data in E.
  destruct (recved_crlf f); [|by apply writen_same in E].
  destruct (writen write_ok f CRLF) as [f0|] eqn:E0; [|done]. cbn in E.
  apply writen_same in E0 as [H1 H2], E as [H3 H4]. split; [congruence|auto].
Qed.

Lemma ends_same no_line f e nl f' : file_ends close_ok no_line f = (e, nl, f') -> same_line f f' /\ nl = no_line.
Proof. unfold file_ends, add_uploaded_file. intros E. repeat (case_match; simplify_eq/=); repeat split; done. Qed.

Lemma turn_takes f e f' : state f <> RECV_ERROR -> turn f = (e, false, f') ->
  (length (line f') < length (line f))%nat /\ state f' <> RECV_ERROR.
Proof.
  intros Hst. assert (Ht : forall a rest, readln (line f) = Some (a, rest) -> (length rest < length (line f))%nat)
    by (intros a rest E; by apply taken in E as [_ ?]).
  unfold read_turn. destruct (state f) eqn:Es; [..|done].
  - destruct (readln (line f)) as [[a rest]|] eqn:E; [|done]. specialize (Ht _ _ eq_refl). destruct (strstr _ _); intros [= <- <-]; cbn; split; [done|done|done|by rewrite Es].
  - destruct (readln (line f)) as [[[|x a] rest]|] eqn:E; [| |done]; specialize (Ht _ _ eq_refl).
    + cbn. intros H. unfold open_temp_file in H. repeat (case_match; simplify_eq/=); split; try done; by rewrite Es.
    + destruct (parse_mime_header _ _ _ _ _) as [f1|] eqn:Ep.
      * apply parse_same in Ep as [El Ee]. cbn in El, Ee. intros [= <- <-]. rewrite El. split; [done|]. apply Ee. by rewrite Es.
      * intros [= <- <-]. cbn. split; [done|by rewrite Es].
  - destruct (bool_decide _).
    + unfold recv_file_data. destruct (readln (line f)) as [[a rest]|] eqn:E.
      * specialize (Ht _ _ eq_refl). cbn. destruct (strstr _ _); intros [[El Ee] _]%ends_same || intros [[El Ee] _]%write_same;
          cbn in El, Ee; rewrite El; split; [done|apply Ee; by rewrite Es|done|apply Ee; by rewrite Es].
      * destruct (_ <=? _)%nat; [|done]. destruct (strstr _ _); [intros [_ ?]%ends_same|intros [_ ?]%write_same]; done.
    + unfold recv_form_field. destruct (readln (line f)) as [[a rest]|] eqn:E; [|done]. specialize (Ht _ _ eq_refl).
      cbn. intros [= <- <-]. repeat case_match; cbn; split; try done; by rewrite Es.
Qed.

(** Whatever arrives, in whatever state the machine is, the loop over a piece comes to an
    end. *)
Lemma upload_read_total buf f :
  is_Some (upload_read_cb normalize_utf8_path g_uri_unescape_string disposition open_ok write_ok close_ok buf f).
Proof.
  unfold upload_read_cb.
  enough (H : forall fuel f, state f <> RECV_ERROR -> (length (line f) < fuel)%nat ->
    is_Some (read_loop normalize_utf8_path g_uri_unescape_string disposition open_ok write_ok close_ok fuel f)).
  { destruct (state f) eqn:Es; try (apply H; cbn; [by rewrite Es|lia]). done. }
  intros fuel. induction fuel as [|fuel IH]; intros f0 Hst Hl; [lia|]. cbn [read_loop].
  destruct (turn f0) as [[[] []] f1] eqn:E; try done. apply turn_takes in E as [H1 H2]; [|done]. apply IH; [done|lia].
Qed.
End total.

(** ** Examples *)

Definition as_is (s : string) : option string := Some s.
Abbreviation receives := (upload_body as_is as_is None (fun _ => true) (fun _ => true) (fun _ => true)).
Definition two_parts : list part :=
  [Field (lit "parent_dir") [] (lit "/a/b");
   File (lit "C:\x;y.txt") [lit "Content-Type: text/plain"] (lit "first" ++ CRLF ++ CR :: NUL :: lit "--second line")].
Definition bnd : bytes := lit "Xb1".
Definition two_body : bytes := encode bnd CRLF two_parts.

(** The body in pieces of eleven bytes. *)
Definition cuts_goodb (before : bytes) (pieces : list bytes) : bool :=
  (fix go before pieces := match pieces with
   | [] => true
   | buf :: pieces =>
       negb (match reverse (before ++ buf), concat pieces with c :: _, d :: _ => Ascii.eqb c CR && Ascii.eqb d LF | _, _ => false end)
       && negb (bool_decide (concat pieces = CRLF)) && go (before ++ buf) pieces
   end) before pieces.

Lemma cuts_goodb_sound pieces : forall before, cuts_goodb before pieces = true -> cuts_good before pieces.
Proof.
  induction pieces as [|buf pieces IH]; intros before; [done|]. unfold cuts_goodb. fold cuts_goodb.
  rewrite !andb_true_iff. intros [[H1 H2] H3]. split; [|by apply IH]. split.
  - intros a c Hl Hr. rewrite Hl, Hr, reverse_snoc in H1. cbn in H1. done.
  - by apply negb_true_iff, bool_decide_eq_false in H2.
Qed.

Fixpoint every (n fuel : nat) (l : bytes) : list bytes :=
  match fuel, l with S fuel, _ :: _ => take n l :: every n fuel (drop n l) | _, _ => [] end.
Definition two_pieces : list bytes := every 11 40 two_body.

Lemma form_received_witness :
  exists f, receives two_pieces (fresh bnd (-1) None) = Some (EVHTP_RES_OK, f) /\
    form_kvs f = {["parent_dir" := "/a/b"]} /\ filenames f = ["x;y.txt"] /\
    disk f = [lit "first" ++ CRLF ++ CR :: NUL :: lit "--second line"].
Proof.
  destruct (form_received as_is as_is None (fun _ => true) (fun _ => true) (fun _ => true) (fun _ => eq_refl) (fun _ => eq_refl)
    (fun _ => eq_refl) bnd CRLF eq_refl (or_intror eq_refl) (-1) ltac:(lia) two_parts eq_refl two_pieces None)
    as (f & E & _ & _ & Hk & Hn & Hd & _).
  - discriminate.
  - vm_compute. reflexivity.
  - apply cuts_goodb_sound. vm_compute. reflexivity.
  - exists f. rewrite Hk, Hn, Hd. split; [exact E|]. split; [vm_compute; reflexivity|]. split; vm_compute; reflexivity.
Defined.

(** When a piece ends between the CR and the LF before a delimiter, the CR has been written
    to the file by the time the LF arrives: the file is a byte longer than what was sent. *)
Definition contents_of (r : option (evhtp_res * RecvFSM)) : option (evhtp_res * list bytes) :=
  match r with Some (e, f) => Some (e, disk f) | None => None end.

Lemma cr_before_delimiter_kept :
  let body := encode bnd [] [File (lit "f") [] (lit "0123456789")] in
  let n := (length body - 8)%nat in
  contents_of (receives [body] (fresh bnd (-1) None)) = Some (EVHTP_RES_OK, [lit "0123456789"]) /\
  contents_of (receives [take n body; drop n body] (fresh bnd (-1) None)) = Some (EVHTP_RES_OK, [lit "0123456789" ++ [CR]]).
Proof. vm_compute. split; reflexivity. Qed.

(** When the line end after the last delimiter arrives in a piece of its own, it is read as
    the end of the headers of another part, and the upload, which is complete, is refused. *)
Lemma last_line_end_refused :
  let body := encode bnd [] [File (lit "f") [] (lit "0123456789")] in
  contents_of (receives [body ++ CRLF] (fresh bnd (-1) None)) = Some (EVHTP_RES_OK, [lit "0123456789"]) /\
  contents_of (receives [body; CRLF] (fresh bnd (-1) None)) = Some (EVHTP_RES_BADREQ, [lit "0123456789"]).
Proof. vm_compute. split; reflexivity. Qed.

(** Of a value of several lines only the last one is kept. *)
Lemma last_line_of_value_kept :
  match receives [encode bnd [] [Field (lit "k") [] (lit "one" ++ CRLF ++ lit "two")]] (fresh bnd (-1) None) with
  | Some (e, f) => e = EVHTP_RES_OK /\ form_kvs f = {["k" := "two"]}
  | None => False
  end.
Proof. vm_compute. split; reflexivity. Qed.

(** A quoted boundary, which RFC 2046 allows, is taken with its quotes. *)
Lemma quoted_boundary_kept :
  get_boundary (Some (lit "multipart/form-data; boundary=" ++ q ++ bnd ++ q)) = Some (q ++ bnd ++ q).
Proof. vm_compute. reflexivity. Qed.

(** An accepted range lies in the file, and none of the numbers has wrapped around. *)
Lemma range_accepted h start last fsize :
  parse_range_val (Some h) = Some (start, last, fsize) -> - 2 ^ 63 <= start <= last /\ last < fsize < 2 ^ 63.
Proof.
  assert (Hn : forall l s v r, range_number l s = Some (v, r) -> - 2 ^ 63 <= v < 2 ^ 63).
  { intros l s v r. unfold range_number. destruct (strtoll l) as [x next] eqn:E.
    assert (- 2 ^ 63 <= x < 2 ^ 63).
    { revert E. unfold strtoll. destruct (match drop_while _ _ with [] => _ | _ => _ end) as [sg body].
      destruct (digits 0 0 body) as [[v0 [|k]] rest]; intros [= <- _]; lia. }
    destruct (_ && _); [done|]. repeat case_match; intros [= <- _]; done. }
  unfold parse_range_val. destruct (negb _); [done|].
  destruct (range_number _ _) as [[s t]|] eqn:E1; [|done]. cbn.
  destruct (range_number t _) as [[l t2]|] eqn:E2; [|done]. cbn.
  destruct (range_number t2 _) as [[z t3]|] eqn:E3; [|done]. cbn.
  destruct (_ || _) eqn:Hc; [done|]. intros [= <- <- <-]. apply orb_false_iff in Hc as [H1%Z.ltb_ge H2%Z.leb_gt].
  apply Hn in E1, E2, E3. lia.
Qed.
