(* ===== verification/Resume.v ===== *)
(** * Resumable uploads ([server/upload-file.c], [server/repo-mgr.c])

    A file may be uploaded in blocks, each by a request of its own that says which bytes of
    the file it has.  The blocks are written to one temporary file, which the table
    [WebUploadTempFiles] remembers; a client that was interrupted asks for its length and
    goes on from there. *)

From S2P Require Import Prelude Paths Sql Multipart.
From Stdlib Require Import Ascii.

Record UploadRow := mkRow {
  ur_repo_id : string;
  ur_file_path : string;
  ur_tmp_file : nat
}.

(** The table and the temporary files, by number. *)
Record Uploads := mkUploads {
  u_rows : list UploadRow;
  u_disk : gmap nat bytes
}.

(** Which of the statements and calls fail. *)
Record faults := mkFaults {
  ft_select : bool;
  ft_insert : bool;
  ft_delete : bool;
  ft_create : bool;
  ft_open : bool;
  ft_stat : bool;
  ft_unlink : bool;
  (** how many bytes of the block are written, when not all *)
  ft_written : option nat
}.

(** ** The table *)

Definition no_slash (path : string) : string :=
  match path with String c rest => if is_slash c then rest else path | EmptyString => path end.

Definition rows_at (w : Uploads) (repo_id path : string) : list UploadRow :=
  List.filter (fun r => sql_eq (ur_repo_id r) repo_id && sql_eq (ur_file_path r) path) (u_rows w).

(** [None]: a statement failed. *)
Definition seaf_repo_manager_get_upload_tmp_file (ft : faults) (w : Uploads) (repo_id file_path : string) : option (option nat) :=
  if ft_select ft then None
  else Some match rows_at w repo_id (with_slash file_path) with
            | r :: _ => Some (ur_tmp_file r)
            | [] => match rows_at w repo_id (no_slash file_path) with
                    | r :: _ => Some (ur_tmp_file r)
                    | [] => None
                    end
            end.

Definition seaf_repo_manager_add_upload_tmp_file (ft : faults) (w : Uploads) (repo_id file_path : string) (tmp_file : nat)
  : option Uploads :=
  if ft_insert ft then None else Some (mkUploads (u_rows w ++ [mkRow repo_id (with_slash file_path) tmp_file]) (u_disk w)).

Definition seaf_repo_manager_del_upload_tmp_file (ft : faults) (w : Uploads) (repo_id file_path : string) : Z * Uploads :=
  if ft_delete ft then (-1, w)
  else (0, mkUploads (List.filter (fun r => negb (sql_eq (ur_repo_id r) repo_id
                        && (sql_eq (ur_file_path r) (with_slash file_path) || sql_eq (ur_file_path r) (no_slash file_path))))
                        (u_rows w)) (u_disk w)).

(** How much of a file has arrived. *)
Definition seaf_repo_manager_get_upload_tmp_file_offset (ft : faults) (w : Uploads) (repo_id file_path : string) : Z * Uploads :=
  match seaf_repo_manager_get_upload_tmp_file ft w repo_id file_path with
  | None => (-1, w)
  | Some None => (0, w)
  | Some (Some tmp_file) =>
      match u_disk w !! tmp_file with
      | Some content => if ft_stat ft then (-1, w) else (Z.of_nat (length content), w)
      | None => seaf_repo_manager_del_upload_tmp_file ft w repo_id file_path
      end
  end.

Definition seaf_repo_manager_discard_upload_tmp_file (ft : faults) (w : Uploads) (repo_id file_path : string) : Z * Uploads :=
  match seaf_repo_manager_get_upload_tmp_file ft w repo_id file_path with
  | None => (-1, w)
  | Some None => seaf_repo_manager_del_upload_tmp_file ft w repo_id file_path
  | Some (Some tmp_file) =>
      if ft_unlink ft && bool_decide (is_Some (u_disk w !! tmp_file)) then (-1, w)
      else seaf_repo_manager_del_upload_tmp_file ft (mkUploads (u_rows w) (delete tmp_file (u_disk w))) repo_id file_path
  end.

(** ** Blocks *)

(** Writing at an offset; a gap is filled with zeros. *)
Definition pwrite (content : bytes) (offset : nat) (data : bytes) : bytes :=
  take offset (content ++ replicate (offset - length content) NUL) ++ data ++ drop (offset + length data) content.

(** [copy_block_to_tmp_file]: whether it succeeds, and the file.  Nothing is written at a
    negative offset. *)
Definition copy_block_to_tmp_file (ft : faults) (block content : bytes) (offset : Z) : bool * bytes :=
  if offset <? 0 then (false, content)
  else match ft_written ft with
       | None => (true, match block with [] => content | _ => pwrite content (Z.to_nat offset) block end)
       | Some n => (false, match take n block with [] => content | data => pwrite content (Z.to_nat offset) data end)
       end.

(** [write_block_data_to_tmp_file]: whether it succeeds, the file that is complete by the
    range of this block, and the state.  [path] is the path of the file. *)
Definition write_block_data_to_tmp_file (ft : faults) (w : Uploads) (repo_id path : string) (block : bytes)
    (rstart rend fsize : Z) : Z * option nat * Uploads :=
  match seaf_repo_manager_get_upload_tmp_file ft w repo_id path with
  | None => (-1, None, w)
  | Some known =>
      let opened :=
        match known with
        | None =>
            if ft_create ft then inl w
            else
              let n := fresh (dom (u_disk w) ∪ list_to_set (ur_tmp_file <$> u_rows w) : gset nat) in
              match seaf_repo_manager_add_upload_tmp_file ft w repo_id path n with
              | None => inl w
              | Some w => inr (n, mkUploads (u_rows w) (<[n := []]> (u_disk w)))
              end
        | Some n =>
            match u_disk w !! n with
            | None => inl (snd (seaf_repo_manager_del_upload_tmp_file ft w repo_id path))
            | Some _ => if ft_open ft then inl w else inr (n, w)
            end
        end in
      match opened with
      | inl w => (-1, None, w)
      | inr (n, w) =>
          let '(ok, content) := copy_block_to_tmp_file ft block (default [] (u_disk w !! n)) rstart in
          let w := mkUploads (u_rows w) (<[n := content]> (u_disk w)) in
          if ok then (0, if rend =? fsize - 1 then Some n else None, w) else (-1, None, w)
      end
  end.

(** ** An interrupted upload is completed *)

(** The temporary file of a path, when the statement succeeds. *)
Definition current (w : Uploads) (repo_id path : string) : option nat :=
  match rows_at w repo_id (with_slash path) with
  | r :: _ => Some (ur_tmp_file r)
  | [] => match rows_at w repo_id (no_slash path) with r :: _ => Some (ur_tmp_file r) | [] => None end
  end.

Lemma get_current ft w repo_id path k :
  seaf_repo_manager_get_upload_tmp_file ft w repo_id path = Some k -> k = current w repo_id path.
Proof. unfold seaf_repo_manager_get_upload_tmp_file. destruct (ft_select ft); [done|]. by intros [= <-]. Qed.

Lemma current_deleted w w' ft repo_id path :
  seaf_repo_manager_del_upload_tmp_file ft w repo_id path = (0, w') -> current w' repo_id path = None /\ u_disk w' = u_disk w.
Proof.
  unfold seaf_repo_manager_del_upload_tmp_file. destruct (ft_delete ft); [done|]. intros [= <-]. split; [|done].
  assert (H : forall p, p = with_slash path \/ p = no_slash path ->
    rows_at (mkUploads (List.filter (fun r => negb (sql_eq (ur_repo_id r) repo_id
      && (sql_eq (ur_file_path r) (with_slash path) || sql_eq (ur_file_path r) (no_slash path)))) (u_rows w)) (u_disk w)) repo_id p = []).
  { intros p Hp. unfold rows_at. cbn. induction (u_rows w) as [|r l IH]; [done|]. cbn.
    destruct (sql_eq (ur_repo_id r) repo_id) eqn:E1; cbn; [|by rewrite E1].
    destruct (sql_eq (ur_file_path r) (with_slash path) || sql_eq (ur_file_path r) (no_slash path)) eqn:E2; cbn; [done|].
    apply orb_false_iff in E2 as [E2 E3]. rewrite E1. cbn. destruct Hp as [-> | ->]; by rewrite ?E2, ?E3. }
  unfold current. by rewrite !H by eauto.
Qed.

Lemma current_added w repo_id path n : current w repo_id path = None ->
  current (mkUploads (u_rows w ++ [mkRow repo_id (with_slash path) n]) (u_disk w)) repo_id path = Some n.
Proof.
  unfold current, rows_at. cbn. rewrite !List.filter_app. cbn. rewrite !sql_eq_refl. cbn.
  destruct (List.filter _ (u_rows w)); [|done]. done.
Qed.

Section client.
Context (F : bytes) (repo_id path : string).

(** The client has been told the offset and sends the next [k] bytes of its file. *)
Definition client_step (ft : faults) (k : nat) (w : Uploads) : Z * option nat * Uploads :=
  let '(offset, w) := seaf_repo_manager_get_upload_tmp_file_offset ft w repo_id path in
  if offset <? 0 then (-1, None, w)
  else
    let block := take k (drop (Z.to_nat offset) F) in
    write_block_data_to_tmp_file ft w repo_id path block offset (offset + Z.of_nat (length block) - 1) (Z.of_nat (length F)).

(** Other requests may do anything but touch this upload. *)
Definition untouched (w w' : Uploads) : Prop :=
  current w' repo_id path = current w repo_id path /\
  forall n, current w repo_id path = Some n -> u_disk w' !! n = u_disk w !! n.

Inductive uploading (w0 : Uploads) : Uploads -> Prop :=
| up_start : uploading w0 w0
| up_send w ft k : uploading w0 w -> uploading w0 (client_step ft k w).2
| up_others w w' : uploading w0 w -> untouched w w' -> uploading w0 w'.

(** What has arrived is the beginning of the file. *)
Definition holds_prefix (w : Uploads) : Prop :=
  forall n c, current w repo_id path = Some n -> u_disk w !! n = Some c -> c `prefix_of` F.

Lemma pwrite_end c d : pwrite c (length c) d = c ++ d.
Proof.
  unfold pwrite. rewrite Nat.sub_diag. cbn. rewrite app_nil_r, take_ge by lia. f_equal.
  rewrite drop_ge by lia. apply app_nil_r.
Qed.

Lemma copy_prefix ft k c ok c' :
  c `prefix_of` F -> copy_block_to_tmp_file ft (take k (drop (length c) F)) c (Z.of_nat (length c)) = (ok, c') ->
  c' `prefix_of` F /\ (ok = true -> c' = c ++ take k (drop (length c) F)).
Proof.
  intros [t ->]. unfold copy_block_to_tmp_file. destruct (Z.ltb_spec (Z.of_nat (length c)) 0) as [Hneg|_]; [lia|].
  rewrite drop_app_length, Nat2Z.id. destruct (ft_written ft) as [m|].
  - intros [= <- <-]. split; [|done]. rewrite take_take. destruct (take (m `min` k) t) as [|x d] eqn:E; [by exists t|].
    rewrite pwrite_end, <- E. apply prefix_app. by apply prefix_take.
  - intros [= <- <-]. assert (H : (match take k t with [] => c | _ => pwrite c (length c) (take k t) end) = c ++ take k t).
    { destruct (take k t) eqn:E; [by rewrite app_nil_r|]. by rewrite pwrite_end. }
    rewrite H. split; [|done]. apply prefix_app. by apply prefix_take.
Qed.

(** The upload has arrived up to [c]. *)
Definition arrived (w : Uploads) (c : bytes) : Prop :=
  (current w repo_id path = None /\ c = []) \/ (exists n, current w repo_id path = Some n /\ u_disk w !! n = Some c).

Lemma arrived_prefix w c : arrived w c -> c `prefix_of` F -> holds_prefix w.
Proof. intros [[Hn _]|(n & Hn & Hd)] Hc n' c'; [by rewrite Hn|]. rewrite Hn. intros [= <-]. rewrite Hd. by intros [= <-]. Qed.

Lemma offset_arrived ft w off w1 :
  holds_prefix w -> seaf_repo_manager_get_upload_tmp_file_offset ft w repo_id path = (off, w1) ->
  holds_prefix w1 /\ (0 <= off -> exists c, arrived w1 c /\ c `prefix_of` F /\ off = Z.of_nat (length c)).
Proof.
  intros Hp. unfold seaf_repo_manager_get_upload_tmp_file_offset.
  destruct (seaf_repo_manager_get_upload_tmp_file ft w repo_id path) as [k|] eqn:Eg; [|intros [= <- <-]; split; [done|lia]].
  apply get_current in Eg as ->. destruct (current w repo_id path) as [n|] eqn:Ec.
  - destruct (u_disk w !! n) as [c|] eqn:Ed.
    + destruct (ft_stat ft); intros [= <- <-]; (split; [done|]); [lia|]. intros _. exists c. split_and!; [right; eauto|by eapply Hp|done].
    + intros E. destruct (Z.eq_dec off 0) as [->|Hne].
      * apply current_deleted in E as [E _]. split; [by intros ? ?; rewrite E|]. intros _. exists []. split_and!; [by left|apply prefix_nil|done].
      * unfold seaf_repo_manager_del_upload_tmp_file in E. destruct (ft_delete ft); injection E as <- <-; [|done]. split; [done|lia].
  - intros [= <- <-]. split; [done|]. intros _. exists []. split_and!; [by left|apply prefix_nil|done].
Qed.

Lemma arrived_new w n c (rows := u_rows w ++ [mkRow repo_id (with_slash path) n]) :
  current w repo_id path = None -> arrived (mkUploads rows (<[n := c]> (<[n := []]> (u_disk w)))) c.
Proof.
  intros E. right. exists n. split; [|apply lookup_insert_eq]. apply (current_added w repo_id path n) in E. exact E.
Qed.

(** A step keeps the beginning; when it completes the upload, the file is there. *)
Lemma client_step_prefix ft k w r done_file w' :
  F <> [] -> holds_prefix w -> client_step ft k w = (r, done_file, w') ->
  holds_prefix w' /\ forall n, done_file = Some n -> current w' repo_id path = Some n /\ u_disk w' !! n = Some F.
Proof.
  intros Hne Hp. unfold client_step. destruct (seaf_repo_manager_get_upload_tmp_file_offset ft w repo_id path) as [off w1] eqn:Eo.
  apply offset_arrived in Eo as [Hp1 Ha]; [|done]. destruct (Z.ltb_spec off 0) as [|Hoff]; [by intros [= <- <- <-]|].
  destruct (Ha Hoff) as (c & Harr & Hc & ->). rewrite Nat2Z.id. unfold write_block_data_to_tmp_file.
  destruct (seaf_repo_manager_get_upload_tmp_file ft w1 repo_id path) as [known|] eqn:Eg; [|by intros [= <- <- <-]].
  apply get_current in Eg as ->.
  destruct (copy_block_to_tmp_file ft (take k (drop (length c) F)) c (Z.of_nat (length c))) as [ok c'] eqn:Ecp.
  destruct (copy_prefix _ _ _ _ _ Hc Ecp) as [Hc' Hok].
  assert (Hfin : forall n w2, arrived w2 c' -> current w2 repo_id path = Some n -> u_disk w2 !! n = Some c' ->
    (if ok then (0, if Z.of_nat (length c) + Z.of_nat (length (take k (drop (length c) F))) - 1 =? Z.of_nat (length F) - 1 then Some n else None, w2)
     else (-1, None, w2)) = (r, done_file, w') ->
    holds_prefix w' /\ forall n, done_file = Some n -> current w' repo_id path = Some n /\ u_disk w' !! n = Some F).
  { intros n w2 Ha2 Hn Hd. destruct ok; intros [= <- <- <-]; (split; [by eapply arrived_prefix|]); [|done].
    intros n'. destruct (Z.eqb_spec (Z.of_nat (length c) + Z.of_nat (length (take k (drop (length c) F))) - 1) (Z.of_nat (length F) - 1)) as [El|]; [|done].
    intros [= <-]. split; [done|]. rewrite Hd. f_equal. specialize (Hok eq_refl). destruct Hc' as [t Ht].
    assert (length t = 0%nat). { apply (f_equal length) in Ht. rewrite Hok in Ht. rewrite !length_app in Ht. lia. }
    destruct t; [|done]. by rewrite app_nil_r in Ht. }
  destruct Harr as [[Hn ->]|(n & Hn & Hd)]; rewrite Hn.
  - destruct (ft_create ft); [by intros [= <- <- <-]|]. unfold seaf_repo_manager_add_upload_tmp_file.
    destruct (ft_insert ft); [by intros [= <- <- <-]|]. set (n := fresh _). cbn [u_disk u_rows]. rewrite lookup_insert_eq. cbn [default id]. rewrite Ecp. apply (Hfin n).
    + by apply arrived_new.
    + cbn. apply (current_added w1 repo_id path n) in Hn. exact Hn.
    + cbn. apply lookup_insert_eq.
  - rewrite Hd. destruct (ft_open ft); [by intros [= <- <- <-]|]. cbn [u_disk u_rows default]. rewrite Hd. cbn [default id]. rewrite Ecp. apply (Hfin n).
    + right. exists n. split; [exact Hn|]. cbn. apply lookup_insert_eq.
    + exact Hn.
    + cbn. apply lookup_insert_eq.
Qed.

Lemma uploading_prefix w0 w : F <> [] -> current w0 repo_id path = None -> uploading w0 w -> holds_prefix w.
Proof.
  intros Hne H0. induction 1 as [|w ft k _ IH|w w' _ IH [Hc Hd]].
  - by intros n c; rewrite H0.
  - destruct (client_step ft k w) as [[r d] w'] eqn:E. by apply client_step_prefix in E as [? _].
  - intros n c. rewrite Hc. intros Hn. rewrite (Hd n Hn). by apply IH.
Qed.

End client.

(** ** Examples *)

Definition calm_faults : faults := mkFaults false false false false false false false None.
Definition cut_write : faults := mkFaults false false false false false false false (Some 2%nat).
Definition no_uploads : Uploads := mkUploads [] ∅.
Definition five : bytes := lit "abcde".
(** The first block is cut after two bytes, the second one brings the rest. *)
Definition cut_state : Uploads := (client_step five "r" "/d/f" cut_write 4 no_uploads).2.

