(* ===== verification/SyncAuth.v ===== *)
(** * Tokens and cached permissions of the sync server ([server/http-server.c],
    the tables of tokens of [server/repo-mgr.c])

    A client of the sync protocol names a token; the user it belongs to and what the user
    may do are looked up in the database and kept in caches that a timer cleans. *)

From S2P Require Import Prelude Hex Paths Sql FsObj FsMgr CommitMgr Repo CfV2Acl RepoPerm.

#[local] Arguments string_take : simpl never.

Definition EVHTP_RES_OK : Z := 200.
Definition EVHTP_RES_BADREQ : Z := 400.
Definition EVHTP_RES_FORBIDDEN : Z := 403.
Definition EVHTP_RES_NOTFOUND : Z := 404.
Definition EVHTP_RES_CONFLICT : Z := 409.
Definition EVHTP_RES_SERVERR : Z := 500.
Definition SEAF_HTTP_RES_NOQUOTA : Z := 443.
Definition SEAF_HTTP_RES_REPO_DELETED : Z := 444.
Definition SEAF_HTTP_RES_REPO_CORRUPTED : Z := 445.
Definition SEAF_HTTP_RES_BLOCK_MISSING : Z := 446.

Definition CLEANING_INTERVAL_SEC : Z := 300.
Definition TOKEN_EXPIRE_TIME : Z := 7200.
Definition PERM_EXPIRE_TIME : Z := 7200.
Definition VIRINFO_EXPIRE_TIME : Z := 7200.

(** ** The tables of tokens *)

(** [RepoUserToken] and, of [RepoTokenPeerInfo], the token and the client. *)
Record TokenRow := mkToken { tr_repo_id : string; tr_email : string; tr_token : string }.
Record PeerRow := mkPeer { pr_token : string; pr_peer_id : string }.
Record TokenTables := mkTokens { t_RepoUserToken : list TokenRow; t_RepoTokenPeerInfo : list PeerRow }.

Definition seaf_repo_manager_get_email_by_token (tt : TokenTables) (fails : bool) (repo_id token : string) : option string :=
  if fails then None
  else lower ∘ tr_email <$> List.find (fun r => String.eqb (tr_repo_id r) repo_id && String.eqb (tr_token r) token)
                              (t_RepoUserToken tt).

Definition add_repo_token (tt : TokenTables) (fails : bool) (repo_id email token : string) : option TokenTables :=
  if fails then None else Some (mkTokens (t_RepoUserToken tt ++ [mkToken repo_id email token]) (t_RepoTokenPeerInfo tt)).

(** The rows that a join of the tables on the token selects. *)
Definition has_peer (tt : TokenTables) (P : string -> bool) (token : string) : bool :=
  existsb (fun p => String.eqb (pr_token p) token && P (pr_peer_id p)) (t_RepoTokenPeerInfo tt).
Definition has_token (tt : TokenTables) (P : TokenRow -> bool) (token : string) : bool :=
  existsb (fun r => String.eqb (tr_token r) token && P r) (t_RepoUserToken tt).

(** [DELETE t.*, i.* FROM RepoUserToken t, RepoTokenPeerInfo i WHERE t.token = i.token AND ...]:
    the rows of both tables that take part in the join. *)
Definition delete_joined (tt : TokenTables) (T : TokenRow -> bool) (P : string -> bool) : TokenTables :=
  mkTokens (List.filter (fun r => negb (T r && has_peer tt P (tr_token r))) (t_RepoUserToken tt))
    (List.filter (fun p => negb (P (pr_peer_id p) && has_token tt T (pr_token p))) (t_RepoTokenPeerInfo tt)).

(** ** The caches *)

Record TokenInfo := mkTokenInfo { ti_repo_id : string; ti_email : string; ti_expire_time : Z }.
Record PermInfo := mkPermInfo { pi_expire_time : Z }.
Record VirRepoInfo := mkVirInfo { vi_store_id : option string; vi_expire_time : Z }.

Record HttpServer := mkHttp {
  token_cache : gmap string TokenInfo;
  perm_cache : gmap string PermInfo;
  vir_repo_info_cache : gmap string VirRepoInfo
}.

Definition set_token_cache (h : HttpServer) (c : gmap string TokenInfo) : HttpServer :=
  mkHttp c (perm_cache h) (vir_repo_info_cache h).
Definition set_perm_cache (h : HttpServer) (c : gmap string PermInfo) : HttpServer :=
  mkHttp (token_cache h) c (vir_repo_info_cache h).
Definition set_vir_cache (h : HttpServer) (c : gmap string VirRepoInfo) : HttpServer :=
  mkHttp (token_cache h) (perm_cache h) c.

Definition seaf_http_server_invalidate_tokens (tokens : list string) (h : HttpServer) : HttpServer :=
  set_token_cache h (foldl (fun c token => delete token c) (token_cache h) tokens).

(** The tables and the caches of tokens that are deleted by their users; the result is [-1]
    when nothing is done. *)
Definition seaf_repo_manager_delete_token (fails_get fails_del : bool) (repo_id token user : string)
    (tt : TokenTables) (h : HttpServer) : Z * TokenTables * HttpServer :=
  match seaf_repo_manager_get_email_by_token tt fails_get repo_id token with
  | Some owner =>
      if strcmp user owner =? 0 then
        if fails_del then (-1, tt, h)
        else (0, delete_joined tt (fun r => String.eqb (tr_token r) token) (fun _ => true),
              seaf_http_server_invalidate_tokens [token] h)
      else (-1, tt, h)
  | None => (-1, tt, h)
  end.

(** [SELECT u.token FROM RepoUserToken u, RepoTokenPeerInfo p WHERE u.token = p.token AND ...],
    collected from the last row to the first. *)
Definition joined_tokens (tt : TokenTables) (T : TokenRow -> bool) (P : string -> bool) : list string :=
  reverse (r ← t_RepoUserToken tt; p ← t_RepoTokenPeerInfo tt;
           if T r && P (pr_peer_id p) && String.eqb (pr_token p) (tr_token r) then [tr_token r] else []).

Definition seaf_repo_manager_delete_repo_tokens_by_email (fails_get fails_del : bool) (email : string)
    (tt : TokenTables) (h : HttpServer) : Z * TokenTables * HttpServer :=
  let T := fun r => String.eqb (tr_email r) email in
  if fails_get then (-1, tt, h)
  else match joined_tokens tt T (fun _ => true) with
       | [] => (0, tt, h)
       | tokens =>
           if fails_del then (-1, tt, h)
           else (0, delete_joined tt T (fun _ => true), seaf_http_server_invalidate_tokens tokens h)
       end.

(** With MySQL; the caches are invalidated by the caller, [seafile_delete_repo_tokens_by_peer_id]. *)
Definition seaf_repo_manager_delete_repo_tokens_by_peer_id (fails_get fails_del : bool) (email peer_id : string)
    (tt : TokenTables) : option (list string) * TokenTables :=
  let T := fun r => String.eqb (tr_email r) email in
  let P := String.eqb peer_id in
  if fails_get then (None, tt)
  else match joined_tokens tt T P with
       | [] => (Some [], tt)
       | tokens => if fails_del then (None, tt) else (Some tokens, delete_joined tt T P)
       end.

Definition peer_id_ok (peer_id : string) : bool :=
  (String.length peer_id =? 40)%nat &&
  all_chars (fun c => let n := Ascii.nat_of_ascii c in ((48 <=? n) && (n <=? 57) || (97 <=? n) && (n <=? 122))%nat) peer_id.

Definition seafile_delete_repo_tokens_by_peer_id (fails_get fails_del : bool) (email peer_id : option string)
    (tt : TokenTables) (h : HttpServer) : Z * TokenTables * HttpServer :=
  match email, peer_id with
  | Some email, Some peer_id =>
      if negb (peer_id_ok peer_id) then (-1, tt, h)
      else match seaf_repo_manager_delete_repo_tokens_by_peer_id fails_get fails_del email peer_id tt with
           | (None, tables) => (-1, tables, h)
           | (Some tokens, tables) => (0, tables, seaf_http_server_invalidate_tokens tokens h)
           end
  | _, _ => (-1, tt, h)
  end.

(** ** What one request meets: the clock, the tables, the queries that fail *)

Record AuthEnv := mkAuth {
  ae_now : Z;
  ae_db : Db;
  ae_shares : Shares;
  ae_tokens : TokenTables;
  ae_acl_fails : acl_query -> bool;
  ae_perm_fails : perm_query -> bool;
  ae_token_fails : bool;
  ae_status_fails : bool;
  ae_vir_fails : bool
}.

Section auth.
Context (dbt : db_type).

(** A header of the request names the token, else the header [Authorization], after its
    first space. *)
Fixpoint after_space (s : string) : option string :=
  match s with
  | EmptyString => None
  | String c s => if Ascii.eqb c (Ascii.ascii_of_nat 32) then Some s else after_space s
  end.
Definition seaf_parse_auth_token (auth_token : option string) : option string := a ← auth_token; after_space a.

Record Request := mkReq { rq_token : option string; rq_authorization : option string }.

Definition get_auth_token (req : Request) : option string :=
  match rq_token req with Some t => Some t | None => seaf_parse_auth_token (rq_authorization req) end.

(** [validate_token] up to its last lookup: an answer, with whether the reply was sent
    already; or the user the database gives, to be cached. *)
Inductive token_step :=
| TokDone (status : Z) (replied : bool) (username : option string) (h : HttpServer)
| TokFound (token email : string).

Definition validate_token_read (e : AuthEnv) (h : HttpServer) (req : Request) (repo_id : string) (skip_cache : bool)
  : token_step :=
  if cf_v2_acl_unscoped dbt (ae_db e) (ae_acl_fails e) repo_id <? 0 then TokDone EVHTP_RES_FORBIDDEN true None h
  else match get_auth_token req with
       | None => TokDone EVHTP_RES_BADREQ true None h
       | Some token =>
           match (if skip_cache then None else token_cache h !! token) with
           | Some info =>
               if negb (strcmp (ti_repo_id info) repo_id =? 0) then TokDone EVHTP_RES_FORBIDDEN false None h
               else TokDone EVHTP_RES_OK false (Some (ti_email info)) h
           | None =>
               match seaf_repo_manager_get_email_by_token (ae_tokens e) (ae_token_fails e) repo_id token with
               | None => TokDone EVHTP_RES_FORBIDDEN false None (set_token_cache h (delete token (token_cache h)))
               | Some email => TokFound token email
               end
           end
       end.

Definition validate_token_cache (now : Z) (h : HttpServer) (repo_id token email : string) : HttpServer :=
  set_token_cache h (<[token := mkTokenInfo repo_id email (now + TOKEN_EXPIRE_TIME)]> (token_cache h)).

(** The status, whether it was sent already, the user, the caches. *)
Definition validate_token (e : AuthEnv) (h : HttpServer) (req : Request) (repo_id : string) (skip_cache : bool)
  : Z * bool * option string * HttpServer :=
  match validate_token_read e h req repo_id skip_cache with
  | TokDone status replied username h => (status, replied, username, h)
  | TokFound token email => (EVHTP_RES_OK, false, Some email, validate_token_cache (ae_now e) h repo_id token email)
  end.

Definition perm_key (repo_id username op : string) : string := repo_id +:+ ":" +:+ username +:+ ":" +:+ op.

Definition lookup_perm_cache (h : HttpServer) (repo_id username op : string) : option PermInfo :=
  perm_cache h !! perm_key repo_id username op.
Definition insert_perm_cache (h : HttpServer) (repo_id username op : string) (perm : PermInfo) : HttpServer :=
  set_perm_cache h (<[perm_key repo_id username op := perm]> (perm_cache h)).
Definition remove_perm_cache (h : HttpServer) (repo_id username op : string) : HttpServer :=
  set_perm_cache h (delete (perm_key repo_id username op) (perm_cache h)).

Definition REPO_STATUS_NORMAL : Z := 0.

(** The status of the origin, else of the library; [-1]: none. *)
Definition seaf_repo_manager_get_repo_status (e : AuthEnv) (repo_id : string) : Z :=
  if ae_status_fails e then -1
  else
    let own := match t_RepoInfo (ae_db e) !! repo_id with Some i => ri_status i | None => -1 end in
    match t_VirtualRepo (ae_db e) !! repo_id with
    | None => own
    | Some v => match t_RepoInfo (ae_db e) !! v_origin_repo_id v with
                | Some i => if 0 <=? ri_status i then ri_status i else own
                | None => own
                end
    end.

(** What the database says: [Some true], allowed.  [None]: as
    [seaf_repo_manager_check_permission]. *)
Definition permission_read (e : AuthEnv) (repo_id username op : string) : option bool :=
  let status := seaf_repo_manager_get_repo_status e repo_id in
  if (strcmp op "upload" =? 0) && negb (status =? REPO_STATUS_NORMAL) && negb (status =? -1) then Some false
  else
    perm ← seaf_repo_manager_check_permission (ae_db e) (ae_shares e) (ae_perm_fails e) repo_id username;
    Some match perm with
         | Some perm => negb ((strcmp perm "r" =? 0) && (strcmp op "upload" =? 0))
         | None => false
         end.

Definition permission_cache (now : Z) (h : HttpServer) (repo_id username op : string) : HttpServer :=
  insert_perm_cache h repo_id username op (mkPermInfo (now + PERM_EXPIRE_TIME)).

Definition check_permission (e : AuthEnv) (h : HttpServer) (repo_id username op : string) (skip_cache : bool)
  : option (Z * HttpServer) :=
  match (if skip_cache then None else lookup_perm_cache h repo_id username op) with
  | Some _ => Some (EVHTP_RES_OK, h)
  | None =>
      let h := remove_perm_cache h repo_id username op in
      allowed ← permission_read e repo_id username op;
      Some (if allowed : bool then (EVHTP_RES_OK, permission_cache (ae_now e) h repo_id username op)
            else (EVHTP_RES_FORBIDDEN, h))
  end.

(** ** The store of a library *)

Definition get_store_id_from_vir_repo_info_cache (now : Z) (h : HttpServer) (repo_id : string)
  : option string * HttpServer :=
  match vir_repo_info_cache h !! repo_id with
  | None => (None, h)
  | Some vinfo =>
      (Some (default repo_id (vi_store_id vinfo)),
       set_vir_cache h (<[repo_id := mkVirInfo (vi_store_id vinfo) (now + VIRINFO_EXPIRE_TIME)]> (vir_repo_info_cache h)))
  end.

Definition add_vir_info_to_cache (h : HttpServer) (repo_id : string) (vinfo : VirRepoInfo) : HttpServer :=
  set_vir_cache h (<[repo_id := vinfo]> (vir_repo_info_cache h)).

Definition get_repo_store_id (e : AuthEnv) (h : HttpServer) (repo_id : string) : option string * HttpServer :=
  match get_store_id_from_vir_repo_info_cache (ae_now e) h repo_id with
  | (Some store_id, h) => (Some store_id, h)
  | (None, h) =>
      if ae_vir_fails e then (None, h)
      else
        let store := v_origin_repo_id <$> t_VirtualRepo (ae_db e) !! repo_id in
        (Some (default repo_id store),
         add_vir_info_to_cache h repo_id (mkVirInfo store (ae_now e + VIRINFO_EXPIRE_TIME)))
  end.

(** ** Cleaning *)

Definition is_token_expire (now : Z) (i : TokenInfo) : bool := ti_expire_time i <=? now.
Definition is_perm_expire (now : Z) (i : PermInfo) : bool := pi_expire_time i <=? now.
Definition is_vir_repo_info_expire (now : Z) (i : VirRepoInfo) : bool := vi_expire_time i <=? now.

Definition remove_expire_cache_cb (now : Z) (h : HttpServer) : HttpServer :=
  mkHttp (filter (fun kv => is_token_expire now kv.2 = false) (token_cache h))
    (filter (fun kv => is_perm_expire now kv.2 = false) (perm_cache h))
    (filter (fun kv => is_vir_repo_info_expire now kv.2 = false) (vir_repo_info_cache h)).
End auth.

(** The URLs of the protocol name libraries without a colon, and operations are words. *)
Definition colon : Ascii.ascii := Ascii.ascii_of_nat 58.
Definition request_ok (repo_id op : string) : Prop := has_char colon repo_id = false /\ has_char colon op = false.

Lemma cut_first_colon a : forall a' t t', has_char colon a = false -> has_char colon a' = false ->
  a +:+ String colon t = a' +:+ String colon t' -> a = a' /\ t = t'.
Proof.
  induction a as [|x a IH]; intros [|x' a'] t t' H H' E; cbn [has_char] in H, H'; cbn in E; simplify_eq; try done.
  apply orb_false_iff in H as [_ H], H' as [_ H']. by destruct (IH a' t t' H H' ltac:(done)) as [-> ->].
Qed.

Lemma cut_last_colon a : forall a' t t', has_char colon t = false -> has_char colon t' = false ->
  a +:+ String colon t = a' +:+ String colon t' -> a = a' /\ t = t'.
Proof.
  assert (Hc : forall b u, has_char colon (b +:+ String colon u) = true) by (intros; by rewrite has_char_app, orb_true_r).
  induction a as [|x a IH]; intros [|x' a'] t t' H H' E; cbn in E; [by simplify_eq|..].
  - injection E as <- ->. by rewrite Hc in H.
  - injection E as -> <-. by rewrite Hc in H'.
  - injection E as <- E. by destruct (IH a' t t' H H' E) as [-> ->].
Qed.

Lemma perm_key_inj r u op r' u' op' :
  request_ok r op -> request_ok r' op' -> perm_key r u op = perm_key r' u' op' -> r = r' /\ u = u' /\ op = op'.
Proof.
  intros [H1 H2] [H3 H4] E.
  change (r +:+ String colon (u +:+ String colon op) = r' +:+ String colon (u' +:+ String colon op')) in E.
  apply cut_first_colon in E as [-> E]; [|done..]. by apply cut_last_colon in E as [-> ->].
Qed.

(** ** Requests beside each other *)

(** A thread that has read the database and not yet written the cache. *)
Inductive pend := PTok (repo_id token email : string) | PPerm (repo_id username op : string).

Record auth_state := mkAuthState { as_now : Z; as_http : HttpServer; as_pending : gmap nat pend }.

Section revocation.
Context (dbt : db_type).

(** One step of a thread, of the timer, or of the deletion of tokens, at the time and over
    the tables of [e]. *)
Inductive auth_step (e : AuthEnv) : auth_state -> auth_state -> Prop :=
| st_token_done now h p req repo_id skip status replied username h' :
    validate_token_read dbt e h req repo_id skip = TokDone status replied username h' ->
    auth_step e (mkAuthState now h p) (mkAuthState (ae_now e) h' p)
| st_token_read now h p i req repo_id skip token email :
    validate_token_read dbt e h req repo_id skip = TokFound token email -> p !! i = None ->
    auth_step e (mkAuthState now h p) (mkAuthState (ae_now e) h (<[i := PTok repo_id token email]> p))
| st_token_cache now h p i repo_id token email :
    p !! i = Some (PTok repo_id token email) ->
    auth_step e (mkAuthState now h p)
      (mkAuthState (ae_now e) (validate_token_cache (ae_now e) h repo_id token email) (delete i p))
| st_perm_read now h p i repo_id username op :
    request_ok repo_id op -> permission_read e repo_id username op = Some true -> p !! i = None ->
    auth_step e (mkAuthState now h p)
      (mkAuthState (ae_now e) (remove_perm_cache h repo_id username op) (<[i := PPerm repo_id username op]> p))
| st_perm_refused now h p repo_id username op :
    permission_read e repo_id username op <> Some true ->
    auth_step e (mkAuthState now h p) (mkAuthState (ae_now e) (remove_perm_cache h repo_id username op) p)
| st_perm_cache now h p i repo_id username op :
    p !! i = Some (PPerm repo_id username op) ->
    auth_step e (mkAuthState now h p)
      (mkAuthState (ae_now e) (permission_cache (ae_now e) h repo_id username op) (delete i p))
| st_store now h p repo_id :
    auth_step e (mkAuthState now h p) (mkAuthState (ae_now e) (get_repo_store_id e h repo_id).2 p)
| st_invalidate now h p tokens :
    auth_step e (mkAuthState now h p) (mkAuthState (ae_now e) (seaf_http_server_invalidate_tokens tokens h) p)
| st_clean now h p :
    auth_step e (mkAuthState now h p) (mkAuthState (ae_now e) (remove_expire_cache_cb (ae_now e) h) p).

(** Steps at tables with [P], the clock not going back. *)
Inductive auth_run (P : AuthEnv -> Prop) (s0 : auth_state) : auth_state -> Prop :=
| ar_start : auth_run P s0 s0
| ar_step s e s' : auth_run P s0 s -> P e -> as_now s <= ae_now e -> auth_step e s s' -> auth_run P s0 s'.

(** The cache lets the token of the library, the user with an operation, through. *)
Definition token_until (h : HttpServer) (repo_id token : string) (t : Z) : Prop :=
  forall i, token_cache h !! token = Some i -> ti_repo_id i = repo_id -> ti_expire_time i <= t.
Definition perm_until (h : HttpServer) (repo_id username op : string) (t : Z) : Prop :=
  forall i, perm_cache h !! perm_key repo_id username op = Some i -> pi_expire_time i <= t.

Definition timely (s : auth_state) : Prop :=
  (forall k i, token_cache (as_http s) !! k = Some i -> ti_expire_time i <= as_now s + TOKEN_EXPIRE_TIME) /\
  (forall k i, perm_cache (as_http s) !! k = Some i -> pi_expire_time i <= as_now s + PERM_EXPIRE_TIME).

Lemma foldl_delete_lookup {A} (l : list string) : forall (c : gmap string A) k v,
  foldl (fun c x => delete x c) c l !! k = Some v -> c !! k = Some v.
Proof.
  induction l as [|x l IH]; intros c k v; [done|]. cbn [foldl]. intros H%IH. by apply lookup_delete_Some in H as [_ ?].
Qed.

Lemma foldl_delete_None {A} (l : list string) : forall (c : gmap string A) k,
  k ∈ l \/ c !! k = None -> foldl (fun c x => delete x c) c l !! k = None.
Proof.
  induction l as [|x l IH]; intros c k H; cbn [foldl]; [by destruct H as [H%elem_of_nil|H]|].
  apply IH. destruct (decide (k = x)) as [->|Hne]; [right; apply lookup_delete_eq|].
  rewrite lookup_delete_ne by done. destruct H as [H|H]; [|by right]. apply elem_of_cons in H as [H|H]; [by subst|by left].
Qed.

(** An answer leaves the caches or forgets the token. *)
Lemma token_done_cache e h req repo_id skip status replied username h' :
  validate_token_read dbt e h req repo_id skip = TokDone status replied username h' ->
  perm_cache h' = perm_cache h /\ (h' = h \/ exists token, token_cache h' = delete token (token_cache h)).
Proof.
  unfold validate_token_read. intros E. repeat case_match; simplify_eq; (split; [done|]); first [by left|right; by eexists].
Qed.

Lemma store_caches e h repo_id :
  token_cache (get_repo_store_id e h repo_id).2 = token_cache h /\ perm_cache (get_repo_store_id e h repo_id).2 = perm_cache h.
Proof.
  unfold get_repo_store_id, get_store_id_from_vir_repo_info_cache.
  destruct (vir_repo_info_cache h !! repo_id); [done|]. by destruct (ae_vir_fails e).
Qed.

Lemma step_clock e s s' : auth_step e s s' -> as_now s' = ae_now e.
Proof. by destruct 1. Qed.

(** Where an entry of a cache comes from. *)
Lemma step_token_entry e s s' k i :
  auth_step e s s' -> token_cache (as_http s') !! k = Some i ->
  token_cache (as_http s) !! k = Some i \/
  exists n repo_id email, as_pending s !! n = Some (PTok repo_id k email) /\
    i = mkTokenInfo repo_id email (ae_now e + TOKEN_EXPIRE_TIME).
Proof.
  destruct 1 as [now h p req r skip st re u h' E|now h p n req r skip tok em E Hn|now h p n r tok em Hn|now h p n r u op Hr E Hn
    |now h p r u op E|now h p n r u op Hn|now h p r|now h p toks|now h p]; cbn [as_http as_pending]; intros Hk; try (by left).
  - left. apply token_done_cache in E as [_ [->|[t Ht]]]; [done|]. rewrite Ht in Hk. by apply lookup_delete_Some in Hk as [_ ?].
  - cbn in Hk. apply lookup_insert_Some in Hk as [[-> <-]|[_ Hk]]; [|by left]. right. by exists n, r, em.
  - left. by rewrite (proj1 (store_caches e h r)) in Hk.
  - left. by apply foldl_delete_lookup in Hk.
  - left. cbn in Hk. by apply map_lookup_filter_Some in Hk as [? _].
Qed.

Lemma step_perm_entry e s s' k i :
  auth_step e s s' -> perm_cache (as_http s') !! k = Some i ->
  perm_cache (as_http s) !! k = Some i \/
  exists n repo_id username op, as_pending s !! n = Some (PPerm repo_id username op) /\ k = perm_key repo_id username op /\
    i = mkPermInfo (ae_now e + PERM_EXPIRE_TIME).
Proof.
  destruct 1 as [now h p req r skip st re u h' E|now h p n req r skip tok em E Hn|now h p n r tok em Hn|now h p n r u op Hr E Hn
    |now h p r u op E|now h p n r u op Hn|now h p r|now h p toks|now h p]; cbn [as_http as_pending]; intros Hk; try (by left).
  - left. apply token_done_cache in E as [E _]. by rewrite E in Hk.
  - left. cbn in Hk. by apply lookup_delete_Some in Hk as [_ ?].
  - left. cbn in Hk. by apply lookup_delete_Some in Hk as [_ ?].
  - cbn in Hk. apply lookup_insert_Some in Hk as [[<- <-]|[_ Hk]]; [|by left]. right. by exists n, r, u, op.
  - left. by rewrite (proj2 (store_caches e h r)) in Hk.
  - left. cbn in Hk. by apply map_lookup_filter_Some in Hk as [? _].
Qed.

(** A thread reads what the tables say. *)
Lemma step_pending e s s' n q :
  auth_step e s s' -> as_pending s' !! n = Some q ->
  as_pending s !! n = Some q \/
  match q with
  | PTok repo_id token email => seaf_repo_manager_get_email_by_token (ae_tokens e) (ae_token_fails e) repo_id token = Some email
  | PPerm repo_id username op => request_ok repo_id op /\ permission_read e repo_id username op = Some true
  end.
Proof.
  destruct 1 as [now h p req r skip st re u h' E|now h p m req r skip tok em E Hm|now h p m r tok em Hm|now h p m r u op Hr E Hm
    |now h p r u op E|now h p m r u op Hm|now h p r|now h p toks|now h p]; cbn [as_pending]; intros Hn; try (by left).
  - apply lookup_insert_Some in Hn as [[<- <-]|[_ Hn]]; [|by left]. right. revert E. unfold validate_token_read.
    repeat case_match; intros; by simplify_eq.
  - left. by apply lookup_delete_Some in Hn as [_ ?].
  - apply lookup_insert_Some in Hn as [[<- <-]|[_ Hn]]; [by right|by left].
  - left. by apply lookup_delete_Some in Hn as [_ ?].
Qed.
Lemma run_clock P s0 s : auth_run P s0 s -> as_now s0 <= as_now s.
Proof. induction 1 as [|s e s' _ IH _ Ht Hs]; [lia|]. rewrite (step_clock _ _ _ Hs). lia. Qed.

(** No entry is kept longer than the time of the caches, and requests that wait are sound. *)
Lemma run_timely P s0 s :
  auth_run P s0 s -> timely s0 -> timely s.
Proof.
  induction 1 as [|s e s' _ IH _ Ht Hs]; [done|]. intros [H1 H2]%IH. split; intros k i Hk; rewrite (step_clock _ _ _ Hs).
  - apply (step_token_entry _ _ _ _ _ Hs) in Hk as [Hk|(n & r & em & _ & ->)]; [apply H1 in Hk; lia|done].
  - apply (step_perm_entry _ _ _ _ _ Hs) in Hk as [Hk|(n & r & u & op & _ & _ & ->)]; [apply H2 in Hk; lia|done].
Qed.

Definition waiting_ok (s : auth_state) : Prop :=
  forall n r u op, as_pending s !! n = Some (PPerm r u op) -> request_ok r op.

Lemma run_waiting_ok P s0 s : auth_run P s0 s -> waiting_ok s0 -> waiting_ok s.
Proof.
  induction 1 as [|s e s' _ IH _ _ Hs]; [done|]. intros H%IH n r u op Hn.
  apply (step_pending _ _ _ _ _ Hs) in Hn as [Hn|[? _]]; [by eapply H|done].
Qed.

Section token.
Context (P : AuthEnv -> Prop) (repo_id token : string).
Context (Hgone : forall e, P e -> seaf_repo_manager_get_email_by_token (ae_tokens e) (ae_token_fails e) repo_id token = None).

(** No thread is about to cache the token for the library, and the cache holds it for
    at most [t]. *)
Definition token_ends (t : option Z) (s : auth_state) : Prop :=
  (forall n em, as_pending s !! n <> Some (PTok repo_id token em)) /\
  forall i, token_cache (as_http s) !! token = Some i -> ti_repo_id i = repo_id ->
    match t with Some t => ti_expire_time i <= t | None => False end.

Lemma run_token_ends t s0 s : auth_run P s0 s -> token_ends t s0 -> token_ends t s.
Proof.
  induction 1 as [|s e s' _ IH HP _ Hs]; [done|]. intros [Hp Hc]%IH. split.
  - intros n em Hn. apply (step_pending _ _ _ _ _ Hs) in Hn as [Hn|Hn]; [by eapply Hp|]. by rewrite Hgone in Hn.
  - intros i Hi Hr. apply (step_token_entry _ _ _ _ _ Hs) in Hi as [Hi|(n & r & em & Hn & ->)]; [by apply Hc|].
    cbn in Hr. subst r. by apply Hp in Hn.
Qed.

Lemma token_refused e h req skip :
  P e -> get_auth_token req = Some token ->
  (forall i, token_cache h !! token = Some i -> ti_repo_id i = repo_id -> False) ->
  (validate_token dbt e h req repo_id skip).1.1.1 <> EVHTP_RES_OK.
Proof.
  intros HP Ht Hc. unfold validate_token, validate_token_read. destruct (_ <? 0); [done|]. rewrite Ht.
  destruct (if skip then None else _) as [i|] eqn:E; [|by rewrite (Hgone e HP)].
  destruct skip; [done|]. destruct (strcmp (ti_repo_id i) repo_id =? 0) eqn:Es; cbn [negb]; [|done].
  apply Z.eqb_eq, strcmp_eq in Es. exfalso. by eapply Hc.
Qed.
End token.

Section permission.
Context (P : AuthEnv -> Prop) (repo_id username op : string) (Hok : request_ok repo_id op).
Context (Hgone : forall e, P e -> permission_read e repo_id username op <> Some true).

Definition perm_ends (t : option Z) (s : auth_state) : Prop :=
  (forall n, as_pending s !! n <> Some (PPerm repo_id username op)) /\
  forall i, perm_cache (as_http s) !! perm_key repo_id username op = Some i ->
    match t with Some t => pi_expire_time i <= t | None => False end.

Lemma run_perm_ends t s0 s : auth_run P s0 s -> waiting_ok s0 -> perm_ends t s0 -> perm_ends t s.
Proof.
  intros Hrun Hw H0. induction Hrun as [|s e s' Hrun IH HP _ Hs]; [done|]. destruct IH as [Hp Hc]. split.
  - intros n Hn. apply (step_pending _ _ _ _ _ Hs) in Hn as [Hn|[_ Hn]]; [by eapply Hp|]. by apply Hgone in Hn.
  - intros i Hi. apply (step_perm_entry _ _ _ _ _ Hs) in Hi as [Hi|(n & r & u & o & Hn & Hk & ->)]; [by apply Hc|].
    pose proof (run_waiting_ok _ _ _ Hrun Hw _ _ _ _ Hn) as Hr.
    apply perm_key_inj in Hk as (-> & -> & ->); [|done..]. by apply Hp in Hn.
Qed.

Lemma perm_refused e h skip st h' :
  P e -> perm_cache h !! perm_key repo_id username op = None ->
  check_permission e h repo_id username op skip = Some (st, h') -> st = EVHTP_RES_FORBIDDEN.
Proof.
  intros HP Hc. unfold check_permission, lookup_perm_cache.
  assert ((if skip then None else perm_cache h !! perm_key repo_id username op) = None) as -> by by destruct skip.
  destruct (permission_read e repo_id username op) as [[]|] eqn:E; cbn; intros H; [by apply Hgone in E|by simplify_eq|done].
Qed.
End permission.

(** C20: Access that was taken away ends: once the tables no longer know the token of a
    library, or no longer give the user the permission, and the threads that read them
    before have finished, the first cleaning at least two hours later (the timer cleans
    every five minutes) leaves nothing in the caches that would let the token or the user
    through, and nothing brings it back, whatever other requests run meanwhile.  Tokens that
    are invalidated are refused at once. *)
Theorem revoked_access_ends P t0 s0 s1 e s2 s3 :
  auth_run (fun _ => True) (mkAuthState t0 (mkHttp ∅ ∅ ∅) ∅) s0 ->
  auth_run P s0 s1 -> P e -> as_now s1 <= ae_now e -> as_now s0 + 7200 <= ae_now e ->
  s2 = mkAuthState (ae_now e) (remove_expire_cache_cb (ae_now e) (as_http s1)) (as_pending s1) ->
  auth_run P s2 s3 ->
  (forall repo_id token,
     (forall e, P e -> seaf_repo_manager_get_email_by_token (ae_tokens e) (ae_token_fails e) repo_id token = None) ->
     (forall n em, as_pending s0 !! n <> Some (PTok repo_id token em)) ->
     forall s e req skip, P e -> get_auth_token req = Some token ->
       s = s3 \/ (exists tokens, token ∈ tokens /\
         auth_run P (mkAuthState (as_now s0) (seaf_http_server_invalidate_tokens tokens (as_http s0)) (as_pending s0)) s) ->
       (validate_token dbt e (as_http s) req repo_id skip).1.1.1 <> EVHTP_RES_OK) /\
  (forall repo_id username op, request_ok repo_id op ->
     (forall e, P e -> permission_read e repo_id username op <> Some true) ->
     (forall n, as_pending s0 !! n <> Some (PPerm repo_id username op)) ->
     forall e skip st h, P e -> check_permission e (as_http s3) repo_id username op skip = Some (st, h) ->
       st = EVHTP_RES_FORBIDDEN).
Proof.
  intros H0 H1 HPe Ht1 Ht0 -> H3.
  assert (Hti : timely s0) by (eapply run_timely; [exact H0|]; split; intros k i; cbn; by rewrite lookup_empty).
  assert (Hw : waiting_ok s0) by (eapply run_waiting_ok; [exact H0|]; intros n r u op; cbn; by rewrite lookup_empty).
  split.
  - intros repo_id token Hgone Hp s e' req skip HP' Hreq Hs. eapply token_refused; [done..|].
    destruct Hs as [->|(tokens & Hin & Hrun)].
    + assert (Hm : token_ends repo_id token None
        (mkAuthState (ae_now e) (remove_expire_cache_cb (ae_now e) (as_http s1)) (as_pending s1))).
      { destruct (run_token_ends P repo_id token Hgone (Some (as_now s0 + TOKEN_EXPIRE_TIME)) s0 s1 H1) as [Hp1 Hc1].
        - split; [done|]. intros i Hi _. by apply Hti in Hi.
        - split; [done|]. cbn. intros i Hi Hr. apply map_lookup_filter_Some in Hi as [Hi Hx]. apply Hc1 in Hi; [|done].
          unfold is_token_expire in Hx. cbn in Hx. unfold TOKEN_EXPIRE_TIME in Hi. lia. }
      apply (run_token_ends P repo_id token Hgone None _ _ H3 Hm).
    + apply (run_token_ends P repo_id token Hgone None) in Hrun as [_ Hc]; [exact Hc|].
      split; [done|]. cbn. intros i. by rewrite foldl_delete_None by by left.
  - intros repo_id username op Hok Hgone Hp e' skip st h HP'. eapply perm_refused; [done..|].
    assert (Hm : perm_ends repo_id username op None
      (mkAuthState (ae_now e) (remove_expire_cache_cb (ae_now e) (as_http s1)) (as_pending s1))).
    { destruct (run_perm_ends P repo_id username op Hok Hgone (Some (as_now s0 + PERM_EXPIRE_TIME)) s0 s1 H1 Hw) as [Hp1 Hc1].
      - split; [done|]. intros i Hi. by apply Hti in Hi.
      - split; [done|]. cbn. intros i Hi. apply map_lookup_filter_Some in Hi as [Hi Hx]. apply Hc1 in Hi.
        unfold is_perm_expire in Hx. cbn in Hx. unfold PERM_EXPIRE_TIME in Hi. lia. }
    apply (run_perm_ends P repo_id username op Hok Hgone None _ _ H3) in Hm as [_ Hc].
    + destruct (perm_cache (as_http s3) !! perm_key repo_id username op) as [i|] eqn:E; [by destruct (Hc i)|done].
    + by apply (run_waiting_ok _ _ _ H1).
Qed.
End revocation.

(** ** Examples *)

Definition no_tables : Db := mkDb ∅ ∅ ∅ ∅ ∅ ∅ None.
Definition no_shares : Shares := mkShares ∅ [] [] ∅ (fun _ => []) (fun _ => false) false.
Definition auth_env (now : Z) (rows : list TokenRow) : AuthEnv :=
  mkAuth now no_tables no_shares (mkTokens rows []) (fun _ => false) (fun _ => false) false false false.
Definition a_token : TokenRow := mkToken "r" "u" "t".
Definition a_request : Request := mkReq (Some "t") None.
Definition cached_state : auth_state :=
  mkAuthState 0 (validate_token_cache 0 (mkHttp ∅ ∅ ∅) "r" "t" "u") ∅.

Definition read_state : auth_state := mkAuthState 0 (mkHttp ∅ ∅ ∅) (<[7%nat := PTok "r" "t" "u"]> ∅).

Lemma cached_state_reached :
  auth_run SEAF_DB_TYPE_MYSQL (fun _ => True) (mkAuthState 0 (mkHttp ∅ ∅ ∅) ∅) cached_state.
Proof.
  apply (ar_step _ _ _ read_state (auth_env 0 [a_token])); [|done|done|].
  - apply (ar_step _ _ _ (mkAuthState 0 (mkHttp ∅ ∅ ∅) ∅) (auth_env 0 [a_token])); [apply ar_start|done|done|].
    by apply (st_token_read SEAF_DB_TYPE_MYSQL (auth_env 0 [a_token]) 0 (mkHttp ∅ ∅ ∅) ∅ 7 a_request "r" false "t" "u").
  - by apply (st_token_cache SEAF_DB_TYPE_MYSQL (auth_env 0 [a_token]) 0 (mkHttp ∅ ∅ ∅) (as_pending read_state) 7 "r" "t" "u").
Qed.

Lemma revoked_access_ends_witness :
  (validate_token SEAF_DB_TYPE_MYSQL (auth_env 7199 []) (as_http cached_state) a_request "r" false).1.1.1 = EVHTP_RES_OK /\
  (validate_token SEAF_DB_TYPE_MYSQL (auth_env 7200 [])
     (remove_expire_cache_cb 7200 (as_http cached_state)) a_request "r" false).1.1.1 <> EVHTP_RES_OK.
Proof.
  split; [vm_compute; reflexivity|].
  destruct (revoked_access_ends SEAF_DB_TYPE_MYSQL (fun e => exists now, e = auth_env now []) 0 cached_state cached_state
    (auth_env 7200 []) _ _ cached_state_reached (ar_start _ _ _) (ex_intro _ 7200 eq_refl) ltac:(done) ltac:(done) eq_refl
    (ar_start _ _ _)) as [H _].
  refine (H "r" "t" _ _ _ (auth_env 7200 []) a_request false (ex_intro _ 7200 eq_refl) eq_refl (or_introl eq_refl)).
  - intros e [now ->]. reflexivity.
  - intros n em. cbn. by rewrite lookup_empty.
Defined.

(** A token that has no row in [RepoTokenPeerInfo], because its client has not said its name,
    is not deleted: the join is empty, the deletion reports success, and the token still lets
    its user through. *)
Lemma token_without_peer_kept :
  let tt := mkTokens [a_token] [] in
  (seaf_repo_manager_delete_token false false "r" "t" "u" tt (mkHttp ∅ ∅ ∅)).1 = (0, tt) /\
  (seaf_repo_manager_delete_repo_tokens_by_email false false "u" tt (mkHttp ∅ ∅ ∅)).1 = (0, tt).
Proof. split; reflexivity. Qed.

(** With one, it is. *)
Lemma token_with_peer_deleted :
  let tt := mkTokens [a_token] [mkPeer "t" "p"] in
  (seaf_repo_manager_delete_token false false "r" "t" "u" tt (mkHttp ∅ ∅ ∅)).1 = (0, mkTokens [] []) /\
  (seaf_repo_manager_delete_repo_tokens_by_email false false "u" tt (mkHttp ∅ ∅ ∅)).1 = (0, mkTokens [] []).
Proof. split; reflexivity. Qed.

(** A thread that has read the token before it is deleted and invalidated puts it into the
    cache afterwards: the deleted token lets its user through for two more hours. *)
Lemma deleted_token_cached_again :
  exists s1 s2 s3,
    auth_step SEAF_DB_TYPE_MYSQL (auth_env 0 [a_token]) (mkAuthState 0 (mkHttp ∅ ∅ ∅) ∅) s1 /\
    auth_step SEAF_DB_TYPE_MYSQL (auth_env 0 []) s1 s2 /\
    as_http s2 = seaf_http_server_invalidate_tokens ["t"] (as_http s1) /\
    auth_step SEAF_DB_TYPE_MYSQL (auth_env 0 []) s2 s3 /\
    (validate_token SEAF_DB_TYPE_MYSQL (auth_env 7199 []) (as_http s3) a_request "r" false).1.1.1 = EVHTP_RES_OK.
Proof.
  exists read_state.
  exists (mkAuthState 0 (seaf_http_server_invalidate_tokens ["t"] (mkHttp ∅ ∅ ∅)) (<[7%nat := PTok "r" "t" "u"]> ∅)).
  eexists. split; [by apply (st_token_read _ (auth_env 0 [a_token]) 0 (mkHttp ∅ ∅ ∅) ∅ 7 a_request "r" false "t" "u")|].
  split; [apply (st_invalidate _ (auth_env 0 []))|]. split; [done|].
  split; [by apply (st_token_cache _ (auth_env 0 []) 0 _ _ 7 "r" "t" "u")|]. vm_compute. reflexivity.
Qed.
