(* ===== verification/Quota.v ===== *)
(** * Quotas ([server/quota-mgr.c])

    The quota of a user or an organisation, what its libraries use, and the test that an
    operation which adds [delta] bytes is within the quota. *)

From S2P Require Import Prelude Paths FsObj CommitMgr Repo RepoPerm Multipart.
From Stdlib Require Import Ascii.

Definition KB : Z := 1000.
Definition MB : Z := 1000000.
Definition GB : Z := 1000000000.
Definition TB : Z := 1000000000000.
Definition INFINITE_QUOTA : Z := -2.

(** The tables: the sizes of libraries, the quotas, the libraries of organisations with
    their owners, the shares with the user they come from; and the members of a group. *)
Record QuotaTables := mkQuotas {
  t_RepoSize : gmap string Z;
  t_UserQuota : gmap string Z;
  t_OrgQuota : gmap Z Z;
  t_OrgUserQuota : gmap (Z * string) Z;
  t_OrgRepo : list (Z * string * string);
  t_SharedFrom : list (string * string * string);
  t_GroupOf : list (string * Z);
  group_members : Z -> list string
}.

Inductive quota_query := QqUser | QqOrg | QqOrgUser | QqUsage | QqSize | QqShared | QqGroups | QqRepos.

Section quota.
Context (db : Db) (sh : Shares) (q : QuotaTables) (pfails : perm_query -> bool) (fails : quota_query -> bool).
(** The string of the configuration. *)
Context (quota_config : option string).

(** A number that has no unit is in GB; [strtoll] saturates. *)
Definition unit_of (rest : string) : option Z :=
  if (RepoPerm.strcasecmp rest "kb" =? 0) || (RepoPerm.strcasecmp rest "k" =? 0) then Some KB
  else if (RepoPerm.strcasecmp rest "mb" =? 0) || (RepoPerm.strcasecmp rest "m" =? 0) then Some MB
  else if (RepoPerm.strcasecmp rest "gb" =? 0) || (RepoPerm.strcasecmp rest "g" =? 0) then Some GB
  else if (RepoPerm.strcasecmp rest "tb" =? 0) || (RepoPerm.strcasecmp rest "t" =? 0) then Some TB
  else None.

Definition get_default_quota : Z :=
  match quota_config with
  | None => INFINITE_QUOTA
  | Some quota_str =>
      let '(quota_int, rest) := strtoll (lit quota_str) in
      if (quota_int =? - 2 ^ 63) || (quota_int =? 2 ^ 63 - 1) then INFINITE_QUOTA
      else match rest with
           | [] => s64 (quota_int * GB)
           | _ => match unit_of (String.string_of_list_ascii rest) with
                  | Some multiplier => s64 (quota_int * multiplier)
                  | None => INFINITE_QUOTA
                  end
           end
  end.

(** [seaf_db_statement_get_int64]: [-1] without a row, when the query fails or the number
    does not fit. *)
Definition get_int64 (failed : bool) (row : option Z) : Z :=
  if failed then -1 else match row with None => -1 | Some z => if (- 2 ^ 63 <=? z) && (z <? 2 ^ 63) then z else -1 end.

Definition seaf_quota_manager_get_user_quota (user : string) : Z :=
  let quota := get_int64 (fails QqUser) (t_UserQuota q !! user) in if quota <=? 0 then get_default_quota else quota.

Definition seaf_quota_manager_get_org_quota (org_id : Z) : Z :=
  let quota := get_int64 (fails QqOrg) (t_OrgQuota q !! org_id) in if quota <=? 0 then get_default_quota else quota.

Definition seaf_quota_manager_get_org_user_quota (org_id : Z) (user : string) : Z :=
  let quota := get_int64 (fails QqOrgUser) (t_OrgUserQuota q !! (org_id, user)) in
  if quota <=? 0 then seaf_quota_manager_get_org_quota org_id else quota.

(** [SUM]; it is NULL, read as 0, over no rows. *)
Definition sum_of (sizes : list Z) : Z := foldr Z.add 0 sizes.

(** The libraries of a user that are not virtual and have a size. *)
Definition owned_sizes (user : string) : list Z :=
  omap (fun '(repo_id, owner) =>
          if String.eqb owner user then
            match t_VirtualRepo db !! repo_id with None => t_RepoSize q !! repo_id | Some _ => None end
          else None) (map_to_list (t_RepoOwner sh)).

Definition seaf_quota_manager_get_user_usage (user : string) : Z := get_int64 (fails QqUsage) (Some (sum_of (owned_sizes user))).

Definition org_sizes (P : Z * string * string -> bool) : list Z :=
  omap (fun row => if P row then t_RepoSize q !! row.1.2 else None) (t_OrgRepo q).

Definition seaf_quota_manager_get_org_usage (org_id : Z) : Z :=
  get_int64 (fails QqUsage) (Some (sum_of (org_sizes (fun row => row.1.1 =? org_id)))).

Definition seaf_quota_manager_get_org_user_usage (org_id : Z) (user : string) : Z :=
  get_int64 (fails QqUsage) (Some (sum_of (org_sizes (fun row => (row.1.1 =? org_id) && String.eqb row.2 user)))).

(** [g_strrstr (user, "dtable@seafile") != NULL] *)
Definition is_dtable (user : string) : bool := contains (lit "dtable@seafile") (lit user).

(** 0: within the quota, 1: not, -1: an error. *)
Definition seaf_quota_manager_check_quota_with_delta (repo_id : string) (delta : Z) : Z :=
  let r_repo_id := match t_VirtualRepo db !! repo_id with Some vinfo => v_origin_repo_id vinfo | None => repo_id end in
  match seaf_repo_manager_get_repo_owner sh pfails r_repo_id with
  | None => -1
  | Some user =>
      if is_dtable user then 0
      else
        let quota := seaf_quota_manager_get_user_quota user in
        if quota =? INFINITE_QUOTA then 0
        else
          let usage := seaf_quota_manager_get_user_usage user in
          if usage <? 0 then -1
          else
            let usage := if negb (delta =? 0) then s64 (usage + delta) else usage in
            if quota <=? usage then 1 else 0
  end.

Definition seaf_quota_manager_check_quota (repo_id : string) : Z :=
  let ret := seaf_quota_manager_check_quota_with_delta repo_id 0 in if ret =? 1 then -1 else ret.

(** ** The usage of shares *)

(** The users a library is shared to, by themselves or in a group, each counted once, the
    owner not; [-1]: a group whose members cannot be read. *)
Definition get_num_shared_to (user repo_id : string) : Z :=
  let personal := if fails QqShared then []
                  else omap (fun row => if String.eqb row.1.1 repo_id && String.eqb row.1.2 user then Some row.2 else None)
                         (t_SharedFrom q) in
  let groups := if fails QqGroups then [] else omap (fun row => if String.eqb row.1 repo_id then Some row.2 else None) (t_GroupOf q) in
  if existsb (fun g => match group_members q g with [] => true | _ => false end) groups then -1
  else Z.of_nat (size ((list_to_set (personal ++ (groups ≫= group_members q)) : gset string) ∖ {[user]})).

Definition seaf_repo_manager_get_repo_size (repo_id : string) : Z :=
  if fails QqSize then -1 else default 0 (t_RepoSize q !! repo_id).

Definition seaf_repo_manager_get_repo_ids_by_owner (email : string) : list string :=
  if fails QqRepos then []
  else omap (fun '(repo_id, owner) => if String.eqb owner email then Some repo_id else None) (map_to_list (t_RepoOwner sh)).

Definition repo_share_usage (user repo_id : string) : Z :=
  let n_shared_to := get_num_shared_to user repo_id in
  if n_shared_to <? 0 then -1
  else if n_shared_to =? 0 then 0
  else
    let size := seaf_repo_manager_get_repo_size repo_id in
    if size <? 0 then -1 else s64 (size * n_shared_to).

Definition seaf_quota_manager_get_user_share_usage (user : string) : Z :=
  (fix go (total : Z) (repos : list string) : Z :=
     match repos with
     | [] => total
     | repo_id :: repos =>
         let per_repo := repo_share_usage user repo_id in
         if per_repo <? 0 then -1 else go (s64 (total + per_repo)) repos
     end) 0 (seaf_repo_manager_get_repo_ids_by_owner user).

(** ** What the test says *)

(** The library an operation counts for. *)
Definition counted_repo (repo_id : string) : string :=
  match t_VirtualRepo db !! repo_id with Some vinfo => v_origin_repo_id vinfo | None => repo_id end.

(** C25: As long as what is used and what is added stay below 2^63 together, the test of a
    quota is exact: an operation is let through exactly when its owner has no limit, or the
    sizes of the libraries of the owner, virtual ones not counted, and the added bytes stay
    below the limit; a virtual library counts for its origin. *)
Theorem quota_check_exact repo_id delta user :
  seaf_repo_manager_get_repo_owner sh pfails (counted_repo repo_id) = Some user -> is_dtable user = false ->
  fails QqUsage = false ->
  0 <= sum_of (owned_sizes user) < 2 ^ 63 -> - 2 ^ 63 <= sum_of (owned_sizes user) + delta < 2 ^ 63 ->
  let quota := seaf_quota_manager_get_user_quota user in
  seaf_quota_manager_check_quota_with_delta repo_id delta =
    (if bool_decide (quota = INFINITE_QUOTA \/ sum_of (owned_sizes user) + delta < quota) then 0 else 1).
Proof.
  intros Ho Hd Hf Hu Ha quota. unfold seaf_quota_manager_check_quota_with_delta. fold (counted_repo repo_id).
  rewrite Ho, Hd. fold quota. destruct (Z.eqb_spec quota INFINITE_QUOTA) as [Hq|Hq]; [by rewrite bool_decide_true by by left|].
  assert (Hus : seaf_quota_manager_get_user_usage user = sum_of (owned_sizes user)).
  { unfold seaf_quota_manager_get_user_usage, get_int64. rewrite Hf.
    destruct (Z.leb_spec (- 2 ^ 63) (sum_of (owned_sizes user))); [|lia].
    destruct (Z.ltb_spec (sum_of (owned_sizes user)) (2 ^ 63)); [done|lia]. }
  rewrite Hus. destruct (Z.ltb_spec (sum_of (owned_sizes user)) 0); [lia|].
  assert (Hs : (if negb (delta =? 0) then s64 (sum_of (owned_sizes user) + delta) else sum_of (owned_sizes user))
    = sum_of (owned_sizes user) + delta).
  { destruct (Z.eqb_spec delta 0) as [->|]; cbn [negb]; [lia|]. apply s64_id. lia. }
  rewrite Hs. destruct (Z.leb_spec quota (sum_of (owned_sizes user) + delta)).
  - rewrite bool_decide_false; [done|]. intros [?|?]; [done|lia].
  - by rewrite bool_decide_true by (right; lia).
Qed.
End quota.

(** ** Changing quotas *)

(** [REPLACE INTO], or a test and an update or insertion; [None]: a statement failed. *)
Definition seaf_quota_manager_set_user_quota (fails : bool) (q : QuotaTables) (user : string) (quota : Z) : option QuotaTables :=
  if fails then None
  else Some (mkQuotas (t_RepoSize q) (<[user := quota]> (t_UserQuota q)) (t_OrgQuota q) (t_OrgUserQuota q) (t_OrgRepo q)
               (t_SharedFrom q) (t_GroupOf q) (group_members q)).
Definition seaf_quota_manager_set_org_quota (fails : bool) (q : QuotaTables) (org_id quota : Z) : option QuotaTables :=
  if fails then None
  else Some (mkQuotas (t_RepoSize q) (t_UserQuota q) (<[org_id := quota]> (t_OrgQuota q)) (t_OrgUserQuota q) (t_OrgRepo q)
               (t_SharedFrom q) (t_GroupOf q) (group_members q)).
Definition seaf_quota_manager_set_org_user_quota (fails : bool) (q : QuotaTables) (org_id : Z) (user : string) (quota : Z)
  : option QuotaTables :=
  if fails then None
  else Some (mkQuotas (t_RepoSize q) (t_UserQuota q) (t_OrgQuota q) (<[(org_id, user) := quota]> (t_OrgUserQuota q))
               (t_OrgRepo q) (t_SharedFrom q) (t_GroupOf q) (group_members q)).

(** ** Examples *)

Definition quota_shares : Shares := mkShares {["r" := "u"]} [] [] ∅ (fun _ => []) (fun _ => false) false.
Definition quota_db : Db := mkDb ∅ ∅ ∅ ∅ ∅ ∅ None.
Definition quota_tables : QuotaTables := mkQuotas {["r" := 90]} {["u" := 100]} ∅ ∅ [] [] [] (fun _ => []).
Abbreviation check_now :=
  (seaf_quota_manager_check_quota_with_delta quota_db quota_shares quota_tables (fun _ => false) (fun _ => false) None).

Lemma quota_check_exact_witness : check_now "r" 9 = 0 /\ check_now "r" 10 = 1.
Proof.
  split.
  - refine (quota_check_exact quota_db quota_shares quota_tables (fun _ => false) (fun _ => false) None "r" 9 "u" _ _ _ _ _);
      vm_compute; repeat split; discriminate.
  - refine (quota_check_exact quota_db quota_shares quota_tables (fun _ => false) (fun _ => false) None "r" 10 "u" _ _ _ _ _);
      vm_compute; repeat split; discriminate.
Defined.

(** The sum overflows for a size that only a [Content-Range] or a [delta] of the request
    claims: it becomes negative and is within every quota. *)
Lemma quota_overflow_passes : check_now "r" (2 ^ 63 - 1) = 0 /\ check_now "r" 11 = 1.
Proof. split; vm_compute; reflexivity. Qed.

(** The default quota is computed in 64 bits: ten million terabytes become a negative
    number, below which nobody is. *)
Lemma default_quota_overflow : get_default_quota (Some "10000000tb") = - 8446744073709551616.
Proof. vm_compute. reflexivity. Qed.
Lemma default_quota_units :
  get_default_quota (Some "2") = 2 * GB /\ get_default_quota (Some "500MB") = 500 * MB /\
  get_default_quota (Some "1x") = INFINITE_QUOTA /\ get_default_quota None = INFINITE_QUOTA.
Proof. repeat split; vm_compute; reflexivity. Qed.

(** An empty group is taken for one that cannot be read. *)
Lemma empty_group_fails_usage :
  let q := mkQuotas {["r" := 90]} ∅ ∅ ∅ [] [] [("r", 7)] (fun _ => []) in
  seaf_quota_manager_get_user_share_usage quota_shares q (fun _ => false) "u" = -1.
Proof. vm_compute. reflexivity. Qed.
