(* ===== verification/SyncTree.v ===== *)
(** * Trees of the sync protocol ([server/http-server.c])

    A client that downloads asks which objects of the head of the library it does not have;
    before the head of the library is moved to an uploaded commit, the server tests that the
    blocks of its new files have arrived.  Both walk two trees with [diff_trees].  The trees
    come from clients: nothing is assumed about the order of their entries. *)

From S2P Require Import Prelude Hex FsObj Paths FsMgr Walk Diff CommitMgr Repo Publish PublishProof.

(** ** Which objects a client has to fetch *)

Definition collect_file_ids (basedir : string) (files : list (option SeafDirent)) (ret : list string) : Z * list string :=
  match files with
  | Some file1 :: file2 :: _ =>
      if match file2 with Some file2 => negb (strcmp (d_id file1) (d_id file2) =? 0) | None => true end
         && negb (strcmp (d_id file1) EMPTY_SHA1 =? 0)
      then (0, d_id file1 :: ret) else (0, ret)
  | _ => (0, ret)
  end.

Definition collect_file_ids_nop (basedir : string) (files : list (option SeafDirent)) (ret : list string) : Z * list string :=
  (0, ret).

Definition collect_dir_ids (basedir : string) (dirs : list (option SeafDirent)) (ret : list string)
  : Z * bool * list string :=
  match dirs with
  | Some dir1 :: dir2 :: _ =>
      if match dir2 with Some dir2 => negb (strcmp (d_id dir1) (d_id dir2) =? 0) | None => true end
         && negb (strcmp (d_id dir1) EMPTY_SHA1 =? 0)
      then (0, true, d_id dir1 :: ret) else (0, true, ret)
  | _ => (0, true, ret)
  end.

Section trees.
Context (st : fs_store) (fuel : nat).

(** The outer [option]: the walk ran out of fuel; the inner one: an error. *)
Definition calculate_send_object_list (cs : commit_store) (repo : SeafRepo) (server_head : string)
    (client_head : option string) (dir_only : bool) : option (option (list string)) :=
  match seaf_commit_manager_get_commit cs server_head with
  | None => Some None
  | Some master_head =>
      match (match client_head with
             | Some client_head => root_id <$> seaf_commit_manager_get_commit cs client_head
             | None => Some EMPTY_SHA1
             end) with
      | None => Some None
      | Some remote_head_root =>
          let results := if negb (strcmp remote_head_root (root_id master_head) =? 0)
                            && negb (strcmp (root_id master_head) EMPTY_SHA1 =? 0)
                         then [root_id master_head] else [] in
          match diff_trees (if negb dir_only then collect_file_ids else collect_file_ids_nop) collect_dir_ids st
                  (r_version repo) fuel [root_id master_head; remote_head_root] results with
          | None => None
          | Some (ret, results) => Some (if ret <? 0 then None else Some results)
          end
      end
  end.

(** ** Whether the blocks of an upload have arrived *)

Context (block_exists : string -> bool).

(** The names of files with missing blocks. *)
Definition check_file_blocks (basedir : string) (files : list (option SeafDirent)) (file_list : list string)
  : Z * list string :=
  match files with
  | file1 :: Some file2 :: _ =>
      if (strcmp (d_id file2) EMPTY_SHA1 =? 0)
         || match file1 with Some file1 => strcmp (d_id file1) (d_id file2) =? 0 | None => false end
      then (0, file_list)
      else match seaf_fs_manager_get_seafile st (d_id file2) with
           | None => (-1, file_list)
           | Some file => if forallb block_exists (f_blk_sha1s file) then (0, file_list) else (0, d_name file2 :: file_list)
           end
  | _ => (0, file_list)
  end.

Definition check_dir_cb (basedir : string) (dirs : list (option SeafDirent)) (file_list : list string)
  : Z * bool * list string :=
  match dirs with
  | None :: Some dir2 :: _ => (0, negb (strcmp (d_id dir2) EMPTY_SHA1 =? 0), file_list)
  | Some dir1 :: None :: _ => (0, false, file_list)
  | Some dir1 :: Some dir2 :: _ =>
      (0, negb ((strcmp (d_id dir1) (d_id dir2) =? 0) || (strcmp (d_id dir2) EMPTY_SHA1 =? 0)), file_list)
  | _ => (0, true, file_list)
  end.

(** The outer [option] as above; [inl]: an error, with the names of the files whose blocks
    are missing, if that is the reason. *)
Definition check_blocks (repo : SeafRepo) (base remote : SeafCommit) : option (option (list string) + unit) :=
  match diff_trees check_file_blocks check_dir_cb st (r_version repo) fuel [root_id base; root_id remote] [] with
  | None => None
  | Some (ret, file_list) =>
      Some (if ret <? 0 then inl None
            else match file_list with [] => inr tt | _ => inl (Some file_list) end)
  end.
End trees.

(** ** Walks over any directories *)

(** The entries of a row are those of the lists, in their places. *)
Definition legal (ptrs : list (list SeafDirent)) (dents : list (option SeafDirent)) : Prop :=
  Forall2 (fun p od => forall d, od = Some d -> d ∈ p) ptrs dents.

Definition within (ptrs ptrs' : list (list SeafDirent)) : Prop := Forall2 (fun p p' => forall d, d ∈ p' -> d ∈ p) ptrs ptrs'.

Lemma within_refl ptrs : within ptrs ptrs.
Proof. by induction ptrs; constructor. Qed.

Lemma head_named_in name p d : head_named name p = Some d -> d ∈ p.
Proof. destruct p as [|x p]; [done|]. cbn. case_match; [|done]. intros [= ->]. by left. Qed.

Lemma advance_in name p d : d ∈ advance name p -> d ∈ p.
Proof. destruct p as [|x p]; [done|]. cbn. case_match; [|done]. intros ?. by right. Qed.

Lemma advance_or_head name p d : d ∈ p -> head_named name p = Some d \/ d ∈ advance name p.
Proof.
  destruct p as [|x p]; [by intros ?%not_elem_of_nil|]. cbn. case_match; [|by right].
  intros [->|Hx]%elem_of_cons; [by left|by right].
Qed.

Lemma within_row ptrs ptrs' name : within ptrs ptrs' -> legal ptrs (head_named name <$> ptrs').
Proof. induction 1; constructor; [|done]. intros d Hd%head_named_in. auto. Qed.

Lemma within_advance ptrs ptrs' name : within ptrs ptrs' -> within ptrs (advance name <$> ptrs').
Proof. induction 1; constructor; [|done]. intros d Hd%advance_in. auto. Qed.

Section walks.
Context {St : Type} (body : list (option SeafDirent) -> Z -> St -> option (Z * St)) (ptrs : list (list SeafDirent)).

(** A walk that does not fail handles every entry of every list. *)
Lemma walk_covers (R : St -> St -> Prop) (H : SeafDirent -> St -> Prop) (k : nat) :
  PreOrder R -> (forall d s s', H d s -> R s s' -> H d s') ->
  (forall dents ret s ret' s', legal ptrs dents -> body dents ret s = Some (ret', s') -> 0 <= ret' ->
     R s s' /\ forall d, dents !! k = Some (Some d) -> H d s') ->
  forall ret s ret' s', walk body ptrs ret s = Some (ret', s') -> 0 <= ret' ->
    R s s' /\ forall p d, ptrs !! k = Some p -> d ∈ p -> H d s'.
Proof.
  intros HR Hmono Hbody ret s ret' s'. unfold walk. generalize (total ptrs) as fuel. intros fuel.
  assert (Hgen : forall ptrs' ret s, within ptrs ptrs' -> walk_fuel body fuel ptrs' ret s = Some (ret', s') -> 0 <= ret' ->
    R s s' /\ forall p d, ptrs' !! k = Some p -> d ∈ p -> H d s'); [|intros; eapply Hgen; eauto using within_refl].
  clear ret s. induction fuel as [|fuel IH]; intros ptrs' ret s Hw E Hret; cbn [walk_fuel] in E;
    pose proof (first_name_foldl ptrs' None) as Hf; fold (first_name ptrs') in Hf;
    destruct (first_name ptrs') as [name|]; try done.
  1, 3: injection E as <- <-; (split; [done|]); destruct Hf as [_ Hf]; rewrite Forall_forall in Hf; intros p d Hp Hd;
    rewrite (Hf p) in Hd by (by eapply list_elem_of_lookup_2); by apply not_elem_of_nil in Hd.
  destruct (body _ ret s) as [[r1 s1]|] eqn:Eb; [|done].
  destruct (Z.ltb_spec r1 0) as [Hneg|Hpos]; [injection E as <- <-; lia|].
  apply Hbody in Eb as [HR1 HH1]; [|by apply within_row|done].
  destruct (IH _ _ _ (within_advance _ _ name Hw) E Hret) as [HR2 HH2].
  split; [by trans s1|]. intros p d Hp Hd. destruct (advance_or_head name p d Hd) as [Hh|Ha].
  - eapply Hmono; [apply HH1|exact HR2]. by rewrite list_lookup_fmap, Hp, <- Hh.
  - eapply HH2; [|exact Ha]. by rewrite list_lookup_fmap, Hp.
Qed.

(** A walk whose body always answers answers. *)
Lemma walk_total :
  (forall dents ret s, legal ptrs dents -> is_Some (body dents ret s)) -> forall ret s, is_Some (walk body ptrs ret s).
Proof.
  intros Hbody ret s. unfold walk. set (fuel := total ptrs).
  assert (Hgen : forall ptrs' ret s, within ptrs ptrs' -> (total ptrs' <= fuel)%nat -> is_Some (walk_fuel body fuel ptrs' ret s));
    [|by apply Hgen; [apply within_refl|]].
  clearbody fuel. clear ret s. induction fuel as [|fuel IH]; intros ptrs' ret s Hw Hf; cbn [walk_fuel];
    pose proof (first_name_foldl ptrs' None) as Hn; fold (first_name ptrs') in Hn; destruct (first_name ptrs') as [name|]; try done;
    destruct Hn as [[?|Hex] _]; try done; pose proof (total_advance name ptrs' Hex); [lia|].
  destruct (Hbody (head_named name <$> ptrs') ret s (within_row _ _ name Hw)) as [[r1 s1] ->].
  destruct (r1 <? 0); [done|]. apply IH; [by apply within_advance|lia].
Qed.
End walks.

Abbreviation entries_of := (fun ot : option SeafDir => match ot with Some t => entries t | None => [] end).

Lemma legal_two p1 p2 dents : legal [p1; p2] dents ->
  exists a b, dents = [a; b] /\ (forall d, a = Some d -> d ∈ p1) /\ (forall d, b = Some d -> d ∈ p2).
Proof.
  intros H. apply Forall2_cons_inv_l in H as (a & dents' & Ha & H & ->).
  apply Forall2_cons_inv_l in H as (b & dents'' & Hb & H & ->). apply Forall2_nil_inv_l in H as ->. by exists a, b.
Qed.

(** ** The walk comes to an end *)

Section total.
Context {D : Type} (file_cb : string -> list (option SeafDirent) -> D -> Z * D).
Context (dir_cb : string -> list (option SeafDirent) -> D -> Z * bool * D).
Context (st : fs_store) (version : Z) (rank : string -> nat) (Hrank : ranked st version rank).

Lemma load_sub_dirs_ranked n ptrs dents dirs :
  Forall (fun p => forall d, d ∈ p -> S_ISDIR (d_mode d) = true -> (rank (d_id d) < n)%nat) ptrs ->
  legal ptrs dents -> load_sub_dirs st version dents = Some dirs ->
  Forall (fun o => forall dir, o = Some dir -> exists id, seaf_fs_manager_get_seafdir st version id = Some dir /\ (rank id < n)%nat) dirs.
Proof.
  intros Hp Hl. revert Hp dirs. induction Hl as [|p od ptrs dents Hd Hl IH]; intros Hp dirs E; cbn [load_sub_dirs] in E.
  - by injection E as <-.
  - apply Forall_cons in Hp as [Hp0 Hp]. specialize (IH Hp).
    destruct od as [d|]; [destruct (S_ISDIR (d_mode d)) eqn:Em; [destruct (seaf_fs_manager_get_seafdir st version (d_id d)) eqn:Eg; [|done]|]|];
      (destruct (load_sub_dirs st version dents) as [ds|]; [|done]); injection E as <-; (constructor; [|by apply IH]).
    + intros dir [= <-]. exists (d_id d). split; [done|]. apply Hp0; [by apply Hd|done].
    + done.
    + done.
Qed.

Definition ranked_below (n : nat) (o : option SeafDir) : Prop :=
  forall dir, o = Some dir -> exists id, seaf_fs_manager_get_seafdir st version id = Some dir /\ (rank id < n)%nat.

Lemma some_dir_in ptrs dents : legal ptrs dents -> none_of (of_mode S_ISDIR dents) = false ->
  exists p d, p ∈ ptrs /\ d ∈ p /\ S_ISDIR (d_mode d) = true.
Proof.
  induction 1 as [|p od ptrs dents Hd _ IH]; [done|]. unfold none_of, of_mode. cbn.
  destruct od as [d|]; cbn; [destruct (S_ISDIR (d_mode d)) eqn:Em; cbn|].
  - intros _. exists p, d. split_and!; [by left|by apply Hd|done].
  - intros (p' & d' & Hp & ?)%IH. exists p', d'. split; [by right|done].
  - intros (p' & d' & Hp & ?)%IH. exists p', d'. split; [by right|done].
Qed.

Lemma diff_rec_total n : forall trees basedir data,
  (0 < n)%nat -> Forall (ranked_below n) trees ->
  is_Some (diff_trees_recursive file_cb dir_cb st version n trees basedir data).
Proof.
  induction n as [|n IH]; intros trees basedir data Hn Ht; [lia|]. cbn [diff_trees_recursive].
  assert (Hsub : Forall (fun p => forall d, d ∈ p -> S_ISDIR (d_mode d) = true -> (rank (d_id d) < n)%nat) (entries_of <$> trees)).
  { apply Forall_fmap. eapply Forall_impl; [exact Ht|]. intros [dir|] Ho d; [|by intros ?%not_elem_of_nil].
    intros Hd Hm. destruct (Ho dir eq_refl) as (id & Hid & Hr). pose proof (Hrank _ _ _ Hid Hd Hm). lia. }
  apply walk_total. intros dents ret s Hl. destruct (all_same dents); [done|].
  destruct (diff_files file_cb dents basedir s) as [r1 s1]. destruct (r1 <? 0); [done|]. unfold diff_directories.
  destruct (none_of (of_mode S_ISDIR dents)) eqn:En; [done|].
  destruct (dir_cb _ _ s1) as [[r2 rec] s2]. destruct (r2 <? 0); [done|]. destruct rec; [|done]. cbn [negb].
  destruct (load_sub_dirs st version dents) as [dirs|] eqn:Eload; [|done]. apply IH.
  - destruct (some_dir_in _ _ Hl En) as (p & d & Hp & Hd & Hm). rewrite Forall_forall in Hsub.
    pose proof (Hsub p Hp d Hd Hm). lia.
  - by eapply load_sub_dirs_ranked.
Qed.

Lemma diff_trees_total fuel root1 root2 data :
  (rank root1 < fuel)%nat -> (rank root2 < fuel)%nat ->
  is_Some (diff_trees file_cb dir_cb st version fuel [root1; root2] data).
Proof.
  intros H1 H2. unfold diff_trees. cbn [length Nat.eqb orb negb load_roots].
  destruct (seaf_fs_manager_get_seafdir st version root1) as [dir1|] eqn:E1; [|done].
  destruct (seaf_fs_manager_get_seafdir st version root2) as [dir2|] eqn:E2; [|done]. cbn [mbind option_bind].
  apply diff_rec_total; [lia|]. repeat constructor; intros dir [= <-]; eauto.
Qed.
End total.

(** ** The blocks of an upload *)

Section blocks.
Context (st : fs_store) (version : Z) (block_exists : string -> bool).

Definition blocks_ok (f : string) : Prop :=
  exists file, seaf_fs_manager_get_seafile st f = Some file /\ forallb block_exists (f_blk_sha1s file) = true.

(** A file has its blocks; the files below a directory have theirs. *)
Definition entry_ok (e : SeafDirent) : Prop :=
  (S_ISREG (d_mode e) = true -> d_id e <> EMPTY_SHA1 -> blocks_ok (d_id e)) /\
  (S_ISDIR (d_mode e) = true -> forall f, file_under st version (d_id e) f -> blocks_ok f).

Lemma entry_ok_same a b : dirent_same a b = true -> entry_ok a -> entry_ok b.
Proof.
  intros [= Hid Hm _]%dirent_same_spec [H1 H2]. unfold entry_ok. by rewrite <- Hid, <- Hm.
Qed.

Lemma files_of_entries id dir :
  seaf_fs_manager_get_seafdir st version id = Some dir ->
  (forall f, file_under st version id f -> blocks_ok f) <-> (forall e, e ∈ entries dir -> entry_ok e).
Proof.
  intros E. split.
  - intros H e He. split; [intros Hr Hne; by eapply H, under_file|]. intros Hd f Hf. by eapply H, under_dir.
  - intros H f Hf. destruct Hf as [id dir' de Ed Hde Hr Hne|id dir' de f Ed Hde Hd Hf]; rewrite E in Ed; injection Ed as <-.
    + destruct (H de Hde) as [H1 _]. by apply H1.
    + destruct (H de Hde) as [_ H2]. by apply H2.
Qed.

Lemma empty_dir_ok f : file_under st version EMPTY_SHA1 f -> blocks_ok f.
Proof.
  intros Hf. exfalso. assert (Hd : forall dir, seaf_fs_manager_get_seafdir st version EMPTY_SHA1 = Some dir -> entries dir = []).
  { intros dir. unfold seaf_fs_manager_get_seafdir. rewrite String.eqb_refl. by intros [= <-]. }
  remember EMPTY_SHA1 as id eqn:Eid. destruct Hf as [id dir de Ed Hde _ _|id dir de f Ed Hde _ _]; subst id;
    rewrite (Hd _ Ed) in Hde; by apply not_elem_of_nil in Hde.
Qed.

Definition grows (s s' : list string) : Prop := exists new, s' = new ++ s.
#[local] Instance grows_preorder : PreOrder grows.
Proof. split; [by exists []|]. intros a b c [n1 ->] [n2 ->]. exists (n2 ++ n1). by rewrite app_assoc. Qed.
Lemma grows_nil s : grows s [] -> s = [].
Proof. intros [new H]. symmetry in H. by apply app_nil in H as [_ ?]. Qed.

(** What a comparison of two directories has found out. *)
Definition checked (o1 o2 : option SeafDir) (s s' : list string) : Prop :=
  grows s s' /\ (s' = [] -> (forall e, e ∈ entries_of o1 -> entry_ok e) -> forall e, e ∈ entries_of o2 -> entry_ok e).

Definition checks (rec : list (option SeafDir) -> string -> list string -> option (Z * list string)) : Prop :=
  forall o1 o2 basedir s ret s', rec [o1; o2] basedir s = Some (ret, s') -> 0 <= ret -> checked o1 o2 s s'.

Lemma reg_not_dir m : S_ISREG m = true -> S_ISDIR m = false.
Proof. unfold S_ISREG, S_ISDIR. intros H%Z.eqb_eq. apply Z.eqb_neq. by rewrite H. Qed.

Lemma check_files_row a b basedir s ret s' :
  diff_files (check_file_blocks st block_exists) [a; b] basedir s = (ret, s') -> 0 <= ret ->
  grows s s' /\ (s' = [] -> forall d, b = Some d -> S_ISREG (d_mode d) = true -> (forall e, a = Some e -> entry_ok e) -> entry_ok d).
Proof.
  unfold diff_files, of_mode. rewrite !fmap_cons. cbn [fmap list_fmap].
  assert (Hreg : forall d, S_ISREG (d_mode d) = true -> (d_id d <> EMPTY_SHA1 -> blocks_ok (d_id d)) -> entry_ok d).
  { intros d Hr Hb. split; [done|]. by rewrite (reg_not_dir _ Hr). }
  destruct (only S_ISREG b) as [file2|] eqn:Eb.
  2:{ intros E Hret. assert (s' = s) as ->. { destruct (none_of _); [by simplify_eq|]. cbn in E. destruct (only S_ISREG a); by simplify_eq. }
      split; [done|]. intros _ d -> Hr. cbn in Eb. by rewrite Hr in Eb. }
  assert (b = Some file2 /\ S_ISREG (d_mode file2) = true) as [-> Hr2].
  { destruct b as [d|]; [|done]. cbn in Eb. destruct (S_ISREG (d_mode d)) eqn:Er; by simplify_eq. }
  assert (none_of [only S_ISREG a; Some file2] = false) as -> by (unfold none_of; cbn; by destruct (only S_ISREG a)).
  cbn [check_file_blocks]. destruct (strcmp (d_id file2) EMPTY_SHA1 =? 0) eqn:Ee; cbn [orb].
  { intros [= <- <-] _. split; [done|]. intros _ d [= <-] _ _. apply Hreg; [done|]. apply Z.eqb_eq, strcmp_eq in Ee. by intros []. }
  destruct (match only S_ISREG a with Some file1 => _ | None => false end) eqn:Es.
  { intros [= <- <-] _. split; [done|]. intros _ d [= <-] _ Ha. destruct a as [file1|]; [|done]. cbn in Es.
    destruct (S_ISREG (d_mode file1)) eqn:Er1; [|done]. apply Z.eqb_eq, strcmp_eq in Es. apply Hreg; [done|].
    rewrite <- Es. by apply (Ha file1 eq_refl). }
  destruct (seaf_fs_manager_get_seafile st (d_id file2)) as [file|] eqn:Ef; [|intros [= <- _]; lia].
  destruct (forallb block_exists (f_blk_sha1s file)) eqn:Eall; intros [= <- <-] _.
  - split; [done|]. intros _ d [= <-] _ _. apply Hreg; [done|]. intros _. by exists file.
  - split; [by exists [d_name file2]|done].
Qed.

Lemma sub_dirs_two a b dirs :
  load_sub_dirs st version [a; b] = Some dirs ->
  exists o1 o2, dirs = [o1; o2] /\
    (forall dir, o1 = Some dir -> exists d, a = Some d /\ S_ISDIR (d_mode d) = true /\ seaf_fs_manager_get_seafdir st version (d_id d) = Some dir) /\
    (forall d, b = Some d -> S_ISDIR (d_mode d) = true -> exists dir, o2 = Some dir /\ seaf_fs_manager_get_seafdir st version (d_id d) = Some dir) /\
    (forall d, a = Some d -> S_ISDIR (d_mode d) = true -> exists dir, o1 = Some dir /\ seaf_fs_manager_get_seafdir st version (d_id d) = Some dir) /\
    (forall dir, o2 = Some dir -> exists d, b = Some d /\ S_ISDIR (d_mode d) = true /\ seaf_fs_manager_get_seafdir st version (d_id d) = Some dir).
Proof.
  cbn [load_sub_dirs]. intros E.
  destruct a as [a|]; [destruct (S_ISDIR (d_mode a)) eqn:Ea; [destruct (seaf_fs_manager_get_seafdir st version (d_id a)) eqn:Ega; [|done]|]|];
  (destruct b as [b|]; [destruct (S_ISDIR (d_mode b)) eqn:Eb; [destruct (seaf_fs_manager_get_seafdir st version (d_id b)) eqn:Egb; [|done]|]|]);
  cbn [mbind option_bind] in E; injection E as <-; eexists _, _; (split; [reflexivity|]);
  split_and!; intros; simplify_eq; try congruence; (eexists; split_and!; [reflexivity|done..]).
Qed.

Lemma check_dirs_row rec a b basedir s ret s' :
  checks rec -> diff_directories check_dir_cb st version rec [a; b] basedir s = Some (ret, s') -> 0 <= ret ->
  grows s s' /\ (s' = [] -> forall d, b = Some d -> S_ISDIR (d_mode d) = true -> (forall e, a = Some e -> entry_ok e) -> entry_ok d).
Proof.
  intros Hrec. unfold diff_directories. set (dirs := of_mode S_ISDIR [a; b]).
  assert (Hdir : forall d, S_ISDIR (d_mode d) = true -> (forall f, file_under st version (d_id d) f -> blocks_ok f) -> entry_ok d).
  { intros d Hd Hf. split; [|done]. intros Hr%reg_not_dir. congruence. }
  destruct (none_of dirs) eqn:En.
  { intros [= <- <-] _. split; [done|]. intros _ d -> Hd. subst dirs. unfold none_of, of_mode in En. cbn in En. rewrite Hd in En.
    cbn in En. by rewrite andb_false_r in En. }
  destruct (check_dir_cb basedir dirs s) as [[r recurse] s1] eqn:Ecb.
  assert (r = 0 /\ s1 = s) as [-> ->].
  { revert Ecb. subst dirs. unfold of_mode. cbn. destruct (only S_ISDIR a), (only S_ISDIR b); intros Ecb; by simplify_eq. }
  cbn [Z.ltb]. destruct recurse; cbn [negb].
  - destruct (load_sub_dirs st version [a; b]) as [sub|] eqn:El; [|intros [= <- _]; lia]. intros E Hret.
    apply sub_dirs_two in El as (o1 & o2 & -> & H1 & H2 & _). destruct (Hrec _ _ _ _ _ _ E Hret) as [Hg Hc]. split; [done|].
    intros Hs d -> Hd Ha. destruct (H2 d eq_refl Hd) as (dir & -> & Edir). apply Hdir; [done|].
    apply (files_of_entries _ _ Edir). apply (Hc Hs). intros e He. destruct o1 as [dir1|]; [|by apply not_elem_of_nil in He].
    destruct (H1 dir1 eq_refl) as (d1 & -> & Hd1 & Edir1). apply (files_of_entries _ _ Edir1); [|done].
    by apply (Ha d1 eq_refl).
  - intros [= <- <-] _. split; [done|]. intros _ d -> Hd Ha. apply Hdir; [done|]. revert Ecb. subst dirs. unfold of_mode. cbn. rewrite Hd.
    destruct (only S_ISDIR a) as [d1|] eqn:E1; intros [= Hx].
    + apply negb_false_iff, orb_true_iff in Hx. rewrite !Z.eqb_eq, !strcmp_eq in Hx. destruct a as [a|]; [|done]. cbn in E1.
      destruct (S_ISDIR (d_mode a)) eqn:Em; simplify_eq. destruct Hx as [Hx|Hx]; [rewrite <- Hx; by apply (Ha d1 eq_refl)|].
      rewrite Hx. apply empty_dir_ok.
    + apply negb_false_iff, Z.eqb_eq, strcmp_eq in Hx. rewrite Hx. apply empty_dir_ok.
Qed.

Lemma check_rec fuel : checks (diff_trees_recursive (check_file_blocks st block_exists) check_dir_cb st version fuel).
Proof.
  induction fuel as [|fuel IH]; intros o1 o2 basedir s ret s' E Hret; [done|]. cbn [diff_trees_recursive] in E.
  rewrite !fmap_cons in E. cbn [fmap list_fmap] in E.
  apply (walk_covers _ [entries_of o1; entries_of o2] grows
    (fun d s => s = [] -> (forall e, e ∈ entries_of o1 -> entry_ok e) -> entry_ok d) 1) in E as [Hg Hc]; [|apply _|..|done].
  - split; [done|]. intros Hs H1 e He. exact (Hc (entries_of o2) e eq_refl He Hs H1).
  - intros d t t' Ht Hgt ->. apply Ht. by apply grows_nil.
  - intros dents r0 t r1 t' Hl Eb Hr. apply legal_two in Hl as (a & b & -> & Ha & Hb). cbn [lookup list_lookup].
    destruct (all_same [a; b]) eqn:Esame.
    { injection Eb as <- <-. split; [done|]. intros d [= ->] _ H1. destruct a as [a|]; [|done].
      apply (entry_ok_same a); [done|]. apply H1. by apply Ha. }
    destruct (diff_files (check_file_blocks st block_exists) [a; b] basedir t) as [rf tf] eqn:Ef.
    destruct (Z.ltb_spec rf 0); [injection Eb as <- <-; lia|]. apply check_files_row in Ef as [Hg1 Hc1]; [|done].
    apply (check_dirs_row _ _ _ _ _ _ _ IH) in Eb as [Hg2 Hc2]; [|done]. split; [by trans tf|]. intros d [= ->] -> H1.
    assert (Ha' : forall e, a = Some e -> entry_ok e) by (intros e He; apply H1, Ha, He).
    destruct (S_ISREG (d_mode d)) eqn:Er; [apply (Hc1 (grows_nil _ Hg2) d eq_refl Er Ha')|].
    destruct (S_ISDIR (d_mode d)) eqn:Ed; [apply (Hc2 eq_refl d eq_refl Ed Ha')|]. split; congruence.
Qed.
End blocks.

(** C18: When the test of the blocks lets an upload through and the files of the commit it is
    based on have their blocks, every file of the uploaded tree can be read and has all its
    blocks, whatever the shape and the order of the directories; the test comes to an
    answer. *)
Theorem checked_blocks_exist st fuel block_exists repo base remote rank :
  ranked st (r_version repo) rank -> (rank (root_id base) < fuel)%nat -> (rank (root_id remote) < fuel)%nat ->
  exists r, check_blocks st fuel block_exists repo base remote = Some r /\
    (r = inr tt ->
     (forall f, file_under st (r_version repo) (root_id base) f -> blocks_ok st block_exists f) ->
     forall f, file_under st (r_version repo) (root_id remote) f -> blocks_ok st block_exists f).
Proof.
  intros Hrank H1 H2. unfold check_blocks.
  destruct (diff_trees_total (check_file_blocks st block_exists) check_dir_cb st (r_version repo) rank Hrank fuel _ _ [] H1 H2)
    as [[ret l] E]. rewrite E. eexists. split; [reflexivity|]. destruct (Z.ltb_spec ret 0) as [|Hret]; [done|].
  destruct l; [|done]. intros _ Hbase. unfold diff_trees in E. cbn [length Nat.eqb orb negb load_roots] in E.
  destruct (seaf_fs_manager_get_seafdir st (r_version repo) (root_id base)) as [dir1|] eqn:E1; [|injection E as <-; lia].
  destruct (seaf_fs_manager_get_seafdir st (r_version repo) (root_id remote)) as [dir2|] eqn:E2; [|injection E as <-; lia].
  cbn [mbind option_bind] in E. destruct (check_rec st (r_version repo) block_exists fuel _ _ _ _ _ _ E Hret) as [_ Hc].
  apply (files_of_entries _ _ _ _ _ E2). apply (Hc eq_refl). by apply (files_of_entries _ _ _ _ _ E1).
Qed.

(** ** The objects a client has to fetch *)

Section send.
Context (st : fs_store) (version : Z) (dir_only : bool).

(** The entries that count. *)
Definition wanted (e : SeafDirent) : Prop := S_ISDIR (d_mode e) = true \/ dir_only = false /\ S_ISREG (d_mode e) = true.

(** The objects below a directory. *)
Inductive listed : string -> string -> Prop :=
| listed_here id dir e : seaf_fs_manager_get_seafdir st version id = Some dir -> e ∈ entries dir -> wanted e -> listed id (d_id e)
| listed_below id dir e x : seaf_fs_manager_get_seafdir st version id = Some dir -> e ∈ entries dir ->
    S_ISDIR (d_mode e) = true -> listed (d_id e) x -> listed id x.

Definition below_entry (e : SeafDirent) (x : string) : Prop :=
  (wanted e /\ x = d_id e) \/ (S_ISDIR (d_mode e) = true /\ listed (d_id e) x).

Lemma listed_entries id dir x :
  seaf_fs_manager_get_seafdir st version id = Some dir ->
  listed id x <-> exists e, e ∈ entries dir /\ below_entry e x.
Proof.
  intros E. split.
  - intros H. destruct H as [id dir' e Ed He Hw|id dir' e y Ed He Hd Hx]; rewrite E in Ed; injection Ed as <-;
      exists e; (split; [done|]); [by left|by right].
  - intros (e & He & [[Hw ->]|[Hd Hx]]); [by eapply listed_here|by eapply listed_below].
Qed.

(** [L]: the objects of the head; [C]: those the client has. *)
Context (L C : string -> Prop).

Definition sends (s s' : list string) : Prop := exists new, s' = new ++ s /\ forall x, x ∈ new -> L x /\ x <> EMPTY_SHA1.
#[local] Instance sends_preorder : PreOrder sends.
Proof.
  split; [intros a; exists []; split; [done|]; by intros y ?%not_elem_of_nil|]. intros a b c [n1 [-> H1]] [n2 [-> H2]].
  exists (n2 ++ n1). split; [by rewrite app_assoc|]. intros x [Hx|Hx]%elem_of_app; auto.
Qed.

Lemma sends_in s s' x : sends s s' -> x ∈ s -> x ∈ s'.
Proof. intros [new [-> _]] Hx. apply elem_of_app. by right. Qed.

Lemma sends_one s x : L x -> x <> EMPTY_SHA1 -> sends s (x :: s).
Proof. intros HL Hne. exists [x]. split; [done|]. intros y ->%list_elem_of_singleton. done. Qed.

Definition known (s : list string) (x : string) : Prop := x = EMPTY_SHA1 \/ C x \/ x ∈ s.

Lemma known_sends s s' x : sends s s' -> known s x -> known s' x.
Proof. intros Hs [?|[?|?]]; [by left|by right; left|]. right. right. by eapply sends_in. Qed.

Definition fetches (rec : list (option SeafDir) -> string -> list string -> option (Z * list string)) : Prop :=
  forall o1 o2 basedir s ret s', rec [o1; o2] basedir s = Some (ret, s') -> 0 <= ret ->
    (forall e x, e ∈ entries_of o1 -> below_entry e x -> L x) -> (forall e x, e ∈ entries_of o2 -> below_entry e x -> C x) ->
    sends s s' /\ forall e x, e ∈ entries_of o1 -> below_entry e x -> known s' x.

Abbreviation file_cb := (if negb dir_only then collect_file_ids else collect_file_ids_nop).

Lemma same_below a b x : dirent_same a b = true -> below_entry a x -> below_entry b x.
Proof. intros [= Hid Hm _]%dirent_same_spec. unfold below_entry, wanted. by rewrite Hid, Hm. Qed.

(** An id that is put on the list unless the other side has it. *)
Lemma collect_one (d : SeafDirent) (other : option SeafDirent) s :
  L (d_id d) -> (forall o, other = Some o -> C (d_id o)) ->
  let s' := if match other with Some o => negb (strcmp (d_id d) (d_id o) =? 0) | None => true end
               && negb (strcmp (d_id d) EMPTY_SHA1 =? 0) then d_id d :: s else s in
  sends s s' /\ known s' (d_id d).
Proof.
  intros HL HC. cbv zeta. destruct (strcmp (d_id d) EMPTY_SHA1 =? 0) eqn:Ee; cbn [negb].
  { rewrite andb_false_r. split; [done|]. left. by apply Z.eqb_eq, strcmp_eq in Ee. }
  rewrite andb_true_r. assert (Hne : d_id d <> EMPTY_SHA1) by (intros H; rewrite H in Ee; by rewrite (proj2 (Z.eqb_eq _ _) (proj2 (strcmp_eq _ _) eq_refl)) in Ee).
  destruct other as [o|]; [destruct (strcmp (d_id d) (d_id o) =? 0) eqn:Eo; cbn [negb]|].
  - split; [done|]. right. left. apply Z.eqb_eq, strcmp_eq in Eo. rewrite Eo. by apply HC.
  - split; [by apply sends_one|]. right. right. by left.
  - split; [by apply sends_one|]. right. right. by left.
Qed.

Lemma only_Some kind a d : only kind a = Some d -> a = Some d /\ kind (d_mode d) = true.
Proof. destruct a as [e|]; [|done]. cbn. destruct (kind (d_mode e)) eqn:E; [|done]. by intros [= <-]. Qed.

Lemma send_files_row a b basedir s ret s' :
  diff_files file_cb [a; b] basedir s = (ret, s') ->
  (forall d x, a = Some d -> below_entry d x -> L x) -> (forall d x, b = Some d -> below_entry d x -> C x) ->
  sends s s' /\ forall d x, a = Some d -> S_ISREG (d_mode d) = true -> below_entry d x -> known s' x.
Proof.
  intros E HL HC. unfold diff_files, of_mode in E. rewrite !fmap_cons in E. cbn [fmap list_fmap] in E.
  assert (Hreg : forall d x, S_ISREG (d_mode d) = true -> below_entry d x -> dir_only = false /\ x = d_id d).
  { intros d x Hr [[[Hd|[Hw _]] ->]|[Hd _]]; [|done|]; by rewrite (reg_not_dir _ Hr) in Hd. }
  destruct (only S_ISREG a) as [d1|] eqn:E1.
  2:{ assert (s' = s) as ->.
      { destruct (none_of _); [by simplify_eq|]. destruct dir_only; unfold collect_file_ids_nop in E; cbn in E; by simplify_eq. }
      split; [done|]. intros d x -> Hr. cbn in E1. by rewrite Hr in E1. }
  apply only_Some in E1 as [-> Hr1]. assert (none_of [Some d1; only S_ISREG b] = false) as E0 by done. rewrite E0 in E.
  destruct dir_only eqn:Edo; cbn [negb] in E.
  { injection E as <- <-. split; [done|]. intros d x [= <-] Hr Hx. by destruct (Hreg d1 x Hr Hx). }
  cbn [collect_file_ids] in E. destruct (collect_one d1 (only S_ISREG b) s) as [Hs Hk].
  - apply (HL d1); [done|]. left. split; [|done]. right. by rewrite Edo.
  - intros o Ho. apply only_Some in Ho as [-> Hr]. apply (HC o); [done|]. left. split; [|done]. right. by rewrite Edo.
  - cbv zeta in Hs, Hk.
    assert (Es : s' = (if match only S_ISREG b with Some o => negb (strcmp (d_id d1) (d_id o) =? 0) | None => true end
      && negb (strcmp (d_id d1) EMPTY_SHA1 =? 0) then d_id d1 :: s else s)) by (destruct (_ && _); by simplify_eq).
    rewrite Es. split; [done|]. intros d x [= <-] Hr Hx. by destruct (Hreg d1 x Hr Hx) as [_ ->].
Qed.

Lemma send_dirs_row rec a b basedir s ret s' :
  fetches rec -> diff_directories collect_dir_ids st version rec [a; b] basedir s = Some (ret, s') -> 0 <= ret ->
  (forall d x, a = Some d -> below_entry d x -> L x) -> (forall d x, b = Some d -> below_entry d x -> C x) ->
  sends s s' /\ forall d x, a = Some d -> S_ISDIR (d_mode d) = true -> below_entry d x -> known s' x.
Proof.
  intros Hrec E Hret HL HC. unfold diff_directories in E. change (of_mode S_ISDIR [a; b]) with [only S_ISDIR a; only S_ISDIR b] in E.
  destruct (none_of [only S_ISDIR a; only S_ISDIR b]) eqn:En.
  { injection E as <- <-. split; [done|]. intros d x -> Hd. unfold none_of in En. cbn in En. by rewrite Hd in En. }
  assert (Hcb : exists s1, collect_dir_ids basedir [only S_ISDIR a; only S_ISDIR b] s = (0, true, s1) /\ sends s s1 /\
    forall d, a = Some d -> S_ISDIR (d_mode d) = true -> known s1 (d_id d)).
  { destruct (only S_ISDIR a) as [d1|] eqn:E1; cbn [collect_dir_ids].
    - apply only_Some in E1 as [-> Hd1]. destruct (collect_one d1 (only S_ISDIR b) s) as [Hs Hk].
      + apply (HL d1); [done|]. left. split; [by left|done].
      + intros o Ho. apply only_Some in Ho as [-> Hd]. apply (HC o); [done|]. left. split; [by left|done].
      + eexists. split; [|split; [exact Hs|by intros d [= <-] _]]. cbv zeta. by destruct (_ && _).
    - exists s. split_and!; [done|done|]. intros d -> Hd. cbn in E1. by rewrite Hd in E1. }
  destruct Hcb as (s1 & Ecb & Hs1 & Hk1). rewrite Ecb in E. cbn [Z.ltb negb] in E.
  destruct (load_sub_dirs st version [a; b]) as [sub|] eqn:El; [|injection E as <- _; lia].
  apply sub_dirs_two in El as (o1 & o2 & -> & H1 & _ & H3 & H4).
  destruct (Hrec _ _ _ _ _ _ E Hret) as [Hs2 Hk2].
  - intros e x He Hx. destruct o1 as [dir1|]; [|by apply not_elem_of_nil in He].
    destruct (H1 dir1 eq_refl) as (d & -> & Hd & Ed). apply (HL d); [done|]. right. split; [done|].
    apply (listed_entries _ _ _ Ed). eauto.
  - intros e x He Hx. destruct o2 as [dir2|]; [|by apply not_elem_of_nil in He].
    destruct (H4 dir2 eq_refl) as (d & -> & Hd & Ed). apply (HC d); [done|]. right. split; [done|].
    apply (listed_entries _ _ _ Ed). eauto.
  - split; [by trans s1|]. intros d x -> Hd [[_ ->]|[_ Hx]]; [by eapply known_sends, Hk1|].
    destruct (H3 d eq_refl Hd) as (dir & -> & Ed). apply (listed_entries _ _ _ Ed) in Hx as (e & He & Hx). by eapply Hk2.
Qed.

Lemma send_rec fuel : fetches (diff_trees_recursive file_cb collect_dir_ids st version fuel).
Proof.
  induction fuel as [|fuel IH]; intros o1 o2 basedir s ret s' E Hret HL HC; [done|]. cbn [diff_trees_recursive] in E.
  rewrite !fmap_cons in E. cbn [fmap list_fmap] in E.
  apply (walk_covers _ [entries_of o1; entries_of o2] sends (fun d s => forall x, below_entry d x -> known s x) 0) in E
    as [Hg Hc]; [|apply _|..|done].
  - split; [done|]. intros e x He. exact (Hc (entries_of o1) e eq_refl He x).
  - intros d t t' Ht Hst x Hx. by eapply known_sends, Ht.
  - intros dents r0 t r1 t' Hl Eb Hr. apply legal_two in Hl as (a & b & -> & Ha & Hb). cbn [lookup list_lookup].
    assert (HLa : forall d x, a = Some d -> below_entry d x -> L x) by (intros d x Hd; apply HL, Ha, Hd).
    assert (HCb : forall d x, b = Some d -> below_entry d x -> C x) by (intros d x Hd; apply HC, Hb, Hd).
    destruct (all_same [a; b]) eqn:Esame.
    { injection Eb as <- <-. split; [done|]. intros d [= ->] x Hx. destruct b as [b|]; [|done]. right. left.
      apply (HCb b); [done|]. by apply (same_below d). }
    destruct (diff_files file_cb [a; b] basedir t) as [rf tf] eqn:Ef.
    destruct (Z.ltb_spec rf 0); [injection Eb as <- <-; lia|]. apply send_files_row in Ef as [Hg1 Hc1]; [|done..].
    apply (send_dirs_row _ _ _ _ _ _ _ IH) in Eb as [Hg2 Hc2]; [|done..]. split; [by trans tf|]. intros d [= ->] x Hx.
    destruct (S_ISREG (d_mode d)) eqn:Er; [by eapply known_sends, Hc1|].
    apply (Hc2 d x eq_refl); [|done]. destruct Hx as [[[?|[_ ?]] _]|[? _]]; congruence.
Qed.
End send.

(** ** No errors in readable trees *)

Lemma walk_ok {St} (body : list (option SeafDirent) -> Z -> St -> option (Z * St)) ptrs :
  (forall dents ret s ret' s', legal ptrs dents -> 0 <= ret -> body dents ret s = Some (ret', s') -> 0 <= ret') ->
  forall ret s ret' s', 0 <= ret -> walk body ptrs ret s = Some (ret', s') -> 0 <= ret'.
Proof.
  intros Hbody ret s ret' s'. unfold walk. generalize (total ptrs) as fuel. intros fuel.
  assert (Hgen : forall ptrs' ret s, within ptrs ptrs' -> 0 <= ret -> walk_fuel body fuel ptrs' ret s = Some (ret', s') -> 0 <= ret');
    [|by apply Hgen, within_refl].
  clear ret s. induction fuel as [|fuel IH]; intros ptrs' ret s Hw Hret E; cbn [walk_fuel] in E;
    destruct (first_name ptrs') as [name|]; try done; try (by simplify_eq).
  destruct (body _ ret s) as [[r1 s1]|] eqn:Eb; [|done]. apply Hbody in Eb; [|by apply within_row|done].
  destruct (Z.ltb_spec r1 0); [lia|]. by eapply IH, E; [apply within_advance|].
Qed.

Section readable.
Context {D : Type} (file_cb : string -> list (option SeafDirent) -> D -> Z * D).
Context (dir_cb : string -> list (option SeafDirent) -> D -> Z * bool * D).
Context (Hfile : forall b l d, 0 <= (file_cb b l d).1) (Hdir : forall b l d, 0 <= (dir_cb b l d).1.1).
Context (st : fs_store) (version : Z).
(** The directories below are readable. *)
Context (Hclosed : forall id dir e, seaf_fs_manager_get_seafdir st version id = Some dir -> e ∈ entries dir ->
  S_ISDIR (d_mode e) = true -> is_Some (seaf_fs_manager_get_seafdir st version (d_id e))).

Definition stored_dir (o : option SeafDir) : Prop :=
  forall dir, o = Some dir -> exists id, seaf_fs_manager_get_seafdir st version id = Some dir.

Lemma load_sub_dirs_readable ptrs dents :
  Forall (fun p => forall d, d ∈ p -> S_ISDIR (d_mode d) = true -> is_Some (seaf_fs_manager_get_seafdir st version (d_id d))) ptrs ->
  legal ptrs dents -> exists dirs, load_sub_dirs st version dents = Some dirs /\ Forall stored_dir dirs.
Proof.
  intros Hp Hl. revert Hp. induction Hl as [|p od ptrs dents Hd Hl IH]; intros Hp; cbn [load_sub_dirs]; [by exists []|].
  apply Forall_cons in Hp as [Hp0 Hp]. destruct (IH Hp) as (dirs & -> & Hdirs). cbn [mbind option_bind].
  destruct od as [d|]; [destruct (S_ISDIR (d_mode d)) eqn:Em|].
  - destruct (Hp0 d (Hd d eq_refl) Em) as [dir E]. rewrite E. eexists. split; [done|]. constructor; [|done]. intros x [= <-]. eauto.
  - eexists. split; [done|]. by constructor.
  - eexists. split; [done|]. by constructor.
Qed.

Lemma diff_rec_ok fuel : forall trees basedir data ret data',
  Forall stored_dir trees -> diff_trees_recursive file_cb dir_cb st version fuel trees basedir data = Some (ret, data') -> 0 <= ret.
Proof.
  induction fuel as [|fuel IH]; intros trees basedir data ret data' Ht E; [done|]. cbn [diff_trees_recursive] in E.
  assert (Hsub : Forall (fun p => forall d, d ∈ p -> S_ISDIR (d_mode d) = true -> is_Some (seaf_fs_manager_get_seafdir st version (d_id d)))
    (entries_of <$> trees)).
  { apply Forall_fmap. eapply Forall_impl; [exact Ht|]. intros [dir|] Ho d; [|by intros ?%not_elem_of_nil].
    destruct (Ho dir eq_refl) as [id Hid]. by apply Hclosed with id. }
  eapply walk_ok; [|done|exact E]. intros dents r s r' s' Hl Hr Eb. cbv beta in Eb. destruct (all_same dents); [injection Eb as <- <-; lia|].
  destruct (diff_files file_cb dents basedir s) as [r1 s1] eqn:Ef.
  assert (H1 : 0 <= r1).
  { unfold diff_files in Ef. destruct (none_of _); [simplify_eq; lia|].
    pose proof (Hfile basedir (of_mode S_ISREG dents) s) as H. by rewrite Ef in H. }
  destruct (Z.ltb_spec r1 0); [lia|]. unfold diff_directories in Eb. destruct (none_of _); [simplify_eq; lia|].
  pose proof (Hdir basedir (of_mode S_ISDIR dents) s1) as H2. destruct (dir_cb _ _ s1) as [[r2 rec] s2]. cbn in H2.
  destruct (Z.ltb_spec r2 0); [lia|]. destruct rec; cbn [negb] in Eb; [|simplify_eq; lia].
  destruct (load_sub_dirs_readable _ _ Hsub Hl) as (dirs & El & Hdirs). rewrite El in Eb. by eapply IH.
Qed.
End readable.

(** C19: The list of objects a client is told to fetch is complete: for a client that has the
    tree of its head, or nothing, every object of the tree of the server's head is on the
    list, or the client has it, or it is the empty object; nothing that is not of this tree
    is on the list.  In readable trees the list is always made. *)
Theorem send_list_complete st fuel cs repo server_head client_head dir_only rank master client_root :
  ranked st (r_version repo) rank -> (rank (root_id master) < fuel)%nat -> (rank client_root < fuel)%nat ->
  seaf_commit_manager_get_commit cs server_head = Some master ->
  match client_head with
  | Some h => root_id <$> seaf_commit_manager_get_commit cs h = Some client_root
  | None => client_root = EMPTY_SHA1
  end ->
  exists r, calculate_send_object_list st fuel cs repo server_head client_head dir_only = Some r /\
    (forall l, r = Some l ->
       (forall x, x = root_id master \/ listed st (r_version repo) dir_only (root_id master) x ->
          x = EMPTY_SHA1 \/ (x = client_root \/ listed st (r_version repo) dir_only client_root x) \/ x ∈ l) /\
       (forall x, x ∈ l -> (x = root_id master \/ listed st (r_version repo) dir_only (root_id master) x) /\ x <> EMPTY_SHA1)) /\
    (tidy st (r_version repo) -> is_Some (seaf_fs_manager_get_seafdir st (r_version repo) (root_id master)) ->
     is_Some (seaf_fs_manager_get_seafdir st (r_version repo) client_root) -> is_Some r).
Proof.
  intros Hrank H1 H2 Hm Hc. unfold calculate_send_object_list. rewrite Hm.
  assert ((match client_head with
           | Some client_head => root_id <$> seaf_commit_manager_get_commit cs client_head
           | None => Some EMPTY_SHA1
           end) = Some client_root) as -> by (destruct client_head; [done|by subst]).
  set (root := root_id master) in *. set (v := r_version repo) in *. set (first := if _ && _ then [root] else []).
  destruct (diff_trees_total (if negb dir_only then collect_file_ids else collect_file_ids_nop) collect_dir_ids st v rank Hrank
    fuel root client_root first H1 H2) as [[ret l] E]. rewrite E. eexists. split; [reflexivity|].
  unfold diff_trees in E. cbn [length Nat.eqb orb negb load_roots] in E. split.
  - intros l' Hl. destruct (Z.ltb_spec ret 0) as [|Hret]; [done|]. injection Hl as <-.
    destruct (seaf_fs_manager_get_seafdir st v root) as [dir1|] eqn:E1; [|injection E as <-; lia].
    destruct (seaf_fs_manager_get_seafdir st v client_root) as [dir2|] eqn:E2; [|injection E as <-; lia].
    cbn [mbind option_bind] in E.
    pose (L := fun x => x = root \/ listed st v dir_only root x).
    pose (C := fun x => x = client_root \/ listed st v dir_only client_root x).
    destruct (send_rec st v dir_only L C fuel _ _ _ _ _ _ E Hret) as [(new & -> & Hnew) Hk].
    + intros e x He Hx. right. apply (listed_entries _ _ _ _ _ _ E1). eauto.
    + intros e x He Hx. right. apply (listed_entries _ _ _ _ _ _ E2). eauto.
    + assert (Hfirst : (forall x, x ∈ first -> L x /\ x <> EMPTY_SHA1) /\ known C first root).
      { subst first. destruct (strcmp client_root root =? 0) eqn:Ec; cbn [negb andb].
        - split; [by intros x ?%not_elem_of_nil|]. right. left. left. symmetry. by apply strcmp_eq, Z.eqb_eq.
        - destruct (strcmp root EMPTY_SHA1 =? 0) eqn:Ee; cbn [negb].
          + split; [by intros x ?%not_elem_of_nil|]. left. by apply strcmp_eq, Z.eqb_eq.
          + split; [|right; right; by left]. intros x ->%list_elem_of_singleton. split; [by left|]. intros Hx.
            rewrite Hx in Ee. by rewrite (proj2 (Z.eqb_eq _ _) (proj2 (strcmp_eq _ _) eq_refl)) in Ee. }
      destruct Hfirst as [Hf1 Hf2]. split.
      * intros x [->|Hx]; [|apply (listed_entries _ _ _ _ _ _ E1) in Hx as (e & He & Hx); exact (Hk e x He Hx)].
        destruct Hf2 as [?|[?|?]]; [by left|by right; left|]. right. right. apply elem_of_app. by right.
      * intros x [Hx|Hx]%elem_of_app; [by apply Hnew|by apply Hf1].
  - intros Ht [dir1 E1] [dir2 E2]. rewrite E1, E2 in E. cbn [mbind option_bind] in E.
    apply (diff_rec_ok (if negb dir_only then collect_file_ids else collect_file_ids_nop) collect_dir_ids) in E.
    + destruct (Z.ltb_spec ret 0); [lia|done].
    + intros b l0 d. destruct dir_only; cbn; [done|]. unfold collect_file_ids. by repeat case_match.
    + intros b l0 d. unfold collect_dir_ids. by repeat case_match.
    + by apply tidy_closed.
    + repeat constructor; intros dir [= <-]; eauto.
Qed.

(** ** Examples *)

(** The client has the directory [d] of the head; the file [f] has a block that is there. *)
Definition sync_server : SeafCommit := tree_commit c_2 id_1 (Some c_1).
Definition sync_client : SeafCommit := tree_commit c_1 id_2 None.
Definition sync_commits : commit_store := {[c_1 := sync_client; c_2 := sync_server]}.
Definition sync_repo : SeafRepo := toy_repo (mkWorld (toy_db c_1) sync_commits diff_store [] 0).

Lemma sync_version : r_version sync_repo = 1.
Proof. vm_compute. reflexivity. Qed.

Lemma send_list_complete_witness :
  calculate_send_object_list diff_store 2 sync_commits sync_repo c_2 (Some c_1) false = Some (Some [id_3; id_2; id_3; id_1]).
Proof.
  destruct (check_store_sound diff_store 1 diff_rank eq_refl) as [T R].
  destruct (send_list_complete diff_store 2 sync_commits sync_repo c_2 (Some c_1) false diff_rank sync_server id_2) as (r & E & _).
  - rewrite sync_version. exact R.
  - vm_compute. lia.
  - vm_compute. lia.
  - vm_compute. reflexivity.
  - vm_compute. reflexivity.
  - rewrite E. vm_compute in E. rewrite <- E. reflexivity.
Defined.

Lemma checked_blocks_exist_witness :
  check_blocks diff_store 2 (String.eqb "blk") sync_repo sync_client sync_server = Some (inr tt) /\
  check_blocks diff_store 2 (fun _ => false) sync_repo (tree_commit c_1 EMPTY_SHA1 None) sync_server = Some (inl (Some ["g"; "f"])) /\
  forall f, file_under diff_store 1 id_1 f -> blocks_ok diff_store (String.eqb "blk") f.
Proof.
  split; [vm_compute; reflexivity|]. split; [vm_compute; reflexivity|].
  destruct (check_store_sound diff_store 1 diff_rank eq_refl) as [T R].
  destruct (checked_blocks_exist diff_store 2 (String.eqb "blk") sync_repo (tree_commit c_1 EMPTY_SHA1 None) sync_server diff_rank)
    as (r & E & H).
  - rewrite sync_version. exact R.
  - vm_compute. lia.
  - vm_compute. lia.
  - intros f Hf. rewrite sync_version in H. apply H; [vm_compute in E; by injection E as <-| |exact Hf].
    intros g Hg. exact (empty_dir_ok diff_store 1 (String.eqb "blk") g Hg).
Defined.
