(* ===== verification/SyncUpdate.v ===== *)
(** * Updating a library by synchronisation ([server/http-server.c])

    A client uploads a commit, then asks to make it the head of the library.  The server
    tests the request and the commit, and moves the head to the commit, or to a merge of it
    with a head that has moved meanwhile.  The update is a process beside others, like
    [gen_new_commit], of which it shares the merge and the compare-and-swap. *)

From S2P Require Import Prelude Hex FsObj Paths FsMgr FsJson Walk Diff Merge CommitMgr CommitJson Repo CfV2Acl Publish RepoPerm Quota SyncAuth SyncTree.

#[local] Arguments string_take : simpl never.

(** ** State *)

(** The libraries, the caches, and [LastGCID] by library and client; the id of a row may be
    NULL. *)
Record SyncWorld := mkSync {
  sy_world : World;
  sy_http : HttpServer;
  sy_last_gc : gmap (string * string) (option string)
}.

Definition set_world (s : SyncWorld) (w : World) : SyncWorld := mkSync w (sy_http s) (sy_last_gc s).
Definition set_http (s : SyncWorld) (h : HttpServer) : SyncWorld := mkSync (sy_world s) h (sy_last_gc s).
Definition set_last_gc (s : SyncWorld) (g : gmap (string * string) (option string)) : SyncWorld :=
  mkSync (sy_world s) (sy_http s) g.

Inductive gc_query := GHas | GGet | GSet | GRemove | GCurrent.

(** What a step meets. *)
Record SyncOracle := mkSyncOracle {
  so_o : Oracle;
  so_shares : Shares;
  so_tokens : TokenTables;
  so_acl_fails : acl_query -> bool;
  so_perm_fails : perm_query -> bool;
  so_token_fails : bool;
  so_status_fails : bool;
  so_vir_fails : bool;
  so_quotas : QuotaTables;
  so_quota_fails : quota_query -> bool;
  so_quota_config : option string;
  so_gc_fails : gc_query -> bool;
  so_blocks : string -> bool
}.

Definition auth_of (o : SyncOracle) (s : SyncWorld) : AuthEnv :=
  mkAuth (o_now (so_o o)) (w_db (sy_world s)) (so_shares o) (so_tokens o) (so_acl_fails o) (so_perm_fails o)
    (so_token_fails o) (so_status_fails o) (so_vir_fails o).

Section sync.
Context (sha1 : list Z -> list Z) (sha256 : list Z -> string).
Context (dir_hash : Z -> list SeafDirent -> string).
Context (fuel : nat) (se : Session) (g_utf8_validate : string -> bool).
Abbreviation sqlite := (bool_decide (se_db_type se = SEAF_DB_TYPE_SQLITE)).

(** ** The collector's mark of a client *)

Definition seaf_repo_get_last_gc_id (o : SyncOracle) (s : SyncWorld) (repo : SeafRepo) (client_id : string) : option string :=
  if sqlite || so_gc_fails o GGet then None else default None (sy_last_gc s !! (r_id repo, client_id)).

Definition seaf_repo_has_last_gc_id (o : SyncOracle) (s : SyncWorld) (repo : SeafRepo) (client_id : string) : bool :=
  if sqlite || so_gc_fails o GHas then false else negb (is_none (sy_last_gc s !! (r_id repo, client_id))).

(** A row that is there but was not found cannot be inserted again. *)
Definition seaf_repo_set_last_gc_id (o : SyncOracle) (s : SyncWorld) (repo : SeafRepo) (client_id : string) (gc_id : option string)
  : Z * SyncWorld :=
  if sqlite then (0, s)
  else if so_gc_fails o GSet || (so_gc_fails o GHas && negb (is_none (sy_last_gc s !! (r_id repo, client_id)))) then (-1, s)
  else (0, set_last_gc s (<[(r_id repo, client_id) := gc_id]> (sy_last_gc s))).

Definition seaf_repo_remove_last_gc_id (o : SyncOracle) (s : SyncWorld) (repo : SeafRepo) (client_id : string) : SyncWorld :=
  if sqlite || so_gc_fails o GRemove then s
  else set_last_gc s (delete (r_id repo, client_id) (sy_last_gc s)).

Definition save_last_gc_id (o : SyncOracle) (s : SyncWorld) (repo_id token : string) : Z * SyncWorld :=
  match seaf_repo_manager_get_repo (w_db (sy_world s)) (w_commits (sy_world s)) repo_id with
  | None => (-1, s)
  | Some repo =>
      let gc_id := if so_gc_fails o GCurrent then None
                   else seaf_repo_get_current_gc_id (se_db_type se) (w_db (sy_world s)) repo in
      (0, (seaf_repo_set_last_gc_id o s repo token gc_id).2)
  end.

(** ** The token and the permission of an upload *)

(** The replies that end a request, or the state and the token to go on with. *)
Definition authorized (o : SyncOracle) (s : SyncWorld) (req : Request) (repo_id op : string)
  : option (list Z * SyncWorld + SyncWorld) :=
  match validate_token (se_db_type se) (auth_of o s) (sy_http s) req repo_id false with
  | (status, replied, username, h) =>
      let s := set_http s h in
      if negb (status =? EVHTP_RES_OK) then Some (inl ((if replied : bool then [status; status] else [status]), s))
      else match check_permission (auth_of o s) (sy_http s) repo_id (text username) op false with
           | None => None
           | Some (status, h) =>
               let s := set_http s h in
               Some (if status =? EVHTP_RES_FORBIDDEN then inl ([EVHTP_RES_FORBIDDEN], s) else inr s)
           end
  end.

(** ** Uploading a commit *)

Section commit.
Context {J : Type} `{Jansson J} `{!SearpcMembers J} (is_uuid_valid : string -> bool) (ascii_strdown : string -> string).
(** [json_loadb]; how much of a text is valid UTF-8, if not all of it. *)
Context (json_loadb : string -> option J) (utf8_invalid_at : string -> option nat).

(** Bytes that are not UTF-8 become question marks. *)
Fixpoint clean_utf8_data (n : nat) (data : string) : string :=
  match n, data with
  | S n, String _ _ =>
      match utf8_invalid_at data with
      | None => data
      | Some k => string_take k data +:+ "?" +:+ clean_utf8_data n (String.substring (S k) (String.length data) data)
      end
  | _, _ => data
  end.

(** The bytes that are cleaned: all but a NUL at the end. *)
Definition cleaned (data : string) : string :=
  let len := String.length data in
  match String.get (len - 1) data with
  | Some c => if Ascii.eqb c (Ascii.ascii_of_nat 0)
              then clean_utf8_data len (string_take (len - 1) data) +:+ String c EmptyString
              else clean_utf8_data len data
  | None => data
  end.

Definition seaf_commit_from_data (now : Z) (id data : string) : option SeafCommit :=
  object ← (match json_loadb data with Some object => Some object | None => json_loadb (cleaned data) end);
  commit_from_json_object is_uuid_valid ascii_strdown now id object.

(** The replies of [put_commit_cb]. *)
Definition put_commit_cb (o : SyncOracle) (s : SyncWorld) (req : Request) (repo_id id data : string)
  : option (list Z * SyncWorld) :=
  match authorized o s req repo_id "upload" with
  | None => None
  | Some (inl r) => Some r
  | Some (inr s) =>
      Some match data with
           | EmptyString => ([EVHTP_RES_BADREQ], s)
           | _ =>
               match seaf_commit_from_data (o_now (so_o o)) id data with
               | None => ([EVHTP_RES_BADREQ], s)
               | Some commit =>
                   if negb (strcmp (CommitMgr.repo_id commit) repo_id =? 0) then ([EVHTP_RES_BADREQ], s)
                   else
                     let '(ret, cs) := seaf_commit_manager_add_commit (o_commit_write (so_o o)) (w_commits (sy_world s)) commit in
                     let s := set_world s (set_commits (sy_world s) cs) in
                     if ret <? 0 then ([EVHTP_RES_SERVERR], s)
                     else
                       let '(ret, s) := save_last_gc_id o s repo_id (text (get_auth_token req)) in
                       ([if ret <? 0 then EVHTP_RES_SERVERR else EVHTP_RES_OK], s)
               end
           end
  end.
End commit.

(** ** The tests of an update *)

Definition should_ignore (filename : string) : bool := existsb (fun part => strcmp part ".." =? 0) (pieces filename).

(** A changed path has a component [..]; nothing is said when the trees cannot be compared. *)
Definition include_invalid_path (s : SyncWorld) (base new_commit : SeafCommit) : option bool :=
  let w := sy_world s in
  match diff_commits (w_fs w) (r_version <$> seaf_repo_manager_get_repo (w_db w) (w_commits w) (CommitMgr.repo_id base)) fuel
          (root_id base) (root_id new_commit) [] true with
  | None => None
  | Some (rc, entries) =>
      Some (if rc <? 0 then false
            else existsb (fun e => match de_new_name e with Some n => should_ignore n | None => should_ignore (de_name e) end) entries)
  end.

Context (verify_client_blocks : bool).

(** From the library to the test of the blocks: a reply, or the commit with its base. *)
Definition update_checks (o : SyncOracle) (s : SyncWorld) (repo_id new_commit_id : string) : option (Z + SeafCommit * SeafCommit) :=
  let w := sy_world s in
  match seaf_repo_manager_get_repo (w_db w) (w_commits w) repo_id with
  | None => Some (inl EVHTP_RES_SERVERR)
  | Some repo =>
      match seaf_commit_manager_get_commit (w_commits w) new_commit_id with
      | None => Some (inl EVHTP_RES_SERVERR)
      | Some new_commit =>
          match (p ← parent_id new_commit; seaf_commit_manager_get_commit (w_commits w) p) with
          | None => Some (inl EVHTP_RES_BADREQ)
          | Some base =>
              match include_invalid_path s base new_commit with
              | None => None
              | Some true => Some (inl EVHTP_RES_BADREQ)
              | Some false =>
                  if seaf_quota_manager_check_quota (w_db w) (so_shares o) (so_quotas o) (so_perm_fails o) (so_quota_fails o)
                       (so_quota_config o) repo_id <? 0
                  then Some (inl SEAF_HTTP_RES_NOQUOTA)
                  else if negb verify_client_blocks then Some (inr (base, new_commit))
                  else match check_blocks (w_fs w) fuel (so_blocks o) repo base new_commit with
                       | None => None
                       | Some (inl _) => Some (inl SEAF_HTTP_RES_BLOCK_MISSING)
                       | Some (inr _) => Some (inr (base, new_commit))
                       end
              end
          end
      end
  end.

(** ** [fast_forward_or_merge] *)

Definition FF_MAX_RETRY_COUNT : nat := 3.

(** What it shares with [gen_new_commit]: the commit stands for the new tree and its author. *)
Definition ff_args (repo_id : string) (base new_commit : SeafCommit) (check_gc : bool) (last_gc_id : option string) : gnc_args :=
  mkArgs repo_id base (root_id new_commit) (creator_name new_commit) EmptyString true check_gc last_gc_id.

(** Up to [retry]: the mark of the client is read and removed. *)
Definition ff_start (o : SyncOracle) (s : SyncWorld) (repo_id token : string) (base new_commit : SeafCommit)
  : gnc_args * gnc_pc * SyncWorld :=
  match seaf_repo_manager_get_repo (w_db (sy_world s)) (w_commits (sy_world s)) repo_id with
  | None => (ff_args repo_id base new_commit false None, GncDone (inl CE_GENERAL), s)
  | Some repo =>
      if seaf_repo_has_last_gc_id o s repo token then
        (ff_args repo_id base new_commit true (seaf_repo_get_last_gc_id o s repo token), GncRetry repo new_commit 0,
         seaf_repo_remove_last_gc_id o s repo token)
      else (ff_args repo_id base new_commit false None, GncRetry repo new_commit 0, s)
  end.

(** The head could not be moved. *)
Definition ff_again (new_commit : SeafCommit) (retry_cnt : nat) : gnc_pc :=
  if (S retry_cnt <=? FF_MAX_RETRY_COUNT)%nat then GncSleep new_commit (S retry_cnt) else GncDone (inl CE_GENERAL).

Definition ff_phase_a (o : Oracle) (repo : SeafRepo) (new_commit current_head merged : SeafCommit) (retry_cnt : nat) (w : World)
  : option (gnc_pc * World) :=
  match phase_a sha256 fuel se g_utf8_validate o w (gnc_branch repo merged) (commit_id current_head) with
  | None => None
  | Some (None, w) => Some (ff_again new_commit retry_cnt, w)
  | Some (Some (acl_before, changes), w) =>
      Some (GncPhaseB repo new_commit current_head merged retry_cnt acl_before changes, w)
  end.

Definition ff_phase_b (o : Oracle) (a : gnc_args) (repo : SeafRepo) (new_commit current_head merged : SeafCommit) (retry_cnt : nat)
    (acl_before : string) (changes : CfV2EditPrepared) (w : World) : gnc_pc * World :=
  let '(published, gc_conflict, w) :=
    phase_b sha256 se g_utf8_validate o w (gnc_branch repo merged) (commit_id current_head) (ga_check_gc a) (ga_last_gc_id a)
      (Some (r_store_id repo)) acl_before changes in
  (if published <? 0 then
     if gc_conflict : bool then GncDone (inl CE_GC_CONFLICT) else ff_again new_commit retry_cnt
   else GncDone (inr (commit_id merged)), w).

Definition ff_step (o : Oracle) (a : gnc_args) (pc : gnc_pc) (w : World) : option (gnc_pc * World) :=
  match pc with
  | GncRetry repo new n => gnc_retry sha1 dir_hash fuel o a repo new n w
  | GncPhaseA repo new head merged n => ff_phase_a o repo new head merged n w
  | GncPhaseB repo new head merged n acl changes => Some (ff_phase_b o a repo new head merged n acl changes w)
  | GncSleep new n => Some (gnc_wake a new n w)
  | GncStart | GncDone _ => None
  end.

(** ** [put_update_branch_cb] *)

(** Where a request is: at its start, at the tests, at the beginning of
    [fast_forward_or_merge], in it, done with the replies that were sent. *)
Inductive up_pc :=
| UpStart
| UpChecks
| UpBegin (base new_commit : SeafCommit)
| UpMove (a : gnc_args) (pc : gnc_pc)
| UpDone (replies : list Z).

Definition put_update_branch_cb (o : SyncOracle) (req : Request) (repo_id : string) (head : option string) (pc : up_pc)
    (s : SyncWorld) : option (up_pc * SyncWorld) :=
  match pc with
  | UpStart =>
      if negb (is_object_id_valid head) then Some (UpDone [EVHTP_RES_BADREQ], s)
      else match authorized o s req repo_id "upload" with
           | None => None
           | Some (inl (replies, s)) => Some (UpDone replies, s)
           | Some (inr s) => Some (UpChecks, s)
           end
  | UpChecks =>
      match update_checks o s repo_id (text head) with
      | None => None
      | Some (inl status) => Some (UpDone [status], s)
      | Some (inr (base, new_commit)) => Some (UpBegin base new_commit, s)
      end
  | UpBegin base new_commit =>
      let '(a, pc, s) := ff_start o s repo_id (text (get_auth_token req)) base new_commit in Some (UpMove a pc, s)
  | UpMove a (GncDone (inr _)) =>
      Some (UpDone [EVHTP_RES_OK],
            set_world s (emit (emit (sy_world s) (EvMergeVirtualRepo repo_id)) (EvUpdateRepoSize repo_id)))
  | UpMove a (GncDone (inl e)) =>
      Some (UpDone [match e with CE_GC_CONFLICT => EVHTP_RES_CONFLICT | _ => EVHTP_RES_SERVERR end], s)
  | UpMove a pc => '(pc, w) ← ff_step (so_o o) a pc (sy_world s); Some (UpMove a pc, set_world s w)
  | UpDone _ => None
  end.
End sync.
