(* ===== verification/SyncUpdateProof.v ===== *)
(** * What an update by synchronisation promises

    An update runs among other processes that change the shared state between its steps.  One
    that answers with success was permitted and has passed its tests in the state it found them
    in, and has moved the head of its library exactly once, to the uploaded commit or to a merge
    of it; one that answers with an error has not moved it. *)

From S2P Require Import Prelude Hex FsObj Paths FsMgr FsJson Walk Diff Merge CommitMgr CommitJson Repo CfV2Acl Publish PublishProof RepoPerm Quota SyncAuth SyncTree SyncUpdate.

#[local] Arguments string_take : simpl never.

Section steps.
Context (sha1 : list Z -> list Z) (sha256 : list Z -> string).
Context (dir_hash : Z -> list SeafDirent -> string).
Context (fuel : nat) (se : Session) (g_utf8_validate : string -> bool).
Abbreviation step_ff := (ff_step sha1 sha256 dir_hash fuel se g_utf8_validate).
Abbreviation step_gnc := (gnc_step sha1 sha256 dir_hash fuel se g_utf8_validate).

(** Before the compare-and-swap, and after a pause, it does what [gen_new_commit] does. *)
Lemma ff_step_shared o a pc w :
  match pc with GncRetry _ _ _ | GncSleep _ _ => step_ff o a pc w = step_gnc o a pc w | _ => True end.
Proof. by destruct pc. Qed.

Lemma ff_step_commits o a pc w pc' w' : step_ff o a pc w = Some (pc', w') -> w_commits w ⊆ w_commits w'.
Proof.
  intros E. pose proof (ff_step_shared o a pc w) as Hs.
  destruct pc as [|repo new n|repo new head merged n|repo new head merged n acl ch|new n|]; try done.
  - rewrite Hs in E. by apply gnc_step_frame in E as [? _].
  - cbn [ff_step] in E. unfold ff_phase_a in E.
    destruct (phase_a _ _ _ _ _ _ _) as [[[[acl ch]|] w1]|] eqn:E1; [..|done]; apply phase_a_frame in E1 as [Ec _];
      injection E as _ <-; by rewrite Ec.
  - cbn [ff_step] in E. unfold ff_phase_b in E. destruct (phase_b _ _ _ _ _ _ _ _ _ _ _ _) as [[r gc] w1] eqn:E1.
    apply phase_b_spec in E1 as [Ec _]. injection E as _ <-. by rewrite Ec.
  - rewrite Hs in E. by apply gnc_step_frame in E as [? _].
Qed.

Lemma working_again rid w a new n : own_commit w a new -> working rid w a (ff_again new n).
Proof. intros H. unfold ff_again. by destruct (_ <=? _)%nat. Qed.

Lemma ff_working rid o a pc w pc' w' :
  ga_repo_id a = rid -> working rid w a pc -> step_ff o a pc w = Some (pc', w') -> ids_unique pc' w' ->
  working rid w' a pc'.
Proof.
  intros Ha Hok E Hids. pose proof (ff_step_shared o a pc w) as Hs. pose proof (ff_step_commits _ _ _ _ _ _ E) as Hc.
  destruct pc as [|repo new n|repo new head merged n|repo new head merged n acl ch|new n|]; try done.
  - rewrite Hs in E. by eapply working_step.
  - apply (working_mono g_utf8_validate _ _ w') in Hok; [|done]. cbn [ff_step] in E. unfold ff_phase_a in E.
    destruct (phase_a _ _ _ _ _ _ _) as [[[[acl ch]|] w1]|]; [..|done]; injection E as <- <-; [done|].
    apply working_again. apply Hok.
  - apply (working_mono g_utf8_validate _ _ w') in Hok; [|done]. cbn [ff_step] in E. unfold ff_phase_b in E.
    destruct (phase_b _ _ _ _ _ _ _ _ _ _ _ _) as [[r gc] w1]. injection E as <- <-.
    destruct (r <? 0); [|done]. destruct gc; [done|]. apply working_again. apply Hok.
  - rewrite Hs in E. by eapply working_step.
Qed.

Lemma again_not_done new n id : ff_again new n <> GncDone (inr id).
Proof. unfold ff_again. by destruct (_ <=? _)%nat. Qed.

(** The commit a call is about. *)
Definition carried (pc : gnc_pc) : option SeafCommit :=
  match pc with
  | GncRetry _ new _ | GncPhaseA _ new _ _ _ | GncPhaseB _ new _ _ _ _ _ | GncSleep new _ => Some new
  | GncStart | GncDone _ => None
  end.

Lemma ff_carried o a pc w pc' w' new :
  step_ff o a pc w = Some (pc', w') -> carried pc' = Some new -> carried pc = Some new.
Proof.
  assert (Hag : forall c n, carried (ff_again c n) = Some new -> c = new).
  { intros c n. unfold ff_again. destruct (_ <=? _)%nat; by intros [= <-]. }
  destruct pc as [|repo c n|repo c head merged n|repo c head merged n acl ch|c n|]; cbn [ff_step carried]; [done|..|done].
  - unfold gnc_retry. intros E. repeat case_match; by simplify_eq.
  - unfold ff_phase_a. intros E. repeat case_match; simplify_eq; [by cbn|]. by intros ->%Hag.
  - unfold ff_phase_b. destruct (phase_b _ _ _ _ _ _ _ _ _ _ _ _) as [[r gc] w1]. intros [= <- _].
    repeat case_match; try done. by intros ->%Hag.
  - unfold gnc_wake. intros [= E]. case_match; by simplify_eq.
Qed.

Lemma ff_publishes rid o a pc w pc' w' :
  working rid w a pc -> step_ff o a pc w = Some (pc', w') ->
  (head_of w' rid = head_of w rid /\ forall id, pc' <> GncDone (inr id)) \/
  (exists new head merged, carried pc = Some new /\ pc' = GncDone (inr (commit_id merged)) /\ publishes rid a new head merged w w').
Proof.
  intros Hok E. pose proof (ff_step_shared o a pc w) as Hs.
  destruct pc as [|repo new n|repo new head merged n|repo new head merged n acl ch|new n|]; try done.
  - left. rewrite Hs in E. pose proof (gnc_step_frame _ _ _ _ _ _ _ _ _ _ _ _ E) as [_ Hd]. cbn in Hd.
    split; [unfold head_of; by rewrite Hd|]. intros id. cbn [gnc_step] in E. unfold gnc_retry in E. repeat case_match; by simplify_eq.
  - left. cbn [ff_step] in E. unfold ff_phase_a in E.
    destruct (phase_a _ _ _ _ _ _ _) as [[[[acl ch]|] w1]|] eqn:E1; [..|done]; apply phase_a_frame in E1 as [_ Ed];
      injection E as <- <-; (split; [unfold head_of; by rewrite Ed|]); [done|]. intros id. apply again_not_done.
  - destruct Hok as ([Hn Hr] & Hown & Hready). cbn [ff_step] in E. unfold ff_phase_b in E.
    destruct (phase_b _ _ _ _ _ _ _ _ _ _ _ _) as [[r gc] w1] eqn:E1. injection E as <- <-.
    apply phase_b_spec in E1 as [Ec [[Hneg Hd]|(-> & _ & _ & (h' & Hh' & Hold) & _ & _ & Hb)]].
    + left. split; [unfold head_of; by rewrite Hd|]. destruct (Z.ltb_spec r 0); [|lia]. destruct gc; [done|].
      intros id. apply again_not_done.
    + right. exists new, head, merged. split; [done|]. split; [done|].
      cbn [gnc_branch seaf_branch_set_commit b_name b_repo_id] in Hh', Hb. rewrite Hn, Hr in Hh', Hb.
      split_and!; [done..|by exists h'|]. unfold head_of. rewrite Hb, lookup_insert_eq. f_equal.
      eapply head_taken, Hready.
  - left. rewrite Hs in E. pose proof (gnc_step_frame _ _ _ _ _ _ _ _ _ _ _ _ E) as [_ Hd]. cbn in Hd.
    split; [unfold head_of; by rewrite Hd|]. intros id. cbn [gnc_step] in E. injection E as E. unfold gnc_wake in E. case_match; by simplify_eq.
Qed.

(** How many steps are left. *)
Definition ff_measure (pc : gnc_pc) : nat :=
  match pc with
  | GncStart | GncDone _ => 0
  | GncRetry _ _ n => 4 * (3 - n) + 3
  | GncPhaseA _ _ _ _ n => 4 * (3 - n) + 2
  | GncPhaseB _ _ _ _ n _ _ => 4 * (3 - n) + 1
  | GncSleep _ n => 4 * (3 - n) + 4
  end.

Lemma again_measure new n : (ff_measure (ff_again new n) < 4 * (3 - n) + 1)%nat.
Proof. unfold ff_again, FF_MAX_RETRY_COUNT. destruct (Nat.leb_spec (S n) 3); cbn [ff_measure]; lia. Qed.

Lemma ff_measure_decreases o a pc w pc' w' : step_ff o a pc w = Some (pc', w') -> (ff_measure pc' < ff_measure pc)%nat.
Proof.
  destruct pc as [|repo new n|repo new head merged n|repo new head merged n acl ch|new n|]; cbn [ff_step]; [done|..|done].
  - unfold gnc_retry. intros E. repeat case_match; simplify_eq; cbn [ff_measure]; lia.
  - unfold ff_phase_a. intros E. pose proof (again_measure new n). repeat case_match; simplify_eq; cbn [ff_measure] in *; lia.
  - unfold ff_phase_b. destruct (phase_b _ _ _ _ _ _ _ _ _ _ _ _) as [[r gc] w1]. intros [= <- _].
    pose proof (again_measure new n). repeat case_match; cbn [ff_measure] in *; lia.
  - unfold gnc_wake. intros [= E]. case_match; simplify_eq; cbn [ff_measure]; lia.
Qed.
End steps.

(** ** Runs of an update *)

(** One step of the request. *)
Record up_item := mkItem { it_oracle : SyncOracle; it_before : SyncWorld; it_after : SyncWorld }.

Section runs.
Context (sha1 : list Z -> list Z) (sha256 : list Z -> string).
Context (dir_hash : Z -> list SeafDirent -> string).
Context (fuel : nat) (se : Session) (g_utf8_validate : string -> bool).
Context (verify_client_blocks : bool) (req : Request) (rid : string) (wanted_head : option string).
Abbreviation step_up := (fun o => put_update_branch_cb sha1 sha256 dir_hash fuel se g_utf8_validate verify_client_blocks o req rid wanted_head).

(** No other commit has the id of a merge, and [commit_from_json_object] accepts only roots
    of 40 digits. *)
Definition up_ids_ok (pc : up_pc) (s : SyncWorld) : Prop :=
  match pc with
  | UpMove a pc => ids_unique pc (sy_world s) /\ (String.length (ga_new_root a) <= 40)%nat
  | _ => True
  end.

(** The request takes a step, or others change the state.  The trace has the request's own
    steps: what the environment answered, the state before and the state after. *)
Inductive up_run (s0 : SyncWorld) : list up_item -> up_pc -> SyncWorld -> Prop :=
| up_start : up_run s0 [] UpStart s0
| up_own tr pc s o pc' s' :
    up_run s0 tr pc s -> step_up o pc s = Some (pc', s') -> up_ids_ok pc' s' ->
    up_run s0 (tr ++ [mkItem o s s']) pc' s'
| up_others tr pc s s' :
    up_run s0 tr pc s -> w_commits (sy_world s) ⊆ w_commits (sy_world s') -> up_run s0 tr pc s'.

Definition keeps (t : up_item) : Prop :=
  head_of (sy_world (it_after t)) rid = head_of (sy_world (it_before t)) rid.

(** The step that lets a request in: the library has no access rules, the request names a
    token, which is cached for this library or found in its table, and the owner of the token
    is cached as allowed to upload or is allowed by the tables of permissions. *)
Definition permitted (t : up_item) : Prop :=
  let e := auth_of (it_oracle t) (it_before t) in
  let h := sy_http (it_before t) in
  exists token email, get_auth_token req = Some token /\
    0 <= cf_v2_acl_unscoped (se_db_type se) (ae_db e) (ae_acl_fails e) rid /\
    ((exists info, token_cache h !! token = Some info /\ ti_repo_id info = rid /\ ti_email info = email) \/
     seaf_repo_manager_get_email_by_token (ae_tokens e) (ae_token_fails e) rid token = Some email) /\
    (is_Some (lookup_perm_cache h rid email "upload") \/ permission_read e rid email "upload" = Some true).

(** The step of the tests: in the state of that step the library and the two commits are
    there, no entry of the diff of their trees, if these can be compared, has a component [..],
    the quota is not used up, and, where blocks are verified, none is missing. *)
Record tested (t : up_item) (base new : SeafCommit) : Prop := {
  te_new : seaf_commit_manager_get_commit (w_commits (sy_world (it_before t))) (text wanted_head) = Some new;
  te_base : exists p, parent_id new = Some p /\
    seaf_commit_manager_get_commit (w_commits (sy_world (it_before t))) p = Some base;
  te_paths : exists rc entries,
    diff_commits (w_fs (sy_world (it_before t)))
      (r_version <$> seaf_repo_manager_get_repo (w_db (sy_world (it_before t))) (w_commits (sy_world (it_before t)))
                       (CommitMgr.repo_id base))
      fuel (root_id base) (root_id new) [] true = Some (rc, entries) /\
    (0 <= rc -> Forall (fun e => ".." ∉ pieces (default (de_name e) (de_new_name e))) entries);
  te_quota : seaf_quota_manager_check_quota (w_db (sy_world (it_before t))) (so_shares (it_oracle t)) (so_quotas (it_oracle t))
    (so_perm_fails (it_oracle t)) (so_quota_fails (it_oracle t)) (so_quota_config (it_oracle t)) rid = 0;
  te_blocks : exists repo,
    seaf_repo_manager_get_repo (w_db (sy_world (it_before t))) (w_commits (sy_world (it_before t))) rid = Some repo /\
    (verify_client_blocks = true ->
     check_blocks (w_fs (sy_world (it_before t))) fuel (so_blocks (it_oracle t)) repo base new = Some (inr tt))
}.

(** The commit the client asked for, on its parent; the first step permitted the request and
    the second one tested it. *)
Record requested (tr : list up_item) (w : World) (base new : SeafCommit) : Prop := {
  rq_stored : stored_commit (w_commits w) new;
  rq_id : commit_id new = text wanted_head;
  rq_parent : parent_id new = Some (commit_id base);
  rq_steps : exists first second rest, tr = first :: second :: rest /\ permitted first /\ tested second base new
}.

Lemma requested_mono tr tr' w w' base new :
  w_commits w ⊆ w_commits w' -> requested tr w base new -> requested (tr ++ tr') w' base new.
Proof.
  intros Hc [H1 H2 H3 (t1 & t2 & rest & -> & H4)]. split; try done; [by eapply stored_commit_mono|].
  by exists t1, t2, (rest ++ tr').
Qed.

Lemma requested_others tr w w' base new :
  w_commits w ⊆ w_commits w' -> requested tr w base new -> requested tr w' base new.
Proof. intros Hc H. apply (requested_mono tr [] w w') in H; [|done]. by rewrite app_nil_r in H. Qed.

(** One transition moved the head, to [merged]. *)
Definition moved_once (tr : list up_item) (base new : SeafCommit) (id : string) : Prop :=
  exists a head merged t tr1 tr2, ga_repo_id a = rid /\ ga_base a = base /\ id = commit_id merged /\
    tr = tr1 ++ t :: tr2 /\ Forall keeps (tr1 ++ tr2) /\
    publishes rid a new head merged (sy_world (it_before t)) (sy_world (it_after t)).

Definition updating (tr : list up_item) (pc : up_pc) (s : SyncWorld) : Prop :=
  match pc with
  | UpStart => tr = []
  | UpChecks => exists first, tr = [first] /\ permitted first /\ keeps first
  | UpBegin base new => Forall keeps tr /\ requested tr (sy_world s) base new
  | UpMove a pc =>
      exists base new, requested tr (sy_world s) base new /\ ga_repo_id a = rid /\ ga_base a = base /\
        working rid (sy_world s) a pc /\ (forall c, carried pc = Some c -> c = new) /\
        match pc with GncDone (inr id) => moved_once tr base new id | _ => Forall keeps tr end
  | UpDone replies =>
      if bool_decide (EVHTP_RES_OK ∈ replies)
      then replies = [EVHTP_RES_OK] /\ exists base new id, requested tr (sy_world s) base new /\ moved_once tr base new id
      else Forall keeps tr
  end.

Lemma updating_others tr pc s s' :
  updating tr pc s -> w_commits (sy_world s) ⊆ w_commits (sy_world s') -> updating tr pc s'.
Proof.
  intros H Hc. destruct pc as [| |base new|a pc|replies]; try done.
  - destruct H as [Hk Hr]. split; [done|]. by eapply requested_others.
  - destruct H as (base & new & Hr & H1 & H2 & Hw & Hcar & Hpc). exists base, new. split; [by eapply requested_others|].
    split_and!; try done. by eapply (working_mono g_utf8_validate).
  - cbn in *. destruct (bool_decide _); [|done]. destruct H as [-> (base & new & id & Hr & Hm)]. split; [done|].
    exists base, new, id. split; [by eapply requested_others|done].
Qed.

Lemma keeps_snoc tr t : Forall keeps tr -> keeps t -> Forall keeps (tr ++ [t]).
Proof. intros H E. apply Forall_app. split; [done|]. by apply Forall_singleton. Qed.

Lemma moved_once_snoc tr base new id t : moved_once tr base new id -> keeps t -> moved_once (tr ++ [t]) base new id.
Proof.
  intros (a & head & merged & u & tr1 & tr2 & H1 & H2 & H3 & -> & Hk & Hp) E.
  exists a, head, merged, u, tr1, (tr2 ++ [t]). split_and!; try done.
  - by rewrite <- app_assoc.
  - rewrite app_assoc. by apply keeps_snoc.
Qed.

(** What [validate_token] has seen when it lets a request in; the permissions it leaves alone. *)
Lemma validate_token_ok o s replied username h :
  validate_token (se_db_type se) (auth_of o s) (sy_http s) req rid false = (EVHTP_RES_OK, replied, username, h) ->
  perm_cache h = perm_cache (sy_http s) /\
  exists token email, get_auth_token req = Some token /\ username = Some email /\
    0 <= cf_v2_acl_unscoped (se_db_type se) (w_db (sy_world s)) (so_acl_fails o) rid /\
    ((exists info, token_cache (sy_http s) !! token = Some info /\ ti_repo_id info = rid /\ ti_email info = email) \/
     seaf_repo_manager_get_email_by_token (so_tokens o) (so_token_fails o) rid token = Some email).
Proof.
  unfold validate_token, validate_token_read. cbn [ae_db ae_acl_fails ae_tokens ae_token_fails auth_of].
  destruct (Z.ltb_spec (cf_v2_acl_unscoped (se_db_type se) (w_db (sy_world s)) (so_acl_fails o) rid) 0); [done|].
  destruct (get_auth_token req) as [token|]; [|done].
  destruct (token_cache (sy_http s) !! token) as [info|] eqn:Et.
  - destruct (Z.eqb_spec (strcmp (ti_repo_id info) rid) 0) as [E|]; [|done]. cbn [negb]. intros [= <- <- <-].
    split; [done|]. exists token, (ti_email info). split_and!; try done. left. exists info. by apply strcmp_eq in E.
  - destruct (seaf_repo_manager_get_email_by_token _ _ _ _) as [email|] eqn:Ee; [|done]. intros [= <- <- <-].
    split; [done|]. exists token, email. by split_and!; try right.
Qed.

Lemma check_permission_ok e h username op status h' :
  check_permission e h rid username op false = Some (status, h') -> status <> EVHTP_RES_FORBIDDEN ->
  is_Some (lookup_perm_cache h rid username op) \/ permission_read e rid username op = Some true.
Proof.
  unfold check_permission. destruct (lookup_perm_cache h rid username op); [by left|].
  destruct (permission_read e rid username op) as [[]|]; cbn; [by right| |done]. by intros [= <- _].
Qed.

Lemma authorized_spec o s r :
  authorized se o s req rid "upload" = Some r ->
  match r with
  | inl (replies, s') => sy_world s' = sy_world s /\ EVHTP_RES_OK ∉ replies
  | inr s' => sy_world s' = sy_world s /\ permitted (mkItem o s s')
  end.
Proof.
  unfold authorized. destruct (validate_token _ _ _ _ _ _) as [[[status replied] username] h] eqn:Ev.
  destruct (Z.eqb_spec status EVHTP_RES_OK) as [->|Hne]; cbn [negb].
  - apply validate_token_ok in Ev as (Hpc & token & email & Htok & -> & Hacl & Hfrom).
    destruct (check_permission _ _ _ _ _ _) as [[status' h']|] eqn:Ep; [|done].
    destruct (Z.eqb_spec status' EVHTP_RES_FORBIDDEN) as [|Hnf]; intros [= <-].
    + split; [done|]. by intros H%list_elem_of_singleton.
    + split; [done|]. exists token, email. split_and!; try done. cbn [text default id] in Ep.
      apply check_permission_ok in Ep; [|done]. unfold lookup_perm_cache in *. cbn [sy_http set_http] in Ep.
      by rewrite Hpc in Ep.
  - intros [= <-]. split; [done|]. destruct replied; intros H; [|by apply list_elem_of_singleton in H].
    apply elem_of_cons in H as [H|H%list_elem_of_singleton]; done.
Qed.

Lemma valid_paths s base new :
  include_invalid_path fuel s base new = Some false ->
  exists rc entries,
    diff_commits (w_fs (sy_world s))
      (r_version <$> seaf_repo_manager_get_repo (w_db (sy_world s)) (w_commits (sy_world s)) (CommitMgr.repo_id base))
      fuel (root_id base) (root_id new) [] true = Some (rc, entries) /\
    (0 <= rc -> Forall (fun e => ".." ∉ pieces (default (de_name e) (de_new_name e))) entries).
Proof.
  unfold include_invalid_path. destruct (diff_commits _ _ _ _ _ _ _) as [[rc entries]|]; [|done].
  intros [= E]. exists rc, entries. split; [done|]. intros Hrc.
  destruct (Z.ltb_spec rc 0); [lia|]. apply Forall_forall. intros e He Hdots.
  apply not_true_iff_false in E. apply E, existsb_exists. exists e.
  split; [by apply list_elem_of_In|]. destruct (de_new_name e); cbn in Hdots; apply existsb_exists; exists "..";
    (split; [by apply list_elem_of_In|by apply Z.eqb_eq, strcmp_eq]).
Qed.

Lemma update_checks_spec o s s' r :
  update_checks fuel verify_client_blocks o s rid (text wanted_head) = Some r ->
  match r with
  | inl status => status <> EVHTP_RES_OK
  | inr (base, new) => tested (mkItem o s s') base new
  end.
Proof.
  unfold update_checks. destruct (seaf_repo_manager_get_repo _ _ rid) as [repo|] eqn:Er; [|by intros [= <-]].
  destruct (seaf_commit_manager_get_commit _ (text wanted_head)) as [new|] eqn:En; [|by intros [= <-]].
  destruct (parent_id new) as [p|] eqn:Ep; cbn [mbind option_bind]; [|by intros [= <-]].
  destruct (seaf_commit_manager_get_commit _ p) as [base|] eqn:Eb; [|by intros [= <-]].
  destruct (include_invalid_path _ _ _ _) as [[]|] eqn:Ei; [by intros [= <-]| |done]. apply valid_paths in Ei.
  destruct (Z.ltb_spec (seaf_quota_manager_check_quota (w_db (sy_world s)) (so_shares o) (so_quotas o) (so_perm_fails o)
    (so_quota_fails o) (so_quota_config o) rid) 0) as [|Hq]; [by intros [= <-]|].
  assert (Ht : (verify_client_blocks = true ->
      check_blocks (w_fs (sy_world s)) fuel (so_blocks o) repo base new = Some (inr tt)) ->
    tested (mkItem o s s') base new).
  { intros Hb. split; [done|by exists p|done| |by exists repo].
    revert Hq. cbn [it_oracle it_before]. unfold seaf_quota_manager_check_quota, seaf_quota_manager_check_quota_with_delta.
    repeat case_match; cbn; done. }
  destruct verify_client_blocks; cbn [negb]; [|by intros [= <-]; apply Ht].
  destruct (check_blocks _ _ _ _ _ _) as [[e|[]]|] eqn:Ec; [by intros [= <-]| |done]. intros [= <-]. by apply Ht.
Qed.

Lemma tested_requested first o s s' base new :
  permitted first -> tested (mkItem o s s') base new ->
  requested [first; mkItem o s s'] (sy_world s) base new.
Proof.
  intros Hp Ht. destruct (te_base _ _ _ Ht) as (p & Epar & Eb). cbn in Eb. pose proof (te_new _ _ _ Ht) as En. cbn in En.
  split; [by eapply get_commit_stored|by apply get_commit_id in En|by rewrite (get_commit_id _ _ _ Eb)|].
  by exists first, (mkItem o s s'), [].
Qed.

Lemma ff_start_spec tr o s token base new a pc s' :
  ff_start se o s rid token base new = (a, pc, s') -> requested tr (sy_world s) base new -> (String.length (ga_new_root a) <= 40)%nat ->
  sy_world s' = sy_world s /\ ga_repo_id a = rid /\ ga_base a = base /\ working rid (sy_world s) a pc /\
  (forall c, carried pc = Some c -> c = new) /\ (forall id, pc <> GncDone (inr id)).
Proof.
  intros E [H1 H2 H3 _] Hlen. unfold ff_start in E.
  destruct (seaf_repo_manager_get_repo _ _ rid) as [repo|] eqn:Er; [|injection E as <- <- <-; by split_and!].
  assert (Hgoal : forall g l, (String.length (ga_new_root (ff_args rid base new g l)) <= 40)%nat ->
    working rid (sy_world s) (ff_args rid base new g l) (GncRetry repo new 0)).
  { intros g l Hl. split; [by eapply get_repo_of|]. split_and!; [done| |done]. cbn in *. by rewrite string_take_length. }
  assert (Hw : sy_world (seaf_repo_remove_last_gc_id se o s repo token) = sy_world s)
    by (unfold seaf_repo_remove_last_gc_id; by destruct (_ || _)).
  destruct (seaf_repo_has_last_gc_id se o s repo token); injection E as <- <- <-;
    (split_and!; [done|done|done|by apply Hgoal|by intros c [= <-]|done]).
Qed.

(** A step inside [fast_forward_or_merge]. *)
Lemma updating_move tr a pc s o pc1 w1 :
  updating tr (UpMove a pc) s -> (forall r, pc <> GncDone r) ->
  ff_step sha1 sha256 dir_hash fuel se g_utf8_validate (so_o o) a pc (sy_world s) = Some (pc1, w1) ->
  ids_unique pc1 w1 ->
  updating (tr ++ [mkItem o s (set_world s w1)]) (UpMove a pc1) (set_world s w1).
Proof.
  intros (base & new & Hr & H1 & H2 & Hw & Hcar & Hpc) Hnd Es Hids.
  assert (Hk : Forall keeps tr) by (destruct pc as [| | | | |r]; try done; by destruct (Hnd r)).
  exists base, new. cbn [sy_world set_world].
  split; [eapply requested_mono; [by eapply ff_step_commits|done]|]. split; [done|]. split; [done|].
  split; [by eapply ff_working|]. split; [intros c Hc; eapply Hcar, ff_carried; [exact Es|exact Hc]|].
  destruct (ff_publishes _ _ _ _ _ _ rid _ _ _ _ _ _ Hw Es) as [[Hh Hne]|(new' & head & merged & Hc & -> & Hp)].
  - assert (Forall keeps (tr ++ [mkItem o s (set_world s w1)])) by by apply keeps_snoc.
    destruct pc1 as [| | | | |[|id]]; try done. by destruct (Hne id).
  - rewrite (Hcar _ Hc) in Hp. exists a, head, merged, (mkItem o s (set_world s w1)), tr, [].
    split_and!; try done. by rewrite app_nil_r.
Qed.

Lemma updating_own tr pc s o pc' s' :
  updating tr pc s -> step_up o pc s = Some (pc', s') -> up_ids_ok pc' s' ->
  updating (tr ++ [mkItem o s s']) pc' s'.
Proof.
  intros H E Hids. destruct pc as [| |base new|a pc|replies]; cbn [put_update_branch_cb] in E; [..|done].
  - cbn in H. subst tr.
    destruct (negb (is_object_id_valid wanted_head)); [injection E as <- <-; by apply (keeps_snoc [])|].
    destruct (authorized se o s req rid "upload") as [[[replies s1]|s1]|] eqn:Ea; [..|done];
      apply authorized_spec in Ea as [Ew Ha]; injection E as <- <-; cbn [updating app].
    + rewrite bool_decide_false by done. apply (keeps_snoc []); [done|]. unfold keeps. cbn. by rewrite Ew.
    + eexists. split_and!; [done..|]. unfold keeps. cbn. by rewrite Ew.
  - destruct H as (first & -> & Hp & Hk). assert (Hf : Forall keeps [first]) by by apply Forall_singleton.
    destruct (update_checks _ _ _ _ _ _) as [[status|[base new]]|] eqn:Ec; [..|done];
      apply (update_checks_spec _ _ s') in Ec; injection E as <- <-; cbn [updating].
    + rewrite bool_decide_false by (by intros Hs%list_elem_of_singleton). by apply keeps_snoc.
    + split; [by apply keeps_snoc|]. by apply tested_requested.
  - destruct H as [Hk Hr]. destruct (ff_start se o s rid _ base new) as [[a pc] s1] eqn:Es. injection E as <- <-.
    destruct Hids as [_ Hlen]. destruct (ff_start_spec _ _ _ _ _ _ _ _ _ Es Hr Hlen) as (Ew & H1 & H2 & H3 & H4 & H5).
    exists base, new. rewrite Ew. split; [by eapply requested_mono|]. split_and!; try done.
    assert (Forall keeps (tr ++ [mkItem o s s1])) by (apply keeps_snoc; [done|]; unfold keeps; cbn; by rewrite Ew).
    destruct pc as [| | | | |[|id]]; try done. by destruct (H5 id).
  - assert (Hd : (exists r, pc = GncDone r) \/ forall r, pc <> GncDone r) by (destruct pc; by eauto).
    destruct Hd as [[[e|id] ->]|Hnd].
    + destruct H as (base & new & Hr & H1 & H2 & Hw & Hcar & Hpc). injection E as <- <-. cbn [updating].
      rewrite bool_decide_false; [by apply keeps_snoc|]. intros Hs%list_elem_of_singleton. by destruct e.
    + destruct H as (base & new & Hr & H1 & H2 & Hw & Hcar & Hpc). injection E as <- <-. cbn [updating].
      rewrite bool_decide_true by by left. split; [done|].
      exists base, new, id. split; [by apply (requested_mono _ _ (sy_world s))|]. by apply moved_once_snoc.
    + assert (E' : ('(pc, w) ← ff_step sha1 sha256 dir_hash fuel se g_utf8_validate (so_o o) a pc (sy_world s);
        Some (UpMove a pc, set_world s w)) = Some (pc', s')) by (destruct pc; try done; by destruct (Hnd r)).
      apply bind_Some in E' as ([pc1 w1] & Es & [= <- <-]). destruct Hids as [Hids _].
      by apply updating_move with (1 := H).
Qed.

Definition up_measure (pc : up_pc) : nat :=
  match pc with UpStart => 19 | UpChecks => 18 | UpBegin _ _ => 17 | UpMove _ pc => S (ff_measure pc) | UpDone _ => 0 end.

Lemma up_measure_decreases o pc s pc' s' : step_up o pc s = Some (pc', s') -> (up_measure pc' < up_measure pc)%nat.
Proof.
  destruct pc as [| |base new|a pc|replies]; cbn [put_update_branch_cb]; [..|done].
  - intros E. repeat case_match; simplify_eq; cbn [up_measure]; lia.
  - intros E. repeat case_match; simplify_eq; cbn [up_measure]; lia.
  - unfold ff_start. intros E. repeat case_match; simplify_eq; cbn [up_measure ff_measure]; lia.
  - intros E. assert (Hd : (exists r, pc = GncDone r) \/ forall r, pc <> GncDone r) by (destruct pc; by eauto).
    destruct Hd as [[[e|id] ->]|Hnd]; [injection E as <- _; cbn; lia..|].
    assert (E' : ('(pc, w) ← ff_step sha1 sha256 dir_hash fuel se g_utf8_validate (so_o o) a pc (sy_world s);
      Some (UpMove a pc, set_world s w)) = Some (pc', s')) by (destruct pc; try done; by destruct (Hnd r)).
    apply bind_Some in E' as ([pc1 w1] & Es & [= <- <-]). apply ff_measure_decreases in Es. cbn [up_measure]. lia.
Qed.

(** C7: An update of a library by a client that synchronises ends after at most nineteen
    steps, whatever other processes do in between (new commits get fresh ids).  When it answers
    with success, that is its only answer; its first step found the library without access
    rules, the token valid for it and its user allowed to upload; its second step found, in the
    state of that step, the commit the client asked for and its parent, no [..] in a changed
    path where the trees can be compared, the quota not used up and, where blocks are verified,
    none missing; and exactly one of its transitions moved the head of the library: it put, on
    top of the head that was there, that commit or a merge of it with that head.  With every
    other answer it has not moved the head. *)
Theorem update_moves_head_once s0 tr replies s :
  up_run s0 tr (UpDone replies) s ->
  (length tr <= 19)%nat /\
  if bool_decide (EVHTP_RES_OK ∈ replies) then
    replies = [EVHTP_RES_OK] /\ exists base new id, requested tr (sy_world s) base new /\ moved_once tr base new id
  else Forall keeps tr.
Proof.
  intros Hrun. split.
  - enough (H : forall pc, up_run s0 tr pc s -> (length tr + up_measure pc <= 19)%nat) by (apply H in Hrun; cbn in Hrun; lia).
    clear Hrun. intros pc. induction 1 as [|tr pc s o pc' s' _ IH E _|tr pc s s' _ IH _]; [done| |done].
    rewrite length_app. apply up_measure_decreases in E. cbn. lia.
  - enough (H : forall pc, up_run s0 tr pc s -> updating tr pc s) by exact (H _ Hrun).
    clear Hrun. intros pc. induction 1 as [|tr pc s o pc' s' _ IH E Hids|tr pc s s' _ IH Hc]; [constructor| |].
    + by eapply updating_own.
    + by eapply updating_others.
Qed.
End runs.

(** ** Where the code falls short *)

Section shortcomings.
Context (se : Session) (Hdb : se_db_type se <> SEAF_DB_TYPE_SQLITE).

(** The mark of a client is removed when an update begins.  When the update then fails, for
    instance because the head kept moving, the client that asks again is not tested against
    the collector any more, although its blocks are as old as before. *)
Lemma repeated_update_not_tested o s rid token base new a pc s' o' :
  (forall q, so_gc_fails o q = false) ->
  ff_start se o s rid token base new = (a, pc, s') -> ga_check_gc a = true ->
  ga_check_gc (ff_start se o' s' rid token base new).1.1 = false.
Proof.
  intros Hf. unfold ff_start. destruct (seaf_repo_manager_get_repo _ _ rid) as [repo|] eqn:Er; [|by intros [= <- _ _]].
  destruct (seaf_repo_has_last_gc_id se o s repo token) eqn:Eh; intros [= <- _ <-]; [|done]. intros _.
  assert (Ew : sy_world (seaf_repo_remove_last_gc_id se o s repo token) = sy_world s)
    by (unfold seaf_repo_remove_last_gc_id; by destruct (_ || _)).
  rewrite Ew, Er. unfold seaf_repo_has_last_gc_id at 1, seaf_repo_remove_last_gc_id.
  rewrite bool_decide_false by done. rewrite Hf. cbn [orb sy_last_gc set_last_gc]. rewrite lookup_delete_eq.
  by destruct (so_gc_fails o' GHas).
Qed.

(** A tree that cannot be read has no invalid paths. *)
Lemma unreadable_tree_not_refused fuel s base new repo :
  seaf_repo_manager_get_repo (w_db (sy_world s)) (w_commits (sy_world s)) (CommitMgr.repo_id base) = Some repo ->
  seaf_fs_manager_get_seafdir (w_fs (sy_world s)) (r_version repo) (root_id base) <> None ->
  seaf_fs_manager_get_seafdir (w_fs (sy_world s)) (r_version repo) (root_id new) = None ->
  include_invalid_path fuel s base new = Some false.
Proof.
  intros Hr Hb Hn. unfold include_invalid_path. rewrite Hr. cbn [fmap option_fmap option_map]. unfold diff_commits, diff_trees.
  cbn [length Nat.eqb orb negb load_roots]. destruct (seaf_fs_manager_get_seafdir _ _ (root_id base)); [|done]. by rewrite Hn.
Qed.
End shortcomings.

(** ** Examples *)

Section exec.
Context (sha1 : list Z -> list Z) (sha256 : list Z -> string).
Context (dir_hash : Z -> list SeafDirent -> string).
Context (fuel : nat) (se : Session) (g_utf8_validate : string -> bool).
Context (verify : bool) (req : Request) (rid : string) (wanted_head : option string) (o : SyncOracle).

Fixpoint up_exec (n : nat) (tr : list up_item) (pc : up_pc) (s : SyncWorld)
  : option (list up_item * up_pc * SyncWorld) :=
  match n with
  | O => Some (tr, pc, s)
  | S n =>
      match put_update_branch_cb sha1 sha256 dir_hash fuel se g_utf8_validate verify o req rid wanted_head pc s with
      | Some (pc', s') =>
          if match pc' with UpMove a g => ids_uniqueb g (sy_world s') && (String.length (ga_new_root a) <=? 40)%nat | _ => true end
          then up_exec n (tr ++ [mkItem o s s']) pc' s' else None
      | None => None
      end
  end.

Lemma up_exec_run n s0 : forall tr pc s tr' pc' s',
  up_run sha1 sha256 dir_hash fuel se g_utf8_validate verify req rid wanted_head s0 tr pc s ->
  up_exec n tr pc s = Some (tr', pc', s') ->
  up_run sha1 sha256 dir_hash fuel se g_utf8_validate verify req rid wanted_head s0 tr' pc' s'.
Proof.
  induction n as [|n IH]; intros tr pc s tr' pc' s' Hr E; cbn [up_exec] in E.
  - by injection E as <- <- <-.
  - destruct (put_update_branch_cb _ _ _ _ _ _ _ _ _ _ _ _ _) as [[pc1 s1]|] eqn:E1; [|done].
    destruct (match pc1 with UpMove a g => _ | _ => true end) eqn:Hids; [|done].
    eapply IH; [|exact E]. eapply up_own; [exact Hr|exact E1|]. destruct pc1; try done.
    apply andb_true_iff in Hids as [H1 H2]. split; [by apply ids_uniqueb_sound|]. by apply Nat.leb_le.
Qed.
End exec.

(** The library of the example of [SyncTree] at the commit of the client, which asks to move
    it to the other commit. *)
Definition sync_tokens : TokenTables := mkTokens [mkToken toy_rid "me" "t"] [].
Definition sync_shares : Shares := mkShares {[toy_rid := "me"]} [] [] ∅ (fun _ => []) (fun _ => false) false.
Definition sync_oracle : SyncOracle :=
  mkSyncOracle toy_oracle sync_shares sync_tokens (fun _ => false) (fun _ => false) false false false
    (mkQuotas ∅ ∅ ∅ ∅ [] [] [] (fun _ => [])) (fun _ => false) None (fun _ => false) (String.eqb "blk").
Definition sync_world (db : Db) : SyncWorld :=
  mkSync (mkWorld db sync_commits diff_store [] 0) (mkHttp ∅ ∅ ∅) {[(toy_rid, "t") := None]}.
Definition sync_exec (db : Db) : option (list up_item * up_pc * SyncWorld) :=
  up_exec toy_sha1 toy_sha256 toy_hash 5 toy_session (fun _ => true) true (mkReq (Some "t") None) toy_rid (Some c_2) sync_oracle 7 []
    UpStart (sync_world db).

Definition done_with (replies : list Z) (r : option (list up_item * up_pc * SyncWorld)) : bool :=
  match r with Some (_, UpDone l, _) => bool_decide (l = replies) | _ => false end.

Lemma sync_exec_ok : done_with [EVHTP_RES_OK] (sync_exec (toy_db c_1)) = true.
Proof. vm_compute. reflexivity. Qed.

Lemma update_moves_head_once_witness :
  exists tr s base new id, up_run toy_sha1 toy_sha256 toy_hash 5 toy_session (fun _ => true) true (mkReq (Some "t") None) toy_rid (Some c_2)
    (sync_world (toy_db c_1)) tr (UpDone [EVHTP_RES_OK]) s /\ commit_id new = c_2 /\ moved_once toy_rid tr base new id /\
    requested 5 toy_session true (mkReq (Some "t") None) toy_rid (Some c_2) tr (sy_world s) base new.
Proof.
  pose proof sync_exec_ok as H. unfold done_with in H.
  destruct (sync_exec (toy_db c_1)) as [[[tr pc] s]|] eqn:E; [|done]. destruct pc as [| | | |replies]; try done.
  apply bool_decide_eq_true in H. subst replies.
  assert (Hr : up_run toy_sha1 toy_sha256 toy_hash 5 toy_session (fun _ => true) true (mkReq (Some "t") None) toy_rid (Some c_2)
    (sync_world (toy_db c_1)) tr (UpDone [EVHTP_RES_OK]) s) by (eapply up_exec_run; [apply up_start|exact E]).
  destruct (update_moves_head_once _ _ _ _ _ _ _ _ _ _ _ _ _ _ Hr) as [_ Hm].
  rewrite bool_decide_true in Hm by by left. destruct Hm as (_ & base & new & id & Hq & Hm).
  exists tr, s, base, new, id. split; [exact Hr|]. split; [apply Hq|]. split; [exact Hm|exact Hq].
Defined.

(** In a library with access rules [validate_token] answers, and so does its caller. *)
Definition ruled_db : Db :=
  mkDb {[toy_rid]} {[("master", toy_rid) := c_1]} ∅ ∅ ∅ {[toy_rid := [mkAclRow "/d" []]]} (Some ∅).
Definition replies_of (r : option (up_pc * SyncWorld)) : list Z := match r with Some (UpDone l, _) => l | _ => [] end.

Lemma forbidden_sent_twice :
  replies_of (put_update_branch_cb toy_sha1 toy_sha256 toy_hash 5 toy_session (fun _ => true) true sync_oracle (mkReq (Some "t") None)
    toy_rid (Some c_2) UpStart (sync_world ruled_db)) = [EVHTP_RES_FORBIDDEN; EVHTP_RES_FORBIDDEN].
Proof. vm_compute. reflexivity. Qed.
