(* ===== verification/SyncFs.v ===== *)
(** * Objects on the wire ([server/http-server.c])

    Fs objects travel in packs: for each object its id, its size as a big-endian number of
    four bytes, and its contents.  A client sends packs of new objects, and fetches the
    objects of a list in packs of about a megabyte. *)

From S2P Require Import Prelude Hex FsObj Paths FsMgr CommitMgr Repo Publish RepoPerm Quota SyncAuth SyncTree SyncUpdate.

(** The raw objects and blocks by store and id. *)
Abbreviation raw_objects := (gmap (string * string) (list Z)).

Definition FsHdr_size : nat := 44.
Definition MAX_OBJECT_PACK_SIZE : Z := 2 ^ 20.

Definition frame (id : string) (data : list Z) : list Z := bytes_of_string id ++ be_bytes 4 (Z.of_nat (length data)) ++ data.

Section wire.
(** Whether an object can be written. *)
Context (write_ok : string -> bool) (store_id : string).

(** The loop of [post_recv_fs_cb]: the reply, and the objects.  An object without contents
    gets no memory. *)
Fixpoint recv_loop (fuel : nat) (buf : list Z) (objs : raw_objects) : option (Z * raw_objects) :=
  match fuel with
  | O => None
  | S fuel =>
      match buf with
      | [] => Some (EVHTP_RES_OK, objs)
      | _ =>
          if (length buf <? FsHdr_size)%nat then Some (EVHTP_RES_BADREQ, objs)
          else
            let obj_id := string_of_bytes (take 40 buf) in
            let '(con_len, rest) := get32bit (drop 40 buf) in
            if negb (is_object_id_valid (Some obj_id)) then Some (EVHTP_RES_BADREQ, objs)
            else if Z.of_nat (length buf) - Z.of_nat FsHdr_size <? con_len then Some (EVHTP_RES_BADREQ, objs)
            else if con_len =? 0 then Some (EVHTP_RES_SERVERR, objs)
            else if negb (write_ok obj_id) then Some (EVHTP_RES_SERVERR, objs)
            else recv_loop fuel (drop (Z.to_nat con_len) rest) (<[(store_id, obj_id) := take (Z.to_nat con_len) rest]> objs)
      end
  end.

(** Each turn takes a header. *)
Definition recv_fs (buf : list Z) (objs : raw_objects) : option (Z * raw_objects) :=
  if (length buf <? FsHdr_size)%nat then Some (EVHTP_RES_BADREQ, objs) else recv_loop (S (length buf)) buf objs.

(** The loop of [post_pack_fs_cb]: the reply and what is sent. *)
Fixpoint pack_loop (objs : raw_objects) (total_size : Z) (ids : list (option string)) : Z * list Z :=
  match ids with
  | [] => (EVHTP_RES_OK, [])
  | obj_id :: ids =>
      if negb (is_object_id_valid obj_id) then (EVHTP_RES_BADREQ, [])
      else
        let obj_id := text obj_id in
        match objs !! (store_id, obj_id) with
        | None => (EVHTP_RES_SERVERR, [])
        | Some fs_data =>
            let total_size := s32 (total_size + Z.of_nat (length fs_data)) in
            if MAX_OBJECT_PACK_SIZE <=? total_size then (EVHTP_RES_OK, frame obj_id fs_data)
            else let '(status, out) := pack_loop objs total_size ids in (status, frame obj_id fs_data ++ out)
        end
  end.

(** The ids of a list that are valid and not there. *)
Definition needed (exists_ : string -> bool) (ids : list (option string)) : list string :=
  omap (fun id => match id with
                  | Some i => if is_object_id_valid id && negb (exists_ i) then Some i else None
                  | None => None
                  end) ids.

(** The sizes of the blocks of a file; [None]: one is missing. *)
Fixpoint block_map (blocks : raw_objects) (ids : list string) : option (list Z) :=
  match ids with
  | [] => Some []
  | id :: ids => data ← blocks !! (store_id, id); rest ← block_map blocks ids; Some (Z.of_nat (length data) :: rest)
  end.
End wire.

Section handlers.
Context (se : Session) (fuel : nat).

(** The token, the permission and the store; or the replies that end the request. *)
Definition request_store (o : SyncOracle) (s : SyncWorld) (req : Request) (repo_id op : string)
  : option (list Z * SyncWorld + string * SyncWorld) :=
  match authorized se o s req repo_id op with
  | None => None
  | Some (inl r) => Some (inl r)
  | Some (inr s) =>
      Some (match get_repo_store_id (auth_of o s) (sy_http s) repo_id with
            | (None, h) => inl ([EVHTP_RES_SERVERR], set_http s h)
            | (Some store_id, h) => inr (store_id, set_http s h)
            end)
  end.

(** The length of the body is an [int]: when it is negative nothing is read and nothing is
    replied. *)
Definition post_recv_fs_cb (o : SyncOracle) (write_ok : string -> bool) (s : SyncWorld) (req : Request) (repo_id : string)
    (body : list Z) (objs : raw_objects) : option (list Z * SyncWorld * raw_objects) :=
  match request_store o s req repo_id "upload" with
  | None => None
  | Some (inl (replies, s)) => Some (replies, s, objs)
  | Some (inr (store_id, s)) =>
      let fs_con_len := s32 (Z.of_nat (length body)) in
      if fs_con_len <? 0 then Some ([], s, objs)
      else '(status, objs) ← recv_fs write_ok store_id (take (Z.to_nat fs_con_len) body) objs; Some ([status], s, objs)
  end.

(** [ids]: the strings of the array of the body; [None]: it is not JSON. *)
Definition post_pack_fs_cb (o : SyncOracle) (s : SyncWorld) (req : Request) (repo_id : string) (ids : option (list (option string)))
    (objs : raw_objects) : option (list Z * list Z * SyncWorld) :=
  match request_store o s req repo_id "download" with
  | None => None
  | Some (inl (replies, s)) => Some (replies, [], s)
  | Some (inr (store_id, s)) =>
      Some match ids with
           | None => ([EVHTP_RES_BADREQ], [], s)
           | Some ids => let '(status, out) := pack_loop store_id objs 0 ids in ([status], out, s)
           end
  end.

Inductive CheckExistType := CHECK_FS_EXIST | CHECK_BLOCK_EXIST.

Definition post_check_exist_cb (type : CheckExistType) (o : SyncOracle) (s : SyncWorld) (req : Request) (repo_id : string)
    (ids : option (list (option string))) (objs blocks : raw_objects) : option (list Z * list string * SyncWorld) :=
  match request_store o s req repo_id "download" with
  | None => None
  | Some (inl (replies, s)) => Some (replies, [], s)
  | Some (inr (store_id, s)) =>
      Some match ids with
           | None => ([EVHTP_RES_BADREQ], [], s)
           | Some ids =>
               let there := match type with CHECK_FS_EXIST => objs | CHECK_BLOCK_EXIST => blocks end in
               ([EVHTP_RES_OK], needed (fun id => negb (is_none (there !! (store_id, id)))) ids, s)
           end
  end.

(** A block that is uploaded; [write_ok]: opening, writing, closing and committing it. *)
Definition put_send_block_cb (o : SyncOracle) (write_ok : bool) (s : SyncWorld) (req : Request) (repo_id block_id : string)
    (body : list Z) (blocks : raw_objects) : option (list Z * SyncWorld * raw_objects) :=
  match request_store o s req repo_id "upload" with
  | None => None
  | Some (inl (replies, s)) => Some (replies, s, blocks)
  | Some (inr (store_id, s)) =>
      Some match body with
           | [] => ([EVHTP_RES_BADREQ], s, blocks)
           | _ => if write_ok then ([EVHTP_RES_OK], s, <[(store_id, block_id) := body]> blocks)
                  else ([EVHTP_RES_SERVERR], s, blocks)
           end
  end.

Definition get_block_map_cb (o : SyncOracle) (s : SyncWorld) (req : Request) (repo_id file_id : string) (blocks : raw_objects)
  : option (list Z * list Z * SyncWorld) :=
  match request_store o s req repo_id "download" with
  | None => None
  | Some (inl (replies, s)) => Some (replies, [], s)
  | Some (inr (store_id, s)) =>
      Some match seaf_fs_manager_get_seafile (w_fs (sy_world s)) file_id with
           | None => ([EVHTP_RES_NOTFOUND], [], s)
           | Some file => match block_map store_id blocks (f_blk_sha1s file) with
                          | None => ([EVHTP_RES_SERVERR], [], s)
                          | Some sizes => ([EVHTP_RES_OK], sizes, s)
                          end
           end
  end.

Definition get_fs_obj_id_cb (o : SyncOracle) (s : SyncWorld) (req : Request) (repo_id : string) (server_head client_head : option string)
    (dir_only : bool) : option (list Z * list string * SyncWorld) :=
  if negb (is_object_id_valid server_head) || match client_head with Some _ => negb (is_object_id_valid client_head) | None => false end
  then Some ([EVHTP_RES_BADREQ], [], s)
  else match authorized se o s req repo_id "download" with
       | None => None
       | Some (inl (replies, s)) => Some (replies, [], s)
       | Some (inr s) =>
           let w := sy_world s in
           match seaf_repo_manager_get_repo (w_db w) (w_commits w) repo_id with
           | None => Some ([EVHTP_RES_SERVERR], [], s)
           | Some repo =>
               match calculate_send_object_list (w_fs w) fuel (w_commits w) repo (text server_head) client_head dir_only with
               | None => None
               | Some None => Some ([EVHTP_RES_SERVERR], [], s)
               | Some (Some l) => Some ([EVHTP_RES_OK], l, s)
               end
           end
       end.
End handlers.

(** ** Packs arrive as they were sent *)

Definition frames (l : list (string * list Z)) : list Z := concat ((fun p => frame p.1 p.2) <$> l).

(** An object that fits into a frame. *)
Definition sendable (id : string) (data : list Z) : Prop :=
  is_object_id_valid (Some id) = true /\ data <> [] /\ Z.of_nat (length data) < 2 ^ 30.

Lemma length_frame id data : sendable id data -> length (frame id data) = (44 + length data)%nat.
Proof.
  intros [[Hl _]%is_object_id_valid_spec _]. unfold frame. rewrite !length_app, length_bytes_of_string, length_be_bytes. lia.
Qed.

Section arrive.
Context (store_id : string).

Lemma recv_frame id data fuel t objs :
  sendable id data ->
  recv_loop (fun _ => true) store_id (S fuel) (frame id data ++ t) objs =
  recv_loop (fun _ => true) store_id fuel t (<[(store_id, id) := data]> objs).
Proof.
  intros Hs. pose proof (length_frame _ _ Hs) as Hlen. destruct Hs as (Hv & Hne & Hsize).
  pose proof Hv as [Hid _]%is_object_id_valid_spec. set (buf := frame id data ++ t).
  assert (Hb : length buf = (44 + length data + length t)%nat) by (unfold buf; rewrite length_app; lia).
  assert (Ht : take 40 buf = bytes_of_string id).
  { unfold buf, frame. rewrite <- !app_assoc. rewrite take_app_le by (rewrite length_bytes_of_string; lia).
    apply take_ge. rewrite length_bytes_of_string. lia. }
  assert (Hd : drop 40 buf = be_bytes 4 (Z.of_nat (length data)) ++ data ++ t).
  { unfold buf, frame. rewrite <- !app_assoc. by apply drop_app_length'; rewrite length_bytes_of_string. }
  assert (Hg : get32bit (drop 40 buf) = (Z.of_nat (length data), data ++ t)).
  { rewrite Hd. unfold get32bit. rewrite take_app_length', drop_app_length' by (by rewrite length_be_bytes).
    f_equal. apply be_val_be_bytes. change (256 ^ Z.of_nat 4) with (2 ^ 32). lia. }
  cbn [recv_loop]. destruct buf as [|z buf'] eqn:Ebuf; [cbn in Hb; lia|]. rewrite <- Ebuf in *. clear z buf' Ebuf.
  destruct (Nat.ltb_spec (length buf) FsHdr_size) as [Hl|_]; [unfold FsHdr_size in Hl; lia|].
  rewrite Ht, Hg, string_of_bytes_of_string, Hv. cbn [negb].
  destruct (Z.ltb_spec (Z.of_nat (length buf) - Z.of_nat FsHdr_size) (Z.of_nat (length data))) as [Hl|_]; [unfold FsHdr_size in Hl; lia|].
  destruct (Z.eqb_spec (Z.of_nat (length data)) 0) as [Hz|_]; [destruct data; [done|cbn in Hz; lia]|].
  rewrite Nat2Z.id, take_app_length, drop_app_length. done.
Qed.

Definition store_all (l : list (string * list Z)) (objs : raw_objects) : raw_objects :=
  foldl (fun o p => <[(store_id, p.1) := p.2]> o) objs l.

Lemma recv_frames l : forall fuel objs,
  Forall (fun p => sendable p.1 p.2) l -> (length l < fuel)%nat ->
  recv_loop (fun _ => true) store_id fuel (frames l) objs = Some (EVHTP_RES_OK, store_all l objs).
Proof.
  induction l as [|[id data] l IH]; intros [|fuel] objs Hs Hf; cbn [length] in Hf; try lia; [done|].
  apply Forall_cons in Hs as [H1 Hs]. change (frames ((id, data) :: l)) with (frame id data ++ frames l).
  rewrite recv_frame by done. apply IH; [done|lia].
Qed.

Lemma recv_pack l objs :
  l <> [] -> Forall (fun p => sendable p.1 p.2) l ->
  recv_fs (fun _ => true) store_id (frames l) objs = Some (EVHTP_RES_OK, store_all l objs).
Proof.
  intros Hne Hs. assert (Hlen : forall l, Forall (fun p => sendable p.1 p.2) l -> (44 * length l <= length (frames l))%nat).
  { clear l Hne Hs. induction 1 as [|p l H1 _ IH]; [done|]. change (frames (p :: l)) with (frame p.1 p.2 ++ frames l).
    rewrite length_app, length_frame by done. cbn [length]. lia. }
  specialize (Hlen l Hs). unfold recv_fs, FsHdr_size. destruct l as [|p l]; [done|]. cbn [length] in Hlen.
  destruct (Nat.ltb_spec (length (frames (p :: l))) 44); [lia|]. apply recv_frames; [done|]. cbn [length]. lia.
Qed.

Lemma frames_one id data : frames [(id, data)] = frame id data.
Proof. unfold frames. cbn [fmap list_fmap concat fst snd]. apply app_nil_r. Qed.

(** A pack holds the first objects of the list, at least one. *)
Context (objs : raw_objects).

Definition readable (id : string) : Prop := exists data, objs !! (store_id, id) = Some data /\ sendable id data.

Lemma pack_prefix ids : forall total,
  0 <= total < MAX_OBJECT_PACK_SIZE -> Forall readable ids -> ids <> [] ->
  exists l, l <> [] /\ pack_loop store_id objs total (Some <$> ids) = (EVHTP_RES_OK, frames l) /\
    Forall (fun p => sendable p.1 p.2 /\ objs !! (store_id, p.1) = Some p.2) l /\ l.*1 `prefix_of` ids.
Proof.
  induction ids as [|id ids IH]; intros total Ht Hr Hne; [done|]. apply Forall_cons in Hr as [(data & Ho & Hs) Hr].
  rewrite fmap_cons. cbn [pack_loop text]. pose proof Hs as (Hv & Hd & Hl). rewrite Hv. cbn [negb]. rewrite Ho.
  unfold MAX_OBJECT_PACK_SIZE in *. rewrite s32_id by lia.
  destruct (Z.leb_spec (2 ^ 20) (total + Z.of_nat (length data))) as [Hbig|Hsmall].
  - exists [(id, data)]. split; [done|]. split; [by rewrite frames_one|].
    split; [apply Forall_singleton; by split|]. by exists ids.
  - destruct (decide (ids = [])) as [->|Hne'].
    { exists [(id, data)]. split; [done|].
      split; [cbn [fmap list_fmap pack_loop]; by rewrite app_nil_r, frames_one|]. split; [apply Forall_singleton; by split|]. by exists []. }
    destruct (IH (total + Z.of_nat (length data))) as (l & Hl1 & E & Hl2 & Hl3); [lia|done|done|].
    exists ((id, data) :: l). split; [done|]. rewrite E. split; [done|]. split; [by constructor|]. by apply prefix_cons.
Qed.

(** A peer asks for the objects it has not got until it has all, and stores each pack the way
    [post_recv_fs_cb] does. *)
Fixpoint fetch (fuel : nat) (ids : list string) (have : raw_objects) : option raw_objects :=
  match ids with
  | [] => Some have
  | _ =>
      match fuel with
      | O => None
      | S fuel =>
          match pack_loop store_id objs 0 (Some <$> ids) with
          | (status, pack) =>
              if negb (status =? EVHTP_RES_OK) then None
              else match recv_fs (fun _ => true) store_id pack have with
                   | Some (status, have) =>
                       if negb (status =? EVHTP_RES_OK) then None
                       else fetch fuel (List.filter (fun id => is_none (have !! (store_id, id))) ids) have
                   | None => None
                   end
          end
      end
  end.

Lemma store_all_lookup (l : list (string * list Z)) (have : raw_objects) (k : string * string) :
  Forall (fun p => objs !! (store_id, p.1) = Some p.2) l ->
  store_all l have !! k = if decide (k.1 = store_id /\ k.2 ∈ l.*1) then objs !! k else have !! k.
Proof.
  revert have. induction l as [|[id data] l IH]; intros have Hl.
  - rewrite decide_False; [done|]. by intros [_ Hid%not_elem_of_nil].
  - apply Forall_cons in Hl as [H1 Hl]. change (store_all ((id, data) :: l) have) with (store_all l (<[(store_id, id) := data]> have)). rewrite IH by done.
    destruct (decide (k.1 = store_id /\ k.2 ∈ l.*1)) as [[Hs Hi]|Hin].
    + rewrite decide_True; [done|]. split; [done|]. by right.
    + destruct (decide (k = (store_id, id))) as [->|Hne].
      * rewrite lookup_insert_eq, decide_True; [done|]. split; [done|]. by left.
      * rewrite lookup_insert_ne by done. rewrite decide_False; [done|]. intros [Hs Hi].
        apply elem_of_cons in Hi as [Hi|Hi]; [|by apply Hin]. apply Hne. destruct k as [k1 k2]. cbn in *. by subst.
Qed.

Lemma fetch_left_spec (have : raw_objects) ids id :
  id ∈ List.filter (fun id => is_none (have !! (store_id, id))) ids <-> id ∈ ids /\ have !! (store_id, id) = None.
Proof. rewrite !list_elem_of_In, List.filter_In. destruct (have !! (store_id, id)); cbn; naive_solver. Qed.

(** Only the objects of a pack are asked for no more. *)
Lemma fetch_left l ids have :
  l <> [] -> l.*1 `prefix_of` ids -> Forall (fun p => objs !! (store_id, p.1) = Some p.2) l ->
  (length (List.filter (fun id => is_none (store_all l have !! (store_id, id))) ids) < length ids)%nat.
Proof.
  intros Hne [r ->] Hl. destruct l as [|[id data] l]; [done|]. cbn [fmap list_fmap app List.filter fst].
  rewrite store_all_lookup by done. rewrite decide_True by (split; [done|by left]).
  apply Forall_cons in Hl as [Ho _]. cbn [fst snd] in Ho. rewrite Ho. cbn [is_none length].
  pose proof (List.filter_length_le (fun i => is_none (store_all ((id, data) :: l) have !! (store_id, i))) (l.*1 ++ r)). lia.
Qed.

Lemma fetch_contents l ids have k :
  l.*1 `prefix_of` ids -> Forall (fun p => objs !! (store_id, p.1) = Some p.2) l ->
  Forall (fun id => have !! (store_id, id) = None) ids ->
  (if decide (k.1 = store_id /\ k.2 ∈ List.filter (fun id => is_none (store_all l have !! (store_id, id))) ids)
   then objs !! k else store_all l have !! k) =
  if decide (k.1 = store_id /\ k.2 ∈ ids) then objs !! k else have !! k.
Proof.
  intros Hp Hl Hn. destruct (decide (k.1 = store_id)) as [Hs|Hs]; last first.
  { rewrite !decide_False by tauto. rewrite store_all_lookup by done. by rewrite decide_False by tauto. }
  destruct k as [k1 id]. cbn [fst snd] in *. subst k1. destruct (decide (store_id = store_id /\ id ∈ List.filter _ ids)) as [[_ Hin]|Hout].
  - rewrite decide_True; [done|]. split; [done|]. by apply fetch_left_spec in Hin as [].
  - rewrite store_all_lookup by done. cbn [fst snd]. destruct (decide (store_id = store_id /\ id ∈ l.*1)) as [[_ Hin]|Hin].
    + rewrite decide_True; [done|]. split; [done|]. destruct Hp as [r ->]. by apply elem_of_app; left.
    + rewrite decide_False; [done|]. intros [_ Hi]. apply Hout. split; [done|]. apply fetch_left_spec. split; [done|].
      rewrite store_all_lookup, decide_False by done. rewrite Forall_forall in Hn. by apply Hn.
Qed.

Lemma fetch_enough fuel : forall ids have,
  Forall readable ids -> Forall (fun id => have !! (store_id, id) = None) ids -> (length ids <= fuel)%nat ->
  exists got, fetch fuel ids have = Some got /\
    forall k, got !! k = if decide (k.1 = store_id /\ k.2 ∈ ids) then objs !! k else have !! k.
Proof.
  induction fuel as [|fuel IH]; intros ids have Hr Hn Hf;
    (destruct (decide (ids = [])) as [->|Hne]; [exists have; split; [done|]; intros k; rewrite decide_False; [done|];
      by intros [_ Hi%not_elem_of_nil]|]); [destruct ids; [done|cbn in Hf; lia]|].
  destruct (pack_prefix ids 0) as (l & Hl1 & E & Hl2 & Hl3); [done|done|done|].
  assert (Hobjs : Forall (fun p => objs !! (store_id, p.1) = Some p.2) l) by (eapply Forall_impl; [exact Hl2|]; by intros p []).
  pose proof (fetch_left l ids have Hl1 Hl3 Hobjs) as Hshort.
  set (left := List.filter (fun id => is_none (store_all l have !! (store_id, id))) ids) in *.
  assert (Hstep : fetch (S fuel) ids have = fetch fuel left (store_all l have)).
  { cbn [fetch]. destruct ids as [|i0 ids0] eqn:Ei; [done|]. rewrite <- Ei in *. rewrite E. rewrite Z.eqb_refl. cbn [negb].
    rewrite recv_pack; [|done|eapply Forall_impl; [exact Hl2|by intros p []]].
    rewrite Z.eqb_refl. unfold left. by rewrite Ei. }
  destruct (IH left (store_all l have)) as (got & Eg & Hg).
  - apply Forall_forall. intros id [Hid _]%fetch_left_spec. rewrite Forall_forall in Hr. by apply Hr.
  - apply Forall_forall. by intros id [_ Hid]%fetch_left_spec.
  - lia.
  - exists got. rewrite Hstep. split; [done|]. intros k. rewrite Hg. unfold left. by apply fetch_contents.
Qed.

(** C21: A peer that asks for the objects of a list, pack by pack, until it has them all,
    and stores each pack the way the server stores packs, gets them all, each with exactly
    the contents it has on the server, and nothing else, after at most as many requests as
    there are objects on the list.  The objects are not empty and smaller than a
    gigabyte. *)
Theorem fetch_complete ids have :
  Forall readable ids -> Forall (fun id => have !! (store_id, id) = None) ids ->
  exists got, fetch (length ids) ids have = Some got /\
    forall k, got !! k = if decide (k.1 = store_id /\ k.2 ∈ ids) then objs !! k else have !! k.
Proof. intros Hr Hn. by apply fetch_enough. Qed.
End arrive.

Lemma fetch_complete_witness :
  let a := string_of_bytes (repeat 97 40) in
  let b := string_of_bytes (repeat 98 40) in
  let objs := <[("s", a) := [1; 2; 3]]> (<[("s", b) := [4]]> ∅) : raw_objects in
  exists got, fetch "s" objs 2 [a; b] ∅ = Some got /\
    forall k, got !! k = if decide (k.1 = "s" /\ k.2 ∈ [a; b]) then objs !! k else None.
Proof.
  intros a b objs. destruct (fetch_complete "s" objs [a; b] ∅) as (got & E & H).
  - apply Forall_cons. split; [|apply Forall_singleton].
    + exists [1; 2; 3]. split; [reflexivity|]. split; [vm_compute; reflexivity|]. split; [discriminate|reflexivity].
    + exists [4]. split; [reflexivity|]. split; [vm_compute; reflexivity|]. split; [discriminate|reflexivity].
  - by repeat constructor.
  - exists got. split; [exact E|]. intros k. rewrite H. by rewrite lookup_empty.
Defined.
