(* ===== verification/SyncTask.v ===== *)
(** * Lists of objects as tasks ([server/http-server.c])

    A client that wants the objects of a commit asks for the list in three requests: one
    starts a task, others ask whether it is done, the last one fetches the result.  A thread
    of a pool computes the list and writes it into a result that a table holds by the token of
    the task.  The memory of the results is part of the state: a step that touches freed
    memory has no outcome. *)

From S2P Require Import Prelude Hex FsObj Paths FsMgr CommitMgr Repo Publish RepoPerm Quota SyncAuth SyncTree SyncUpdate.

Definition FS_ID_LIST_TOKEN_LEN : nat := 36.

Record ComputeObjTask := mkTask {
  ct_token : string;
  ct_repo_id : string;
  ct_client_head : option string;
  ct_server_head : string;
  ct_dir_only : bool
}.

(** A result: the list, whether its strings have been freed, whether all of it has, [done]. *)
Record CalObjResult := mkResult { cr_list : list string; cr_freed : bool; cr_dangling : bool; cr_done : bool }.

(** The outcome of a calculation: no library; an error, after which the pointer to the list is
    dangling or not; the list. *)
Inductive calc_result := CalcNoRepo | CalcError (dangling : bool) | CalcList (l : list string).

(** The table of results by token, and the results that are allocated. *)
Record TaskTable := mkTable { fs_obj_ids : gmap string nat; results : gmap nat CalObjResult }.

(** [g_hash_table_remove]: the result of the token is freed; [None]: freed twice. *)
Definition remove_result (t : TaskTable) (token : string) : option TaskTable :=
  match fs_obj_ids t !! token with
  | None => Some t
  | Some a => match results t !! a with
              | None => None
              | Some r => if cr_dangling r then None else Some (mkTable (delete token (fs_obj_ids t)) (delete a (results t)))
              end
  end.

Section requests.
Context (se : Session) (fuel : nat).

(** The token alone is checked. *)
Definition token_valid (o : SyncOracle) (s : SyncWorld) (req : Request) (repo_id : string) : list Z * SyncWorld + SyncWorld :=
  match validate_token (se_db_type se) (auth_of o s) (sy_http s) req repo_id false with
  | (status, replied, _, h) =>
      if negb (status =? EVHTP_RES_OK) then inl ((if replied : bool then [status; status] else [status]), set_http s h)
      else inr (set_http s h)
  end.

(** The replies, the token that was answered, the table with a result at [a], and the task
    that was pushed.  [uuid]: the new token. *)
Definition start_fs_obj_id_cb (o : SyncOracle) (s : SyncWorld) (t : TaskTable) (req : Request) (repo_id : string)
    (server_head client_head : option string) (dir_only : bool) (uuid : string) (a : nat)
  : list Z * option ComputeObjTask * SyncWorld * TaskTable :=
  if negb (is_object_id_valid server_head) then ([EVHTP_RES_BADREQ], None, s, t)
  else if match client_head with Some _ => negb (is_object_id_valid client_head) | None => false end
  then ([EVHTP_RES_BADREQ], None, s, t)
  else match token_valid o s req repo_id with
       | inl (replies, s) => (replies, None, s, t)
       | inr s =>
           let token := string_take FS_ID_LIST_TOKEN_LEN uuid in
           ([EVHTP_RES_OK], Some (mkTask token repo_id client_head (text server_head) dir_only), s,
            mkTable (<[token := a]> (fs_obj_ids t)) (<[a := mkResult [] false false false]> (results t)))
       end.

(** The replies and whether the task is done. *)
Definition query_fs_obj_id_cb (o : SyncOracle) (s : SyncWorld) (t : TaskTable) (req : Request) (repo_id : string)
    (token : option string) : option (list Z * option bool * SyncWorld) :=
  match token_valid o s req repo_id with
  | inl (replies, s) => Some (replies, None, s)
  | inr s =>
      match token with
      | None => Some ([EVHTP_RES_BADREQ], None, s)
      | Some token =>
          if negb (String.length token =? FS_ID_LIST_TOKEN_LEN)%nat then Some ([EVHTP_RES_BADREQ], None, s)
          else match fs_obj_ids t !! token with
               | None => Some ([EVHTP_RES_NOTFOUND], None, s)
               | Some a => r ← results t !! a; Some ([EVHTP_RES_OK], Some (cr_done r), s)
               end
      end
  end.

(** What the calculation of a task gives; [None] is the end of the fuel.  When the trees cannot
    be compared the list, which is not empty if it starts with the root, is freed and the
    pointer kept. *)
Definition task_list (s : SyncWorld) (task : ComputeObjTask) : option calc_result :=
  let w := sy_world s in
  match seaf_repo_manager_get_repo (w_db w) (w_commits w) (ct_repo_id task) with
  | None => Some CalcNoRepo
  | Some repo =>
      r ← calculate_send_object_list (w_fs w) fuel (w_commits w) repo (ct_server_head task) (ct_client_head task) (ct_dir_only task);
      Some match r with
           | Some l => CalcList l
           | None =>
               CalcError match seaf_commit_manager_get_commit (w_commits w) (ct_server_head task),
                               match ct_client_head task with
                               | Some c => root_id <$> seaf_commit_manager_get_commit (w_commits w) c
                               | None => Some EMPTY_SHA1
                               end with
                         | Some master, Some remote => negb (strcmp remote (root_id master) =? 0) && negb (strcmp (root_id master) EMPTY_SHA1 =? 0)
                         | _, _ => false
                         end
           end
  end.
End requests.

(** ** The threads *)

(** [compute_fs_obj_id] before its lookup, before the calculation, before the removal after an
    error; [retrieve_fs_obj_id_cb] before its lookup, before it reads and frees the list,
    before the removal; and what it replied. *)
Inductive task_pc :=
| WLookup (task : ComputeObjTask) | WCompute (task : ComputeObjTask) (a : nat) | WRemove (task : ComputeObjTask) | WDone
| RLookup (token : string) | RRead (token : string) (a : nat) | RRemove (token : string) (l : list string)
| RDone (token : string) (status : Z) (l : list string).

Section step.
Context (calc : ComputeObjTask -> calc_result).

(** [None]: freed memory is used. *)
Definition compute_fs_obj_id (pc : task_pc) (t : TaskTable) : option (task_pc * TaskTable) :=
  match pc with
  | WLookup task =>
      Some (match fs_obj_ids t !! ct_token task with Some a => WCompute task a | None => WDone end, t)
  | WCompute task a =>
      match calc task with
      | CalcNoRepo => Some (WDone, t)
      | CalcError dangling =>
          r ← results t !! a;
          Some (WRemove task, mkTable (fs_obj_ids t) (<[a := mkResult [] (cr_freed r) dangling (cr_done r)]> (results t)))
      | CalcList l =>
          r ← results t !! a;
          Some (WDone, mkTable (fs_obj_ids t) (<[a := mkResult l (cr_freed r) false true]> (results t)))
      end
  | WRemove task => t ← remove_result t (ct_token task); Some (WDone, t)
  | _ => Some (pc, t)
  end.

(** After the test of the request. *)
Definition retrieve_fs_obj_id_cb (pc : task_pc) (t : TaskTable) : option (task_pc * TaskTable) :=
  match pc with
  | RLookup token =>
      match fs_obj_ids t !! token with
      | None => Some (RDone token EVHTP_RES_NOTFOUND [], t)
      | Some a =>
          r ← results t !! a;
          Some (if negb (cr_done r) then RDone token EVHTP_RES_BADREQ [] else RRead token a, t)
      end
  | RRead token a =>
      r ← results t !! a;
      if cr_freed r && negb (bool_decide (cr_list r = [])) then None
      else Some (RRemove token (cr_list r), mkTable (fs_obj_ids t) (<[a := mkResult (cr_list r) true (cr_dangling r) true]> (results t)))
  | RRemove token l => t ← remove_result t token; Some (RDone token EVHTP_RES_OK l, t)
  | _ => Some (pc, t)
  end.

Definition thread_step (pc : task_pc) (t : TaskTable) : option (task_pc * TaskTable) :=
  match pc with
  | WLookup _ | WCompute _ _ | WRemove _ | WDone => compute_fs_obj_id pc t
  | _ => retrieve_fs_obj_id_cb pc t
  end.
End step.

(** ** The tasks of a server *)

(** The table, the threads, and for each token the task that was started with it. *)
Record task_system := mkSystem { ts_table : TaskTable; ts_threads : gmap nat task_pc; ts_started : gmap string ComputeObjTask }.

Definition retrieves (pc : task_pc) (token : string) : Prop :=
  match pc with RLookup tok | RRead tok _ | RRemove tok _ => tok = token | _ => False end.

Section system.
Context (calc : ComputeObjTask -> calc_result).

(** A task is started with a token that was not used before, in memory that is not in use; a
    request fetches a result while no other request of the token is under way. *)
Inductive sys_step : task_system -> task_system -> Prop :=
| sys_start t ths st n task a :
    ths !! n = None -> st !! ct_token task = None -> fs_obj_ids t !! ct_token task = None -> results t !! a = None ->
    sys_step (mkSystem t ths st)
      (mkSystem (mkTable (<[ct_token task := a]> (fs_obj_ids t)) (<[a := mkResult [] false false false]> (results t)))
         (<[n := WLookup task]> ths) (<[ct_token task := task]> st))
| sys_retrieve t ths st n token :
    ths !! n = None -> (forall m pc, ths !! m = Some pc -> ~ retrieves pc token) ->
    sys_step (mkSystem t ths st) (mkSystem t (<[n := RLookup token]> ths) st)
| sys_thread t ths st n pc pc' t' :
    ths !! n = Some pc -> thread_step calc pc t = Some (pc', t') ->
    sys_step (mkSystem t ths st) (mkSystem t' (<[n := pc']> ths) st).

Definition sys_init : task_system := mkSystem (mkTable ∅ ∅) ∅ ∅.
Definition sys_run : task_system -> Prop := rtc sys_step sys_init.
End system.

(** ** The invariant *)

(** What the table holds for a token. *)
Definition result_view (t : TaskTable) (token : string) : option (nat * CalObjResult) :=
  a ← fs_obj_ids t !! token; r ← results t !! a; Some (a, r).

(** No entry is dangling and no two entries share a result. *)
Definition table_wf (t : TaskTable) : Prop :=
  (forall tok a, fs_obj_ids t !! tok = Some a -> is_Some (results t !! a)) /\
  (forall tok tok' a, fs_obj_ids t !! tok = Some a -> fs_obj_ids t !! tok' = Some a -> tok = tok').

Lemma result_view_some t tok a r : result_view t tok = Some (a, r) -> fs_obj_ids t !! tok = Some a /\ results t !! a = Some r.
Proof.
  unfold result_view. destruct (fs_obj_ids t !! tok) as [b|] eqn:Hb; [simpl|done].
  destruct (results t !! b) as [q|] eqn:Hq; [simpl|done]. intros E. by simplify_eq.
Qed.

Lemma result_view_none t tok : table_wf t -> result_view t tok = None -> fs_obj_ids t !! tok = None.
Proof.
  unfold result_view. intros [Ha _] E. destruct (fs_obj_ids t !! tok) as [b|] eqn:Hb; [|done].
  destruct (Ha _ _ Hb) as [q Hq]. simpl in E. by rewrite Hq in E.
Qed.

Lemma result_view_update t tok a r r' :
  table_wf t -> result_view t tok = Some (a, r) ->
  let t' := mkTable (fs_obj_ids t) (<[a := r']> (results t)) in
  table_wf t' /\ result_view t' tok = Some (a, r') /\ (forall tok', tok' <> tok -> result_view t' tok' = result_view t tok').
Proof.
  intros [Ha Hi] [Et Er]%result_view_some. split_and!; simpl.
  - split; simpl; [|done]. intros k b Hb. destruct (decide (a = b)) as [->|Hn].
    + rewrite lookup_insert_eq. eauto.
    + rewrite lookup_insert_ne by done. eauto.
  - unfold result_view; simpl. rewrite Et; simpl. by rewrite lookup_insert_eq.
  - intros k Hk. unfold result_view; simpl. destruct (fs_obj_ids t !! k) as [b|] eqn:Hb; [simpl|done].
    rewrite lookup_insert_ne; [done|]. intros <-. by apply Hk, (Hi k tok a).
Qed.

Lemma result_view_insert t tok a r :
  table_wf t -> fs_obj_ids t !! tok = None -> results t !! a = None ->
  let t' := mkTable (<[tok := a]> (fs_obj_ids t)) (<[a := r]> (results t)) in
  table_wf t' /\ result_view t' tok = Some (a, r) /\ (forall tok', tok' <> tok -> result_view t' tok' = result_view t tok').
Proof.
  intros [Ha Hi] Et Er. assert (Hf : forall k, fs_obj_ids t !! k <> Some a).
  { intros k Hk. destruct (Ha _ _ Hk) as [q Hq]. congruence. }
  split_and!; simpl.
  - split; simpl.
    + intros k b [[<- <-]|[Hn Hb]]%lookup_insert_Some; [rewrite lookup_insert_eq; eauto|].
      rewrite lookup_insert_ne by (intros <-; by apply (Hf k)). eauto.
    + intros k k' b [[<- <-]|[Hn Hb]]%lookup_insert_Some [[<- Hx]|[Hn' Hb']]%lookup_insert_Some; subst; try done.
      * by apply Hf in Hb'.
      * by apply Hf in Hb.
      * eauto.
  - unfold result_view; simpl. rewrite lookup_insert_eq; simpl. by rewrite lookup_insert_eq.
  - intros k Hk. unfold result_view; simpl. rewrite lookup_insert_ne by done.
    destruct (fs_obj_ids t !! k) as [b|] eqn:Hb; [simpl|done].
    rewrite lookup_insert_ne; [done|]. intros <-. by apply (Hf k).
Qed.

Lemma result_view_remove t tok a r :
  table_wf t -> result_view t tok = Some (a, r) -> cr_dangling r = false ->
  exists t', remove_result t tok = Some t' /\
    table_wf t' /\ result_view t' tok = None /\ (forall tok', tok' <> tok -> result_view t' tok' = result_view t tok').
Proof.
  intros [Ha Hi] [Et Er]%result_view_some Hd. unfold remove_result. rewrite Et, Er, Hd. eexists; split; [done|].
  split_and!; simpl.
  - split; simpl.
    + intros k b [Hn Hb]%lookup_delete_Some. rewrite lookup_delete_ne; [eauto|].
      intros <-. by apply Hn, (Hi tok k a).
    + intros k k' b [_ Hb]%lookup_delete_Some [_ Hb']%lookup_delete_Some. eauto.
  - unfold result_view; simpl. by rewrite lookup_delete_eq.
  - intros k Hk. unfold result_view; simpl. rewrite lookup_delete_ne by done.
    destruct (fs_obj_ids t !! k) as [b|] eqn:Hb; [simpl|done].
    rewrite lookup_delete_ne; [done|]. intros <-. by apply Hk, (Hi k tok a).
Qed.

Definition tok_of (pc : task_pc) : string :=
  match pc with
  | WLookup task | WCompute task _ | WRemove task => ct_token task
  | WDone => EmptyString
  | RLookup tok | RRead tok _ | RRemove tok _ | RDone tok _ _ => tok
  end.

(** The part a thread that is under way plays for its token: the worker, the request. *)
Definition role (pc : task_pc) : option (bool * string) :=
  match pc with
  | WLookup task | WCompute task _ | WRemove task => Some (false, ct_token task)
  | RLookup tok | RRead tok _ | RRemove tok _ => Some (true, tok)
  | _ => None
  end.

Section invariant.
Context (calc : ComputeObjTask -> calc_result).

Definition entry_ok (st : gmap string ComputeObjTask) (ths : gmap nat task_pc) (tok : string) (v : option (nat * CalObjResult)) : Prop :=
  match v with
  | None => True
  | Some (_, r) =>
      cr_dangling r = false /\
      (cr_done r = true -> exists task, st !! tok = Some task /\ calc task = CalcList (cr_list r)) /\
      (cr_freed r = true -> exists n l, ths !! n = Some (RRemove tok l))
  end.

Definition pc_ok (st : gmap string ComputeObjTask) (v : option (nat * CalObjResult)) (pc : task_pc) : Prop :=
  match pc with
  | WLookup task => st !! ct_token task = Some task /\ (forall a r, v = Some (a, r) -> cr_done r = false)
  | WCompute task a => st !! ct_token task = Some task /\ exists r, v = Some (a, r) /\ cr_done r = false
  | WRemove task => st !! ct_token task = Some task /\ calc task = CalcError false
  | RRead _ a => exists r, v = Some (a, r) /\ cr_done r = true /\ cr_freed r = false
  | RRemove _ l => exists a r, v = Some (a, r) /\ cr_done r = true /\ cr_list r = l
  | RDone tok status l => status = EVHTP_RES_OK -> exists task, st !! tok = Some task /\ calc task = CalcList l
  | _ => True
  end.

Record sys_ok (s : task_system) : Prop := {
  so_wf : table_wf (ts_table s);
  so_entry : forall tok, entry_ok (ts_started s) (ts_threads s) tok (result_view (ts_table s) tok);
  so_pc : forall n pc, ts_threads s !! n = Some pc -> pc_ok (ts_started s) (result_view (ts_table s) (tok_of pc)) pc;
  so_one : forall n m pc pc' p, ts_threads s !! n = Some pc -> ts_threads s !! m = Some pc' ->
    role pc = Some p -> role pc' = Some p -> n = m
}.

(** What a step of a thread of [tok] has to establish. *)
Lemma thread_keeps t ths st n pc pc' t' :
  sys_ok (mkSystem t ths st) -> ths !! n = Some pc -> table_wf t' ->
  (forall tok', tok' <> tok_of pc -> result_view t' tok' = result_view t tok') ->
  (role pc' = None \/ role pc' = role pc) ->
  entry_ok st (<[n := pc']> ths) (tok_of pc) (result_view t' (tok_of pc)) ->
  pc_ok st (result_view t' (tok_of pc')) pc' ->
  (forall m q, m <> n -> ths !! m = Some q -> tok_of q = tok_of pc ->
     pc_ok st (result_view t (tok_of pc)) q -> pc_ok st (result_view t' (tok_of pc)) q) ->
  sys_ok (mkSystem t' (<[n := pc']> ths) st).
Proof.
  intros [Hwf He Hp Ho] Hn Hwf' Hv Hr Hent Hpc Hoth. simpl in *. split; simpl; [done|..].
  - intros tok. destruct (decide (tok = tok_of pc)) as [->|Hne]; [done|].
    rewrite Hv by done. specialize (He tok). destruct (result_view t tok) as [[a r]|]; [|done].
    destruct He as (?&?&Hf). split_and!; [done..|]. intros Hfr. destruct (Hf Hfr) as (m&l&Hm).
    exists m, l. rewrite lookup_insert_ne; [done|]. intros <-. rewrite Hn in Hm. by simplify_eq.
  - intros m q [[<- <-]|[Hne Hm]]%lookup_insert_Some; [done|].
    destruct (decide (tok_of q = tok_of pc)) as [Heq|Hneq].
    + rewrite Heq. apply (Hoth m); [done..|]. rewrite <- Heq. eauto.
    + rewrite Hv by done. eauto.
  - assert (Hlift : forall m q p, m <> n -> ths !! m = Some q -> role q = Some p -> role pc' = Some p -> False).
    { intros m q p Hmn Hm Hq Hp'. destruct Hr as [Hr|Hr]; [congruence|]. rewrite Hr in Hp'.
      apply Hmn. by apply (Ho m n q pc p). }
    intros k m q q' p [[<- <-]|[Hk1 Hk2]]%lookup_insert_Some [[<- <-]|[Hm1 Hm2]]%lookup_insert_Some R1 R2; try done.
    + exfalso. by eapply (Hlift m).
    + exfalso. by eapply (Hlift k).
    + eauto.
Qed.

Lemma entry_ok_insert st ths tok v n pc pc' :
  entry_ok st ths tok v -> ths !! n = Some pc -> (forall l, pc <> RRemove tok l) -> entry_ok st (<[n := pc']> ths) tok v.
Proof.
  destruct v as [[a r]|]; [|done]. intros (?&?&Hf) Hn Hl. split_and!; [done..|].
  intros Hfr. destruct (Hf Hfr) as (m&l&Hm). exists m, l. rewrite lookup_insert_ne; [done|].
  intros <-. rewrite Hn in Hm. simplify_eq. by apply (Hl l).
Qed.

(** A step that leaves the table alone. *)
Lemma thread_moves t ths st n pc pc' :
  sys_ok (mkSystem t ths st) -> ths !! n = Some pc -> (forall l, pc <> RRemove (tok_of pc) l) ->
  (role pc' = None \/ role pc' = role pc) ->
  pc_ok st (result_view t (tok_of pc')) pc' -> sys_ok (mkSystem t (<[n := pc']> ths) st).
Proof.
  intros Hs Hn Hl Hr Hp. eapply thread_keeps; eauto.
  - apply (so_wf _ Hs).
  - eapply entry_ok_insert; eauto. apply (so_entry _ Hs).
Qed.

Context (calc_sound : forall task, calc task <> CalcError true).

Definition safe_step (t : TaskTable) (ths : gmap nat task_pc) (st : gmap string ComputeObjTask) (n : nat) (pc : task_pc) : Prop :=
  exists pc' t', thread_step calc pc t = Some (pc', t') /\ sys_ok (mkSystem t' (<[n := pc']> ths) st).

Lemma worker_lookup_safe t ths st n task :
  sys_ok (mkSystem t ths st) -> ths !! n = Some (WLookup task) -> safe_step t ths st n (WLookup task).
Proof.
  intros Hs Hn. destruct (so_pc _ Hs _ _ Hn) as [Hst Hd]. simpl in *. eexists _, _; split; [reflexivity|].
  destruct (result_view t (ct_token task)) as [[a r]|] eqn:Hv.
  - destruct (result_view_some _ _ _ _ Hv) as [-> Hr]. eapply thread_moves; eauto; simpl. rewrite Hv. eauto.
  - rewrite (result_view_none t _ (so_wf _ Hs) Hv). eapply thread_moves; simpl; eauto; done.
Qed.

(** The calculation writes the result of its token; every other thread of the token is a
    request that has not looked yet. *)
Lemma worker_writes t ths st n task a r pc' r' :
  sys_ok (mkSystem t ths st) -> ths !! n = Some (WCompute task a) -> result_view t (ct_token task) = Some (a, r) -> cr_done r = false ->
  cr_freed r' = cr_freed r -> cr_dangling r' = false -> (cr_done r' = true -> calc task = CalcList (cr_list r')) ->
  pc' = WDone \/ (pc' = WRemove task /\ calc task = CalcError false) ->
  sys_ok (mkSystem (mkTable (fs_obj_ids t) (<[a := r']> (results t))) (<[n := pc']> ths) st).
Proof.
  intros Hs Hn Hv Hd Hf Hdg Hl Hpc. destruct (so_pc _ Hs _ _ Hn) as [Hst _]. simpl in Hst.
  destruct (result_view_update t (ct_token task) a r r' (so_wf _ Hs) Hv) as (Hwf&Hv'&Hoth).
  eapply thread_keeps; eauto.
  - destruct Hpc as [->|[-> _]]; eauto.
  - simpl. rewrite Hv'. split_and!; [done|eauto|]. rewrite Hf. intros Hfr.
    pose proof (so_entry _ Hs (ct_token task)) as He. simpl in He. rewrite Hv in He. destruct He as (_&_&He).
    destruct (He Hfr) as (m&l&Hm). exists m, l. rewrite lookup_insert_ne; [done|]. congruence.
  - destruct Hpc as [->|[-> ?]]; simpl; eauto.
  - simpl. intros m q Hm Hq Htok. rewrite Hv, Hv'.
    destruct q as [task'|task' b|task'| |tok|tok b|tok l|tok stat l]; simpl in *; auto.
    + exfalso. apply Hm. eapply (so_one _ Hs _ _ _ _ (false, ct_token task) Hq Hn); simpl; congruence.
    + exfalso. apply Hm. eapply (so_one _ Hs _ _ _ _ (false, ct_token task) Hq Hn); simpl; congruence.
    + intros (q&?&?&?). simplify_eq. congruence.
    + intros (b&q&?&?&?). simplify_eq. congruence.
Qed.

Lemma worker_compute_safe t ths st n task a :
  sys_ok (mkSystem t ths st) -> ths !! n = Some (WCompute task a) -> safe_step t ths st n (WCompute task a).
Proof.
  intros Hs Hn. destruct (so_pc _ Hs _ _ Hn) as (Hst&r&Hv&Hd). simpl in Hst, Hv.
  destruct (result_view_some _ _ _ _ Hv) as [Ha Hr]. unfold safe_step; simpl.
  destruct (calc task) as [|dangling|l] eqn:Hc.
  - eexists _, _; split; [done|]. eapply thread_moves; simpl; eauto; done.
  - destruct dangling; [by destruct (calc_sound task)|]. rewrite Hr. eexists _, _; split; [done|].
    eapply worker_writes; eauto. simpl. congruence.
  - rewrite Hr. eexists _, _; split; [done|]. eapply worker_writes; eauto.
Qed.

(** The removal of an entry by the last thread that needs it. *)
Lemma remover_safe t ths st n pc pc' tok :
  sys_ok (mkSystem t ths st) -> ths !! n = Some pc -> tok_of pc = tok ->
  role pc' = None -> (forall v, pc_ok st v pc') -> (forall l, pc' <> RRemove tok l) ->
  ((forall l, pc <> RRemove tok l) \/ is_Some (result_view t tok)) ->
  (forall m q, m <> n -> ths !! m = Some q -> tok_of q = tok -> pc_ok st (result_view t tok) q -> pc_ok st None q) ->
  exists t', remove_result t tok = Some t' /\ sys_ok (mkSystem t' (<[n := pc']> ths) st).
Proof.
  intros Hs Hn <- Hr Hp Hl Hl' Hoth. destruct (result_view t (tok_of pc)) as [[a r]|] eqn:Hv.
  - pose proof (so_entry _ Hs (tok_of pc)) as He. simpl in He. rewrite Hv in He. destruct He as (Hd&_).
    destruct (result_view_remove t _ a r (so_wf _ Hs) Hv Hd) as (t'&E&Hwf&Hv'&Hoth'). exists t'. split; [done|].
    eapply thread_keeps; eauto; [by rewrite Hv'|].
    intros m q Hm Hq Htok. rewrite Hv, Hv'. eauto.
  - destruct Hl' as [Hl'|[x Hx]]; [|done]. exists t. unfold remove_result.
    rewrite (result_view_none t _ (so_wf _ Hs) Hv). split; [done|]. eapply thread_moves; eauto.
Qed.

Lemma worker_remove_safe t ths st n task :
  sys_ok (mkSystem t ths st) -> ths !! n = Some (WRemove task) -> safe_step t ths st n (WRemove task).
Proof.
  intros Hs Hn. destruct (so_pc _ Hs _ _ Hn) as (Hst&Hc). simpl in Hst.
  destruct (remover_safe t ths st n (WRemove task) WDone (ct_token task)) as (t'&E&Hs'); eauto; [done|..].
  - intros m q Hm Hq Htok. pose proof (so_entry _ Hs (ct_token task)) as He. simpl in He.
    assert (Hno : forall a r, result_view t (ct_token task) = Some (a, r) -> cr_done r = true -> False).
    { intros a r Hv Hd. rewrite Hv in He. destruct He as (_&Hx&_). destruct (Hx Hd) as (k&?&?). simplify_eq. congruence. }
    destruct q as [task'|task' b|task'| |tok|tok b|tok l|tok stat l]; simpl in *; auto.
    + intros [? _]. split; [done|]. intros. done.
    + exfalso. apply Hm. eapply (so_one _ Hs _ _ _ _ (false, ct_token task) Hq Hn); simpl; congruence.
    + intros (r&?&?&?). exfalso. eauto.
    + intros (a&r&?&?&?). exfalso. eauto.
  - exists WDone, t'. simpl. rewrite E. eauto.
Qed.

(** The requests of a token: one at a time. *)
Lemma one_request t ths st n m pc q tok :
  sys_ok (mkSystem t ths st) -> ths !! n = Some pc -> ths !! m = Some q ->
  role pc = Some (true, tok) -> role q = Some (true, tok) -> m = n.
Proof. intros Hs Hn Hm Hp Hq. by apply (so_one _ Hs m n q pc (true, tok)). Qed.

Lemma request_lookup_safe t ths st n tok :
  sys_ok (mkSystem t ths st) -> ths !! n = Some (RLookup tok) -> safe_step t ths st n (RLookup tok).
Proof.
  intros Hs Hn. unfold safe_step; simpl. destruct (result_view t tok) as [[a r]|] eqn:Hv.
  - destruct (result_view_some _ _ _ _ Hv) as [-> ->]. simpl. eexists _, _; split; [done|].
    pose proof (so_entry _ Hs tok) as He. simpl in He. rewrite Hv in He. destruct He as (_&_&Hf).
    destruct (cr_done r) eqn:Hd; simpl.
    + eapply thread_moves; eauto; simpl. exists r. rewrite Hv. split_and!; auto.
      destruct (cr_freed r); [|done]. destruct (Hf eq_refl) as (m&l&Hm).
      pose proof (one_request _ _ _ _ _ _ _ tok Hs Hn Hm eq_refl eq_refl) as ->. by rewrite Hn in Hm.
    + eapply thread_moves; simpl; eauto; done.
  - rewrite (result_view_none t _ (so_wf _ Hs) Hv). eexists _, _; split; [done|].
    eapply thread_moves; simpl; eauto; done.
Qed.

Lemma request_read_safe t ths st n tok a :
  sys_ok (mkSystem t ths st) -> ths !! n = Some (RRead tok a) -> safe_step t ths st n (RRead tok a).
Proof.
  intros Hs Hn. destruct (so_pc _ Hs _ _ Hn) as (r&Hv&Hd&Hf). simpl in Hv.
  destruct (result_view_some _ _ _ _ Hv) as [_ Hr]. unfold safe_step; simpl. rewrite Hr; simpl; rewrite Hf; simpl.
  eexists _, _; split; [done|].
  pose proof (so_entry _ Hs tok) as He. simpl in He. rewrite Hv in He. destruct He as (Hdg&Hl&_).
  destruct (result_view_update t tok a r (mkResult (cr_list r) true (cr_dangling r) true) (so_wf _ Hs) Hv) as (Hwf&Hv'&Hoth).
  eapply thread_keeps; eauto; simpl.
  - rewrite Hv'. split_and!; simpl; [done|auto|]. intros _. exists n, (cr_list r). apply lookup_insert_eq.
  - rewrite Hv'. eauto.
  - intros m q Hm Hq Htok. rewrite Hv, Hv'.
    destruct q as [task'|task' b|task'| |tok'|tok' b|tok' l|tok' stat l]; simpl in *; auto; subst.
    + intros [? Hx]. pose proof (Hx _ _ eq_refl). congruence.
    + intros (?&q&?&?). simplify_eq. congruence.
    + exfalso. apply Hm. by eapply one_request.
    + exfalso. apply Hm. by eapply one_request.
Qed.

Lemma request_remove_safe t ths st n tok l :
  sys_ok (mkSystem t ths st) -> ths !! n = Some (RRemove tok l) -> safe_step t ths st n (RRemove tok l).
Proof.
  intros Hs Hn. destruct (so_pc _ Hs _ _ Hn) as (a&r&Hv&Hd&<-). simpl in Hv.
  pose proof (so_entry _ Hs tok) as He. simpl in He. rewrite Hv in He. destruct He as (_&Hl&_).
  destruct (remover_safe t ths st n (RRemove tok (cr_list r)) (RDone tok EVHTP_RES_OK (cr_list r)) tok) as (t'&E&Hs'); eauto.
  - intros v _. auto.
  - intros m q Hm Hq Htok. rewrite Hv.
    destruct q as [task'|task' b|task'| |tok'|tok' b|tok' l|tok' stat l]; simpl in *; auto; subst.
    + intros [? _]. split; [done|]. intros. done.
    + intros (?&q&?&?). simplify_eq. congruence.
    + exfalso. apply Hm. by eapply one_request.
    + exfalso. apply Hm. by eapply one_request.
  - eexists _, t'. simpl. rewrite E. eauto.
Qed.

Lemma thread_safe t ths st n pc :
  sys_ok (mkSystem t ths st) -> ths !! n = Some pc -> safe_step t ths st n pc.
Proof.
  destruct pc; intros Hs Hn.
  - by apply worker_lookup_safe.
  - by apply worker_compute_safe.
  - by apply worker_remove_safe.
  - eexists _, _; split; [done|]. by rewrite insert_id.
  - by apply request_lookup_safe.
  - by apply request_read_safe.
  - by apply request_remove_safe.
  - eexists _, _; split; [done|]. by rewrite insert_id.
Qed.

Lemma start_safe t ths st n task a :
  sys_ok (mkSystem t ths st) -> ths !! n = None -> st !! ct_token task = None ->
  fs_obj_ids t !! ct_token task = None -> results t !! a = None ->
  sys_ok (mkSystem (mkTable (<[ct_token task := a]> (fs_obj_ids t)) (<[a := mkResult [] false false false]> (results t)))
            (<[n := WLookup task]> ths) (<[ct_token task := task]> st)).
Proof.
  intros Hs Hn Hst Hid Ha.
  destruct (result_view_insert t (ct_token task) a (mkResult [] false false false) (so_wf _ Hs) Hid Ha) as (Hwf&Hv'&Hoth).
  assert (Hv : result_view t (ct_token task) = None) by (unfold result_view; by rewrite Hid).
  assert (Hw : forall m q, ths !! m = Some q -> role q <> Some (false, ct_token task)).
  { intros m q Hm. pose proof (so_pc _ Hs _ _ Hm) as Hq. destruct q; simpl in *; try done; destruct Hq as [Hx _]; congruence. }
  assert (Hls : forall tok x, st !! tok = Some x -> <[ct_token task := task]> st !! tok = Some x).
  { intros tok x Hx. rewrite lookup_insert_ne; [done|]. congruence. }
  split; simpl; [done|..].
  - intros tok. destruct (decide (tok = ct_token task)) as [->|Hne]; [rewrite Hv'; simpl; split_and!; done|].
    rewrite Hoth by done. pose proof (so_entry _ Hs tok) as He. simpl in He.
    destruct (result_view t tok) as [[b r]|]; [|done]. destruct He as (?&Hd&Hf). split_and!; [done|..].
    + intros Hx. destruct (Hd Hx) as (y&?&?). eauto.
    + intros Hx. destruct (Hf Hx) as (m&l&?). exists m, l. rewrite lookup_insert_ne; congruence.
  - intros m q [[<- <-]|[Hne Hm]]%lookup_insert_Some.
    + simpl. rewrite Hv', lookup_insert_eq. split; [done|]. intros ?? E. by simplify_eq.
    + pose proof (so_pc _ Hs _ _ Hm) as Hq. simpl in Hq. pose proof (Hw _ _ Hm) as Hr.
      destruct (decide (tok_of q = ct_token task)) as [Heq|Hneq].
      * rewrite Heq, Hv in Hq. rewrite Heq, Hv'. destruct q; simpl in *; try done; try congruence.
        -- by destruct Hq as (?&?&_).
        -- by destruct Hq as (?&?&?&_).
        -- intros Hok. destruct (Hq Hok) as (y&?&?). eauto.
      * rewrite Hoth by done. destruct q; simpl in *; try done; naive_solver.
  - intros k m q q' p [[<- <-]|[Hk1 Hk2]]%lookup_insert_Some [[<- <-]|[Hm1 Hm2]]%lookup_insert_Some R1 R2; try done.
    + simpl in R1. simplify_eq. by destruct (Hw _ _ Hm2).
    + simpl in R2. simplify_eq. by destruct (Hw _ _ Hk2).
    + by eapply (so_one _ Hs k m).
Qed.

Lemma retrieve_safe t ths st n tok :
  sys_ok (mkSystem t ths st) -> ths !! n = None -> (forall m pc, ths !! m = Some pc -> ~ retrieves pc tok) ->
  sys_ok (mkSystem t (<[n := RLookup tok]> ths) st).
Proof.
  intros Hs Hn Hno. split; simpl; [apply (so_wf _ Hs)|..].
  - intros k. pose proof (so_entry _ Hs k) as He. simpl in He. destruct (result_view t k) as [[b r]|]; [|done].
    destruct He as (?&?&Hf). split_and!; [done..|]. intros Hx. destruct (Hf Hx) as (m&l&?).
    exists m, l. rewrite lookup_insert_ne; congruence.
  - intros m q [[<- <-]|[Hne Hm]]%lookup_insert_Some; [done|]. by apply (so_pc _ Hs m).
  - assert (Hr : forall m q, ths !! m = Some q -> role q <> Some (true, tok)).
    { intros m q Hm E. apply (Hno _ _ Hm). destruct q; simpl in *; congruence. }
    intros k m q q' p [[<- <-]|[Hk1 Hk2]]%lookup_insert_Some [[<- <-]|[Hm1 Hm2]]%lookup_insert_Some R1 R2; try done.
    + simpl in R1. simplify_eq. by destruct (Hr _ _ Hm2).
    + simpl in R2. simplify_eq. by destruct (Hr _ _ Hk2).
    + by eapply (so_one _ Hs k m).
Qed.

Lemma run_ok s : sys_run calc s -> sys_ok s.
Proof.
  unfold sys_run. intros H. apply (rtc_ind_r sys_ok sys_init) in H; [done|..].
  - split; simpl; [split; simpl; intros *; by rewrite lookup_empty|..].
    + intros tok. unfold result_view; simpl. by rewrite lookup_empty.
    + intros n pc. by rewrite lookup_empty.
    + intros n m pc pc' p. by rewrite lookup_empty.
  - intros y z _ Hyz Hy. destruct Hyz as [t ths st n task a|t ths st n tok|t ths st n pc pc' t' Hn E].
    + by apply start_safe.
    + by apply retrieve_safe.
    + destruct (thread_safe _ _ _ _ _ Hy Hn) as (p&u&E'&Hs). rewrite E in E'. by simplify_eq.
Qed.
End invariant.

(** A request that starts a task takes a step of the system. *)
Lemma start_is_step calc se o s t req repo_id server_head client_head dir_only uuid a replies task s' t' ths st n :
  start_fs_obj_id_cb se o s t req repo_id server_head client_head dir_only uuid a = (replies, Some task, s', t') ->
  ths !! n = None -> st !! ct_token task = None -> fs_obj_ids t !! ct_token task = None -> results t !! a = None ->
  sys_step calc (mkSystem t ths st) (mkSystem t' (<[n := WLookup task]> ths) (<[ct_token task := task]> st)).
Proof.
  unfold start_fs_obj_id_cb. intros E Hn Hst Hid Ha.
  repeat (case_match; simplify_eq);
    match goal with |- context [WLookup ?task] => by apply (sys_start calc t ths st n task a) end.
Qed.

(** C22: While every calculation leaves no pointer to a freed list, and the requests for one result
    come one after another, no thread touches freed memory, however the threads are
    interleaved; and a request that succeeds is answered with the list that the calculation
    of its task gave. *)
Theorem tasks_safe calc s :
  (forall task, calc task <> CalcError true) -> sys_run calc s ->
  (forall n pc, ts_threads s !! n = Some pc -> is_Some (thread_step calc pc (ts_table s))) /\
  (forall n tok l, ts_threads s !! n = Some (RDone tok EVHTP_RES_OK l) ->
     exists task, ts_started s !! tok = Some task /\ calc task = CalcList l).
Proof.
  intros Hc Hrun. pose proof (run_ok calc Hc s Hrun) as Hs. destruct s as [t ths st]. split.
  - intros n pc Hn. destruct (thread_safe calc Hc t ths st n pc Hs Hn) as (pc'&t'&E&_). simpl. rewrite E. eauto.
  - intros n tok l Hn. by apply (so_pc _ _ Hs _ _ Hn).
Qed.

(** ** Runs *)

Definition demo_task : ComputeObjTask := mkTask "token" "repo" None "head" false.
Definition demo_calc (task : ComputeObjTask) : calc_result := CalcList [ct_server_head task].

(** A run of one task: start, calculation, request. *)
Definition demo_end : task_system :=
  mkSystem (mkTable ∅ ∅) {[0%nat := WDone; 1%nat := RDone "token" EVHTP_RES_OK ["head"]]} {["token" := demo_task]}.

Ltac demo_step n := eapply rtc_l; [eapply (sys_thread _ _ _ _ n); reflexivity|].

Lemma demo_run : sys_run demo_calc demo_end.
Proof.
  unfold sys_run, sys_init, demo_end.
  eapply rtc_l; [apply (sys_start _ _ _ _ 0 demo_task 7); reflexivity|].
  demo_step 0%nat. demo_step 0%nat.
  eapply rtc_l; [apply (sys_retrieve _ _ _ _ 1 "token"); [reflexivity|]|].
  { intros m pc Hm. apply lookup_insert_Some in Hm as [[_ <-]|[_ Hm]]; [by intros []|].
    apply lookup_insert_Some in Hm as [[_ <-]|[_ Hm]]; [by intros []|].
    apply lookup_insert_Some in Hm as [[_ <-]|[_ Hm]]; [by intros []|]. by rewrite lookup_empty in Hm. }
  do 3 demo_step 1%nat.
  match goal with |- rtc _ ?x ?y => replace x with y; [apply rtc_refl|] end. vm_compute. reflexivity.
Qed.

Lemma tasks_safe_witness :
  exists task, ts_started demo_end !! "token" = Some task /\ demo_calc task = CalcList ["head"].
Proof.
  assert (Hc : forall task, demo_calc task <> CalcError true) by (intros task; discriminate).
  apply (proj2 (tasks_safe demo_calc demo_end Hc demo_run) 1%nat "token" ["head"]). reflexivity.
Defined.

(** A calculation that fails after it collected objects frees the list and keeps the pointer;
    the removal of the result frees the list again. *)
Lemma failed_calculation_freed_twice :
  exists t, compute_fs_obj_id (fun _ => CalcError true) (WCompute demo_task 7)
              (mkTable {["token" := 7%nat]} {[7%nat := mkResult [] false false false]}) = Some (WRemove demo_task, t) /\
            compute_fs_obj_id (fun _ => CalcError true) (WRemove demo_task) t = None.
Proof. eexists. split; reflexivity. Qed.

(** Two requests for one result that overlap free its strings twice. *)
Lemma overlapping_requests_free_twice :
  let t := mkTable {["token" := 7%nat]} {[7%nat := mkResult ["head"] false false true]} in
  retrieve_fs_obj_id_cb (RLookup "token") t = Some (RRead "token" 7, t) /\
  exists t', retrieve_fs_obj_id_cb (RRead "token" 7) t = Some (RRemove "token" ["head"], t') /\
             retrieve_fs_obj_id_cb (RRead "token" 7) t' = None.
Proof. split; [reflexivity|]. eexists. split; reflexivity. Qed.
