(* ===== verification/Fsck.v ===== *)
(** * The consistency check ([server/gc/fsck.c])

    The check walks the tree of the head of a library, verifies every object and looks for
    every block.  In repair mode damaged files and directories are replaced by empty ones,
    the directories above them are written anew, and a commit of the mended tree becomes the
    head.  When the head itself is damaged the newest commit with a readable root takes its
    place. *)

From S2P Require Import Prelude Hex FsObj Paths FsMgr Walk Diff CommitMgr Repo SyncAuth.

(** ** The stores *)

(** A stored object: its id is the hash of its contents, or it is not; then [o] is what the
    contents read as, if anything. *)
Inductive stored := Whole (o : fs_object) | Broken (o : option fs_object).

Definition decoded (s : stored) : option fs_object := match s with Whole o => Some o | Broken o => o end.

(** The objects of a store, and for each block whether its id is the hash of its contents. *)
Record FsckDisk := mkDisk { k_objs : gmap string stored; k_blocks : gmap string bool }.

(** What the readers of objects see. *)
Definition fs_of (k : FsckDisk) : fs_store := omap decoded (k_objs k).

Inductive fsck_io := IoObjExists | IoObjRead | IoObjLoad | IoObjWrite | IoBlkExists | IoBlkRead | IoBlkRemove.

Inductive VerifyType := VERIFY_FILE | VERIFY_DIR.

Record FsckOptions := mkOptions { opt_integrity : bool; opt_file_size : bool; opt_repair : bool }.

Record FsckData := mkFsck {
  existing_blocks : gset string;
  repaired_files : list string;
  repaired_folders : list string;
  fsck_damaged : bool
}.

Definition add_existing (fd : FsckData) (id : string) : FsckData :=
  mkFsck ({[id]} ∪ existing_blocks fd) (repaired_files fd) (repaired_folders fd) (fsck_damaged fd).
Definition set_damaged (fd : FsckData) : FsckData :=
  mkFsck (existing_blocks fd) (repaired_files fd) (repaired_folders fd) true.
Definition add_file (fd : FsckData) (path : string) : FsckData :=
  mkFsck (existing_blocks fd) (path :: repaired_files fd) (repaired_folders fd) true.
Definition add_folder (fd : FsckData) (path : string) : FsckData :=
  mkFsck (existing_blocks fd) (repaired_files fd) (path :: repaired_folders fd) true.

Section check.
Context (dir_hash : Z -> list SeafDirent -> string) (options : FsckOptions) (version now : Z).
(** The accesses to the stores that fail. *)
Context (fails : fsck_io -> string -> bool).

(** [seaf_fs_manager_object_exists_checked] *)
Definition object_exists_checked (k : FsckDisk) (id : string) : Z :=
  if String.eqb id EMPTY_SHA1 then 1
  else if negb (is_object_id_valid (Some id)) || fails IoObjExists id then -1
  else match k_objs k !! id with Some _ => 1 | None => 0 end.

(** [seaf_fs_manager_verify_seafdir], [seaf_fs_manager_verify_seafile]: whether the object is
    valid, and [io_error].  The kind of an object is part of its contents in version 0
    only. *)
Definition verify_object (k : FsckDisk) (type : VerifyType) (id : string) : bool * bool :=
  if String.eqb id EMPTY_SHA1 then (true, false)
  else if fails IoObjRead id then (false, true)
  else match k_objs k !! id with
       | None => (false, true)
       | Some (Whole o) =>
           (if 0 <? version then true
            else match type, o with VERIFY_DIR, ODir _ | VERIFY_FILE, OFile _ => true | _, _ => false end, false)
       | Some (Broken _) => (false, false)
       end.

(** An object that does not exist is valid. *)
Definition fsck_verify_seafobj (k : FsckDisk) (type : VerifyType) (obj_id : string) : bool * bool :=
  let exists_ := object_exists_checked k obj_id in
  if exists_ <? 0 then (false, true)
  else if exists_ =? 0 then (true, false)
  else verify_object k type obj_id.

(** The loop of [check_blocks]: the result, [io_error], the blocks seen and the store. *)
Fixpoint check_block_list (ids : list string) (ret : Z) (fd : FsckData) (k : FsckDisk)
  : Z * bool * FsckData * FsckDisk :=
  match ids with
  | [] => (ret, false, fd, k)
  | id :: ids =>
      if bool_decide (id ∈ existing_blocks fd) then check_block_list ids ret fd k
      else if fails IoBlkExists id then (-1, true, fd, k)
      else match k_blocks k !! id with
           | None => check_block_list ids (-1) fd k
           | Some ok =>
               if opt_integrity options then
                 if fails IoBlkRead id then (-1, negb (ret <? 0), fd, k)
                 else if (ok : bool) then check_block_list ids ret (add_existing fd id) k
                 else
                   let k := if opt_repair options && negb (fails IoBlkRemove id)
                            then mkDisk (k_objs k) (delete id (k_blocks k)) else k in
                   check_block_list ids (-1) (add_existing fd id) k
               else check_block_list ids ret (add_existing fd id) k
           end
  end.

Definition get_seafile (k : FsckDisk) (file_id : string) : option Seafile :=
  if negb (String.eqb file_id EMPTY_SHA1) && fails IoObjLoad file_id then None
  else seaf_fs_manager_get_seafile (fs_of k) file_id.

Definition get_seafdir (k : FsckDisk) (dir_id : string) : option SeafDir :=
  if negb (String.eqb dir_id EMPTY_SHA1) && fails IoObjLoad dir_id then None
  else seaf_fs_manager_get_seafdir (fs_of k) version dir_id.

Definition check_blocks (file_id : string) (fd : FsckData) (k : FsckDisk) : Z * bool * FsckData * FsckDisk :=
  match get_seafile k file_id with
  | None => (-1, false, fd, k)
  | Some seafile => check_block_list (f_blk_sha1s seafile) 0 fd k
  end.

(** Besides the mark only a message is made, with the commit that changed the file. *)
Definition check_file_size (fd : FsckData) (dent : SeafDirent) (k : FsckDisk) : FsckData :=
  match get_seafile k (d_id dent) with
  | None => fd
  | Some seafile => if f_size seafile =? d_size dent then fd else set_damaged fd
  end.

Definition emptied (dent : SeafDirent) : SeafDirent :=
  mkDirent (d_version dent) (d_mode dent) EMPTY_SHA1 (d_name_len dent) (d_name dent) now (d_modifier dent) 0.

(** An entry of a regular file: the entry and whether it was damaged; [None]: an I/O
    error. *)
Definition check_file (parent_dir : string) (dent : SeafDirent) (fd : FsckData) (k : FsckDisk)
  : option (SeafDirent * bool) * FsckData * FsckDisk :=
  let path := parent_dir +:+ d_name dent in
  match fsck_verify_seafobj k VERIFY_FILE (d_id dent) with
  | (false, true) => (None, fd, k)
  | (false, false) => (Some (emptied dent, true), add_file fd path, k)
  | (true, _) =>
      match check_blocks (d_id dent) fd k with
      | (ret, io_error, fd, k) =>
          if ret <? 0 then
            if io_error then (None, fd, k) else (Some (emptied dent, true), add_file fd path, k)
          else (Some (dent, false), if opt_file_size options then check_file_size fd dent k else fd, k)
      end
  end.

Definition dir_save (k : FsckDisk) (dir : SeafDir) : Z * FsckDisk :=
  if String.eqb (dir_id dir) EMPTY_SHA1 then (0, k)
  else if object_exists_checked k (dir_id dir) =? 1 then (0, k)
  else if fails IoObjWrite (dir_id dir) then (-1, k)
  else (0, mkDisk (<[dir_id dir := Whole (ODir dir)]> (k_objs k)) (k_blocks k)).

(** The entries of a directory: the new entries and [is_corrupted].  The outer [None] is the
    end of the fuel, the inner one the end of the check. *)
Fixpoint check_entries (rec : string -> string -> FsckData -> FsckDisk -> option (option string * FsckData * FsckDisk))
    (parent_dir : string) (l : list SeafDirent) (fd : FsckData) (k : FsckDisk)
  : option (option (list SeafDirent * bool) * FsckData * FsckDisk) :=
  match l with
  | [] => Some (Some ([], false), fd, k)
  | dent :: l =>
      let go (dent' : SeafDirent) (corrupted : bool) fd k :=
        match check_entries rec parent_dir l fd k with
        | None => None
        | Some (None, fd, k) => Some (None, fd, k)
        | Some (Some (l', c), fd, k) => Some (Some (dent' :: l', corrupted || c), fd, k)
        end in
      if S_ISREG (d_mode dent) then
        match check_file parent_dir dent fd k with
        | (None, fd, k) => Some (None, fd, k)
        | (Some (dent', corrupted), fd, k) => go dent' corrupted fd k
        end
      else if S_ISDIR (d_mode dent) then
        let path := parent_dir +:+ d_name dent +:+ "/" in
        match fsck_verify_seafobj k VERIFY_DIR (d_id dent) with
        | (false, true) => Some (None, fd, k)
        | (false, false) => go (set_id dent EMPTY_SHA1) true (add_folder fd path) k
        | (true, _) =>
            match rec (d_id dent) path fd k with
            | None => None
            | Some (None, fd, k) => Some (None, fd, k)
            | Some (Some sub_dir_id, fd, k) =>
                if strcmp sub_dir_id (d_id dent) =? 0 then go dent false fd k
                else go (set_id dent sub_dir_id) true fd k
            end
        end
      else go dent false fd k
  end.

Fixpoint fsck_check_dir_recursive (fuel : nat) (id parent_dir : string) (fd : FsckData) (k : FsckDisk)
  : option (option string * FsckData * FsckDisk) :=
  match fuel with
  | O => None
  | S fuel =>
      match get_seafdir k id with
      | None => Some (None, fd, k)
      | Some dir =>
          match check_entries (fsck_check_dir_recursive fuel) parent_dir (entries dir) fd k with
          | None => None
          | Some (None, fd, k) => Some (None, fd, k)
          | Some (Some (l, is_corrupted), fd, k) =>
              if is_corrupted then
                let new_dir := seaf_dir_new dir_hash l version in
                if opt_repair options then
                  match dir_save k new_dir with
                  | (ret, k) => Some (if ret <? 0 then None else Some (dir_id new_dir), fd, k)
                  end
                else Some (Some (dir_id new_dir), fd, k)
              else Some (Some (dir_id dir), fd, k)
          end
      end
  end.
End check.

(** ** The library *)

(** [gen_repair_commit_desc] *)
Definition gen_repair_commit_desc (files folders : list string) : string :=
  let lines (l : list string) := foldr (fun path d => path +:+ newline +:+ d) EmptyString l in
  "Repaired by system."
  +:+ (match files with [] => EmptyString | _ => newline +:+ "Damaged files:" +:+ newline +:+ lines files end)
  +:+ (match folders with [] => EmptyString | _ => newline +:+ "Damaged folders:" +:+ newline +:+ lines folders end).

Record FsckWorld := mkFsckWorld {
  fw_db : Db;
  fw_tokens : TokenTables;
  fw_commits : commit_store;
  fw_disks : gmap string FsckDisk
}.

Definition disk_of (w : FsckWorld) (store_id : string) : FsckDisk := default (mkDisk ∅ ∅) (fw_disks w !! store_id).
Definition set_disk (w : FsckWorld) (store_id : string) (k : FsckDisk) : FsckWorld :=
  mkFsckWorld (fw_db w) (fw_tokens w) (fw_commits w) (<[store_id := k]> (fw_disks w)).

Inductive fsck_query := FqExists | FqTokens | FqDelTokens | FqDelPeers | FqBegin | FqSelect | FqUpdate | FqCommit.

Section repair.
Context (sha1 : list Z -> list Z) (dir_hash : Z -> list SeafDirent -> string).
Context (is_uuid_valid : string -> bool) (options : FsckOptions) (now : Z) (fuel : nat).
(** The accesses to the stores of objects, the writing of a commit and the queries that
    fail; the commits of a library in the order in which the store lists them. *)
Context (fails : fsck_io -> string -> bool) (commit_write_ok : bool) (db_fails : fsck_query -> bool).
Context (scanned : string -> list SeafCommit).

(** [seaf_delete_repo_tokens] ([common/seaf-utils.c]) *)
Definition seaf_delete_repo_tokens (tt : TokenTables) (repo_id : string) : Z * TokenTables :=
  let tokens := tr_token <$> List.filter (fun r => String.eqb (tr_repo_id r) repo_id) (t_RepoUserToken tt) in
  let keep token := negb (existsb (String.eqb token) tokens) in
  if db_fails FqTokens then (-1, tt)
  else match tokens with
       | [] => (0, tt)
       | _ =>
           if db_fails FqDelTokens then (-1, tt)
           else
             let rows := List.filter (fun r => keep (tr_token r)) (t_RepoUserToken tt) in
             if db_fails FqDelPeers then (-1, mkTokens rows (t_RepoTokenPeerInfo tt))
             else (0, mkTokens rows (List.filter (fun p => keep (pr_token p)) (t_RepoTokenPeerInfo tt)))
       end.

(** [head]: the commit of [repo->head], if there is one. *)
Definition test_and_update_branch (db : Db) (repo : SeafRepo) (head : option string) (commit : SeafCommit) : Z * Db :=
  let parent_commit_id := match head with Some id => id | None => text (parent_id commit) end in
  if db_fails FqBegin || db_fails FqSelect then (-1, db)
  else
    let row := string_take 40 (default EmptyString (t_Branch db !! ("master", r_id repo))) in
    if negb (String.eqb row EmptyString) && negb (strcmp parent_commit_id row =? 0) then (-1, db)
    else if db_fails FqUpdate || db_fails FqCommit then (-1, db)
    else (0, set_branch db "master" (r_id repo) (commit_id commit)).

Definition reset_commit_to_repair (w : FsckWorld) (repo : SeafRepo) (head : option string) (parent : SeafCommit)
    (new_root_id : string) (files folders : list string) : Z * FsckWorld :=
  let '(ret, tokens) := seaf_delete_repo_tokens (fw_tokens w) (r_id repo) in
  let w := mkFsckWorld (fw_db w) tokens (fw_commits w) (fw_disks w) in
  if ret <? 0 then (-1, w)
  else
    let new_commit := seaf_repo_to_commit repo
      (set_parents (seaf_commit_new sha1 now None (r_id repo) new_root_id (creator_name parent) (creator_id parent)
                      (gen_repair_commit_desc files folders) 0) (Some (commit_id parent)) None) in
    let '(ret, commits) := seaf_commit_manager_add_commit commit_write_ok (fw_commits w) new_commit in
    let w := mkFsckWorld (fw_db w) (fw_tokens w) commits (fw_disks w) in
    if ret <? 0 then (-1, w)
    else
      let '(ret, db) := test_and_update_branch (fw_db w) repo head new_commit in
      (if ret <? 0 then -1 else 0, mkFsckWorld db (fw_tokens w) (fw_commits w) (fw_disks w)).

Definition check_and_recover_repo (w : FsckWorld) (repo : SeafRepo) (head : option string) (rep_commit : SeafCommit)
    (reset : bool) : option (Z * FsckWorld) :=
  match fsck_check_dir_recursive dir_hash options (r_version repo) now fails fuel (root_id rep_commit) "/"
          (mkFsck ∅ [] [] false) (disk_of w (r_store_id repo)) with
  | None => None
  | Some (root, fd, k) =>
      let w := set_disk w (r_store_id repo) k in
      match root with
      | None => Some (-1, w)
      | Some new_root =>
          let '(ok, w) :=
            if opt_repair options then
              if negb (strcmp new_root (root_id rep_commit) =? 0) then
                let '(ret, w) := reset_commit_to_repair w repo head rep_commit new_root (repaired_files fd) (repaired_folders fd) in
                (0 <=? ret, w)
              else if reset then
                let '(ret, w) := reset_commit_to_repair w repo head rep_commit (root_id rep_commit) [] [] in (0 <=? ret, w)
              else (true, w)
            else (true, w) in
          Some (if negb ok then -1 else if negb (opt_repair options) && fsck_damaged fd then -1 else 0, w)
      end
  end.

(** Newest first: the difference of the times is converted to [gint], the sort is stable. *)
Definition compare_commit_by_ctime (a b : SeafCommit) : Z := s32 (u64 (ctime b - ctime a)).
Fixpoint insert_by_ctime (c : SeafCommit) (l : list SeafCommit) : list SeafCommit :=
  match l with
  | [] => [c]
  | c' :: l => if compare_commit_by_ctime c c' <=? 0 then c :: c' :: l else c' :: insert_by_ctime c l
  end.
Definition sort_by_ctime (l : list SeafCommit) : list SeafCommit := foldr insert_by_ctime [] l.

(** The first commit whose root is valid; an I/O error ends the search. *)
Fixpoint first_available (k : FsckDisk) (l : list SeafCommit) : option SeafCommit :=
  match l with
  | [] => None
  | c :: l =>
      match fsck_verify_seafobj 1 fails k VERIFY_DIR (root_id c) with
      | (false, true) => None
      | (false, false) => first_available k l
      | (true, _) => Some c
      end
  end.

(** The list is built from its end. *)
Definition get_available_repair_commit (w : FsckWorld) (repo : SeafRepo) : option SeafCommit :=
  first_available (disk_of w (r_store_id repo)) (sort_by_ctime (reverse (scanned (r_id repo)))).

(** A library without the fields that come with its head commit. *)
Definition blank_repo (db : Db) (repo_id : string) (head : SeafBranch) : SeafRepo :=
  let v := t_VirtualRepo db !! repo_id in
  mkRepo (string_take 36 repo_id)
    (match v with Some v => string_take 36 (v_origin_repo_id v) | None => string_take 36 repo_id end)
    v head EmptyString None None None 0 false 0
    EmptyString EmptyString EmptyString EmptyString None None false false 0 0.

(** [load_repo] ([server/gc/repo-mgr.c]) *)
Definition gc_load_repo (db : Db) (cs : commit_store) (repo_id : string) : option SeafRepo :=
  branch ← seaf_branch_manager_get_branch db repo_id "master";
  commit ← seaf_commit_manager_get_commit cs (b_commit_id branch);
  Some (seaf_repo_from_commit (blank_repo db repo_id branch) commit).

(** [get_corrupted_repo]: the library and the commit of its branch, if it has one. *)
Definition get_corrupted_repo (db : Db) (repo_id : string) : SeafRepo * option string :=
  match seaf_branch_manager_get_branch db repo_id "master" with
  | None => (blank_repo db repo_id (mkBranch "master" repo_id EmptyString), None)
  | Some branch => (blank_repo db repo_id branch, Some (b_commit_id branch))
  end.

Definition repo_exists_in_db (db : Db) (repo_id : string) : bool := negb (db_fails FqExists) && bool_decide (repo_id ∈ t_Repo db).

Definition repair_repo (w : FsckWorld) (repo_id : string) : option (Z * FsckWorld) :=
  if negb (is_uuid_valid repo_id) then Some (-1, w)
  else if negb (repo_exists_in_db (fw_db w) repo_id) then Some (-1, w)
  else
    match gc_load_repo (fw_db w) (fw_commits w) repo_id with
    | None =>
        let '(repo, head) := get_corrupted_repo (fw_db w) repo_id in
        match get_available_repair_commit w repo with
        | None => Some (-1, w)
        | Some rep_commit => check_and_recover_repo w (seaf_repo_from_commit repo rep_commit) head rep_commit true
        end
    | Some repo =>
        let head := Some (b_commit_id (r_head repo)) in
        match seaf_commit_manager_get_commit (fw_commits w) (b_commit_id (r_head repo)) with
        | None => Some (-1, w)
        | Some commit =>
            match fsck_verify_seafobj (r_version repo) fails (disk_of w (r_store_id repo)) VERIFY_DIR (root_id commit) with
            | (false, true) => Some (-1, w)
            | (false, false) =>
                match get_available_repair_commit w repo with
                | None => Some (-1, w)
                | Some rep_commit => check_and_recover_repo w repo head rep_commit true
                end
            | (true, _) => check_and_recover_repo w repo head commit false
            end
        end
    end.

(** Without threads. *)
Fixpoint repair_repos (w : FsckWorld) (repo_ids : list string) (failed : Z) : option (Z * FsckWorld) :=
  match repo_ids with
  | [] => Some (if failed =? 0 then 0 else -1, w)
  | repo_id :: repo_ids =>
      '(ret, w) ← repair_repo w repo_id; repair_repos w repo_ids (if ret <? 0 then s32 (failed + 1) else failed)
  end.
End repair.
