(* ===== verification/FsckProof.v ===== *)
(** * The consistency check finds and mends damage

    A check that reports no damage has seen every object of the tree whole and every block;
    a repair leaves a tree that is sound and differs from the old one only where that was
    damaged. *)

From S2P Require Import Prelude Hex FsObj Paths FsMgr Walk Diff CommitMgr Repo SyncAuth Fsck.

(** ** Sound trees *)

(** The directories listed in a tree. *)
Inductive listed_dir (st : fs_store) (version : Z) : string -> string -> Prop :=
| listed_here id : listed_dir st version id id
| listed_sub id dir de x :
    seaf_fs_manager_get_seafdir st version id = Some dir -> de ∈ entries dir -> S_ISDIR (d_mode de) = true ->
    listed_dir st version (d_id de) x -> listed_dir st version id x.

Definition sound_file (B : string -> Prop) (k : FsckDisk) (id : string) : Prop :=
  id = EMPTY_SHA1 \/ exists f, k_objs k !! id = Some (Whole (OFile f)) /\ Forall B (f_blk_sha1s f).

Definition whole_dir (k : FsckDisk) (id : string) : Prop :=
  id = EMPTY_SHA1 \/ exists d, k_objs k !! id = Some (Whole (ODir d)).

Definition sound_tree (B : string -> Prop) (version : Z) (k : FsckDisk) (root : string) : Prop :=
  (forall x, listed_dir (fs_of k) version root x -> whole_dir k x) /\
  (forall f, file_under (fs_of k) version root f -> sound_file B k f).

Section mended.
Context (version now : Z) (B : string -> Prop) (k : FsckDisk).

(** An entry of the mended tree for an entry of the tree. *)
Inductive mended_entry (R : string -> string -> Prop) (e : SeafDirent) : SeafDirent -> Prop :=
| me_file : S_ISREG (d_mode e) = true -> sound_file B k (d_id e) -> mended_entry R e e
| me_bad_file : S_ISREG (d_mode e) = true -> ~ sound_file B k (d_id e) -> mended_entry R e (emptied now e)
| me_dir x : S_ISDIR (d_mode e) = true -> R (d_id e) x -> mended_entry R e (set_id e x)
| me_bad_dir : S_ISDIR (d_mode e) = true -> ~ whole_dir k (d_id e) -> mended_entry R e (set_id e EMPTY_SHA1)
| me_other : S_ISREG (d_mode e) = false -> S_ISDIR (d_mode e) = false -> mended_entry R e e.

Inductive mended : string -> string -> Prop :=
| mended_dir id id' d d' :
    seaf_fs_manager_get_seafdir (fs_of k) version id = Some d ->
    seaf_fs_manager_get_seafdir (fs_of k) version id' = Some d' -> whole_dir k id' ->
    Forall2 (mended_entry mended) (entries d) (entries d') -> mended id id'.

Lemma mended_empty : mended EMPTY_SHA1 EMPTY_SHA1.
Proof. apply (mended_dir _ _ (mkDir version EMPTY_SHA1 []) (mkDir version EMPTY_SHA1 [])); try done. by left. Qed.

Lemma mended_sub id id' d' e' :
  mended id id' -> seaf_fs_manager_get_seafdir (fs_of k) version id' = Some d' -> e' ∈ entries d' ->
  (S_ISDIR (d_mode e') = true -> exists i, mended i (d_id e')) /\ (S_ISREG (d_mode e') = true -> sound_file B k (d_id e')).
Proof.
  intros [? ? d d1 Hd Hd' Hw HF] E Hin. rewrite E in Hd'. injection Hd' as <-.
  apply list_elem_of_lookup_1 in Hin as [i Hi]. eapply Forall2_lookup_r in HF as (e & _ & Hm); [|exact Hi].
  destruct Hm as [Hr Hs|Hr Hs|x Hm Hx|Hm Hb|Hr Hm]; cbn.
  - by pose proof (S_ISREG_not_DIR _ Hr) as ->.
  - pose proof (S_ISREG_not_DIR _ Hr) as ->. split; [done|]. intros _. by left.
  - split; [by exists (d_id e)|]. intros Hr. by rewrite (S_ISREG_not_DIR _ Hr) in Hm.
  - split; [|intros _; by left]. intros _. exists EMPTY_SHA1. apply mended_empty.
  - by rewrite Hr, Hm.
Qed.

Lemma mended_sound id id' : mended id id' -> sound_tree B version k id'.
Proof.
  intros Hm. split.
  - intros x Hx. revert id Hm. induction Hx as [id'|id' d' e' x Ed Hin Hdir _ IH]; intros id Hm; [by destruct Hm|].
    destruct (mended_sub _ _ _ _ Hm Ed Hin) as [H _]. destruct (H Hdir) as [i Hi]. by eapply IH.
  - intros f Hf. revert id Hm. induction Hf as [id' d' e' Ed Hin Hreg _|id' d' e' f Ed Hin Hdir _ IH]; intros id Hm.
    + destruct (mended_sub _ _ _ _ Hm Ed Hin) as [_ H]. by apply H.
    + destruct (mended_sub _ _ _ _ Hm Ed Hin) as [H _]. destruct (H Hdir) as [i Hi]. by eapply IH.
Qed.
End mended.

(** Only directories are added to a store. *)
Record ext (k k' : FsckDisk) : Prop := {
  ext_blocks : k_blocks k' = k_blocks k;
  ext_objs : k_objs k ⊆ k_objs k';
  ext_new : forall id s, k_objs k' !! id = Some s -> k_objs k !! id = Some s \/ exists d, s = Whole (ODir d)
}.

#[global] Instance ext_preorder : PreOrder ext.
Proof.
  split.
  - intros k. split; [done|done|]. intros id s H. by left.
  - intros k1 k2 k3 [B1 O1 N1] [B2 O2 N2]. split; [congruence|by transitivity (k_objs k2)|].
    intros id s H. destruct (N2 _ _ H) as [H2|H2]; [by apply N1|by right].
Qed.

Lemma ext_seafdir k k' version id d :
  ext k k' -> seaf_fs_manager_get_seafdir (fs_of k) version id = Some d ->
  seaf_fs_manager_get_seafdir (fs_of k') version id = Some d.
Proof.
  intros [_ Ho _]. unfold seaf_fs_manager_get_seafdir, fs_of. destruct (String.eqb id EMPTY_SHA1); [done|].
  rewrite !lookup_omap. destruct (k_objs k !! id) as [s|] eqn:E; [|done]. by rewrite (lookup_weaken _ _ _ _ E Ho).
Qed.

Lemma ext_sound_file B k k' id : ext k k' -> sound_file B k id <-> sound_file B k' id.
Proof.
  intros [_ Ho Hn]. split; (intros [H|(f & E & HF)]; [by left|right; exists f; split; [|done]]).
  - by eapply lookup_weaken.
  - by destruct (Hn _ _ E) as [?|[? ?]].
Qed.

Lemma ext_whole_dir k k' id : ext k k' -> whole_dir k id -> whole_dir k' id.
Proof. intros [_ Ho _] [H|[d E]]; [by left|right; exists d; by eapply lookup_weaken]. Qed.

Lemma ext_bad_dir k k' id : ext k k' -> is_Some (k_objs k !! id) -> ~ whole_dir k id -> ~ whole_dir k' id.
Proof.
  intros [_ Ho _] [s Hs] Hb [H|[d E]]; [apply Hb; by left|]. apply Hb. right. exists d.
  rewrite (lookup_weaken _ _ _ _ Hs Ho) in E. by rewrite Hs.
Qed.

(** ** The run *)

Section run.
Context (dir_hash : Z -> list SeafDirent -> string) (options : FsckOptions) (version now : Z).
Context (fails : fsck_io -> string -> bool).
(** Blocks are verified when nothing is repaired: a repair removes damaged blocks. *)
Context (Hmode : opt_integrity options = false \/ opt_repair options = false).

(** A block that is there and, where blocks are verified, has the hash of its id. *)
Definition block_ok (k : FsckDisk) (b : string) : Prop :=
  exists ok, k_blocks k !! b = Some ok /\ (opt_integrity options = true -> ok = true).

(** When the result of the check says something about the tree. *)
Definition claims (fd : FsckData) : Prop :=
  (opt_integrity options = true -> fsck_damaged fd = false) /\ (opt_repair options = false -> fsck_damaged fd = false).

Definition seen_ok (fd : FsckData) (k : FsckDisk) : Prop := forall b, b ∈ existing_blocks fd -> block_ok k b.
Definition seen (fd : FsckData) (k : FsckDisk) : Prop := claims fd -> seen_ok fd k.

Lemma contra_bool (a b : bool) : (a = true -> b = true) -> b = false -> a = false.
Proof. intros H Hb. destruct a; [|done]. by rewrite H in Hb. Qed.

Lemma claims_mono fd fd' : (fsck_damaged fd = true -> fsck_damaged fd' = true) -> claims fd' -> claims fd.
Proof. intros H [C1 C2]. split; intros E; eapply contra_bool; eauto. Qed.

Lemma block_ok_ext k k' b : ext k k' -> block_ok k b <-> block_ok k' b.
Proof. intros [Hb _ _]. unfold block_ok. by rewrite Hb. Qed.

(** What the loop over the blocks of a file tells. *)
Definition scanned_blocks (ids : list string) (ret : Z) (fd : FsckData) (k : FsckDisk) (ret' : Z) (io : bool) (fd' : FsckData)
    (k' : FsckDisk) : Prop :=
  k' = k /\ fsck_damaged fd' = fsck_damaged fd /\ (ret' = 0 \/ ret' = -1) /\
  (seen_ok fd k -> opt_integrity options = false \/ ret' = 0 -> seen_ok fd' k) /\
  (seen_ok fd k -> ret' = 0 -> ret = 0 /\ Forall (block_ok k) ids) /\
  (ret = -1 -> ret' = -1) /\ (ret' = -1 -> io = false -> ret = -1 \/ ~ Forall (block_ok k) ids).

Lemma check_block_list_spec ids : forall ret fd k ret' io fd' k',
  check_block_list options fails ids ret fd k = (ret', io, fd', k') -> ret = 0 \/ ret = -1 ->
  scanned_blocks ids ret fd k ret' io fd' k'.
Proof.
  induction ids as [|id ids IH]; intros ret fd k ret' io fd' k' E Hret; cbn [check_block_list] in E.
  { injection E as <- <- <- <-. unfold scanned_blocks. split_and!; auto. }
  assert (Hok : forall ok, k_blocks k !! id = Some ok -> (opt_integrity options = true -> ok = true) ->
    check_block_list options fails ids ret (add_existing fd id) k = (ret', io, fd', k') ->
    scanned_blocks (id :: ids) ret fd k ret' io fd' k').
  { intros ok Hb Hi E'. apply IH in E' as (-> & Hd & Hr & H1 & H2 & H3 & H4); [|done].
    assert (Hid : block_ok k id) by (by exists ok).
    assert (Hs : seen_ok fd k -> seen_ok (add_existing fd id) k) by (intros Hs b; cbn; rewrite elem_of_union, elem_of_singleton; intros [->|?]; auto).
    unfold scanned_blocks. split_and!; auto.
    - intros Hs' ->. destruct (H2 (Hs Hs') eq_refl). by split; [|constructor].
    - intros -> ->. destruct (H4 eq_refl eq_refl) as [?|Hn]; [by left|right]. by intros [_ ?]%Forall_cons. }
  assert (Hbad : forall fd1, fsck_damaged fd1 = fsck_damaged fd -> ~ block_ok k id ->
    (seen_ok fd k -> opt_integrity options = false -> seen_ok fd1 k) ->
    check_block_list options fails ids (-1) fd1 k = (ret', io, fd', k') ->
    scanned_blocks (id :: ids) ret fd k ret' io fd' k').
  { intros fd1 Hfd Hn Hs E'. apply IH in E' as (-> & Hd & Hr & H1 & H2 & H3 & H4); [|by right].
    specialize (H3 eq_refl). subst ret'. unfold scanned_blocks. split_and!; auto; try done.
    - congruence.
    - intros Hs' [Hi|?]; [|done]. auto.
    - intros _ _. right. by intros [? _]%Forall_cons. }
  destruct (bool_decide_reflect (id ∈ existing_blocks fd)) as [Hin|Hin].
  { apply IH in E as (-> & Hd & Hr & H1 & H2 & H3 & H4); [|done]. unfold scanned_blocks. split_and!; auto.
    - intros Hs Hz. destruct (H2 Hs Hz). split; [done|]. constructor; [by apply Hs|done].
    - intros Hz Hio. destruct (H4 Hz Hio) as [?|Hn]; [by left|right]. by intros [_ ?]%Forall_cons. }
  destruct (fails IoBlkExists id). { injection E as <- <- <- <-. unfold scanned_blocks. split_and!; auto; done. }
  destruct (k_blocks k !! id) as [ok|] eqn:Eb.
  2: { apply (Hbad fd); auto. intros (ok & ? & _). congruence. }
  destruct (opt_integrity options) eqn:Ei; [|by apply (Hok ok)].
  destruct (fails IoBlkRead id).
  { injection E as <- <- <- <-. unfold scanned_blocks. split_and!; auto; try done. intros _ Hr.
    destruct (Z.ltb_spec ret 0); [left; lia|done]. }
  destruct ok; [by apply (Hok true)|]. destruct Hmode as [?|Hm]; [done|]. rewrite Hm in E. cbn [andb] in E.
  apply (Hbad (add_existing fd id)); auto; [|done]. intros (ok & E1 & E2). rewrite Eb in E1. injection E1 as <-. by specialize (E2 Ei).
Qed.

Lemma check_blocks_spec id fd k ret io fd' k' :
  (id = EMPTY_SHA1 \/ exists o, k_objs k !! id = Some (Whole o)) \/ k_objs k !! id = None ->
  check_blocks options fails id fd k = (ret, io, fd', k') ->
  k' = k /\ fsck_damaged fd' = fsck_damaged fd /\ (ret = 0 \/ ret = -1) /\
  (seen_ok fd k -> opt_integrity options = false \/ ret = 0 -> seen_ok fd' k) /\
  (seen_ok fd k -> ret = 0 -> sound_file (block_ok k) k id) /\
  (ret = -1 -> io = false -> (id = EMPTY_SHA1 \/ fails IoObjLoad id = false) -> ~ sound_file (block_ok k) k id).
Proof.
  intros Hid E. unfold check_blocks, get_seafile, seaf_fs_manager_get_seafile, fs_of in E. rewrite lookup_omap in E.
  destruct (String.eqb_spec id EMPTY_SHA1) as [He|Hne]; cbn [negb andb] in E.
  { injection E as <- <- <- <-. split_and!; auto; try done. intros _ _. by left. }
  assert (Hnone : (-1, false, fd, k) = (ret, io, fd', k') -> (fails IoObjLoad id = false -> ~ sound_file (block_ok k) k id) ->
    k' = k /\ fsck_damaged fd' = fsck_damaged fd /\ (ret = 0 \/ ret = -1) /\
    (seen_ok fd k -> opt_integrity options = false \/ ret = 0 -> seen_ok fd' k) /\
    (seen_ok fd k -> ret = 0 -> sound_file (block_ok k) k id) /\
    (ret = -1 -> io = false -> (id = EMPTY_SHA1 \/ fails IoObjLoad id = false) -> ~ sound_file (block_ok k) k id)).
  { intros [= <- <- <- <-] Hn. split_and!; auto; try done. intros _ _ [?|?]; [done|auto]. }
  destruct (fails IoObjLoad id) eqn:Ef; [by apply Hnone|].
  destruct Hid as [[?|[o Ho]]|Ho]; [done| |]; rewrite Ho in E; cbn [option_bind] in E.
  - destruct o as [d|f]; cbn in E; [apply Hnone; [done|]; intros _ [?|(f & Hf & _)]; congruence|].
    apply check_block_list_spec in E as (-> & Hd & Hr & H1 & H2 & _ & H4); [|by left]. split_and!; auto.
    + intros Hs Hz. right. exists f. split; [done|]. by destruct (H2 Hs Hz).
    + intros Hz Hio _ [?|(f' & Hf & HF)]; [done|]. rewrite Ho in Hf. injection Hf as <-.
      destruct (H4 Hz Hio) as [?|Hn]; done.
  - apply Hnone; [done|]. intros _ [?|(f & Hf & _)]; congruence.
Qed.

(** In a repair, looking for an object and the reads that follow a verification succeed; the
    hash of a directory is an object id. *)
Context (Hload : opt_repair options = true -> forall id, fails IoObjLoad id = false).
Context (Hexists : opt_repair options = true -> forall id, fails IoObjExists id = false).
Context (Hhash : opt_repair options = true -> forall l, is_object_id_valid (Some (dir_hash version l)) = true).

Lemma verify_spec k type id valid io :
  fsck_verify_seafobj version fails k type id = (valid, io) ->
  if valid then (id = EMPTY_SHA1 \/ exists o, k_objs k !! id = Some (Whole o)) \/ k_objs k !! id = None
  else io = false -> id <> EMPTY_SHA1 /\ is_Some (k_objs k !! id) /\
    match type with
    | VERIFY_FILE => forall f, k_objs k !! id <> Some (Whole (OFile f))
    | VERIFY_DIR => forall d, k_objs k !! id <> Some (Whole (ODir d))
    end.
Proof.
  unfold fsck_verify_seafobj, object_exists_checked, verify_object. destruct (String.eqb_spec id EMPTY_SHA1) as [->|Hne].
  { intros [= <- _]. by left; left. }
  destruct (negb _ || _); [by intros [= <- <-]|]. destruct (k_objs k !! id) as [s|] eqn:E; [|intros [= <- <-]; by right].
  cbn. destruct (fails IoObjRead id); [by intros [= <- <-]|]. destruct s as [o|o].
  - destruct (0 <? version); [intros [= <- <-]; left; right; by exists o|].
    destruct type, o; intros [= <- <-]; try (left; right; by eexists); intros _; split_and!; done.
  - intros [= <- <-] _. split_and!; [done|done|]. by destruct type.
Qed.

Lemma file_size_data fd e k :
  let fd' := if opt_file_size options then check_file_size fails fd e k else fd in
  existing_blocks fd' = existing_blocks fd /\ (fsck_damaged fd = true -> fsck_damaged fd' = true).
Proof.
  unfold check_file_size. destruct (opt_file_size options); [|done]. destruct (get_seafile _ _ _); [|done]. by destruct (_ =? _).
Qed.

Lemma claims_damaged fd : claims fd -> fsck_damaged fd = true -> opt_integrity options = false /\ opt_repair options = true.
Proof. intros [C1 C2] Hd. rewrite Hd in *. destruct (opt_integrity options), (opt_repair options); naive_solver. Qed.

Lemma check_file_spec parent_dir e fd k r fd' k' :
  seen fd k -> check_file options version now fails parent_dir e fd k = (r, fd', k') ->
  k' = k /\ (fsck_damaged fd = true -> fsck_damaged fd' = true) /\
  forall e' c, r = Some (e', c) ->
    seen fd' k /\ (c = true -> fsck_damaged fd' = true) /\ (c = false -> e' = e) /\
    (claims fd' -> if c then e' = emptied now e /\ ~ sound_file (block_ok k) k (d_id e)
                   else e' = e /\ sound_file (block_ok k) k (d_id e)).
Proof.
  intros Hs E. unfold check_file in E. destruct (fsck_verify_seafobj _ _ _ _ _) as [valid io] eqn:Ev.
  apply verify_spec in Ev. destruct valid.
  - destruct (check_blocks _ _ _ _ _) as [[[ret io'] fd1] k1] eqn:Eb.
    apply check_blocks_spec in Eb as (-> & Hd & Hr & H1 & H2 & H3); [|done].
    assert (Hc : forall fd2, (fsck_damaged fd1 = true -> fsck_damaged fd2 = true) -> claims fd2 -> seen_ok fd k).
    { intros fd2 H C. apply Hs. eapply claims_mono; [|exact C]. by rewrite <- Hd. }
    destruct (Z.ltb_spec ret 0) as [Hneg|Hpos].
    + assert (ret = -1) as -> by lia. destruct io'; injection E as <- <- <-; (split; [done|]); [by rewrite Hd|].
      split; [done|]. intros e' c [= <- <-]. split; [|split; [done|split; [done|]]]; intros C.
      * destruct (claims_damaged _ C eq_refl) as [Hi _]. apply H1; [by eapply Hc; [|exact C]|by left].
      * split; [done|]. destruct (claims_damaged _ C eq_refl) as [_ Hrep]. apply H3; auto.
    + assert (ret = 0) as -> by lia. injection E as <- <- <-. destruct (file_size_data fd1 e k) as [Hex Hdam]. split; [done|].
      split; [rewrite <- Hd; exact Hdam|]. intros e' c [= <- <-]. split; [|split; [done|split; [done|]]]; intros C; (assert (Hok : seen_ok fd k) by (by eapply Hc)).
      * intros b. rewrite Hex. apply H1; auto.
      * split; [done|]. by apply H2.
  - destruct io; injection E as <- <- <-; (split; [done|]); [done|]. destruct (Ev eq_refl) as (Hne & Hsome & Hf).
    split; [done|]. intros e' c [= <- <-]. split; [|split; [done|split; [done|]]]; intros C.
    + apply Hs. by eapply claims_mono; [|exact C].
    + split; [done|]. intros [?|(f & Hf' & _)]; [done|by eapply Hf].
Qed.

(** ** The tree *)

(** The directories a repair writes are stored under no other contents. *)
Definition clean (k : FsckDisk) : Prop :=
  forall id d l s, seaf_fs_manager_get_seafdir (fs_of k) version id = Some d -> entries d <> l ->
    Forall2 (mended_entry now (block_ok k) k (fun _ _ => True)) (entries d) l ->
    dir_hash version l <> EMPTY_SHA1 /\
    (k_objs k !! dir_hash version l = Some s -> exists d', s = Whole (ODir d') /\ entries d' = l).

Definition outcome (k : FsckDisk) (fd : FsckData) (id : string) (r : option string) (fd' : FsckData) (k' : FsckDisk) : Prop :=
  ext k k' /\ (opt_repair options = false -> k' = k) /\ (fsck_damaged fd = true -> fsck_damaged fd' = true) /\
  forall id', r = Some id' -> seen fd' k' /\ is_Some (seaf_fs_manager_get_seafdir (fs_of k) version id) /\
    (fsck_damaged fd' = false -> id' = id) /\
    (claims fd' -> whole_dir k id -> forall k'', ext k' k'' -> (opt_repair options = true -> clean k'') -> mended version now (block_ok k'') k'' id id').

Definition entries_outcome (k : FsckDisk) (fd : FsckData) (l : list SeafDirent) (r : option (list SeafDirent * bool))
    (fd' : FsckData) (k' : FsckDisk) : Prop :=
  ext k k' /\ (opt_repair options = false -> k' = k) /\ (fsck_damaged fd = true -> fsck_damaged fd' = true) /\
  forall l' c, r = Some (l', c) -> seen fd' k' /\ (fsck_damaged fd' = false -> c = false) /\ (c = false -> l' = l) /\
    (claims fd' -> c = true -> l' <> l) /\
    (claims fd' -> forall k'', ext k' k'' -> (opt_repair options = true -> clean k'') ->
       Forall2 (mended_entry now (block_ok k'') k'' (mended version now (block_ok k'') k'')) l l').

(** One entry, then the rest. *)
Lemma entries_outcome_cons k fd e l e' c fd1 k1 r fd' k' :
  ext k k1 -> (opt_repair options = false -> k1 = k) -> (fsck_damaged fd = true -> fsck_damaged fd1 = true) ->
  (fsck_damaged fd1 = false -> c = false) -> (c = false -> e' = e) -> (claims fd1 -> c = true -> e' <> e) ->
  (claims fd1 -> forall k'', ext k1 k'' -> (opt_repair options = true -> clean k'') ->
     mended_entry now (block_ok k'') k'' (mended version now (block_ok k'') k'') e e') ->
  entries_outcome k1 fd1 l r fd' k' ->
  entries_outcome k fd (e :: l) (match r with Some (l', c') => Some (e' :: l', c || c') | None => None end) fd' k'.
Proof.
  intros Hx Hk Hd Hc He Hne Hm (Hx' & Hk' & Hd' & HR). split; [by transitivity k1|].
  split; [intros Hr; by rewrite Hk', Hk|]. split; [auto|].
  intros l' c' E. destruct r as [[l1 c1]|]; [|done]. injection E as <- <-. destruct (HR _ _ eq_refl) as (Hs & Hc1 & Hl1 & Hn1 & HF).
  split; [done|]. split.
  { intros Hf. rewrite Hc1 by done. rewrite Hc; [done|]. by eapply contra_bool. }
  split; [intros [Hc0 Hc1']%orb_false_iff; by rewrite He, Hl1|].
  split; [intros C [Ht|Ht]%orb_true_iff [= -> ->]; [apply Hne; auto; by eapply claims_mono|by apply Hn1]|]. intros C k'' Hkk Hcl. constructor; [|by apply HF].
  apply Hm; [by eapply claims_mono|by transitivity k'|done].
Qed.

Lemma readable_whole k id :
  (id = EMPTY_SHA1 \/ exists o, k_objs k !! id = Some (Whole o)) \/ k_objs k !! id = None ->
  is_Some (seaf_fs_manager_get_seafdir (fs_of k) version id) -> whole_dir k id.
Proof.
  unfold seaf_fs_manager_get_seafdir, fs_of. destruct (String.eqb_spec id EMPTY_SHA1) as [->|Hne]; [by left|].
  rewrite lookup_omap. intros [[?|[o Ho]]|Ho] [d E]; [done| |by rewrite Ho in E]. rewrite Ho in E. cbn in E. destruct o as [d0|f]; [|done].
  right. by exists d0.
Qed.

Lemma set_id_same e : set_id e (d_id e) = e.
Proof. by destruct e. Qed.

Lemma strcmp_same a b : (strcmp a b =? 0) = String.eqb a b.
Proof.
  destruct (String.eqb_spec a b) as [->|Hne]; [by apply Z.eqb_eq, strcmp_eq|]. apply Z.eqb_neq. by rewrite strcmp_eq.
Qed.

Lemma check_entries_spec rec parent_dir l :
  (forall id path fd k r fd' k', rec id path fd k = Some (r, fd', k') -> seen fd k -> outcome k fd id r fd' k') ->
  forall fd k r fd' k', check_entries options version now fails rec parent_dir l fd k = Some (r, fd', k') -> seen fd k ->
    entries_outcome k fd l r fd' k'.
Proof.
  intros Hrec. induction l as [|e l IH]; intros fd k r fd' k' E Hs; cbn [check_entries] in E.
  { injection E as <- <- <-. split; [done|]. split; [done|]. split; [done|]. intros l' c [= <- <-]. by split_and!; try constructor. }
  assert (Hstop : forall fd1, ext k k' -> (opt_repair options = false -> k' = k) -> (fsck_damaged fd = true -> fsck_damaged fd1 = true) -> r = None -> fd1 = fd' ->
    entries_outcome k fd (e :: l) r fd' k') by (intros fd1 Hx Hk Hd -> ->; split_and!; done).
  assert (Hgo : forall e' c fd1 k1, seen fd1 k1 -> ext k k1 -> (opt_repair options = false -> k1 = k) -> (fsck_damaged fd = true -> fsck_damaged fd1 = true) ->
    (fsck_damaged fd1 = false -> c = false) -> (c = false -> e' = e) -> (claims fd1 -> c = true -> e' <> e) ->
    (claims fd1 -> forall k'', ext k1 k'' -> (opt_repair options = true -> clean k'') ->
       mended_entry now (block_ok k'') k'' (mended version now (block_ok k'') k'') e e') ->
    match check_entries options version now fails rec parent_dir l fd1 k1 with
    | Some (Some (l', c'), fd, k) => Some (Some (e' :: l', c || c'), fd, k)
    | Some (None, fd, k) => Some (None, fd, k)
    | None => None
    end = Some (r, fd', k') -> entries_outcome k fd (e :: l) r fd' k').
  { clear E. intros e' c fd1 k1 Hs1 Hx Hk1 Hd Hc He Hne Hm E'. destruct (check_entries _ _ _ _ _ _ _ _ _) as [[[r1 fd2] k2]|] eqn:El; [|done].
    apply IH in El; [|done]. pose proof (entries_outcome_cons k fd e l e' c fd1 k1 r1 fd2 k2 Hx Hk1 Hd Hc He Hne Hm El) as H.
    destruct r1 as [[l1 c1]|]; injection E' as <- <- <-; exact H. }
  destruct (S_ISREG (d_mode e)) eqn:Hreg.
  { destruct (check_file _ _ _ _ _ _ _ _) as [[r1 fd1] k1] eqn:Ef. apply check_file_spec in Ef as (-> & Hd & Hf); [|done].
    destruct r1 as [[e' c]|]; [|injection E as <- <- <-; by apply (Hstop fd1)].
    destruct (Hf _ _ eq_refl) as (Hs1 & Hdc & He & Hm). apply (Hgo e' c fd1 k) in E; auto; [done| | |].
    - intros Hdf. destruct c; [|done]. by rewrite Hdc in Hdf.
    - intros C ->. destruct (Hm C) as [-> Hsd]. intros Heq. apply Hsd. left. by rewrite <- Heq.
    - intros C k'' Hx Hcl. specialize (Hm C). destruct c; destruct Hm as [-> Hsd]; [apply me_bad_file|apply me_file]; try done.
      + intros H. apply Hsd. apply (ext_sound_file _ _ _ _ Hx) in H. destruct H as [H|(f & Hf1 & HF)]; [by left|right].
        exists f. split; [done|]. eapply Forall_impl; [exact HF|]. intros b. by rewrite (block_ok_ext k k'').
      + apply (ext_sound_file _ _ _ _ Hx) in Hsd. destruct Hsd as [H|(f & Hf1 & HF)]; [by left|right].
        exists f. split; [done|]. eapply Forall_impl; [exact HF|]. intros b. by rewrite (block_ok_ext k k''). }
  destruct (S_ISDIR (d_mode e)) eqn:Hdir.
  2: { apply (Hgo e false fd k) in E; auto; [done|]. intros _ k'' _ _. by apply me_other. }
  destruct (fsck_verify_seafobj _ _ _ _ _) as [valid io] eqn:Ev. apply verify_spec in Ev. destruct valid.
  - destruct (rec _ _ _ _) as [[[r1 fd1] k1]|] eqn:Er; [|done]. apply Hrec in Er as (Hx & Hk1 & Hd & HR); [|done].
    destruct r1 as [sub|]; [|injection E as <- <- <-; by apply (Hstop fd1)].
    destruct (HR _ eq_refl) as (Hs1 & Hrd & Hid & Hm). pose proof (readable_whole _ _ Ev Hrd) as Hw.
    rewrite strcmp_same in E. destruct (String.eqb_spec sub (d_id e)) as [->|Hne].
    + apply (Hgo e false fd1 k1) in E; auto. intros C k'' Hk Hcl. rewrite <- (set_id_same e) at 2. apply me_dir; auto.
    + apply (Hgo (set_id e sub) true fd1 k1) in E; auto; [intros Hf; by apply Hid in Hf|done| |].
      { intros _ _ Heq. apply Hne. by rewrite <- Heq. }
      intros C k'' Hk Hcl. apply me_dir; auto.
  - destruct io; [injection E as <- <- <-; by apply (Hstop fd)|]. destruct (Ev eq_refl) as (Hne & Hsome & Hb).
    apply (Hgo (set_id e EMPTY_SHA1) true (add_folder fd (parent_dir +:+ d_name e +:+ "/")) k) in E; auto; try done.
    + intros C. apply Hs. by eapply claims_mono; [|exact C].
    + intros _ _ Heq. apply Hne. by rewrite <- Heq.
    + intros _ k'' Hk _. apply me_bad_dir; [done|]. apply (ext_bad_dir k); [done|done|]. intros [?|[d Hd]]; [done|by apply (Hb d)].
Qed.

Lemma get_seafdir_loaded k id d :
  get_seafdir version fails k id = Some d -> seaf_fs_manager_get_seafdir (fs_of k) version id = Some d.
Proof. unfold get_seafdir. by destruct (_ && _). Qed.

Lemma seafdir_id st v id d : seaf_fs_manager_get_seafdir st v id = Some d -> dir_id d = id.
Proof.
  unfold seaf_fs_manager_get_seafdir. destruct (String.eqb_spec id EMPTY_SHA1) as [->|]; [by intros [= <-]|].
  destruct (st !! id) as [[]|]; [|done..]. by intros [= <-].
Qed.

Lemma mended_entry_weaken B k (R R' : string -> string -> Prop) e e' :
  (forall a b, R a b -> R' a b) -> mended_entry now B k R e e' -> mended_entry now B k R' e e'.
Proof. intros HR [?|?|x ? ?|?|?]; [by apply me_file|by apply me_bad_file|apply me_dir; auto|by apply me_bad_dir|by apply me_other]. Qed.

(** A new directory is in the store afterwards. *)
Lemma dir_save_spec k l ret k' :
  let dir := seaf_dir_new dir_hash l version in
  opt_repair options = true -> dir_save fails k dir = (ret, k') ->
  ext k k' /\ (0 <= ret -> l <> [] -> dir_id dir = EMPTY_SHA1 \/ is_Some (k_objs k !! dir_id dir) \/ k_objs k' !! dir_id dir = Some (Whole (ODir dir))).
Proof.
  intros dir Hrep. unfold dir_save, object_exists_checked. destruct (String.eqb_spec (dir_id dir) EMPTY_SHA1) as [He|He].
  { intros [= <- <-]. split; [done|]. intros _ _. by left. }
  rewrite (Hexists Hrep), orb_false_r. destruct l as [|e l].
  { done. }
  change (dir_id dir) with (dir_hash version (e :: l)) in *. rewrite (Hhash Hrep). cbn [negb].
  destruct (k_objs k !! dir_hash version (e :: l)) as [s|] eqn:E; cbn.
  { intros [= <- <-]. split; [done|]. intros _ _. right. left. by exists s. }
  destruct (fails IoObjWrite _); intros [= <- <-]; [split; [done|]; lia|]. split.
  - split; [done|by apply insert_subseteq|]. intros id s. cbn [k_objs]. destruct (decide (id = dir_hash version (e :: l))) as [->|Hne].
    + rewrite lookup_insert_eq. intros [= <-]. right. by eexists.
    + rewrite lookup_insert_ne by done. by left.
  - intros _ _. right. right. cbn [k_objs]. by rewrite lookup_insert_eq.
Qed.

Lemma mended_new k id d l d' :
  seaf_fs_manager_get_seafdir (fs_of k) version id = Some d -> l <> [] -> dir_hash version l <> EMPTY_SHA1 ->
  k_objs k !! dir_hash version l = Some (Whole (ODir d')) -> entries d' = l ->
  Forall2 (mended_entry now (block_ok k) k (mended version now (block_ok k) k)) (entries d) l ->
  mended version now (block_ok k) k id (dir_id (seaf_dir_new dir_hash l version)).
Proof.
  intros Ed Hne Hh Ho <- HF. destruct (entries d') as [|e l] eqn:El; [done|]. cbn [seaf_dir_new dir_id].
  apply (mended_dir _ _ _ _ _ _ d (mkDir (dir_version d') (dir_hash version (e :: l)) (e :: l)) Ed); [|by right; exists d'|done].
  unfold seaf_fs_manager_get_seafdir, fs_of. rewrite (proj2 (String.eqb_neq _ _) Hh), lookup_omap, Ho. cbn. by rewrite El.
Qed.

Lemma check_dir_spec fuel : forall id path fd k r fd' k',
  fsck_check_dir_recursive dir_hash options version now fails fuel id path fd k = Some (r, fd', k') -> seen fd k ->
  outcome k fd id r fd' k'.
Proof.
  induction fuel as [|fuel IH]; intros id path fd k r fd' k' E Hs; [done|]. cbn [fsck_check_dir_recursive] in E.
  destruct (get_seafdir version fails k id) as [d|] eqn:Ed.
  2: { injection E as <- <- <-. by split_and!. }
  apply get_seafdir_loaded in Ed.
  destruct (check_entries _ _ _ _ _ _ _ _ _) as [[[r1 fd1] k1]|] eqn:El; [|done].
  apply check_entries_spec in El as (Hx & Hk1 & Hd & HR); [|done|done].
  destruct r1 as [[l c]|]; [|injection E as <- <- <-; by split_and!].
  destruct (HR _ _ eq_refl) as (Hs1 & Hc & Hl & Hn & HF). destruct c.
  - assert (Hdam : fsck_damaged fd1 = true) by (destruct (fsck_damaged fd1); [done|]; by specialize (Hc eq_refl)).
    destruct (Sumbool.sumbool_of_bool (opt_repair options)) as [Er|Er]; rewrite Er in E.
    + destruct (dir_save fails k1 (seaf_dir_new dir_hash l version)) as [ret k2] eqn:Es. injection E as <- <- <-.
      apply dir_save_spec in Es as [Hx2 Hsv]; [|done]. split; [by transitivity k1|]. split; [by rewrite Er|]. split; [done|]. intros id' Hr.
      destruct (Z.ltb_spec ret 0) as [|Hret]; [done|]. injection Hr as <-. specialize (Hsv Hret).
      split; [intros C b Hb; apply (block_ok_ext k1 k2 b Hx2); by apply (Hs1 C)|]. split; [by eexists|]. split; [by rewrite Hdam|].
      intros C Hw k'' Hk Hcl.
      assert (Ed' : seaf_fs_manager_get_seafdir (fs_of k'') version id = Some d)
        by (eapply ext_seafdir; [|exact Ed]; transitivity k1; [done|by transitivity k2]).
      specialize (HF C k'' (transitivity Hx2 Hk) Hcl). destruct (decide (l = [])) as [->|Hne].
      { apply Forall2_nil_inv_r in HF. apply (mended_dir _ _ _ _ _ _ d (mkDir version EMPTY_SHA1 []) Ed'); [done|by left|]. by rewrite HF. }
      assert (HF' : Forall2 (mended_entry now (block_ok k'') k'' (fun _ _ => True)) (entries d) l)
        by (eapply Forall2_impl; [exact HF|]; intros e e'; by apply mended_entry_weaken).
      assert (Hd' : entries d <> l) by (intros Heq; by apply (Hn C eq_refl)).
      assert (Hh : dir_hash version l <> EMPTY_SHA1) by (by destruct (Hcl Er id d l (Broken None) Ed' Hd' HF')).
      assert (exists d', k_objs k'' !! dir_hash version l = Some (Whole (ODir d')) /\ entries d' = l) as (d' & Ho & Hl').
      { assert (Hid : dir_id (seaf_dir_new dir_hash l version) = dir_hash version l) by (by destruct l).
        destruct (Hsv Hne) as [?|[[s Ho]|Ho]]; rewrite Hid in *; [done| |].
        - apply (lookup_weaken _ (k_objs k2)) in Ho; [|by apply Hx2]. apply (lookup_weaken _ (k_objs k'')) in Ho; [|by apply Hk].
          destruct (Hcl Er id d l s Ed' Hd' HF') as [_ H]. destruct (H Ho) as (d' & -> & ?). by exists d'.
        - apply (lookup_weaken _ (k_objs k'')) in Ho; [|by apply Hk]. by eexists. }
      by apply (mended_new k'' id d l d').
    + injection E as <- <- <-. split; [done|]. split; [done|]. split; [done|]. intros id' [= <-]. split; [done|]. split; [by eexists|].
      split; [by rewrite Hdam|]. intros [_ C]. by rewrite (C Er) in Hdam.
  - injection E as <- <- <-. rewrite (seafdir_id _ _ _ _ Ed). split; [done|]. split; [done|]. split; [done|]. intros id' [= <-].
    split; [done|]. split; [by eexists|]. split; [done|]. intros C Hw k'' Hk Hcl.
    assert (Ed' : seaf_fs_manager_get_seafdir (fs_of k'') version id = Some d) by (eapply ext_seafdir; [|exact Ed]; by transitivity k1).
    apply (mended_dir _ _ _ _ _ _ d d Ed' Ed'); [eapply ext_whole_dir; [|exact Hw]; by transitivity k1|].
    rewrite (Hl eq_refl) in HF. by apply HF.
Qed.

(** ** The check comes to its end *)

Section total.
Context (Hfails : forall op id, fails op id = false) (k0 : FsckDisk) (rank : string -> nat).
Context (Hrank : ranked (fs_of k0) version rank).

(** No directory of a tree is missing. *)
Definition present (id : string) : Prop :=
  id = EMPTY_SHA1 \/ is_object_id_valid (Some id) = true /\
    exists s, k_objs k0 !! id = Some s /\ forall o, s = Whole o -> exists d, o = ODir d.

Definition entry_present (e : SeafDirent) : Prop :=
  (S_ISREG (d_mode e) = true -> d_id e = EMPTY_SHA1 \/ is_object_id_valid (Some (d_id e)) = true) /\
  (S_ISDIR (d_mode e) = true -> present (d_id e)).

Definition all_present (id : string) : Prop :=
  (forall x, listed_dir (fs_of k0) version id x -> present x) /\
  forall x d e, listed_dir (fs_of k0) version id x -> seaf_fs_manager_get_seafdir (fs_of k0) version x = Some d ->
    e ∈ entries d -> S_ISREG (d_mode e) = true -> d_id e = EMPTY_SHA1 \/ is_object_id_valid (Some (d_id e)) = true.

Lemma verify_runs k type id : ext k0 k -> id = EMPTY_SHA1 \/ is_object_id_valid (Some id) = true ->
  (fsck_verify_seafobj version fails k type id).2 = false.
Proof.
  intros Hx Hv. unfold fsck_verify_seafobj, object_exists_checked, verify_object. destruct (String.eqb_spec id EMPTY_SHA1) as [|Hne]; [done|].
  destruct Hv as [?|Hv]; [done|]. rewrite Hv, !Hfails. cbn [negb orb]. by destruct (k_objs k !! id) as [[o|o]|].
Qed.

Lemma check_block_list_runs ids : forall ret fd k, (check_block_list options fails ids ret fd k).1.1.2 = false.
Proof.
  induction ids as [|id ids IH]; intros ret fd k; [done|]. cbn [check_block_list]. rewrite !Hfails.
  destruct (bool_decide _); [apply IH|]. destruct (k_blocks k !! id) as [ok|]; [|apply IH].
  destruct (opt_integrity options); [|apply IH]. destruct ok; apply IH.
Qed.

Lemma check_file_runs parent_dir e fd k : ext k0 k ->
  d_id e = EMPTY_SHA1 \/ is_object_id_valid (Some (d_id e)) = true ->
  is_Some (check_file options version now fails parent_dir e fd k).1.1.
Proof.
  intros Hx Hv. unfold check_file. pose proof (verify_runs k VERIFY_FILE (d_id e) Hx Hv) as Hio.
  destruct (fsck_verify_seafobj _ _ _ _ _) as [[] io]; cbn in Hio; [|subst io; by eexists].
  assert (Hb : (check_blocks options fails (d_id e) fd k).1.1.2 = false)
    by (unfold check_blocks; destruct (get_seafile _ _ _); [apply check_block_list_runs|done]).
  destruct (check_blocks _ _ _ _ _) as [[[ret io'] fd1] k1]. cbn in Hb. subst io'. destruct (ret <? 0); by eexists.
Qed.

Lemma present_readable k id :
  ext k0 k -> present id -> (fsck_verify_seafobj version fails k VERIFY_DIR id).1 = true ->
  is_Some (seaf_fs_manager_get_seafdir (fs_of k0) version id).
Proof.
  intros Hx Hp Hv. destruct (fsck_verify_seafobj _ _ _ _ _) as [v io] eqn:Ev. cbn in Hv. subst v. apply verify_spec in Ev.
  unfold seaf_fs_manager_get_seafdir, fs_of. destruct (String.eqb_spec id EMPTY_SHA1) as [|Hne]; [by eexists|].
  destruct Hp as [?|(_ & s & Hs & Ho)]; [done|]. rewrite lookup_omap, Hs. apply (lookup_weaken _ (k_objs k)) in Hs; [|by apply Hx].
  rewrite Hs in Ev. destruct Ev as [[?|[o [= ->]]]|?]; [done| |done]. destruct (Ho o eq_refl) as [d ->]. by eexists.
Qed.

Lemma check_entries_runs rec path l :
  (forall e path fd k, e ∈ l -> S_ISDIR (d_mode e) = true -> ext k0 k -> seen fd k ->
     is_Some (seaf_fs_manager_get_seafdir (fs_of k0) version (d_id e)) ->
     exists sub fd' k', rec (d_id e) path fd k = Some (Some sub, fd', k') /\ ext k k' /\ seen fd' k') ->
  Forall entry_present l -> forall fd k, ext k0 k -> seen fd k ->
  exists r fd' k', check_entries options version now fails rec path l fd k = Some (Some r, fd', k').
Proof.
  intros Hrec HF. induction HF as [|e l [Hreg_ok Hdir_ok] _ IHl]; intros fd k Hx Hs; [by repeat eexists|].
  assert (Hgo : forall e' c fd1 k1, ext k0 k1 -> seen fd1 k1 -> exists r fd' k',
    match check_entries options version now fails rec path l fd1 k1 with
    | Some (Some (l', c'), fd, k) => Some (Some (e' :: l', c || c'), fd, k)
    | Some (None, fd, k) => Some (None, fd, k)
    | None => None
    end = Some (Some r, fd', k')).
  { intros e' c fd1 k1 Hx1 Hs1. destruct (IHl ltac:(intros; apply Hrec; auto; by right) fd1 k1 Hx1 Hs1) as ([l' c'] & fd2 & k2 & ->).
    by repeat eexists. }
  cbn [check_entries]. destruct (S_ISREG (d_mode e)) eqn:Hreg.
  - destruct (check_file_runs path e fd k Hx (Hreg_ok eq_refl)) as [[e' c] Hf].
    destruct (check_file _ _ _ _ _ _ _ _) as [[r1 fd1] k1] eqn:Ef. cbn in Hf. subst r1.
    apply check_file_spec in Ef as (-> & _ & Hf); [|done]. destruct (Hf _ _ eq_refl) as [Hs1 _]. by apply Hgo.
  - destruct (S_ISDIR (d_mode e)) eqn:Hdir; [|by apply Hgo]. specialize (Hdir_ok eq_refl).
    pose proof (verify_runs k VERIFY_DIR (d_id e) Hx ltac:(destruct Hdir_ok as [?|[? _]]; auto)) as Hio.
    pose proof (present_readable k (d_id e) Hx Hdir_ok) as Hrd.
    destruct (fsck_verify_seafobj _ _ _ _ _) as [[] io] eqn:Ev; cbn in Hio, Hrd.
    + destruct (Hrec e (path +:+ d_name e +:+ "/") fd k) as (sub & fd1 & k1 & -> & Hx1 & Hs1); auto; [by left|].
      destruct (strcmp _ _ =? 0); apply Hgo; try done; by transitivity k.
    + subst io. apply Hgo; [done|]. intros C. apply Hs. by eapply claims_mono; [|exact C].
Qed.

Lemma check_dir_runs fuel : forall id path fd k,
  ext k0 k -> seen fd k -> (rank id < fuel)%nat -> all_present id ->
  is_Some (seaf_fs_manager_get_seafdir (fs_of k0) version id) ->
  exists id' fd' k', fsck_check_dir_recursive dir_hash options version now fails fuel id path fd k = Some (Some id', fd', k').
Proof.
  induction fuel as [|fuel IH]; intros id path fd k Hx Hs Hr [Hp Hpf] [d Ed]; [lia|]. cbn [fsck_check_dir_recursive].
  unfold get_seafdir. rewrite Hfails, andb_false_r, (ext_seafdir _ _ _ _ _ Hx Ed).
  assert (Hsub : forall e x, e ∈ entries d -> S_ISDIR (d_mode e) = true ->
    listed_dir (fs_of k0) version (d_id e) x -> listed_dir (fs_of k0) version id x) by (intros; by eapply listed_sub).
  destruct (check_entries_runs (fsck_check_dir_recursive dir_hash options version now fails fuel) path (entries d))
    with (fd := fd) (k := k) as ([l c] & fd1 & k1 & ->); [| |done|done|].
  - intros e path' fd1 k1 He Hdir Hx1 Hs1 Hrd. destruct (IH (d_id e) path' fd1 k1 Hx1 Hs1) as (sub & fd2 & k2 & Er); [| |done|].
    + pose proof (Hrank id d e Ed He Hdir). lia.
    + split; [intros x ?; by eapply Hp, Hsub|]. intros x d1 e1 ?. by eapply Hpf, Hsub.
    + exists sub, fd2, k2. split; [done|]. apply check_dir_spec in Er as (Hx2 & _ & _ & Hout); [|done]. split; [done|]. by destruct (Hout _ eq_refl).
  - apply Forall_forall. intros e He. split; [intros Hreg; by apply (Hpf id d e (listed_here _ _ _) Ed)|].
    intros Hdir. eapply Hp, Hsub; [done|done|]. apply listed_here.
  - destruct c; [|by repeat eexists]. destruct (opt_repair options); [|by repeat eexists].
    unfold dir_save. rewrite Hfails. destruct (String.eqb _ _); [by repeat eexists|]. destruct (_ =? 1); by repeat eexists.
Qed.
End total.
End run.

(** ** What a repair does *)

(** C14: A repair of a tree in which no directory is missing comes to its end and gives a tree
    in which every directory is whole and every file is whole with all its blocks, provided
    that no other contents are stored under the ids of the directories it writes.  The new
    tree is the old one, entry by entry, except that damaged files and files without all
    their blocks are empty now, and damaged directories are empty; sound files and everything
    outside the damage keep their entries.  To the store only directories are added. *)
Theorem repair_mends_tree dir_hash options version now fails fuel k root rank :
  opt_repair options = true -> opt_integrity options = false -> (forall op id, fails op id = false) ->
  (forall l, is_object_id_valid (Some (dir_hash version l)) = true) ->
  ranked (fs_of k) version rank -> (rank root < fuel)%nat -> all_present version k root -> whole_dir k root ->
  exists root' fd k',
    fsck_check_dir_recursive dir_hash options version now fails fuel root "/" (mkFsck ∅ [] [] false) k = Some (Some root', fd, k') /\
    ext k k' /\ (fsck_damaged fd = false -> root' = root) /\
    (clean dir_hash options version now k' ->
     mended version now (block_ok options k') k' root root' /\ sound_tree (block_ok options k') version k' root').
Proof.
  intros Hr Hi Hf Hh Hrank Hfuel Hp Hw.
  assert (Hs : seen options (mkFsck ∅ [] [] false) k) by (intros _ b []%elem_of_empty).
  assert (Hrd : is_Some (seaf_fs_manager_get_seafdir (fs_of k) version root)).
  { unfold seaf_fs_manager_get_seafdir, fs_of. destruct (String.eqb_spec root EMPTY_SHA1) as [|Hne]; [by eexists|].
    destruct Hw as [?|[d Hd]]; [done|]. rewrite lookup_omap, Hd. by eexists. }
  destruct (check_dir_runs dir_hash options version now fails (or_introl Hi) (fun _ _ => Hf _ _) (fun _ _ => Hf _ _) (fun _ => Hh)
    Hf k rank Hrank fuel root "/" (mkFsck ∅ [] [] false) k) as (root' & fd & k' & E); try done.
  exists root', fd, k'. split; [done|].
  apply check_dir_spec in E as (Hx & _ & _ & Hout); try done; [|by left|by intros; apply Hf..].
  destruct (Hout _ eq_refl) as (_ & _ & Hid & Hm). split; [done|]. split; [done|]. intros Hcl.
  assert (Hm' : mended version now (block_ok options k') k' root root').
  { apply Hm; [|done|done|done]. split; congruence. }
  split; [done|]. by eapply mended_sound.
Qed.

(** ** What a check that passes says *)

Lemma reset_not_run sha1 dir_hash options now fuel fails cok dbf w repo head commit reset ret w' :
  opt_repair options = false ->
  check_and_recover_repo sha1 dir_hash options now fuel fails cok dbf w repo head commit reset = Some (ret, w') -> ret = 0 ->
  exists root fd k, fsck_check_dir_recursive dir_hash options (r_version repo) now fails fuel (root_id commit) "/"
    (mkFsck ∅ [] [] false) (disk_of w (r_store_id repo)) = Some (Some root, fd, k) /\ fsck_damaged fd = false /\
    w' = set_disk w (r_store_id repo) k.
Proof.
  intros Hr E Hz. unfold check_and_recover_repo in E. rewrite Hr in E.
  destruct (fsck_check_dir_recursive _ _ _ _ _ _ _ _ _ _) as [[[[root|] fd] k]|]; [|by injection E as <- _|done].
  exists root, fd, k. cbn in E. destruct (fsck_damaged fd); injection E as <- <-; [done|]. by split_and!.
Qed.

(** C15: When a check without repair of a library whose head commit is there and whose root was
    not found damaged succeeds, the whole tree of the head is sound: every directory and file
    is there with the hash of its id, every block of every file is there and, if blocks are
    verified, has the hash of its id; whatever accesses failed on the way.  Nothing was
    changed. *)
Theorem passed_check_sound sha1 dir_hash is_uuid_valid options now fuel fails cok dbf scanned w repo_id repo commit w' :
  opt_repair options = false ->
  gc_load_repo (fw_db w) (fw_commits w) repo_id = Some repo ->
  seaf_commit_manager_get_commit (fw_commits w) (b_commit_id (r_head repo)) = Some commit ->
  (fsck_verify_seafobj (r_version repo) fails (disk_of w (r_store_id repo)) VERIFY_DIR (root_id commit)).1 = true ->
  repair_repo sha1 dir_hash is_uuid_valid options now fuel fails cok dbf scanned w repo_id = Some (0, w') ->
  sound_tree (block_ok options (disk_of w (r_store_id repo))) (r_version repo) (disk_of w (r_store_id repo)) (root_id commit) /\
  fw_db w' = fw_db w /\ fw_tokens w' = fw_tokens w /\ fw_commits w' = fw_commits w /\
  forall store, disk_of w' store = disk_of w store.
Proof.
  intros Hr Hl Hc Hv E. unfold repair_repo in E. destruct (negb (is_uuid_valid repo_id)); [done|].
  destruct (negb (repo_exists_in_db _ _ _)); [done|]. rewrite Hl, Hc in E.
  destruct (fsck_verify_seafobj _ _ _ _ _) as [v io] eqn:Ev. cbn in Hv. subst v.
  apply reset_not_run in E as (root & fd & k & E & Hd & ->); [|done|done].
  apply check_dir_spec in E as (_ & Hk & _ & Hout); [|by right|by rewrite Hr..|intros _ b []%elem_of_empty].
  specialize (Hk Hr). subst k. destruct (Hout _ eq_refl) as (_ & Hrd & Hid & Hm). specialize (Hid Hd). subst root. split.
  - eapply mended_sound. eapply (Hm ltac:(by split)); [|done|by rewrite Hr]. apply readable_whole with (version := r_version repo); [|done].
    by apply verify_spec in Ev.
  - split_and!; try done. intros store. unfold disk_of, set_disk. cbn [fw_disks]. destruct (decide (store = r_store_id repo)) as [->|Hne].
    + by rewrite lookup_insert_eq.
    + by rewrite lookup_insert_ne.
Qed.

(** ** A damaged library *)

Definition id_new : string := "4444444444444444444444444444444444444444".
Definition id_none : string := "5555555555555555555555555555555555555555".
Definition id_sub : string := "6666666666666666666666666666666666666666".
Definition sick_file (name id : string) : SeafDirent := toy_dirent S_IFREG id name.
Definition sick_dir : SeafDirent := toy_dirent S_IFDIR id_sub "s".
Definition sick_root : SeafDir := mkDir 1 id_1 [sick_file "f" id_2; sick_file "g" id_3; sick_dir].
(** The block of the second file is missing, the sub-directory is damaged. *)
Definition sick_disk : FsckDisk :=
  mkDisk (<[id_1 := Whole (ODir sick_root)]> (<[id_2 := Whole (OFile (mkFile 1 id_2 3 ["b1"]))]>
           (<[id_3 := Whole (OFile (mkFile 1 id_3 3 ["b2"]))]> {[id_sub := Broken None]})))
         {["b1" := true]}.
Definition mended_list : list SeafDirent := [sick_file "f" id_2; emptied 7 (sick_file "g" id_3); set_id sick_dir EMPTY_SHA1].
Definition sick_hash (v : Z) (l : list SeafDirent) : string := if decide (l = mended_list) then id_new else id_none.
Definition no_fails (op : fsck_io) (id : string) : bool := false.
Definition repairing : FsckOptions := mkOptions false false true.
Definition healed_disk : FsckDisk :=
  mkDisk (<[id_new := Whole (ODir (mkDir 1 id_new mended_list))]> (k_objs sick_disk)) (k_blocks sick_disk).

Lemma sick_readable id d : seaf_fs_manager_get_seafdir (fs_of sick_disk) 1 id = Some d -> entries d = [] \/ id = id_1 /\ entries d = entries sick_root.
Proof.
  unfold seaf_fs_manager_get_seafdir, fs_of. destruct (String.eqb_spec id EMPTY_SHA1) as [|Hne]; [intros [= <-]; by left|].
  rewrite lookup_omap. cbn [k_objs sick_disk]. destruct (decide (id = id_1)) as [->|H1].
  { rewrite lookup_insert_eq. intros [= <-]. by right. }
  rewrite lookup_insert_ne by done. destruct (decide (id = id_2)) as [->|H2]; [by rewrite lookup_insert_eq|].
  rewrite lookup_insert_ne by done. destruct (decide (id = id_3)) as [->|H3]; [by rewrite lookup_insert_eq|].
  rewrite lookup_insert_ne by done. destruct (decide (id = id_sub)) as [->|H4]; [by rewrite lookup_singleton_eq|].
  by rewrite lookup_singleton_ne.
Qed.

Lemma sick_listed x : listed_dir (fs_of sick_disk) 1 id_1 x -> x = id_1 \/ x = id_sub.
Proof.
  assert (Hs : listed_dir (fs_of sick_disk) 1 id_sub x -> x = id_sub).
  { intros H. inversion H as [|? d e ? Ed Hin]; [done|]; subst. vm_compute in Ed. discriminate Ed. }
  intros H. inversion H as [|? d e ? Ed Hin Hdir Hrest]; [by left|]; subst. right. apply Hs.
  destruct (sick_readable _ _ Ed) as [El|[_ El]]; rewrite El in Hin; [by apply not_elem_of_nil in Hin|].
  apply elem_of_cons in Hin as [->|[->|[->|[]%not_elem_of_nil]%elem_of_cons]%elem_of_cons]; [by vm_compute in Hdir..|exact Hrest].
Qed.

Lemma sick_repair :
  fsck_check_dir_recursive sick_hash repairing 1 7 no_fails 2 id_1 "/" (mkFsck ∅ [] [] false) sick_disk =
    Some (Some id_new, mkFsck {["b1"]} ["/g"] ["/s/"] true, healed_disk).
Proof. vm_compute. reflexivity. Qed.

Lemma repair_mends_tree_witness :
  fsck_check_dir_recursive sick_hash repairing 1 7 no_fails 2 id_1 "/" (mkFsck ∅ [] [] false) sick_disk =
    Some (Some id_new, mkFsck {["b1"]} ["/g"] ["/s/"] true, healed_disk) /\
  sound_tree (block_ok repairing healed_disk) 1 healed_disk id_new.
Proof.
  split; [exact sick_repair|].
  destruct (repair_mends_tree sick_hash repairing 1 7 no_fails 2 sick_disk id_1 (fun id => if String.eqb id id_1 then 1 else 0)%nat)
    as (root' & fd & k' & E' & _ & _ & H); try reflexivity.
  - intros l. unfold sick_hash. by destruct (decide _).
  - intros id d e Ed Hin Hdir. destruct (sick_readable _ _ Ed) as [El|[-> El]]; rewrite El in Hin; [by apply not_elem_of_nil in Hin|].
    apply elem_of_cons in Hin as [->|[->|[->|[]%not_elem_of_nil]%elem_of_cons]%elem_of_cons]; [by vm_compute in Hdir..|].
    vm_compute. lia.
  - cbn. lia.
  - split.
    + intros x [-> | ->]%sick_listed; right; (split; [reflexivity|]); eexists; (split; [reflexivity|]); [|done].
      intros o [= <-]. by eexists.
    + intros x d e _ Ed Hin Hreg. destruct (sick_readable _ _ Ed) as [El|[_ El]]; rewrite El in Hin; [by apply not_elem_of_nil in Hin|].
      right. apply elem_of_cons in Hin as [->|[->|[->|[]%not_elem_of_nil]%elem_of_cons]%elem_of_cons]; reflexivity.
  - right. by eexists.
  - rewrite sick_repair in E'. injection E' as <- <- <-. apply H. intros id d l s _ _ _. unfold sick_hash. destruct (decide (l = mended_list)) as [->|Hne].
    + split; [done|]. cbn [k_objs healed_disk]. rewrite lookup_insert_eq. intros [= <-]. by eexists.
    + split; [done|]. intros Hs. by vm_compute in Hs.
Defined.

(** ** A library that passes, and where the check falls short *)

Definition lib_id : string := "aaaaaaaa-bbbb-cccc-dddd-eeeeeeeeeeee".
Definition lib_db : Db := mkDb {[lib_id]} {[("master", lib_id) := c_1]} ∅ ∅ ∅ ∅ None.
Definition lib_commit (id root : string) (time : Z) (parent : option string) : SeafCommit :=
  set_parents (seaf_commit_new (fun _ => []) 0 (Some id) lib_id root (Some "me") EMPTY_SHA1 "d" time) parent None.
Definition well_disk : FsckDisk :=
  mkDisk (<[id_1 := Whole (ODir (mkDir 0 id_1 [sick_file "f" id_2]))]> {[id_2 := Whole (OFile (mkFile 0 id_2 3 ["b1"]))]}) {["b1" := true]}.
Definition lib_world (cs : commit_store) (k : FsckDisk) : FsckWorld := mkFsckWorld lib_db (mkTokens [] []) cs {[lib_id := k]}.
Definition lib_check (options : FsckOptions) (fails : fsck_io -> string -> bool) (scanned : list SeafCommit) (w : FsckWorld)
  : option (Z * FsckWorld) :=
  repair_repo (fun _ => repeat 7 20) sick_hash (fun _ => true) options 7 3 fails true (fun _ => false) (fun _ => scanned) w lib_id.
Definition result_is (z : Z) (r : option (Z * FsckWorld)) : bool := match r with Some (z', _) => z' =? z | None => false end.

Definition well_world : FsckWorld := lib_world {[c_1 := lib_commit c_1 id_1 5 None]} well_disk.

Definition well_repo : SeafRepo :=
  seaf_repo_from_commit (blank_repo lib_db lib_id (mkBranch "master" lib_id c_1)) (lib_commit c_1 id_1 5 None).

Lemma well_passes : result_is 0 (lib_check (mkOptions true false false) no_fails [] well_world) = true.
Proof. vm_compute. reflexivity. Qed.

Lemma passed_check_sound_witness :
  sound_tree (block_ok (mkOptions true false false) well_disk) 0 well_disk id_1.
Proof.
  pose proof well_passes as Hp. unfold lib_check, result_is in Hp.
  destruct (repair_repo _ _ _ _ _ _ _ _ _ _ well_world lib_id) as [[z w']|] eqn:E in Hp; [|discriminate Hp].
  apply Z.eqb_eq in Hp. subst z.
  apply (passed_check_sound _ _ _ _ _ _ _ _ _ _ _ _ well_repo (lib_commit c_1 id_1 5 None)) in E as [H _];
    [exact H|reflexivity|vm_compute; reflexivity|vm_compute; reflexivity|vm_compute; reflexivity].
Defined.

(** A missing sub-directory counts as valid, so that reading it fails and ends the repair. *)
Lemma missing_dir_stops_repair dir_hash options version now fails fuel root path fd k d e l :
  get_seafdir version fails k root = Some d -> entries d = e :: l -> S_ISDIR (d_mode e) = true ->
  d_id e <> EMPTY_SHA1 -> k_objs k !! d_id e = None ->
  fsck_check_dir_recursive dir_hash options version now fails (S (S fuel)) root path fd k = Some (None, fd, k).
Proof.
  intros Ed El Hdir Hne Hm. cbn [fsck_check_dir_recursive]. rewrite Ed, El. cbn [check_entries].
  destruct (S_ISREG (d_mode e)) eqn:Hreg; [by rewrite (S_ISREG_not_DIR _ Hreg) in Hdir|]. rewrite Hdir.
  assert (Hget : get_seafdir version fails k (d_id e) = None).
  { unfold get_seafdir, seaf_fs_manager_get_seafdir, fs_of. rewrite (proj2 (String.eqb_neq _ _) Hne), lookup_omap, Hm.
    by destruct (fails IoObjLoad _). }
  rewrite Hget. unfold fsck_verify_seafobj, object_exists_checked. rewrite (proj2 (String.eqb_neq _ _) Hne), Hm.
  by destruct (_ || _).
Qed.

(** The entries a repair leaves in the root. *)
Definition root_ids (w : option (option string * FsckData * FsckDisk)) : list string :=
  match w with
  | Some (Some id, _, k) => match seaf_fs_manager_get_seafdir (fs_of k) 1 id with Some d => d_id <$> entries d | None => [] end
  | _ => []
  end.

(** Two files share a damaged block: the first is emptied and the block removed, the second
    is kept although its block is gone. *)
Definition shared_disk : FsckDisk :=
  mkDisk (<[id_1 := Whole (ODir (mkDir 1 id_1 [sick_file "f" id_2; sick_file "g" id_3]))]>
           (<[id_2 := Whole (OFile (mkFile 1 id_2 3 ["b1"]))]> {[id_3 := Whole (OFile (mkFile 1 id_3 3 ["b1"]))]}))
         {["b1" := false]}.

Lemma shared_damaged_block_missed :
  root_ids (fsck_check_dir_recursive sick_hash (mkOptions true false true) 1 7 no_fails 2 id_1 "/"
    (mkFsck ∅ [] [] false) shared_disk) = [EMPTY_SHA1; id_3].
Proof. vm_compute. reflexivity. Qed.

(** A file that cannot be read when its blocks are looked for is emptied, although it is
    sound. *)
Lemma unreadable_file_emptied :
  root_ids (fsck_check_dir_recursive sick_hash repairing 1 7
    (fun op id => match op with IoObjLoad => String.eqb id id_2 | _ => false end) 2 id_1 "/" (mkFsck ∅ [] [] false)
    (mkDisk (k_objs shared_disk) {["b1" := true]})) = [EMPTY_SHA1; id_3].
Proof. vm_compute. reflexivity. Qed.

(** The root of the head is damaged, an older commit is sound: the check without repair
    reports success. *)
Lemma damaged_head_passes :
  result_is 0 (lib_check (mkOptions false false false) no_fails [lib_commit c_2 id_1 4 None]
    (lib_world {[c_1 := lib_commit c_1 id_3 5 (Some c_2); c_2 := lib_commit c_2 id_1 4 None]}
       (mkDisk (<[id_3 := Broken None]> (k_objs well_disk)) (k_blocks well_disk)))) = true.
Proof. vm_compute. reflexivity. Qed.

(** A mended directory that has the id of a damaged object is not written. *)
Lemma damaged_object_reused :
  match fsck_check_dir_recursive sick_hash repairing 1 7 no_fails 2 id_1 "/" (mkFsck ∅ [] [] false)
          (mkDisk (<[id_new := Broken None]> (k_objs sick_disk)) (k_blocks sick_disk)) with
  | Some (Some id, _, k) => negb (is_none (seaf_fs_manager_get_seafdir (fs_of k) 1 id))
  | _ => true
  end = false.
Proof. vm_compute. reflexivity. Qed.
