(* ===== verification/Download.v ===== *)
(** * Sending files ([server/access-file.c])

    A file is sent by a callback that is called whenever the connection can take more: each
    call reads a piece of the current block, or goes on to the next one.  A range is sent the
    same way from the block in which it starts.  Blocks of encrypted libraries are decrypted
    piece by piece. *)

From S2P Require Import Prelude Hex FsObj Paths FsMgr Multipart.
From Stdlib Require Import Ascii.

Abbreviation data := (list Z).

Definition BUFFER_SIZE : Z := 64 * 1024.
Definition EVHTP_RES_PARTIAL : Z := 206.
Definition EVHTP_RES_RANGENOTSC : Z := 416.

(** ** Ranges *)

(** [strchr]: the text before and after the character. *)
Fixpoint strchr (c : Ascii.ascii) (l : Multipart.bytes) : option (Multipart.bytes * Multipart.bytes) :=
  match l with
  | [] => None
  | x :: l => if Ascii.eqb x c then Some ([], l) else '(a, b) ← strchr c l; Some (x :: a, b)
  end.

(** The numbers are [guint64]. *)
Definition parse_range_val (byte_ranges : Multipart.bytes) (fsize : Z) : option (Z * Z) :=
  '(_, tmp) ← strchr "="%char byte_ranges;
  '(before, after) ← strchr "-"%char tmp;
  let '(v, end_ptr) := strtoll tmp in
  let at_minus := (length end_ptr =? S (length after))%nat in
  '(start, end_) ←
    match before, after with
    | [], _ =>
        if u64 v =? 0 then None
        else match end_ptr with [] => Some (u64 (u64 v + fsize), u64 (fsize - 1)) | _ => None end
    | _, [] => if at_minus then Some (u64 v, u64 (fsize - 1)) else None
    | _, _ =>
        if at_minus then let '(e, end_ptr) := strtoll after in match end_ptr with [] => Some (u64 v, u64 e) | _ => None end
        else None
    end;
  let end_ := if u64 (fsize - 1) <? end_ then u64 (fsize - 1) else end_ in
  if end_ <? start then None else Some (start, end_).

(** ** Reading blocks *)

(** What a call of a callback does: the connection is closed, memory is read that is not the
    file's, bytes are sent and there is more, or bytes are sent and the reply ends. *)
Inductive cb_result (S : Type) := CbError | CbFault | CbSend (out : data) (s : S) | CbEnd (out : data).
Arguments CbError {S}.
Arguments CbFault {S}.
Arguments CbSend {S}.
Arguments CbEnd {S}.

Section send.
(** The blocks, by id; opening that fails; the blocks of the file, its size. *)
Context (blocks : gmap string data) (open_fails : string -> bool) (ids : list string) (file_size : Z).

(** A read of at most [bsize] bytes gives at least one byte before the end; [choice] is how
    many there are to be had. *)
Definition read_block (choice : Z) (h : data) (bsize : Z) : data * data :=
  let n := Z.min (Z.of_nat (length h)) bsize in
  let n := if n =? 0 then 0 else Z.max 1 (Z.min choice n) in
  (take (Z.to_nat n) h, drop (Z.to_nat n) h).

Definition open_block (id : string) : option data := if open_fails id then None else blocks !! id.

(** The state of a range: the index of the block, what is left of the open block, the bytes
    still to be sent. *)
Record SendFileRangeData := mkRange { rg_blk_idx : Z; rg_handle : option data; rg_start_off : Z; rg_range_remain : Z }.

(** The block in which the range starts, with its index and the bytes before it. *)
Fixpoint find_start_block (l : list string) (i tolsize start : Z) : option (Z * string * Z) :=
  match l with
  | [] => None
  | id :: l =>
      b ← blocks !! id;
      let next := u64 (tolsize + Z.of_nat (length b)) in
      if start <? next then Some (i, id, tolsize) else find_start_block l (i + 1) next start
  end.

(** [trim]: how many bytes the read up to the start of the range gets. *)
Definition get_start_block_handle (trim start : Z) : option (data * Z) :=
  '(i, id, tolsize) ← find_start_block ids 0 0 start;
  handle ← open_block id;
  if tolsize <? start then
    let '(got, h) := read_block trim handle (start - tolsize) in
    if negb (Z.of_nat (length got) =? start - tolsize) then None else Some (h, i)
  else Some (handle, i).

(** From [next] on. *)
Fixpoint range_next (fuel : nat) (choice : Z) (d : SendFileRangeData) : cb_result SendFileRangeData :=
  match fuel with
  | O => CbFault
  | S fuel =>
      match ids !! Z.to_nat (rg_blk_idx d) with
      | None => CbFault
      | Some blk_id =>
          match (match rg_handle d with Some h => Some h | None => open_block blk_id end) with
          | None => CbError
          | Some h =>
              let bsize := if rg_range_remain d <? BUFFER_SIZE then rg_range_remain d else BUFFER_SIZE in
              match read_block choice h bsize with
              | ([], _) => range_next fuel choice (mkRange (rg_blk_idx d + 1) None (rg_start_off d) (rg_range_remain d))
              | (buf, h) =>
                  let remain := u64 (rg_range_remain d - Z.of_nat (length buf)) in
                  if remain =? 0 then CbEnd buf else CbSend buf (mkRange (rg_blk_idx d) (Some h) (rg_start_off d) remain)
              end
          end
      end
  end.

(** At most one turn for each block and one more. *)
Definition write_file_range_cb (trim choice : Z) (d : SendFileRangeData) : cb_result SendFileRangeData :=
  if rg_blk_idx d =? -1 then
    match get_start_block_handle trim (rg_start_off d) with
    | None => CbError
    | Some (h, i) => range_next (S (length ids)) choice (mkRange i (Some h) (rg_start_off d) (rg_range_remain d))
    end
  else range_next (S (length ids)) choice d.

(** The replies of [do_file_range]: at once, or the data the callback starts with. *)
Definition do_file_range (byte_ranges : Multipart.bytes) : Z + Z * Z * SendFileRangeData :=
  match ids with
  | [] => inl 200
  | _ =>
      match parse_range_val byte_ranges (u64 file_size) with
      | None => inl EVHTP_RES_RANGENOTSC
      | Some (start, end_) => inr (start, end_, mkRange (-1) None start (u64 (end_ - start + 1)))
      end
  end.

(** ** Whole files *)

(** The decryption of a block: [EVP_DecryptInit_ex], [EVP_DecryptUpdate],
    [EVP_DecryptFinal_ex]. *)
Context {ctx : Type} (crypt : option (option ctx * (ctx -> data -> option (ctx * data)) * (ctx -> option data))).

Record SendfileData := mkSend { sf_idx : nat; sf_handle : option (data * option ctx); sf_remain : Z }.

(** The open block with its context and its size. *)
Definition open_next (s : SendfileData) (blk_id : string) : option (data * option ctx * Z) :=
  match sf_handle s with
  | Some (h, c) => Some (h, c, sf_remain s)
  | None =>
      h ← open_block blk_id;
      match crypt with
      | None => Some (h, None, Z.of_nat (length h))
      | Some (init, _, _) => c ← init; Some (h, Some c, Z.of_nat (length h))
      end
  end.

(** The bytes a piece is sent as. *)
Definition decrypt_piece (c : option ctx) (buf : data) (remain : Z) : option (option ctx * data) :=
  match crypt, c with
  | Some (_, update, final), Some c =>
      '(c, out) ← update c buf;
      if remain =? 0 then rest ← final c; Some (Some c, out ++ rest) else Some (Some c, out)
  | _, _ => Some (c, buf)
  end.

Fixpoint file_next (fuel : nat) (choice : Z) (s : SendfileData) : cb_result SendfileData :=
  match fuel with
  | O => CbFault
  | S fuel =>
      match ids !! sf_idx s with
      | None => CbFault
      | Some blk_id =>
          match open_next s blk_id with
          | None => CbError
          | Some (h, c, remain) =>
              let '(buf, h) := read_block choice h BUFFER_SIZE in
              let remain := u64 (remain - Z.of_nat (length buf)) in
              match buf with
              | [] =>
                  if (sf_idx s =? length ids - 1)%nat then CbEnd [] else file_next fuel choice (mkSend (S (sf_idx s)) None remain)
              | _ =>
                  match decrypt_piece c buf remain with
                  | None => CbError
                  | Some (c, out) => CbSend out (mkSend (sf_idx s) (Some (h, c)) remain)
                  end
              end
          end
      end
  end.

Definition write_data_cb (choice : Z) (s : SendfileData) : cb_result SendfileData := file_next (S (length ids)) choice s.

(** The reply of [do_file], or the data the callback starts with. *)
Definition do_file (head_request : bool) : Z + SendfileData :=
  if head_request then inl 200 else match ids with [] => inl 200 | _ => inr (mkSend 0 None 0) end.
End send.

(** ** What arrives *)

(** The callback is called until the reply ends; [choices]: how many bytes each read gets. *)
Fixpoint send_all {S} (cb : Z -> S -> cb_result S) (fuel : nat) (choices : nat -> Z) (s : S) : option data :=
  match fuel with
  | O => None
  | Datatypes.S fuel =>
      match cb (choices fuel) s with
      | CbEnd out => Some out
      | CbSend out s => app out <$> send_all cb fuel choices s
      | CbError | CbFault => None
      end
  end.

Lemma read_block_spec choice h bsize :
  0 < bsize -> h <> [] -> exists n, (0 < n)%nat /\ Z.of_nat n <= bsize /\ (n <= length h)%nat /\ read_block choice h bsize = (take n h, drop n h).
Proof.
  intros Hb Hne. unfold read_block. assert (0 < Z.of_nat (length h)) by (destruct h; [done|cbn [length]; lia]).
  destruct (Z.eqb_spec (Z.min (Z.of_nat (length h)) bsize) 0); [lia|]. eexists. split; [|split; [|split; [|reflexivity]]]; lia.
Qed.

Lemma read_empty choice bsize : read_block choice [] bsize = ([], []).
Proof. unfold read_block. by rewrite take_nil, drop_nil. Qed.

Section sent.
Context (blocks : gmap string data) (open_fails : string -> bool) (ids : list string).
(** The blocks of the file are there and can be opened. *)
Context (Hblocks : forall id, id ∈ ids -> is_Some (blocks !! id) /\ open_fails id = false).

Definition block_data (id : string) : data := default [] (blocks !! id).
(** The bytes of the file from a block on. *)
Definition contents_from (i : nat) : data := concat (block_data <$> drop i ids).
Abbreviation contents := (contents_from 0).

Lemma contents_cons i id : ids !! i = Some id -> contents_from i = block_data id ++ contents_from (S i).
Proof. intros H. unfold contents_from. by rewrite (drop_S _ _ _ H). Qed.

Lemma contents_end i : (length ids <= i)%nat -> contents_from i = [].
Proof. intros H. unfold contents_from. by rewrite drop_ge. Qed.

Lemma open_ok id : id ∈ ids -> open_block blocks open_fails id = Some (block_data id).
Proof. intros H. destruct (Hblocks id H) as [[b Hb] Ho]. unfold open_block, block_data. by rewrite Ho, Hb. Qed.

Lemma fetched i id : ids !! i = Some id -> open_block blocks open_fails id = Some (block_data id).
Proof. intros H. apply open_ok. by eapply list_elem_of_lookup_2. Qed.

(** A range under way: [rest] are the bytes of the file from the next one on. *)
Definition ranging (d : SendFileRangeData) (rest : data) : Prop :=
  exists i h, rg_blk_idx d = Z.of_nat i /\ (i < length ids)%nat /\ rg_handle d = Some h /\ rest = h ++ contents_from (S i) /\
    0 < rg_range_remain d <= Z.of_nat (length rest) /\ rg_range_remain d < 2 ^ 64.

Lemma range_next_spec choice : forall fuel i oh so remain rest,
  (length ids < fuel + i)%nat -> (i < length ids)%nat ->
  rest = (match oh with Some h => h | None => block_data (ids !!! i) end) ++ contents_from (S i) ->
  0 < remain <= Z.of_nat (length rest) -> remain < 2 ^ 64 ->
  exists n, (0 < n)%nat /\ Z.of_nat n <= remain /\
    ((Z.of_nat n = remain /\ range_next blocks open_fails ids fuel choice (mkRange (Z.of_nat i) oh so remain) = CbEnd (take n rest)) \/
     (exists d, range_next blocks open_fails ids fuel choice (mkRange (Z.of_nat i) oh so remain) = CbSend (take n rest) d /\
        rg_range_remain d = remain - Z.of_nat n /\ ranging d (drop n rest) /\ rg_blk_idx d <> -1)).
Proof.
  induction fuel as [|fuel IH]; intros i oh so remain rest Hf Hi Hrest Hr Hr2; [lia|]. cbn [range_next rg_blk_idx rg_handle rg_range_remain rg_start_off].
  rewrite Nat2Z.id. destruct (lookup_lt_is_Some_2 ids i Hi) as [id Hid]. rewrite Hid.
  rewrite (list_lookup_total_correct _ _ _ Hid) in Hrest.
  set (h := match oh with Some h => h | None => block_data id end) in *.
  assert ((match oh with Some h => Some h | None => open_block blocks open_fails id end) = Some h) as ->
    by (subst h; destruct oh; [done|by apply (fetched i)]).
  destruct h as [|z h'] eqn:Eh.
  - rewrite read_empty. assert (Hi' : (S i < length ids)%nat).
    { destruct (decide (S i < length ids)%nat); [done|]. rewrite Hrest, contents_end in Hr by lia. cbn in Hr. lia. }
    destruct (lookup_lt_is_Some_2 ids (S i) Hi') as [id' Hid']. replace (Z.of_nat i + 1) with (Z.of_nat (S i)) by lia.
    apply IH; try done; [lia|]. rewrite (list_lookup_total_correct _ _ _ Hid'), Hrest. cbn [app]. by apply contents_cons.
  - assert (Hne : h <> []) by congruence. rewrite <- Eh in *. clear Eh z h'.
    set (bsize := if remain <? BUFFER_SIZE then remain else BUFFER_SIZE).
    assert (Hb : 0 < bsize <= remain) by (unfold bsize, BUFFER_SIZE; destruct (Z.ltb_spec remain (64 * 1024)); lia).
    destruct (read_block_spec choice h bsize) as (n & Hn & Hnb & Hnl & ->); [lia|done|].
    assert (Hlen : length (take n h) = n) by (rewrite length_take; lia).
    assert (Ht : take n rest = take n h) by (by rewrite Hrest, take_app_le).
    exists n. split; [done|]. split; [lia|]. rewrite Ht. destruct (take n h) as [|y t] eqn:Et; [cbn in Hlen; lia|].
    rewrite Hlen, u64_id by lia. destruct (Z.eqb_spec (remain - Z.of_nat n) 0) as [Hz|Hz]; [left; split; [lia|done]|].
    right. eexists. split; [done|]. cbn [rg_range_remain rg_blk_idx]. split; [done|]. split; [|lia].
    exists i, (drop n h). cbn [rg_range_remain rg_blk_idx rg_handle]. split_and!; try done; [by rewrite Hrest, drop_app_le|lia| |lia].
    rewrite length_drop. lia.
Qed.

Lemma range_rest_sent choices trim : forall fuel d rest,
  ranging d rest -> rg_blk_idx d <> -1 -> rg_range_remain d <= Z.of_nat fuel ->
  send_all (write_file_range_cb blocks open_fails ids trim) fuel choices d = Some (take (Z.to_nat (rg_range_remain d)) rest).
Proof.
  induction fuel as [|fuel IH]; intros d rest (i & h & Hi & Hil & Hh & Hrest & Hr & Hr2) Hidx Hf; [lia|].
  cbn [send_all]. assert (write_file_range_cb blocks open_fails ids trim (choices fuel) d =
    range_next blocks open_fails ids (S (length ids)) (choices fuel) d) as ->
    by (unfold write_file_range_cb; by rewrite (proj2 (Z.eqb_neq _ _) Hidx)).
  assert (d = mkRange (Z.of_nat i) (Some h) (rg_start_off d) (rg_range_remain d)) as Ed by (destruct d; cbn in *; congruence).
  destruct (range_next_spec (choices fuel) (S (length ids)) i (Some h) (rg_start_off d) (rg_range_remain d) rest)
    as (n & Hn & Hnr & [[He E]|(d' & E & Hrem & Hd' & Hidx')]); try done; [lia| |]; rewrite <- Ed in E; rewrite E.
  - by replace (Z.to_nat (rg_range_remain d)) with n by lia.
  - rewrite (IH d' _ Hd' Hidx') by lia. cbn. f_equal. rewrite Hrem.
    rewrite <- (take_drop n rest) at 3. rewrite take_app. assert (Hl : (n <= length rest)%nat) by lia.
    rewrite length_take, (take_ge (take n rest)) by (rewrite length_take; lia). f_equal. f_equal. lia.
Qed.

Lemma find_start_spec : forall l i tol start pre,
  ids = pre ++ l -> i = Z.of_nat (length pre) -> tol = Z.of_nat (length (concat (block_data <$> pre))) ->
  tol <= start < Z.of_nat (length contents) -> Z.of_nat (length contents) < 2 ^ 64 ->
  exists j id tol', find_start_block blocks l i tol start = Some (Z.of_nat j, id, tol') /\ ids !! j = Some id /\
    tol' <= start < tol' + Z.of_nat (length (block_data id)) /\ tol' = Z.of_nat (length (concat (block_data <$> take j ids))).
Proof.
  induction l as [|id l IH]; intros i tol start pre Hids Hi Htol Hs Hc.
  - exfalso. rewrite app_nil_r in Hids. unfold contents_from in Hs. rewrite drop_0, Hids in Hs. lia.
  - cbn [find_start_block]. assert (Hj : ids !! length pre = Some id) by (rewrite Hids; by apply list_lookup_middle).
    destruct (Hblocks id) as [[b Hb] _]; [by eapply list_elem_of_lookup_2|]. rewrite Hb. cbn.
    assert (Hbd : block_data id = b) by (unfold block_data; by rewrite Hb).
    assert (Hle : tol + Z.of_nat (length b) <= Z.of_nat (length contents)).
    { unfold contents_from. rewrite drop_0, Hids, fmap_app, concat_app, fmap_cons. cbn [concat]. rewrite !length_app, Hbd. lia. }
    rewrite u64_id by lia. destruct (Z.ltb_spec start (tol + Z.of_nat (length b))) as [Hlt|Hge].
    + exists (length pre), id, tol. split; [by rewrite Hi|]. split; [done|]. rewrite Hbd. split; [lia|].
      rewrite Hids, take_app_length. done.
    + apply (IH _ _ _ (pre ++ [id])); try done; [by rewrite <- app_assoc|rewrite length_app; cbn; lia| |lia].
      rewrite fmap_app, concat_app, length_app. cbn [fmap list_fmap concat]. rewrite app_nil_r, Hbd. lia.
Qed.

(** The block a range starts in, read up to its start. *)
Lemma start_handle trim start :
  0 <= start < Z.of_nat (length contents) -> Z.of_nat (length contents) < 2 ^ 64 ->
  (forall id, id ∈ ids -> Z.of_nat (length (block_data id)) <= trim) ->
  exists i h, get_start_block_handle blocks open_fails ids trim start = Some (h, Z.of_nat i) /\ (i < length ids)%nat /\
    drop (Z.to_nat start) contents = h ++ contents_from (S i).
Proof.
  intros Hs Hc Htrim. destruct (find_start_spec ids 0 0 start []) as (i & id & tol & E & Hid & Ht & Htol); try done.
  assert (Hall : contents = concat (block_data <$> take i ids) ++ block_data id ++ contents_from (S i)).
  { unfold contents_from. rewrite drop_0. rewrite <- (take_drop_middle ids i id Hid) at 1. by rewrite fmap_app, concat_app. }
  assert (Hd : drop (Z.to_nat start) contents = drop (Z.to_nat (start - tol)) (block_data id) ++ contents_from (S i)).
  { rewrite Hall, drop_app_ge by lia. rewrite drop_app_le by lia. f_equal. f_equal. lia. }
  unfold get_start_block_handle. rewrite E. cbn. rewrite (fetched i id Hid). cbn.
  exists i. destruct (Z.ltb_spec tol start) as [Hlt|Hge].
  - pose proof (Htrim id ltac:(by eapply list_elem_of_lookup_2)) as Htr. unfold read_block.
    rewrite (Z.min_r (Z.of_nat (length (block_data id)))) by lia. destruct (Z.eqb_spec (start - tol) 0); [lia|].
    rewrite Z.min_r, Z.max_r by lia. rewrite length_take. destruct (Z.eqb_spec (Z.of_nat (Z.to_nat (start - tol) `min` length (block_data id))) (start - tol)); [|lia].
    cbn. eexists. split; [done|]. split; [by eapply lookup_lt_Some|done].
  - exists (block_data id). split; [done|]. split; [by eapply lookup_lt_Some|]. rewrite Hd. replace (Z.to_nat (start - tol)) with 0%nat by lia. done.
Qed.

Lemma range_bounds r fsize start end_ : 0 < fsize < 2 ^ 64 -> parse_range_val r fsize = Some (start, end_) -> 0 <= start <= end_ /\ end_ < fsize.
Proof.
  intros Hf. unfold parse_range_val. destruct (strchr _ _) as [[? tmp]|]; [|done]. cbn.
  destruct (strchr _ tmp) as [[before after]|]; [|done]. cbn. destruct (strtoll tmp) as [v end_ptr].
  destruct (match before with [] => _ | _ => _ end) as [[s e]|] eqn:E; [|done]. cbn. rewrite (u64_id (fsize - 1)) by lia.
  assert (Hu : 0 <= s).
  { assert (Hp : forall z, 0 <= u64 z) by (intros z; unfold u64; apply Z.mod_pos_bound; lia).
    destruct before, after; repeat case_match; simplify_eq; auto. }
  destruct (Z.ltb_spec (fsize - 1) e); (match goal with |- context [?a <? s] => destruct (Z.ltb_spec a s) end; [done|]); intros [= <- <-]; lia.
Qed.

(** C23: A range of a file whose blocks are all there is sent exactly, however many bytes each
    read gets: the reply announces a range within the file, each call of the callback sends
    at least a byte, and when the reply ends, after at most as many calls as there are bytes,
    the client has got exactly these bytes of the file; nothing outside the file is read. *)
Theorem range_sent_exactly trim choices byte_ranges file_size start end_ d :
  file_size = Z.of_nat (length contents) -> 0 < file_size < 2 ^ 63 ->
  (forall id, id ∈ ids -> Z.of_nat (length (block_data id)) <= trim) ->
  do_file_range ids file_size byte_ranges = inr (start, end_, d) ->
  0 <= start <= end_ /\ end_ < file_size /\
  send_all (write_file_range_cb blocks open_fails ids trim) (Z.to_nat (end_ - start + 1)) choices d =
    Some (take (Z.to_nat (end_ - start + 1)) (drop (Z.to_nat start) contents)).
Proof.
  intros Hsize Hpos Htrim E. unfold do_file_range in E. rewrite u64_id in E by lia.
  destruct (parse_range_val byte_ranges file_size) as [[s e]|] eqn:Ep; [|by destruct ids].
  assert (s = start /\ e = end_ /\ d = mkRange (-1) None start (u64 (end_ - start + 1))) as (-> & -> & ->)
    by (destruct ids; simplify_eq; done).
  apply range_bounds in Ep as [Hs He]; [|lia]. split; [done|]. split; [done|]. rewrite u64_id by lia.
  destruct (start_handle trim start) as (i & h & Eh & Hi & Hd); [lia|lia|done|].
  destruct (Z.to_nat (end_ - start + 1)) as [|fuel] eqn:Ef; [lia|]. cbn [send_all].
  assert (write_file_range_cb blocks open_fails ids trim (choices fuel) (mkRange (-1) None start (end_ - start + 1)) =
    range_next blocks open_fails ids (S (length ids)) (choices fuel) (mkRange (Z.of_nat i) (Some h) start (end_ - start + 1))) as ->
    by (unfold write_file_range_cb; cbn [rg_blk_idx rg_start_off rg_range_remain]; by rewrite Eh).
  rewrite Hd. assert (Hl : Z.of_nat (length (h ++ contents_from (S i))) = file_size - start) by (rewrite <- Hd, length_drop; lia).
  destruct (range_next_spec (choices fuel) (S (length ids)) i (Some h) start (end_ - start + 1) (h ++ contents_from (S i)))
    as (n & Hn & Hnr & [[Hend E1]|(d' & E1 & Hrem & Hd' & Hidx')]); try done; [lia|lia|lia| |]; rewrite E1.
  - f_equal. f_equal. lia.
  - rewrite (range_rest_sent choices trim fuel d' _ Hd' Hidx') by lia. cbn. f_equal. rewrite Hrem.
    set (rest := h ++ contents_from (S i)) in *. rewrite <- (take_drop n rest) at 3. rewrite take_app, length_take, (take_ge (take n rest)) by (rewrite length_take; lia).
    f_equal. f_equal. lia.
Qed.
End sent.

(** ** Whole files arrive *)

Section whole.
Context {ctx : Type} (init : option ctx) (update : ctx -> data -> option (ctx * data)) (final : ctx -> option data).

(** A block that is decrypted in pieces. *)
Fixpoint stream (c : ctx) (ps : list data) : option data :=
  match ps with
  | [] => None
  | [p] => '(c, out) ← update c p; rest ← final c; Some (out ++ rest)
  | p :: ps => '(c, out) ← update c p; app out <$> stream c ps
  end.

Lemma stream_cons c p ps c' out : ps <> [] -> update c p = Some (c', out) -> stream c (p :: ps) = app out <$> stream c' ps.
Proof. intros Hne E. destruct ps as [|p' ps]; [done|]. cbn [stream]. by rewrite E. Qed.

(** [plain] is the decryption of a block in whatever pieces. *)
Definition decrypts_to (c : ctx) (block plain : data) : Prop :=
  forall ps, ps <> [] -> Forall (fun p => p <> []) ps -> concat ps = block -> stream c ps = Some plain.

Lemma decrypts_first c p h plain : p <> [] -> h <> [] -> decrypts_to c (p ++ h) plain ->
  exists c' out plain', update c p = Some (c', out) /\ plain = out ++ plain' /\ decrypts_to c' h plain'.
Proof.
  intros Hp Hh H. pose proof (H [p; h] ltac:(done) ltac:(by repeat constructor) ltac:(cbn; by rewrite app_nil_r)) as E.
  cbn [stream] in E. apply bind_Some in E as ([c' out] & E & E1). apply fmap_Some in E1 as (plain' & _ & ->).
  exists c', out, plain'. split; [done|]. split; [done|]. intros ps Hne HF Hc.
  pose proof (H (p :: ps) ltac:(done) ltac:(by constructor) ltac:(cbn; by rewrite Hc)) as E2. cbn [stream] in E2.
  destruct ps as [|p' ps]; [done|]. rewrite E in E2. cbn in E2. apply fmap_Some in E2 as (plain2 & Heq & Hp2).
  change (stream c' (p' :: ps) = Some plain2) in Heq. rewrite Heq. f_equal. by apply app_inv_head in Hp2.
Qed.

Lemma decrypts_last c p plain : p <> [] -> decrypts_to c p plain ->
  exists c' out rest, update c p = Some (c', out) /\ final c' = Some rest /\ plain = out ++ rest.
Proof.
  intros Hp H. pose proof (H [p] ltac:(done) ltac:(by repeat constructor) ltac:(cbn; by rewrite app_nil_r)) as E.
  cbn [stream] in E. apply bind_Some in E as ([c' out] & E & E1). apply bind_Some in E1 as (rest & E2 & [= <-]). by exists c', out, rest.
Qed.
End whole.

Section whole_file.
Context (blocks : gmap string data) (open_fails : string -> bool) (ids : list string).
Context (Hblocks : forall id, id ∈ ids -> is_Some (blocks !! id) /\ open_fails id = false).
Context {ctx : Type} (crypt : option (option ctx * (ctx -> data -> option (ctx * data)) * (ctx -> option data))).

(** What is left of a block will be sent as [out]. *)
Definition sent_as (c : option ctx) (h out : data) : Prop :=
  if decide (h = []) then out = []
  else match crypt with
       | None => out = h
       | Some (_, update, final) => exists c', c = Some c' /\ decrypts_to update final c' h out
       end.

(** The text of each block; OpenSSL decrypts a block to it in whatever pieces. *)
Context (plain : string -> data).
Definition readable_block (id : string) : Prop :=
  match crypt with
  | None => plain id = block_data blocks id
  | Some (init, update, final) =>
      exists c, init = Some c /\
        if decide (block_data blocks id = []) then plain id = [] else decrypts_to update final c (block_data blocks id) (plain id)
  end.
Context (Hplain : forall id, id ∈ ids -> readable_block id).
Context (Hsize : Z.of_nat (length (contents_from blocks ids 0)) < 2 ^ 64).

Definition plain_from (i : nat) : data := concat (plain <$> drop i ids).

Lemma open_next_spec i id r : ids !! i = Some id -> exists c,
  open_next blocks open_fails crypt (mkSend i None r) id = Some (block_data blocks id, c, Z.of_nat (length (block_data blocks id))) /\
  sent_as c (block_data blocks id) (plain id).
Proof.
  intros Hid. pose proof (Hplain id ltac:(by eapply list_elem_of_lookup_2)) as Hp. unfold open_next, sent_as, readable_block in *. cbn [sf_handle].
  rewrite (fetched blocks open_fails ids Hblocks i id Hid). cbn. destruct crypt as [[[init update] final]|].
  - destruct Hp as (c & -> & Hp). exists (Some c). split; [done|]. destruct (decide _); [done|]. by exists c.
  - exists None. split; [done|]. rewrite Hp. by destruct (decide _).
Qed.

Lemma piece_sent c h n out : (0 < n <= length h)%nat -> Z.of_nat (length h) < 2 ^ 64 -> sent_as c h out ->
  exists c' o out', decrypt_piece crypt c (take n h) (Z.of_nat (length (drop n h))) = Some (c', o) /\ out = o ++ out' /\ sent_as c' (drop n h) out'.
Proof.
  intros Hn Hl Hs. assert (Hne : h <> []) by (by destruct h; cbn in Hn; [lia|]).
  assert (Ht : take n h <> []) by (destruct h, n; cbn in *; done || lia). rewrite <- (take_drop n h) in Hs at 1.
  unfold sent_as in Hs. rewrite decide_False in Hs by (by rewrite take_drop). unfold decrypt_piece, sent_as.
  destruct crypt as [[[init update] final]|].
  - destruct Hs as (c' & -> & Hd). destruct (decide (drop n h = [])) as [E|E].
    + rewrite E, app_nil_r in Hd. apply decrypts_last in Hd as (c1 & o & rest & Eu & Ef & ->); [|done].
      rewrite E. cbn. rewrite Eu. cbn. rewrite Ef. cbn. exists (Some c1), (o ++ rest), []. split_and!; [done|by rewrite app_nil_r|done].
    + apply decrypts_first in Hd as (c1 & o & out' & Eu & -> & Hd); [|done|done]. rewrite Eu. cbn.
      destruct (Z.eqb_spec (Z.of_nat (length (drop n h))) 0) as [Hz|_]; [destruct (drop n h); [done|cbn in Hz; lia]|].
      exists (Some c1), o, out'. split_and!; [done|done|]. by exists c1.
  - subst out. exists c, (take n h), (drop n h). split_and!; [done|by rewrite take_drop|]. by destruct (decide _).
Qed.

(** A file under way: [todo] is the text still to be sent, [m] the bytes still to be read. *)
Definition sending (s : SendfileData) (todo : data) (m : nat) : Prop :=
  exists i id, sf_idx s = i /\ ids !! i = Some id /\
    match sf_handle s with
    | None => todo = plain id ++ plain_from (S i) /\ m = length (contents_from blocks ids i)
    | Some (h, c) => exists out, sent_as c h out /\ todo = out ++ plain_from (S i) /\ sf_remain s = Z.of_nat (length h) /\
        (length h <= length (block_data blocks id))%nat /\ m = (length h + length (contents_from blocks ids (S i)))%nat
    end.

Lemma block_size i id : ids !! i = Some id -> Z.of_nat (length (block_data blocks id)) < 2 ^ 64.
Proof.
  intros Hid. unfold contents_from in Hsize. rewrite drop_0, <- (take_drop_middle ids i id Hid), fmap_app, concat_app, fmap_cons in Hsize.
  cbn [concat] in Hsize. rewrite !length_app in Hsize. lia.
Qed.

Lemma file_next_spec choice : forall fuel s todo m, (length ids < fuel + sf_idx s)%nat -> sending s todo m ->
  (file_next blocks open_fails ids crypt fuel choice s = CbEnd [] /\ todo = []) \/
  exists out s' todo' m', file_next blocks open_fails ids crypt fuel choice s = CbSend out s' /\ todo = out ++ todo' /\
    (m' < m)%nat /\ sending s' todo' m'.
Proof.
  induction fuel as [|fuel IH]; intros s todo m Hf (i & id & Hi & Hid & Hs); [apply lookup_lt_Some in Hid; lia|].
  cbn [file_next]. rewrite Hi, Hid.
  assert (exists h c out, open_next blocks open_fails crypt s id = Some (h, c, Z.of_nat (length h)) /\ sent_as c h out /\
    todo = out ++ plain_from (S i) /\ (length h <= length (block_data blocks id))%nat /\
    m = (length h + length (contents_from blocks ids (S i)))%nat) as (h & c & out & Eo & Hsa & -> & Hlen & ->).
  { destruct (sf_handle s) as [[h c]|] eqn:Eh.
    - destruct Hs as (out & Hsa & -> & Hr & Hl & ->). exists h, c, out. unfold open_next. rewrite Eh, Hr. by split_and!.
    - destruct Hs as [-> ->]. destruct (open_next_spec i id (sf_remain s) Hid) as (c & Eo & Hsa). exists (block_data blocks id), c, (plain id).
      assert (s = mkSend i None (sf_remain s)) as -> by (destruct s; cbn in *; congruence).
      split_and!; try done. by rewrite (contents_cons blocks ids i id Hid), length_app. }
  pose proof (block_size i id Hid) as Hbs. rewrite Eo. destruct (decide (h = [])) as [->|Hne].
  - rewrite read_empty. cbn [length]. unfold sent_as in Hsa. rewrite decide_True in Hsa by done. subst out. cbn [app].
    destruct (Nat.eqb_spec i (length ids - 1)) as [Hl|Hl].
    + left. split; [done|]. unfold plain_from. rewrite drop_ge; [done|lia].
    + pose proof (lookup_lt_Some _ _ _ Hid). destruct (lookup_lt_is_Some_2 ids (S i)) as [id' Hid']; [lia|].
      destruct (IH (mkSend (S i) None (u64 (Z.of_nat 0 - Z.of_nat 0))) (plain_from (S i)) (length (contents_from blocks ids (S i)))) as [H1|H1].
      * cbn [sf_idx]. lia.
      * exists (S i), id'. split; [done|]. split; [done|]. cbn [sf_handle]. split; [|done]. unfold plain_from at 1. by rewrite (drop_S _ _ _ Hid').
      * by left.
      * right. destruct H1 as (o & s' & todo' & m' & E & H1 & H2 & H3). exists o, s', todo', m'. cbn [length Nat.add]. by split_and!.
  - right. destruct (read_block_spec choice h BUFFER_SIZE) as (n & Hn & _ & Hnl & ->); [done|done|].
    destruct (piece_sent c h n out) as (c' & o & out' & Ed & -> & Hsa'); [lia|lia|done|].
    rewrite length_take, Nat.min_l by done. rewrite u64_id by lia.
    replace (Z.of_nat (length h) - Z.of_nat n) with (Z.of_nat (length (drop n h))) by (rewrite length_drop; lia).
    destruct (take n h) as [|y t] eqn:Et; [apply (f_equal length) in Et; rewrite length_take in Et; cbn in Et; lia|]. rewrite Ed.
    exists o, (mkSend i (Some (drop n h, c')) (Z.of_nat (length (drop n h)))), (out' ++ plain_from (S i)),
      (length (drop n h) + length (contents_from blocks ids (S i)))%nat.
    split; [done|]. split; [by rewrite app_assoc|]. split; [rewrite length_drop; lia|]. exists i, id. split; [done|]. split; [done|].
    cbn [sf_handle]. exists out'. split_and!; try done. rewrite length_drop. lia.
Qed.

Lemma file_rest_sent choices : forall fuel s todo m, sending s todo m -> (m < fuel)%nat ->
  send_all (write_data_cb blocks open_fails ids crypt) fuel choices s = Some todo.
Proof.
  induction fuel as [|fuel IH]; intros s todo m Hs Hm; [lia|]. cbn [send_all].
  assert (write_data_cb blocks open_fails ids crypt (choices fuel) s = file_next blocks open_fails ids crypt (S (length ids)) (choices fuel) s)
    as -> by done.
  destruct (file_next_spec (choices fuel) (S (length ids)) s todo m) as [[-> ->]|(out & s' & todo' & m' & -> & -> & Hm' & Hs')]; [lia|done|done|].
  by rewrite (IH s' todo' m') by (done || lia).
Qed.

(** C24: A file whose blocks are all there is sent completely: whatever the reads get, after at
    most one call more than the blocks have bytes the reply ends and the client has got the
    text of the file, of an encrypted library decrypted block by block, and nothing else. *)
Theorem file_sent_exactly choices s :
  do_file (ctx := ctx) ids false = inr s ->
  send_all (write_data_cb blocks open_fails ids crypt) (S (length (contents_from blocks ids 0))) choices s = Some (plain_from 0).
Proof.
  intros E. unfold do_file in E. destruct (ids !! 0%nat) as [id|] eqn:Hid; [|by apply lookup_ge_None in Hid; destruct ids; [|cbn in Hid; lia]].
  assert (s = mkSend 0 None 0) as -> by (destruct ids; simplify_eq; done).
  apply (file_rest_sent choices _ _ _ (length (contents_from blocks ids 0))); [|lia]. exists 0%nat, id. split; [done|]. split; [done|]. cbn [sf_handle]. split; [|done].
  unfold plain_from. by rewrite (drop_S _ _ _ Hid).
Qed.
End whole_file.

(** ** A file of three blocks *)

Definition three_blocks : gmap string data := {["a" := [1; 2; 3]; "b" := []; "c" := [4; 5; 6; 7]]}.
Definition three_ids : list string := ["a"; "b"; "c"].
Definition all_open (id : string) : bool := false.

Lemma three_there id : id ∈ three_ids -> is_Some (three_blocks !! id) /\ all_open id = false.
Proof.
  intros [->|[->|[->|[]%not_elem_of_nil]%elem_of_cons]%elem_of_cons]%elem_of_cons; (split; [|done]); vm_compute; by eexists.
Qed.

Lemma range_sent_exactly_witness :
  do_file_range three_ids 7 (lit "bytes=1-5") = inr (1, 5, mkRange (-1) None 1 5) /\
  send_all (write_file_range_cb three_blocks all_open three_ids 4) 5 (fun n => Z.of_nat n) (mkRange (-1) None 1 5) = Some [2; 3; 4; 5; 6].
Proof.
  assert (E : do_file_range three_ids 7 (lit "bytes=1-5") = inr (1, 5, mkRange (-1) None 1 5)) by (vm_compute; reflexivity).
  split; [exact E|].
  destruct (range_sent_exactly three_blocks all_open three_ids three_there 4 (fun n => Z.of_nat n) (lit "bytes=1-5") 7 1 5 (mkRange (-1) None 1 5))
    as (_ & _ & H); [vm_compute; reflexivity|lia| |exact E|exact H].
  intros id [->|[->|[->|[]%not_elem_of_nil]%elem_of_cons]%elem_of_cons]%elem_of_cons; vm_compute; discriminate.
Defined.

(** A cipher that adds one to each byte and holds back the last one. *)
Definition toy_update (held : data) (p : data) : option (data * data) :=
  let l := held ++ ((fun b => b - 1) <$> p) in Some (drop (length l - 1) l, take (length l - 1) l).
Definition toy_crypt : option (option data * (data -> data -> option (data * data)) * (data -> option data)) :=
  Some (Some [], toy_update, fun held => Some held).

Lemma toy_stream ps : forall held, ps <> [] -> stream toy_update (fun h => Some h) held ps = Some (held ++ ((fun b => b - 1) <$> concat ps)).
Proof.
  induction ps as [|p ps IH]; intros held Hne; [done|]. destruct ps as [|p' ps].
  - cbn [stream concat]. unfold toy_update. cbn. by rewrite take_drop, app_nil_r.
  - rewrite (stream_cons _ _ held p (p' :: ps) _ _ ltac:(done) eq_refl), IH by done. cbn [fmap option_fmap option_map].
    rewrite app_assoc, take_drop. cbn [concat]. by rewrite <- app_assoc, <- fmap_app.
Qed.

Lemma file_sent_exactly_witness :
  send_all (write_data_cb three_blocks all_open three_ids toy_crypt) 8 (fun n => Z.of_nat n) (mkSend 0 None 0) = Some [0; 1; 2; 3; 4; 5; 6].
Proof.
  assert (Some [0; 1; 2; 3; 4; 5; 6] = Some (plain_from three_ids (fun id => (fun b => b - 1) <$> block_data three_blocks id) 0)) as ->
    by (vm_compute; reflexivity).
  change 8%nat with (S (length (contents_from three_blocks three_ids 0))).
  apply (file_sent_exactly three_blocks all_open three_ids three_there toy_crypt
    (fun id => (fun b => b - 1) <$> block_data three_blocks id)); [|vm_compute; reflexivity|reflexivity].
  intros id _. exists []. split; [done|]. destruct (decide (block_data three_blocks id = [])) as [->|Hne]; [done|].
  intros ps Hp _ <-. by rewrite toy_stream.
Defined.

(** ** Where the code falls short *)

(** The last bytes of a file that is shorter than the request are refused. *)
Lemma long_suffix_refused : parse_range_val (lit "bytes=-10") 7 = None /\ parse_range_val (lit "bytes=-7") 7 = Some (0, 6).
Proof. by vm_compute. Qed.

(** A file whose blocks are shorter than its size: the callback reads past the end of the list
    of its blocks. *)
Lemma short_blocks_fault :
  write_file_range_cb three_blocks all_open three_ids 4 100 (mkRange 2 (Some []) 1 3) = CbFault.
Proof. by vm_compute. Qed.
